(* ===== verification/_CoqProject ===== *)
-Q . S2P
Prelude.v
Errors.v
GoText.v
Float.v
TopoSort.v
Event.v
Db.v
Outbox.v
OutboxWorker.v
UnitOfWork.v
Auth.v
Password.v
Messenger.v
MessengerMiddleware.v
MessengerWorker.v
Di.v
RequestTx.v
RateLimit.v
TokenBucket.v
Seed.v
SeedReport.v
SeedData.v
Io.v
Inbox.v
Cqrs.v
Cache.v
Concurrency.v
Resilience.v
Breaker.v
Pipeline.v
Config.v
Observability.v
GoTime.v
OutboxNotify.v
Domain.v
Json.v
EventBus.v
EventStream.v
Nats.v
Amqp.v
Http.v
HttpUtil.v
Server.v
Bootstrap.v
MessengerSerde.v
MessengerOutbox.v
MessengerRun.v
MessengerObserve.v
EndToEnd.v
