(* ===== verification/Prelude.v ===== *)
(** * wolf-core: a verification development

    wolf-core is a Go platform for services built from bounded-context modules: domain
    objects that record events, transactions that store those events in an outbox table, a
    relay that publishes them to a broker, a message bus with pluggable transports, a
    dependency injection container, and the infrastructure around them.  This library
    models those parts as executable definitions and proves what they promise.

    ** How the parts interact

    A module is registered and booted in dependency order.  A command handler changes
    aggregates; the aggregate base collects the events.  The unit of work runs the handler
    in a database transaction and inserts the drained events into [outbox_events] through
    the same transaction.  The relay worker claims rows under a lease, publishes them behind
    a circuit breaker, marks them published, releases the failed ones and moves the
    exhausted ones to the dead letter table.  Independently, a message bus sends a message
    through a chain of middleware to its handler or to a transport, and a consuming worker
    takes messages off a transport and dispatches them again.  HTTP requests and gRPC calls
    come in through chains of middleware, which authenticate them, limit them, record them and
    open their transactions; errors of every part are mapped to responses by code.  The
    application is built by opening its connections one after the other, gives the modules their
    routes and services, and then runs the servers, the relay and the notifier side by side until
    it is cancelled.

    ** Files

    - [Prelude.v]: results, outcomes of code that may panic or block ([outcome]), 64-bit
      wrap-around ([wrap64]), list lemmas, the hint database [wolf] and the tactics
      [decide_now], [list_in] and [split_match]; what a program holds open ([acquires],
      [releases]).
    - [Errors.v]: errors/errors.go, errors/capture.go and the transport mappings
      infra/middleware/http/error_handler.go, infra/http/httputil/response.go and
      infra/middleware/grpc/error_mapper.go.  A Go error is the tree of the errors it wraps.
    - [TopoSort.v]: infra/modular/registry.go.  [Kahn] is the loop of the sort, [Items] the
      tables built for a list of named items, [Modular] the module registry with
      [Register], [Modules] and the registration of infra/bootstrap/app.go.
    - [Event.v]: event/event.go ([Metadata], [NewEvent] and its options) and
      aggregate/base.go ([Base]).
    - [Db.v]: infra/db/tx.go, tx/context.go and tx/runner.go over a model of database/sql.
      [world] holds the committed rows, the writes of the open transaction, the program's
      memory and the environment of every driver call to come.
    - [Outbox.v]: infra/events/outbox/store.go, infra/events/outbox/middleware.go and
      infra/events/deadletter/store.go, one definition per SQL statement and per method.
    - [OutboxWorker.v]: infra/events/outbox/worker.go.  [poll] and [doPoll] are one cycle,
      [loop] the select loop, [wstep] the worker cut at its calls, and [sys_step] the system
      of any number of workers, clients and cleanups.
    - [UnitOfWork.v]: uow/unit_of_work.go on a heap of aggregates, against the interface
      [OutboxInserter], which the store of [Outbox.v] implements.
    - [Messenger.v]: messenger/typer.go, envelope.go, stamp/stamps.go, registry.go,
      handler.go, router.go, chain.go, middleware.go, options.go, bus.go and bus_set.go.
    - [MessengerMiddleware.v]: messenger/middleware: recovery.go, validation.go, timeout.go,
      conditional.go and retry.go.
    - [MessengerWorker.v]: messenger/transport/memory/transport.go,
      messenger/transport/circuit.go and the turns of messenger/worker.  [MessengerRun.v]: [Run] of
      messenger/worker as a machine of its goroutines, and signals.go.
    - [MessengerObserve.v]: messenger/middleware: logging.go, metrics.go and tracing.go.
    - [Di.v]: infra/di/container.go with the state of every [sync.Once] and scope mutex.
    - [RequestTx.v]: the transaction middleware of infra/middleware/http and of
      infra/middleware/grpc, for one request and for requests that share the container.
    - [RateLimit.v]: infra/ratelimit, one request after the other.  [TokenBucket.v]: the locks of
      token_bucket.go and its cleanup goroutine, as a machine that refines the former.
    - [Http.v]: the other middleware of infra/middleware/http and infra/middleware/grpc with
      their chains, and response.go, readiness.go and async.go of infra/http.  [HttpUtil.v]:
      validator, and response.go and bind.go of infra/http/httputil.
    - [Server.v]: infra/http/server.go, metrics_server.go and infra/grpc/server.go over an
      interface of the router.  [Bootstrap.v]: infra/bootstrap/app.go and
      infra/modular/container.go: [New] with the closers it collects, [RegisterModules], and the
      machine [Running.Run_step] of the goroutines of [Run].
    - [Observability.v]: infra/observability and the pools of infra/db, over interfaces of zap,
      Prometheus and OpenTelemetry.
    - [Auth.v]: auth, infra/auth and the authentication and role checks of both middleware
      packages, over an interface of the JWT library.  [Password.v]: infra/auth/password.go.
    - [Cqrs.v]: cqrs, with a reference semantics of queries and commands without a cache.
    - [Cache.v]: infra/cache and infra/decorator, over interfaces of Redis and the LRU.
    - [Seed.v]: infra/seed; its fake data and factories are [SeedData.v], its context
      marks, summary and option lists [SeedReport.v].  [Inbox.v]: infra/events/inbox and
      infra/idempotency.
    - [Concurrency.v]: sharded processing, worker pool and shutdown of infra/concurrency and
      infra/bootstrap/lifecycle.go.  [Pipeline.v]: futures, fan-out, fan-in, sender groups.
      [Resilience.v]: infra/resilience.  [Breaker.v]: how the circuit breakers are configured.
      The concurrent ones are machines whose moves are the steps of the goroutines.
    - [Io.v]: infra/io over a model of [bufio.Scanner], infra/pool, infra/security and
      infra/profiling.
    - [Config.v]: infra/config: records, defaults, loading over an interface of Viper, checks.
    - [Domain.v]: vo, entity, spec, policy, types, validator, infra/validation and clock.
    - [GoText.v] and [GoTime.v]: the functions of strings, strconv, base64 and time used by
      the others.  [Float.v]: float64 as rounded dyadic numbers with infinities and NaN, and the
      functions of math the backoffs use.  [Json.v]: JSON documents as trees, with field tables
      of structs.
    - [EventBus.v]: event (buses, registries, serde) and infra/events/inprocess/bus.go.
    - [EventStream.v]: messaging, infra/events/inprocess/stream.go and the publishers and
      factories of infra/events.  [Nats.v]: infra/events/nats over an interface of the JetStream
      client.  [OutboxNotify.v]: infra/events/outbox/notifier.go and health.go.  [Amqp.v]:
      infra/worker over an interface of the AMQP client.
    - [MessengerSerde.v]: messenger/serde.  [MessengerOutbox.v]: messenger/transport/outbox,
      messenger/transport/sync and the factory registry.
    - [EndToEnd.v]: no code of its own; it composes [UnitOfWork.v], [Outbox.v],
      [OutboxWorker.v] and [EventStream.v].

    ** What the theorems show

    - End to end: in a run without faults the relay drains the outbox, oldest rows first and each
      once, so every event that a unit of work committed reaches the handlers subscribed to its
      type exactly once, as it was recorded.
    - Delivery: along every interleaving of inserts, polls, crashes and cleanups an inserted
      event stays in the outbox until it has been published or dead-lettered, and the loop
      the code runs is such an interleaving.  The unit of work commits the handler's
      writes and all events or nothing.  [ClaimBatch] claims what it returns and nothing
      else.  Where the code departs from its comments the theorems say what it does: a
      released row blocks later claims when [lease_token] is nullable, a late release drops
      the lease of another worker, a failed transaction drains the aggregate.
    - Boot: [Modules] returns a permutation that respects dependencies, or an error exactly
      when a dependency is missing or the graph has a cycle.  [New] leaves nothing open when it
      fails, modules are registered in dependency order, and [Run] ends once it is cancelled, with
      its servers stopped; the routes of the modules do not run the global chain.
    - Brokers: through NATS an event arrives as it was published and a relayed entry is stored
      once; the notifier loses no wake-up across reconnects; a RabbitMQ consumer loses no task,
      but is dead after its connection is lost.
    - Streams: reading a text in chunks gives its lines whatever the chunks are.
    - Container: a singleton's factory runs at most once and its value is shared,
      resolution of singletons terminates, and nested scoped factories block.
    - Messenger: chains compose, buses route what is registered, the worker's effects on
      the transport, retries, recovery and validation; a routed message that a worker
      dispatches on the same bus goes back to its transport.  The shutdown of a worker ends.  The
      observing middleware do not change what a dispatch answers, and the trace of a message
      does not survive its transport.
    - Limits: in any window the sliding window admits at most [rate] requests and the fixed
      window at most twice that many; the token bucket keeps its rate per key under every
      interleaving, and dropping idle keys changes no answer for a burst of at most 600 times the
      rate.
      At most the configured number of requests runs behind the load shedder, and the table of
      clients stays bounded.
    - Requests: every answer of the HTTP chain has the security headers and no panic leaves
      either chain; a token pair validates to what it was made for and a revoked session is
      refused within thirty seconds.  A request alone is a transaction, but concurrent ones
      share their registration and can lose a committed write.
    - Messages: events and envelopes survive encoding, storage and transport; registered
      types are decoded safely; claims of the messenger outbox are disjoint; the inbox runs a
      handler at most once per event.
    - Caches and chains: the caching query chain refines the one without a cache, and the
      two-level cache is stale for less than its time to live.
    - Concurrency: pools, fan-out and shutdown lose nothing and keep their order and bounds;
      [WithRetry] has exactly the outcomes of its contract.
    - Backoff: in float64 arithmetic the delays of the messenger double up to their cap and stay
      between zero and the cap, and the jitter of infra/resilience is within a quarter.
    - Values: error codes and their responses, request binding, seeding summaries, fakers that
      repeat their values for a seed, configuration validity, money, cursors,
      metadata round trips, event conservation.

    ** Assumptions and bounds

    Code outside the sources is an argument with named laws: [MapRange] (map iteration
    order), [Planner] (row order of PostgreSQL), [CircuitBreaker] (gobreaker), [Limiter]
    and its laws [LimiterLaws]
    (x/time/rate), [Stream] (a broker), [JetStream] (NATS), the AMQP client, [Router] (gin),
    [Registry] (Prometheus), [Otel] (OpenTelemetry), [Bcrypt], [Unicode], [Client] and [Redis]
    (caches), the JSON encoding of Go types, the JWT library, the column default of
    [lease_token], otelgin and gin-contrib/cors.  Calls of zap, Prometheus and OpenTelemetry in
    the middleware are recorded.  Witnesses instantiate them.  The database fails at any call, before or after its effect.  Fuel
    occurs in the sort's loop (the number of items, which is enough because every round
    removes one), in the seeder sort and the shutdown loop (likewise; their theorems state that
    a result is returned), in the retry loops (the attempt bound), in the container's
    resolution ([Get_terminates] gives a bound for containers of singletons), in [Scan] (two more
    than the bytes to come, which the theorem of [StreamProcess] asks for) and in the rejection
    loop of the random generator (one acceptable draw, [uint64n_ends]).  Goroutines that share a
    lock are interleaved at its critical sections.

    ** Not modelled

    Sockets, the wire protocols of the database and of the brokers, and reading files and keys
    are I/O; what the code does around them is modelled.  Decoding a request body and checking
    struct tags are done by third-party libraries through reflection and are arguments of
    [HttpUtil.v].  infra/runtime/tuning.go only imports automaxprocs.  The samples that histograms
    observe are left out, and so are loggers and their texts except where a component's purpose is
    to log.  Constructors that store their arguments and accessors that return a field have no
    definition of their own. *)

From stdpp Require Export base gmap strings list pretty fin_maps sorting numbers.
From stdpp Require Export decidable option tactics.
From stdpp Require Export list.

(** ** Notation scope of the development *)

Declare Scope go_scope.
Delimit Scope go_scope with go.

(** ** Results of fallible Go functions

    A Go function of type [(T, error)] returns [Ok v] for [(v, nil)] and [Err e]
    for a non-nil error.  A function of type [error] returns [option error], with
    [None] for [nil]. *)
Inductive result (E A : Type) : Type :=
| Ok (a : A)
| Err (e : E).
Arguments Ok {E A} _.
Arguments Err {E A} _.

#[export] Instance result_ret E : MRet (result E) := λ A a, Ok a.
#[export] Instance result_bind E : MBind (result E) := λ A B f m,
  match m with Ok a => f a | Err e => Err e end.
#[export] Instance result_fmap E : FMap (result E) := λ A B f m,
  match m with Ok a => Ok (f a) | Err e => Err e end.

Definition is_ok {E A} (r : result E A) : bool :=
  match r with Ok _ => true | Err _ => false end.

(** ** Outcomes of code that may panic or block

    [Panics m] is a Go panic with message [m]; [Hangs] is a call that never returns, because
    it waits for a channel or a lock that nobody serves. *)
Inductive outcome (A : Type) : Type :=
| Returns (a : A)
| Panics (msg : string)
| Hangs.
Arguments Returns {A} _.
Arguments Panics {A} _.
Arguments Hangs {A}.

#[export] Instance outcome_ret : MRet outcome := λ A a, Returns a.
#[export] Instance outcome_bind : MBind outcome := λ A B f m,
  match m with Returns a => f a | Panics s => Panics s | Hangs => Hangs end.

(** ** Programs over a state

    [prog S A] is code that reads and changes a state [S] and returns an [A], panics or blocks;
    a panic or a block ends the code that called it. *)
Definition prog (S A : Type) : Type := S → outcome A * S.
Definition pret {S A} (a : A) : prog S A := λ s, (Returns a, s).
Definition pbind {S A B} (m : prog S A) (f : A → prog S B) : prog S B := λ s,
  match m s with
  | (Returns a, s) => f a s
  | (Panics msg, s) => (Panics msg, s)
  | (Hangs, s) => (Hangs, s)
  end.
Notation "'let!' x := m 'in' k" := (pbind m (λ x, k))
  (at level 200, x binder, m at level 200, k at level 200) : go_scope.

Lemma pbind_returns {S A B} (m : prog S A) (f : A → prog S B) s b s' :
  pbind m f s = (Returns b, s') ↔ ∃ a s1, m s = (Returns a, s1) ∧ f a s1 = (Returns b, s').
Proof. unfold pbind. destruct (m s) as [[a|msg|] s1]; naive_solver. Qed.

(** ** Resources

    [held] lists what a program has open, the latest last.  A constructor [acquires] a resource
    exactly when it succeeds, a closer [releases] the latest one and returns. *)
Section Resources.
Context {S R : Type} (held : S → list R).
Definition preserves {A} (m : prog S A) : Prop := ∀ s, held (m s).2 = held s.
Definition acquires {E A} (r : A → R) (m : prog S (result E A)) : Prop := ∀ s,
  match m s with
  | (Returns (Ok a), s') => held s' = held s ++ [r a]
  | (Returns (Err _), s') => held s' = held s
  | _ => True
  end.
Definition releases {A} (r : R) (m : prog S A) : Prop :=
  ∀ s l, held s = l ++ [r] → ∃ a s', m s = (Returns a, s') ∧ held s' = l.

Lemma preserves_ret {A} (a : A) : preserves (pret a).
Proof. done. Qed.
Lemma preserves_bind {A B} (m : prog S A) (f : A → prog S B) :
  preserves m → (∀ a, preserves (f a)) → preserves (pbind m f).
Proof.
  intros Hm Hf s. specialize (Hm s). unfold pbind. destruct (m s) as [[a|msg|] s1]; cbn in *; [|done..].
  by rewrite Hf.
Qed.
Lemma acquires_err {E A} (r : A → R) (e : E) : acquires r (pret (Err e)).
Proof. done. Qed.
(** Rewording the error of an acquisition. *)
Lemma acquires_wrap {E E' A} (r : A → R) (m : prog S (result E A)) (g : E → E') :
  acquires r m → acquires r (let! x := m in match x with Err e => pret (Err (g e)) | Ok a => pret (Ok a) end)%go.
Proof. intros Hm s. specialize (Hm s). unfold pbind. by destruct (m s) as [[[a|e]|msg|] s1]. Qed.
(** Steps after the acquisition that may fail and then release it. *)
Lemma acquires_then {E E' A B} (r : A → R) (r' : B → R) (m : prog S (result E A)) (g : E → E')
    (f : A → prog S (result E' B)) :
  acquires r m →
  (∀ a s l, held s = l ++ [r a] →
    match f a s with
    | (Returns (Ok b), s') => held s' = l ++ [r' b]
    | (Returns (Err _), s') => held s' = l
    | _ => True
    end) →
  acquires r' (let! x := m in match x with Err e => pret (Err (g e)) | Ok a => f a end)%go.
Proof.
  intros Hm Hf s. specialize (Hm s). unfold pbind. destruct (m s) as [[[a|e]|msg|] s1]; [by apply Hf|done..].
Qed.
End Resources.

(** ** Machine integers *)

(** Go's [int64], [int] and [time.Duration] arithmetic: two's complement wrap-around
    to 64 bits. *)
Definition wrap64 (z : Z) : Z := ((z + 2 ^ 63) `mod` 2 ^ 64 - 2 ^ 63)%Z.
Definition int64_range (z : Z) : Prop := (- 2 ^ 63 ≤ z < 2 ^ 63)%Z.

Lemma wrap64_range z : int64_range (wrap64 z).
Proof.
  unfold int64_range, wrap64.
  pose proof (Z.mod_pos_bound (z + 2 ^ 63) (2 ^ 64) ltac:(lia)). lia.
Qed.

Lemma wrap64_id z : int64_range z → wrap64 z = z.
Proof. unfold int64_range, wrap64. intros. rewrite Z.mod_small; lia. Qed.

Lemma wrap64_add_over z :
  (2 ^ 63 ≤ z < 2 ^ 64 + 2 ^ 63)%Z → wrap64 z = (z - 2 ^ 64)%Z.
Proof.
  unfold wrap64. intros.
  replace (z + 2 ^ 63)%Z with ((z - 2 ^ 63) + 1 * 2 ^ 64)%Z by lia.
  rewrite Z.mod_add by lia. rewrite Z.mod_small; lia.
Qed.

(** ** The development's automation *)

Create HintDb wolf.
#[export] Hint Resolve wrap64_range : wolf.

(** Prove a decidable closed proposition by evaluation. *)
Ltac decide_now := refine (bool_decide_unpack _ _); vm_compute; exact I.

(** Membership in lists built from [++], [::] and singletons. *)
Ltac list_in :=
  repeat (rewrite elem_of_app || rewrite elem_of_cons || rewrite list_elem_of_singleton
          || rewrite elem_of_nil); tauto.

(** Case analysis on every [match] of the goal, closing impossible branches. *)
Ltac split_match :=
  repeat (case_match; simplify_eq/=; try done).

(** Destruct every [match] scrutinee of a hypothesis. *)
Ltac split_match_in H :=
  repeat (match type of H with
          | context [match ?x with _ => _ end] => destruct x eqn:?
          end; simplify_eq/=; try done).

(** ** Lists *)

Section Lists.
Context {A : Type}.

(** Occurrences of [x] in [l]. *)
Fixpoint count `{EqDecision A} (x : A) (l : list A) : nat :=
  match l with
  | [] => 0
  | y :: l' => (if decide (x = y) then 1 else 0) + count x l'
  end.

Lemma count_app `{EqDecision A} x (l1 l2 : list A) :
  count x (l1 ++ l2) = count x l1 + count x l2.
Proof. induction l1; simpl; lia. Qed.

Lemma count_zero `{EqDecision A} x (l : list A) : count x l = 0 ↔ x ∉ l.
Proof.
  induction l as [|y l IH]; simpl; [split; [set_solver | done]|].
  case_decide; subst; rewrite not_elem_of_cons; split; intros; try lia; naive_solver lia.
Qed.

Lemma count_pos `{EqDecision A} x (l : list A) : 0 < count x l ↔ x ∈ l.
Proof.
  destruct (decide (x ∈ l)) as [Hin|Hin]; split; intros; try done.
  - destruct (count x l) eqn:E; [by apply count_zero in E | lia].
  - apply count_zero in Hin. lia.
Qed.

Lemma count_perm `{EqDecision A} x (l1 l2 : list A) :
  l1 ≡ₚ l2 → count x l1 = count x l2.
Proof. induction 1; simpl; lia. Qed.
End Lists.

(** ** Sorted and related lists *)

Lemma StronglySorted_take {A} (R : relation A) n l :
  StronglySorted R l → StronglySorted R (take n l).
Proof.
  intros Hs. revert n. induction Hs as [|x l Hs IH Hx]; intros [|n]; simpl; try constructor.
  - apply IH.
  - by apply Forall_take.
Qed.

Lemma StronglySorted_app_le {A} (R : relation A) l1 l2 x y :
  StronglySorted R (l1 ++ l2) → x ∈ l1 → y ∈ l2 → R x y.
Proof.
  induction l1 as [|z l1 IH]; simpl; intros Hs Hx Hy; [by apply elem_of_nil in Hx|].
  apply StronglySorted_inv in Hs as [Hs Hz]. rewrite Forall_forall in Hz.
  apply elem_of_cons in Hx as [->|Hx]; [|by apply IH]. apply Hz. apply elem_of_app. by right.
Qed.

Lemma Forall2_elem_r {A B} (R : A → B → Prop) l k y :
  Forall2 R l k → y ∈ k → ∃ x, x ∈ l ∧ R x y.
Proof.
  induction 1 as [|x z l k Hxz _ IH]; intros Hy; [by apply elem_of_nil in Hy|].
  apply elem_of_cons in Hy as [->|Hy]; [exists x; split; [by left|done]|].
  destruct (IH Hy) as (x' & ? & ?). exists x'. split; [by right|done].
Qed.
