(* ===== verification/Errors.v ===== *)
(** * The error hierarchy of the platform

    Models [src/errors/errors.go] (the typed application error, its constructors,
    its [Is]/[Unwrap] methods and the sentinel predicates), [src/errors/capture.go]
    (the deferred error capture) and the two transport mappings of an application
    error, HTTP ([src/infra/middleware/http/error_handler.go],
    [src/infra/http/httputil/response.go]) and gRPC
    ([src/infra/middleware/grpc/error_mapper.go]).

    A Go [error] value is a tree: [fmt.Errorf] with [%w], [errors.Join], [AppError] and
    [wrappedError] all hold the errors they wrap.  A nil [error] is [None]. *)
From S2P Require Import Prelude.

(** ** Error values *)

(** [EText]: an error without cause ([errors.New] or [fmt.Errorf] without [%w]).
    [ESentinel]: a package-level [errors.New] variable; [errors.Is] compares it by
    identity, and each one of the program has its own text.
    [EWrap]: [fmt.Errorf] with one [%w]; the text is the whole rendered message. *)
Inductive error : Type :=
| EText (text : string)
| ESentinel (text : string)
| EWrap (text : string) (cause : error)
| AppError (Code Message Field : string) (cause : option error)
| wrappedError (msg : string) (cause : error)
| EJoin (errs : list error).

(** An induction principle that reaches the errors under [AppError] and [EJoin]. *)
Fixpoint error_tree_ind (P : error → Prop)
    (Htext : ∀ s, P (EText s)) (Hsent : ∀ s, P (ESentinel s))
    (Hwrap : ∀ s e, P e → P (EWrap s e))
    (Happ : ∀ c m f o, (∀ e, o = Some e → P e) → P (AppError c m f o))
    (Hwrapped : ∀ s e, P e → P (wrappedError s e))
    (Hjoin : ∀ l, Forall P l → P (EJoin l)) (e : error) {struct e} : P e :=
  let rec := error_tree_ind P Htext Hsent Hwrap Happ Hwrapped Hjoin in
  match e with
  | EText s => Htext s
  | ESentinel s => Hsent s
  | EWrap s c => Hwrap s c (rec c)
  | AppError c m f o =>
      Happ c m f o
        (match o return ∀ e, o = Some e → P e with
         | None => λ e H, match H with end
         | Some e' => λ e H, match H in _ = q return match q with Some e => P e | None => True end
                             with eq_refl => rec e' end
         end)
  | wrappedError s c => Hwrapped s c (rec c)
  | EJoin l =>
      Hjoin l ((fix go l : Forall P l :=
                  match l with
                  | [] => Forall_nil_2 P
                  | x :: l' => Forall_cons_2 P x l' (rec x) (go l')
                  end) l)
  end.

(** ** [ErrorCode] constants *)
Definition ErrorCode := string.
Definition ErrNotFound : ErrorCode := "NOT_FOUND".
Definition ErrConflict : ErrorCode := "CONFLICT".
Definition ErrValidation : ErrorCode := "VALIDATION".
Definition ErrUnauthorized : ErrorCode := "UNAUTHORIZED".
Definition ErrForbidden : ErrorCode := "FORBIDDEN".
Definition ErrInternal : ErrorCode := "INTERNAL".
Definition ErrRateLimited : ErrorCode := "RATE_LIMITED".
Definition ErrUnavailable : ErrorCode := "UNAVAILABLE".
Definition ErrTimeout : ErrorCode := "TIMEOUT".

(** The newline [errors.Join] puts between messages. *)
Definition newline : string := String (Ascii.ascii_of_nat 10) EmptyString.

(** [err.Error()]: the message of an error. *)
Fixpoint Error (e : error) : string :=
  match e with
  | EText t | ESentinel t | EWrap t _ => t
  | AppError Code Message Field cause =>
      if negb (Field =? "")%string then
        match cause with
        | Some c => "[" +:+ Code +:+ "] " +:+ Field +:+ ": " +:+ Message +:+ ": " +:+ Error c
        | None => "[" +:+ Code +:+ "] " +:+ Field +:+ ": " +:+ Message
        end
      else
        match cause with
        | Some c => "[" +:+ Code +:+ "] " +:+ Message +:+ ": " +:+ Error c
        | None => "[" +:+ Code +:+ "] " +:+ Message
        end
  | wrappedError msg cause => msg +:+ ": " +:+ Error cause
  | EJoin errs => String.concat newline (map Error errs)
  end.

(** [err.Unwrap()]: the errors directly under an error. *)
Definition Unwrap (e : error) : list error :=
  match e with
  | EText _ | ESentinel _ => []
  | EWrap _ c | wrappedError _ c => [c]
  | AppError _ _ _ cause => option_list cause
  | EJoin errs => errs
  end.

(** [fmt.Errorf(prefix + "%w", err)]. *)
Definition Errorf_w (prefix : string) (e : error) : error := EWrap (prefix +:+ Error e) e.

(** [strconv.Quote], the [%q] verb, on ASCII text: quotes, backslashes and the
    named control characters are escaped, other control characters are written
    [\xNN], and bytes from 0x80 on are copied. *)
Definition hex_digit (n : nat) : string :=
  match n with
  | 10 => "a" | 11 => "b" | 12 => "c" | 13 => "d" | 14 => "e" | 15 => "f"
  | _ => pretty (N.of_nat n)
  end.
Definition quote_char (c : Ascii.ascii) : string :=
  let n := Ascii.nat_of_ascii c in
  let bs := String (Ascii.ascii_of_nat 92) EmptyString in
  if n =? 34 then bs +:+ String c EmptyString
  else if n =? 92 then bs +:+ bs
  else if n =? 7 then bs +:+ "a"
  else if n =? 8 then bs +:+ "b"
  else if n =? 12 then bs +:+ "f"
  else if n =? 10 then bs +:+ "n"
  else if n =? 13 then bs +:+ "r"
  else if n =? 9 then bs +:+ "t"
  else if n =? 11 then bs +:+ "v"
  else if (n <? 32) || (n =? 127) then bs +:+ "x" +:+ hex_digit (n / 16) +:+ hex_digit (n mod 16)
  else String c EmptyString.
Fixpoint quote_body (s : string) : string :=
  match s with
  | EmptyString => EmptyString
  | String c s' => quote_char c +:+ quote_body s'
  end.
Definition dquote : string := String (Ascii.ascii_of_nat 34) EmptyString.
Definition Quote (s : string) : string := dquote +:+ quote_body s +:+ dquote.

(** ** [errors.As], [errors.Is] and the sentinel predicates *)

(** [errors.As(err, &appErr)]: the first application error of the tree, in
    depth-first order. *)
Fixpoint errors_As (e : error) : option (string * string * string * option error) :=
  match e with
  | EText _ | ESentinel _ => None
  | EWrap _ c | wrappedError _ c => errors_As c
  | AppError Code Message Field cause => Some (Code, Message, Field, cause)
  | EJoin errs =>
      (fix go (l : list error) :=
         match l with
         | [] => None
         | x :: l' => match errors_As x with Some a => Some a | None => go l' end
         end) errs
  end.

(** [(e *AppError) Is(target)]: same code as the application error of [target]. *)
Definition AppError_Is (Code : string) (target : error) : bool :=
  match errors_As target with
  | Some (c, _, _, _) => (Code =? c)%string
  | None => false
  end.

(** Interface equality of error values, for the targets [errors.Is] is called with:
    package-level sentinels.  (Two equal [*AppError] pointers have equal codes, which
    [AppError_Is] already accepts.) *)
Definition same_sentinel (e target : error) : bool :=
  match e, target with
  | ESentinel a, ESentinel b => (a =? b)%string
  | _, _ => false
  end.

(** [errors.Is(err, target)]: the walk over the tree of [err]. *)
Fixpoint errors_Is (e target : error) : bool :=
  same_sentinel e target
  || match e with
     | EText _ | ESentinel _ => false
     | EWrap _ c | wrappedError _ c => errors_Is c target
     | AppError Code _ _ cause =>
         AppError_Is Code target
         || match cause with Some c => errors_Is c target | None => false end
     | EJoin errs => existsb (λ x, errors_Is x target) errs
     end.

Definition sentinelNotFound := AppError ErrNotFound "" "" None.
Definition sentinelConflict := AppError ErrConflict "" "" None.
Definition sentinelValidation := AppError ErrValidation "" "" None.
Definition sentinelUnauthorized := AppError ErrUnauthorized "" "" None.
Definition sentinelForbidden := AppError ErrForbidden "" "" None.
Definition sentinelInternal := AppError ErrInternal "" "" None.
Definition sentinelRateLimited := AppError ErrRateLimited "" "" None.
Definition sentinelUnavailable := AppError ErrUnavailable "" "" None.

(** A predicate on a possibly nil error. *)
Definition on_err (f : error → bool) (e : option error) : bool :=
  match e with Some e => f e | None => false end.

Definition IsNotFound (e : option error) : bool := on_err (λ e, errors_Is e sentinelNotFound) e.
Definition IsConflict (e : option error) : bool := on_err (λ e, errors_Is e sentinelConflict) e.
Definition IsValidation (e : option error) : bool := on_err (λ e, errors_Is e sentinelValidation) e.
Definition IsUnauthorized (e : option error) : bool := on_err (λ e, errors_Is e sentinelUnauthorized) e.
Definition IsForbidden (e : option error) : bool := on_err (λ e, errors_Is e sentinelForbidden) e.
Definition IsInternal (e : option error) : bool := on_err (λ e, errors_Is e sentinelInternal) e.
Definition IsRateLimited (e : option error) : bool := on_err (λ e, errors_Is e sentinelRateLimited) e.
Definition IsUnavailable (e : option error) : bool := on_err (λ e, errors_Is e sentinelUnavailable) e.

(** ** Constructors *)
Definition NewNotFound (entity id : string) : error :=
  AppError ErrNotFound (entity +:+ " with id " +:+ Quote id +:+ " not found") "" None.
Definition NewConflict (msg : string) : error := AppError ErrConflict msg "" None.
Definition NewValidation (field msg : string) : error := AppError ErrValidation msg field None.
Definition NewUnauthorized (msg : string) : error := AppError ErrUnauthorized msg "" None.
Definition NewForbidden (msg : string) : error := AppError ErrForbidden msg "" None.
Definition NewInternal (err : option error) : error :=
  AppError ErrInternal "an internal server error occurred" "" err.
Definition NewRateLimited : error :=
  AppError ErrRateLimited "too many requests, please slow down" "" None.
Definition NewUnavailable (msg : string) : error := AppError ErrUnavailable msg "" None.
Definition NewTokenExpired : error := AppError ErrUnauthorized "token has expired" "" None.
Definition NewTokenInvalid (reason : string) : error :=
  AppError ErrUnauthorized ("invalid token: " +:+ reason) "" None.
Definition NewTokenRevoked : error := AppError ErrUnauthorized "token has been revoked" "" None.
Definition NewInsufficientRole (required : list string) : error :=
  AppError ErrForbidden ("requires one of roles: " +:+ String.concat ", " required) "" None.
Definition NewInsufficientPermission (perm : string) : error :=
  AppError ErrForbidden ("missing permission: " +:+ perm) "" None.
Definition NewPasswordMismatch : error :=
  AppError ErrValidation "incorrect email or password" "" None.

(** The categories that have a sentinel and a predicate. *)
Inductive category :=
| CNotFound | CConflict | CValidation | CUnauthorized | CForbidden | CInternal | CRateLimited | CUnavailable.

Definition sentinel (c : category) : error :=
  match c with
  | CNotFound => sentinelNotFound | CConflict => sentinelConflict | CValidation => sentinelValidation
  | CUnauthorized => sentinelUnauthorized | CForbidden => sentinelForbidden | CInternal => sentinelInternal
  | CRateLimited => sentinelRateLimited | CUnavailable => sentinelUnavailable
  end.

Definition Is (c : category) : option error → bool :=
  match c with
  | CNotFound => IsNotFound | CConflict => IsConflict | CValidation => IsValidation
  | CUnauthorized => IsUnauthorized | CForbidden => IsForbidden | CInternal => IsInternal
  | CRateLimited => IsRateLimited | CUnavailable => IsUnavailable
  end.

(** The calls of the constructors. *)
Inductive construction :=
| ANotFound (entity id : string) | AConflict (msg : string) | AValidation (field msg : string)
| AUnauthorized (msg : string) | AForbidden (msg : string) | AInternal (err : option error)
| ARateLimited | AUnavailable (msg : string)
| ATokenExpired | ATokenInvalid (reason : string) | ATokenRevoked
| AInsufficientRole (required : list string) | AInsufficientPermission (perm : string) | APasswordMismatch.

Definition construct (a : construction) : error :=
  match a with
  | ANotFound entity id => NewNotFound entity id
  | AConflict msg => NewConflict msg
  | AValidation field msg => NewValidation field msg
  | AUnauthorized msg => NewUnauthorized msg
  | AForbidden msg => NewForbidden msg
  | AInternal err => NewInternal err
  | ARateLimited => NewRateLimited
  | AUnavailable msg => NewUnavailable msg
  | ATokenExpired => NewTokenExpired
  | ATokenInvalid reason => NewTokenInvalid reason
  | ATokenRevoked => NewTokenRevoked
  | AInsufficientRole required => NewInsufficientRole required
  | AInsufficientPermission perm => NewInsufficientPermission perm
  | APasswordMismatch => NewPasswordMismatch
  end.

(** The category each constructor promises. *)
Definition category_of (a : construction) : category :=
  match a with
  | ANotFound _ _ => CNotFound | AConflict _ => CConflict
  | AValidation _ _ | APasswordMismatch => CValidation
  | AUnauthorized _ | ATokenExpired | ATokenInvalid _ | ATokenRevoked => CUnauthorized
  | AForbidden _ | AInsufficientRole _ | AInsufficientPermission _ => CForbidden
  | AInternal _ => CInternal | ARateLimited => CRateLimited | AUnavailable _ => CUnavailable
  end.
Definition cause_of (a : construction) : option error :=
  match a with AInternal err => err | _ => None end.

#[export] Instance category_eq_dec : EqDecision category.
Proof. solve_decision. Defined.

(** ** [errors.Join], [Wrap] and [Do] *)

(** [errors.Join(errs...)]: nil errors are dropped; nil when none is left. *)
Definition errors_Join (errs : list (option error)) : option error :=
  match omap id errs with
  | [] => None
  | es => Some (EJoin es)
  end.

Definition Wrap (cause : option error) (msg : string) : option error :=
  match cause with
  | None => None
  | Some c => Some (wrappedError msg c)
  end.

(** [Do(&err, closer, msg)]: the new value of [*err], given what [closer()] returned. *)
Definition Do (err : option error) (closeErr : option error) (msg : string) : option error :=
  match closeErr with
  | None => err
  | Some _ => errors_Join [err; Wrap closeErr msg]
  end.

(** ** Transport mappings *)

(** [mapError] of the HTTP middleware: status, code and message of a response. *)
Definition mapError (e : error) : Z * string * string :=
  match errors_As e with
  | Some (Code, Message, _, _) =>
      if (Code =? ErrNotFound)%string then (404%Z, Code, Message)
      else if (Code =? ErrConflict)%string then (409%Z, Code, Message)
      else if (Code =? ErrValidation)%string then (400%Z, Code, Message)
      else if (Code =? ErrUnauthorized)%string then (401%Z, Code, Message)
      else if (Code =? ErrForbidden)%string then (403%Z, Code, Message)
      else if (Code =? ErrInternal)%string then (500%Z, Code, Message)
      else if (Code =? ErrRateLimited)%string then (429%Z, Code, Message)
      else if (Code =? ErrUnavailable)%string then (503%Z, Code, Message)
      else if (Code =? ErrTimeout)%string then (504%Z, Code, Message)
      else (500%Z, Code, Message)
  | None => (500%Z, "INTERNAL_ERROR", "an unexpected error occurred")
  end.

(** [CodeToStatus] of [httputil]. *)
Definition CodeToStatus (code : string) : Z :=
  if (code =? ErrNotFound)%string then 404
  else if (code =? ErrValidation)%string then 400
  else if (code =? ErrConflict)%string then 409
  else if (code =? ErrUnauthorized)%string then 401
  else if (code =? ErrForbidden)%string then 403
  else if (code =? ErrRateLimited)%string then 429
  else if (code =? ErrUnavailable)%string then 503
  else if (code =? ErrTimeout)%string then 504
  else if (code =? ErrInternal)%string then 500
  else 500.

(** [strings.ToLower(strings.ReplaceAll(code, "_", "-"))], on ASCII text. *)
Definition uri_char (c : Ascii.ascii) : Ascii.ascii :=
  let n := Ascii.nat_of_ascii c in
  if n =? 95 then Ascii.ascii_of_nat 45
  else if (65 <=? n) && (n <=? 90) then Ascii.ascii_of_nat (n + 32)
  else c.
Fixpoint uri_chars (s : string) : string :=
  match s with
  | EmptyString => EmptyString
  | String c s' => String (uri_char c) (uri_chars s')
  end.
Definition ErrorTypeURI (code : string) : string := "/errors/" +:+ uri_chars code.

Record ErrorBody := {
  eb_Type : string; eb_Status : Z; eb_Code : string;
  eb_Message : string; eb_Instance : string; eb_Field : string
}.

(** [DefaultErrorMapper]: [path] is [c.Request.URL.Path]. *)
Definition DefaultErrorMapper (path : string) (e : error) : Z * ErrorBody :=
  match errors_As e with
  | None =>
      (500%Z, {| eb_Type := ErrorTypeURI ErrInternal; eb_Status := 500; eb_Code := ErrInternal;
               eb_Message := "an internal server error occurred"; eb_Instance := path;
               eb_Field := "" |})
  | Some (Code, Message, Field, _) =>
      let status := CodeToStatus Code in
      (status, {| eb_Type := ErrorTypeURI Code; eb_Status := status; eb_Code := Code;
                  eb_Message := Message; eb_Instance := path; eb_Field := Field |})
  end.

(** The gRPC status codes the mapper uses. *)
Inductive grpc_code :=
| NotFound | InvalidArgument | AlreadyExists | Unauthenticated | PermissionDenied
| Internal | ResourceExhausted.

#[export] Instance grpc_code_eq_dec : EqDecision grpc_code.
Proof. solve_decision. Defined.

(** [mapGRPCError]. *)
Definition mapGRPCError (e : error) : grpc_code * string :=
  match errors_As e with
  | None => (Internal, "internal server error")
  | Some (Code, Message, _, _) =>
      if (Code =? ErrNotFound)%string then (NotFound, Message)
      else if (Code =? ErrValidation)%string then (InvalidArgument, Message)
      else if (Code =? ErrConflict)%string then (AlreadyExists, Message)
      else if (Code =? ErrUnauthorized)%string then (Unauthenticated, Message)
      else if (Code =? ErrForbidden)%string then (PermissionDenied, Message)
      else if (Code =? ErrInternal)%string then (Internal, Message)
      else if (Code =? ErrRateLimited)%string then (ResourceExhausted, Message)
      else (Internal, Message)
  end.

(** ** Properties *)

(** [in_tree x e]: [x] is [e] or an error that [e] wraps, at any depth. *)
Inductive in_tree (x : error) : error → Prop :=
| in_tree_here : in_tree x x
| in_tree_under e c : c ∈ Unwrap e → in_tree x c → in_tree x e.
#[export] Hint Constructors in_tree : wolf.

Lemma in_tree_inv x e :
  in_tree x e ↔ x = e ∨ ∃ c, c ∈ Unwrap e ∧ in_tree x c.
Proof.
  split; [destruct 1; naive_solver|].
  intros [-> | (c & ? & ?)]; eauto with wolf.
Qed.

(** [errors.Is] is the search of the whole tree for an error that matches at its root. *)
Definition matches_here (e target : error) : bool :=
  same_sentinel e target
  || match e with AppError Code _ _ _ => AppError_Is Code target | _ => false end.

Lemma errors_Is_unfold e target :
  errors_Is e target = matches_here e target || existsb (λ c, errors_Is c target) (Unwrap e).
Proof.
  unfold matches_here. destruct e as [| | | ? ? ? [c|] | |]; simpl;
    rewrite ?orb_false_r; try done.
Qed.

Lemma existsb_elem {A} (f : A → bool) l : existsb f l = true ↔ ∃ x, x ∈ l ∧ f x = true.
Proof.
  rewrite existsb_exists. split; intros (x & Hx & ?); exists x; split; try done;
    by apply list_elem_of_In.
Qed.

(** Induction on what an error wraps. *)
Lemma error_unwrap_ind (P : error → Prop) :
  (∀ e, (∀ c, c ∈ Unwrap e → P c) → P e) → ∀ e, P e.
Proof.
  intros Hstep e.
  induction e as [s|s|s e IH|c m f o IH|s e IH|l IH] using error_tree_ind;
    apply Hstep; simpl; intros c' Hc'.
  - by apply elem_of_nil in Hc'.
  - by apply elem_of_nil in Hc'.
  - by apply list_elem_of_singleton in Hc' as ->.
  - apply IH. destruct o; simpl in Hc'; [|by apply elem_of_nil in Hc'].
    by apply list_elem_of_singleton in Hc' as ->.
  - by apply list_elem_of_singleton in Hc' as ->.
  - rewrite Forall_forall in IH. by apply IH.
Qed.

Lemma errors_Is_tree e target :
  errors_Is e target = true ↔ ∃ x, in_tree x e ∧ matches_here x target = true.
Proof.
  induction e as [e IH] using error_unwrap_ind.
  rewrite errors_Is_unfold, orb_true_iff, existsb_elem. split.
  - intros [?|(c & Hc & H)]; [by eauto with wolf|].
    apply IH in H as (x & ? & ?); [|done]. eauto with wolf.
  - intros (x & [->|(c & Hc & ?)]%in_tree_inv & ?); [by left|].
    right. exists c. split; [done|]. apply IH; eauto.
Qed.

(** A target that is a bare application error only matches application errors. *)
Lemma matches_code x c :
  matches_here x (AppError c "" "" None) = true
  ↔ ∃ m f o, x = AppError c m f o.
Proof.
  unfold matches_here, AppError_Is. split.
  - destruct x as [| | | c' m f o | |]; simpl; try done.
    intros ->%String.eqb_eq. eauto.
  - intros (m & f & o & ->). simpl. by rewrite String.eqb_refl.
Qed.

(** a sentinel predicate such as [IsNotFound] holds exactly when an application
    error with that code is somewhere in the error's tree. *)
Theorem Is_code_iff (e : error) (c : ErrorCode) :
  errors_Is e (AppError c "" "" None) = true
  ↔ ∃ m f o, in_tree (AppError c m f o) e.
Proof.
  rewrite errors_Is_tree. split.
  - intros (x & Hin & (m & f & o & ->)%matches_code). eauto.
  - intros (m & f & o & Hin). eexists; split; [exact Hin|].
    apply matches_code. eauto.
Qed.

(** [Do] loses neither error: after a failed close, [errors.Is] finds in [*err]
    exactly what it found in the function's error or finds in the close error; after a
    successful close, [*err] is unchanged. *)
Theorem Do_keeps_both (err : option error) (closeErr : option error) (msg : string) (target : error) :
  on_err (λ e, errors_Is e target) (Do err closeErr msg)
  = on_err (λ e, errors_Is e target) err || on_err (λ e, errors_Is e target) closeErr.
Proof.
  destruct closeErr as [ce|]; simpl; [|by rewrite orb_false_r].
  unfold errors_Join. destruct err as [e|]; simpl; by rewrite ?orb_false_r.
Qed.

(** Case analysis on the error code: the nine constants in turn, then the rest. *)
Ltac code_cases c :=
  destruct (String.eqb_spec c ErrNotFound) as [->|?];
  [|destruct (String.eqb_spec c ErrConflict) as [->|?];
  [|destruct (String.eqb_spec c ErrValidation) as [->|?];
  [|destruct (String.eqb_spec c ErrUnauthorized) as [->|?];
  [|destruct (String.eqb_spec c ErrForbidden) as [->|?];
  [|destruct (String.eqb_spec c ErrInternal) as [->|?];
  [|destruct (String.eqb_spec c ErrRateLimited) as [->|?];
  [|destruct (String.eqb_spec c ErrUnavailable) as [->|?];
  [|destruct (String.eqb_spec c ErrTimeout) as [->|?]]]]]]]]].

Lemma mapError_status (e : error) Code Message Field cause :
  errors_As e = Some (Code, Message, Field, cause) →
  mapError e = (CodeToStatus Code, Code, Message).
Proof.
  unfold mapError, CodeToStatus. intros ->. code_cases Code; done.
Qed.

Lemma CodeToStatus_range c :
  CodeToStatus c ∈ [400; 401; 403; 404; 409; 429; 500; 503; 504]%Z.
Proof.
  unfold CodeToStatus. code_cases c; decide_now.
Qed.

(** the two HTTP mappings agree on the status of every error and answer 500 when it
    wraps no application error; every status is one of the nine of the error table. *)
Theorem http_mappings_agree (e : error) (path : string) :
  (mapError e).1.1 = (DefaultErrorMapper path e).1
  ∧ (mapError e).1.1 ∈ [400; 401; 403; 404; 409; 429; 500; 503; 504]%Z
  ∧ (errors_As e = None → (mapError e).1.1 = 500%Z).
Proof.
  unfold DefaultErrorMapper.
  destruct (errors_As e) as [[[[c m] f] o]|] eqn:He.
  - rewrite (mapError_status _ _ _ _ _ He). simpl.
    split; [done|]. split; [apply CodeToStatus_range | done].
  - unfold mapError. rewrite He. simpl.
    split; [done|]. split; [|done]. decide_now.
Qed.

(** the gRPC mapper has no case for [UNAVAILABLE] or [TIMEOUT]: like an unknown code
    they become [codes.Internal], although the HTTP mapper answers 503 and 504.  Every
    other code keeps a status class of its own. *)
Theorem grpc_unavailable_is_internal (m f : string) (o : option error) :
  mapGRPCError (AppError ErrUnavailable m f o) = (Internal, m)
  ∧ mapGRPCError (AppError ErrTimeout m f o) = (Internal, m)
  ∧ (mapError (AppError ErrUnavailable m f o)).1.1 = 503%Z
  ∧ (mapError (AppError ErrTimeout m f o)).1.1 = 504%Z
  ∧ NoDup (map (λ c, (mapGRPCError (AppError c m f o)).1)
       [ErrNotFound; ErrValidation; ErrConflict; ErrUnauthorized; ErrForbidden;
        ErrInternal; ErrRateLimited]).
Proof.
  do 4 (split; [done|]). simpl. decide_now.
Qed.

(** ** Constructors and predicates *)

Lemma Is_errors_Is c e : Is c e = on_err (λ e, errors_Is e (sentinel c)) e.
Proof. by destruct c. Qed.

(** each constructor makes an error of its category and, apart from the cause of an internal
    error, of no other; wrapping it with a message, with [%w] or as the cause of an internal
    error changes none of that. *)
Theorem constructed_category (a : construction) (c : category) (msg : string) :
  let e := Some (construct a) in
  Is c e = bool_decide (c = category_of a) || Is c (cause_of a)
  ∧ Is c (Wrap e msg) = Is c e
  ∧ Is c (Some (Errorf_w msg (construct a))) = Is c e
  ∧ Is c (Some (NewInternal e)) = bool_decide (c = CInternal) || Is c e.
Proof.
  cbv zeta. rewrite !Is_errors_Is. cbn [on_err Wrap]. split_and!.
  - destruct c, a as [| | | | |[err|]| | | | | | | |]; cbn; rewrite ?orb_false_r; done.
  - by destruct c.
  - by destruct c.
  - by destruct c.
Qed.
