(* ===== verification/GoText.v ===== *)
(** * Text functions of the Go library

    [GoText.v] models what the program uses of packages strings, strconv and encoding/base64 on
    byte strings: prefixes, [Contains], [ToLower] and [TrimSpace], which removes the code points
    of Unicode's White_Space property in their UTF-8 encoding from both ends; [Atoi], which
    undoes [Itoa] on machine integers; and the standard base64 encoding with its round trip. *)

From Stdlib Require Import Ascii.
From S2P Require Import Prelude.

Definition bytes (l : list nat) : string :=
  fold_right (λ n s, String (ascii_of_nat n) s) EmptyString l.

(** [strings.CutPrefix]: the rest of [s] after the prefix [p]. *)
Fixpoint CutPrefix (s p : string) : option string :=
  match p, s with
  | EmptyString, _ => Some s
  | String c p', String c' s' => if Ascii.eqb c c' then CutPrefix s' p' else None
  | String _ _, EmptyString => None
  end.

(** The encodings of the spaces: the ASCII ones, U+0085, U+00A0, U+1680, U+2000 to U+200A,
    U+2028, U+2029, U+202F, U+205F and U+3000. *)
Definition spaces : list (list ascii) :=
  map (map ascii_of_nat)
    ([[9]; [10]; [11]; [12]; [13]; [32]; [194; 133]; [194; 160]; [225; 154; 128]]
     ++ map (λ n, [226; 128; n]) [128; 129; 130; 131; 132; 133; 134; 135; 136; 137; 138; 168; 169; 175]
     ++ [[226; 129; 159]; [227; 128; 128]]).

Fixpoint strip (p l : list ascii) : option (list ascii) :=
  match p, l with
  | [], _ => Some l
  | c :: p', c' :: l' => if Ascii.eqb c c' then strip p' l' else None
  | _ :: _, [] => None
  end.

(** The rest after the first of [encs] that starts [l]. *)
Fixpoint strip_any (encs : list (list ascii)) (l : list ascii) : option (list ascii) :=
  match encs with
  | [] => None
  | p :: encs' => match strip p l with Some l' => Some l' | None => strip_any encs' l end
  end.

Fixpoint trim_left (fuel : nat) (encs : list (list ascii)) (l : list ascii) : list ascii :=
  match fuel with
  | O => l
  | S fuel' => match strip_any encs l with Some l' => trim_left fuel' encs l' | None => l end
  end.

Definition trim (l : list ascii) : list ascii :=
  let l := trim_left (length l) spaces l in
  rev (trim_left (length l) (map (@rev ascii) spaces) (rev l)).
Definition TrimSpace (s : string) : string :=
  String.string_of_list_ascii (trim (String.list_ascii_of_string s)).

(** [strings.Contains] *)
Fixpoint strings_Contains (s substr : string) : bool :=
  match CutPrefix s substr with
  | Some _ => true
  | None => match s with EmptyString => false | String _ s' => strings_Contains s' substr end
  end.

(** [strings.ToLower] as far as its result is ASCII: the capitals, and the two code points
    outside ASCII whose lower case is an ASCII letter, U+0130 and U+212A.  Other code points
    stay, lower case or not: they have no ASCII lower case. *)
Fixpoint ToLower (s : string) : string :=
  match s with
  | EmptyString => EmptyString
  | String c s1 =>
      match nat_of_ascii c, s1 with
      | 196, String c1 s2 =>
          if nat_of_ascii c1 =? 176 then String "i" (ToLower s2) else String c (ToLower s1)
      | 226, String c1 (String c2 s3) =>
          if (nat_of_ascii c1 =? 132) && (nat_of_ascii c2 =? 170) then String "k" (ToLower s3)
          else String c (ToLower s1)
      | n, _ =>
          if (65 <=? n) && (n <=? 90) then String (ascii_of_nat (n + 32)) (ToLower s1)
          else String c (ToLower s1)
      end
  end.

(** ** Properties *)

Lemma list_ascii_app s1 s2 :
  String.list_ascii_of_string (s1 +:+ s2) = String.list_ascii_of_string s1 ++ String.list_ascii_of_string s2.
Proof. induction s1 as [|c s1 IH]; [done|]. simpl. by rewrite <- IH. Qed.

Lemma strip_app p l r : strip p l = Some r ↔ l = p ++ r.
Proof.
  revert l. induction p as [|c p IH]; intros [|c' l]; simpl; try naive_solver.
  destruct (Ascii.eqb_spec c c') as [->|Hne]; [rewrite IH|]; naive_solver.
Qed.

Lemma strip_any_Some encs l r :
  strip_any encs l = Some r → ∃ p, p ∈ encs ∧ l = p ++ r.
Proof.
  induction encs as [|p encs IH]; simpl; [done|]. destruct (strip p l) as [l'|] eqn:Hs.
  - intros [= <-]. apply strip_app in Hs. exists p. split; [list_in|done].
  - intros (q & Hq & ->)%IH. exists q. split; [list_in|done].
Qed.

Lemma strip_any_None encs l :
  strip_any encs l = None ↔ ∀ p r, p ∈ encs → l ≠ p ++ r.
Proof.
  split.
  - induction encs as [|p encs IH]; simpl; [intros _ p r Hp; by apply elem_of_nil in Hp|].
    destruct (strip p l) eqn:Hs; [done|]. intros Hn q r [->|Hq]%elem_of_cons; [|by apply IH].
    intros Heq%strip_app. congruence.
  - intros Hn. destruct (strip_any encs l) eqn:Hs; [|done].
    apply strip_any_Some in Hs as (p & Hp & ->). by destruct (Hn p l0 Hp).
Qed.

Lemma trim_left_length n encs l :
  Forall (λ p, p ≠ []) encs → length l ≤ n → strip_any encs (trim_left n encs l) = None.
Proof.
  intros Hne. revert l. induction n as [|n IH]; intros l Hl; simpl.
  - destruct l; [|simpl in Hl; lia]. apply strip_any_None. intros p r Hp Heq.
    rewrite Forall_forall in Hne. apply (Hne p Hp). by destruct p.
  - destruct (strip_any encs l) as [l'|] eqn:Hs; [|done]. apply IH.
    apply strip_any_Some in Hs as (p & Hp & ->). rewrite Forall_forall in Hne.
    specialize (Hne p Hp). destruct p; [done|]. simpl in Hl. rewrite length_app in Hl. lia.
Qed.

Lemma trim_left_suffix n encs l : ∃ p, l = p ++ trim_left n encs l.
Proof.
  revert l. induction n as [|n IH]; intros l; simpl; [by exists []|].
  destruct (strip_any encs l) as [l'|] eqn:Hs; [|by exists []].
  apply strip_any_Some in Hs as (p & Hp & ->). destruct (IH l') as [q Hq].
  exists (p ++ q). by rewrite <- app_assoc, <- Hq.
Qed.

Lemma trim_left_id n encs l : strip_any encs l = None → trim_left n encs l = l.
Proof. intros Hs. destruct n; simpl; [done|]. by rewrite Hs. Qed.

Definition starts_with_space (l : list ascii) : Prop := ∃ p r, p ∈ spaces ∧ l = p ++ r.
Definition ends_with_space (l : list ascii) : Prop := ∃ p r, p ∈ spaces ∧ l = r ++ p.

Lemma spaces_nonempty : Forall (λ p, p ≠ []) spaces ∧ Forall (λ p, p ≠ []) (map (@rev ascii) spaces).
Proof. split; decide_now. Qed.

Lemma strip_any_spaces l : strip_any spaces l = None ↔ ¬ starts_with_space l.
Proof. rewrite strip_any_None. unfold starts_with_space. naive_solver. Qed.

Lemma strip_any_spaces_rev l :
  strip_any (map (@rev ascii) spaces) (rev l) = None ↔ ¬ ends_with_space l.
Proof.
  rewrite strip_any_None. unfold ends_with_space. split.
  - intros Hn (p & r & Hp & ->). rewrite rev_app_distr in Hn.
    by apply (Hn (rev p) (rev r)); [apply list_elem_of_fmap_2|].
  - intros Hn p r (q & -> & Hq)%list_elem_of_fmap Heq. apply Hn. exists q, (rev r).
    split; [done|]. by rewrite <- (rev_involutive l), Heq, rev_app_distr, rev_involutive.
Qed.

(** [TrimSpace] removes spaces at both ends and nothing else. *)
Lemma trim_spec l :
  (∃ a b, l = a ++ trim l ++ b) ∧ ¬ starts_with_space (trim l) ∧ ¬ ends_with_space (trim l)
  ∧ (¬ starts_with_space l → ¬ ends_with_space l → trim l = l).
Proof.
  destruct spaces_nonempty as [Hne Hner]. unfold trim.
  set (l1 := trim_left (length l) spaces l).
  set (l2 := trim_left (length l1) (map (@rev ascii) spaces) (rev l1)).
  destruct (trim_left_suffix (length l) spaces l) as [a Ha]. fold l1 in Ha.
  destruct (trim_left_suffix (length l1) (map (@rev ascii) spaces) (rev l1)) as [b Hb].
  fold l2 in Hb. assert (l1 = rev l2 ++ rev b) as Hl1
    by by rewrite <- (rev_involutive l1), Hb, rev_app_distr.
  split_and!.
  - exists a, (rev b). congruence.
  - intros (p & r & Hp & Heq). assert (strip_any spaces l1 = None) as Hs by by apply trim_left_length.
    rewrite strip_any_None in Hs. apply (Hs p (r ++ rev b) Hp). by rewrite Hl1, Heq, app_assoc.
  - apply strip_any_spaces_rev. rewrite rev_involutive. apply trim_left_length; [done|].
    by rewrite length_rev.
  - intros Hs He. subst l2 l1. rewrite (trim_left_id _ spaces l) by by apply strip_any_spaces.
    rewrite (trim_left_id _ _ (rev l)) by by apply strip_any_spaces_rev. apply rev_involutive.
Qed.

Lemma CutPrefix_Some s p r : CutPrefix s p = Some r ↔ s = p +:+ r.
Proof.
  revert s. induction p as [|c p IH]; intros [|c' s]; simpl.
  - split; [by intros [= <-] | by intros ->].
  - split; [by intros [= <-] | intros Hs; by rewrite Hs].
  - done.
  - change (String c p +:+ r) with (String c (p +:+ r)).
    destruct (Ascii.eqb_spec c c') as [->|Hne]; [rewrite IH|]; naive_solver.
Qed.

(** ** Package strconv

    [Itoa] is [pretty] on integers; [Atoi] takes an optional sign and decimal digits, and fails
    on numbers outside an int64. *)
Fixpoint parse_decimal (acc : N) (s : string) : option N :=
  match s with
  | EmptyString => Some acc
  | String c s =>
      let n := nat_of_ascii c in
      if (48 <=? n) && (n <=? 57) then parse_decimal (10 * acc + N.of_nat (n - 48))%N s else None
  end.
Definition Atoi (s : string) : option Z :=
  let '(negative, ds) := match s with
                         | String "-" s => (true, s)
                         | String "+" s => (false, s)
                         | _ => (false, s)
                         end in
  match ds with
  | EmptyString => None
  | _ => match parse_decimal 0 ds with
         | Some n => let z := (if negative then - Z.of_N n else Z.of_N n)%Z in
                     if bool_decide (- 2 ^ 63 ≤ z < 2 ^ 63)%Z then Some z else None
         | None => None
         end
  end.

Lemma parse_decimal_char acc x s :
  (x < 10)%N → parse_decimal acc (String (pretty_N_char x) s) = parse_decimal (10 * acc + x) s.
Proof.
  intros Hx. assert (x = 0 ∨ x = 1 ∨ x = 2 ∨ x = 3 ∨ x = 4 ∨ x = 5 ∨ x = 6 ∨ x = 7 ∨ x = 8 ∨ x = 9)%N
    as Hcases by lia.
  destruct_or! Hcases; subst; done.
Qed.

Lemma parse_decimal_go x s : parse_decimal 0 (pretty_N_go x s) = parse_decimal x s.
Proof.
  revert s. induction (N.lt_wf_0 x) as [x _ IH]; intros s.
  destruct (decide (0 < x)%N) as [Hx|Hx].
  - rewrite pretty_N_go_step by done.
    rewrite IH by (apply N.div_lt; lia).
    rewrite parse_decimal_char by (apply N.mod_lt; lia). f_equal.
    pose proof (N.div_mod x 10 ltac:(lia)). lia.
  - replace x with 0%N by lia. by rewrite pretty_N_go_0.
Qed.

Lemma parse_decimal_pretty (x : N) : parse_decimal 0 (pretty x) = Some x.
Proof.
  unfold pretty, pretty_N. case_decide as Hx; [by subst|]. by rewrite parse_decimal_go.
Qed.

(** The digits of a number start with a digit. *)
Lemma pretty_N_digit (x : N) : ∃ y s, (y < 10)%N ∧ pretty x = String (pretty_N_char y) s.
Proof.
  unfold pretty, pretty_N. case_decide as Hx; [by exists 0%N, EmptyString|].
  assert (0 < x)%N as Hpos by lia. clear Hx. generalize EmptyString.
  induction (N.lt_wf_0 x) as [x _ IH]; intros s. rewrite pretty_N_go_step by done.
  destruct (decide (0 < x / 10)%N) as [Hd|Hd].
  - apply IH; [apply N.div_lt; lia | done].
  - assert (x / 10 = 0)%N as -> by (apply N.le_0_r, N.nlt_ge; done). rewrite pretty_N_go_0. eexists _, _. split; [|done]. apply N.mod_lt. lia.
Qed.

Lemma pretty_N_unsigned (x : N) :
  match pretty x with
  | String "-" s => (true, s)
  | String "+" s => (false, s)
  | _ => (false, pretty x)
  end = (false, pretty x) ∧ pretty x ≠ EmptyString.
Proof.
  destruct (pretty_N_digit x) as (y & s & Hy & ->).
  assert (y = 0 ∨ y = 1 ∨ y = 2 ∨ y = 3 ∨ y = 4 ∨ y = 5 ∨ y = 6 ∨ y = 7 ∨ y = 8 ∨ y = 9)%N
    as Hcases by lia.
  destruct_or! Hcases; subst; done.
Qed.

Lemma Atoi_Itoa (z : Z) : (- 2 ^ 63 ≤ z < 2 ^ 63)%Z → Atoi (pretty z) = Some z.
Proof.
  intros Hz. unfold Atoi. destruct z as [|p|p]; [done| |].
  - change (pretty (Z.pos p)) with (pretty (N.pos p)).
    destruct (pretty_N_unsigned (N.pos p)) as [-> Hne].
    pose proof (parse_decimal_pretty (N.pos p)) as Hp.
    destruct (pretty (N.pos p)) as [|c s]; [done|]. rewrite Hp. by rewrite bool_decide_eq_true_2.
  - change (pretty (Z.neg p)) with (String "-" (pretty (N.pos p))).
    destruct (pretty_N_unsigned (N.pos p)) as [_ Hne].
    pose proof (parse_decimal_pretty (N.pos p)) as Hp.
    destruct (pretty (N.pos p)) as [|c s]; [done|]. rewrite Hp. by rewrite bool_decide_eq_true_2.
Qed.

(** ** Package encoding/base64

    The standard encoding with padding; the decoder skips line breaks. *)
Definition base64_alphabet : list ascii :=
  String.list_ascii_of_string "ABCDEFGHIJKLMNOPQRSTUVWXYZabcdefghijklmnopqrstuvwxyz0123456789+/".
Definition base64_char (n : Z) : ascii := nth (Z.to_nat n) base64_alphabet "A"%char.
Fixpoint base64_find (c : ascii) (l : list ascii) (i : Z) : option Z :=
  match l with [] => None | c' :: l => if Ascii.eqb c c' then Some i else base64_find c l (i + 1)%Z end.
Definition base64_value (c : ascii) : option Z := base64_find c base64_alphabet 0.
Definition byte_value (c : ascii) : Z := Z.of_nat (nat_of_ascii c).
Definition value_byte (z : Z) : ascii := ascii_of_nat (Z.to_nat z).

Fixpoint base64_encode (l : list ascii) : list ascii :=
  match l with
  | a :: b :: c :: l =>
      let x := (byte_value a) in let y := (byte_value b) in let z := (byte_value c) in
      [base64_char (x / 4); base64_char (x `mod` 4 * 16 + y / 16);
       base64_char (y `mod` 16 * 4 + z / 64); base64_char (z `mod` 64)]%Z ++ base64_encode l
  | [a; b] =>
      let x := (byte_value a) in let y := (byte_value b) in
      [base64_char (x / 4); base64_char (x `mod` 4 * 16 + y / 16);
       base64_char (y `mod` 16 * 4); "="%char]%Z
  | [a] => let x := (byte_value a) in
      [base64_char (x / 4); base64_char (x `mod` 4 * 16); "="%char; "="%char]%Z
  | [] => []
  end.
Fixpoint base64_quads (l : list ascii) : option (list ascii) :=
  match l with
  | [] => Some []
  | a :: b :: c :: d :: l =>
      x ← base64_value a; y ← base64_value b;
      let first := value_byte (x * 4 + y / 16)%Z in
      if Ascii.eqb d "=" && bool_decide (l = []) then
        if Ascii.eqb c "=" then Some [first]
        else z ← base64_value c; Some [first; value_byte (y `mod` 16 * 16 + z / 4)%Z]
      else
        z ← base64_value c; w ← base64_value d; rest ← base64_quads l;
        Some (first :: value_byte (y `mod` 16 * 16 + z / 4)%Z :: value_byte (z `mod` 4 * 64 + w)%Z :: rest)
  | _ => None
  end.
Definition line_break (c : ascii) : bool :=
  let n := nat_of_ascii c in (n =? 10) || (n =? 13).
Definition base64_EncodeToString (s : string) : string :=
  String.string_of_list_ascii (base64_encode (String.list_ascii_of_string s)).
Definition base64_DecodeString (s : string) : option string :=
  l ← base64_quads (filter (λ c, line_break c = false) (String.list_ascii_of_string s));
  Some (String.string_of_list_ascii l).

(** What the characters of the alphabet are: not padding, not line breaks, and read back. *)
Lemma base64_char_ok n :
  (0 ≤ n < 64)%Z →
  base64_value (base64_char n) = Some n ∧ base64_char n ≠ "="%char ∧ line_break (base64_char n) = false.
Proof.
  intros Hn.
  assert (Forall (λ i, base64_value (base64_char (Z.of_nat i)) = Some (Z.of_nat i)
                       ∧ base64_char (Z.of_nat i) ≠ "="%char
                       ∧ line_break (base64_char (Z.of_nat i)) = false) (seq 0 64)) as Hall
    by decide_now.
  rewrite Forall_forall in Hall. specialize (Hall (Z.to_nat n)).
  rewrite Z2Nat.id in Hall by lia. apply Hall. apply elem_of_seq. lia.
Qed.

Lemma byte_value_range c : (0 ≤ byte_value c < 256)%Z.
Proof. unfold byte_value. pose proof (nat_ascii_bounded c). lia. Qed.
Lemma value_byte_value c z : z = byte_value c → value_byte z = c.
Proof. intros ->. unfold value_byte, byte_value. by rewrite Nat2Z.id, ascii_nat_embedding. Qed.

Lemma list_ind3 {A} (P : list A → Prop) :
  P [] → (∀ a, P [a]) → (∀ a b, P [a; b]) → (∀ a b c l, P l → P (a :: b :: c :: l)) → ∀ l, P l.
Proof.
  intros H0 H1 H2 H3 l. enough (P l ∧ (∀ a, P (a :: l)) ∧ (∀ a b, P (a :: b :: l))) by tauto.
  induction l as [|x l (IH0 & IH1 & IH2)]; split_and!; auto.
Qed.

(** The digits of the encoding of up to three bytes. *)
Lemma base64_quads_encode l : base64_quads (base64_encode l) = Some l.
Proof.
  induction l as [|a|a b|a b c l IH] using list_ind3; [done|..]; cbn [base64_encode app base64_quads].
  all: pose proof (byte_value_range a) as Ha; try pose proof (byte_value_range b) as Hb;
    try pose proof (byte_value_range c) as Hc.
  all: repeat match goal with
  | |- context [base64_value (base64_char ?n)] =>
      rewrite (proj1 (base64_char_ok n ltac:(Z.div_mod_to_equations; lia)))
  | |- context [Ascii.eqb (base64_char ?n) "="] =>
      rewrite (proj2 (Ascii.eqb_neq (base64_char n) "=")) by
        (apply (base64_char_ok n); Z.div_mod_to_equations; lia)
  end; cbn [mbind option_bind andb Ascii.eqb Bool.eqb].
  all: try rewrite bool_decide_eq_true_2 by done; try (rewrite IH; cbn [mbind option_bind]).
  all: repeat f_equal; apply value_byte_value; Z.div_mod_to_equations; lia.
Qed.

Lemma base64_no_breaks l : Forall (λ c, line_break c = false) (base64_encode l).
Proof.
  induction l as [|a|a b|a b c l IH] using list_ind3; cbn [base64_encode app]; [constructor|..].
  all: pose proof (byte_value_range a) as Ha; try pose proof (byte_value_range b) as Hb;
    try pose proof (byte_value_range c) as Hc.
  all: repeat first [exact IH | apply Forall_nil_2 | apply Forall_cons; split];
    try done; apply base64_char_ok; Z.div_mod_to_equations; lia.
Qed.

Lemma filter_all {A} (P : A → Prop) `{∀ x, Decision (P x)} l : Forall P l → filter P l = l.
Proof. induction 1 as [|x l Hx _ IH]; [done|]. by rewrite filter_cons_True, IH. Qed.

Lemma base64_roundtrip s : base64_DecodeString (base64_EncodeToString s) = Some s.
Proof.
  unfold base64_DecodeString, base64_EncodeToString.
  rewrite String.list_ascii_of_string_of_list_ascii, filter_all by apply base64_no_breaks.
  rewrite base64_quads_encode. cbn. by rewrite String.string_of_list_ascii_of_string.
Qed.

(** [base64.RawURLEncoding]: the URL alphabet without padding. *)
Fixpoint base64_raw (l : list ascii) : list ascii :=
  match l with
  | a :: b :: c :: l =>
      let x := byte_value a in let y := byte_value b in let z := byte_value c in
      [base64_char (x / 4); base64_char (x `mod` 4 * 16 + y / 16);
       base64_char (y `mod` 16 * 4 + z / 64); base64_char (z `mod` 64)]%Z ++ base64_raw l
  | [a; b] =>
      let x := byte_value a in let y := byte_value b in
      [base64_char (x / 4); base64_char (x `mod` 4 * 16 + y / 16); base64_char (y `mod` 16 * 4)]%Z
  | [a] => let x := byte_value a in [base64_char (x / 4); base64_char (x `mod` 4 * 16)]%Z
  | [] => []
  end.
Definition to_url (c : ascii) : ascii :=
  if Ascii.eqb c "+" then "-"%char else if Ascii.eqb c "/" then "_"%char else c.
Definition of_url (c : ascii) : option ascii :=
  if Ascii.eqb c "-" then Some "+"%char else if Ascii.eqb c "_" then Some "/"%char
  else match base64_value c with
       | Some _ => if Ascii.eqb c "+" || Ascii.eqb c "/" then None else Some c
       | None => None
       end.
(** The padding that the text lacks. *)
Definition add_padding (l : list ascii) : option (list ascii) :=
  match length l mod 4 with
  | 0 => Some l
  | 2 => Some (l ++ ["="%char; "="%char])
  | 3 => Some (l ++ ["="%char])
  | _ => None
  end.
Definition rawURL_EncodeToString (s : string) : string :=
  String.string_of_list_ascii (map to_url (base64_raw (String.list_ascii_of_string s))).
Definition rawURL_DecodeString (s : string) : option string :=
  l ← mapM of_url (filter (λ c, line_break c = false) (String.list_ascii_of_string s));
  l ← add_padding l; l ← base64_quads l;
  Some (String.string_of_list_ascii l).

Lemma add_padding_app4 a b c d l l' :
  add_padding l = Some l' → add_padding (a :: b :: c :: d :: l) = Some (a :: b :: c :: d :: l').
Proof.
  unfold add_padding. change (length (a :: b :: c :: d :: l)) with (4 + length l).
  replace ((4 + length l) mod 4) with (length l mod 4)
    by (rewrite Nat.add_comm; symmetry; apply (Nat.Div0.mod_add (length l) 1 4)).
  destruct (length l mod 4) as [|[|[|[|n]]]]; intros [= <-]; done.
Qed.

Lemma add_padding_raw l : add_padding (base64_raw l) = Some (base64_encode l).
Proof.
  induction l as [|a|a b|a b c l IH] using list_ind3; [done..|].
  cbn [base64_raw base64_encode app]. by apply add_padding_app4.
Qed.

Lemma url_char_ok n :
  (0 ≤ n < 64)%Z →
  of_url (to_url (base64_char n)) = Some (base64_char n) ∧ line_break (to_url (base64_char n)) = false.
Proof.
  intros Hn.
  assert (Forall (λ i, of_url (to_url (base64_char (Z.of_nat i))) = Some (base64_char (Z.of_nat i))
                       ∧ line_break (to_url (base64_char (Z.of_nat i))) = false) (seq 0 64)) as Hall
    by decide_now.
  rewrite Forall_forall in Hall. specialize (Hall (Z.to_nat n)).
  rewrite Z2Nat.id in Hall by lia. apply Hall. apply elem_of_seq. lia.
Qed.

Lemma base64_raw_chars l : Forall (λ c, ∃ n, (0 ≤ n < 64)%Z ∧ c = base64_char n) (base64_raw l).
Proof.
  induction l as [|a|a b|a b c l IH] using list_ind3; cbn [base64_raw app]; [constructor|..].
  all: pose proof (byte_value_range a) as Ha; try pose proof (byte_value_range b) as Hb;
    try pose proof (byte_value_range c) as Hc.
  all: repeat first [exact IH | apply Forall_nil_2 | apply Forall_cons; split];
    (eexists; split; [|reflexivity]); Z.div_mod_to_equations; lia.
Qed.

Lemma rawURL_roundtrip s : rawURL_DecodeString (rawURL_EncodeToString s) = Some s.
Proof.
  unfold rawURL_DecodeString, rawURL_EncodeToString. rewrite String.list_ascii_of_string_of_list_ascii.
  pose proof (base64_raw_chars (String.list_ascii_of_string s)) as Hc.
  rewrite filter_all.
  2: { apply Forall_fmap. eapply Forall_impl; [exact Hc|]. intros c (n & Hn & ->). by apply url_char_ok. }
  assert (∀ l, Forall (λ c, ∃ n, (0 ≤ n < 64)%Z ∧ c = base64_char n) l → mapM of_url (map to_url l) = Some l) as Hm.
  { induction 1 as [|c l (n & Hn & ->) _ IH]; [done|]. cbn [map mapM].
    rewrite (proj1 (url_char_ok n Hn)). cbn. by rewrite IH. }
  rewrite Hm by done. cbn [mbind option_bind]. rewrite add_padding_raw. cbn [mbind option_bind].
  rewrite base64_quads_encode. cbn. by rewrite String.string_of_list_ascii_of_string.
Qed.

(** [strings.SplitN(s, sep, 2)] for a one-byte separator. *)
Fixpoint split_at (sep : ascii) (l : list ascii) : option (list ascii * list ascii) :=
  match l with
  | [] => None
  | c :: l =>
      if Ascii.eqb c sep then Some ([], l)
      else match split_at sep l with Some (l1, l2) => Some (c :: l1, l2) | None => None end
  end.
Lemma split_at_app sep l1 l2 : sep ∉ l1 → split_at sep (l1 ++ sep :: l2) = Some (l1, l2).
Proof.
  induction l1 as [|c l1 IH]; intros Hn; simpl; [by rewrite Ascii.eqb_refl|].
  apply not_elem_of_cons in Hn as [Hc Hn]. rewrite (proj2 (Ascii.eqb_neq c sep)) by congruence. by rewrite IH.
Qed.
