(* ===== verification/Float.v ===== *)
(** * float64

    [Float.v] models what the program uses of Go's [float64] and of package math: rounding to
    nearest even with 53 bits and gradual underflow, the arithmetic and the comparison, the
    conversions from and to [int64], [math.Pow] with an integral exponent, and [rand.Float64].
    A finite number is [m * 2^e]; the two zeros are one value.  A conversion to [int64] that is out of range gives
    what amd64 gives, the least integer. *)

From Stdlib Require Import QArith Qpower Lqa.
From S2P Require Import Prelude.
#[local] Open Scope Z_scope.

(** ** Numbers and rounding *)

Inductive float64 := Finite (m e : Z) | Inf (neg : bool) | NaN.

(** [m / 2^s] to the nearest integer, ties to even. *)
Definition rne (m s : Z) : Z :=
  let q := m / 2 ^ s in
  let r := m mod 2 ^ s in
  if 2 * r <? 2 ^ s then q
  else if 2 ^ s <? 2 * r then q + 1
  else if Z.even q then q else q + 1.

Definition min_exp : Z := -1074.

(** The exponent of the last place of [m * 2^e]. *)
Definition last_place (m e : Z) : Z := Z.max (e + Z.log2 (Z.abs m) + 1 - 53) min_exp.

Definition overflows (m e : Z) : bool := 1024 <=? Z.log2 (Z.abs m) + e.

(** The float64 nearest to [m * 2^e]. *)
Definition round (m e : Z) : float64 :=
  let e' := last_place m e in
  let '(m', e') := if e' <=? e then (m, e) else (rne m (e' - e), e') in
  if m' =? 0 then Finite 0 0
  else if overflows m' e' then Inf (m' <? 0) else Finite m' e'.

(** ** Arithmetic *)

Definition fopp (x : float64) : float64 :=
  match x with Finite m e => Finite (- m) e | Inf n => Inf (negb n) | NaN => NaN end.

Definition fadd (x y : float64) : float64 :=
  match x, y with
  | NaN, _ | _, NaN => NaN
  | Inf a, Inf b => if eqb a b then Inf a else NaN
  | Inf a, _ => Inf a
  | _, Inf b => Inf b
  | Finite m1 e1, Finite m2 e2 =>
      let e := Z.min e1 e2 in round (m1 * 2 ^ (e1 - e) + m2 * 2 ^ (e2 - e)) e
  end.
Definition fsub (x y : float64) : float64 := fadd x (fopp y).

Definition fneg (x : float64) : bool :=
  match x with Finite m _ => m <? 0 | Inf n => n | NaN => false end.
Definition fzero (x : float64) : bool := match x with Finite m _ => m =? 0 | _ => false end.

Definition fmul (x y : float64) : float64 :=
  match x, y with
  | NaN, _ | _, NaN => NaN
  | Finite m1 e1, Finite m2 e2 => round (m1 * m2) (e1 + e2)
  | _, _ => if fzero x || fzero y then NaN else Inf (xorb (fneg x) (fneg y))
  end.

(** The quotient of two finite numbers, the divisor positive: enough bits of it and whether
    any are left. *)
Definition fdiv_pos (m1 e1 m2 e2 : Z) : float64 :=
  let k := Z.max 0 (55 + Z.log2 m2 - Z.log2 (Z.abs m1)) in
  let n := m1 * 2 ^ k in
  round (2 * (n / m2) + (if n mod m2 =? 0 then 0 else 1)) (e1 - e2 - k - 1).

Definition fdiv (x y : float64) : float64 :=
  match x, y with
  | NaN, _ | _, NaN | Inf _, Inf _ => NaN
  | Inf a, _ => Inf (xorb a (fneg y))
  | _, Inf _ => Finite 0 0
  | Finite m1 e1, Finite m2 e2 =>
      if m2 =? 0 then if m1 =? 0 then NaN else Inf (m1 <? 0)
      else fdiv_pos (m1 * Z.sgn m2) e1 (Z.abs m2) e2
  end.

Definition fltb (x y : float64) : bool :=
  match x, y with
  | NaN, _ | _, NaN => false
  | Inf a, Inf b => a && negb b
  | Inf a, _ => a
  | _, Inf b => negb b
  | Finite m1 e1, Finite m2 e2 =>
      let e := Z.min e1 e2 in m1 * 2 ^ (e1 - e) <? m2 * 2 ^ (e2 - e)
  end.

Definition feqb (x y : float64) : bool :=
  match x, y with
  | NaN, _ | _, NaN => false
  | _, _ => negb (fltb x y) && negb (fltb y x)
  end.

Definition of_int64 (z : Z) : float64 := round z 0.

(** Truncation toward zero; out of range and NaN give the least integer. *)
Definition trunc (m e : Z) : Z := if 0 <=? e then m * 2 ^ e else Z.quot m (2 ^ (- e)).
Definition to_int64 (x : float64) : Z :=
  match x with
  | Finite m e =>
      let z := trunc m e in
      if (- 2 ^ 63 <=? z) && (z <? 2 ^ 63) then z else - 2 ^ 63
  | _ => - 2 ^ 63
  end.

(** ** math *)

Definition fone : float64 := Finite 1 0.
Definition fhalf : float64 := Finite 1 (-1).

(** [math.Frexp] of a finite number that is not zero: a fraction in [1/2, 1) and an exponent. *)
Definition Frexp (m e : Z) : float64 * Z :=
  let d := Z.log2 (Z.abs m) + 1 in (Finite m (- d), e + d).

Definition Ldexp (x : float64) (k : Z) : float64 :=
  match x with Finite m e => round m (e + k) | _ => x end.

(** The loop of [math.Pow] over the bits of the exponent; [n] bounds the iterations. *)
Fixpoint pow_loop (n : nat) (i : Z) (a1 : float64) (ae : Z) (x1 : float64) (xe : Z) : float64 * Z :=
  match n with
  | O => (a1, ae)
  | S n =>
      if i =? 0 then (a1, ae)
      else if (xe <? - 2 ^ 12) || (2 ^ 12 <? xe) then (a1, ae + xe)
      else
        let '(a1, ae) := if Z.odd i then (fmul a1 x1, ae + xe) else (a1, ae) in
        let x1 := fmul x1 x1 in
        let xe := 2 * xe in
        let '(x1, xe) := if fltb x1 fhalf then (fadd x1 x1, xe - 1) else (x1, xe) in
        pow_loop n (Z.shiftr i 1) a1 ae x1 xe
  end.

(** [math.Pow(x, y)] for an integer [0 <= y < 2^63]. *)
Definition Pow (x : float64) (y : Z) : float64 :=
  if (y =? 0) || feqb x fone then fone
  else match x with
       | NaN => NaN
       | Inf neg => Inf (neg && Z.odd y)
       | Finite m e =>
           if y =? 1 then x
           else if m =? 0 then Finite 0 0
           else
             let '(x1, xe) := Frexp m e in
             let '(a1, ae) := pow_loop 63 y fone 0 x1 xe in
             Ldexp a1 ae
       end.

(** [rand.Float64]: 53 random bits. *)
Definition rand_Float64 (k : Z) : float64 := Finite k (-53).

(** ** Values *)

Definition dy (m e : Z) : Q := (inject_Z m * 2 ^ e)%Q.

Lemma dy_pos e : (0 < 2 ^ e)%Q.
Proof. by apply Qpower_0_lt. Qed.

Lemma dy_shift m k e : 0 <= k -> (dy (m * 2 ^ k) e == dy m (k + e))%Q.
Proof.
  intros Hk. unfold dy. rewrite inject_Z_mult, Zpower_Qpower, Qpower_plus by done.
  change (inject_Z 2) with 2%Q. ring.
Qed.

Lemma dy_le m n e : (dy m e <= dy n e)%Q <-> m <= n.
Proof.
  unfold dy. pose proof (dy_pos e) as Hp. rewrite Qmult_le_r by done. by rewrite <- Zle_Qle.
Qed.

Lemma dy_lt m n e : (dy m e < dy n e)%Q <-> m < n.
Proof.
  unfold dy. pose proof (dy_pos e) as Hp. rewrite Qmult_lt_r by done. by rewrite <- Zlt_Qlt.
Qed.

Lemma rne_upper m s n : 0 <= s -> m <= n * 2 ^ s -> rne m s <= n.
Proof.
  intros Hs Hm. assert (Hp : 0 < 2 ^ s) by lia. unfold rne.
  pose proof (Z.div_mod m (2 ^ s) ltac:(lia)) as Hd. pose proof (Z.mod_pos_bound m (2 ^ s) Hp) as Hr.
  set (q := m / 2 ^ s) in *. set (r := m mod 2 ^ s) in *.
  assert (q <= n /\ (0 < r -> q + 1 <= n)) as [? ?] by (split; [|intros]; nia).
  destruct (Z.ltb_spec (2 * r) (2 ^ s)); [lia|]. destruct (Z.ltb_spec (2 ^ s) (2 * r)); [lia|].
  destruct (Z.even q); lia.
Qed.

Lemma rne_lower m s n : 0 <= s -> n * 2 ^ s <= m -> n <= rne m s.
Proof.
  intros Hs Hm. assert (Hp : 0 < 2 ^ s) by lia. unfold rne.
  pose proof (Z.div_mod m (2 ^ s) ltac:(lia)) as Hd. pose proof (Z.mod_pos_bound m (2 ^ s) Hp) as Hr.
  set (q := m / 2 ^ s) in *. set (r := m mod 2 ^ s) in *.
  assert (n <= q) by nia. split_match; lia.
Qed.

(** A number the format holds. *)
Definition rep (a f : Z) : Prop :=
  Z.abs a <= 2 ^ 53 /\ min_exp <= f /\ (a = 0 \/ overflows a f = false).

(** The places of the target format between a number and a bound the format holds. *)
Lemma grid_upper m e a f :
  Z.abs a <= 2 ^ 53 -> min_exp <= f -> e < last_place m e -> (dy m e <= dy a f)%Q ->
  exists n, m <= n * 2 ^ (last_place m e - e) /\ (dy n (last_place m e) <= dy a f)%Q.
Proof.
  intros Ha Hf He Hle. set (e' := last_place m e) in *.
  assert (Hx : forall n, (dy m e <= dy n e')%Q -> m <= n * 2 ^ (e' - e)).
  { intros n Hn. apply (dy_le m (n * 2 ^ (e' - e)) e). rewrite dy_shift by lia.
    by replace (e' - e + e) with e' by lia. }
  destruct (Z_le_gt_dec e' f) as [Hef|Hef].
  { exists (a * 2 ^ (f - e')). assert (dy (a * 2 ^ (f - e')) e' == dy a f)%Q as Heq.
    { rewrite dy_shift by lia. by replace (f - e' + e') with f by lia. }
    split; [apply Hx|]; lra. }
  assert (Hd : e' = e + Z.log2 (Z.abs m) + 1 - 53) by (unfold e', last_place in *; lia).
  assert (Hm : 2 ^ 52 * 2 ^ (e' - e) <= Z.abs m).
  { rewrite <- Z.pow_add_r by lia. replace (52 + (e' - e)) with (Z.log2 (Z.abs m)) by lia.
    apply Z.log2_spec. assert (m <> 0) by (intros ->; simpl in Hd; lia). lia. }
  assert (Hy : (dy (- 2 ^ 52) e' <= dy a f)%Q /\ (dy a f <= dy (2 ^ 52) e')%Q).
  { assert (forall n, dy n e' == dy (n * 2 ^ (e' - f)) f)%Q as Hs.
    { intros n. rewrite dy_shift by lia. by replace (e' - f + f) with e' by lia. }
    rewrite !Hs, !dy_le. assert (2 <= 2 ^ (e' - f)) by (apply (Z.pow_le_mono_r 2 1); lia). nia. }
  destruct (Z_le_gt_dec 0 m).
  - exists (2 ^ 52). split; [apply Hx; lra|]. apply (Qle_trans _ (dy m e)); [|exact Hle].
    replace e' with (e' - e + e) at 1 by lia. rewrite <- dy_shift, dy_le by lia. lia.
  - exists (- 2 ^ 52). split; [lia|lra].
Qed.

Lemma dy_opp m e : (dy (- m) e == - dy m e)%Q.
Proof. unfold dy. rewrite inject_Z_opp. ring. Qed.

Lemma grid_lower m e a f :
  Z.abs a <= 2 ^ 53 -> min_exp <= f -> e < last_place m e -> (dy a f <= dy m e)%Q ->
  exists n, n * 2 ^ (last_place m e - e) <= m /\ (dy a f <= dy n (last_place m e))%Q.
Proof.
  intros Ha Hf He Hle.
  assert (Hlp : last_place (- m) e = last_place m e) by (unfold last_place; by rewrite Z.abs_opp).
  destruct (grid_upper (- m) e (- a) f) as (n & Hn & Hd); rewrite ?Hlp in *; [lia|done|done| |].
  { rewrite !dy_opp. lra. }
  exists (- n). split; [lia|]. rewrite dy_opp in *. lra.
Qed.

(** The significand and exponent that [round] computes before it looks for overflow. *)
Definition nearest (m e : Z) : Z * Z :=
  let e' := last_place m e in if e' <=? e then (m, e) else (rne m (e' - e), e').

Lemma nearest_bounds m e : Z.abs (nearest m e).1 <= 2 ^ 53 /\ min_exp <= (nearest m e).2.
Proof.
  unfold nearest. pose proof (Z.log2_nonneg (Z.abs m)) as Hl.
  assert (Hm : Z.abs m < 2 ^ (Z.log2 (Z.abs m) + 1)).
  { destruct (Z.eq_dec m 0) as [->|]; [done|]. apply Z.log2_spec. lia. }
  destruct (Z.leb_spec (last_place m e) e) as [Hle|Hlt]; simpl; unfold last_place in *.
  - split; [|lia]. assert (2 ^ (Z.log2 (Z.abs m) + 1) <= 2 ^ 53) by (apply Z.pow_le_mono_r; lia). lia.
  - split; [|lia]. set (s := Z.max _ _ - e) in *.
    assert (2 ^ (Z.log2 (Z.abs m) + 1) <= 2 ^ 53 * 2 ^ s) by (rewrite <- Z.pow_add_r by lia; apply Z.pow_le_mono_r; lia).
    apply Z.abs_le. split; [apply rne_lower|apply rne_upper]; lia.
Qed.

Lemma nearest_le m e a f :
  Z.abs a <= 2 ^ 53 -> min_exp <= f -> (dy m e <= dy a f)%Q -> (dy (nearest m e).1 (nearest m e).2 <= dy a f)%Q.
Proof.
  intros Ha Hf Hle. unfold nearest. destruct (Z.leb_spec (last_place m e) e) as [|Hlt]; [done|]. simpl.
  destruct (grid_upper m e a f) as (n & Hn & Hd); [done..|]. apply rne_upper in Hn; [|lia].
  eapply Qle_trans; [|exact Hd]. by apply dy_le.
Qed.

Lemma nearest_ge m e a f :
  Z.abs a <= 2 ^ 53 -> min_exp <= f -> (dy a f <= dy m e)%Q -> (dy a f <= dy (nearest m e).1 (nearest m e).2)%Q.
Proof.
  intros Ha Hf Hle. unfold nearest. destruct (Z.leb_spec (last_place m e) e) as [|Hlt]; [done|]. simpl.
  destruct (grid_lower m e a f) as (n & Hn & Hd); [done..|]. apply rne_lower in Hn; [|lia].
  eapply Qle_trans; [exact Hd|]. by apply dy_le.
Qed.

Lemma dy_zero e : (dy 0 e == 0)%Q.
Proof. unfold dy. ring. Qed.

Lemma dy_one e : (dy 1 e == 2 ^ e)%Q.
Proof. unfold dy. ring. Qed.

(** Overflow is a matter of the value. *)
Lemma overflows_spec m e : m <> 0 -> overflows m e = true <-> (dy 1 1024 <= dy (Z.abs m) e)%Q.
Proof.
  intros Hm. unfold overflows. pose proof (Z.log2_nonneg (Z.abs m)) as Hl.
  pose proof (Z.log2_spec (Z.abs m) ltac:(lia)) as [Hlo Hhi].
  assert (forall k, 0 <= k -> (dy (2 ^ k) e == dy 1 (k + e))%Q) as Hs.
  { intros k Hk. rewrite <- (Z.mul_1_l (2 ^ k)). by rewrite dy_shift. }
  assert (forall j k, (dy 1 j <= dy 1 k)%Q <-> j <= k) as Hmono.
  { intros j k. rewrite !dy_one. split; intros Hjk; [by apply (Qpower_le_compat_l_inv 2)|by apply Qpower_le_compat_l]. }
  split.
  - intros Ho%Z.leb_le. apply (Qle_trans _ (dy 1 (Z.log2 (Z.abs m) + e))); [by apply Hmono|].
    rewrite <- Hs by lia. by apply dy_le.
  - intros Ho. apply Z.leb_le. destruct (Z_le_gt_dec 1024 (Z.log2 (Z.abs m) + e)) as [|Hn]; [lia|].
    exfalso. assert (dy (Z.abs m) e < dy (2 ^ Z.succ (Z.log2 (Z.abs m))) e)%Q by (by apply dy_lt).
    rewrite Hs in * by lia. assert (dy 1 (Z.succ (Z.log2 (Z.abs m)) + e) <= dy 1 1024)%Q by (apply Hmono; lia). lra.
Qed.

Lemma dy_abs m e : (dy (Z.abs m) e == dy m e \/ dy (Z.abs m) e == - dy m e)%Q.
Proof. destruct (Z.abs_spec m) as [[_ ->]|[_ ->]]; [by left|right; apply dy_opp]. Qed.

Lemma rep_bound a f : rep a f -> (- dy 1 1024 < dy a f)%Q /\ (dy a f < dy 1 1024)%Q.
Proof.
  assert (Hp : (0 < dy 1 1024)%Q) by (rewrite dy_one; apply dy_pos).
  intros (_ & _ & [->|Ho]); [rewrite dy_zero; lra|].
  destruct (Z.eq_dec a 0) as [->|Ha]; [rewrite dy_zero; lra|].
  assert (~ (dy 1 1024 <= dy (Z.abs a) f)%Q) as Hn by (rewrite <- overflows_spec by done; by rewrite Ho).
  destruct (Z.abs_spec a) as [[_ E]|[_ E]]; rewrite E in Hn; [|rewrite dy_opp in Hn];
    (assert (0 <= dy (Z.abs a) f)%Q by (rewrite <- (dy_zero f); apply dy_le; lia));
    rewrite E in *; rewrite ?dy_opp in *; lra.
Qed.

(** Rounding stays between two numbers the format holds; in particular it is exact on those. *)
Lemma round_between m e a f b g :
  rep a f -> rep b g -> (dy a f <= dy m e)%Q -> (dy m e <= dy b g)%Q ->
  exists m' e', round m e = Finite m' e' /\ rep m' e' /\ (dy a f <= dy m' e')%Q /\ (dy m' e' <= dy b g)%Q.
Proof.
  intros Ha Hb Hlo Hhi. unfold round. change (if last_place m e <=? e then _ else _) with (nearest m e).
  pose proof (nearest_bounds m e) as [Hm He].
  apply nearest_ge in Hlo; [|by apply Ha..]. apply nearest_le in Hhi; [|by apply Hb..].
  destruct (nearest m e) as [m' e']. cbn [fst snd] in *.
  destruct (Z.eqb_spec m' 0) as [->|Hne].
  { exists 0, 0. pose proof (dy_zero 0). pose proof (dy_zero e').
    split_and!; [done| |lra|lra]. split_and!; [done|done|by left]. }
  apply rep_bound in Ha as [Ha _], Hb as [_ Hb].
  destruct (overflows m' e') eqn:Ho; [|exists m', e'; do 2 (split; [by repeat split; auto|]); lra].
  exfalso. apply overflows_spec in Ho; [|done]. destruct (dy_abs m' e'); lra.
Qed.

Lemma round_rep m e : rep m e -> exists m' e', round m e = Finite m' e' /\ rep m' e' /\ (dy m' e' == dy m e)%Q.
Proof.
  intros Hr. destruct (round_between m e m e m e Hr Hr (Qle_refl _) (Qle_refl _)) as (m' & e' & H & Hr' & H1 & H2).
  exists m', e'. split_and!; [done|done|lra].
Qed.

Lemma dy_common m e f : (f <= e)%Z -> (dy m e == dy (m * 2 ^ (e - f)) f)%Q.
Proof. intros Hf. rewrite dy_shift by lia. by replace (e - f + f) with e by lia. Qed.

Lemma fltb_spec m1 e1 m2 e2 : fltb (Finite m1 e1) (Finite m2 e2) = true <-> (dy m1 e1 < dy m2 e2)%Q.
Proof.
  cbn. rewrite (dy_common m1 e1 (Z.min e1 e2)), (dy_common m2 e2 (Z.min e1 e2)) by lia.
  by rewrite dy_lt, Z.ltb_lt.
Qed.

Lemma fltb_false m1 e1 m2 e2 : fltb (Finite m1 e1) (Finite m2 e2) = false <-> (dy m2 e2 <= dy m1 e1)%Q.
Proof.
  rewrite <- not_true_iff_false, fltb_spec. split; [apply Qnot_lt_le|apply Qle_not_lt].
Qed.

Lemma trunc_upper m e z : (dy m e <= dy z 0)%Q -> trunc m e <= z.
Proof.
  unfold trunc. destruct (Z.leb_spec 0 e) as [He|He].
  - rewrite (dy_common m e 0), dy_le by done. by rewrite Z.sub_0_r.
  - rewrite (dy_common z 0 e), dy_le by lia. replace (0 - e) with (- e) by lia. intros Hm.
    assert (Hp : 0 < 2 ^ (- e)) by lia. pose proof (Z.quot_rem' m (2 ^ (- e))) as Hq.
    pose proof (Z.rem_bound_abs m (2 ^ (- e)) ltac:(lia)) as Hr. pose proof (Z.rem_sign_mul m (2 ^ (- e)) ltac:(lia)) as Hs.
    nia.
Qed.

Lemma trunc_lower m e z : (dy z 0 <= dy m e)%Q -> z <= trunc m e.
Proof.
  intros Hz. assert (trunc (- m) e <= - z) as Ht.
  { apply trunc_upper. rewrite !dy_opp. lra. }
  assert (trunc (- m) e = - trunc m e) as E; [|lia].
  unfold trunc. destruct (Z.leb_spec 0 e); [lia|]. apply Z.quot_opp_l. lia.
Qed.

(** A conversion that is in range truncates. *)
Lemma to_int64_between m e lo hi :
  - 2 ^ 63 <= lo -> hi < 2 ^ 63 -> (dy lo 0 <= dy m e)%Q -> (dy m e <= dy hi 0)%Q ->
  lo <= to_int64 (Finite m e) <= hi.
Proof.
  intros Hlo Hhi Hl%trunc_lower Hh%trunc_upper. cbn.
  destruct (Z.leb_spec (- 2 ^ 63) (trunc m e)); [|lia]. destruct (Z.ltb_spec (trunc m e) (2 ^ 63)); cbn; lia.
Qed.

(** A conversion rounds toward zero. *)
Lemma trunc_le m e : 0 <= m -> (dy (trunc m e) 0 <= dy m e)%Q.
Proof.
  intros Hm. unfold trunc. destruct (Z.leb_spec 0 e) as [He|He].
  - rewrite (dy_common m e 0) by done. rewrite Z.sub_0_r. apply Qle_refl.
  - rewrite (dy_common _ 0 e), dy_le by lia. replace (0 - e) with (- e) by lia. rewrite Z.mul_comm.
    apply Z.mul_quot_le; lia.
Qed.

Lemma to_int64_nonneg m e lo hi :
  0 <= lo -> hi < 2 ^ 63 -> (dy lo 0 <= dy m e)%Q -> (forall z, (dy z 0 <= dy m e)%Q -> z <= hi) ->
  lo <= to_int64 (Finite m e) <= hi.
Proof.
  intros Hlo Hhi Hl Hh. assert (0 <= m) as Hm.
  { apply (dy_le 0 m e). apply (Qle_trans _ (dy lo 0)); [|done].
    rewrite (dy_zero e), <- (dy_zero 0). by apply dy_le. }
  apply trunc_lower in Hl. pose proof (Hh _ (trunc_le m e Hm)) as Ht. cbn.
  destruct (Z.leb_spec (- 2 ^ 63) (trunc m e)); [|lia]. destruct (Z.ltb_spec (trunc m e) (2 ^ 63)); cbn; lia.
Qed.

Lemma Qmult_le_l_nonneg (x y z : Q) : (0 <= z)%Q -> (x <= y)%Q -> (z * x <= z * y)%Q.
Proof. intros Hz Hxy. rewrite (Qmult_comm z x), (Qmult_comm z y). by apply Qmult_le_compat_r. Qed.

Lemma rep_int z : Z.abs z <= 2 ^ 53 -> rep z 0.
Proof.
  intros Hz. split_and!; [done|by vm_compute|]. destruct (Z.eq_dec z 0) as [->|]; [by left|right].
  apply Z.leb_gt. rewrite Z.add_0_r. assert (Z.log2 (Z.abs z) <= 53) by (rewrite <- (Z.log2_pow2 53) by lia; by apply Z.log2_le_mono).
  lia.
Qed.

Lemma of_int64_exact z : Z.abs z <= 2 ^ 53 -> exists m e, of_int64 z = Finite m e /\ rep m e /\ (dy m e == dy z 0)%Q.
Proof. intros Hz%rep_int. by apply round_rep. Qed.

(** ** Operations on values *)

Lemma dy_mul m1 e1 m2 e2 : (dy (m1 * m2) (e1 + e2) == dy m1 e1 * dy m2 e2)%Q.
Proof. unfold dy. rewrite inject_Z_mult, Qpower_plus by done. ring. Qed.

Lemma dy_add m1 e1 m2 e2 :
  (dy (m1 * 2 ^ (e1 - Z.min e1 e2) + m2 * 2 ^ (e2 - Z.min e1 e2)) (Z.min e1 e2) == dy m1 e1 + dy m2 e2)%Q.
Proof.
  rewrite (dy_common m1 e1 (Z.min e1 e2)), (dy_common m2 e2 (Z.min e1 e2)) by lia.
  unfold dy. rewrite inject_Z_plus. ring.
Qed.

Lemma fmul_between m1 e1 m2 e2 a f b g :
  rep a f -> rep b g -> (dy a f <= dy m1 e1 * dy m2 e2)%Q -> (dy m1 e1 * dy m2 e2 <= dy b g)%Q ->
  exists m e, fmul (Finite m1 e1) (Finite m2 e2) = Finite m e /\ rep m e /\ (dy a f <= dy m e)%Q /\ (dy m e <= dy b g)%Q.
Proof. intros Ha Hb Hlo Hhi. rewrite <- dy_mul in Hlo, Hhi. exact (round_between _ _ _ _ _ _ Ha Hb Hlo Hhi). Qed.

Lemma fadd_between m1 e1 m2 e2 a f b g :
  rep a f -> rep b g -> (dy a f <= dy m1 e1 + dy m2 e2)%Q -> (dy m1 e1 + dy m2 e2 <= dy b g)%Q ->
  exists m e, fadd (Finite m1 e1) (Finite m2 e2) = Finite m e /\ rep m e /\ (dy a f <= dy m e)%Q /\ (dy m e <= dy b g)%Q.
Proof. intros Ha Hb Hlo Hhi. rewrite <- dy_add in Hlo, Hhi. exact (round_between _ _ _ _ _ _ Ha Hb Hlo Hhi). Qed.

Lemma fmul_exact m1 e1 m2 e2 a f :
  rep a f -> (dy m1 e1 * dy m2 e2 == dy a f)%Q ->
  exists m e, fmul (Finite m1 e1) (Finite m2 e2) = Finite m e /\ rep m e /\ (dy m e == dy a f)%Q.
Proof.
  intros Ha Heq. destruct (fmul_between m1 e1 m2 e2 a f a f) as (m & e & H & Hr & Hlo & Hhi); [done|done|lra|lra|].
  exists m, e. split_and!; [done|done|lra].
Qed.

Lemma fadd_exact m1 e1 m2 e2 a f :
  rep a f -> (dy m1 e1 + dy m2 e2 == dy a f)%Q ->
  exists m e, fadd (Finite m1 e1) (Finite m2 e2) = Finite m e /\ rep m e /\ (dy m e == dy a f)%Q.
Proof.
  intros Ha Heq. destruct (fadd_between m1 e1 m2 e2 a f a f) as (m & e & H & Hr & Hlo & Hhi); [done|done|lra|lra|].
  exists m, e. split_and!; [done|done|lra].
Qed.

Lemma rep_pow2 k : min_exp <= k < 1024 -> rep 1 k.
Proof. intros Hk. split_and!; [done|lia|right]. apply Z.leb_gt. change (Z.log2 (Z.abs 1)) with 0. lia. Qed.

(** ** math.Pow of two *)

Lemma dy_one_add j k : (dy 1 j * dy 1 k == dy 1 (j + k))%Q.
Proof. symmetry. apply (dy_mul 1 j 1 k). Qed.

Lemma dy_one_double k : (dy 1 k + dy 1 k == dy 1 (k + 1))%Q.
Proof. rewrite <- (dy_one_add k 1). change (dy 1 1) with (inject_Z 1 * 2)%Q. unfold inject_Z. ring. Qed.

(** One step of the squaring: the fraction of a power of two stays one half. *)
Lemma square_half m e xe :
  (dy m e == dy 1 (-1))%Q ->
  exists m' e', (let x1 := fmul (Finite m e) (Finite m e) in
                 if fltb x1 fhalf then (fadd x1 x1, 2 * xe - 1) else (x1, 2 * xe)) = (Finite m' e', 2 * xe - 1)
                /\ (dy m' e' == dy 1 (-1))%Q.
Proof.
  intros Hx. destruct (fmul_exact m e m e 1 (-2)) as (m1 & e1 & -> & _ & H1);
    [by apply rep_pow2|rewrite Hx; apply (dy_one_add (-1) (-1))|]. cbv zeta.
  assert (fltb (Finite m1 e1) fhalf = true) as ->.
  { apply fltb_spec. rewrite H1. unfold Qlt. by vm_compute. }
  destruct (fadd_exact m1 e1 m1 e1 1 (-1)) as (m2 & e2 & -> & _ & H2);
    [by apply rep_pow2|rewrite H1; apply (dy_one_double (-2))|]. by exists m2, e2.
Qed.

Lemma pow_loop_two n i m1 e1 ae m e xe c :
  0 <= i < 2 ^ Z.of_nat n -> (dy m e == dy 1 (-1))%Q -> (dy m1 e1 == dy 1 (- c))%Q ->
  0 <= c -> c + Z.of_nat n <= 1000 -> 2 <= xe -> 0 <= ae - c -> ae - c + i * (xe - 1) <= 1023 ->
  exists m' e' ae' c', pow_loop n i (Finite m1 e1) ae (Finite m e) xe = (Finite m' e', ae')
    /\ (dy m' e' == dy 1 (- c'))%Q /\ ae' - c' = ae - c + i * (xe - 1).
Proof.
  revert i m1 e1 ae m e xe c. induction n as [|n IH]; intros i m1 e1 ae m e xe c Hi Hx Ha Hc Hn Hxe Hk Hb.
  { exists m1, e1, ae, c. cbn in Hi. split_and!; [done|done|nia]. }
  cbn [pow_loop]. destruct (Z.eqb_spec i 0) as [->|Hi0]; [exists m1, e1, ae, c; split_and!; [done|done|lia]|].
  replace ((xe <? - 2 ^ 12) || (2 ^ 12 <? xe)) with false by (symmetry; apply orb_false_iff; rewrite !Z.ltb_ge; nia).
  destruct (square_half m e xe Hx) as (m' & e' & Hsq & Hx'). cbv zeta in Hsq.
  rewrite Z.shiftr_div_pow2 by lia. change (2 ^ 1) with 2.
  pose proof (Z.div_mod i 2 ltac:(lia)) as Hd. pose proof (Z.mod_pos_bound i 2 ltac:(lia)) as Hr.
  assert (Hi2 : 0 <= i / 2 < 2 ^ Z.of_nat n).
  { replace (Z.of_nat (S n)) with (Z.succ (Z.of_nat n)) in Hi by lia. rewrite Z.pow_succ_r in Hi by lia. lia. }
  rewrite Zmod_odd in Hd, Hr. destruct (Z.odd i).
  - destruct (fmul_exact m1 e1 m e 1 (- (c + 1))) as (m2 & e2 & -> & _ & H2);
      [apply rep_pow2; unfold min_exp; lia|rewrite Ha, Hx, dy_one_add; by replace (- c + -1) with (- (c + 1)) by lia|].
    rewrite Hsq. destruct (IH (i / 2) m2 e2 (ae + xe) m' e' (2 * xe - 1) (c + 1)) as (m3 & e3 & ae3 & c3 & -> & H3 & Hc3);
      [done|done|done|lia|lia|lia|lia|nia|].
    exists m3, e3, ae3, c3. split_and!; [done|done|nia].
  - rewrite Hsq. destruct (IH (i / 2) m1 e1 ae m' e' (2 * xe - 1) c) as (m3 & e3 & ae3 & c3 & -> & H3 & Hc3);
      [done|done|done|lia|lia|lia|lia|nia|].
    exists m3, e3, ae3, c3. split_and!; [done|done|nia].
Qed.

(** [math.Pow(2, n)] is exact while it does not overflow. *)
Lemma Pow_two n : 0 <= n <= 1023 -> exists m e, Pow (of_int64 2) n = Finite m e /\ (dy m e == dy 1 n)%Q.
Proof.
  intros Hn. change (of_int64 2) with (Finite 2 0). unfold Pow.
  destruct (Z.eqb_spec n 0) as [->|]; [by exists 1, 0|]. change (feqb (Finite 2 0) fone) with false. cbn [orb].
  destruct (Z.eqb_spec n 1) as [->|]; [by exists 2, 0|]. change (2 =? 0) with false. cbv iota.
  change (Frexp 2 0) with (Finite 2 (-2), 2). cbv iota beta. unfold fone.
  destruct (pow_loop_two 63 n 1 0 0 2 (-2) 2 0) as (m & e & ae & c & -> & Hd & Hc); try done; [lia..|].
  cbn [Ldexp].
  assert ((dy m (e + ae) == dy 1 n)%Q) as Hv.
  { rewrite <- (Z.mul_1_r m), dy_mul, Hd, dy_one_add. replace (- c + ae) with n by lia. done. }
  destruct (round_between m (e + ae) 1 n 1 n) as (m' & e' & -> & _ & Hlo & Hhi);
    [apply rep_pow2; unfold min_exp; lia..|lra|lra|].
  exists m', e'. split; [done|lra].
Qed.

(** ** Signs *)

(** A number that is not negative, possibly infinite. *)
Definition nonneg (x : float64) : Prop :=
  match x with Finite m _ => 0 <= m | Inf neg => neg = false | NaN => False end.

Lemma dy_nonneg m e : (0 <= dy m e)%Q <-> 0 <= m.
Proof. rewrite <- (dy_zero e). apply dy_le. Qed.

Lemma round_nonneg m e : 0 <= m -> nonneg (round m e).
Proof.
  intros Hm. unfold round. change (if last_place m e <=? e then _ else _) with (nearest m e).
  assert (Hn : 0 <= (nearest m e).1).
  { unfold nearest. destruct (Z.leb_spec (last_place m e) e); [done|]. apply rne_lower; lia. }
  destruct (nearest m e) as [m' e']. cbn [fst] in Hn. destruct (Z.eqb_spec m' 0); [done|].
  destruct (overflows m' e'); [|done]. cbn. apply Z.ltb_ge. lia.
Qed.

Lemma round_Finite m e m' e' : round m e = Finite m' e' -> rep m' e'.
Proof.
  unfold round. change (if last_place m e <=? e then _ else _) with (nearest m e).
  pose proof (nearest_bounds m e) as [Hm He]. destruct (nearest m e) as [m1 e1]. cbn [fst snd] in *.
  destruct (Z.eqb_spec m1 0); [intros [= <- <-]; by repeat split; auto|].
  destruct (overflows m1 e1) eqn:Ho; [done|]. intros [= <- <-]. by repeat split; auto.
Qed.

Lemma fmul_Finite x y m e : fmul x y = Finite m e -> rep m e.
Proof.
  destruct x as [m1 e1|n1|]; destruct y as [m2 e2|n2|]; cbn [fmul]; try done; try by split_match.
  apply round_Finite.
Qed.

Lemma rep_opp m e : rep m e -> rep (- m) e.
Proof.
  intros (Hm & He & Ho). unfold rep, overflows in *. rewrite Z.abs_opp. split_and!; [done|done|].
  destruct Ho as [->|Ho]; [by left|by right].
Qed.

Lemma rep_zero : rep 0 0.
Proof. by apply rep_int. Qed.

(** A fraction of the loop of [math.Pow]. *)
Definition unit_frac (x : float64) : Prop :=
  exists m e, x = Finite m e /\ (0 <= dy m e)%Q /\ (dy m e <= 1)%Q.

Lemma dy_int z : (dy z 0 == inject_Z z)%Q.
Proof. unfold dy. cbn. ring. Qed.

Lemma unit_mul x y : unit_frac x -> unit_frac y -> unit_frac (fmul x y).
Proof.
  intros (m & e & -> & H0 & H1) (m' & e' & -> & H0' & H1').
  destruct (fmul_between m e m' e' 0 0 1 0) as (m2 & e2 & -> & _ & Hlo & Hhi);
    [apply rep_zero|by apply rep_int|rewrite dy_zero; by apply Qmult_le_0_compat|rewrite dy_int; change (inject_Z 1) with 1%Q; nra|].
  exists m2, e2. rewrite dy_zero in Hlo. rewrite dy_int in Hhi. by split_and!.
Qed.

Lemma unit_double x : unit_frac x -> fltb x fhalf = true -> unit_frac (fadd x x).
Proof.
  intros (m & e & -> & H0 & H1) Hlt. apply fltb_spec in Hlt. change (dy 1 (-1)) with (inject_Z 1 * / 2)%Q in Hlt.
  change (inject_Z 1 * / 2)%Q with (1 # 2)%Q in Hlt.
  destruct (fadd_between m e m e 0 0 1 0) as (m2 & e2 & -> & _ & Hlo & Hhi);
    [apply rep_zero|by apply rep_int|rewrite dy_zero; lra|rewrite dy_int; change (inject_Z 1) with 1%Q; lra|].
  exists m2, e2. rewrite dy_zero in Hlo. rewrite dy_int in Hhi. by split_and!.
Qed.

Lemma pow_loop_unit n i a1 ae x1 xe :
  unit_frac a1 -> unit_frac x1 -> unit_frac (pow_loop n i a1 ae x1 xe).1.
Proof.
  revert i a1 ae x1 xe. induction n as [|n IH]; intros i a1 ae x1 xe Ha Hx; [done|]. cbn [pow_loop].
  destruct (i =? 0); [done|]. destruct (_ || _); [done|]. pose proof (unit_mul _ _ Hx Hx) as Hxx.
  destruct (Z.odd i); destruct (fltb (fmul x1 x1) fhalf) eqn:Hlt; apply IH; auto using unit_mul, unit_double.
Qed.

Lemma Pow_nonneg m e y : 0 <= m -> nonneg (Pow (Finite m e) y).
Proof.
  intros Hm. unfold Pow. destruct (_ || _); [done|]. destruct (y =? 1); [done|].
  destruct (Z.eqb_spec m 0) as [|Hne]; [done|]. unfold Frexp.
  assert (Hu : unit_frac (Finite m (- (Z.log2 (Z.abs m) + 1)))).
  { eexists _, _. split_and!; [done|by apply dy_nonneg|].
    change 1%Q with (inject_Z 1). rewrite <- dy_int. pose proof (Z.log2_nonneg (Z.abs m)).
    rewrite (dy_common 1 0 (- (Z.log2 (Z.abs m) + 1))) by lia. apply dy_le.
    pose proof (Z.log2_spec (Z.abs m) ltac:(lia)) as [_ Hs]. replace (0 - - (Z.log2 (Z.abs m) + 1)) with (Z.succ (Z.log2 (Z.abs m))) by lia. lia. }
  pose proof (pow_loop_unit 63 y fone 0 _ (e + (Z.log2 (Z.abs m) + 1)) ltac:(by exists 1, 0) Hu) as Hl.
  destruct (pow_loop _ _ _ _ _ _) as [a1 ae]. cbn [fst] in Hl. destruct Hl as (m1 & e1 & -> & H0 & _).
  cbn. apply round_nonneg. by apply dy_nonneg in H0.
Qed.

(** ** Ratios of counters *)

Lemma of_int64_small z : Z.abs z < 2 ^ 53 -> of_int64 z = Finite z 0.
Proof.
  intros Hz. unfold of_int64, round. destruct (Z.eq_dec z 0) as [->|Hne]; [done|].
  assert (Hl : Z.log2 (Z.abs z) <= 52) by (assert (Z.log2 (Z.abs z) < 53) by (apply Z.log2_lt_pow2; lia); lia).
  assert (last_place z 0 <=? 0 = true) as -> by (apply Z.leb_le; unfold last_place, min_exp; lia).
  destruct (Z.eqb_spec z 0); [done|]. assert (overflows z 0 = false) as -> by (apply Z.leb_gt; lia). done.
Qed.

(** The quotient with its sticky bit is on the same side of a power of two as the ratio. *)
Lemma quotient_over a b k :
  0 < b -> 1 <= k -> b < 2 * a ->
  let v := 2 * (a * 2 ^ k / b) + (if a * 2 ^ k mod b =? 0 then 0 else 1) in
  2 ^ k + 1 <= v /\ (b < 2 ^ 32 -> 34 <= k -> 2 ^ k + 2 ^ (k - 33) <= v).
Proof.
  intros Hb Hk Hab v. set (n := a * 2 ^ k) in *.
  pose proof (Z.div_mod n b ltac:(lia)) as Hd. pose proof (Z.mod_pos_bound n b ltac:(lia)) as Hr.
  assert (Hn : 2 ^ k * b + 2 ^ k <= 2 * n) by (unfold n; assert (0 < 2 ^ k) by lia; nia).
  assert (Hpk : 2 ^ k = 2 * 2 ^ (k - 1)) by (rewrite <- Z.pow_succ_r by lia; f_equal; lia).
  assert (0 < 2 ^ (k - 1)) by lia.
  unfold v. clear v. set (q := n / b) in *. set (r := n mod b) in *. clearbody n q r. split.
  - destruct (Z.eqb_spec r 0); [assert (2 ^ (k - 1) < q) by nia; lia|].
    assert (2 ^ (k - 1) <= q) by nia. lia.
  - intros Hb32 Hk34. assert (H33 : 2 ^ (k - 1) = 2 ^ 32 * 2 ^ (k - 33)) by (rewrite <- Z.pow_add_r by lia; f_equal; lia).
    assert (2 <= 2 ^ (k - 33)) by (apply (Z.pow_le_mono_r 2 1); lia).
    assert (2 ^ (k - 1) + 2 ^ (k - 33) <= q + 1).
    { destruct (Z_le_gt_dec (2 ^ (k - 1) + 2 ^ (k - 33)) (q + 1)) as [|Hg]; [done|exfalso].
      set (p := 2 ^ (k - 33)) in *. rewrite Hpk, H33 in *. nia. }
    destruct (r =? 0); lia.
Qed.

Lemma quotient_under a b k :
  0 < b -> 1 <= k -> 0 <= 2 * a <= b ->
  0 <= 2 * (a * 2 ^ k / b) + (if a * 2 ^ k mod b =? 0 then 0 else 1) <= 2 ^ k.
Proof.
  intros Hb Hk Hab. set (n := a * 2 ^ k) in *.
  pose proof (Z.div_mod n b ltac:(lia)) as Hd. pose proof (Z.mod_pos_bound n b ltac:(lia)) as Hr.
  assert (Hpk : 2 ^ k = 2 * 2 ^ (k - 1)) by (rewrite <- Z.pow_succ_r by lia; f_equal; lia).
  assert (0 < 2 ^ (k - 1)) by lia. assert (Hn : 0 <= n /\ 2 * n <= 2 ^ k * b) by (unfold n; nia).
  set (q := n / b) in *. set (r := n mod b) in *. clearbody n q r. rewrite Hpk in *.
  assert (0 <= q) by nia. destruct (Z.eqb_spec r 0); [assert (q <= 2 ^ (k - 1)) by nia; lia|].
  assert (q < 2 ^ (k - 1)) by nia. lia.
Qed.

Lemma rep_small a f : Z.abs a <= 2 ^ 53 -> min_exp <= f <= 900 -> rep a f.
Proof.
  intros Ha Hf. split_and!; [done|lia|right]. apply Z.leb_gt.
  assert (Z.log2 (Z.abs a) <= 53) by (rewrite <- (Z.log2_pow2 53) by lia; by apply Z.log2_le_mono). lia.
Qed.

Lemma dy_half k : 0 <= k -> (dy (2 ^ k) (- k - 1) == dy 1 (-1))%Q.
Proof.
  intros Hk. rewrite <- (Z.mul_1_l (2 ^ k)), dy_shift by done. by replace (k + (- k - 1)) with (-1) by lia.
Qed.

(** The quotient of two counters exceeds one half in float64 exactly when it does. *)
Lemma ratio_over_half a b :
  0 <= a < 2 ^ 32 -> 0 < b < 2 ^ 32 -> fltb fhalf (fdiv (of_int64 a) (of_int64 b)) = (b <? 2 * a).
Proof.
  intros Ha Hb. rewrite !of_int64_small by lia. cbn [fdiv]. destruct (Z.eqb_spec b 0); [lia|].
  rewrite (Z.sgn_pos b), Z.mul_1_r, (Z.abs_eq b) by lia. unfold fdiv_pos. rewrite (Z.abs_eq a) by lia.
  pose proof (Z.log2_nonneg b) as Hlb. pose proof (Z.log2_nonneg a) as Hla0.
  assert (Hla : Z.log2 a <= 31).
  { destruct (Z.eq_dec a 0) as [->|]; [done|]. assert (Z.log2 a < 32) by (apply Z.log2_lt_pow2; lia). lia. }
  set (k := Z.max 0 (55 + Z.log2 b - Z.log2 a)). assert (Hk : 24 <= k) by lia.
  assert (Hk' : k <= 100) by (assert (Z.log2 b < 32) by (apply Z.log2_lt_pow2; lia); lia). clearbody k.
  set (v := 2 * (a * 2 ^ k / b) + _). replace (0 - 0 - k - 1) with (- k - 1) by lia.
  destruct (Z.ltb_spec b (2 * a)) as [Hlt|Hge].
  - destruct (quotient_over a b k) as [Hv Hv34]; [lia|lia|done|]. fold v in Hv, Hv34.
    assert (Hup : (dy v (- k - 1) <= dy 1 900)%Q).
    { rewrite (dy_common 1 900 (- k - 1)), dy_le, Z.mul_1_l by lia.
      assert (a * 2 ^ k / b <= a * 2 ^ k) by (apply Z.div_le_upper_bound; nia).
      replace (900 - (- k - 1)) with (901 + k) by lia. rewrite Z.pow_add_r by lia.
      assert (v <= 2 * (a * 2 ^ k) + 1) by (unfold v; destruct (_ =? 0); lia). nia. }
    assert (∃ j, 24 <= j <= 33 /\ (dy (2 ^ j + 1) (- j - 1) <= dy v (- k - 1))%Q) as (j & Hj & Hlo).
    { destruct (Z_le_gt_dec k 33); [exists k; split; [lia|by apply dy_le]|].
      exists 33. split; [lia|]. rewrite (dy_common _ (- (33) - 1) (- k - 1)), dy_le by lia.
      replace (- (33) - 1 - (- k - 1)) with (k - 33) by lia.
      rewrite Z.mul_add_distr_r, Z.mul_1_l, <- Z.pow_add_r by lia. replace (33 + (k - 33)) with k by lia.
      apply Hv34; lia. }
    assert (0 < 2 ^ j <= 2 ^ 33) by (split; [lia|apply Z.pow_le_mono_r; lia]).
    destruct (round_between v (- k - 1) (2 ^ j + 1) (- j - 1) 1 900) as (m & e & -> & _ & Hm & _);
      [apply rep_small; unfold min_exp; lia|by apply rep_small|done|done|].
    apply fltb_spec. eapply Qlt_le_trans; [|exact Hm]. rewrite <- (dy_half j) by lia. apply dy_lt. lia.
  - pose proof (quotient_under a b k ltac:(lia) ltac:(lia) ltac:(lia)) as Hv. fold v in Hv.
    destruct (round_between v (- k - 1) 0 0 1 (-1)) as (m & e & -> & _ & _ & Hm);
      [apply rep_zero|by apply rep_pow2|rewrite dy_zero, <- (dy_zero (- k - 1)); apply dy_le; lia
      |rewrite <- (dy_half k) by lia; apply dy_le; lia|].
    by apply fltb_false.
Qed.
