(* ===== verification/TopoSort.v ===== *)
(** * Dependency ordering of modules and seeders

    Models the two uses of Kahn's algorithm in the platform: the boot order of the
    bounded-context modules ([src/infra/modular/registry.go]) and the run order of the
    database seeders ([src/infra/seed/sort.go], [src/infra/seed/registry.go]).  The two
    files share the loop, which is [Kahn.kahn_loop] here; the preparation of its tables
    is translated separately for each.

    Go ranges over a map in an unspecified order.  Where that order reaches the tables
    (the reverse adjacency lists), it is the section variable [map_range], assumed only
    to enumerate the map. *)
From S2P Require Import Prelude Errors.

(** The language's promise for [for k, v := range m]: every entry once, in some order. *)
Class MapRange := {
  map_range : gmap string (list string) → list (string * list string);
  map_range_perm m : map_range m ≡ₚ map_to_list m
}.

(** The order of [map_to_list] is one such order. *)
#[export] Program Instance MapRange_to_list : MapRange := {| map_range := map_to_list |}.
Next Obligation. done. Qed.

Module Kahn.
Section Kahn.
Context `{!MapRange}.

(** The inner loop over [revDeps[name]]: decrement, and enqueue at zero. *)
Fixpoint relax (ds : list string) (inDegree : gmap string Z) (queue : list string)
  : gmap string Z * list string :=
  match ds with
  | [] => (inDegree, queue)
  | dependent :: ds' =>
      let n := (default 0 (inDegree !! dependent) - 1)%Z in
      relax ds' (<[dependent := n]> inDegree)
        (if (n =? 0)%Z then queue ++ [dependent] else queue)
  end.

(** [for len(queue) > 0 { ... }]; [None] when the fuel runs out first. *)
Fixpoint kahn_loop (fuel : nat) (revDeps : gmap string (list string))
    (inDegree : gmap string Z) (queue sorted : list string) : option (list string) :=
  match fuel with
  | O => None
  | S fuel' =>
      match queue with
      | [] => Some sorted
      | name :: queue' =>
          let '(inDegree', queue'') := relax (default [] (revDeps !! name)) inDegree queue' in
          kahn_loop fuel' revDeps inDegree' queue'' (sorted ++ [name])
      end
  end.

(** The reverse adjacency map: dep -> names that depend on it. *)
Definition add_rev (name : string) (rev : gmap string (list string)) (dep : string)
  : gmap string (list string) :=
  <[dep := default [] (rev !! dep) ++ [name]]> rev.
Definition build_rev (deps : gmap string (list string)) : gmap string (list string) :=
  foldl (λ rev '(name, d), foldl (add_rev name) rev d) ∅ (map_range deps).

(** The initial queue: the names of in-degree zero, in registration order. *)
Definition initial_queue (names : list string) (inDegree : gmap string Z) : list string :=
  filter (λ n, default 0%Z (inDegree !! n) = 0%Z) names.

(** The dependencies recorded for a name. *)
Definition deps_of (deps : gmap string (list string)) (n : string) : list string :=
  default [] (deps !! n).

(** [order] lists [names] once each, every dependency before its dependents. *)
Definition topo_order (names : list string) (deps : gmap string (list string))
    (order : list string) : Prop :=
  order ≡ₚ names
  ∧ ∀ pre n post, order = pre ++ n :: post → ∀ d, d ∈ deps_of deps n → d ∈ pre.

(** ** Lemmas on the tables *)

(** Occurrences of [d] in the list [rev[x]]. *)
Definition rev_count (rev : gmap string (list string)) (x d : string) : nat :=
  count d (default [] (rev !! x)).

Lemma add_revs_count name ds rev x d :
  rev_count (foldl (add_rev name) rev ds) x d
  = rev_count rev x d + (if decide (d = name) then count x ds else 0).
Proof.
  revert rev. induction ds as [|y ds IH]; intros rev; simpl; [case_decide; lia|].
  rewrite IH. unfold rev_count, add_rev.
  destruct (decide (y = x)) as [->|Hne].
  - rewrite lookup_insert_eq. simpl. rewrite count_app. simpl.
    repeat case_decide; simplify_eq; lia.
  - rewrite lookup_insert_ne by done. repeat case_decide; simplify_eq; lia.
Qed.

Lemma build_rev_list_count (l : list (string * list string)) rev x d :
  NoDup l.*1 →
  rev_count (foldl (λ rev '(name, ds), foldl (add_rev name) rev ds) rev l) x d
  = rev_count rev x d + count x (default [] ((list_to_map l : gmap string (list string)) !! d)).
Proof.
  revert rev. induction l as [|[name ds] l IH]; intros rev Hnd; simpl.
  - rewrite lookup_empty. simpl. lia.
  - apply NoDup_cons in Hnd as [Hnin Hnd]. rewrite IH by done.
    rewrite add_revs_count. case_decide; subst.
    + rewrite lookup_insert_eq. simpl.
      rewrite (not_elem_of_list_to_map_1 l name) by done. simpl. lia.
    + rewrite lookup_insert_ne by done. lia.
Qed.

(** [d] occurs in [revDeps[x]] as often as [x] occurs among the dependencies of [d]. *)
Lemma build_rev_count deps x d :
  rev_count (build_rev deps) x d = count x (deps_of deps d).
Proof.
  unfold build_rev.
  assert (NoDup (map_range deps).*1) as Hnd.
  { rewrite map_range_perm. apply NoDup_fst_map_to_list. }
  rewrite build_rev_list_count by done.
  unfold rev_count at 1. rewrite lookup_empty. simpl. unfold deps_of.
  do 3 f_equal. rewrite <- (list_to_map_to_list deps) at 2.
  by rewrite (list_to_map_proper _ _ Hnd (map_range_perm deps)).
Qed.

(** ** The inner loop *)

Definition get (m : gmap string Z) (n : string) : Z := default 0%Z (m !! n).

Lemma get_insert m y v d : get (<[y := v]> m) d = if decide (y = d) then v else get m d.
Proof.
  unfold get. case_decide; subst; [by rewrite lookup_insert_eq | by rewrite lookup_insert_ne].
Qed.

(** [relax] subtracts the occurrences in [ds] and appends, once each, the names whose
    degree it brings to zero. *)
Lemma relax_spec ds m q :
  (∀ d, Z.of_nat (count d ds) ≤ get m d)%Z →
  ∃ new, (relax ds m q).2 = q ++ new
    ∧ NoDup new
    ∧ (∀ d, d ∈ new ↔ d ∈ ds ∧ get m d = Z.of_nat (count d ds))
    ∧ (∀ d, get (relax ds m q).1 d = get m d - Z.of_nat (count d ds))%Z.
Proof.
  revert m q. induction ds as [|y ds IH]; intros m q Hle; simpl.
  { exists []. rewrite app_nil_r. repeat split; try set_solver; [constructor|]. lia. }
  fold (get m y). set (m' := <[y := (get m y - 1)%Z]> m).
  assert (∀ d, get m' d = get m d - (if decide (d = y) then 1 else 0))%Z as Hm'.
  { intros d. unfold m'. rewrite get_insert. repeat case_decide; subst; try done; lia. }
  destruct (IH m' (if (get m y - 1 =? 0)%Z then q ++ [y] else q)) as (new & Hq & Hnd & Hin & Hget).
  { intros d. specialize (Hle d). simpl in Hle. rewrite Hm'. case_decide; lia. }
  assert (∀ d, get (relax ds m' (if (get m y - 1 =? 0)%Z then q ++ [y] else q)).1 d
    = get m d - Z.of_nat (count d (y :: ds)))%Z as Hget'.
  { intros d. rewrite Hget, Hm'. simpl. case_decide; lia. }
  assert (∀ d, d ∈ new → get m d = Z.of_nat (count d (y :: ds))) as Hnew.
  { intros d [_ Hd]%Hin. rewrite Hm' in Hd. simpl. case_decide; lia. }
  pose proof (Hle y) as Hley. simpl in Hley. rewrite decide_True in Hley by done.
  destruct (Z.eqb_spec (get m y - 1) 0) as [Hz|Hz].
  - assert (y ∉ ds) as Hyds by (apply count_zero; lia).
    exists (y :: new). rewrite Hq, <- app_assoc. split; [done|].
    split; [constructor; [rewrite Hin; naive_solver | done]|]. split; [|done].
    intros d. rewrite !elem_of_cons. split.
    + intros [->|Hd]; [|split; [right; by apply Hin in Hd as [? _] | by apply Hnew]].
      split; [by left|]. simpl. rewrite decide_True by done. lia.
    + intros [[->|Hd] Heq]; [by left|]. right. apply Hin. split; [done|].
      rewrite Hm'. simpl in Heq. case_decide; subst; [done | lia].
  - exists new. split; [done|]. split; [done|]. split; [|done].
    intros d. rewrite elem_of_cons. split.
    + intros Hd. split; [right; by apply Hin in Hd as [? _] | by apply Hnew].
    + intros [Hd Heq]. apply Hin. rewrite Hm'. simpl in Heq.
      destruct Hd as [->|Hd]; case_decide; subst; try done; (split; [|lia]); try done;
        apply count_pos; lia.
Qed.

(** ** The loop invariant *)

Section Loop.
Context (names : list string) (deps : gmap string (list string)).
Context (Hnodup : NoDup names).
Context (Hclosed : ∀ n d, d ∈ deps_of deps n → n ∈ names ∧ d ∈ names).

(** Dependencies of [n] that are not yet in [sorted], with multiplicity. *)
Definition pending (sorted : list string) (n : string) : nat :=
  length (filter (λ d, d ∉ sorted) (deps_of deps n)).

Record loop_inv (m : gmap string Z) (queue sorted : list string) : Prop := {
  li_nodup : NoDup (sorted ++ queue);
  li_names : ∀ n, n ∈ sorted ++ queue → n ∈ names;
  li_degree : ∀ n, get m n = Z.of_nat (pending sorted n);
  li_ready : ∀ n, n ∈ names → (n ∈ sorted ++ queue ↔ pending sorted n = 0);
  li_topo : ∀ pre n post, sorted = pre ++ n :: post → ∀ d, d ∈ deps_of deps n → d ∈ pre
}.

Lemma pending_snoc sorted x n :
  x ∉ sorted → pending sorted n = pending (sorted ++ [x]) n + count x (deps_of deps n).
Proof.
  intros Hx. unfold pending. induction (deps_of deps n) as [|d ds IH]; simpl; [done|].
  rewrite !filter_cons.
  repeat case_decide; simplify_eq; simpl; rewrite ?IH; try lia; set_solver.
Qed.

Lemma pending_zero sorted n :
  pending sorted n = 0 ↔ ∀ d, d ∈ deps_of deps n → d ∈ sorted.
Proof.
  unfold pending. rewrite length_zero_iff_nil. split.
  - intros Hnil d Hd. destruct (decide (d ∈ sorted)); [done|].
    assert (d ∈ filter (λ d, d ∉ sorted) (deps_of deps n)) as Hin
      by (apply list_elem_of_filter; done).
    rewrite Hnil in Hin. by apply elem_of_nil in Hin.
  - intros Hall. apply elem_of_nil_inv. intros d [??]%list_elem_of_filter. naive_solver.
Qed.

Lemma loop_inv_step m name queue sorted :
  loop_inv m (name :: queue) sorted →
  loop_inv (relax (default [] (build_rev deps !! name)) m queue).1
           (relax (default [] (build_rev deps !! name)) m queue).2 (sorted ++ [name]).
Proof.
  intros [Hnd Hnames Hdeg Hready Htopo].
  set (ds := default [] (build_rev deps !! name)).
  assert (∀ d, count d ds = count name (deps_of deps d)) as Hds
    by (intros d; apply (build_rev_count deps name d)).
  assert (name ∉ sorted) as Hns 
    by (apply NoDup_app in Hnd as (_ & Hdisj & _); intros Hin; apply (Hdisj _ Hin); list_in).
  assert (∀ d, pending sorted d = pending (sorted ++ [name]) d + count d ds) as Hpend
    by (intros d; rewrite Hds; by apply pending_snoc).
  destruct (relax_spec ds m queue) as (new & Hq & Hnew & Hin & Hget).
  { intros d. rewrite Hdeg, Hpend. lia. }
  assert (∀ d, d ∈ new ↔ d ∈ ds ∧ pending (sorted ++ [name]) d = 0) as Hin'.
  { intros d. rewrite Hin, Hdeg, Hpend. intuition lia. }
  assert (∀ d, d ∈ ds → d ∈ names ∧ d ∉ sorted ++ name :: queue) as Hfresh.
  { intros d Hd. apply count_pos in Hd as Hc. pose proof Hc as Hc'. rewrite Hds in Hc'.
    apply count_pos in Hc'. apply Hclosed in Hc' as [Hdn _]. split; [done|].
    rewrite Hready by done. rewrite Hpend. lia. }
  rewrite Hq. split.
  - rewrite <- app_assoc. simpl. rewrite app_comm_cons, app_assoc. apply NoDup_app.
    split; [done|]. split; [|done]. intros d Hd Hd'. apply Hin' in Hd' as [Hd' _].
    by apply Hfresh in Hd' as [_ ?].
  - intros d. rewrite !elem_of_app, list_elem_of_singleton.
    intros [[?| ->]|[?|Hd]]; try (apply Hnames; list_in).
    apply Hin' in Hd as [Hd _]. by apply Hfresh in Hd as [? _].
  - intros d. rewrite Hget, Hdeg, Hpend. lia.
  - intros d Hdn. destruct (decide (d ∈ sorted ++ name :: queue)) as [Hold|Hold].
    + apply Hready in Hold as Hold'; [|done]. rewrite Hpend in Hold'.
      split; [intros _; lia|intros _].
      rewrite !elem_of_app, list_elem_of_singleton in *. rewrite elem_of_cons in Hold. tauto.
    + assert (pending sorted d ≠ 0) as Hpnz by (by rewrite <- Hready).
      assert (d ∈ (sorted ++ [name]) ++ queue ++ new ↔ d ∈ new) as ->
        by (rewrite !elem_of_app, list_elem_of_singleton in *; rewrite elem_of_cons in Hold; tauto).
      rewrite Hin'. split; [naive_solver|]. intros Hz. split; [|done].
      apply count_pos. rewrite Hpend in Hpnz. lia.
  - intros pre n post Heq d Hd.
    destruct post as [|z post' _] using rev_ind.
    + apply app_inj_tail in Heq as [-> ->].
      assert (n ∈ names) as Hnn by (apply Hnames; list_in).
      assert (pending pre n = 0) as Hz by (apply Hready; [done | list_in]).
      by apply (proj1 (pending_zero pre n) Hz).
    + rewrite app_comm_cons, app_assoc in Heq. apply app_inj_tail in Heq as [-> ->].
      by eapply Htopo.
Qed.

(** Every iteration moves one name from the queue to [sorted], so the loop stops within
    the number of names left. *)
Lemma kahn_loop_terminates fuel m queue sorted :
  loop_inv m queue sorted → length names < fuel + length sorted →
  ∃ out m', kahn_loop fuel (build_rev deps) m queue sorted = Some out ∧ loop_inv m' [] out.
Proof.
  revert m queue sorted. induction fuel as [|fuel IH]; intros m queue sorted Hinv Hfuel; simpl.
  - exfalso. pose proof (li_nodup _ _ _ Hinv) as Hnd.
    assert (length (sorted ++ queue) ≤ length names) as Hlen.
    { apply submseteq_length, NoDup_submseteq; [done | apply (li_names _ _ _ Hinv)]. }
    rewrite length_app in Hlen. lia.
  - destruct queue as [|name queue]; [by eauto|].
    pose proof (loop_inv_step _ _ _ _ Hinv) as Hinv'.
    destruct (relax _ _ _) as [m' q'] eqn:E. simpl in Hinv'.
    apply IH; [done|]. rewrite length_app. simpl. lia.
Qed.

Lemma loop_inv_init m :
  (∀ n, get m n = Z.of_nat (length (deps_of deps n))) →
  loop_inv m (initial_queue names m) [].
Proof.
  intros Hm. assert (∀ n, pending [] n = length (deps_of deps n)) as Hp.
  { intros n. unfold pending. f_equal. induction (deps_of deps n); simpl; [done|].
    rewrite filter_cons, decide_True by set_solver. by f_equal. }
  unfold initial_queue. split; simpl.
  - by apply NoDup_filter.
  - intros n [_ ?]%list_elem_of_filter. done.
  - intros n. by rewrite Hm, Hp.
  - intros n Hn. rewrite list_elem_of_filter. fold (get m n). rewrite Hm, Hp. naive_solver lia.
  - intros pre n post Heq. by destruct pre.
Qed.

(** The loop output is a topological order of all names exactly when one exists. *)
Lemma loop_output m out :
  loop_inv m [] out →
  (length out = length names → topo_order names deps out)
  ∧ (∀ order, topo_order names deps order → length out = length names).
Proof.
  intros [Hnd Hnames _ Hready Htopo]. rewrite app_nil_r in *.
  assert (out ⊆+ names) as Hsub by (by apply NoDup_submseteq).
  split.
  - intros Hlen. split; [|done]. apply submseteq_length_Permutation; [done | lia].
  - intros order [Hperm Horder].
    assert (∀ k, Forall (λ n, n ∈ out) (take k order)) as Hall.
    { induction k as [|k IH]; [constructor|].
      destruct (order !! k) as [n|] eqn:Hk; [|by rewrite take_ge; [rewrite take_ge in IH by
        (apply lookup_ge_None in Hk; lia) | apply lookup_ge_None in Hk; lia]].
      rewrite (take_S_r _ _ _ Hk). apply Forall_app. split; [done|]. constructor; [|done].
      assert (n ∈ names) as Hn
        by (rewrite <- Hperm; by eapply list_elem_of_lookup_2).
      apply Hready; [done|]. apply pending_zero. intros d Hd.
      eapply Horder in Hd; [|symmetry; by apply take_drop_middle].
      rewrite Forall_forall in IH. by apply IH. }
    specialize (Hall (length order)). rewrite take_ge in Hall by lia.
    rewrite Forall_forall in Hall.
    assert (names ⊆+ out) as Hsup
      by (apply NoDup_submseteq; [done | intros n; rewrite <- Hperm; apply Hall]).
    apply submseteq_length in Hsub, Hsup. lia.
Qed.
End Loop.
End Kahn.
End Kahn.

(** * The tables built from the registered items

    Both callers build [byName] and [deps] the same way from items that have a name and
    a list of dependencies. *)

Module Items.
Import Kahn.
Section Items.
Context {M : Type} (Name : M → string) (DependsOn : M → list string).
(** The error for an item that depends on an unknown name. *)
Context (unregistered : string → string → error).

(** [byName]: a later item of the same name replaces an earlier one. *)
Definition build_byName (ms : list M) : gmap string M :=
  foldl (λ acc m, <[Name m := m]> acc) ∅ ms.

(** The loop over one item's dependencies. *)
Fixpoint add_deps (byName : gmap string M) (name : string) (ds : list string)
    (deps : gmap string (list string)) : result error (gmap string (list string)) :=
  match ds with
  | [] => Ok deps
  | dep :: ds' =>
      match byName !! dep with
      | None => Err (unregistered name dep)
      | Some _ => add_deps byName name ds' (<[name := default [] (deps !! name) ++ [dep]]> deps)
      end
  end.

(** The loop over the items. *)
Fixpoint build_deps (byName : gmap string M) (ms : list M)
    (deps : gmap string (list string)) : result error (gmap string (list string)) :=
  match ms with
  | [] => Ok deps
  | m :: ms' =>
      match add_deps byName (Name m) (DependsOn m) deps with
      | Err e => Err e
      | Ok deps' => build_deps byName ms' deps'
      end
  end.

Lemma build_byName_lookup_gen ms n (acc : gmap string M) :
  NoDup (map Name ms) →
  foldl (λ acc m, <[Name m := m]> acc) acc ms !! n
  = match list_find (λ m, Name m = n) ms with Some p => Some p.2 | None => acc !! n end.
Proof.
  revert acc. induction ms as [|m ms IH]; intros acc Hnd; simpl; [done|].
  apply NoDup_cons in Hnd as [Hnin Hnd]. rewrite IH by done.
  case_decide as Hm; subst; simpl.
  - destruct (list_find _ ms) as [[i m']|] eqn:Hf; simpl; [|by rewrite lookup_insert_eq].
    apply list_find_Some in Hf as (Hi & Hn & _). exfalso. apply Hnin.
    rewrite <- Hn. apply list_elem_of_fmap_2. by eapply list_elem_of_lookup_2.
  - destruct (list_find _ ms) as [[i m']|] eqn:Hf; simpl; [done|]. by rewrite lookup_insert_ne.
Qed.

Lemma build_byName_elem ms m :
  NoDup (map Name ms) → m ∈ ms → build_byName ms !! Name m = Some m.
Proof.
  intros Hnd Hm. unfold build_byName. rewrite build_byName_lookup_gen by done.
  destruct (list_find (λ m', Name m' = Name m) ms) as [[i m']|] eqn:Hf; simpl.
  - apply list_find_Some in Hf as (Hi & Hn & _). f_equal.
    apply list_elem_of_lookup in Hm as (j & Hj).
    assert (i = j) as ->; [|congruence].
    eapply (NoDup_lookup (map Name ms)); [done| |].
    + rewrite list_lookup_fmap, Hi. simpl. by rewrite Hn.
    + by rewrite list_lookup_fmap, Hj.
  - apply list_find_None in Hf. rewrite Forall_forall in Hf. by apply Hf in Hm.
Qed.

Lemma build_byName_Some ms n :
  NoDup (map Name ms) → is_Some (build_byName ms !! n) ↔ n ∈ map Name ms.
Proof.
  intros Hnd. split.
  - unfold build_byName. rewrite build_byName_lookup_gen by done.
    destruct (list_find _ ms) as [[i m']|] eqn:Hf; simpl; [|by rewrite lookup_empty; intros [? ?]].
    apply list_find_Some in Hf as (Hi & <- & _). intros _.
    apply list_elem_of_fmap_2. by eapply list_elem_of_lookup_2.
  - intros (m & -> & Hm)%list_elem_of_fmap. rewrite build_byName_elem by done. eauto.
Qed.

Lemma deps_of_insert deps n v n' :
  deps_of (<[n := v]> deps) n' = if decide (n = n') then v else deps_of deps n'.
Proof.
  unfold deps_of. case_decide; subst; [by rewrite lookup_insert_eq | by rewrite lookup_insert_ne].
Qed.

Lemma add_deps_spec byName name ds deps :
  match add_deps byName name ds deps with
  | Ok deps' => (∀ d, d ∈ ds → is_Some (byName !! d))
      ∧ ∀ n, deps_of deps' n = deps_of deps n ++ (if decide (n = name) then ds else [])
  | Err e => ∃ d, d ∈ ds ∧ byName !! d = None ∧ e = unregistered name d
  end.
Proof.
  revert deps. induction ds as [|d ds IH]; intros deps; simpl.
  - split; [set_solver|]. intros n. case_decide; by rewrite app_nil_r.
  - destruct (byName !! d) as [m|] eqn:Hd; [|exists d; set_solver].
    fold (deps_of deps name).
    specialize (IH (<[name := deps_of deps name ++ [d]]> deps)).
    destruct (add_deps _ _ _ _) as [deps'|e].
    + destruct IH as [IH1 IH2]. split.
      * intros d' [->|?]%elem_of_cons; eauto.
      * intros n. rewrite IH2, deps_of_insert.
        repeat case_decide; subst; try done. by rewrite <- app_assoc.
    + destruct IH as (d' & ? & ? & ?). exists d'. split; [by right | done].
Qed.

Lemma build_deps_spec byName ms deps :
  NoDup (map Name ms) →
  match build_deps byName ms deps with
  | Ok deps' => (∀ m d, m ∈ ms → d ∈ DependsOn m → is_Some (byName !! d))
      ∧ (∀ m, m ∈ ms → deps_of deps' (Name m) = deps_of deps (Name m) ++ DependsOn m)
      ∧ (∀ n, n ∉ map Name ms → deps_of deps' n = deps_of deps n)
  | Err e => ∃ m d, m ∈ ms ∧ d ∈ DependsOn m ∧ byName !! d = None ∧ e = unregistered (Name m) d
  end.
Proof.
  revert deps. induction ms as [|m ms IH]; intros deps Hnd; simpl; [set_solver|].
  apply NoDup_cons in Hnd as [Hnin Hnd].
  pose proof (add_deps_spec byName (Name m) (DependsOn m) deps) as Hadd.
  destruct (add_deps _ _ _ _) as [deps'|e];
    [|destruct Hadd as (d & ? & ? & ?); exists m, d; split; [by left | done]].
  destruct Hadd as [Hadd1 Hadd2]. specialize (IH deps' Hnd).
  destruct (build_deps _ _ _) as [deps''|e];
    [|destruct IH as (m' & d & ? & ?); exists m', d; split; [by right | done]].
  destruct IH as (IH1 & IH2 & IH3). split_and!.
  - intros m' d [->|?]%elem_of_cons; eauto.
  - intros m' [->|Hm']%elem_of_cons.
    + rewrite IH3, Hadd2, decide_True by done. done.
    + rewrite IH2, Hadd2 by done. rewrite decide_False, app_nil_r; [done|].
      intros Heq. apply Hnin. rewrite <- Heq. by apply list_elem_of_fmap_2.
  - intros n [Hne Hn]%not_elem_of_cons. rewrite IH3, Hadd2 by done.
    by rewrite decide_False, app_nil_r.
Qed.

(** [order] lists the items once each, every dependency before its dependents. *)
Definition item_order (ms order : list M) : Prop :=
  order ≡ₚ ms
  ∧ ∀ pre m post, order = pre ++ m :: post → ∀ d, d ∈ DependsOn m → d ∈ map Name pre.

(** The item orders are the topological orders of the names. *)
Lemma item_order_topo ms deps order :
  NoDup (map Name ms) →
  (∀ m, m ∈ ms → deps_of deps (Name m) = DependsOn m) →
  item_order ms order ↔ (order ≡ₚ ms ∧ topo_order (map Name ms) deps (map Name order)).
Proof.
  intros Hnd Hdeps. split.
  - intros [Hperm Hord]. split; [done|]. split; [by rewrite Hperm|].
    intros pre n post Heq d Hd.
    apply fmap_app_inv in Heq as (pre' & rest & -> & Hrest & ->).
    symmetry in Hrest. apply fmap_cons_inv in Hrest as (m & post' & -> & -> & ->).
    rewrite Hdeps in Hd by (rewrite <- Hperm; list_in). by eapply Hord.
  - intros [Hperm [_ Hord]]. split; [done|]. intros pre m post -> d Hd.
    eapply (Hord (map Name pre) (Name m) (map Name post)); [by rewrite map_app|].
    by rewrite Hdeps by (rewrite <- Hperm; list_in).
Qed.

Section Sorted.
Context `{!MapRange}.

(** What the loop returns on the tables built from items with distinct names. *)
Lemma sort_items ms deps inDegree :
  NoDup (map Name ms) →
  build_deps (build_byName ms) ms ∅ = Ok deps →
  (∀ n, get inDegree n = Z.of_nat (length (deps_of deps n))) →
  ∃ out, kahn_loop (S (length ms)) (build_rev deps) inDegree
           (initial_queue (map Name ms) inDegree) [] = Some out
    ∧ (length out = length ms →
       ∃ order, item_order ms order ∧ map (λ n, build_byName ms !! n) out = map Some order)
    ∧ (∀ order, item_order ms order → length out = length ms).
Proof.
  intros Hnd Hbuild Hdeg.
  pose proof (build_deps_spec (build_byName ms) ms ∅ Hnd) as Hspec. rewrite Hbuild in Hspec.
  destruct Hspec as (Hknown & Hdeps & Hother).
  assert (∀ m, m ∈ ms → deps_of deps (Name m) = DependsOn m) as Hdeps' by (intros; by rewrite Hdeps).
  assert (∀ n d, d ∈ deps_of deps n → n ∈ map Name ms ∧ d ∈ map Name ms) as Hclosed.
  { intros n d Hd. destruct (decide (n ∈ map Name ms)) as [Hn|Hn].
    - split; [done|]. apply list_elem_of_fmap in Hn as (m & -> & Hm).
      rewrite Hdeps' in Hd by done. eapply build_byName_Some; eauto.
    - rewrite Hother in Hd by done. unfold deps_of in Hd. rewrite lookup_empty in Hd.
      by apply elem_of_nil in Hd. }
  destruct (kahn_loop_terminates (map Name ms) deps Hnd Hclosed (S (length ms)) inDegree
    (initial_queue (map Name ms) inDegree) []) as (out & m' & Hout & Hinv).
  { by apply loop_inv_init. }
  { rewrite length_map. simpl. lia. }
  apply loop_output in Hinv as [Hsound Hcomplete]; [|done..]. rewrite length_map in *.
  exists out. split; [done|]. split.
  - intros Hlen. pose proof (Hsound Hlen) as Htopo. destruct Htopo as [Hperm Hord].
    apply Permutation_map_inv in Hperm as (order & -> & Horder).
    exists order. split; [by apply (item_order_topo _ deps); [| |split; [symmetry|apply Hsound]]|].
    rewrite map_map. apply map_ext_in. intros m Hm%list_elem_of_In.
    apply build_byName_elem; [done | by rewrite Horder].
  - intros order Hio. apply (item_order_topo _ deps) in Hio as [? Htopo]; [|done..].
    by eapply Hcomplete.
Qed.

(** The error of [build_deps] names a dependency that no item provides, so there is no order. *)
Lemma build_deps_error ms e :
  NoDup (map Name ms) → build_deps (build_byName ms) ms ∅ = Err e →
  (∃ m d, m ∈ ms ∧ d ∈ DependsOn m ∧ d ∉ map Name ms ∧ e = unregistered (Name m) d)
  ∧ ∀ order, ¬ item_order ms order.
Proof.
  intros Hnd Hbuild.
  pose proof (build_deps_spec (build_byName ms) ms ∅ Hnd) as Hspec. rewrite Hbuild in Hspec.
  destruct Hspec as (m & d & Hm & Hd & Hnone & ->).
  assert (d ∉ map Name ms) as Hdn.
  { rewrite <- build_byName_Some by done. rewrite Hnone. by intros [? ?]. }
  split; [by eauto 10|]. intros order [Hperm Hord]. apply Hdn.
  rewrite <- Hperm in Hm. apply list_elem_of_split in Hm as (pre & post & ->).
  rewrite <- Hperm, map_app, elem_of_app. left. by eapply Hord.
Qed.
End Sorted.
End Items.
End Items.

(** * The module registry ([src/infra/modular/registry.go]) *)

Module Modular.
Import Kahn Items.

(** What the registry uses of a [runtime.Module]: its name and, when it implements
    [runtime.DependencyDeclarer], its dependencies. *)
Record RModule := { Name : string; DependsOn : option (list string) }.

#[export] Instance RModule_eq_dec : EqDecision RModule.
Proof. solve_decision. Defined.

Record Registry := { modules : list RModule; seen : gset string }.

Definition NewRegistry : Registry := {| modules := []; seen := ∅ |}.

Definition Register (r : Registry) (m : RModule) : result error Registry :=
  if decide (Name m ∈ seen r)
  then Err (EText ("modular: duplicate module " +:+ Quote (Name m)))
  else Ok {| modules := modules r ++ [m]; seen := {[Name m]} ∪ seen r |}.

(** [(m ModulesConfig) IsEnabled(name)]: modules that are not listed are enabled. *)
Definition IsEnabled (cfg : gmap string bool) (name : string) : bool :=
  match cfg !! name with Some enabled => enabled | None => true end.

(** The registration loop of [App.RegisterModules] over the manifest: disabled entries are
    skipped, the first duplicate name stops it. *)
Fixpoint register_manifest (cfg : gmap string bool) (manifest : list (string * RModule))
    (r : Registry) : result error Registry :=
  match manifest with
  | [] => Ok r
  | (entryName, m) :: rest =>
      if negb (IsEnabled cfg entryName) then register_manifest cfg rest r
      else match Register r m with
           | Err e => Err (Errorf_w "bootstrap: " e)
           | Ok r' => register_manifest cfg rest r'
           end
  end.

Definition hasDependencies (r : Registry) : bool :=
  existsb (λ m, match DependsOn m with Some d => 0 <? length d | None => false end) (modules r).

(** The dependencies of a module, none when it is not a [DependencyDeclarer]. *)
Definition declared (m : RModule) : list string := default [] (DependsOn m).

Definition unregistered (name dep : string) : error :=
  EText ("modular: module " +:+ Quote name +:+ " depends on unregistered module " +:+ Quote dep).

Section Sort.
Context `{!MapRange}.

(** [inDegree]: zero for every module, then the number of dependencies for those that
    have an entry in [deps]. *)
Definition build_inDegree (ms : list RModule) (deps : gmap string (list string)) : gmap string Z :=
  foldl (λ acc '(name, d), <[name := Z.of_nat (length d)]> acc)
    (foldl (λ acc m, <[Name m := 0%Z]> acc) ∅ ms) (map_range deps).

(** [None] only if the loop ran out of the fuel [len(r.modules) + 1]. *)
Definition topologicalSort (r : Registry) : option (result error (list (option RModule))) :=
  let byName := build_byName Name (modules r) in
  match build_deps Name declared unregistered byName (modules r) ∅ with
  | Err e => Some (Err e)
  | Ok deps =>
      let inDegree := build_inDegree (modules r) deps in
      let queue := initial_queue (map Name (modules r)) inDegree in
      let revDeps := build_rev deps in
      match kahn_loop (S (length (modules r))) revDeps inDegree queue [] with
      | None => None
      | Some sorted =>
          let sorted := map (λ n, byName !! n) sorted in
          if length sorted =? length (modules r)
          then Some (Ok sorted)
          else Some (Err (EText "modular: dependency cycle detected among modules"))
      end
  end.

Definition Modules (r : Registry) : option (result error (list (option RModule))) :=
  if negb (hasDependencies r) then Some (Ok (map Some (modules r)))
  else topologicalSort r.

(** ** The registry invariant and the specification of a boot order *)

Definition registry_ok (r : Registry) : Prop :=
  NoDup (map Name (modules r)) ∧ ∀ n, n ∈ seen r ↔ n ∈ map Name (modules r).

(** A boot order starts every module once, after the modules it depends on. *)
Definition boot_order : list RModule → list RModule → Prop := item_order Name declared.

Lemma registry_ok_new : registry_ok NewRegistry.
Proof. split; simpl; [constructor | set_solver]. Qed.

Lemma Register_ok r m r' : registry_ok r → Register r m = Ok r' → registry_ok r'.
Proof.
  intros [Hnd Hseen]. unfold Register. case_decide as Hd; intros; simplify_eq.
  rewrite Hseen in Hd. split; simpl.
  - rewrite map_app. apply NoDup_app. split; [done|]. split; [|apply NoDup_singleton].
    intros n Hn ->%list_elem_of_singleton. done.
  - intros n. rewrite map_app, elem_of_union, elem_of_app, elem_of_singleton. simpl.
    rewrite list_elem_of_singleton, Hseen. tauto.
Qed.
#[local] Hint Resolve registry_ok_new Register_ok : wolf.


Lemma zero_degrees_get ms n (acc : gmap string Z) :
  get acc n = 0%Z → get (foldl (λ acc m, <[Name m := 0%Z]> acc) acc ms) n = 0%Z.
Proof.
  revert acc. induction ms as [|m ms IH]; intros acc Hacc; simpl; [done|].
  apply IH. rewrite get_insert. by case_decide.
Qed.

Lemma set_degrees_get (l : list (string * list string)) n (acc : gmap string Z) :
  NoDup l.*1 →
  get (foldl (λ acc '(name, d), <[name := Z.of_nat (length d)]> acc) acc l) n
  = match (list_to_map l : gmap string (list string)) !! n with
    | Some d => Z.of_nat (length d)
    | None => get acc n
    end.
Proof.
  revert acc. induction l as [|[k d] l IH]; intros acc Hnd; simpl; [by rewrite lookup_empty|].
  apply NoDup_cons in Hnd as [Hnin Hnd]. rewrite IH, get_insert by done.
  destruct (decide (k = n)) as [->|Hne].
  - rewrite lookup_insert_eq, (not_elem_of_list_to_map_1 l n) by done. done.
  - by rewrite lookup_insert_ne.
Qed.

Lemma build_inDegree_get ms deps n :
  get (build_inDegree ms deps) n = Z.of_nat (length (deps_of deps n)).
Proof.
  assert (NoDup (map_range deps).*1) as Hnd
    by (rewrite map_range_perm; apply NoDup_fst_map_to_list).
  unfold build_inDegree. rewrite set_degrees_get by done.
  rewrite (list_to_map_proper _ _ Hnd (map_range_perm deps)), list_to_map_to_list.
  unfold deps_of. destruct (deps !! n); simpl; [done|].
  apply zero_degrees_get. unfold get. by rewrite lookup_empty.
Qed.

Lemma no_dependencies_order r order :
  hasDependencies r = false → order ≡ₚ modules r → boot_order (modules r) order.
Proof.
  intros Hno Hperm. split; [done|]. intros pre m post -> d Hd. exfalso.
  assert (m ∈ modules r) as Hm by (rewrite <- Hperm; list_in).
  apply not_true_iff_false in Hno. apply Hno. apply existsb_elem. exists m. split; [done|].
  unfold declared in Hd. destruct (DependsOn m) as [[|d' ds]|]; simpl in *; try done;
    by apply elem_of_nil in Hd.
Qed.

(** What [Modules] should answer: an order when there is one, and otherwise why there is none. *)
Definition boot_answer (r : Registry) (answer : option (result error (list (option RModule)))) : Prop :=
  match answer with
  | None => False
  | Some (Ok out) => ∃ order, out = map Some order ∧ boot_order (modules r) order
  | Some (Err e) =>
      (∀ order, ¬ boot_order (modules r) order)
      ∧ (e = EText "modular: dependency cycle detected among modules"
         ∨ ∃ m d, m ∈ modules r ∧ d ∈ declared m ∧ d ∉ map Name (modules r)
                  ∧ e = unregistered (Name m) d)
  end.
Lemma Modules_boot r : registry_ok r → boot_answer r (Modules r).
Proof.
  intros [Hnd _]. unfold Modules, boot_answer.
  destruct (hasDependencies r) eqn:Hdep; simpl;
    [|exists (modules r); split; [done|]; by apply no_dependencies_order].
  unfold topologicalSort.
  destruct (build_deps _ _ _ _ _ _) as [deps|e] eqn:Hbuild.
  - destruct (sort_items Name declared unregistered (modules r) deps
      (build_inDegree (modules r) deps) Hnd Hbuild) as (out & -> & Hsound & Hcomplete).
    { intros n. apply build_inDegree_get. }
    rewrite length_map. destruct (Nat.eqb_spec (length out) (length (modules r))) as [Hlen|Hlen].
    + destruct (Hsound Hlen) as (order & Hord & Hmap). by exists order.
    + split; [|by left]. intros order Hord. by apply Hlen, (Hcomplete order).
  - apply build_deps_error in Hbuild as [Herr Hnone]; [|done]. split; [done|]. by right.
Qed.

(** C10: [Modules] always returns; it returns every registered module once, each after the
    modules it depends on, exactly when such a boot order exists, and otherwise an error
    that names an unregistered dependency or reports a cycle. *)
Theorem Modules_spec r :
  registry_ok r →
  match Modules r with
  | None => False
  | Some (Ok out) => ∃ order, out = map Some order ∧ boot_order (modules r) order
  | Some (Err e) =>
      (∀ order, ¬ boot_order (modules r) order)
      ∧ (e = EText "modular: dependency cycle detected among modules"
         ∨ ∃ m d, m ∈ modules r ∧ d ∈ declared m ∧ d ∉ map Name (modules r)
                  ∧ e = unregistered (Name m) d)
  end.
Proof. apply Modules_boot. Qed.
End Sort.

Definition enabled_modules (cfg : gmap string bool) (manifest : list (string * RModule)) :=
  map snd (filter (λ e, IsEnabled cfg e.1 = true) manifest).

Lemma enabled_modules_cons cfg n m manifest :
  enabled_modules cfg ((n, m) :: manifest)
  = if IsEnabled cfg n then m :: enabled_modules cfg manifest else enabled_modules cfg manifest.
Proof.
  unfold enabled_modules. rewrite filter_cons. case_decide as Hd; simpl in Hd.
  - by rewrite Hd.
  - by destruct (IsEnabled cfg n).
Qed.

Lemma register_manifest_gen cfg manifest r :
  registry_ok r →
  match register_manifest cfg manifest r with
  | Ok r' => registry_ok r' ∧ modules r' = modules r ++ enabled_modules cfg manifest
  | Err _ => ¬ NoDup (map Name (modules r ++ enabled_modules cfg manifest))
  end.
Proof.
  revert r. induction manifest as [|[n m] rest IH]; intros r Hok; simpl.
  { by rewrite app_nil_r. }
  rewrite enabled_modules_cons. destruct (IsEnabled cfg n); simpl; [|by apply IH].
  destruct (Register r m) as [r'|e] eqn:Hreg.
  - specialize (IH r' (Register_ok _ _ _ Hok Hreg)).
    unfold Register in Hreg. case_decide; simplify_eq. simpl in IH.
    by rewrite <- app_assoc in IH.
  - unfold Register in Hreg. case_decide as Hd; simplify_eq.
    rewrite (proj2 Hok) in Hd. rewrite map_app. simpl. intros Hnd.
    apply NoDup_app in Hnd as (_ & Hdisj & _). apply (Hdisj _ Hd). by left.
Qed.

(** registering a manifest keeps the enabled modules in order with distinct names, and
    fails exactly when two enabled modules have the same name. *)
Theorem register_manifest_spec cfg manifest :
  match register_manifest cfg manifest NewRegistry with
  | Ok r => registry_ok r ∧ modules r = enabled_modules cfg manifest
  | Err _ => ¬ NoDup (map Name (enabled_modules cfg manifest))
  end.
Proof. apply (register_manifest_gen cfg manifest NewRegistry registry_ok_new). Qed.

(** ** A concrete registry: orders depends on users and billing, billing on users. *)
Definition demo_modules : list RModule :=
  [ {| Name := "orders"; DependsOn := Some ["users"; "billing"] |};
    {| Name := "billing"; DependsOn := Some ["users"] |};
    {| Name := "users"; DependsOn := None |} ].
Definition demo_registry : Registry :=
  match register_manifest ∅ (map (λ m, (Name m, m)) demo_modules) NewRegistry with
  | Ok r => r
  | Err _ => NewRegistry
  end.

Lemma demo_registry_ok : registry_ok demo_registry.
Proof.
  unfold demo_registry.
  pose proof (register_manifest_gen ∅ (map (λ m, (Name m, m)) demo_modules) NewRegistry
    registry_ok_new) as H.
  destruct (register_manifest _ _ _); [by destruct H | apply registry_ok_new].
Qed.

Example demo_boot : map (option_map Name) <$> (Modules demo_registry ≫= λ r,
    match r with Ok l => Some l | Err _ => None end)
  = Some [Some "users"; Some "billing"; Some "orders"].
Proof. by vm_compute. Qed.

Lemma Modules_spec_witness :
  registry_ok demo_registry
  ∧ match Modules demo_registry with
    | None => False
    | Some (Ok out) => ∃ order, out = map Some order ∧ boot_order (modules demo_registry) order
    | Some (Err e) =>
        (∀ order, ¬ boot_order (modules demo_registry) order)
        ∧ (e = EText "modular: dependency cycle detected among modules"
           ∨ ∃ m d, m ∈ modules demo_registry ∧ d ∈ declared m
                    ∧ d ∉ map Name (modules demo_registry) ∧ e = unregistered (Name m) d)
    end.
Proof.
  split; [apply demo_registry_ok | apply (Modules_spec demo_registry), demo_registry_ok].
Defined.
End Modular.
