(* ===== verification/Event.v ===== *)
(** * Domain events and aggregates

    [Event.v] models event/event.go and aggregate/base.go: the tracing metadata with its
    map and JSON forms, event construction with options, and the aggregate base that
    collects pending events.  A JSON object is the list of its members in order; the text
    syntax of JSON is not modelled. *)

From S2P Require Import Prelude.

(** ** Metadata *)

Record Metadata := {
  TraceID : string;
  CorrelationID : string;
  CausationID : string;
  Source : string
}.

Definition zeroMetadata : Metadata :=
  {| TraceID := ""; CorrelationID := ""; CausationID := ""; Source := "" |}.

#[export] Instance Metadata_eq_dec : EqDecision Metadata.
Proof. solve_decision. Defined.

Definition IsZero (m : Metadata) : bool :=
  (TraceID m =? "")%string && (CorrelationID m =? "")%string
  && (CausationID m =? "")%string && (Source m =? "")%string.

(** [if v != "" { result[k] = v }] *)
Definition put_nonempty (k v : string) (result : gmap string string) : gmap string string :=
  if (v =? "")%string then result else <[k := v]> result.

(** The counter [n] of the source is the number of non-empty fields; a nil map is [None]. *)
Definition nonempty_count (m : Metadata) : nat :=
  length (filter (λ s, s ≠ "") [TraceID m; CorrelationID m; CausationID m; Source m]).

Definition ToMap (m : Metadata) : option (gmap string string) :=
  if decide (nonempty_count m = 0%nat) then None
  else Some (put_nonempty "source" (Source m)
            (put_nonempty "causation_id" (CausationID m)
            (put_nonempty "correlation_id" (CorrelationID m)
            (put_nonempty "trace_id" (TraceID m) ∅)))).

(** Indexing a Go map of strings: the zero value when the key is absent or the map nil. *)
Definition index (m : option (gmap string string)) (k : string) : string :=
  match m with Some m => default "" (m !! k) | None => "" end.

Definition MetadataFromMap (m : option (gmap string string)) : Metadata :=
  {| TraceID := index m "trace_id"; CorrelationID := index m "correlation_id";
     CausationID := index m "causation_id"; Source := index m "source" |}.

(** [json.Marshal] of a [Metadata]: the fields in declaration order, empty ones omitted. *)
Definition json_object := list (string * string).
Definition omitempty (k v : string) : json_object := if (v =? "")%string then [] else [(k, v)].
Definition MarshalMetadata (m : Metadata) : json_object :=
  omitempty "trace_id" (TraceID m) ++ omitempty "correlation_id" (CorrelationID m)
  ++ omitempty "causation_id" (CausationID m) ++ omitempty "source" (Source m).

(** [json.Unmarshal] into a [Metadata]: each member overwrites its field, others are ignored. *)
Definition set_member (m : Metadata) (kv : string * string) : Metadata :=
  let '(k, v) := kv in
  if (k =? "trace_id")%string
  then {| TraceID := v; CorrelationID := CorrelationID m; CausationID := CausationID m; Source := Source m |}
  else if (k =? "correlation_id")%string
  then {| TraceID := TraceID m; CorrelationID := v; CausationID := CausationID m; Source := Source m |}
  else if (k =? "causation_id")%string
  then {| TraceID := TraceID m; CorrelationID := CorrelationID m; CausationID := v; Source := Source m |}
  else if (k =? "source")%string
  then {| TraceID := TraceID m; CorrelationID := CorrelationID m; CausationID := CausationID m; Source := v |}
  else m.
Definition UnmarshalMetadata (obj : json_object) : Metadata := foldl set_member zeroMetadata obj.

(** ** Events *)

(** Instants in nanoseconds since the Unix epoch; [time.Time{}] is the first of January of
    year 1. *)
Notation time := Z (only parsing).
Definition zeroTime : time := (-62135596800 * 10 ^ 9)%Z.

Section Events.
Context {P : Type}.

Record baseEvent := {
  EventID : string;
  EventType : string;
  AggregateID : string;
  EvAggregateType : string;
  OccurredAt : time;
  SchemaVersion : Z;
  Payload : option P;
  GetMetadata : Metadata
}.

Definition EventOption := baseEvent → baseEvent.

Definition set_meta (f : Metadata → Metadata) (e : baseEvent) : baseEvent :=
  {| EventID := EventID e; EventType := EventType e; AggregateID := AggregateID e;
     EvAggregateType := EvAggregateType e; OccurredAt := OccurredAt e;
     SchemaVersion := SchemaVersion e; Payload := Payload e; GetMetadata := f (GetMetadata e) |}.

Definition WithTraceID (id : string) : EventOption := set_meta (λ m,
  {| TraceID := id; CorrelationID := CorrelationID m; CausationID := CausationID m; Source := Source m |}).
Definition WithCorrelationID (id : string) : EventOption := set_meta (λ m,
  {| TraceID := TraceID m; CorrelationID := id; CausationID := CausationID m; Source := Source m |}).
Definition WithCausationID (id : string) : EventOption := set_meta (λ m,
  {| TraceID := TraceID m; CorrelationID := CorrelationID m; CausationID := id; Source := Source m |}).
Definition WithSource (source : string) : EventOption := set_meta (λ m,
  {| TraceID := TraceID m; CorrelationID := CorrelationID m; CausationID := CausationID m; Source := source |}).
Definition WithMetadata (meta : Metadata) : EventOption := set_meta (λ _, meta).

Definition WithVersion (v : Z) : EventOption := λ e,
  {| EventID := EventID e; EventType := EventType e; AggregateID := AggregateID e;
     EvAggregateType := EvAggregateType e; OccurredAt := OccurredAt e;
     SchemaVersion := v; Payload := Payload e; GetMetadata := GetMetadata e |}.
Definition WithAggregateInfo (id aggType : string) : EventOption := λ e,
  {| EventID := EventID e; EventType := EventType e; AggregateID := id;
     EvAggregateType := aggType; OccurredAt := OccurredAt e;
     SchemaVersion := SchemaVersion e; Payload := Payload e; GetMetadata := GetMetadata e |}.
Definition WithID (id : string) : EventOption := λ e,
  if (id =? "")%string then e else
  {| EventID := id; EventType := EventType e; AggregateID := AggregateID e;
     EvAggregateType := EvAggregateType e; OccurredAt := OccurredAt e;
     SchemaVersion := SchemaVersion e; Payload := Payload e; GetMetadata := GetMetadata e |}.
Definition WithOccurredAt (t : time) : EventOption := λ e,
  if decide (t = zeroTime) then e else
  {| EventID := EventID e; EventType := EventType e; AggregateID := AggregateID e;
     EvAggregateType := EvAggregateType e; OccurredAt := t;
     SchemaVersion := SchemaVersion e; Payload := Payload e; GetMetadata := GetMetadata e |}.

(** The built-in options, by their calls. *)
Inductive event_option :=
| OCorrelationID (id : string) | OCausationID (id : string) | OTraceID (id : string) | OSource (source : string)
| OVersion (v : Z) | OAggregateInfo (id aggType : string) | OMetadata (meta : Metadata)
| OID (id : string) | OOccurredAt (t : time).

Definition configureEvent (o : event_option) : EventOption :=
  match o with
  | OCorrelationID id => WithCorrelationID id
  | OCausationID id => WithCausationID id
  | OTraceID id => WithTraceID id
  | OSource source => WithSource source
  | OVersion v => WithVersion v
  | OAggregateInfo id aggType => WithAggregateInfo id aggType
  | OMetadata meta => WithMetadata meta
  | OID id => WithID id
  | OOccurredAt t => WithOccurredAt t
  end.

(** The fields an option sets. *)
Definition touches (o : event_option) : list string :=
  match o with
  | OCorrelationID _ => ["correlation"] | OCausationID _ => ["causation"] | OTraceID _ => ["trace"]
  | OSource _ => ["source"] | OVersion _ => ["version"] | OAggregateInfo _ _ => ["aggregate"]
  | OMetadata _ => ["correlation"; "causation"; "trace"; "source"] | OID _ => ["id"] | OOccurredAt _ => ["occurred"]
  end.

(** options that set different fields can be given in any order; of two that set the same field
    the last one counts, unless it is an empty identifier or a zero time, which are ignored. *)
Theorem options_commute (o1 o2 : event_option) (e : baseEvent) :
  (touches o1 ## touches o2 →
   configureEvent o1 (configureEvent o2 e) = configureEvent o2 (configureEvent o1 e))
  ∧ (touches o1 = touches o2 → o2 ≠ OID "" → o2 ≠ OOccurredAt zeroTime →
     configureEvent o2 (configureEvent o1 e) = configureEvent o2 e).
Proof.
  split.
  - intros Hd. destruct o1, o2;
      try (exfalso; eapply Hd; [|by left]; apply (bool_decide_unpack _); vm_compute; exact I);
      try (exfalso; eapply Hd; [by left|]; apply (bool_decide_unpack _); vm_compute; exact I);
      cbn; unfold WithID, WithOccurredAt; repeat case_match; reflexivity.
  - intros Ht Hid Htime. destruct o1, o2; try discriminate Ht; try reflexivity; cbn; unfold WithID, WithOccurredAt.
    + destruct (String.eqb_spec id0 ""); [by subst|]. by case_match.
    + destruct (decide (t0 = zeroTime)); [by subst|]. by case_match.
Qed.

(** [NewEvent]: [uuid] is the generated identifier and [now] the clock reading. *)
Definition NewEvent (uuid : string) (now : time) (eventType : string) (payload : option P)
    (opts : list EventOption) : baseEvent :=
  foldl (λ e opt, opt e)
    {| EventID := uuid; EventType := eventType; AggregateID := ""; EvAggregateType := "";
       OccurredAt := now; SchemaVersion := 1; Payload := payload; GetMetadata := zeroMetadata |}
    opts.

(** ** Aggregates *)

Record Base := {
  ID : string;
  AggregateType : string;
  Version : Z;
  events : list baseEvent;
  CreatedAt : time;
  UpdatedAt : time
}.

Definition NewBase (now : time) (id aggregateType : string) : Base :=
  {| ID := id; AggregateType := aggregateType; Version := 0; events := [];
     CreatedAt := now; UpdatedAt := now |}.

Definition SetVersion (v : Z) (b : Base) : Base :=
  {| ID := ID b; AggregateType := AggregateType b; Version := v; events := events b;
     CreatedAt := CreatedAt b; UpdatedAt := UpdatedAt b |}.
Definition IncrementVersion (b : Base) : Base := SetVersion (wrap64 (Version b + 1)) b.
Definition SetCreatedAt (t : time) (b : Base) : Base :=
  {| ID := ID b; AggregateType := AggregateType b; Version := Version b; events := events b;
     CreatedAt := t; UpdatedAt := UpdatedAt b |}.
Definition SetUpdatedAt (t : time) (b : Base) : Base :=
  {| ID := ID b; AggregateType := AggregateType b; Version := Version b; events := events b;
     CreatedAt := CreatedAt b; UpdatedAt := t |}.
Definition set_events (l : list baseEvent) (b : Base) : Base :=
  {| ID := ID b; AggregateType := AggregateType b; Version := Version b; events := l;
     CreatedAt := CreatedAt b; UpdatedAt := UpdatedAt b |}.

Definition AddEvent (e : baseEvent) (b : Base) : Base := set_events (events b ++ [e]) b.
Definition AddDomainEvent (uuid : string) (now : time) (eventType : string)
    (payload : option P) (opts : list EventOption) (b : Base) : Base :=
  let allOpts := WithAggregateInfo (ID b) (AggregateType b) :: opts in
  set_events (events b ++ [NewEvent uuid now eventType payload allOpts]) b.
Definition ClearEvents (b : Base) : list baseEvent * Base := (events b, set_events [] b).
Definition HasEvents (b : Base) : bool := negb (bool_decide (events b = [])).

(** The operations a client may call, and a run of them: the events drained so far, in
    order, and the aggregate. *)
Inductive base_op :=
| OpIncrementVersion
| OpSetVersion (v : Z)
| OpSetCreatedAt (t : time)
| OpSetUpdatedAt (t : time)
| OpAddEvent (e : baseEvent)
| OpAddDomainEvent (uuid : string) (now : time) (eventType : string) (payload : option P)
    (opts : list EventOption)
| OpClearEvents.

Definition apply_op (s : list baseEvent * Base) (op : base_op) : list baseEvent * Base :=
  let '(drained, b) := s in
  match op with
  | OpIncrementVersion => (drained, IncrementVersion b)
  | OpSetVersion v => (drained, SetVersion v b)
  | OpSetCreatedAt t => (drained, SetCreatedAt t b)
  | OpSetUpdatedAt t => (drained, SetUpdatedAt t b)
  | OpAddEvent e => (drained, AddEvent e b)
  | OpAddDomainEvent uuid now eventType payload opts =>
      (drained, AddDomainEvent uuid now eventType payload opts b)
  | OpClearEvents => let '(pending, b') := ClearEvents b in (drained ++ pending, b')
  end.

(** What an operation emits, for an aggregate of the given identity. *)
Definition emitted (id aggType : string) (op : base_op) : list baseEvent :=
  match op with
  | OpAddEvent e => [e]
  | OpAddDomainEvent uuid now eventType payload opts =>
      [NewEvent uuid now eventType payload (WithAggregateInfo id aggType :: opts)]
  | _ => []
  end.

(** ** Properties *)

Lemma apply_op_inv s op :
  let s' := apply_op s op in
  ID s'.2 = ID s.2 ∧ AggregateType s'.2 = AggregateType s.2
  ∧ s'.1 ++ events s'.2 = s.1 ++ events s.2 ++ emitted (ID s.2) (AggregateType s.2) op.
Proof.
  destruct s as [drained b], op; simpl; rewrite ?app_nil_r, ?app_assoc; done.
Qed.

Lemma run_ops_gen ops s :
  let s' := foldl apply_op s ops in
  ID s'.2 = ID s.2 ∧ AggregateType s'.2 = AggregateType s.2
  ∧ s'.1 ++ events s'.2
    = s.1 ++ events s.2 ++ concat (map (emitted (ID s.2) (AggregateType s.2)) ops).
Proof.
  revert s. induction ops as [|op ops IH]; intros s; simpl; [by rewrite app_nil_r|].
  destruct (apply_op_inv s op) as (Hid & Hty & Hev).
  destruct (IH (apply_op s op)) as (IH1 & IH2 & IH3). split_and!; [congruence..|].
  rewrite IH3, Hid, Hty, !app_assoc, Hev. by rewrite <- !app_assoc.
Qed.

(** draining an aggregate loses, duplicates and reorders nothing: after any sequence of
    operations on a new aggregate, the events returned by the [ClearEvents] calls followed by
    the events still pending are the events added, in order. *)
Theorem events_conserved (now : time) (id aggType : string) (ops : list base_op) :
  let s := foldl apply_op ([], NewBase now id aggType) ops in
  s.1 ++ events s.2 = concat (map (emitted id aggType) ops)
  ∧ ID s.2 = id ∧ AggregateType s.2 = aggType.
Proof.
  destruct (run_ops_gen ops ([], NewBase now id aggType)) as (? & ? & ?). done.
Qed.

(** Options that do not set the version leave the schema version alone. *)
Definition keeps_version (opt : EventOption) : Prop := ∀ e, SchemaVersion (opt e) = SchemaVersion e.

Lemma foldl_keeps_version opts e :
  Forall keeps_version opts → SchemaVersion (foldl (λ e opt, opt e) e opts) = SchemaVersion e.
Proof.
  intros Hopts. revert e. induction Hopts as [|opt opts Hopt _ IH]; intros e; simpl; [done|].
  by rewrite IH, Hopt.
Qed.

(** the version of the aggregate is not recorded in the events it emits: without a
    [WithVersion] option an event carries schema version 1 whatever the aggregate's version. *)
Theorem AddDomainEvent_version (uuid : string) (now : time) (ty : string) (payload : option P)
    (opts : list EventOption) (b : Base) :
  Forall keeps_version opts →
  ∃ e, events (AddDomainEvent uuid now ty payload opts b) = events b ++ [e]
       ∧ SchemaVersion e = 1%Z.
Proof.
  intros Hopts. eexists. split; [done|]. unfold NewEvent.
  rewrite foldl_keeps_version; [done|]. by constructor.
Qed.
End Events.
Arguments baseEvent : clear implicits.
Arguments EventOption : clear implicits.
Arguments Base : clear implicits.

(** ** Round trips of the metadata *)

Lemma put_nonempty_lookup k v m k' :
  default "" (put_nonempty k v m !! k')
  = if decide (k = k') then (if (v =? "")%string then default "" (m !! k') else v)
    else default "" (m !! k').
Proof.
  unfold put_nonempty. destruct (v =? "")%string; repeat case_decide; subst; try done;
    by rewrite ?lookup_insert_eq, ?lookup_insert_ne.
Qed.

Lemma IsZero_spec m : IsZero m = true ↔ m = zeroMetadata.
Proof.
  unfold IsZero. rewrite !andb_true_iff, !String.eqb_eq. destruct m; simpl.
  split; [intros (((->&->)&->)&->); done | by intros [= -> -> -> ->]].
Qed.

Lemma nonempty_count_zero m : nonempty_count m = 0%nat ↔ m = zeroMetadata.
Proof.
  unfold nonempty_count. destruct m as [a b c d]; simpl.
  rewrite !filter_cons. split; [|by intros [= -> -> -> ->]].
  repeat case_decide; simpl; try done. intros _. unfold zeroMetadata. f_equal; tauto.
Qed.

Lemma if_empty (v : string) : (if (v =? "")%string then "" else v) = v.
Proof. by destruct (String.eqb_spec v ""). Qed.

Lemma MetadataFromMap_ToMap (m : Metadata) : MetadataFromMap (ToMap m) = m.
Proof.
  unfold ToMap. case_decide as Hz; [by apply nonempty_count_zero in Hz as ->|].
  unfold MetadataFromMap, index. rewrite !put_nonempty_lookup. simpl.
  rewrite !lookup_empty. simpl. rewrite !if_empty. by destruct m.
Qed.

Lemma ToMap_other_key (m : Metadata) k :
  k ∉ ["trace_id"; "correlation_id"; "causation_id"; "source"] → default ∅ (ToMap m) !! k = None.
Proof.
  rewrite !not_elem_of_cons. intros (? & ? & ? & ? & _). unfold ToMap.
  case_decide; simpl; [by rewrite lookup_empty|]. unfold put_nonempty.
  repeat match goal with |- context [if ?b then _ else _] => destruct b end;
    rewrite ?lookup_insert_ne by congruence; by rewrite lookup_empty.
Qed.

(** the map form of the metadata is lossless and has no empty values, and is nil exactly
    when the metadata is zero. *)
Theorem Metadata_map_roundtrip (m : Metadata) :
  MetadataFromMap (ToMap m) = m
  ∧ (ToMap m = None ↔ IsZero m = true)
  ∧ ∀ mm k, ToMap m = Some mm → mm !! k ≠ Some "".
Proof.
  split; [apply MetadataFromMap_ToMap|]. rewrite IsZero_spec. unfold ToMap. case_decide as Hz.
  { apply nonempty_count_zero in Hz as ->. done. }
  split.
  - split; [done|]. intros ->. by destruct Hz.
  - intros mm k [= <-]. unfold put_nonempty.
    repeat match goal with
    | |- context [(?v =? "")%string] => destruct (String.eqb_spec v "")
    end; rewrite ?lookup_insert, ?lookup_empty; repeat case_decide; by intros [=].
Qed.

(** [json.Unmarshal] undoes [json.Marshal] on metadata. *)
Lemma Metadata_json_roundtrip (m : Metadata) : UnmarshalMetadata (MarshalMetadata m) = m.
Proof.
  destruct m as [a b c d]. unfold UnmarshalMetadata, MarshalMetadata, omitempty. simpl.
  destruct (String.eqb_spec a ""), (String.eqb_spec b ""), (String.eqb_spec c ""),
    (String.eqb_spec d ""); by subst.
Qed.
#[export] Hint Rewrite Metadata_json_roundtrip : wolf.

Example AddDomainEvent_version_witness :
  Forall keeps_version [@WithTraceID nat "t"]
  ∧ ∃ e, events (AddDomainEvent "id-1" 0%Z "order.created" (Some 1) [WithTraceID "t"]
                   (SetVersion 7%Z (NewBase 0%Z "o-1" "Order"))) = [e] ∧ SchemaVersion e = 1%Z.
Proof.
  assert (Forall keeps_version [@WithTraceID nat "t"]) by (repeat constructor).
  split; [done|].
  by apply (AddDomainEvent_version "id-1" 0%Z "order.created" (Some 1) [WithTraceID "t"]
    (SetVersion 7%Z (NewBase 0%Z "o-1" "Order"))).
Defined.
