(* ===== verification/Db.v ===== *)
(** * Database access and transactions

    [Db.v] models what the program uses of database/sql, and infra/db/tx.go and tx/context.go
    on top of it.  The database is a value of a type [D]; a statement is a function of the
    server's clock and of the rows it sees.  Each call to the driver reads one entry of an
    arbitrary environment: the time [NOW()], the rows other transactions have locked, and
    whether the call fails, before or after its effect (a connection lost after the server
    committed).  Theorems quantify over the environment. *)

From S2P Require Import Prelude Errors Event.

(** ** The environment of a call *)

Inductive fault :=
| NoFault
| FailBefore (e : error)
| FailAfter (e : error).

Record call := { c_now : time; c_locked : string → bool; c_fault : fault }.

(** ** Contexts

    [tx.Inject] stores any value; the repositories look for a [*sql.Tx]. *)
Inductive rawTx := RawNil | SqlTx | RawOther.

Record context := { ctx_tx : rawTx; ctx_trace_id : string; ctx_request_id : string }.

Definition Inject (ctx : context) (raw : rawTx) : context :=
  {| ctx_tx := raw; ctx_trace_id := ctx_trace_id ctx; ctx_request_id := ctx_request_id ctx |}.

Definition Extract (ctx : context) : rawTx * bool :=
  (ctx_tx ctx, match ctx_tx ctx with RawNil => false | _ => true end).

(** Where a statement runs: the connection pool (its own transaction) or the open [*sql.Tx]. *)
Inductive conn := Pool | Tx.

Section Db.
Context {D H : Type}.

(** The committed database, the writes of the open transaction, the program's memory, and
    the environment with the number of calls made. *)
Record world := {
  pool : D;
  tx_writes : list (D → D);
  mem : H;
  calls : nat → call;
  pos : nat
}.

Definition set_pool (d : D) (w : world) : world :=
  {| pool := d; tx_writes := tx_writes w; mem := mem w; calls := calls w; pos := pos w |}.
Definition set_tx (l : list (D → D)) (w : world) : world :=
  {| pool := pool w; tx_writes := l; mem := mem w; calls := calls w; pos := pos w |}.
Definition set_mem (h : H) (w : world) : world :=
  {| pool := pool w; tx_writes := tx_writes w; mem := h; calls := calls w; pos := pos w |}.
Definition tick (w : world) : world :=
  {| pool := pool w; tx_writes := tx_writes w; mem := mem w; calls := calls w; pos := S (pos w) |}.
Definition here (w : world) : call := calls w (pos w).

(** The rows a connection sees, and what a write does to them. *)
Definition tx_view (w : world) : D := foldl (λ d f, f d) (pool w) (tx_writes w).
Definition view (c : conn) (w : world) : D :=
  match c with Pool => pool w | Tx => tx_view w end.
Definition write (c : conn) (f : D → D) (w : world) : world :=
  match c with
  | Pool => set_pool (f (pool w)) w
  | Tx => set_tx (tx_writes w ++ [f]) w
  end.

(** A statement: given the call and the visible rows, a result with the new rows or an error. *)
Definition statement (A : Type) := call → D → result error (A * D).

Definition effect {A} (stmt : statement A) (k : call) (d : D) : D :=
  match stmt k d with Ok (_, d') => d' | Err _ => d end.

Definition Exec {A} (c : conn) (stmt : statement A) (w : world) : result error A * world :=
  let k := here w in
  match c_fault k with
  | FailBefore e => (Err e, tick w)
  | NoFault =>
      match stmt k (view c w) with
      | Ok (a, _) => (Ok a, write c (effect stmt k) (tick w))
      | Err e => (Err e, tick w)
      end
  | FailAfter e => (Err e, write c (effect stmt k) (tick w))
  end.

(** A call with no effect on the rows: closing a cursor, the end of an iteration. *)
Definition Ping (w : world) : option error * world :=
  match c_fault (here w) with
  | NoFault => (None, tick w)
  | FailBefore e | FailAfter e => (Some e, tick w)
  end.

Definition BeginTx (w : world) : option error * world :=
  match c_fault (here w) with
  | NoFault => (None, set_tx [] (tick w))
  | FailBefore e | FailAfter e => (Some e, tick w)
  end.

Definition Rollback (w : world) : option error * world :=
  match c_fault (here w) with
  | NoFault => (None, set_tx [] (tick w))
  | FailBefore e | FailAfter e => (Some e, set_tx [] (tick w))
  end.

Definition Commit (w : world) : option error * world :=
  match c_fault (here w) with
  | NoFault => (None, set_tx [] (set_pool (tx_view w) (tick w)))
  | FailBefore e => (Some e, set_tx [] (tick w))
  | FailAfter e => (Some e, set_tx [] (set_pool (tx_view w) (tick w)))
  end.

(** ** infra/db/tx.go *)

(** [fmt.Errorf("db: fn failed (%w); rollback also failed: %v", err, rbErr)] *)
Definition rollback_failed (err rbErr : error) : error :=
  EWrap ("db: fn failed (" +:+ Error err +:+ "); rollback also failed: " +:+ Error rbErr) err.

Definition WithTx (fn : world → outcome (option error) * world) (w : world)
    : outcome (option error) * world :=
  match BeginTx w with
  | (Some err, w) => (Returns (Some (Errorf_w "db: begin tx: " err)), w)
  | (None, w) =>
      match fn w with
      | (Panics p, w) => let '(_, w) := Rollback w in (Panics p, w)
      | (Hangs, w) => (Hangs, w)
      | (Returns (Some err), w) =>
          match Rollback w with
          | (Some rbErr, w) => (Returns (Some (rollback_failed err rbErr)), w)
          | (None, w) => (Returns (Some (Errorf_w "db: tx fn: " err)), w)
          end
      | (Returns None, w) =>
          match Commit w with
          | (Some err, w) => (Returns (Some (Errorf_w "db: commit tx: " err)), w)
          | (None, w) => (Returns None, w)
          end
      end
  end.

Definition WithTxResult {T} (fn : world → outcome (result error T) * world) (w : world)
    : outcome (result error T) * world :=
  match BeginTx w with
  | (Some err, w) => (Returns (Err (Errorf_w "db: begin tx: " err)), w)
  | (None, w) =>
      match fn w with
      | (Panics p, w) => let '(_, w) := Rollback w in (Panics p, w)
      | (Hangs, w) => (Hangs, w)
      | (Returns (Err err), w) =>
          match Rollback w with
          | (Some rbErr, w) => (Returns (Err (rollback_failed err rbErr)), w)
          | (None, w) => (Returns (Err err), w)
          end
      | (Returns (Ok result), w) =>
          match Commit w with
          | (Some err, w) => (Returns (Err (Errorf_w "db: commit tx: " err)), w)
          | (None, w) => (Returns (Ok result), w)
          end
      end
  end.

(** [pgTxRunner.RunInTx] *)
Definition RunInTx (ctx : context) (fn : context → world → outcome (option error) * world)
    (w : world) : outcome (option error) * world :=
  WithTx (fn (Inject ctx SqlTx)) w.

(** ** Properties *)

(** The function run in a transaction reaches the database only through the transaction:
    the committed rows do not change while it runs. *)
Definition only_through_tx {A} (fn : world → A * world) : Prop :=
  ∀ w, pool (fn w).2 = pool w.

Lemma BeginTx_spec w :
  pool (BeginTx w).2 = pool w ∧ mem (BeginTx w).2 = mem w
  ∧ ((BeginTx w).1 = None → tx_writes (BeginTx w).2 = []).
Proof. unfold BeginTx. by destruct (c_fault (here w)). Qed.

Lemma Rollback_spec w :
  pool (Rollback w).2 = pool w ∧ mem (Rollback w).2 = mem w ∧ tx_writes (Rollback w).2 = [].
Proof. unfold Rollback. by destruct (c_fault (here w)). Qed.

Lemma Commit_spec w :
  mem (Commit w).2 = mem w ∧ tx_writes (Commit w).2 = []
  ∧ ((Commit w).1 = None → pool (Commit w).2 = tx_view w)
  ∧ (pool (Commit w).2 = pool w ∨ pool (Commit w).2 = tx_view w).
Proof. unfold Commit. destruct (c_fault (here w)); simpl; naive_solver. Qed.

(** What a transaction may leave behind: nothing, or all the writes of the function, the
    latter only when the function returned nil and always when [WithTx] did. *)
Inductive tx_result (fn : world → outcome (option error) * world) (w : world)
    : outcome (option error) → world → Prop :=
| TxNotBegun err w' :
    pool w' = pool w → mem w' = mem w → tx_result fn w (Returns (Some err)) w'
| TxPanicked p w0 w1 w' :
    tx_writes w0 = [] → pool w0 = pool w → mem w0 = mem w → fn w0 = (Panics p, w1) →
    pool w' = pool w → mem w' = mem w1 → tx_result fn w (Panics p) w'
| TxHangs w0 w1 :
    tx_writes w0 = [] → pool w0 = pool w → mem w0 = mem w → fn w0 = (Hangs, w1) →
    pool w1 = pool w → tx_result fn w Hangs w1
| TxRolledBack err err' w0 w1 w' :
    tx_writes w0 = [] → pool w0 = pool w → mem w0 = mem w → fn w0 = (Returns (Some err), w1) →
    pool w' = pool w → mem w' = mem w1 → tx_result fn w (Returns (Some err')) w'
| TxCommitted w0 w1 w' :
    tx_writes w0 = [] → pool w0 = pool w → mem w0 = mem w → fn w0 = (Returns None, w1) →
    pool w' = tx_view w1 → mem w' = mem w1 → tx_result fn w (Returns None) w'
| TxCommitFailed err w0 w1 w' :
    tx_writes w0 = [] → pool w0 = pool w → mem w0 = mem w → fn w0 = (Returns None, w1) →
    pool w' = pool w ∨ pool w' = tx_view w1 → mem w' = mem w1 →
    tx_result fn w (Returns (Some err)) w'.

(** A transaction is all or nothing: when the function panics or returns an error the
    committed rows are those before [WithTx]; when [WithTx] returns nil they are exactly what
    the function's writes make of them; a failed commit leaves one or the other.  The program's
    memory is not rolled back. *)
Lemma WithTx_cases (fn : world → outcome (option error) * world) (w : world) :
  only_through_tx fn → tx_result fn w (WithTx fn w).1 (WithTx fn w).2.
Proof.
  intros Hfn. unfold WithTx.
  pose proof (BeginTx_spec w) as (Hp0 & Hm0 & Ht0).
  destruct (BeginTx w) as [[err|] w0] eqn:Hb; simpl in *; [by apply TxNotBegun|].
  specialize (Ht0 eq_refl). pose proof (Hfn w0) as Hpool.
  destruct (fn w0) as [[[err|]|p|] w1] eqn:Hrun; simpl in Hpool; rewrite Hp0 in Hpool.
  - pose proof (Rollback_spec w1) as (Hp2 & Hm2 & _).
    destruct (Rollback w1) as [[rb|] w2]; simpl in *; eapply TxRolledBack; eauto; congruence.
  - pose proof (Commit_spec w1) as (Hm2 & _ & Hok & Hor).
    destruct (Commit w1) as [[e|] w2]; simpl in *.
    + eapply TxCommitFailed; eauto. by rewrite <- Hpool.
    + eapply TxCommitted; eauto.
  - pose proof (Rollback_spec w1) as (Hp2 & Hm2 & _).
    destruct (Rollback w1) as [rb w2]; simpl in *. eapply TxPanicked; eauto; congruence.
  - eapply TxHangs; eauto.
Qed.

(** Statements on the transaction leave the committed rows alone. *)
Lemma Exec_Tx_pool {A} (stmt : statement A) w : pool (Exec Tx stmt w).2 = pool w.
Proof.
  unfold Exec. destruct (c_fault (here w)); simpl; [|done|done].
  by destruct (stmt _ _) as [[??]|?].
Qed.

Lemma Exec_Tx_pool_eq {A} (stmt : statement A) w r w' :
  Exec Tx stmt w = (r, w') → pool w' = pool w.
Proof. intros Hex. pose proof (Exec_Tx_pool stmt w) as Hp. by rewrite Hex in Hp. Qed.

Lemma Exec_mem {A} c (stmt : statement A) w : mem (Exec c stmt w).2 = mem w.
Proof.
  unfold Exec. destruct (c_fault (here w)); simpl; try done; [|by destruct c].
  destruct (stmt _ _) as [[??]|?]; by destruct c.
Qed.

(** A statement on the pool has no effect or its whole effect, the latter when it succeeds. *)
Lemma Exec_Pool_cases {A} (stmt : statement A) w :
  pool (Exec Pool stmt w).2 = pool w
  ∨ pool (Exec Pool stmt w).2 = effect stmt (here w) (pool w).
Proof.
  unfold Exec. destruct (c_fault (here w)); simpl; [|by left|by right].
  destruct (stmt _ _) as [[??]|?]; [by right|by left].
Qed.

Lemma Exec_Pool_ok {A} (stmt : statement A) w a w' :
  Exec Pool stmt w = (Ok a, w') →
  pool w' = effect stmt (here w) (pool w) ∧ ∃ d', stmt (here w) (pool w) = Ok (a, d').
Proof.
  unfold Exec. destruct (c_fault (here w)); simpl; [|done|done].
  destruct (stmt _ _) as [[? d']|?] eqn:Hst; [|done]. intros [= -> <-]. eauto.
Qed.

Lemma Exec_Tx_ok {A} (stmt : statement A) w a w' :
  Exec Tx stmt w = (Ok a, w') →
  tx_view w' = effect stmt (here w) (tx_view w) ∧ ∃ d', stmt (here w) (tx_view w) = Ok (a, d').
Proof.
  unfold Exec. destruct (c_fault (here w)); simpl; [|done|done].
  destruct (stmt _ _) as [[? d']|?] eqn:Hst; [|done]. intros [= -> <-].
  split; [|by eauto]. unfold tx_view. simpl. by rewrite foldl_app.
Qed.

Lemma Exec_view_ok {A} c (stmt : statement A) w a w' :
  Exec c stmt w = (Ok a, w') →
  view c w' = effect stmt (here w) (view c w) ∧ ∃ d', stmt (here w) (view c w) = Ok (a, d').
Proof. destruct c; [apply Exec_Pool_ok | apply Exec_Tx_ok]. Qed.

Lemma Ping_spec w :
  pool (Ping w).2 = pool w ∧ mem (Ping w).2 = mem w ∧ tx_writes (Ping w).2 = tx_writes w.
Proof. unfold Ping. by destruct (c_fault (here w)). Qed.

(** Each call reads one entry of the environment. *)
Lemma Exec_env {A} c (stmt : statement A) w :
  calls (Exec c stmt w).2 = calls w ∧ pos (Exec c stmt w).2 = S (pos w).
Proof.
  unfold Exec. destruct (c_fault (here w)); simpl; try done; [|by destruct c].
  destruct (stmt _ _) as [[??]|?]; by destruct c.
Qed.

Lemma Ping_env w : calls (Ping w).2 = calls w ∧ pos (Ping w).2 = S (pos w).
Proof. unfold Ping. by destruct (c_fault (here w)). Qed.

Lemma BeginTx_ok w w' :
  BeginTx w = (None, w') →
  pool w' = pool w ∧ tx_view w' = pool w ∧ mem w' = mem w
  ∧ calls w' = calls w ∧ pos w' = S (pos w).
Proof. unfold BeginTx. destruct (c_fault (here w)); intros [=]; by subst. Qed.
End Db.
Arguments world : clear implicits.
Arguments statement : clear implicits.
