(* ===== verification/Outbox.v ===== *)
(** * The transactional outbox: store and dead letters

    [Outbox.v] models infra/events/outbox/store.go, infra/events/outbox/middleware.go and
    infra/events/deadletter/store.go.  A table is the list of its rows; each SQL statement of
    the source is a function on them, run through [Exec].  PostgreSQL is not part of the
    sources: the order of rows it is free to choose ([Planner]), its JSONB input function and
    the column default of [lease_token] are parameters. *)

From S2P Require Import Prelude Errors Event Db.

(** ** Rows and entries *)

Record outbox_row := {
  r_id : string;
  r_aggregate_type : string;
  r_aggregate_id : string;
  r_event_type : string;
  r_payload : string;
  r_trace_id : string;
  r_metadata : json_object;
  r_created_at : time;
  r_claimed_at : option time;
  r_lease_token : option string;
  r_published_at : option time;
  r_retry_count : Z;
  r_last_error : string
}.

Record OutboxEntry := {
  e_ID : string;
  e_AggregateType : string;
  e_AggregateID : string;
  e_EventType : string;
  e_Payload : string;
  e_TraceID : string;
  e_Metadata : Metadata;
  e_CreatedAt : time;
  e_ClaimedAt : option time;
  e_LeaseToken : string;
  e_PublishedAt : option time;
  e_RetryCount : Z;
  e_LastError : string
}.

Record dlq_row := {
  q_id : string;
  q_subject : string;
  q_data : string;
  q_headers : gmap string string;
  q_error : string;
  q_attempts : Z;
  q_original_at : time;
  q_dead_at : time
}.

(** The tables the program shares with its domain repositories. *)
Record database (Dom : Type) := {
  outbox_events : list outbox_row;
  dead_letter_queue : list dlq_row;
  domain : Dom
}.
Arguments outbox_events {Dom} _.
Arguments dead_letter_queue {Dom} _.
Arguments domain {Dom} _.
Arguments Build_database {Dom} _ _ _.

Definition set_outbox {Dom} (l : list outbox_row) (d : database Dom) : database Dom :=
  {| outbox_events := l; dead_letter_queue := dead_letter_queue d; domain := domain d |}.
Definition set_dlq {Dom} (l : list dlq_row) (d : database Dom) : database Dom :=
  {| outbox_events := outbox_events d; dead_letter_queue := l; domain := domain d |}.

Definition ids (l : list outbox_row) : list string := map r_id l.

(** [leaseTimeout] in nanoseconds. *)
Definition leaseTimeout : Z := (5 * 60 * 10 ^ 9)%Z.
Definition cleanupBatchLimit : nat := 100 * 100.

(** What PostgreSQL is free to choose: the order of rows without [ORDER BY], and among rows
    of equal sort key. *)
Class Planner := {
  scan_order : list outbox_row → list outbox_row;
  scan_order_perm l : scan_order l ≡ₚ l;
  by_created_at : list outbox_row → list outbox_row;
  by_created_at_perm l : by_created_at l ≡ₚ l;
  by_created_at_sorted l : StronglySorted (λ a b, (r_created_at a ≤ r_created_at b)%Z) (by_created_at l);
  by_dead_at : list dlq_row → list dlq_row;
  by_dead_at_perm l : by_dead_at l ≡ₚ l;
  by_dead_at_sorted l : StronglySorted (λ a b, (q_dead_at a ≤ q_dead_at b)%Z) (by_dead_at l)
}.

(** ** Statements *)
Section Store.
Context {P Dom H : Type}.
Context `{Planner}.
(** [json.Marshal] of an event payload, PostgreSQL's JSONB input, the default of the
    [lease_token] column and the error of a violated primary key. *)
Context (json_Marshal : option P → result error string).
Context (jsonb : string → result error string).
Context (lease_default : option string).
Context (unique_violation : string → error).

Notation db := (database Dom).
Notation world := (world db H).

(** The values of an [INSERT]; the columns it does not name have their defaults. *)
Definition row_values (id aggType aggID evType payload trace : string) (meta : json_object)
    (created : time) : outbox_row :=
  {| r_id := id; r_aggregate_type := aggType; r_aggregate_id := aggID; r_event_type := evType;
     r_payload := payload; r_trace_id := trace; r_metadata := meta; r_created_at := created;
     r_claimed_at := None; r_lease_token := lease_default; r_published_at := None;
     r_retry_count := 0; r_last_error := "" |}.

(** [INSERT INTO outbox_events]; the payload column is JSONB and [id] the primary key. *)
Definition insert_row (id aggType aggID evType payload trace : string) (meta : json_object)
    (created : time) : statement db unit := λ _ d,
  match jsonb payload with
  | Err e => Err e
  | Ok body =>
      if decide (id ∈ ids (outbox_events d)) then Err (unique_violation id)
      else Ok (tt, set_outbox (outbox_events d
                 ++ [row_values id aggType aggID evType body trace meta created]) d)
  end.

(** ** Insert *)

Definition enrichMetadataFromContext (ctx : context) (meta : Metadata) : Metadata :=
  {| TraceID := if (TraceID meta =? "")%string then ctx_trace_id ctx else TraceID meta;
     CorrelationID := if (CorrelationID meta =? "")%string then ctx_request_id ctx
                      else CorrelationID meta;
     CausationID := CausationID meta;
     Source := Source meta |}.

(** [None] is the nil slice. *)
Definition marshalMetadata (meta : Metadata) : result error (option json_object) :=
  if IsZero meta then Ok None else Ok (Some (MarshalMetadata meta)).

(** The text [{}] is the empty object. *)
Definition jsonBytesToString (b : option json_object) : json_object := default [] b.

Definition executor (ctx : context) : conn :=
  match Extract ctx with
  | (SqlTx, true) => Tx
  | _ => Pool
  end.

Definition Insert (ctx : context) (evt : baseEvent P) (meta : Metadata) (w : world)
    : option error * world :=
  let meta := enrichMetadataFromContext ctx meta in
  match json_Marshal (Payload evt) with
  | Err err => (Some (Errorf_w ("outbox: marshal event " +:+ Quote (EventID evt) +:+ ": ") err), w)
  | Ok payload =>
      match marshalMetadata meta with
      | Err err => (Some (Errorf_w ("outbox: event " +:+ Quote (EventID evt) +:+ ": ") err), w)
      | Ok metadataJSON =>
          match Exec (executor ctx)
                  (insert_row (EventID evt) (EvAggregateType evt) (AggregateID evt)
                     (EventType evt) payload (TraceID meta) (jsonBytesToString metadataJSON)
                     (OccurredAt evt)) w with
          | (Err err, w) =>
              (Some (Errorf_w ("outbox: insert event " +:+ Quote (EventID evt) +:+ ": ") err), w)
          | (Ok _, w) => (None, w)
          end
      end
  end.

(** [InsertEntry] always uses the pool and [created_at] is the server's clock. *)
Definition InsertEntry (entry : OutboxEntry) (w : world) : option error * world :=
  match marshalMetadata (e_Metadata entry) with
  | Err err => (Some (Errorf_w ("outbox: entry " +:+ Quote (e_ID entry) +:+ ": ") err), w)
  | Ok metadataJSON =>
      match Exec Pool (λ k, insert_row (e_ID entry) (e_AggregateType entry)
                (e_AggregateID entry) (e_EventType entry) (e_Payload entry) (e_TraceID entry)
                (jsonBytesToString metadataJSON) (c_now k) k) w with
      | (Err err, w) =>
          (Some (Errorf_w ("outbox: insert entry " +:+ Quote (e_ID entry) +:+ ": ") err), w)
      | (Ok _, w) => (None, w)
      end
  end.

(** ** ClaimBatch *)

(** [published_at IS NULL AND (claimed_at IS NULL OR claimed_at < NOW() - interval)] *)
Definition claimable (now : time) (row : outbox_row) : bool :=
  match r_published_at row with
  | Some _ => false
  | None => match r_claimed_at row with
            | None => true
            | Some t => bool_decide (t < now - leaseTimeout)%Z
            end
  end.

Definition negative_limit : error := EText "LIMIT must not be negative".

(** The rows of [SELECT ... ORDER BY created_at LIMIT n FOR UPDATE SKIP LOCKED]. *)
Definition select_claimable (k : call) (batchSize : Z) (l : list outbox_row) : list outbox_row :=
  take (Z.to_nat batchSize)
    (by_created_at (filter (λ row, claimable (c_now k) row = true ∧ c_locked k (r_id row) = false) l)).

Definition query_claimable (batchSize : Z) : statement db (list outbox_row) := λ k d,
  if decide (batchSize < 0)%Z then Err negative_limit
  else Ok (select_claimable k batchSize (outbox_events d), d).

(** [rows.Scan]: the destination of [lease_token] is a [string], which cannot hold NULL. *)
Definition scan_null_error : error :=
  EWrap ("sql: Scan error on column index 9, name " +:+ Quote "lease_token"
         +:+ ": converting NULL to string is unsupported")
        (EText "converting NULL to string is unsupported").

Definition entry_metadata (row : outbox_row) : Metadata :=
  let m := UnmarshalMetadata (r_metadata row) in
  if (TraceID m =? "")%string && negb (r_trace_id row =? "")%string
  then {| TraceID := r_trace_id row; CorrelationID := CorrelationID m;
          CausationID := CausationID m; Source := Source m |}
  else m.

Definition Scan (row : outbox_row) : result error OutboxEntry :=
  match r_lease_token row with
  | None => Err scan_null_error
  | Some token =>
      Ok {| e_ID := r_id row; e_AggregateType := r_aggregate_type row;
            e_AggregateID := r_aggregate_id row; e_EventType := r_event_type row;
            e_Payload := r_payload row; e_TraceID := r_trace_id row;
            e_Metadata := entry_metadata row; e_CreatedAt := r_created_at row;
            e_ClaimedAt := r_claimed_at row; e_LeaseToken := token;
            e_PublishedAt := r_published_at row; e_RetryCount := r_retry_count row;
            e_LastError := r_last_error row |}
  end.

(** The [rows.Next] loop. *)
Fixpoint scan_rows (rows : list outbox_row) : result error (list OutboxEntry) :=
  match rows with
  | [] => Ok []
  | row :: rest =>
      match Scan row with
      | Err err => Err (Errorf_w "outbox: scan row: " err)
      | Ok e => match scan_rows rest with Ok es => Ok (e :: es) | Err err => Err err end
      end
  end.

Definition with_token (token : string) (e : OutboxEntry) : OutboxEntry :=
  {| e_ID := e_ID e; e_AggregateType := e_AggregateType e; e_AggregateID := e_AggregateID e;
     e_EventType := e_EventType e; e_Payload := e_Payload e; e_TraceID := e_TraceID e;
     e_Metadata := e_Metadata e; e_CreatedAt := e_CreatedAt e; e_ClaimedAt := e_ClaimedAt e;
     e_LeaseToken := token; e_PublishedAt := e_PublishedAt e; e_RetryCount := e_RetryCount e;
     e_LastError := e_LastError e |}.

(** The numbered placeholders and the arguments they stand for. *)
Definition placeholder (i : nat) : string := "$" +:+ pretty i.
Definition buildINClause (leadArg : string) (idl : list string) : string * list string :=
  (String.concat "," (imap (λ i _, placeholder (i + 2)) idl), leadArg :: idl).

(** [UPDATE] on the rows that satisfy a predicate. *)
Definition update_where (p : outbox_row → bool) (f : outbox_row → outbox_row) (d : db) : db :=
  set_outbox (map (λ row, if p row then f row else row) (outbox_events d)) d.

Definition set_claim (claimed : option time) (token : option string) (row : outbox_row) : outbox_row :=
  {| r_id := r_id row; r_aggregate_type := r_aggregate_type row;
     r_aggregate_id := r_aggregate_id row; r_event_type := r_event_type row;
     r_payload := r_payload row; r_trace_id := r_trace_id row; r_metadata := r_metadata row;
     r_created_at := r_created_at row; r_claimed_at := claimed; r_lease_token := token;
     r_published_at := r_published_at row; r_retry_count := r_retry_count row;
     r_last_error := r_last_error row |}.

Definition stmt_claim (args : list string) : statement db unit := λ k d,
  match args with
  | [] => Err (EText "there is no parameter $1")
  | token :: idl =>
      Ok (tt, update_where (λ row, bool_decide (r_id row ∈ idl))
                (set_claim (Some (c_now k)) (Some token)) d)
  end.

Definition claimEntriesTx (idl : list string) (token : string) (w : world) : option error * world :=
  let '(_, args) := buildINClause token idl in
  match Exec Tx (stmt_claim args) w with
  | (Err err, w) => (Some (Errorf_w "outbox: claim entries: " err), w)
  | (Ok _, w) => (None, w)
  end.

(** An error return of [ClaimBatch]: [rows.Close] if the cursor is still open, then the
    rollback. *)
Definition claim_abort (cursor_open : bool) (err : error) (w : world)
    : result error (list OutboxEntry) * world :=
  let '(closeErr, w) := if cursor_open then Ping w else (None, w) in
  let err' := default err (Do (Some err) closeErr "close rows") in
  let '(_, w) := Rollback w in (Err err', w).

(** [ClaimBatch] with the generated lease token as an argument. *)
Definition ClaimBatch (token : string) (batchSize : Z) (w : world)
    : result error (list OutboxEntry) * world :=
  match BeginTx w with
  | (Some err, w) => (Err (Errorf_w "outbox: begin tx: " err), w)
  | (None, w) =>
      match Exec Tx (query_claimable batchSize) w with
      | (Err err, w) => claim_abort false (Errorf_w "outbox: query unpublished: " err) w
      | (Ok rows, w) =>
          match scan_rows rows with
          | Err err => claim_abort true err w
          | Ok entries =>
              match Ping w with
              | (Some err, w) => claim_abort true (Errorf_w "outbox: iterate rows: " err) w
              | (None, w) =>
                  let '(claimErr, w) :=
                    match entries with
                    | [] => (None, w)
                    | _ => claimEntriesTx (map e_ID entries) token w
                    end in
                  match claimErr with
                  | Some err => claim_abort false (Errorf_w "outbox: claim entries: " err) w
                  | None =>
                      match Commit w with
                      | (Some err, w) => claim_abort false (Errorf_w "outbox: commit tx: " err) w
                      | (None, w) => (Ok (map (with_token token) entries), w)
                      end
                  end
              end
          end
      end
  end.

(** ** Release, publication, cleanup *)

Record ReleaseEntry := { rel_ID : string; rel_LastError : string }.

Definition release_row (lastError : string) (row : outbox_row) : outbox_row :=
  {| r_id := r_id row; r_aggregate_type := r_aggregate_type row;
     r_aggregate_id := r_aggregate_id row; r_event_type := r_event_type row;
     r_payload := r_payload row; r_trace_id := r_trace_id row; r_metadata := r_metadata row;
     r_created_at := r_created_at row; r_claimed_at := None; r_lease_token := None;
     r_published_at := r_published_at row; r_retry_count := r_retry_count row + 1;
     r_last_error := lastError |}.

Definition ReleaseClaim (id lastError : string) (w : world) : option error * world :=
  match Exec Pool (λ _ d, Ok (tt, update_where (λ row, bool_decide (r_id row = id))
                                    (release_row lastError) d)) w with
  | (Err err, w) => (Some (Errorf_w ("outbox: release claim " +:+ Quote id +:+ ": ") err), w)
  | (Ok _, w) => (None, w)
  end.

(** The join with the VALUES list: the first pair for the row's id (PostgreSQL picks one). *)
Definition find_release (entries : list ReleaseEntry) (row : outbox_row) : option ReleaseEntry :=
  snd <$> list_find (λ v, rel_ID v = r_id row) entries.

Definition stmt_release (entries : list ReleaseEntry) : statement db unit := λ _ d,
  Ok (tt, set_outbox (map (λ row, match find_release entries row with
                                  | Some v => release_row (rel_LastError v) row
                                  | None => row
                                  end) (outbox_events d)) d).

Definition ReleaseClaims (entries : list ReleaseEntry) (w : world) : option error * world :=
  match entries with
  | [] => (None, w)
  | [e] => ReleaseClaim (rel_ID e) (rel_LastError e) w
  | _ =>
      match Exec Pool (stmt_release entries) w with
      | (Err err, w) => (Some (Errorf_w "outbox: batch release claims: " err), w)
      | (Ok _, w) => (None, w)
      end
  end.

Definition publish_row (now : time) (row : outbox_row) : outbox_row :=
  {| r_id := r_id row; r_aggregate_type := r_aggregate_type row;
     r_aggregate_id := r_aggregate_id row; r_event_type := r_event_type row;
     r_payload := r_payload row; r_trace_id := r_trace_id row; r_metadata := r_metadata row;
     r_created_at := r_created_at row; r_claimed_at := r_claimed_at row;
     r_lease_token := r_lease_token row; r_published_at := Some now;
     r_retry_count := r_retry_count row; r_last_error := r_last_error row |}.

(** [WHERE lease_token = $1 AND id IN (...)]; a NULL token equals nothing. *)
Definition stmt_publish (args : list string) : statement db unit := λ k d,
  match args with
  | [] => Err (EText "there is no parameter $1")
  | token :: idl =>
      Ok (tt, update_where
                (λ row, bool_decide (r_lease_token row = Some token) && bool_decide (r_id row ∈ idl))
                (publish_row (c_now k)) d)
  end.

Definition MarkPublished (idl : list string) (leaseToken : string) (w : world) : option error * world :=
  match idl with
  | [] => (None, w)
  | _ =>
      let '(_, args) := buildINClause leaseToken idl in
      match Exec Pool (stmt_publish args) w with
      | (Err err, w) => (Some (Errorf_w "outbox: mark published: " err), w)
      | (Ok _, w) => (None, w)
      end
  end.

Definition stale (cutoff : time) (row : outbox_row) : bool :=
  match r_published_at row with Some t => bool_decide (t < cutoff)%Z | None => false end.

Definition stmt_cleanup (retention : Z) : statement db Z := λ k d,
  let cutoff := (c_now k - retention)%Z in
  let chosen := ids (take cleanupBatchLimit
                       (scan_order (filter (λ row, stale cutoff row = true) (outbox_events d)))) in
  let rest := filter (λ row, r_id row ∉ chosen) (outbox_events d) in
  Ok (Z.of_nat (length (outbox_events d) - length rest), set_outbox rest d).

Definition Cleanup (retention : Z) (w : world) : result error Z * world :=
  match Exec Pool (stmt_cleanup retention) w with
  | (Err err, w) => (Err (Errorf_w "outbox: cleanup: " err), w)
  | (Ok n, w) =>
      match Ping w with
      | (Some err, w) => (Err (Errorf_w "outbox: cleanup rows affected: " err), w)
      | (None, w) => (Ok n, w)
      end
  end.

Definition unpublished (row : outbox_row) : bool :=
  match r_published_at row with Some _ => false | None => true end.

Definition CountPending (w : world) : result error Z * world :=
  match Exec Pool (λ _ d, Ok (Z.of_nat (length (filter (λ row, unpublished row = true)
                                                  (outbox_events d))), d)) w with
  | (Err err, w) => (Err (Errorf_w "outbox: count pending: " err), w)
  | (Ok n, w) => (Ok n, w)
  end.

(** ** deadletter.Store *)

Record DLQEntry := {
  d_ID : string; d_Subject : string; d_Data : string; d_Headers : gmap string string;
  d_Error : string; d_Attempts : Z; d_OriginalAt : time; d_DeadAt : time
}.

(** [MarshalHeaders] cannot fail on a map of strings; the JSON object is its map. *)
Definition MarshalHeaders (headers : gmap string string) : result error (gmap string string) :=
  Ok headers.

(** [ON CONFLICT (id) DO NOTHING] *)
Definition stmt_dlq_insert (entry : DLQEntry) : statement db unit := λ k d,
  if decide (d_ID entry ∈ map q_id (dead_letter_queue d)) then Ok (tt, d)
  else Ok (tt, set_dlq (dead_letter_queue d ++
    [{| q_id := d_ID entry; q_subject := d_Subject entry; q_data := d_Data entry;
        q_headers := d_Headers entry; q_error := d_Error entry; q_attempts := d_Attempts entry;
        q_original_at := d_OriginalAt entry; q_dead_at := c_now k |}]) d).

Definition DLQ_Insert (entry : DLQEntry) (w : world) : option error * world :=
  match Exec Pool (stmt_dlq_insert entry) w with
  | (Err err, w) => (Some (Errorf_w ("deadletter: insert " +:+ Quote (d_ID entry) +:+ ": ") err), w)
  | (Ok _, w) => (None, w)
  end.

Definition scan_dlq (q : dlq_row) : DLQEntry :=
  {| d_ID := q_id q; d_Subject := q_subject q; d_Data := q_data q; d_Headers := q_headers q;
     d_Error := q_error q; d_Attempts := q_attempts q; d_OriginalAt := q_original_at q;
     d_DeadAt := q_dead_at q |}.

Definition GetDeadLetters (limit : Z) (w : world) : result error (list DLQEntry) * world :=
  match Exec Pool (λ _ d, if decide (limit < 0)%Z then Err negative_limit
                          else Ok (take (Z.to_nat limit) (by_dead_at (dead_letter_queue d)), d)) w with
  | (Err err, w) => (Err (Errorf_w "deadletter: query: " err), w)
  | (Ok rows, w) =>
      match Ping w with
      | (Some err, w) =>
          let '(closeErr, w) := Ping w in
          let err := Errorf_w "deadletter: iterate rows: " err in
          (Err (default err (Do (Some err) closeErr "close rows")), w)
      | (None, w) => (Ok (map scan_dlq rows), w)
      end
  end.

(** [DELETE FROM dead_letter_queue WHERE id = $1] *)
Definition DLQ_Retry (id : string) (w : world) : option error * world :=
  match Exec Pool (λ _ d, Ok (tt, set_dlq (filter (λ q, q_id q ≠ id) (dead_letter_queue d)) d)) w with
  | (Err err, w) => (Some (Errorf_w ("deadletter: retry (delete) " +:+ Quote id +:+ ": ") err), w)
  | (Ok _, w) => (None, w)
  end.

(** ** OutboxMiddleware *)

Record RawMessage := { m_ID : string; m_Name : string; m_Headers : option (gmap string string);
                       m_Data : string }.

Definition Publish (subject : string) (msg : RawMessage) (w : world) : option error * world :=
  let id := m_ID msg in
  if (id =? "")%string then (Some (EText "outbox middleware: message ID must not be empty"), w)
  else
    let eventType := index (m_Headers msg) "event_type" in
    let eventType :=
      if (eventType =? "")%string
      then if (m_Name msg =? "")%string then subject else m_Name msg
      else eventType in
    match InsertEntry
            {| e_ID := id; e_AggregateType := index (m_Headers msg) "aggregate_type";
               e_AggregateID := index (m_Headers msg) "aggregate_id"; e_EventType := eventType;
               e_Payload := m_Data msg; e_TraceID := index (m_Headers msg) "trace_id";
               e_Metadata := zeroMetadata; e_CreatedAt := zeroTime; e_ClaimedAt := None;
               e_LeaseToken := ""; e_PublishedAt := None; e_RetryCount := 0; e_LastError := "" |} w with
    | (Some err, w) =>
        (Some (Errorf_w ("outbox middleware: publish " +:+ Quote id +:+ ": ") err), w)
    | (None, w) => (None, w)
    end.

(** ** Properties of ClaimBatch *)

Lemma select_claimable_elem k n l row :
  row ∈ select_claimable k n l →
  row ∈ l ∧ claimable (c_now k) row = true ∧ c_locked k (r_id row) = false.
Proof.
  unfold select_claimable. intros Hin%elem_of_take.
  destruct Hin as (i & Hi & _). apply list_elem_of_lookup_2 in Hi.
  rewrite by_created_at_perm, list_elem_of_filter in Hi. tauto.
Qed.

Lemma scan_rows_ok rows es :
  scan_rows rows = Ok es →
  map e_ID es = ids rows ∧ Forall2 (λ row e, Scan row = Ok e) rows es.
Proof.
  revert es. induction rows as [|row rows IH]; intros es; simpl; [intros [= <-]; by split|].
  destruct (Scan row) as [e|] eqn:He; [|done].
  destruct (scan_rows rows) as [es'|] eqn:Hes; [|done]. intros [= <-].
  destruct (IH es' eq_refl) as [IH1 IH2]. split; [|by constructor]. simpl. rewrite IH1. f_equal.
  unfold Scan in He. by destruct (r_lease_token row); simplify_eq.
Qed.

(** The table after a batch of [rows] has been claimed. *)
Definition claimed_rows (rows : list outbox_row) (now : time) (token : string) (d : db) : db :=
  match rows with
  | [] => d
  | _ => update_where (λ row, bool_decide (r_id row ∈ ids rows))
           (set_claim (Some now) (Some token)) d
  end.

Lemma claim_abort_spec o err w :
  ∃ err' w', claim_abort o err w = (Err err', w') ∧ pool w' = pool w ∧ mem w' = mem w.
Proof.
  unfold claim_abort. destruct o.
  - pose proof (Ping_spec w) as (Hp & Hm & _). destruct (Ping w) as [ce w1]. simpl in *.
    pose proof (Rollback_spec w1) as (Hp' & Hm' & _). destruct (Rollback w1) as [re w2]. simpl in *.
    do 2 eexists. split; [done|]. split; congruence.
  - pose proof (Rollback_spec w) as (Hp' & Hm' & _). destruct (Rollback w) as [re w2]. simpl in *.
    do 2 eexists. split; done.
Qed.

(** What [ClaimBatch] returns and leaves, for the calls [query] and [update] it makes. *)
Definition claim_result (token : string) (n : Z) (w : world)
    (r : result error (list OutboxEntry)) (w' : world) : Prop :=
  let query := calls w (1 + pos w)%nat in
  let update := calls w (3 + pos w)%nat in
  let rows := select_claimable query n (outbox_events (pool w)) in
  let claimed := claimed_rows rows (c_now update) token (pool w) in
  mem w' = mem w
  ∧ match r with
    | Ok entries => (0 ≤ n)%Z ∧ pool w' = claimed
        ∧ ∃ es, scan_rows rows = Ok es ∧ entries = map (with_token token) es
    | Err _ => pool w' = pool w ∨ (is_ok (scan_rows rows) = true ∧ pool w' = claimed)
    end.

Lemma claim_update rows es token w r w' :
  scan_rows rows = Ok es →
  match es with [] => (None, w) | _ => claimEntriesTx (map e_ID es) token w end = (r, w') →
  mem w' = mem w ∧ pool w' = pool w
  ∧ (r = None → tx_view w' = claimed_rows rows (c_now (here w)) token (tx_view w)).
Proof.
  intros (Hids & Hall)%scan_rows_ok Hupd. destruct es as [|e es].
  { apply Forall2_nil_inv_r in Hall as ->. by simplify_eq. }
  destruct rows as [|row rows]; [done|].
  unfold claimEntriesTx in Hupd. rewrite Hids in Hupd. simpl in Hupd.
  pose proof (Exec_mem Tx (stmt_claim (token :: ids (row :: rows))) w) as Hm.
  pose proof (Exec_Tx_pool (stmt_claim (token :: ids (row :: rows))) w) as Hp.
  destruct (Exec Tx _ w) as [[[]|err] w1] eqn:Hex; simplify_eq; split_and!; try done.
  intros _. by apply Exec_Tx_ok in Hex as [-> _].
Qed.

Lemma ClaimBatch_cases token n w :
  claim_result token n w (ClaimBatch token n w).1 (ClaimBatch token n w).2.
Proof.
  unfold ClaimBatch. pose proof (BeginTx_spec w) as (Hp0 & Hm0 & _).
  destruct (BeginTx w) as [[err|] w1] eqn:Hb; [by split; [|left]|]. clear Hp0 Hm0.
  apply BeginTx_ok in Hb as (Hp1 & Hv1 & Hm1 & Hc1 & Hn1).
  assert (Hhere : here w1 = calls w (1 + pos w)%nat) by (unfold here; by rewrite Hc1, Hn1).
  pose proof (Exec_mem Tx (query_claimable n) w1) as Hm2.
  pose proof (Exec_Tx_pool (query_claimable n) w1) as Hp2.
  pose proof (Exec_env Tx (query_claimable n) w1) as [Hc2 Hn2].
  destruct (Exec Tx _ w1) as [[rows|err] w2] eqn:Hq; simpl in *; last first.
  { destruct (claim_abort_spec false (Errorf_w "outbox: query unpublished: " err) w2)
      as (err' & w' & -> & ? & ?). split; simpl; [congruence|left; congruence]. }
  apply Exec_Tx_ok in Hq as (Hv2 & d' & Hrows). rewrite Hhere, Hv1 in *.
  unfold query_claimable in Hrows, Hv2.
  unfold effect in Hv2. case_decide as Hneg; [done|]. simplify_eq.
  destruct (scan_rows _) as [es|err] eqn:Hscan; last first.
  { destruct (claim_abort_spec true err w2) as (err' & w' & -> & ? & ?).
    split; simpl; [congruence|left; congruence]. }
  pose proof (Ping_spec w2) as (Hp3 & Hm3 & Ht3). pose proof (Ping_env w2) as [Hc3 Hn3].
  destruct (Ping w2) as [[err|] w3]; simpl in *.
  { destruct (claim_abort_spec true (Errorf_w "outbox: iterate rows: " err) w3)
      as (err' & w' & -> & ? & ?). split; simpl; [congruence|left; congruence]. }
  destruct (match es with [] => _ | _ => _ end) as [r w4] eqn:Hupd.
  apply (claim_update _ _ _ _ _ _ Hscan) in Hupd as (Hm4 & Hp4 & Hv4).
  destruct r as [err|].
  { destruct (claim_abort_spec false (Errorf_w "outbox: claim entries: " err) w4)
      as (err' & w' & -> & ? & ?). split; simpl; [congruence|left; congruence]. }
  specialize (Hv4 eq_refl). pose proof (Commit_spec w4) as (Hm5 & _ & Hok & Hor).
  assert (Hview : tx_view w4 = claimed_rows (select_claimable (calls w (1 + pos w)%nat) n
      (outbox_events (pool w))) (c_now (calls w (3 + pos w)%nat)) token (pool w)).
  { rewrite Hv4. f_equal; [|unfold tx_view; rewrite Ht3, Hp3; fold (tx_view w2); done].
    unfold here. by rewrite Hc3, Hn3, Hc2, Hn2, Hc1, Hn1. }
  destruct (Commit w4) as [[err|] w5]; simpl in *.
  - destruct (claim_abort_spec false (Errorf_w "outbox: commit tx: " err) w5)
      as (err' & w' & -> & ? & ?). split; simpl; [congruence|]. rewrite Hscan.
    destruct Hor; [left; congruence | right; split; [done|congruence]].
  - split; simpl; [congruence|]. split; [lia|]. split; [|eauto]. rewrite Hok by done. done.
Qed.

Lemma select_claimable_length k n l : (0 ≤ n)%Z → (Z.of_nat (length (select_claimable k n l)) ≤ n)%Z.
Proof. intros Hn. unfold select_claimable. rewrite length_take. lia. Qed.

Lemma select_claimable_sorted k n l :
  StronglySorted (λ a b, (r_created_at a ≤ r_created_at b)%Z) (select_claimable k n l).
Proof. apply StronglySorted_take, by_created_at_sorted. Qed.

(** A claimable row is left out only by a full batch of rows that are not younger. *)
Lemma select_claimable_complete k n l row :
  (0 ≤ n)%Z → row ∈ l → claimable (c_now k) row = true → c_locked k (r_id row) = false →
  row ∈ select_claimable k n l
  ∨ (Z.of_nat (length (select_claimable k n l)) = n
     ∧ ∀ row', row' ∈ select_claimable k n l → (r_created_at row' ≤ r_created_at row)%Z).
Proof.
  intros Hn Hrow Hc Hl. unfold select_claimable.
  set (q := by_created_at _).
  assert (Hq : row ∈ q).
  { unfold q. rewrite by_created_at_perm, list_elem_of_filter. done. }
  assert (Hs : StronglySorted (λ a b, (r_created_at a ≤ r_created_at b)%Z) q)
    by apply by_created_at_sorted.
  clearbody q. rewrite <- (take_drop (Z.to_nat n) q), elem_of_app in Hq.
  destruct Hq as [Hq|Hq]; [by left|]. right.
  rewrite <- (take_drop (Z.to_nat n) q) in Hs. split.
  - rewrite length_take. destruct (decide (Z.to_nat n ≤ length q)); [lia|].
    rewrite drop_ge in Hq by lia. by apply elem_of_nil in Hq.
  - intros row' Hrow'. exact (StronglySorted_app_le _ _ _ _ _ Hs Hrow' Hq).
Qed.

Lemma claimed_rows_outbox rows now token d :
  outbox_events (claimed_rows rows now token d)
  = map (λ row, if decide (r_id row ∈ ids rows) then set_claim (Some now) (Some token) row else row)
      (outbox_events d).
Proof.
  destruct rows as [|row rows].
  - transitivity (map id (outbox_events d)); [by rewrite map_id|]. apply map_ext. intros r.
    by rewrite decide_False by apply not_elem_of_nil.
  - unfold claimed_rows, update_where. simpl. apply map_ext. intros r.
    by case_decide; case_bool_decide.
Qed.

Lemma claimed_rows_other rows now token d :
  dead_letter_queue (claimed_rows rows now token d) = dead_letter_queue d
  ∧ domain (claimed_rows rows now token d) = domain d.
Proof. by destruct rows. Qed.

Lemma Scan_ok row e :
  Scan row = Ok e → e_ID e = r_id row ∧ e_CreatedAt e = r_created_at row.
Proof. unfold Scan. destruct (r_lease_token row); by intros [= <-]. Qed.

Lemma scan_sorted rows es :
  Forall2 (λ row e, Scan row = Ok e) rows es →
  StronglySorted (λ a b, (r_created_at a ≤ r_created_at b)%Z) rows →
  StronglySorted (λ a b, (e_CreatedAt a ≤ e_CreatedAt b)%Z) es.
Proof.
  induction 1 as [|row e rows es Hscan Hall IH]; [constructor|].
  intros [Hs Hle]%StronglySorted_inv. constructor; [by apply IH|].
  rewrite Forall_forall in Hle. rewrite Forall_forall. intros e' He'.
  destruct (Forall2_elem_r _ _ _ _ Hall He') as (row' & Hrow' & Hscan').
  destruct (Scan_ok _ _ Hscan) as [_ ->], (Scan_ok _ _ Hscan') as [_ ->]. by apply Hle.
Qed.

(** The rows of [w] that [ClaimBatch] finds available: unpublished, not under a live lease,
    not locked by a concurrent transaction. *)
Definition available (w : world) (row : outbox_row) : Prop :=
  row ∈ outbox_events (pool w)
  ∧ claimable (c_now (calls w (1 + pos w)%nat)) row = true
  ∧ c_locked (calls w (1 + pos w)%nat) (r_id row) = false.

(** C4: [ClaimBatch] leases the oldest available rows: it returns at most [n] entries in
    order of creation, each from an available row and carrying the new token; an available row
    is left out only by a full batch of rows at least as old; exactly the returned rows are
    marked claimed with that token.  When it fails, at most the claim columns have changed. *)
Theorem ClaimBatch_spec (token : string) (n : Z) (w : world) :
  match ClaimBatch token n w with
  | (Ok entries, w') =>
      (Z.of_nat (length entries) ≤ n)%Z
      ∧ StronglySorted (λ a b, (e_CreatedAt a ≤ e_CreatedAt b)%Z) entries
      ∧ (∀ e, e ∈ entries → e_LeaseToken e = token
              ∧ ∃ row, available w row ∧ r_id row = e_ID e ∧ r_created_at row = e_CreatedAt e)
      ∧ (∀ row, available w row →
           r_id row ∈ map e_ID entries
           ∨ (Z.of_nat (length entries) = n
              ∧ ∀ e, e ∈ entries → (e_CreatedAt e ≤ r_created_at row)%Z))
      ∧ outbox_events (pool w')
        = map (λ row, if decide (r_id row ∈ map e_ID entries)
                      then set_claim (Some (c_now (calls w (3 + pos w)%nat))) (Some token) row
                      else row) (outbox_events (pool w))
  | (Err _, w') =>
      map (set_claim None None) (outbox_events (pool w'))
      = map (set_claim None None) (outbox_events (pool w))
  end.
Proof.
  pose proof (ClaimBatch_cases token n w) as [_ Hres].
  destruct (ClaimBatch token n w) as [[entries|err] w']; simpl in Hres; last first.
  { destruct Hres as [->|[_ ->]]; [done|]. rewrite claimed_rows_outbox, map_map.
    apply map_ext. intros row. by case_decide. }
  destruct Hres as (Hn & Hpool & es & Hscan & ->).
  destruct (scan_rows_ok _ _ Hscan) as [Hids Hall]. pose proof (Forall2_length _ _ _ Hall) as Hlen.
  assert (Hids' : map e_ID (map (with_token token) es) = map e_ID es) by (by rewrite map_map).
  rewrite length_map, <- Hlen, Hids', Hids. split_and!.
  - by apply select_claimable_length.
  - pose proof (scan_sorted _ _ Hall (select_claimable_sorted _ _ _)) as Hsort. clear - Hsort.
    induction Hsort as [|e es Hs IH Hle]; simpl; constructor; [done|].
    apply Forall_fmap. eapply Forall_impl; [exact Hle|done].
  - intros e (e0 & -> & He0)%list_elem_of_fmap. split; [done|].
    destruct (Forall2_elem_r _ _ _ _ Hall He0) as (row & Hrow & [? ?]%Scan_ok).
    exists row. split; [by apply select_claimable_elem in Hrow|done].
  - intros row (Hrow & Hc & Hl).
    destruct (select_claimable_complete _ n _ row Hn Hrow Hc Hl) as [Hin|[Hfull Hold]].
    + left. by apply list_elem_of_fmap_2.
    + right. split; [done|]. intros e (e0 & -> & He0)%list_elem_of_fmap.
      destruct (Forall2_elem_r _ _ _ _ Hall He0) as (row' & Hrow' & [? Heq]%Scan_ok).
      simpl. rewrite Heq. by apply Hold.
  - by rewrite Hpool, claimed_rows_outbox.
Qed.

Lemma scan_rows_null rows row :
  row ∈ rows → r_lease_token row = None → is_ok (scan_rows rows) = false.
Proof.
  induction rows as [|row' rows IH]; intros Hin Hnull; [by apply elem_of_nil in Hin|].
  simpl. apply elem_of_cons in Hin as [<-|Hin].
  - unfold Scan. by rewrite Hnull.
  - specialize (IH Hin Hnull). destruct (Scan row'); [|done]. by destruct (scan_rows rows).
Qed.

Lemma ReleaseClaim_ok id lastError w w1 :
  ReleaseClaim id lastError w = (None, w1) →
  pool w1 = update_where (λ row, bool_decide (r_id row = id)) (release_row lastError) (pool w).
Proof.
  unfold ReleaseClaim. destruct (Exec _ _ w) as [[[]|err] w'] eqn:Hex; [|done].
  intros [= <-]. by apply Exec_Pool_ok in Hex as [-> _].
Qed.

(** C22: once an entry has been released, no batch that selects it can be claimed:
    [ReleaseClaim] stores NULL in [lease_token] and [ClaimBatch] scans that column into a
    string, so it fails, and leaves the table as it found it. *)
Theorem release_blocks_claim (id lastError token : string) (n : Z) (w w1 : world) :
  ReleaseClaim id lastError w = (None, w1) →
  id ∈ ids (select_claimable (calls w1 (1 + pos w1)%nat) n (outbox_events (pool w1))) →
  ∃ err w', ClaimBatch token n w1 = (Err err, w') ∧ pool w' = pool w1.
Proof.
  intros Hrel%ReleaseClaim_ok (row & -> & Hrow)%list_elem_of_fmap.
  assert (Hnull : r_lease_token row = None).
  { apply select_claimable_elem in Hrow as [Hrow' _]. rewrite Hrel in Hrow'. simpl in Hrow'.
    apply list_elem_of_fmap in Hrow' as (row0 & Heq & _).
    case_bool_decide as Hid; subst row; [done|]. by destruct Hid. }
  pose proof (scan_rows_null _ _ Hrow Hnull) as Hscan.
  pose proof (ClaimBatch_cases token n w1) as [_ Hres].
  destruct (ClaimBatch token n w1) as [[entries|err] w']; simpl in Hres; simpl in Hscan.
  - destruct Hres as (_ & _ & es & Hes & _). by rewrite Hes in Hscan.
  - exists err, w'. split; [done|]. destruct Hres as [?|[Hok _]]; [done|]. by rewrite Hok in Hscan.
Qed.

(** ** Properties of Insert *)

(** The metadata a worker reads back is the metadata that was inserted. *)
Lemma entry_metadata_inserted id aggType aggID evType body created meta :
  ∀ obj, marshalMetadata meta = Ok obj →
  entry_metadata (row_values id aggType aggID evType body (TraceID meta)
                    (jsonBytesToString obj) created) = meta.
Proof.
  unfold marshalMetadata, entry_metadata, jsonBytesToString. intros obj.
  destruct (IsZero meta) eqn:Hz; intros [= <-]; simpl.
  - apply IsZero_spec in Hz as ->. done.
  - rewrite Metadata_json_roundtrip. destruct (String.eqb_spec (TraceID meta) ""); [|done].
    by destruct meta; simpl in *; subst.
Qed.

(** The row that carries an event: new, unpublished, unclaimed, and read back by a worker as
    the event with the metadata [meta] enriched from the context. *)
Definition inserted_row (ctx : context) (evt : baseEvent P) (meta : Metadata) (row : outbox_row) : Prop :=
  r_id row = EventID evt ∧ r_aggregate_type row = EvAggregateType evt
  ∧ r_aggregate_id row = AggregateID evt
  ∧ r_event_type row = EventType evt ∧ r_created_at row = OccurredAt evt
  ∧ r_published_at row = None ∧ r_claimed_at row = None ∧ r_lease_token row = lease_default
  ∧ r_retry_count row = 0%Z
  ∧ (∃ payload, json_Marshal (Payload evt) = Ok payload ∧ jsonb payload = Ok (r_payload row))
  ∧ entry_metadata row = enrichMetadataFromContext ctx meta.

Lemma Insert_cases (ctx : context) (evt : baseEvent P) (meta : Metadata) (w : world) :
  let r := Insert ctx evt meta w in
  mem r.2 = mem w ∧ (executor ctx = Tx → pool r.2 = pool w)
  ∧ (r.1 = None → ∃ row,
       view (executor ctx) r.2
       = set_outbox (outbox_events (view (executor ctx) w) ++ [row]) (view (executor ctx) w)
       ∧ EventID evt ∉ ids (outbox_events (view (executor ctx) w))
       ∧ inserted_row ctx evt meta row).
Proof.
  unfold Insert. destruct (json_Marshal (Payload evt)) as [payload|] eqn:Hpl; [|done].
  destruct (marshalMetadata _) as [obj|] eqn:Hobj; [|done].
  set (stmt := insert_row _ _ _ _ _ _ _ _).
  pose proof (Exec_mem (executor ctx) stmt w) as Hm.
  assert (Hpool : executor ctx = Tx → pool (Exec (executor ctx) stmt w).2 = pool w).
  { intros ->. apply Exec_Tx_pool. }
  destruct (Exec (executor ctx) stmt w) as [[[]|err] w'] eqn:Hex; simpl in *; [|done].
  do 2 (split; [done|]). intros _.
  apply Exec_view_ok in Hex as [Hv [d' Hd']]. unfold effect in Hv. rewrite Hd' in Hv.
  subst stmt. unfold insert_row in Hd'. destruct (jsonb payload) as [body|] eqn:Hb; [|done].
  case_decide as Hnew; [done|]. injection Hd' as <-. eexists. split; [exact Hv|]. split; [done|].
  unfold inserted_row. split_and!; try done; [exists payload; by rewrite Hb|].
  exact (entry_metadata_inserted _ _ _ _ _ _ (enrichMetadataFromContext ctx meta) obj Hobj).
Qed.

(** a successful [Insert] appends one row that carries the event, in the caller's
    transaction when the context carries one and to the committed table otherwise, and touches
    nothing else; a failed insert inside a transaction leaves the committed rows alone. *)
Theorem Insert_spec (ctx : context) (evt : baseEvent P) (meta : Metadata) (w : world) :
  match Insert ctx evt meta w with
  | (None, w') =>
      ∃ row, view (executor ctx) w'
             = set_outbox (outbox_events (view (executor ctx) w) ++ [row]) (view (executor ctx) w)
        ∧ EventID evt ∉ ids (outbox_events (view (executor ctx) w))
        ∧ inserted_row ctx evt meta row
  | (Some _, w') => executor ctx = Tx → pool w' = pool w
  end.
Proof.
  pose proof (Insert_cases ctx evt meta w) as (_ & Hp & Hok).
  destruct (Insert ctx evt meta w) as [[err|] w']; [exact Hp|by apply Hok].
Qed.

(** ** Properties of ReleaseClaims *)

Lemma find_release_None entries row :
  find_release entries row = None ↔ r_id row ∉ map rel_ID entries.
Proof.
  unfold find_release. rewrite fmap_None, list_find_None, Forall_forall. split.
  - intros Hn (v & Heq & Hv)%list_elem_of_fmap. by apply (Hn v).
  - intros Hn v Hv Heq. apply Hn. rewrite <- Heq. by apply list_elem_of_fmap_2.
Qed.

Lemma find_release_Some entries row v :
  find_release entries row = Some v → v ∈ entries ∧ rel_ID v = r_id row.
Proof.
  unfold find_release. rewrite fmap_Some. intros ([i v'] & (Hi & Hid & _)%list_find_Some & ->).
  split; [by eapply list_elem_of_lookup_2|done].
Qed.

(** The effect of [ReleaseClaims], whichever statement it uses. *)
Lemma ReleaseClaims_cases entries w :
  mem (ReleaseClaims entries w).2 = mem w
  ∧ (pool (ReleaseClaims entries w).2 = pool w
     ∨ pool (ReleaseClaims entries w).2 = effect (stmt_release entries) (here w) (pool w))
  ∧ ((ReleaseClaims entries w).1 = None →
     outbox_events (pool (ReleaseClaims entries w).2)
     = outbox_events (effect (stmt_release entries) (here w) (pool w))).
Proof.
  assert (Hone : ∀ e, effect (stmt_release [e]) (here w) (pool w)
      = update_where (λ row, bool_decide (r_id row = rel_ID e)) (release_row (rel_LastError e)) (pool w)).
  { intros e. unfold effect, stmt_release, update_where. f_equal. apply map_ext. intros row.
    unfold find_release. simpl. case_decide; case_bool_decide; simpl; congruence. }
  destruct entries as [|e [|e' rest]].
  - split_and!; [done|by left|]. intros _. simpl. rewrite <- (map_id (outbox_events (pool w))) at 1.
    done.
  - rewrite Hone. simpl. unfold ReleaseClaim. set (stmt := λ _ _, Ok _).
    pose proof (Exec_mem Pool stmt w) as Hm. pose proof (Exec_Pool_cases stmt w) as Hp.
    destruct (Exec Pool stmt w) as [[[]|err] w'] eqn:Hex; simpl in *;
      (split; [done|]; split; [done|]); [|done].
    intros _. by apply Exec_Pool_ok in Hex as [-> _].
  - set (l := e :: e' :: rest). unfold ReleaseClaims. subst l. cbv iota.
    pose proof (Exec_mem Pool (stmt_release (e :: e' :: rest)) w) as Hm.
    pose proof (Exec_Pool_cases (stmt_release (e :: e' :: rest)) w) as Hp.
    destruct (Exec Pool _ w) as [[[]|err] w'] eqn:Hex; simpl in Hm, Hp;
      (split; [done|]; split; [done|]); [|done].
    intros _. cbn [snd]. by apply Exec_Pool_ok in Hex as [-> _].
Qed.

(** a release is not guarded by the lease token: when a worker releases an unpublished
    entry, the row becomes claimable at every time, whatever token it carries and however
    recently it was claimed, for instance by the worker that took it over. *)
Theorem late_release_drops_lease (entries : list ReleaseEntry) (w w' : world) (row : outbox_row) :
  ReleaseClaims entries w = (None, w') →
  row ∈ outbox_events (pool w) → r_published_at row = None → r_id row ∈ map rel_ID entries →
  ∃ row', row' ∈ outbox_events (pool w') ∧ r_id row' = r_id row
          ∧ r_retry_count row' = (r_retry_count row + 1)%Z
          ∧ ∀ now, claimable now row' = true.
Proof.
  intros Hrel Hrow Hpub Hid. pose proof (ReleaseClaims_cases entries w) as (_ & _ & Hok).
  rewrite Hrel in Hok. simpl in Hok. specialize (Hok eq_refl).
  destruct (find_release entries row) as [v|] eqn:Hv;
    [|by apply find_release_None in Hv].
  exists (release_row (rel_LastError v) row). split_and!; try done.
  - rewrite Hok. apply list_elem_of_fmap. exists row. by rewrite Hv.
  - intros now. unfold claimable. simpl. by rewrite Hpub.
Qed.
End Store.

(** ** A concrete database *)

Definition created_le : relation outbox_row := λ a b, (r_created_at a ≤ r_created_at b)%Z.
Definition dead_le : relation dlq_row := λ a b, (q_dead_at a ≤ q_dead_at b)%Z.
#[export] Instance created_le_dec : RelDecision created_le := λ a b, decide (_ ≤ _)%Z.
#[export] Instance dead_le_dec : RelDecision dead_le := λ a b, decide (_ ≤ _)%Z.
#[export] Instance created_le_trans : Transitive created_le.
Proof. intros a b c. unfold created_le. lia. Qed.
#[export] Instance created_le_total : Total created_le.
Proof. intros a b. unfold created_le. lia. Qed.
#[export] Instance dead_le_trans : Transitive dead_le.
Proof. intros a b c. unfold dead_le. lia. Qed.
#[export] Instance dead_le_total : Total dead_le.
Proof. intros a b. unfold dead_le. lia. Qed.

(** A planner that scans in table order and sorts by merging. *)
#[refine, export] Instance merge_planner : Planner := {|
  scan_order l := l;
  by_created_at := merge_sort created_le;
  by_dead_at := merge_sort dead_le
|}.
Proof.
  - done.
  - intros l. apply merge_sort_Permutation.
  - intros l. apply (StronglySorted_merge_sort created_le).
  - intros l. apply merge_sort_Permutation.
  - intros l. apply (StronglySorted_merge_sort dead_le).
Defined.

(** Calls that all succeed at time [t] with no row locked. *)
Definition calm (t : time) : nat → call :=
  λ _, {| c_now := t; c_locked := λ _, false; c_fault := NoFault |}.

Definition sample_row (id : string) (created : time) : outbox_row :=
  {| r_id := id; r_aggregate_type := "Order"; r_aggregate_id := "o-1";
     r_event_type := "order.created"; r_payload := "{}"; r_trace_id := "";
     r_metadata := []; r_created_at := created; r_claimed_at := Some 5%Z;
     r_lease_token := Some "tok-1"; r_published_at := None; r_retry_count := 0;
     r_last_error := "" |}.

Definition sample_world : world (database unit) unit :=
  {| pool := {| outbox_events := [sample_row "e-2" 20%Z; sample_row "e-1" 10%Z];
                dead_letter_queue := []; domain := tt |};
     tx_writes := []; mem := tt; calls := calm 30%Z; pos := 0 |}.

Definition released_world : world (database unit) unit :=
  (ReleaseClaim "e-1" "broker down" sample_world).2.

Lemma release_blocks_claim_witness :
  ReleaseClaim "e-1" "broker down" sample_world = (None, released_world)
  ∧ ∃ err w', ClaimBatch "tok-2" 10 released_world = (Err err, w')
              ∧ pool w' = pool released_world.
Proof.
  split; [reflexivity|].
  apply (release_blocks_claim "e-1" "broker down" "tok-2" 10 sample_world released_world);
    [reflexivity|]. vm_compute. left.
Defined.

Lemma late_release_drops_lease_witness :
  ReleaseClaims [{| rel_ID := "e-1"; rel_LastError := "broker down" |}] sample_world
    = (None, released_world)
  ∧ ∃ row', row' ∈ outbox_events (pool released_world) ∧ r_id row' = "e-1"
            ∧ r_retry_count row' = 1%Z ∧ ∀ now, claimable now row' = true.
Proof.
  split; [reflexivity|].
  apply (late_release_drops_lease [{| rel_ID := "e-1"; rel_LastError := "broker down" |}]
    sample_world released_world (sample_row "e-1" 10%Z)); try reflexivity; simpl; list_in.
Defined.
