(* ===== verification/OutboxWorker.v ===== *)
(** * The outbox relay worker

    [OutboxWorker.v] models infra/events/outbox/worker.go: one poll cycle, the polling loop's
    backoff, and the system of any number of workers, inserting clients and cleanups that
    share the tables, in which a worker may crash between any two of its calls. *)

From stdpp Require Import functions.
From S2P Require Import Prelude Errors Event Db Outbox.

(** ** The publisher and its circuit breaker

    The breaker (gobreaker) either rejects a request without running it or runs it once and
    returns its result. *)
Class CircuitBreaker (C : Type) := {
  Execute : ∀ {S : Type}, (S → option error * S) → C * S → option error * (C * S);
  Execute_spec : ∀ {S : Type} (f : S → option error * S) c s,
    (∃ err c', Execute f (c, s) = (Some err, (c', s)))
    ∨ (∃ c', Execute f (c, s) = ((f s).1, (c', (f s).2)))
}.

(** The adapter [envelopeEvent]. *)
Definition envelopeEvent (entry : OutboxEntry) : baseEvent string :=
  {| EventID := e_ID entry; EventType := e_EventType entry; AggregateID := e_AggregateID entry;
     EvAggregateType := e_AggregateType entry; OccurredAt := e_CreatedAt entry;
     SchemaVersion := 1; Payload := Some (e_Payload entry); GetMetadata := e_Metadata entry |}.

Record Worker := {
  w_dlq : bool;            (** a [dlqStore] is configured *)
  w_cb : bool;             (** a circuit breaker is configured *)
  w_notify : bool;         (** a wake channel is configured *)
  pollInterval : Z;
  pollTimeout : Z;
  batchSize : Z;
  maxRetries : Z;
  retention : Z
}.

Definition defaultPollTimeout : Z := 30 * 10 ^ 9.
Definition NewWorker (pollInterval batchSize maxRetries retention : Z) : Worker :=
  {| w_dlq := false; w_cb := false; w_notify := false; pollInterval := pollInterval;
     pollTimeout := defaultPollTimeout; batchSize := batchSize; maxRetries := maxRetries; retention := retention |}.
Definition WithDLQ (w : Worker) : Worker :=
  {| w_dlq := true; w_cb := w_cb w; w_notify := w_notify w; pollInterval := pollInterval w;
     pollTimeout := pollTimeout w; batchSize := batchSize w; maxRetries := maxRetries w; retention := retention w |}.
Definition WithCircuitBreaker (w : Worker) : Worker :=
  {| w_dlq := w_dlq w; w_cb := true; w_notify := w_notify w; pollInterval := pollInterval w;
     pollTimeout := pollTimeout w; batchSize := batchSize w; maxRetries := maxRetries w; retention := retention w |}.
Definition WithNotify (w : Worker) : Worker :=
  {| w_dlq := w_dlq w; w_cb := w_cb w; w_notify := true; pollInterval := pollInterval w;
     pollTimeout := pollTimeout w; batchSize := batchSize w; maxRetries := maxRetries w; retention := retention w |}.
Definition WithPollTimeout (d : Z) (w : Worker) : Worker :=
  if (0 <? d)%Z
  then {| w_dlq := w_dlq w; w_cb := w_cb w; w_notify := w_notify w; pollInterval := pollInterval w;
          pollTimeout := d; batchSize := batchSize w; maxRetries := maxRetries w; retention := retention w |}
  else w.

Definition maxBackoffShift : Z := 4.
Definition cleanupEvery : Z := 100.

Section Worker.
Context {Dom B C : Type} `{Planner} `{CircuitBreaker C}.
Context (bus_Publish : baseEvent string → B → option error * B).
Context (cfg : Worker).

(** The worker's memory: the bus, the breaker, the trace of the calls to [bus.Publish] with
    their results, and the log of exhausted entries. *)
Record memory := {
  bus : B; breaker : C;
  attempts : list (OutboxEntry * option error);
  warned : list OutboxEntry
}.

Notation db := (database Dom).
Notation world := (world db memory).

(** [publish := func() error { return w.bus.Publish(ctx, evt) }] *)
Definition publish (entry : OutboxEntry) (s : B * list (OutboxEntry * option error))
    : option error * (B * list (OutboxEntry * option error)) :=
  let '(r, b) := bus_Publish (envelopeEvent entry) s.1 in (r, (b, s.2 ++ [(entry, r)])).

Definition publishEntry (entry : OutboxEntry) (w : world) : option error * world :=
  let m := mem w in
  if w_cb cfg then
    let '(r, (c, (b, tr))) := Execute (publish entry) (breaker m, (bus m, attempts m)) in
    (r, set_mem {| bus := b; breaker := c; attempts := tr; warned := warned m |} w)
  else
    let '(r, (b, tr)) := publish entry (bus m, attempts m) in
    (r, set_mem {| bus := b; breaker := breaker m; attempts := tr; warned := warned m |} w).

(** The DLQ headers: the three fixed ones, overwritten by the metadata. *)
Definition dlq_headers (entry : OutboxEntry) : gmap string string :=
  default ∅ (ToMap (e_Metadata entry))
  ∪ {[ "aggregate_type" := e_AggregateType entry; "aggregate_id" := e_AggregateID entry;
       "event_type" := e_EventType entry ]}.

Definition moveToDLQ (entry : OutboxEntry) (w : world) : option error * world :=
  match MarshalHeaders (dlq_headers entry) with
  | Err err =>
      (Some (Errorf_w ("outbox: marshal headers for DLQ entry " +:+ Quote (e_ID entry) +:+ ": ") err), w)
  | Ok headersJSON =>
      match DLQ_Insert {| d_ID := e_ID entry; d_Subject := e_EventType entry;
              d_Data := e_Payload entry; d_Headers := headersJSON; d_Error := e_LastError entry;
              d_Attempts := e_RetryCount entry; d_OriginalAt := e_CreatedAt entry;
              d_DeadAt := zeroTime |} w with
      | (Some err, w) =>
          (Some (Errorf_w ("outbox: DLQ insert for " +:+ Quote (e_ID entry) +:+ ": ") err), w)
      | (None, w) => (None, w)
      end
  end.

(** [w.logger.Warn("outbox: entry exceeded max retries, moving to DLQ", ...)] *)
Definition log_exhausted (entry : OutboxEntry) (w : world) : world :=
  let m := mem w in
  set_mem {| bus := bus m; breaker := breaker m; attempts := attempts m;
             warned := warned m ++ [entry] |} w.

Definition handleExhaustedEntry (entry : OutboxEntry) (w : world) : option error * world :=
  let w := log_exhausted entry w in
  if w_dlq cfg then
    match moveToDLQ entry w with
    | (Some dlqErr, w) =>
        (Some (Errorf_w ("outbox: DLQ insert failed for " +:+ Quote (e_ID entry) +:+ ": ") dlqErr), w)
    | (None, w) => (None, w)
    end
  else (None, w).

(** One iteration of the loop over the batch. *)
Definition process_entry (entry : OutboxEntry) (publishedIDs : list string)
    (failed : list ReleaseEntry) (w : world) : list string * list ReleaseEntry * world :=
  let '(r, w) := if bool_decide (maxRetries cfg ≤ e_RetryCount entry)%Z
                 then handleExhaustedEntry entry w
                 else publishEntry entry w in
  match r with
  | Some err =>
      (publishedIDs, failed ++ [{| rel_ID := e_ID entry; rel_LastError := Error err |}], w)
  | None => (publishedIDs ++ [e_ID entry], failed, w)
  end.

Fixpoint process (entries : list OutboxEntry) (publishedIDs : list string)
    (failed : list ReleaseEntry) (w : world) : list string * list ReleaseEntry * world :=
  match entries with
  | [] => (publishedIDs, failed, w)
  | entry :: rest =>
      let '(publishedIDs, failed, w) := process_entry entry publishedIDs failed w in
      process rest publishedIDs failed w
  end.

(** One poll cycle; [token] is the lease token [ClaimBatch] generates. *)
Definition poll (token : string) (w : world) : option error * world :=
  match ClaimBatch token (batchSize cfg) w with
  | (Err err, w) => (Some (Errorf_w "outbox: claim batch: " err), w)
  | (Ok [], w) => (None, w)
  | (Ok ((e0 :: _) as entries), w) =>
      let '(publishedIDs, failed, w) := process entries [] [] w in
      let w := match publishedIDs with
               | [] => w
               | _ => (MarkPublished publishedIDs (e_LeaseToken e0) w).2
               end in
      let w := match failed with
               | [] => w
               | _ => (ReleaseClaims failed w).2
               end in
      (None, w)
  end.

(** ** The polling loop *)

(** The loop's variables (the counters stay far from the bounds of [int]): the consecutive errors, the poll counter and the ticker period. *)
Record loop_state := { consecutiveErr : Z; cycle : Z; ticker : Z }.

Definition adjustBackoff (s : loop_state) : loop_state :=
  let shift := Z.min (consecutiveErr s) maxBackoffShift in
  {| consecutiveErr := consecutiveErr s; cycle := cycle s;
     ticker := wrap64 (pollInterval cfg * wrap64 (Z.shiftl 1 shift)) |}.

Definition doPoll (token : string) (s : loop_state) (w : world) : loop_state * world :=
  let '(err, w) := poll token w in
  let s := match err with
           | Some _ => adjustBackoff {| consecutiveErr := consecutiveErr s + 1; cycle := cycle s;
                                        ticker := ticker s |}
           | None => if bool_decide (consecutiveErr s > 0)%Z
                     then {| consecutiveErr := 0; cycle := cycle s; ticker := pollInterval cfg |}
                     else s
           end in
  let s := {| consecutiveErr := consecutiveErr s; cycle := cycle s + 1; ticker := ticker s |} in
  if bool_decide (Z.rem (cycle s) cleanupEvery = 0)%Z
  then (s, (Cleanup (retention cfg) w).2)
  else (s, w).

(** The [select] of [Start]: a tick, or a notification, which resets the ticker. *)
Inductive wakeup := Tick | Notify.

Definition loop_step (s : loop_state * world) (ev : wakeup * string) : loop_state * world :=
  let '(st, w) := doPoll ev.2 s.1 s.2 in
  match ev.1 with
  | Tick => (st, w)
  | Notify => ({| consecutiveErr := consecutiveErr st; cycle := cycle st;
                  ticker := pollInterval cfg |}, w)
  end.

Definition loop_start : loop_state :=
  {| consecutiveErr := 0; cycle := 0; ticker := pollInterval cfg |}.

(** ** A worker as a state machine

    Between two calls of a poll cycle a worker holds a batch. *)
Inductive wstate :=
| Idle
| Working (token : string) (todo : list OutboxEntry) (publishedIDs : list string)
    (failed : list ReleaseEntry)
| Releasing (failed : list ReleaseEntry).

Definition wstep (token : string) (st : wstate) (w : world) : wstate * world :=
  match st with
  | Idle =>
      match ClaimBatch token (batchSize cfg) w with
      | (Ok ((e0 :: _) as entries), w) => (Working (e_LeaseToken e0) entries [] [], w)
      | (_, w) => (Idle, w)
      end
  | Working tok (entry :: rest) publishedIDs failed =>
      let '(publishedIDs, failed, w) := process_entry entry publishedIDs failed w in
      (Working tok rest publishedIDs failed, w)
  | Working tok [] publishedIDs failed =>
      (Releasing failed, match publishedIDs with
                         | [] => w
                         | _ => (MarkPublished publishedIDs tok w).2
                         end)
  | Releasing failed =>
      (Idle, match failed with [] => w | _ => (ReleaseClaims failed w).2 end)
  end.

Definition wsteps (n : nat) (token : string) (s : wstate * world) : wstate * world :=
  Nat.iter n (λ s, wstep token s.1 s.2) s.

Lemma wsteps_S n token s : wsteps (S n) token s = wsteps n token (wstep token s.1 s.2).
Proof. unfold wsteps. by rewrite Nat.iter_succ_r. Qed.

Lemma wsteps_S_r n token s :
  wsteps (S n) token s = wstep token (wsteps n token s).1 (wsteps n token s).2.
Proof. done. Qed.

Lemma process_wsteps token tok todo publishedIDs failed w :
  let '(p, f, w') := process todo publishedIDs failed w in
  wsteps (length todo) token (Working tok todo publishedIDs failed, w)
  = (Working tok [] p f, w').
Proof.
  revert publishedIDs failed w. induction todo as [|e todo IH]; intros p f w; [done|].
  cbn [length process]. rewrite wsteps_S. cbn [fst snd wstep].
  destruct (process_entry e p f w) as [[p' f'] w'].
  specialize (IH p' f' w'). by destruct (process todo p' f' w') as [[??]?].
Qed.

(** A poll cycle is a run of the state machine from [Idle] to [Idle]. *)
Lemma poll_wsteps token w : ∃ n, wsteps n token (Idle, w) = (Idle, (poll token w).2).
Proof.
  unfold poll. destruct (ClaimBatch token (batchSize cfg) w) as [[[|e0 es]|err] w1] eqn:Hc.
  - exists 1. cbn. by rewrite Hc.
  - pose proof (process_wsteps token (e_LeaseToken e0) (e0 :: es) [] [] w1) as Hp.
    destruct (process (e0 :: es) [] [] w1) as [[p f] w2].
    exists (S (S (S (length (e0 :: es))))). rewrite wsteps_S. cbn [fst snd]. unfold wstep at 1.
    rewrite Hc, !wsteps_S_r, Hp. done.
  - exists 1. cbn. by rewrite Hc.
Qed.

(** ** The system *)

Record sys := { s_world : world; workers : nat → wstate; inserted : list string }.

Definition with_env (env : nat → call) (p : nat) (w : world) : world :=
  {| pool := pool w; tx_writes := tx_writes w; mem := mem w; calls := env; pos := p |}.

(** A client commits new rows, a worker makes its next call, a worker's process dies, or the
    table is cleaned up; the environment of each step is arbitrary. *)
Inductive sys_step : sys → sys → Prop :=
| step_commit s rows d' :
    outbox_events d' = outbox_events (pool (s_world s)) ++ rows →
    dead_letter_queue d' = dead_letter_queue (pool (s_world s)) →
    Forall (λ row, r_published_at row = None) rows →
    sys_step s {| s_world := set_pool d' (s_world s); workers := workers s;
                  inserted := inserted s ++ ids rows |}
| step_worker s i token env p :
    let r := wstep token (workers s i) (with_env env p (s_world s)) in
    sys_step s {| s_world := r.2; workers := <[i := r.1]> (workers s); inserted := inserted s |}
| step_crash s i :
    sys_step s {| s_world := s_world s; workers := <[i := Idle]> (workers s);
                  inserted := inserted s |}
| step_cleanup s ret env p :
    sys_step s {| s_world := (Cleanup ret (with_env env p (s_world s))).2; workers := workers s;
                  inserted := inserted s |}.

Definition sys_init (m : memory) (d : Dom) (env : nat → call) : sys :=
  {| s_world := {| pool := {| outbox_events := []; dead_letter_queue := []; domain := d |};
                   tx_writes := []; mem := m; calls := env; pos := 0 |};
     workers := λ _, Idle; inserted := [] |}.

(** Where an event that is no longer pending went: the broker acknowledged it, it is in the
    dead letter queue, or, without one, it was logged as exhausted. *)
Definition settled (w : world) (id : string) : Prop :=
  (∃ e, (e, None) ∈ attempts (mem w) ∧ e_ID e = id)
  ∨ id ∈ map q_id (dead_letter_queue (pool w))
  ∨ (w_dlq cfg = false ∧ id ∈ map e_ID (warned (mem w))).

Definition pending_row (w : world) (id : string) : Prop :=
  ∃ row, row ∈ outbox_events (pool w) ∧ r_id row = id ∧ r_published_at row = None.

Definition wstate_ok (w : world) (st : wstate) : Prop :=
  match st with
  | Working _ _ publishedIDs _ => Forall (settled w) publishedIDs
  | _ => True
  end.

Record sys_inv (s : sys) : Prop := {
  inv_published : ∀ row, row ∈ outbox_events (pool (s_world s)) → r_published_at row ≠ None →
    settled (s_world s) (r_id row);
  inv_inserted : ∀ id, id ∈ inserted s →
    id ∈ ids (outbox_events (pool (s_world s))) ∨ settled (s_world s) id;
  inv_workers : ∀ i, wstate_ok (s_world s) (workers s i)
}.

(** ** Properties *)

(** The progress every step makes: what is settled stays settled, a row leaves the table only
    when it is settled, and a row is published only when it is settled. *)
Record advances (w w' : world) : Prop := {
  adv_settled : ∀ id, settled w id → settled w' id;
  adv_ids : ∀ id, id ∈ ids (outbox_events (pool w)) →
    id ∈ ids (outbox_events (pool w')) ∨ settled w' id;
  adv_pub : ∀ row', row' ∈ outbox_events (pool w') → r_published_at row' ≠ None →
    settled w' (r_id row')
    ∨ ∃ row, row ∈ outbox_events (pool w) ∧ r_id row = r_id row' ∧ r_published_at row ≠ None
}.

Lemma inv_advances s w' st :
  sys_inv s → advances (s_world s) w' → (∀ i, wstate_ok w' (st i)) →
  sys_inv {| s_world := w'; workers := st; inserted := inserted s |}.
Proof.
  intros [Hpub Hins _] [Hset Hids Hpub'] Hst. split; simpl; [| |done].
  - intros row' Hrow' Hp. destruct (Hpub' row' Hrow' Hp) as [?|(row & ? & <- & ?)]; [done|].
    by apply Hset, Hpub.
  - intros id Hid. destruct (Hins id Hid) as [?|?]; [by apply Hids|]. right. by apply Hset.
Qed.

Lemma settled_mem_dlq w w' id :
  mem w' = mem w → dead_letter_queue (pool w') = dead_letter_queue (pool w) →
  settled w id → settled w' id.
Proof. unfold settled. by intros -> ->. Qed.

Definition key (row : outbox_row) : string * option time := (r_id row, r_published_at row).

(** Steps that touch neither the identity nor the publication of rows. *)
Lemma advances_key w w' :
  (∀ id, settled w id → settled w' id) →
  map key (outbox_events (pool w')) = map key (outbox_events (pool w)) → advances w w'.
Proof.
  intros Hset Hkey. split; [done| |].
  - intros id Hid. left. unfold ids in *.
    assert (map fst (map key (outbox_events (pool w'))) = map r_id (outbox_events (pool w'))) as <-
      by (by rewrite map_map).
    by rewrite Hkey, map_map.
  - intros row' Hrow' Hp. right.
    assert (key row' ∈ map key (outbox_events (pool w))) as (row & Heq & Hrow)%list_elem_of_fmap
      by (rewrite <- Hkey; by apply list_elem_of_fmap_2).
    exists row. injection Heq as Hid Hpu. by rewrite <- Hid, <- Hpu.
Qed.

Lemma ClaimBatch_advances token n w : advances w (ClaimBatch token n w).2.
Proof.
  destruct (ClaimBatch_cases token n w) as [Hm Hres].
  destruct (ClaimBatch token n w) as [r w']; simpl in *.
  set (rows := select_claimable _ n _) in Hres.
  assert (pool w' = pool w ∨ ∃ now, pool w' = claimed_rows rows now token (pool w)) as Hp.
  { destruct r; [destruct Hres as (_ & -> & _); eauto | destruct Hres as [->|[_ ->]]; eauto]. }
  clear Hres. apply advances_key.
  - intros id. apply settled_mem_dlq; [done|].
    destruct Hp as [->|[now ->]]; [done|]. apply claimed_rows_other.
  - destruct Hp as [->|[now ->]]; [done|]. rewrite claimed_rows_outbox, map_map.
    apply map_ext. intros row. by case_decide.
Qed.

Lemma ReleaseClaims_advances failed w : advances w (ReleaseClaims failed w).2.
Proof.
  destruct (ReleaseClaims_cases failed w) as (Hm & Hp & _).
  destruct (ReleaseClaims failed w) as [r w']; simpl in *. apply advances_key.
  - intros id. apply settled_mem_dlq; [done|]. by destruct Hp as [->| ->].
  - destruct Hp as [->| ->]; [done|]. simpl. rewrite map_map. apply map_ext. intros row.
    by destruct (find_release failed row).
Qed.

Lemma MarkPublished_cases idl token (w : world) :
  mem (MarkPublished idl token w).2 = mem w
  ∧ (pool (MarkPublished idl token w).2 = pool w
     ∨ pool (MarkPublished idl token w).2
       = effect (stmt_publish (token :: idl)) (here w) (pool w)).
Proof.
  destruct idl as [|id idl]; [by split; [|left]|]. unfold MarkPublished, buildINClause.
  pose proof (Exec_mem Pool (stmt_publish (token :: id :: idl)) w) as Hm.
  pose proof (Exec_Pool_cases (stmt_publish (token :: id :: idl)) w) as Hp.
  by destruct (Exec Pool _ w) as [[[]|err] w'].
Qed.

Lemma MarkPublished_advances idl token w :
  Forall (settled w) idl → advances w (MarkPublished idl token w).2.
Proof.
  intros Hidl. destruct (MarkPublished_cases idl token w) as (Hm & Hp).
  destruct (MarkPublished idl token w) as [r w']; simpl in *.
  assert (Hset : ∀ id, settled w id → settled w' id).
  { intros id. apply settled_mem_dlq; [done|]. by destruct Hp as [->| ->]. }
  destruct Hp as [Hp|Hp]; [apply advances_key; [done|by rewrite Hp]|].
  split; [done| |]; rewrite Hp; simpl.
  - intros id Hid. left. unfold ids in *. rewrite map_map.
    assert (map r_id (outbox_events (pool w))
      = map (λ row, r_id (if bool_decide (r_lease_token row = Some token)
                             && bool_decide (r_id row ∈ idl)
                          then publish_row (c_now (here w)) row else row))
            (outbox_events (pool w))) as <-; [|done].
    apply map_ext. intros row. by destruct (_ && _).
  - intros row' (row & -> & Hrow)%list_elem_of_fmap Hpub.
    destruct (bool_decide (r_lease_token row = Some token)); simpl in *; [|by right; exists row].
    case_bool_decide as Hin; [|by right; exists row].
    left. rewrite Forall_forall in Hidl. by apply Hset, Hidl.
Qed.

Lemma publishEntry_spec entry w :
  let r := publishEntry entry w in
  pool r.2 = pool w ∧ warned (mem r.2) = warned (mem w)
  ∧ (∃ l, attempts (mem r.2) = attempts (mem w) ++ l)
  ∧ (r.1 = None → (entry, None) ∈ attempts (mem r.2)).
Proof.
  unfold publishEntry, publish. destruct (w_cb cfg).
  - destruct (Execute_spec (publish entry) (breaker (mem w)) (bus (mem w), attempts (mem w)))
      as [(err & c' & Heq)|(c' & Heq)]; unfold publish in Heq; rewrite Heq; simpl.
    + split_and!; try done. exists []. by rewrite app_nil_r.
    + destruct (bus_Publish (envelopeEvent entry) (bus (mem w))) as [r b]; simpl.
      split_and!; eauto. intros ->. list_in.
  - simpl. destruct (bus_Publish (envelopeEvent entry) (bus (mem w))) as [r b]; simpl.
    split_and!; eauto. intros ->. list_in.
Qed.

Lemma settled_grows w w' id l l' q :
  attempts (mem w') = attempts (mem w) ++ l → warned (mem w') = warned (mem w) ++ l' →
  dead_letter_queue (pool w') = dead_letter_queue (pool w) ++ q →
  settled w id → settled w' id.
Proof.
  unfold settled. intros -> -> ->. rewrite !map_app.
  intros [(e & He & ?)|[Hq|[? Hw]]].
  - left. exists e. split; [list_in|done].
  - right; left. list_in.
  - right; right. split; [done|list_in].
Qed.

Lemma DLQ_Insert_spec entry (w : world) :
  let r := DLQ_Insert entry w in
  mem r.2 = mem w ∧ outbox_events (pool r.2) = outbox_events (pool w)
  ∧ (∃ q, dead_letter_queue (pool r.2) = dead_letter_queue (pool w) ++ q)
  ∧ (r.1 = None → d_ID entry ∈ map q_id (dead_letter_queue (pool r.2))).
Proof.
  unfold DLQ_Insert. pose proof (Exec_mem Pool (stmt_dlq_insert entry) w) as Hm.
  pose proof (Exec_Pool_cases (stmt_dlq_insert entry) w) as Hp.
  assert (Heff : ∃ q, dead_letter_queue (effect (stmt_dlq_insert entry) (here w) (pool w))
                 = dead_letter_queue (pool w) ++ q
            ∧ d_ID entry ∈ map q_id (dead_letter_queue (pool w) ++ q)
            ∧ outbox_events (effect (stmt_dlq_insert entry) (here w) (pool w))
              = outbox_events (pool w)).
  { unfold effect, stmt_dlq_insert. case_decide as Hin; simpl.
    - exists []. by rewrite app_nil_r.
    - eexists. split_and!; [done| |done]. rewrite map_app. simpl. list_in. }
  destruct Heff as (q & Hq & Hin & Hout).
  destruct (Exec Pool _ w) as [[[]|err] w'] eqn:Hex; simpl in *.
  - apply Exec_Pool_ok in Hex as [Hpool _]. rewrite Hpool, Hq, Hout. eauto.
  - split_and!; [done|by destruct Hp as [->| ->]| |done].
    destruct Hp as [->| ->]; [exists []; by rewrite app_nil_r|eauto].
Qed.

Lemma handleExhaustedEntry_spec entry w :
  let r := handleExhaustedEntry entry w in
  outbox_events (pool r.2) = outbox_events (pool w)
  ∧ attempts (mem r.2) = attempts (mem w) ∧ warned (mem r.2) = warned (mem w) ++ [entry]
  ∧ (∃ q, dead_letter_queue (pool r.2) = dead_letter_queue (pool w) ++ q)
  ∧ (r.1 = None → settled r.2 (e_ID entry)).
Proof.
  unfold handleExhaustedEntry. destruct (w_dlq cfg) eqn:Hdlq.
  - unfold moveToDLQ, MarshalHeaders.
    match goal with |- context [DLQ_Insert ?d ?w0] =>
      pose proof (DLQ_Insert_spec d w0) as (Hm & Ho & Hq & Hid);
      destruct (DLQ_Insert d w0) as [[err|] w'] end;
    simpl in *; rewrite Hm; (do 4 (split; [done|])); [done|].
    intros _. right; left. by apply Hid.
  - simpl. split_and!; try done; [exists []; by rewrite app_nil_r|].
    intros _. right; right. split; [done|]. simpl. rewrite map_app. simpl. list_in.
Qed.

Lemma process_entry_spec entry p f w :
  let '(p', f', w') := process_entry entry p f w in
  advances w w' ∧ (Forall (settled w) p → Forall (settled w') p').
Proof.
  unfold process_entry.
  destruct (if bool_decide _ then _ else _) as [r w'] eqn:Hr.
  assert (advances w w' ∧ (r = None → settled w' (e_ID entry))) as [Hadv Hset].
  { case_bool_decide.
    - pose proof (handleExhaustedEntry_spec entry w) as (Ho & Ha & Hw & [q Hq] & Hs).
      rewrite Hr in *. simpl in *. split; [|done]. apply advances_key; [|by rewrite Ho].
      intros id. eapply settled_grows; [|done|done]. by rewrite app_nil_r.
    - pose proof (publishEntry_spec entry w) as (Hp & Hw & [l Ha] & Hs).
      rewrite Hr in *. simpl in *. split; [|intros ->; left; eauto].
      apply advances_key; [|by rewrite Hp].
      intros id. eapply settled_grows; [done| |]; [by rewrite Hw, app_nil_r|].
      by rewrite Hp, app_nil_r. }
  destruct r as [err|]; (split; [done|]); intros Hp.
  - eapply Forall_impl; [done|]. apply Hadv.
  - apply Forall_app. split; [|by apply Forall_singleton, Hset].
    eapply Forall_impl; [done|]. apply Hadv.
Qed.

Lemma Cleanup_cases ret (w : world) :
  mem (Cleanup ret w).2 = mem w
  ∧ (pool (Cleanup ret w).2 = pool w
     ∨ pool (Cleanup ret w).2 = effect (stmt_cleanup ret) (here w) (pool w)).
Proof.
  unfold Cleanup. pose proof (Exec_mem Pool (stmt_cleanup ret) w) as Hm.
  pose proof (Exec_Pool_cases (stmt_cleanup ret) w) as Hp.
  destruct (Exec Pool _ w) as [[n|err] w1]; simpl in *; [|done].
  pose proof (Ping_spec w1) as (Hp' & Hm' & _).
  by destruct (Ping w1) as [[err|] w2]; simpl in *; rewrite Hp', Hm'.
Qed.

Lemma Cleanup_advances ret w :
  (∀ row, row ∈ outbox_events (pool w) → r_published_at row ≠ None → settled w (r_id row)) →
  advances w (Cleanup ret w).2.
Proof.
  intros Hpub. destruct (Cleanup_cases ret w) as (Hm & Hp).
  destruct (Cleanup ret w) as [r w']; simpl in *.
  assert (Hset : ∀ id, settled w id → settled w' id).
  { intros id. apply settled_mem_dlq; [done|]. by destruct Hp as [->| ->]. }
  destruct Hp as [Hp|Hp]; [apply advances_key; [done|by rewrite Hp]|].
  split; [done| |]; rewrite Hp; simpl.
  - intros id (row & -> & Hrow)%list_elem_of_fmap.
    match goal with |- r_id row ∈ ids (filter (λ row, r_id row ∉ ?c) _) ∨ _ =>
      destruct (decide (r_id row ∈ c)) as [Hc|Hc] end.
    + right. apply list_elem_of_fmap in Hc as (row' & Heq & Hin). rewrite Heq.
      apply elem_of_take in Hin as (i & Hi & _). apply list_elem_of_lookup_2 in Hi.
      rewrite scan_order_perm, list_elem_of_filter in Hi. destruct Hi as [Hst Hrow'].
      apply Hset, Hpub; [done|]. unfold stale in Hst. by destruct (r_published_at row').
    + left. apply list_elem_of_fmap_2. by apply list_elem_of_filter.
  - intros row' [_ Hrow']%list_elem_of_filter ?. right. eauto.
Qed.

Lemma wstate_ok_advances w w' st : advances w w' → wstate_ok w st → wstate_ok w' st.
Proof.
  intros Hadv. destruct st; simpl; try done. intros Hp.
  eapply Forall_impl; [done|]. apply Hadv.
Qed.

Lemma wstep_spec token st w :
  wstate_ok w st →
  let r := wstep token st w in advances w r.2 ∧ wstate_ok r.2 r.1.
Proof.
  assert (Hrefl : advances w w) by (by apply advances_key).
  intros Hst. destruct st as [|tok [|e todo] p f|f]; simpl in *.
  - pose proof (ClaimBatch_advances token (batchSize cfg) w) as Hadv.
    destruct (ClaimBatch token (batchSize cfg) w) as [[[|e0 es]|err] w']; simpl in *;
      (split; [done|]); done.
  - split; [|done]. destruct p; [done|]. by apply MarkPublished_advances.
  - pose proof (process_entry_spec e p f w) as Hp.
    destruct (process_entry e p f w) as [[p' f'] w']. destruct Hp as [Hadv Hp]. split; [done|].
    by apply Hp.
  - split; [|done]. destruct f; [done|]. apply ReleaseClaims_advances.
Qed.

Lemma with_env_advances env p w : advances w (with_env env p w).
Proof. by apply advances_key. Qed.

Lemma advances_trans w1 w2 w3 : advances w1 w2 → advances w2 w3 → advances w1 w3.
Proof.
  intros [S1 I1 P1] [S2 I2 P2]. split; [auto| |].
  - intros id Hid. destruct (I1 id Hid) as [?|?]; [auto|]. right. auto.
  - intros row' Hrow' Hp. destruct (P2 row' Hrow' Hp) as [?|(row & Hrow & <- & Hpub)]; [by left|].
    destruct (P1 row Hrow Hpub) as [?|?]; [left; auto|by right].
Qed.

Lemma sys_inv_step s s' : sys_inv s → sys_step s s' → sys_inv s'.
Proof.
  intros Hinv Hstep. destruct Hstep as [s rows d' Hout Hdlq Hnew|s i token env p r|s i|s ret env p].
  - destruct Hinv as [Hpub Hins Hw].
    assert (Hset : ∀ id, settled (s_world s) id → settled (set_pool d' (s_world s)) id).
    { intros id. by apply settled_mem_dlq. }
    split; simpl; [| |].
    + intros row. rewrite Hout, elem_of_app. intros [Hrow|Hrow] Hp; [by apply Hset, Hpub|].
      rewrite Forall_forall in Hnew. by rewrite (Hnew row Hrow) in Hp.
    + intros id. rewrite Hout. unfold ids. rewrite map_app, !elem_of_app.
      intros [Hid|Hid]; [|by left; right].
      destruct (Hins id Hid) as [?|?]; [by left; left|right; by apply Hset].
    + intros i. specialize (Hw i). destruct (workers s i); simpl in *; try done.
      eapply Forall_impl; [done|]. apply Hset.
  - pose proof (with_env_advances env p (s_world s)) as Hadv0.
    destruct (wstep_spec token (workers s i) (with_env env p (s_world s))) as [Hadv Hok].
    { apply (wstate_ok_advances (s_world s)); [done|apply Hinv]. }
    subst r. pose proof (advances_trans _ _ _ Hadv0 Hadv) as Hadv1.
    apply inv_advances; [done|done|]. intros j. destruct (decide (i = j)) as [->|Hne].
    + by rewrite fn_lookup_insert.
    + rewrite fn_lookup_insert_ne by done. eapply wstate_ok_advances; [done|apply Hinv].
  - split; simpl; [apply Hinv|apply Hinv|]. intros j. destruct (decide (i = j)) as [->|Hne].
    + by rewrite fn_lookup_insert.
    + rewrite fn_lookup_insert_ne by done. apply Hinv.
  - pose proof (with_env_advances env p (s_world s)) as Hadv0.
    assert (Hadv : advances (s_world s) (Cleanup ret (with_env env p (s_world s))).2).
    { eapply advances_trans; [done|]. apply Cleanup_advances. apply Hinv. }
    apply inv_advances; [done|done|]. intros j. eapply wstate_ok_advances; [done|apply Hinv].
Qed.

Lemma sys_inv_init m d env : sys_inv (sys_init m d env).
Proof. split; simpl; [intros ? []%elem_of_nil|intros ? []%elem_of_nil|done]. Qed.

Lemma sys_inv_reach s s' : rtc sys_step s s' → sys_inv s → sys_inv s'.
Proof. induction 1; eauto using sys_inv_step. Qed.

(** C1: at-least-once delivery.  In every reachable state of any number of relay workers
    running concurrently, with clients committing events, cleanups, crashes between any two
    calls and any failures of database, broker and circuit breaker, every committed event is
    still pending in the outbox, or the broker has acknowledged it, or it is in the dead letter
    queue (or, when none is configured, was logged as exhausted). *)
Theorem no_event_lost (m : memory) (d : Dom) (env : nat → call) (s : sys) (id : string) :
  rtc sys_step (sys_init m d env) s → id ∈ inserted s →
  pending_row (s_world s) id ∨ settled (s_world s) id.
Proof.
  intros Hreach Hid.
  pose proof (sys_inv_reach _ _ Hreach (sys_inv_init m d env)) as Hinv.
  destruct (inv_inserted s Hinv id Hid) as [(row & -> & Hrow)%list_elem_of_fmap|?]; [|by right].
  destruct (r_published_at row) as [t|] eqn:Hp; [|left; by exists row].
  right. by apply (inv_published s Hinv); [|rewrite Hp].
Qed.

(** ** The polling loop runs in the system *)

Lemma with_env_self w : with_env (calls w) (pos w) w = w.
Proof. by destruct w. Qed.

Lemma wsteps_rtc n token i s :
  let r := wsteps n token (workers s i, s_world s) in
  ∃ s', rtc sys_step s s' ∧ s_world s' = r.2 ∧ workers s' i = r.1 ∧ inserted s' = inserted s.
Proof.
  revert s. induction n as [|n IH]; intros s; [by exists s|].
  rewrite wsteps_S. cbn [fst snd].
  pose proof (step_worker s i token (calls (s_world s)) (pos (s_world s))) as Hstep.
  rewrite with_env_self in Hstep. cbn zeta in Hstep.
  destruct (wstep token (workers s i) (s_world s)) as [st w'] eqn:Hw. cbn [fst snd] in Hstep.
  set (s1 := {| s_world := w'; workers := _; inserted := _ |}) in Hstep.
  destruct (IH s1) as (s' & Hr & Hs). exists s'. split; [by eapply rtc_l|].
  subst s1. simpl in *. by rewrite fn_lookup_insert in Hs.
Qed.

Lemma doPoll_rtc token ls i s :
  workers s i = Idle →
  ∃ s', rtc sys_step s s' ∧ s_world s' = (doPoll token ls (s_world s)).2 ∧ workers s' i = Idle
        ∧ inserted s' = inserted s.
Proof.
  intros Hidle. destruct (poll_wsteps token (s_world s)) as [n Hn].
  destruct (wsteps_rtc n token i s) as (s1 & Hr & Hw & Hst & Hins).
  rewrite Hidle, Hn in Hw, Hst. unfold doPoll.
  destruct (poll token (s_world s)) as [err w1]; simpl in *. case_bool_decide; [|by exists s1].
  pose proof (step_cleanup s1 (retention cfg) (calls w1) (pos w1)) as Hc.
  rewrite Hw, with_env_self in Hc. eexists. split; [by eapply rtc_r|]. done.
Qed.

(** C5: the polling loop is an implementation of the worker state machine: from a state where
    worker [i] is idle, any sequence of ticks and notifications processed by [Start]'s loop is
    a run of the system, with the same tables, broker and log, that leaves the worker idle. *)
Theorem loop_refines_system (evs : list (wakeup * string)) (ls : loop_state) (i : nat) (s : sys) :
  workers s i = Idle →
  ∃ s', rtc sys_step s s' ∧ s_world s' = (foldl loop_step (ls, s_world s) evs).2
        ∧ workers s' i = Idle ∧ inserted s' = inserted s.
Proof.
  revert ls s. induction evs as [|[ev token] evs IH]; intros ls s Hidle; simpl; [by exists s|].
  destruct (doPoll_rtc token ls i s Hidle) as (s1 & Hr & Hw & Hst & Hins).
  unfold loop_step at 2. simpl.
  destruct (doPoll token ls (s_world s)) as [ls1 w1]; simpl in Hw. subst w1.
  destruct ev; simpl.
  - destruct (IH ls1 s1 Hst) as (s2 & ? & ? & ? & ?). exists s2.
    split; [by etrans|]. split_and!; congruence.
  - destruct (IH {| consecutiveErr := consecutiveErr ls1; cycle := cycle ls1;
                    ticker := pollInterval cfg |} s1 Hst) as (s2 & ? & ? & ? & ?).
    exists s2. split; [by etrans|]. split_and!; congruence.
Qed.

(** ** Backoff *)

Definition backoff_ok (ls : loop_state) : Prop :=
  (0 ≤ consecutiveErr ls)%Z
  ∧ (ticker ls = pollInterval cfg
     ∨ (0 < consecutiveErr ls
        ∧ ticker ls = pollInterval cfg * 2 ^ Z.min (consecutiveErr ls) maxBackoffShift))%Z.

Lemma adjustBackoff_ticker ls :
  (0 < pollInterval cfg)%Z → (16 * pollInterval cfg < 2 ^ 63)%Z → (0 < consecutiveErr ls)%Z →
  ticker (adjustBackoff ls)
  = (pollInterval cfg * 2 ^ Z.min (consecutiveErr ls) maxBackoffShift)%Z.
Proof.
  intros Hpos Hmax Herr. unfold adjustBackoff, maxBackoffShift. simpl.
  rewrite Z.shiftl_mul_pow2 by lia. rewrite Z.mul_1_l.
  assert (0 < 2 ^ Z.min (consecutiveErr ls) 4 ≤ 16)%Z.
  { split; [apply Z.pow_pos_nonneg; lia|]. change 16%Z with (2 ^ 4)%Z.
    apply Z.pow_le_mono_r; lia. }
  rewrite (wrap64_id (2 ^ _)) by (unfold int64_range; lia).
  apply wrap64_id. unfold int64_range. nia.
Qed.

Lemma doPoll_backoff token ls w :
  (0 < pollInterval cfg)%Z → (16 * pollInterval cfg < 2 ^ 63)%Z →
  backoff_ok ls → backoff_ok (doPoll token ls w).1.
Proof.
  intros Hpos Hmax [Herr Htick]. unfold doPoll. destruct (poll token w) as [[err|] w1].
  - case_bool_decide; simpl; unfold backoff_ok; cbn [consecutiveErr ticker];
      (split; [lia|]); right; (split; [lia|]);
      apply (adjustBackoff_ticker {| consecutiveErr := consecutiveErr ls + 1; cycle := cycle ls;
               ticker := ticker ls |} Hpos Hmax); simpl; lia.
  - destruct (bool_decide (consecutiveErr ls > 0)%Z); simpl; case_bool_decide;
      unfold backoff_ok; simpl; (split; [done|]); auto.
Qed.

Lemma ticker_range ls :
  (0 < pollInterval cfg)%Z → backoff_ok ls →
  (pollInterval cfg ≤ ticker ls ≤ 16 * pollInterval cfg)%Z.
Proof.
  intros Hpos [He [->|[? ->]]]; [lia|]. unfold maxBackoffShift.
  assert (2 ^ 0 ≤ 2 ^ Z.min (consecutiveErr ls) 4 ≤ 2 ^ 4)%Z as Hpow
    by (split; apply Z.pow_le_mono_r; lia).
  generalize dependent (2 ^ Z.min (consecutiveErr ls) 4)%Z. intros q Hq. simpl in Hq. nia.
Qed.

(** the ticker period stays between the poll interval and sixteen times it, and equals
    the interval scaled by two to the number of consecutive errors (at most 4) or the plain
    interval; a notification always restores the plain interval, also amid errors. *)
Theorem backoff_bounds (evs : list (wakeup * string)) (w : world) :
  (0 < pollInterval cfg)%Z → (16 * pollInterval cfg < 2 ^ 63)%Z →
  let ls := (foldl loop_step (loop_start, w) evs).1 in
  (pollInterval cfg ≤ ticker ls ≤ 16 * pollInterval cfg)%Z
  ∧ backoff_ok ls
  ∧ (∀ pre token, evs = pre ++ [(Notify, token)] → ticker ls = pollInterval cfg).
Proof.
  intros Hpos Hmax.
  assert (Hok : ∀ s, backoff_ok s.1 → backoff_ok (foldl loop_step s evs).1).
  { induction evs as [|[ev token] evs IH]; intros s Hs; simpl; [done|]. apply IH.
    unfold loop_step. simpl. pose proof (doPoll_backoff token s.1 s.2 Hpos Hmax Hs) as [He Ht].
    destruct (doPoll token s.1 s.2) as [st w']. destruct ev; [by split|]. split; [done|by left]. }
  specialize (Hok (loop_start, w)). simpl in Hok.
  specialize (Hok ltac:(split; [simpl; lia|by left])).
  split; [by apply ticker_range|]. split; [done|].
  intros pre token ->. rewrite foldl_app. simpl. unfold loop_step at 1. simpl.
  by destruct (doPoll _ _ _).
Qed.
End Worker.

(** ** A concrete relay *)

(** A breaker that rejects after five failures in a row. *)
Definition execute_five {S : Type} (f : S → option error * S) (cs : nat * S)
    : option error * (nat * S) :=
  if decide (5 ≤ cs.1) then (Some (EText "circuit breaker is open"), cs)
  else match f cs.2 with
       | (Some err, s) => (Some err, (cs.1 + 1, s))
       | (None, s) => (None, (0, s))
       end.
#[refine, export] Instance five_breaker : CircuitBreaker nat := {| Execute := @execute_five |}.
Proof.
  intros S f c s. unfold execute_five. simpl. case_decide; [by left; eauto|]. right.
  destruct (f s) as [[err|] s']; simpl; eauto.
Defined.

(** A broker that keeps what it acknowledged. *)
Definition keep_Publish (evt : baseEvent string) (b : list string) : option error * list string :=
  (None, b ++ [EventID evt]).

Definition sample_cfg : Worker :=
  {| w_dlq := true; w_cb := true; w_notify := false; pollInterval := 10 ^ 9; pollTimeout := defaultPollTimeout; batchSize := 10; maxRetries := 3;
     retention := 10 ^ 12 |}.

Definition sample_memory : memory (B := list string) (C := nat) :=
  {| bus := []; breaker := 0; attempts := []; warned := [] |}.
Definition fresh_row (id : string) : outbox_row :=
  {| r_id := id; r_aggregate_type := "Order"; r_aggregate_id := "o-1";
     r_event_type := "order.created"; r_payload := "{}"; r_trace_id := "";
     r_metadata := []; r_created_at := 10%Z; r_claimed_at := None;
     r_lease_token := Some ""; r_published_at := None; r_retry_count := 0;
     r_last_error := "" |}.

Definition sample_init := sys_init sample_memory tt (calm 30%Z).
Definition sample_committed : sys :=
  {| s_world := set_pool {| outbox_events := [fresh_row "e-1"]; dead_letter_queue := [];
                            domain := tt |} (s_world sample_init);
     workers := workers sample_init; inserted := ["e-1"] |}.
Definition sample_claim := wstep keep_Publish sample_cfg "tok-1" Idle (s_world sample_committed).
Definition sample_claimed : sys :=
  {| s_world := sample_claim.2; workers := <[0%nat := sample_claim.1]> (workers sample_committed);
     inserted := ["e-1"] |}.

Lemma sample_run : rtc (sys_step keep_Publish sample_cfg) sample_init sample_claimed.
Proof.
  eapply rtc_l; [apply (step_commit _ _ sample_init [fresh_row "e-1"]
    {| outbox_events := [fresh_row "e-1"]; dead_letter_queue := []; domain := tt |})|];
    [done|done|by repeat constructor|].
  eapply rtc_l; [|apply rtc_refl].
  exact (step_worker keep_Publish sample_cfg sample_committed 0 "tok-1" (calm 30%Z) 0).
Qed.

Lemma no_event_lost_witness :
  "e-1" ∈ inserted sample_claimed
  ∧ (pending_row (s_world sample_claimed) "e-1"
     ∨ settled sample_cfg (s_world sample_claimed) "e-1").
Proof.
  split; [simpl; list_in|].
  apply (no_event_lost keep_Publish sample_cfg sample_memory tt (calm 30%Z) sample_claimed "e-1");
    [exact sample_run|simpl; list_in].
Defined.

Lemma loop_refines_system_witness :
  ∃ s', rtc (sys_step keep_Publish sample_cfg) sample_committed s'
        ∧ s_world s' = (foldl (loop_step keep_Publish sample_cfg)
                          (loop_start sample_cfg, s_world sample_committed)
                          [(Tick, "tok-1"); (Notify, "tok-2")]).2
        ∧ workers s' 0 = Idle ∧ inserted s' = ["e-1"].
Proof.
  apply (loop_refines_system keep_Publish sample_cfg [(Tick, "tok-1"); (Notify, "tok-2")]
           (loop_start sample_cfg) 0 sample_committed).
  reflexivity.
Defined.

(** The relay delivers the event and marks the row. *)
Example sample_poll :
  let w := (poll keep_Publish sample_cfg "tok-1" (s_world sample_committed)).2 in
  bus (mem w) = ["e-1"] ∧ map r_published_at (outbox_events (pool w)) = [Some 30%Z].
Proof. by vm_compute. Qed.

Lemma backoff_bounds_witness :
  let ls := (foldl (loop_step keep_Publish sample_cfg)
               (loop_start sample_cfg, s_world sample_committed) [(Tick, "tok-1")]).1 in
  (10 ^ 9 ≤ ticker ls ≤ 16 * 10 ^ 9)%Z
  ∧ backoff_ok sample_cfg ls
  ∧ (∀ pre token, [(Tick, "tok-1")] = pre ++ [(Notify, token)] → ticker ls = 10 ^ 9)%Z.
Proof.
  apply (backoff_bounds keep_Publish sample_cfg [(Tick, "tok-1")] (s_world sample_committed));
    reflexivity.
Defined.
