(* ===== verification/UnitOfWork.v ===== *)
(** * The unit of work

    [UnitOfWork.v] models uow/unit_of_work.go.  Aggregates are pointers: the program's memory
    is a heap of aggregate bases, so that two arguments may be the same aggregate.  The outbox
    is reached through the interface [OutboxInserter]; the store of [Outbox.v] implements it. *)

From S2P Require Import Prelude Errors Event Db Outbox.

(** ** The interface of the outbox

    [ob_rows] are the outbox rows of a database and [ob_rest] everything else.  An insert whose
    context carries the transaction leaves the committed rows and the memory alone; when it
    succeeds, the transaction sees one more row, which carries the event. *)
Class OutboxInserter (D H P R T : Type) := {
  ob_Insert : context → baseEvent P → Metadata → world D H → option error * world D H;
  ob_rows : D → list R;
  ob_rest : D → T;
  ob_carries : context → baseEvent P → Metadata → R → Prop;
  ob_Insert_tx ctx evt meta w :
    ctx_tx ctx = SqlTx →
    pool (ob_Insert ctx evt meta w).2 = pool w ∧ mem (ob_Insert ctx evt meta w).2 = mem w
    ∧ ((ob_Insert ctx evt meta w).1 = None →
       ob_rest (tx_view (ob_Insert ctx evt meta w).2) = ob_rest (tx_view w)
       ∧ ∃ row, ob_rows (tx_view (ob_Insert ctx evt meta w).2) = ob_rows (tx_view w) ++ [row]
                ∧ ob_carries ctx evt meta row)
}.

(** ** Operations *)

Definition loc := nat.

Section UnitOfWork.
Context {D P R T : Type}.
Notation heap := (gmap loc (Base P)).
Context `{OutboxInserter D heap P R T}.
Notation world := (world D heap).

(** The [UnitOfWork] struct keeps the source; the runner is [RunInTx] and the inserter the
    class instance. *)
Record UnitOfWork := { source : string }.

(** [New]: the presence of the two collaborators is all that is checked of them. *)
Definition New (has_txRunner has_outboxStore : bool) (src : string) : outcome UnitOfWork :=
  if negb has_txRunner then Panics "uow: txRunner must not be nil"
  else if negb has_outboxStore then Panics "uow: outboxStore must not be nil"
  else if (src =? "")%string then Panics "uow: source must not be empty"
  else Returns {| source := src |}.

Fixpoint insert_events (txCtx : context) (meta : Metadata) (evts : list (baseEvent P)) (w : world)
    : option error * world :=
  match evts with
  | [] => (None, w)
  | evt :: rest =>
      match ob_Insert txCtx evt meta w with
      | (Some err, w) =>
          (Some (Errorf_w ("uow: publish event " +:+ Quote (EventType evt) +:+ ": ") err), w)
      | (None, w) => insert_events txCtx meta rest w
      end
  end.

Definition source_meta (u : UnitOfWork) : Metadata :=
  {| TraceID := ""; CorrelationID := ""; CausationID := ""; Source := source u |}.

Definition publishEvents (u : UnitOfWork) (txCtx : context) (agg : loc) (w : world)
    : outcome (option error) * world :=
  match mem w !! agg with
  | None => (Panics "invalid memory address or nil pointer dereference", w)
  | Some b =>
      let '(evts, b') := ClearEvents b in
      let '(r, w) := insert_events txCtx (source_meta u) evts (set_mem (<[agg := b']> (mem w)) w) in
      (Returns r, w)
  end.

Fixpoint publishAll (u : UnitOfWork) (txCtx : context) (aggs : list loc) (w : world)
    : outcome (option error) * world :=
  match aggs with
  | [] => (Returns None, w)
  | agg :: rest =>
      match publishEvents u txCtx agg w with
      | (Returns None, w) => publishAll u txCtx rest w
      | r => r
      end
  end.

Definition body := context → world → outcome (option error) * world.

Definition Execute (u : UnitOfWork) (ctx : context) (agg : loc) (fn : body) (w : world)
    : outcome (option error) * world :=
  RunInTx ctx (λ txCtx w,
    match fn txCtx w with
    | (Returns None, w) => publishEvents u txCtx agg w
    | r => r
    end) w.

Definition ExecuteMulti (u : UnitOfWork) (ctx : context) (aggs : list loc) (fn : body) (w : world)
    : outcome (option error) * world :=
  RunInTx ctx (λ txCtx w,
    match fn txCtx w with
    | (Returns None, w) => publishAll u txCtx aggs w
    | r => r
    end) w.

(** ** Properties *)

(** The events of the aggregates in the order they are drained: an aggregate that is listed
    twice has none left the second time. *)
Fixpoint drained (aggs : list loc) (h : heap) : list (baseEvent P) :=
  match aggs with
  | [] => []
  | agg :: rest =>
      match h !! agg with
      | None => []
      | Some b => events b ++ drained rest (<[agg := set_events [] b]> h)
      end
  end.

Lemma insert_events_spec txCtx meta evts w :
  ctx_tx txCtx = SqlTx →
  let r := insert_events txCtx meta evts w in
  pool r.2 = pool w ∧ mem r.2 = mem w
  ∧ (r.1 = None →
     ob_rest (tx_view r.2) = ob_rest (tx_view w)
     ∧ ∃ rows, ob_rows (tx_view r.2) = ob_rows (tx_view w) ++ rows
               ∧ Forall2 (λ evt row, ob_carries txCtx evt meta row) evts rows).
Proof.
  intros Htx. revert w. induction evts as [|evt evts IH]; intros w; simpl.
  { split_and!; try done. intros _. split; [done|]. exists []. by rewrite app_nil_r. }
  destruct (ob_Insert_tx txCtx evt meta w Htx) as (Hp & Hm & Hok).
  destruct (ob_Insert txCtx evt meta w) as [[err|] w1]; simpl in *; [done|].
  destruct (Hok eq_refl) as (Hrest & row & Hrow & Hcar).
  destruct (IH w1) as (Hp1 & Hm1 & Hok1). split_and!; [congruence..|].
  intros Hr. destruct (Hok1 Hr) as (Hrest1 & rows & Hrows & Hall). split; [congruence|].
  exists (row :: rows). split; [|by constructor]. by rewrite Hrows, Hrow, <- app_assoc.
Qed.

Lemma publishAll_other u txCtx aggs w a :
  ctx_tx txCtx = SqlTx → a ∉ aggs → mem (publishAll u txCtx aggs w).2 !! a = mem w !! a.
Proof.
  intros Htx. revert w. induction aggs as [|agg aggs IH]; intros w; simpl; [done|].
  intros [Hne Hnin]%not_elem_of_cons. unfold publishEvents.
  destruct (mem w !! agg) as [b|] eqn:Hb; [|done]. simpl.
  destruct (insert_events_spec txCtx (source_meta u) (events b)
    (set_mem (<[agg := set_events [] b]> (mem w)) w) Htx) as (_ & Hm & _).
  destruct (insert_events _ _ _ _) as [[err|] w1]; simpl in *; rewrite ?IH by done; rewrite Hm;
    by rewrite lookup_insert_ne.
Qed.

(** What [publishAll] may do: nothing but writes of the transaction and drained aggregates. *)
Lemma publishAll_spec u txCtx aggs w :
  ctx_tx txCtx = SqlTx →
  let r := publishAll u txCtx aggs w in
  pool r.2 = pool w
  ∧ (r.1 = Returns None →
     ob_rest (tx_view r.2) = ob_rest (tx_view w)
     ∧ (∃ rows, ob_rows (tx_view r.2) = ob_rows (tx_view w) ++ rows
                ∧ Forall2 (λ evt row, ob_carries txCtx evt (source_meta u) row)
                    (drained aggs (mem w)) rows)
     ∧ ∀ agg, agg ∈ aggs → ∃ b, mem r.2 !! agg = Some b ∧ events b = []).
Proof.
  intros Htx. revert w. induction aggs as [|agg aggs IH]; intros w; simpl.
  { split; [done|]. intros _. split_and!; [done| |intros ? []%elem_of_nil].
    exists []. by rewrite app_nil_r. }
  unfold publishEvents. destruct (mem w !! agg) as [b|] eqn:Hb; [|done]. simpl.
  set (w0 := set_mem (<[agg := set_events [] b]> (mem w)) w).
  destruct (insert_events_spec txCtx (source_meta u) (events b) w0 Htx) as (Hp & Hm & Hok).
  destruct (insert_events _ _ _ w0) as [[err|] w1]; subst w0; simpl in *; [done|].
  destruct (Hok eq_refl) as (Hrest & rows & Hrows & Hall).
  change (tx_view (set_mem _ w)) with (tx_view w) in *.
  destruct (IH w1) as (Hp1 & Hok1). split; [congruence|].
  intros Hr. destruct (Hok1 Hr) as (Hrest1 & (rows1 & Hrows1 & Hall1) & Hclr).
  split_and!; [congruence| |].
  - exists (rows ++ rows1). rewrite Hrows1, Hrows, <- app_assoc. split; [done|].
    apply Forall2_app; [done|]. by rewrite Hm in Hall1.
  - intros a [->|Ha]%elem_of_cons; [|by apply Hclr].
    destruct (decide (agg ∈ aggs)) as [Hin|Hnin]; [by apply Hclr|].
    exists (set_events [] b). split; [|done].
    rewrite (publishAll_other _ _ _ _ _ Htx Hnin). by rewrite Hm, lookup_insert_eq.
Qed.

(** The database [d'] has exactly the writes of [fn] and, after them, one outbox row per
    drained event, in order. *)
Definition committed_by (u : UnitOfWork) (txCtx : context) (aggs : list loc) (fn : body)
    (w : world) (d' : D) : Prop :=
  ∃ w0 w1, tx_writes w0 = [] ∧ pool w0 = pool w ∧ mem w0 = mem w
    ∧ fn txCtx w0 = (Returns None, w1)
    ∧ ob_rest d' = ob_rest (tx_view w1)
    ∧ ∃ rows, ob_rows d' = ob_rows (tx_view w1) ++ rows
              ∧ Forall2 (λ evt row, ob_carries txCtx evt (source_meta u) row)
                  (drained aggs (mem w1)) rows.

Lemma ExecuteMulti_cases (u : UnitOfWork) (ctx : context) (aggs : list loc) (fn : body) (w : world) :
  (∀ txCtx, only_through_tx (fn txCtx)) →
  match ExecuteMulti u ctx aggs fn w with
  | (Returns None, w') =>
      committed_by u (Inject ctx SqlTx) aggs fn w (pool w')
      ∧ ∀ agg, agg ∈ aggs → ∃ b, mem w' !! agg = Some b ∧ events b = []
  | (Returns (Some _), w') =>
      pool w' = pool w ∨ committed_by u (Inject ctx SqlTx) aggs fn w (pool w')
  | (_, w') => pool w' = pool w
  end.
Proof.
  intros Hfn. unfold ExecuteMulti, RunInTx. set (txCtx := Inject ctx SqlTx).
  set (g := λ w, match fn txCtx w with (Returns None, w) => publishAll u txCtx aggs w | r => r end).
  assert (Htx : ctx_tx txCtx = SqlTx) by done.
  assert (Hg : only_through_tx g).
  { intros w0. subst g. simpl. pose proof (Hfn txCtx w0) as Hp.
    destruct (fn txCtx w0) as [[[err|]|p|] w1]; simpl in *; try done.
    by rewrite (proj1 (publishAll_spec u txCtx aggs w1 Htx)). }
  assert (Hcom : ∀ w0 w2, tx_writes w0 = [] → pool w0 = pool w → mem w0 = mem w →
     g w0 = (Returns None, w2) →
     committed_by u txCtx aggs fn w (tx_view w2)
     ∧ ∀ agg, agg ∈ aggs → ∃ b, mem w2 !! agg = Some b ∧ events b = []).
  { intros w0 w2 ? ? ?. subst g. simpl. destruct (fn txCtx w0) as [[[err|]|p|] w1] eqn:Hrun; try done.
    intros Hpub. destruct (publishAll_spec u txCtx aggs w1 Htx) as [_ Hok]. rewrite Hpub in Hok.
    destruct (Hok eq_refl) as (? & ? & ?). split; [|done]. by exists w0, w1. }
  pose proof (WithTx_cases g w Hg) as Hres. fold g.
  destruct (WithTx g w) as [r w']; simpl in Hres.
  destruct Hres as [err w' Hp ?|p w0 w1 w' ? ? ? ? Hp ?|w0 w1 ? ? ? ? Hp|err err' w0 w1 w' ? ? ? ? Hp ?
    |w0 w1 w' ? ? ? Hrun Hp Hm|err w0 w1 w' ? ? ? Hrun Hp Hm]; try (by left); try done.
  - rewrite Hp, Hm. by eapply Hcom.
  - destruct Hp as [Hp|Hp]; [by left|]. right. rewrite Hp. by eapply Hcom.
Qed.

(** C2: domain state and outbox are atomic: when [ExecuteMulti] returns nil the database holds
    the writes of [fn] and one row for each pending event of the aggregates, in order, and the
    aggregates are drained; when it returns an error, panics or never returns it holds none of them, except
    that a failed commit may have taken effect as a whole. *)
Theorem ExecuteMulti_atomic (u : UnitOfWork) (ctx : context) (aggs : list loc) (fn : body) (w : world) :
  (∀ txCtx, only_through_tx (fn txCtx)) →
  match ExecuteMulti u ctx aggs fn w with
  | (Returns None, w') =>
      committed_by u (Inject ctx SqlTx) aggs fn w (pool w')
      ∧ ∀ agg, agg ∈ aggs → ∃ b, mem w' !! agg = Some b ∧ events b = []
  | (Returns (Some _), w') =>
      pool w' = pool w ∨ committed_by u (Inject ctx SqlTx) aggs fn w (pool w')
  | (_, w') => pool w' = pool w
  end.
Proof. apply ExecuteMulti_cases. Qed.

Lemma publishEvents_drains u txCtx agg w :
  ctx_tx txCtx = SqlTx → is_Some (mem w !! agg) →
  ∃ r b, (publishEvents u txCtx agg w).1 = Returns r
         ∧ mem (publishEvents u txCtx agg w).2 !! agg = Some b ∧ events b = [].
Proof.
  intros Htx [b Hb]. unfold publishEvents. rewrite Hb. simpl.
  set (w0 := set_mem (<[agg := set_events [] b]> (mem w)) w).
  destruct (insert_events_spec txCtx (source_meta u) (events b) w0 Htx) as (_ & Hm & _).
  destruct (insert_events _ _ _ w0) as [r w1]; simpl in *. exists r, (set_events [] b).
  split_and!; try done. by rewrite Hm; simpl; rewrite lookup_insert_eq.
Qed.

(** rolling back does not restore the aggregate: once [fn] has succeeded, the pending
    events are gone from memory whatever happens next, so after a failed insert or commit a
    retry with the same aggregate publishes nothing. *)
Theorem failed_Execute_drains (u : UnitOfWork) (ctx : context) (agg : loc) (fn : body) (w w' : world)
    (err : error) :
  c_fault (here w) = NoFault →
  (∀ c w0, mem w0 = mem w → ∃ w1, fn c w0 = (Returns None, w1) ∧ is_Some (mem w1 !! agg)) →
  Execute u ctx agg fn w = (Returns (Some err), w') →
  ∃ b, mem w' !! agg = Some b ∧ events b = [].
Proof.
  intros Hbegin Hfn. unfold Execute, RunInTx, WithTx, BeginTx. rewrite Hbegin.
  set (txCtx := Inject ctx SqlTx).
  destruct (Hfn txCtx (set_tx [] (tick w)) eq_refl) as (w1 & -> & Hagg).
  destruct (publishEvents_drains u txCtx agg w1 eq_refl Hagg) as (r & b & Hr & Hb & He).
  destruct (publishEvents u txCtx agg w1) as [o w2]; simpl in *. subst o.
  intros Hres. exists b. split; [|done]. rewrite <- Hb. destruct r as [e|].
  - pose proof (Rollback_spec w2) as (_ & Hm & _).
    destruct (Rollback w2) as [[?|] w3]; simpl in *; simplify_eq; by rewrite Hm.
  - pose proof (Commit_spec w2) as (Hm & _).
    destruct (Commit w2) as [[?|] w3]; simpl in *; simplify_eq; by rewrite Hm.
Qed.
End UnitOfWork.

(** ** The outbox store implements the interface *)
Section Store.
Context {P Dom H : Type}.
Context (json_Marshal : option P → result error string).
Context (jsonb : string → result error string).
Context (lease_default : option string).
Context (unique_violation : string → error).

#[export, refine] Instance store_inserter
    : OutboxInserter (database Dom) H P outbox_row (list dlq_row * Dom) := {|
  ob_Insert := Insert json_Marshal jsonb lease_default unique_violation;
  ob_rows := outbox_events;
  ob_rest d := (dead_letter_queue d, domain d);
  ob_carries := inserted_row json_Marshal jsonb lease_default
|}.
Proof.
  intros ctx evt meta w Htx.
  assert (Hexec : executor ctx = Tx) by (unfold executor, Extract; by rewrite Htx).
  pose proof (Insert_cases json_Marshal jsonb lease_default unique_violation ctx evt meta w)
    as (Hm & Hp & Hok).
  rewrite Hexec in *. split_and!; [by apply Hp|done|].
  intros Hr. destruct (Hok Hr) as (row & Hv & _ & Hrow). unfold view in Hv. rewrite Hv.
  split; [done|]. by exists row.
Defined.
End Store.

(** ** A concrete unit of work

    The repository appends the aggregate's identifier to its table. *)
Definition sample_marshal (p : option string) : result error string := Ok (default "null" p).
Definition sample_store : OutboxInserter (database (list string)) (gmap loc (Base string)) string
    outbox_row (list dlq_row * list string) :=
  store_inserter sample_marshal Ok (Some "") (λ id, EText ("duplicate key " +:+ id)).
#[local] Existing Instance sample_store.

Definition sample_fn : body (D := database (list string)) (P := string) := λ _ w,
  match Exec Tx (λ _ d, Ok (tt, {| outbox_events := outbox_events d;
                   dead_letter_queue := dead_letter_queue d; domain := domain d ++ ["o-1"] |})) w with
  | (Ok _, w) => (Returns None, w)
  | (Err _, w) => (Returns None, w)
  end.

Definition sample_agg : Base string :=
  AddDomainEvent "e-1" 10%Z "order.created" (Some "{}") [] (NewBase 5%Z "o-1" "Order").

(** The fourth call, the commit, fails before its effect when [broken] is set. *)
Definition sample_env (broken : bool) : nat → call := λ n,
  {| c_now := 30%Z; c_locked := λ _, false;
     c_fault := if broken && (n =? 3)%nat then FailBefore (EText "connection reset") else NoFault |}.
Definition sample_start (broken : bool) : world (database (list string)) (gmap loc (Base string)) :=
  {| pool := {| outbox_events := []; dead_letter_queue := []; domain := [] |}; tx_writes := [];
     mem := {[ 1%nat := sample_agg ]}; calls := sample_env broken; pos := 0 |}.
Definition sample_uow : UnitOfWork := {| source := "orders" |}.
Definition sample_ctx : context :=
  {| ctx_tx := RawNil; ctx_trace_id := "t-1"; ctx_request_id := "r-1" |}.

Lemma sample_fn_tx : ∀ txCtx, only_through_tx (sample_fn txCtx).
Proof.
  intros txCtx w. unfold sample_fn. set (stmt := λ _ _, Ok _).
  pose proof (Exec_Tx_pool stmt w) as Hp. by destruct (Exec Tx stmt w) as [[]?].
Qed.

(** The successful run: the domain row and the outbox row are both committed. *)
Example sample_commit :
  let r := ExecuteMulti sample_uow sample_ctx [1%nat; 1%nat] sample_fn (sample_start false) in
  r.1 = Returns None ∧ domain (pool r.2) = ["o-1"] ∧ ids (outbox_events (pool r.2)) = ["e-1"].
Proof. by vm_compute. Qed.

Lemma ExecuteMulti_atomic_witness :
  match ExecuteMulti sample_uow sample_ctx [1%nat; 1%nat] sample_fn (sample_start false) with
  | (Returns None, w') =>
      committed_by sample_uow (Inject sample_ctx SqlTx) [1%nat; 1%nat] sample_fn
        (sample_start false) (pool w')
      ∧ ∀ agg, agg ∈ [1%nat; 1%nat] → ∃ b, mem w' !! agg = Some b ∧ events b = []
  | (Returns (Some _), w') =>
      pool w' = pool (sample_start false)
      ∨ committed_by sample_uow (Inject sample_ctx SqlTx) [1%nat; 1%nat] sample_fn
          (sample_start false) (pool w')
  | (_, w') => pool w' = pool (sample_start false)
  end.
Proof.
  apply (ExecuteMulti_atomic sample_uow sample_ctx [1%nat; 1%nat] sample_fn (sample_start false)).
  exact sample_fn_tx.
Defined.

Definition sample_failed := (Execute sample_uow sample_ctx 1%nat sample_fn (sample_start true)).2.

(** The failed commit: nothing is stored, and the aggregate's event is gone. *)
Lemma failed_Execute_drains_witness :
  pool sample_failed = pool (sample_start true)
  ∧ events sample_agg ≠ []
  ∧ ∃ b, mem sample_failed !! 1%nat = Some b ∧ events b = [].
Proof.
  split; [reflexivity|]. split; [done|].
  apply (failed_Execute_drains sample_uow sample_ctx 1%nat sample_fn (sample_start true)
    sample_failed (Errorf_w "db: commit tx: " (EText "connection reset"))).
  - reflexivity.
  - intros c w0 Hm. unfold sample_fn. set (stmt := λ _ _, Ok _).
    pose proof (Exec_mem Tx stmt w0) as Hm'. rewrite Hm in Hm'.
    destruct (Exec Tx stmt w0) as [[] w1]; simpl in Hm'; exists w1; (split; [done|]); rewrite Hm'; by eexists.
  - vm_compute. reflexivity.
Defined.
