(* ===== verification/Auth.v ===== *)
(** * Authentication and authorisation

    [Auth.v] models auth/claims.go and auth/context.go, the JWT service and the token blacklists
    of infra/auth, and the authentication and role checks of infra/middleware/http (auth.go,
    rbac.go) and infra/middleware/grpc (auth.go, rbac.go).  The JWT library, the cache client and
    the circuit breaker are interfaces. *)

From S2P Require Import Prelude Errors GoText Event Outbox OutboxWorker.

(** ** auth/claims.go *)

(** The sets are built by [NewUserClaims], or on first use; [None] is a nil set. *)
Record UserClaims := {
  UserID : string; Email : string; Roles : list string; Permissions : list string;
  SessionID : string; IssuedAt : time; ExpiresAt : time;
  roleSet : option (gset string); permSet : option (gset string); initOnce : bool
}.

Definition NewSet (values : list string) : gset string :=
  foldl (λ s v, {[v]} ∪ s) ∅ values.

Definition NewUserClaims (userID email : string) (roles permissions : list string)
    (sessionID : string) (issuedAt expiresAt : time) : UserClaims :=
  {| UserID := userID; Email := email; Roles := roles; Permissions := permissions;
     SessionID := sessionID; IssuedAt := issuedAt; ExpiresAt := expiresAt;
     roleSet := Some (NewSet roles); permSet := Some (NewSet permissions); initOnce := false |}.

Definition ensureSets (c : UserClaims) : UserClaims :=
  if initOnce c then c
  else {| UserID := UserID c; Email := Email c; Roles := Roles c; Permissions := Permissions c;
          SessionID := SessionID c; IssuedAt := IssuedAt c; ExpiresAt := ExpiresAt c;
          roleSet := match roleSet c with None => Some (NewSet (Roles c)) | s => s end;
          permSet := match permSet c with None => Some (NewSet (Permissions c)) | s => s end;
          initOnce := true |}.

(** Membership in a possibly nil set. *)
Definition Contains (s : option (gset string)) (v : string) : bool :=
  bool_decide (v ∈ default ∅ s).
Definition ContainsAny (s : option (gset string)) (items : list string) : bool :=
  existsb (Contains s) items.
Definition ContainsAll (s : option (gset string)) (items : list string) : bool :=
  forallb (Contains s) items.

Definition HasRole (c : UserClaims) (role : string) : bool * UserClaims :=
  let c := ensureSets c in (Contains (roleSet c) role, c).
Definition HasPermission (c : UserClaims) (perm : string) : bool * UserClaims :=
  let c := ensureSets c in (Contains (permSet c) perm, c).
Definition HasAnyRole (c : UserClaims) (roles : list string) : bool * UserClaims :=
  let c := ensureSets c in (ContainsAny (roleSet c) roles, c).
Definition HasAllPermissions (c : UserClaims) (perms : list string) : bool * UserClaims :=
  let c := ensureSets c in (ContainsAll (permSet c) perms, c).
Definition IsExpired (c : UserClaims) (now : time) : bool := bool_decide (ExpiresAt c < now)%Z.

(** ** auth/context.go *)

(** The values of a context, the innermost first; a claims pointer may be nil. *)
Inductive ctx_key := claimsKey | otherKey (k : string).
Inductive ctx_value := VClaims (c : option UserClaims) | VOther.
Definition ctx_values : Type := list (ctx_key * ctx_value).
Fixpoint ctx_Value (ctx : ctx_values) (is_key : ctx_key → bool) : option ctx_value :=
  match ctx with
  | [] => None
  | (k, v) :: ctx => if is_key k then Some v else ctx_Value ctx is_key
  end.
Definition is_claimsKey (k : ctx_key) : bool := match k with claimsKey => true | otherKey _ => false end.

Definition WithClaims (ctx : ctx_values) (claims : option UserClaims) : ctx_values :=
  (claimsKey, VClaims claims) :: ctx.
Definition ClaimsFromContext (ctx : ctx_values) : option UserClaims :=
  match ctx_Value ctx is_claimsKey with Some (VClaims c) => c | _ => None end.
Definition MustClaimsFromContext (ctx : ctx_values) : outcome UserClaims :=
  match ClaimsFromContext ctx with
  | None => Panics "auth: claims not found in context -- missing auth middleware?"
  | Some c => Returns c
  end.
Definition UserIDFromContext (ctx : ctx_values) : string :=
  match ClaimsFromContext ctx with None => "" | Some c => UserID c end.

(** Values stored under other keys do not hide the claims, and the innermost claims count. *)
Lemma ClaimsFromContext_innermost (outer ctx : ctx_values) (c : option UserClaims) :
  Forall (λ kv, kv.1 ≠ claimsKey) outer →
  ClaimsFromContext (outer ++ WithClaims ctx c) = c.
Proof.
  unfold ClaimsFromContext. induction 1 as [|[[|k] v] outer Hk Hall IH]; [done|done|exact IH].
Qed.

(** ** Blacklists *)

(** [auth.TokenBlacklist]; the implementation's state holds its clock and its store. *)
Class TokenBlacklist (B : Type) := {
  IsBlacklisted : string → B → result error bool * B;
  Blacklist : string → time → B → option error * B
}.

(** blacklist_noop.go *)
Definition NoopBlacklist : TokenBlacklist unit := {|
  IsBlacklisted _ s := (Ok false, s);
  Blacklist _ _ s := (None, s)
|}.

(** The part of [cache.Client] the blacklist uses. *)
Class CacheClient (K : Type) := {
  cache_Get : string → K → result error string * K;
  cache_Set : string → string → Z → K → option error * K
}.
Definition ErrCacheMiss : error := ESentinel "cache: miss".

Definition blacklistKey (jti : string) : string := "bl:" +:+ jti.

(** blacklist_redis.go; the state is the wall clock that [time.Until] reads and the cache. *)
Record redis (K : Type) := { wall : time; cache : K }.
Arguments wall {K} _.
Arguments cache {K} _.

Section RedisBlacklist.
Context `{CacheClient K}.

Definition redis_IsBlacklisted (jti : string) (s : redis K) : result error bool * redis K :=
  match cache_Get (blacklistKey jti) (cache s) with
  | (Ok _, k) => (Ok true, {| wall := wall s; cache := k |})
  | (Err err, k) =>
      (if errors_Is err ErrCacheMiss then Ok false else Err err, {| wall := wall s; cache := k |})
  end.
Definition redis_Blacklist (jti : string) (expiresAt : time) (s : redis K)
    : option error * redis K :=
  let ttl := (expiresAt - wall s)%Z in
  if bool_decide (ttl ≤ 0)%Z then (None, s)
  else let '(err, k) := cache_Set (blacklistKey jti) "1" ttl (cache s) in
       (err, {| wall := wall s; cache := k |}).
#[global] Instance RedisBlacklist : TokenBlacklist (redis K) := {|
  IsBlacklisted := redis_IsBlacklisted;
  Blacklist := redis_Blacklist
|}.
End RedisBlacklist.

(** blacklist_resilient.go.  The breaker of [OutboxWorker.v] runs a function that returns an
    error; the boolean the inner call returned travels in the state. *)
Section ResilientBlacklist.
Context {C B : Type} `{CircuitBreaker C} `{TokenBlacklist B}.

Definition checked_call (jti : string) (s : option bool * B) : option error * (option bool * B) :=
  match IsBlacklisted jti s.2 with
  | (Ok b, bl) => (None, (Some b, bl))
  | (Err err, bl) => (Some err, (s.1, bl))
  end.
Definition resilient_IsBlacklisted (jti : string) (s : C * B) : result error bool * (C * B) :=
  match Execute (checked_call jti) (s.1, (None, s.2)) with
  | (Some _, (c, (_, bl))) => (Ok false, (c, bl))
  | (None, (c, (Some blacklisted, bl))) => (Ok blacklisted, (c, bl))
  | (None, (c, (None, bl))) => (Ok false, (c, bl))
  end.
Definition resilient_Blacklist (jti : string) (expiresAt : time) (s : C * B)
    : option error * (C * B) :=
  let '(err, bl) := Blacklist jti expiresAt s.2 in (err, (s.1, bl)).
Definition ResilientBlacklist : TokenBlacklist (C * B) := {|
  IsBlacklisted := resilient_IsBlacklisted;
  Blacklist := resilient_Blacklist
|}.
End ResilientBlacklist.

(** ** jwt_service.go *)

Record JWTConfig := {
  SigningMethod : string; SecretKey : string; PrivateKeyPath : string; PublicKeyPath : string;
  AccessTokenTTL : Z; RefreshTokenTTL : Z; Issuer : string; Audience : list string
}.

(** [customClaims] with the embedded [jwt.RegisteredClaims]. *)
Record customClaims := {
  c_Issuer : string; c_Subject : string; c_Audience : list string;
  c_IssuedAt : option time; c_ExpiresAt : option time; c_NotBefore : option time; c_ID : string;
  c_Email : string; c_Roles : list string; c_Permissions : list string;
  c_SessionID : string; c_TokenType : string
}.
#[export] Instance customClaims_eq_dec : EqDecision customClaims.
Proof. solve_decision. Defined.

Definition second : Z := 10 ^ 9.
Definition TokenTypeAccess := "access".
Definition TokenTypeRefresh := "refresh".
Definition sessionBlacklistPrefix := "session:".
Definition sessionActiveCacheTTL : Z := 30 * second.

(** What the service relies on of github.com/golang-jwt/jwt/v5: dates are truncated to seconds;
    parsing checks the issuer, the audience, the expiry and the start of validity with the
    leeway, and accepts a token that was signed with the matching key and passes these checks.
    [key_pair] relates a signing key to the key that verifies its signatures. *)
Class Jwt (Key : Type) := {
  NewNumericDate : time → time;
  SignedString : string → Key → customClaims → result error string;
  ParseWithClaims : Key → list string → string → string → Z → time → string
                    → result error (option customClaims * bool);
  key_pair : string → Key → Key → Prop;
  NewNumericDate_floor t : (NewNumericDate t ≤ t < NewNumericDate t + second)%Z;
  Parse_valid vk methods issuer audience leeway now tok oc valid :
    ParseWithClaims vk methods issuer audience leeway now tok = Ok (oc, valid) →
    valid = true ∧ ∃ c, oc = Some c ∧ c_Issuer c = issuer ∧ audience ∈ c_Audience c
      ∧ (∀ e, c_ExpiresAt c = Some e → now < e + leeway)%Z
      ∧ (∀ n, c_NotBefore c = Some n → n ≤ now + leeway)%Z;
  Parse_signed method sk vk issuer audience leeway now c tok :
    SignedString method sk c = Ok tok → key_pair method sk vk →
    c_Issuer c = issuer → audience ∈ c_Audience c →
    (∀ e, c_ExpiresAt c = Some e → now < e + leeway)%Z →
    (∀ n, c_NotBefore c = Some n → n ≤ now + leeway)%Z →
    ParseWithClaims vk [method] issuer audience leeway now tok = Ok (Some c, true)
}.

Record TokenParams := {
  p_UserID : string; p_Email : string; p_Roles : list string; p_Permissions : list string;
  p_SessionID : string
}.
Record TokenPair := {
  AccessToken : string; RefreshToken : string; tp_TokenType : string; ExpiresIn : Z;
  tp_ExpiresAt : time
}.
Record RefreshClaims := { r_UserID : string; r_SessionID : string; r_JTI : string; r_ExpiresAt : time }.

Local Open Scope go_scope.

Section JWTService.
Context {Key B D : Type} `{!Jwt Key} `{!TokenBlacklist B}.
(** HMAC keys, the PEM files, and [int64(d.Seconds())]. *)
Context (hmacKey : string → Key) (loadRSAPrivateKey loadRSAPublicKey : string → result error Key).
Context (int_seconds : Z → Z).
(** The library's error values. *)
Context (ErrTokenExpired ErrTokenMalformed ErrSignatureInvalid ErrTokenNotValidYet : error).

(** [sessionChecker.IsSessionRevoked] reads the database [D]. *)
Record JWTService := {
  cfg : JWTConfig;
  sessionChecker : option (string → D → result error bool);
  signingKey : Key; verifyKey : Key; method : string
}.
(** What the service changes: the blacklist and the negative cache; and the database. *)
Record svc := { blacklist : B; activeCache : gmap string time; db : D }.

Definition set_blacklist (b : B) (s : svc) : svc :=
  {| blacklist := b; activeCache := activeCache s; db := db s |}.
Definition set_cache (m : gmap string time) (s : svc) : svc :=
  {| blacklist := blacklist s; activeCache := m; db := db s |}.

Definition NewJWTService (c : JWTConfig) : result error JWTService :=
  if negb (length (Audience c) =? 1) then
    Err (EText ("jwt: exactly one audience must be configured, got "
                +:+ pretty (N.of_nat (length (Audience c)))))
  else if (SigningMethod c =? "HS256")%string then
    Ok {| cfg := c; sessionChecker := None; signingKey := hmacKey (SecretKey c);
          verifyKey := hmacKey (SecretKey c); method := "HS256" |}
  else if (SigningMethod c =? "RS256")%string then
    match loadRSAPrivateKey (PrivateKeyPath c) with
    | Err err => Err (Errorf_w "jwt: load private key: " err)
    | Ok privateKey =>
        match loadRSAPublicKey (PublicKeyPath c) with
        | Err err => Err (Errorf_w "jwt: load public key: " err)
        | Ok publicKey =>
            Ok {| cfg := c; sessionChecker := None; signingKey := privateKey;
                  verifyKey := publicKey; method := "RS256" |}
        end
    end
  else Err (EText ("jwt: unsupported signing method " +:+ Quote (SigningMethod c))).

Definition SetSessionRevocationChecker (c : string → D → result error bool) (s : JWTService)
    : JWTService :=
  {| cfg := cfg s; sessionChecker := Some c; signingKey := signingKey s;
     verifyKey := verifyKey s; method := method s |}.

Definition sign (s : JWTService) (claims : customClaims) : result error string :=
  SignedString (method s) (signingKey s) claims.

Definition access_claims (s : JWTService) (now : time) (jti : string) (params : TokenParams)
    : customClaims :=
  {| c_Issuer := Issuer (cfg s); c_Subject := p_UserID params; c_Audience := Audience (cfg s);
     c_IssuedAt := Some (NewNumericDate now);
     c_ExpiresAt := Some (NewNumericDate (now + AccessTokenTTL (cfg s))%Z);
     c_NotBefore := Some (NewNumericDate now); c_ID := jti;
     c_Email := p_Email params; c_Roles := p_Roles params; c_Permissions := p_Permissions params;
     c_SessionID := p_SessionID params; c_TokenType := TokenTypeAccess |}.
Definition refresh_claims (s : JWTService) (now : time) (jti : string) (params : TokenParams)
    : customClaims :=
  {| c_Issuer := Issuer (cfg s); c_Subject := p_UserID params; c_Audience := Audience (cfg s);
     c_IssuedAt := Some (NewNumericDate now);
     c_ExpiresAt := Some (NewNumericDate (now + RefreshTokenTTL (cfg s))%Z);
     c_NotBefore := Some (NewNumericDate now); c_ID := jti;
     c_Email := ""; c_Roles := []; c_Permissions := [];
     c_SessionID := p_SessionID params; c_TokenType := TokenTypeRefresh |}.

(** [now], [accessJTI] and [refreshJTI]: the clock's reading and two new identifiers. *)
Definition GenerateTokenPair (s : JWTService) (now : time) (accessJTI refreshJTI : string)
    (params : TokenParams) : result error TokenPair :=
  match sign s (access_claims s now accessJTI params) with
  | Err err => Err (Errorf_w "jwt: sign access token: " err)
  | Ok accessToken =>
      match sign s (refresh_claims s now refreshJTI params) with
      | Err err => Err (Errorf_w "jwt: sign refresh token: " err)
      | Ok refreshToken =>
          Ok {| AccessToken := accessToken; RefreshToken := refreshToken; tp_TokenType := "Bearer";
                ExpiresIn := int_seconds (AccessTokenTTL (cfg s));
                tp_ExpiresAt := (now + AccessTokenTTL (cfg s))%Z |}
      end
  end.

Definition mapJWTError (err : error) : error :=
  if errors_Is err ErrTokenExpired then NewTokenExpired
  else if errors_Is err ErrTokenMalformed then NewTokenInvalid "malformed"
  else if errors_Is err ErrSignatureInvalid then NewTokenInvalid "invalid signature"
  else if errors_Is err ErrTokenNotValidYet then NewTokenInvalid "token not yet valid"
  else NewTokenInvalid (Error err).

Definition leeway : Z := 5 * second.

Definition parse (s : JWTService) (now : time) (tokenString : string)
    : outcome (result error customClaims) :=
  match Audience (cfg s) with
  | [] => Panics "index out of range [0] with length 0"
  | audience :: _ =>
      Returns (match ParseWithClaims (verifyKey s) [SigningMethod (cfg s)] (Issuer (cfg s)) audience
                       leeway now tokenString with
               | Err err => Err (mapJWTError err)
               | Ok (Some claims, true) => Ok claims
               | Ok _ => Err (NewTokenInvalid "claims extraction failed")
               end)
  end.

(** The database lookup at the end of [checkSessionRevocation]. *)
Definition ask_database (IsSessionRevoked : string → D → result error bool) (now : time)
    (claims : customClaims) (st : svc) : option error * svc :=
  let sid := c_SessionID claims in
  match IsSessionRevoked sid (db st) with
  | Err err => (Some (Errorf_w "jwt: session revocation db check: " err), st)
  | Ok false =>
      (None, set_cache (<[sid := (now + sessionActiveCacheTTL)%Z]> (activeCache st)) st)
  | Ok true =>
      let st := match c_ExpiresAt claims with
                | Some e =>
                    set_blacklist (Blacklist (sessionBlacklistPrefix +:+ sid) e (blacklist st)).2 st
                | None => st
                end in
      (Some NewTokenRevoked, st)
  end.

(** [now]: the reading of the service's clock. *)
Definition checkSessionRevocation (s : JWTService) (now : time) (claims : customClaims) (st : svc)
    : option error * svc :=
  let sid := c_SessionID claims in
  let sessionKey := sessionBlacklistPrefix +:+ sid in
  match IsBlacklisted sessionKey (blacklist st) with
  | (Err err, b) => (Some (Errorf_w "jwt: session blacklist check: " err), set_blacklist b st)
  | (Ok true, b) => (Some NewTokenRevoked, set_blacklist b st)
  | (Ok false, b) =>
      let st := set_blacklist b st in
      match sessionChecker s with
      | None => (None, st)
      | Some IsSessionRevoked =>
          match activeCache st !! sid with
          | Some expiry =>
              if bool_decide (now < expiry)%Z then (None, st)
              else ask_database IsSessionRevoked now claims
                     (set_cache (delete sid (activeCache st)) st)
          | None => ask_database IsSessionRevoked now claims st
          end
      end
  end.

(** [now] is read while parsing, [now'] while checking the session. *)
Definition ValidateAccessToken (s : JWTService) (now now' : time) (tokenString : string)
    : prog svc (result error UserClaims) := λ st,
  match parse s now tokenString with
  | Panics msg => (Panics msg, st)
  | Hangs => (Hangs, st)
  | Returns (Err err) => (Returns (Err err), st)
  | Returns (Ok claims) =>
      if negb (c_TokenType claims =? TokenTypeAccess)%string
      then (Returns (Err (NewTokenInvalid "wrong token type")), st)
      else
        match IsBlacklisted (c_ID claims) (blacklist st) with
        | (Err err, b) => (Returns (Err (Errorf_w "jwt: blacklist check: " err)), set_blacklist b st)
        | (Ok true, b) => (Returns (Err NewTokenRevoked), set_blacklist b st)
        | (Ok false, b) =>
            let st := set_blacklist b st in
            let '(err, st) := if (c_SessionID claims =? "")%string then (None, st)
                              else checkSessionRevocation s now' claims st in
            match err with
            | Some err => (Returns (Err err), st)
            | None =>
                (Returns (Ok (NewUserClaims (c_Subject claims) (c_Email claims) (c_Roles claims)
                   (c_Permissions claims) (c_SessionID claims)
                   (default zeroTime (c_IssuedAt claims)) (default zeroTime (c_ExpiresAt claims)))),
                 st)
            end
        end
  end.

Definition ValidateRefreshToken (s : JWTService) (now : time) (tokenString : string)
    : outcome (result error RefreshClaims) :=
  match parse s now tokenString with
  | Panics msg => Panics msg
  | Hangs => Hangs
  | Returns (Err err) => Returns (Err err)
  | Returns (Ok claims) =>
      Returns (if negb (c_TokenType claims =? TokenTypeRefresh)%string
               then Err (NewTokenInvalid "wrong token type")
               else Ok {| r_UserID := c_Subject claims; r_SessionID := c_SessionID claims;
                          r_JTI := c_ID claims;
                          r_ExpiresAt := default zeroTime (c_ExpiresAt claims) |})
  end.

Definition RevokeToken (jti : string) (expiresAt : time) (st : svc) : option error * svc :=
  let '(err, b) := Blacklist jti expiresAt (blacklist st) in (err, set_blacklist b st).
Definition RevokeSession (sessionID : string) (expiresAt : time) (st : svc) : option error * svc :=
  let st := set_cache (delete sessionID (activeCache st)) st in
  let '(err, b) := Blacklist (sessionBlacklistPrefix +:+ sessionID) expiresAt (blacklist st) in
  (err, set_blacklist b st).
End JWTService.
Arguments JWTService : clear implicits.
Arguments svc : clear implicits.

(** ** infra/middleware/http: auth.go and rbac.go

    A handler aborts with a response or passes the request on. *)
Inductive verdict := Abort (status : Z) (code message : string) | Next.

Definition AbortUnauthorized (message : string) : verdict := Abort 401 ErrUnauthorized message.
Definition AbortForbidden (message : string) : verdict := Abort 403 ErrForbidden message.

Definition writeAuthError (err : error) : verdict :=
  match errors_As err with
  | Some (Code, _, _, _) =>
      if (Code =? ErrForbidden)%string then AbortForbidden (Error err)
      else AbortUnauthorized (Error err)
  | None => AbortUnauthorized (Error err)
  end.

Definition parseBearerToken (header : string) : option string :=
  match CutPrefix header "Bearer " with
  | None => None
  | Some rest => let token := TrimSpace rest in if (token =? "")%string then None else Some token
  end.

(** The verdict and the claims put in the context of the request. *)
Definition auth_Handler {S} (ValidateAccessToken : string → prog S (result error UserClaims))
    (raw : string) : prog S (verdict * option UserClaims) :=
  if (raw =? "")%string
  then pret (AbortUnauthorized (Error (NewUnauthorized "authorization header is required")), None)
  else match parseBearerToken raw with
       | None => pret (AbortUnauthorized (Error (NewUnauthorized
                         "authorization header must be 'Bearer <token>'")), None)
       | Some tokenString =>
           let! r := ValidateAccessToken tokenString in
           match r with
           | Err err => pret (writeAuthError err, None)
           | Ok claims => pret (Next, Some claims)
           end
       end.

(** The role checks take the claims of the context and return them with their sets built. *)
Definition unauthenticated : verdict :=
  AbortUnauthorized (Error (NewUnauthorized "authentication required")).

Definition RequireRoles (roles : list string) (claims : option UserClaims)
    : verdict * option UserClaims :=
  match claims with
  | None => (unauthenticated, None)
  | Some c =>
      let '(ok, c) := HasAnyRole c roles in
      (if ok : bool then Next else AbortForbidden (Error (NewInsufficientRole roles)), Some c)
  end.

Fixpoint require_each (perms : list string) (c : UserClaims) : verdict * UserClaims :=
  match perms with
  | [] => (Next, c)
  | perm :: perms' =>
      let '(ok, c) := HasPermission c perm in
      if ok : bool then require_each perms' c
      else (AbortForbidden (Error (NewInsufficientPermission perm)), c)
  end.
Definition RequirePermissions (perms : list string) (claims : option UserClaims)
    : verdict * option UserClaims :=
  match claims with
  | None => (unauthenticated, None)
  | Some c => let '(v, c) := require_each perms c in (v, Some c)
  end.

Definition RequireSelf (resourceID : string) (claims : option UserClaims)
    : verdict * option UserClaims :=
  match claims with
  | None => (unauthenticated, None)
  | Some c =>
      let '(ok, c) := if (UserID c =? resourceID)%string then (true, c) else HasRole c "admin" in
      (if ok : bool then Next
       else AbortForbidden (Error (NewForbidden
              "access denied: you can only access your own resources")), Some c)
  end.

Definition RequireRolesOrSelf (resourceID : string) (roles : list string)
    (claims : option UserClaims) : verdict * option UserClaims :=
  match claims with
  | None => (unauthenticated, None)
  | Some c =>
      let '(ok, c) := HasAnyRole c roles in
      (if (ok || (UserID c =? resourceID)%string)%bool then Next
       else AbortForbidden (Error (NewInsufficientRole roles)), Some c)
  end.

(** ** infra/middleware/grpc: auth.go and rbac.go *)

Definition status := (grpc_code * string)%type.

Definition mapAuthError (err : error) : status :=
  match errors_As err with
  | Some (Code, Message, _, _) =>
      if (Code =? ErrForbidden)%string then (PermissionDenied, Message) else (Unauthenticated, Message)
  | None => (Unauthenticated, Error err)
  end.

(** [md]: the values of the authorization header, [None] without incoming metadata. *)
Definition extractBearerToken (md : option (list string)) : result status string :=
  match md with
  | None => Err (Unauthenticated, "missing metadata")
  | Some [] => Err (Unauthenticated, "authorization header is required")
  | Some (raw :: _) =>
      match CutPrefix raw "Bearer " with
      | None => Err (Unauthenticated, "authorization header must be 'Bearer <token>'")
      | Some rest =>
          let token := TrimSpace rest in
          if (token =? "")%string then Err (Unauthenticated, "authorization token is empty")
          else Ok token
      end
  end.

Section Grpc.
Context {S R : Type}.
(** A handler gets the claims of its context. *)
Definition UnaryHandler := option UserClaims → prog S (result status R).

Definition auth_Unary (ValidateAccessToken : string → prog S (result error UserClaims))
    (publicMethods : gset string) (FullMethod : string) (md : option (list string))
    (ctx : option UserClaims) (handler : UnaryHandler) : prog S (result status R) :=
  if decide (FullMethod ∈ publicMethods) then handler ctx
  else match extractBearerToken md with
       | Err err => pret (Err err)
       | Ok tokenString =>
           let! r := ValidateAccessToken tokenString in
           match r with
           | Err err => pret (Err (mapAuthError err))
           | Ok claims => handler (Some claims)
           end
       end.

Record RBACRule := { rule_Roles : list string; rule_Permissions : list string }.

(** The loop over the permissions of a rule. *)
Fixpoint missing_permission (perms : list string) (c : UserClaims) : option string * UserClaims :=
  match perms with
  | [] => (None, c)
  | perm :: perms' =>
      let '(ok, c) := HasPermission c perm in
      if ok : bool then missing_permission perms' c else (Some perm, c)
  end.

Definition rbac_Unary (rules : gmap string RBACRule) (FullMethod : string)
    (ctx : option UserClaims) (handler : UnaryHandler) : prog S (result status R) :=
  match rules !! FullMethod with
  | None => handler ctx
  | Some rule =>
      match ctx with
      | None => pret (Err (Unauthenticated, Error (NewUnauthorized "authentication required")))
      | Some c =>
          let '(ok, c) := match rule_Roles rule with
                          | [] => (true, c)
                          | roles => HasAnyRole c roles
                          end in
          if negb ok
          then pret (Err (PermissionDenied, Error (NewInsufficientRole (rule_Roles rule))))
          else match missing_permission (rule_Permissions rule) c with
               | (Some perm, _) =>
                   pret (Err (PermissionDenied, Error (NewInsufficientPermission perm)))
               | (None, c) => handler (Some c)
               end
      end
  end.
End Grpc.

(** ** Properties of the claims *)

(** The sets are nil or those of the lists, and not nil once they have been initialised. *)
Definition claims_ok (c : UserClaims) : Prop :=
  (roleSet c = Some (NewSet (Roles c)) ∨ roleSet c = None ∧ initOnce c = false)
  ∧ (permSet c = Some (NewSet (Permissions c)) ∨ permSet c = None ∧ initOnce c = false).

Lemma NewSet_elem v l : v ∈ NewSet l ↔ v ∈ l.
Proof.
  unfold NewSet. assert (∀ acc : gset string, v ∈ foldl (λ s v, {[v]} ∪ s) acc l ↔ v ∈ l ∨ v ∈ acc) as Hg.
  { induction l as [|x l IH]; intros acc; simpl; [set_solver|]. rewrite IH. set_solver. }
  rewrite Hg. set_solver.
Qed.

Lemma NewUserClaims_ok u e r p s i x : claims_ok (NewUserClaims u e r p s i x).
Proof. split; by left. Qed.

Lemma ensureSets_spec c :
  claims_ok c →
  claims_ok (ensureSets c) ∧ Roles (ensureSets c) = Roles c
  ∧ Permissions (ensureSets c) = Permissions c ∧ UserID (ensureSets c) = UserID c
  ∧ roleSet (ensureSets c) = Some (NewSet (Roles c))
  ∧ permSet (ensureSets c) = Some (NewSet (Permissions c)).
Proof.
  intros [Hr Hp]. unfold ensureSets, claims_ok. destruct (initOnce c) eqn:Hi.
  - destruct Hr as [Hr|[_ ?]]; [|done]. destruct Hp as [Hp|[_ ?]]; [|done]. naive_solver.
  - simpl. destruct Hr as [-> | [-> _]], Hp as [-> | [-> _]]; naive_solver.
Qed.

Lemma HasAnyRole_spec c roles :
  claims_ok c →
  let '(ok, c') := HasAnyRole c roles in
  claims_ok c' ∧ UserID c' = UserID c ∧ Roles c' = Roles c ∧ Permissions c' = Permissions c
  ∧ (ok = true ↔ ∃ r, r ∈ roles ∧ r ∈ Roles c).
Proof.
  intros Hc. unfold HasAnyRole. destruct (ensureSets_spec c Hc) as (Hok & Hr & Hp & Hu & Hrs & _).
  split_and!; [done..|]. unfold ContainsAny. rewrite Hrs, existsb_elem. unfold Contains.
  simpl. setoid_rewrite bool_decide_eq_true. setoid_rewrite NewSet_elem. done.
Qed.

Lemma HasPermission_spec c perm :
  claims_ok c →
  let '(ok, c') := HasPermission c perm in
  claims_ok c' ∧ UserID c' = UserID c ∧ Roles c' = Roles c ∧ Permissions c' = Permissions c
  ∧ (ok = true ↔ perm ∈ Permissions c).
Proof.
  intros Hc. unfold HasPermission.
  destruct (ensureSets_spec c Hc) as (Hok & Hr & Hp & Hu & _ & Hps).
  split_and!; [done..|]. unfold Contains. rewrite Hps. simpl.
  by rewrite bool_decide_eq_true, NewSet_elem.
Qed.

Lemma require_each_spec perms c :
  claims_ok c →
  ((require_each perms c).1 = Next ↔ ∀ p, p ∈ perms → p ∈ Permissions c)
  ∧ ((require_each perms c).1 ≠ Next → ∃ msg, (require_each perms c).1 = AbortForbidden msg).
Proof.
  revert c. induction perms as [|p perms IH]; intros c Hc; cbn [require_each].
  { split; [|done]. split; [|done]. intros _ q Hq. by apply elem_of_nil in Hq. }
  pose proof (HasPermission_spec c p Hc) as Hp. destruct (HasPermission c p) as [[] c'];
    destruct Hp as (Hc' & _ & _ & Hperms & Hok).
  - destruct (IH c' Hc') as [Hiff Habort]. rewrite Hperms in Hiff. split; [|exact Habort].
    rewrite Hiff. setoid_rewrite elem_of_cons. naive_solver.
  - split; [|by eauto]. split; [done|]. intros Hall.
    assert (p ∈ p :: perms) as Hin by list_in. apply Hall in Hin. apply Hok in Hin. done.
Qed.

(** A check passes the request on exactly when [P] holds and answers 403 otherwise. *)
Definition decides (v : verdict) (P : Prop) : Prop :=
  (v = Next ↔ P) ∧ (v ≠ Next → ∃ msg, v = AbortForbidden msg).

(** The HTTP checks decide exactly as documented: with claims in the context a request
    passes [RequireRoles] when the user has one of the roles, [RequirePermissions] when the user
    has all the permissions, [RequireSelf] for the user's own resource or an administrator, and
    [RequireRolesOrSelf] in either case; otherwise the answer is 403, and 401 without claims. *)
Theorem http_access_decisions (roles perms : list string) (resource : string) (c : UserClaims) :
  claims_ok c →
  decides (RequireRoles roles (Some c)).1 (∃ r, r ∈ roles ∧ r ∈ Roles c)
  ∧ decides (RequirePermissions perms (Some c)).1 (∀ p, p ∈ perms → p ∈ Permissions c)
  ∧ decides (RequireSelf resource (Some c)).1 (UserID c = resource ∨ "admin" ∈ Roles c)
  ∧ decides (RequireRolesOrSelf resource roles (Some c)).1
      ((∃ r, r ∈ roles ∧ r ∈ Roles c) ∨ UserID c = resource)
  ∧ Forall (λ v, v = Abort 401 ErrUnauthorized "[UNAUTHORIZED] authentication required")
      [(RequireRoles roles None).1; (RequirePermissions perms None).1;
       (RequireSelf resource None).1; (RequireRolesOrSelf resource roles None).1].
Proof.
  intros Hc. unfold decides. pose proof (HasAnyRole_spec c roles Hc) as Hroles.
  destruct (HasAnyRole c roles) as [ok c'] eqn:Hany. destruct Hroles as (_ & Hu & _ & _ & Hok).
  split; [|split; [|split; [|split]]].
  - unfold RequireRoles. rewrite Hany, <- Hok. destruct ok; naive_solver.
  - unfold RequirePermissions. pose proof (require_each_spec perms c Hc) as [Hiff Habort].
    destruct (require_each perms c) as [v c'']. done.
  - unfold RequireSelf. destruct (String.eqb_spec (UserID c) resource) as [->|Hne]; [naive_solver|].
    pose proof (HasAnyRole_spec c ["admin"] Hc) as Hadmin. unfold HasAnyRole, ContainsAny in Hadmin.
    cbn [existsb] in Hadmin. rewrite orb_false_r in Hadmin. destruct Hadmin as (_ & _ & _ & _ & Hadmin).
    unfold HasRole. destruct (Contains _ "admin"); [|split; [split; [done|]|by eauto]].
    + split; [|done]. split; [|done]. intros _. right. destruct Hadmin as [Hadmin _].
      destruct (Hadmin eq_refl) as (r & Hr%list_elem_of_singleton & Hin). by subst.
    + intros [?|Ha]; [done|]. destruct Hadmin as [_ Hadmin].
      discriminate Hadmin. exists "admin". split; [list_in|done].
  - unfold RequireRolesOrSelf. rewrite Hany, Hu, <- Hok.
    destruct (String.eqb_spec (UserID c) resource), ok; naive_solver.
  - by repeat constructor.
Qed.

Lemma missing_permission_spec perms c :
  claims_ok c →
  let '(missing, c') := missing_permission perms c in
  claims_ok c' ∧ UserID c' = UserID c ∧ Roles c' = Roles c ∧ Permissions c' = Permissions c
  ∧ (missing = None ↔ ∀ p, p ∈ perms → p ∈ Permissions c).
Proof.
  revert c. induction perms as [|p perms IH]; intros c Hc; cbn [missing_permission].
  { split_and!; try done. split; [|done]. intros _ q Hq. by apply elem_of_nil in Hq. }
  pose proof (HasPermission_spec c p Hc) as Hp. destruct (HasPermission c p) as [[] c'];
    destruct Hp as (Hc' & Hu & Hr & Hperms & Hok).
  - specialize (IH c' Hc'). destruct (missing_permission perms c') as [m c''].
    destruct IH as (? & ? & ? & ? & Hiff). split_and!; try congruence.
    rewrite Hiff, Hperms. setoid_rewrite elem_of_cons. naive_solver.
  - split_and!; try done. split; [done|]. intros Hall.
    assert (p ∈ p :: perms) as Hin by list_in. apply Hall, Hok in Hin. done.
Qed.

(** The gRPC interceptor calls the handler for a method with a rule exactly when the user
    has one of the rule's roles (or the rule names none) and all its permissions, with the
    same identity in the context; otherwise it answers PermissionDenied, and Unauthenticated
    without claims, without calling the handler. *)
Theorem grpc_access_decisions {S R} (rules : gmap string RBACRule) (m : string) (rule : RBACRule)
    (c : UserClaims) (handler : UnaryHandler (S:=S) (R:=R)) (s : S) :
  claims_ok c → rules !! m = Some rule →
  (∃ msg, rbac_Unary rules m None handler s = (Returns (Err (Unauthenticated, msg)), s))
  ∧ ((∃ c', UserID c' = UserID c ∧ Roles c' = Roles c ∧ Permissions c' = Permissions c ∧ claims_ok c'
          ∧ (rule_Roles rule = [] ∨ ∃ r, r ∈ rule_Roles rule ∧ r ∈ Roles c)
          ∧ (∀ p, p ∈ rule_Permissions rule → p ∈ Permissions c)
          ∧ rbac_Unary rules m (Some c) handler s = handler (Some c') s)
     ∨ (∃ msg, ¬ ((rule_Roles rule = [] ∨ ∃ r, r ∈ rule_Roles rule ∧ r ∈ Roles c)
                  ∧ ∀ p, p ∈ rule_Permissions rule → p ∈ Permissions c)
          ∧ rbac_Unary rules m (Some c) handler s = (Returns (Err (PermissionDenied, msg)), s))).
Proof.
  intros Hc Hrule. unfold rbac_Unary. rewrite Hrule. split; [by eexists|].
  assert (∃ ok c1, match rule_Roles rule with [] => (true, c) | roles => HasAnyRole c roles end = (ok, c1)
    ∧ claims_ok c1 ∧ UserID c1 = UserID c ∧ Roles c1 = Roles c ∧ Permissions c1 = Permissions c
    ∧ (ok = true ↔ rule_Roles rule = [] ∨ ∃ r, r ∈ rule_Roles rule ∧ r ∈ Roles c))
    as (ok & c1 & -> & Hc1 & Hu & Hr & Hp & Hok).
  { pose proof (HasAnyRole_spec c (rule_Roles rule) Hc) as Hany.
    destruct (rule_Roles rule) as [|r roles]; [eexists _, _; split_and!; naive_solver|].
    destruct (HasAnyRole c (r :: roles)) as [ok c1]. exists ok, c1. naive_solver. }
  destruct ok; simpl; [|right; eexists; split; [|done]; intros [Hr' _]; by apply Hok in Hr'].
  pose proof (missing_permission_spec (rule_Permissions rule) c1 Hc1) as Hmiss.
  destruct (missing_permission _ c1) as [[perm|] c2]; destruct Hmiss as (Hc2 & ? & ? & ? & Hiff);
    rewrite Hp in Hiff.
  - right. eexists. split; [|done]. intros [_ Hall]. by apply Hiff in Hall.
  - left. exists c2. split_and!; try congruence; [by apply Hok|by apply Hiff].
Qed.

(** ** Properties of the token service *)

Section TokenProperties.
Context {Key B D : Type} `{!Jwt Key} `{!TokenBlacklist B}.
Context (int_seconds : Z → Z).
Context (ErrTokenExpired ErrTokenMalformed ErrSignatureInvalid ErrTokenNotValidYet : error).
Notation parse := (parse (D:=D) ErrTokenExpired ErrTokenMalformed ErrSignatureInvalid ErrTokenNotValidYet).
Notation ValidateAccessToken :=
  (ValidateAccessToken (D:=D) ErrTokenExpired ErrTokenMalformed ErrSignatureInvalid ErrTokenNotValidYet).
Notation ValidateRefreshToken :=
  (ValidateRefreshToken (D:=D) ErrTokenExpired ErrTokenMalformed ErrSignatureInvalid ErrTokenNotValidYet).
Notation JWTService := (JWTService Key D).
Notation svc := (svc B D).

(** A service whose keys belong together, as [NewJWTService] builds it. *)
Definition service_ok (s : JWTService) : Prop :=
  method s = SigningMethod (cfg s) ∧ key_pair (method s) (signingKey s) (verifyKey s)
  ∧ ∃ audience, Audience (cfg s) = [audience].

(** A signed token of the service parses to its claims during its validity. *)
Lemma parse_signed_claims (s : JWTService) (t e n : time) (c : customClaims) tok :
  service_ok s → sign s c = Ok tok → c_Issuer c = Issuer (cfg s) → c_Audience c = Audience (cfg s) →
  c_ExpiresAt c = Some e → c_NotBefore c = Some n → (n ≤ t < e + leeway)%Z →
  parse s t tok = Returns (Ok c).
Proof.
  intros (Hm & Hkeys & a & Ha) Hsign Hiss Haud He Hn Ht. unfold Auth.parse. rewrite Ha, <- Hm.
  erewrite Parse_signed; [done|done|done|done|rewrite Haud, Ha; list_in|..]; intros x Hx;
    rewrite ?He, ?Hn in Hx; simplify_eq; unfold leeway, second in *; lia.
Qed.

(** C25: A generated pair works while it is valid: the access token validates to the identity,
    roles, permissions and session it was made for, provided the blacklist and the session check
    let it pass; the refresh token yields its user, session and identifier; and neither is
    accepted in the place of the other. *)
Theorem token_pair_roundtrip (s : JWTService) (now t t' : time) (accessJTI refreshJTI : string)
    (params : TokenParams) (pair : TokenPair) (st : svc) (b : B) :
  service_ok s → GenerateTokenPair int_seconds s now accessJTI refreshJTI params = Ok pair →
  (now ≤ t < now + AccessTokenTTL (cfg s))%Z → (AccessTokenTTL (cfg s) ≤ RefreshTokenTTL (cfg s))%Z →
  IsBlacklisted accessJTI (blacklist st) = (Ok false, b) →
  p_SessionID params = ""
  ∨ (checkSessionRevocation s t' (access_claims s now accessJTI params) (set_blacklist b st)).1 = None →
  (ValidateAccessToken s t t' (AccessToken pair) st).1
  = Returns (Ok (NewUserClaims (p_UserID params) (p_Email params) (p_Roles params)
                   (p_Permissions params) (p_SessionID params) (NewNumericDate now)
                   (NewNumericDate (now + AccessTokenTTL (cfg s))%Z)))
  ∧ ValidateRefreshToken s t (RefreshToken pair)
    = Returns (Ok {| r_UserID := p_UserID params; r_SessionID := p_SessionID params;
                     r_JTI := refreshJTI;
                     r_ExpiresAt := NewNumericDate (now + RefreshTokenTTL (cfg s))%Z |})
  ∧ ValidateAccessToken s t t' (RefreshToken pair) st
    = (Returns (Err (NewTokenInvalid "wrong token type")), st)
  ∧ ValidateRefreshToken s t (AccessToken pair) = Returns (Err (NewTokenInvalid "wrong token type")).
Proof.
  intros Hs Hgen Ht Httl Hbl Hsession. unfold GenerateTokenPair in Hgen.
  destruct (sign s (access_claims _ _ _ _)) as [access|] eqn:Haccess; [|done].
  destruct (sign s (refresh_claims _ _ _ _)) as [refresh|] eqn:Hrefresh; [|done].
  injection Hgen as <-. simpl.
  pose proof (NewNumericDate_floor now) as Hnow.
  pose proof (NewNumericDate_floor (now + AccessTokenTTL (cfg s))%Z) as Hae.
  pose proof (NewNumericDate_floor (now + RefreshTokenTTL (cfg s))%Z) as Hre.
  assert (parse s t access = Returns (Ok (access_claims s now accessJTI params))) as Hpa.
  { eapply parse_signed_claims; try done. unfold leeway, second in *. lia. }
  assert (parse s t refresh = Returns (Ok (refresh_claims s now refreshJTI params))) as Hpr.
  { eapply parse_signed_claims; try done. unfold leeway, second in *. lia. }
  unfold Auth.ValidateAccessToken, Auth.ValidateRefreshToken. rewrite Hpa, Hpr. simpl.
  rewrite Hbl. split_and!; try done.
  destruct (String.eqb_spec (p_SessionID params) "") as [_|Hsid]; [done|].
  destruct Hsession as [?|Hcheck]; [done|].
  destruct (checkSessionRevocation _ _ _ _) as [err st1]. simpl in Hcheck. by subst err.
Qed.

(** ** Session revocation takes effect *)

(** The service shared by requests: validations, revocations, any change of the blacklist (a
    lost or failing Redis included) and of the database within [Pd].  The clock [T] is the
    latest reading. *)
Inductive svc_step (s : JWTService) (Pd : D → Prop) : svc * time → svc * time → Prop :=
| SValidate st T t t' tok :
    (T ≤ t ≤ t')%Z → svc_step s Pd (st, T) ((ValidateAccessToken s t t' tok st).2, t')
| SRevokeToken st T jti e : svc_step s Pd (st, T) ((RevokeToken jti e st).2, T)
| SRevokeSession st T sid e : svc_step s Pd (st, T) ((RevokeSession sid e st).2, T)
| SBlacklist st T b : svc_step s Pd (st, T) (set_blacklist b st, T)
| SDatabase st T d :
    Pd d → svc_step s Pd (st, T)
      ({| blacklist := blacklist st; activeCache := activeCache st; db := d |}, T).

(** Cached entries live at most [sessionActiveCacheTTL] from the latest reading. *)
Definition cache_bounded (x : svc * time) : Prop :=
  ∀ sid e, activeCache x.1 !! sid = Some e → (e ≤ x.2 + sessionActiveCacheTTL)%Z.

Lemma ask_database_cache check t claims (st : svc) sid e :
  activeCache (ask_database check t claims st).2 !! sid = Some e →
  activeCache st !! sid = Some e
  ∨ e = (t + sessionActiveCacheTTL)%Z ∧ check sid (db st) = Ok false.
Proof.
  unfold ask_database. destruct (check _ _) as [[]|err] eqn:Hc; simpl; [destruct (c_ExpiresAt claims)| |];
    simpl; try by left.
  destruct (decide (c_SessionID claims = sid)) as [<-|Hne].
  - rewrite lookup_insert_eq. intros [= <-]. by right.
  - rewrite lookup_insert_ne by done. by left.
Qed.

Lemma checkSessionRevocation_cache (s : JWTService) t claims (st : svc) sid e :
  activeCache (checkSessionRevocation s t claims st).2 !! sid = Some e →
  activeCache st !! sid = Some e
  ∨ e = (t + sessionActiveCacheTTL)%Z
    ∧ ∃ check, sessionChecker s = Some check ∧ check sid (db st) = Ok false.
Proof.
  unfold checkSessionRevocation. destruct (IsBlacklisted _ _) as [[[]|err] b]; simpl; try by left.
  destruct (sessionChecker s) as [check|]; simpl; [|by left].
  destruct (activeCache st !! c_SessionID claims) as [x|]; [case_bool_decide; [by left|]|].
  - intros [Hin|[-> Hc]]%ask_database_cache; [|by right; eauto]. left. simpl in Hin.
    by apply lookup_delete_Some in Hin as [_ ?].
  - intros [Hin|[-> Hc]]%ask_database_cache; [by left|right; eauto].
Qed.

Lemma checkSessionRevocation_db (s : JWTService) t claims (st : svc) :
  db (checkSessionRevocation s t claims st).2 = db st.
Proof.
  assert (∀ check (st' : svc), db (ask_database check t claims st').2 = db st') as Hask.
  { intros check st'. unfold ask_database. destruct (check _ _) as [[]|]; [destruct (c_ExpiresAt _)|..]; done. }
  unfold checkSessionRevocation. destruct (IsBlacklisted _ _) as [[[]|err] b]; simpl; try done.
  destruct (sessionChecker s) as [check|]; simpl; [|done].
  destruct (activeCache st !! _); [case_bool_decide; [done|]|]; by rewrite Hask.
Qed.

(** What a validation does to the cache and the database. *)
Lemma ValidateAccessToken_cache (s : JWTService) t t' tok (st : svc) :
  db (ValidateAccessToken s t t' tok st).2 = db st
  ∧ ∀ sid e, activeCache (ValidateAccessToken s t t' tok st).2 !! sid = Some e →
      activeCache st !! sid = Some e
      ∨ e = (t' + sessionActiveCacheTTL)%Z
        ∧ ∃ check, sessionChecker s = Some check ∧ check sid (db st) = Ok false.
Proof.
  unfold Auth.ValidateAccessToken. destruct (Auth.parse _ _ _ _ s t tok) as [[claims|err]|?|];
    [|by split; [|left]..].
  destruct (negb _); [by split; [|left]|].
  destruct (IsBlacklisted _ _) as [[[]|err] b]; [by split; [|left]| |by split; [|left]].
  destruct (_ =? _)%string; [by split; [|left]|].
  pose proof (checkSessionRevocation_db s t' claims (set_blacklist b st)) as Hdb.
  pose proof (checkSessionRevocation_cache s t' claims (set_blacklist b st)) as Hcache.
  destruct (checkSessionRevocation _ _ _ _) as [[err|] st1]; simpl in *; split; naive_solver.
Qed.

Lemma svc_step_bounded (s : JWTService) Pd x y :
  svc_step s Pd x y → cache_bounded x → cache_bounded y ∧ (x.2 ≤ y.2)%Z.
Proof.
  intros Hstep Hb. destruct Hstep as [st T t t' tok Ht|st T jti e|st T sid e|st T b|st T d Hd];
    simpl in *.
  - split; [|lia]. intros sid e He. simpl in *.
    destruct (ValidateAccessToken_cache s t t' tok st) as [_ Hc].
    apply Hc in He as [He|[-> _]]; [|done]. apply Hb in He. simpl in He.
    unfold sessionActiveCacheTTL, second in *. lia.
  - split; [|lia]. intros sid' e' He'. unfold RevokeToken in He'. simpl in *.
    destruct (Blacklist _ _ _) as [? b]. by apply Hb in He'.
  - split; [|lia]. intros sid' e' He'. unfold RevokeSession in He'. simpl in *.
    destruct (Blacklist _ _ _) as [? b]. simpl in He'.
    apply lookup_delete_Some in He' as [_ He']. by apply Hb in He'.
  - split; [done|lia].
  - split; [done|lia].
Qed.

Lemma svc_steps_bounded (s : JWTService) Pd x y :
  rtc (svc_step s Pd) x y → cache_bounded x → cache_bounded y ∧ (x.2 ≤ y.2)%Z.
Proof.
  induction 1 as [|x y z Hstep _ IH]; intros Hb; [split; [done|lia]|].
  destruct (svc_step_bounded _ _ _ _ Hstep Hb) as [Hy ?]. destruct (IH Hy). split; [done|lia].
Qed.

(** While the database never says that [sid] is active, its cached entry is not renewed. *)
Lemma svc_steps_revoked (s : JWTService) check sid Pd x y :
  sessionChecker s = Some check → (∀ d, Pd d → check sid d ≠ Ok false) →
  rtc (svc_step s Pd) x y → Pd (db x.1) →
  Pd (db y.1) ∧ ∀ e, activeCache y.1 !! sid = Some e → activeCache x.1 !! sid = Some e.
Proof.
  intros Hcheck Hno. induction 1 as [|x y z Hstep _ IH]; intros Hd; [done|].
  assert (Pd (db y.1) ∧ ∀ e, activeCache y.1 !! sid = Some e → activeCache x.1 !! sid = Some e)
    as [Hdy Hcy].
  { destruct Hstep as [st T t t' tok Ht|st T jti e|st T sid' e|st T b|st T d Hd']; simpl in *.
    - destruct (ValidateAccessToken_cache s t t' tok st) as [-> Hc]. split; [done|].
      intros e He. apply Hc in He as [He|[_ (check' & Hcheck' & Hok)]]; [done|].
      rewrite Hcheck in Hcheck'. injection Hcheck' as <-. by apply Hno in Hok.
    - unfold RevokeToken. by destruct (Blacklist _ _ _).
    - unfold RevokeSession. destruct (Blacklist _ _ _). simpl. split; [done|].
      intros e' He'. by apply lookup_delete_Some in He' as [_ ?].
    - done.
    - done. }
  destruct (IH Hdy) as [Hdz Hcz]. split; [done|]. intros e He. by apply Hcy, Hcz.
Qed.

(** C26: A session that the database reports as revoked is refused within thirty seconds, whatever
    the blacklist answers and however requests and revocations are interleaved: once the
    database no longer says that the session is active, from clock reading [T0] on, every
    validation of one of its tokens at a reading of at least [T0] plus thirty seconds fails. *)
Theorem session_revocation_bound (s : JWTService) (check : string → D → result error bool)
    (sid : string) (revoked : D → Prop) (b0 : B) (d0 : D) (T T0 T1 t t' : time) (st0 st1 : svc)
    (tok : string) (claims : customClaims) :
  sessionChecker s = Some check → sid ≠ "" → (∀ d, revoked d → check sid d ≠ Ok false) →
  rtc (svc_step s (λ _, True)) ({| blacklist := b0; activeCache := ∅; db := d0 |}, T) (st0, T0) →
  revoked (db st0) → rtc (svc_step s revoked) (st0, T0) (st1, T1) →
  (T1 ≤ t ≤ t')%Z → (T0 + sessionActiveCacheTTL ≤ t')%Z →
  parse s t tok = Returns (Ok claims) → c_SessionID claims = sid →
  ∃ err, (ValidateAccessToken s t t' tok st1).1 = Returns (Err err).
Proof.
  intros Hcheck Hsid Hno Hrun1 Hrev Hrun2 Ht Hlate Hparse Hclaims.
  destruct (svc_steps_bounded _ _ _ _ Hrun1) as [Hbound _]; [done|].
  destruct (svc_steps_revoked s check sid revoked _ _ Hcheck Hno Hrun2 Hrev) as [Hrev1 Hcache].
  simpl in *. unfold Auth.ValidateAccessToken. rewrite Hparse.
  destruct (negb _); [by eexists|].
  destruct (IsBlacklisted _ _) as [[[]|err] b]; [by eexists| |by eexists].
  rewrite Hclaims. destruct (String.eqb_spec sid "") as [?|_]; [done|].
  assert (∃ err, (checkSessionRevocation s t' claims (set_blacklist b st1)).1 = Some err) as [err He].
  { unfold checkSessionRevocation. destruct (IsBlacklisted _ _) as [[[]|err] b']; simpl; [by eexists| |by eexists].
    rewrite Hcheck, Hclaims.
    assert (∀ st', db st' = db st1 → ∃ err, (ask_database check t' claims st').1 = Some err) as Hask.
    { intros st' Hdb. unfold ask_database. rewrite Hclaims, Hdb. specialize (Hno _ Hrev1).
      destruct (check sid (db st1)) as [[]|err']; [by eexists|done|by eexists]. }
    destruct (activeCache st1 !! sid) as [e|] eqn:Hx; [|by apply Hask].
    specialize (Hcache e eq_refl). apply Hbound in Hcache. simpl in Hcache.
    rewrite bool_decide_eq_false_2 by lia. by apply Hask. }
  destruct (checkSessionRevocation _ _ _ _) as [r st2]. simpl in He. subst r. by eexists.
Qed.
End TokenProperties.

Section RedisProperties.
Context {Key K D : Type} `{!Jwt Key} `{!CacheClient K}.
Context (ErrTokenExpired ErrTokenMalformed ErrSignatureInvalid ErrTokenNotValidYet : error).
Notation ValidateAccessToken := (ValidateAccessToken (B:=redis K) (D:=D) ErrTokenExpired
  ErrTokenMalformed ErrSignatureInvalid ErrTokenNotValidYet).

(** During the leeway after its expiry an accepted token cannot be revoked: [RevokeToken] and
    [RevokeSession] with the token's expiry return nil without recording anything, and the token
    is still accepted afterwards. *)
Theorem leeway_revocation_ignored (s : JWTService Key D) (now now' e : time) (tok : string)
    (st : svc (redis K) D) (c : UserClaims) :
  (ValidateAccessToken s now now' tok st).1 = Returns (Ok c) → ExpiresAt c = e →
  (e ≤ wall (blacklist st))%Z →
  ∀ jti, RevokeToken jti e st = (None, st)
    ∧ (RevokeSession (SessionID c) e st).1 = None
    ∧ blacklist (RevokeSession (SessionID c) e st).2 = blacklist st
    ∧ (ValidateAccessToken s now now' tok (RevokeToken jti e st).2).1 = Returns (Ok c).
Proof.
  intros Hok He Hexp jti.
  assert (∀ key, Blacklist key e (blacklist st) = (None, blacklist st)) as Hskip.
  { intros key. simpl. unfold redis_Blacklist. by rewrite bool_decide_eq_true_2 by lia. }
  unfold RevokeToken, RevokeSession. cbn [set_cache blacklist]. rewrite !Hskip.
  split_and!; [by destruct st|done|done|]. by destruct st.
Qed.
End RedisProperties.

(** The resilient blacklist fails open: it never returns an error, and it reports a token as
    revoked only when the wrapped blacklist was asked and said so. *)
Theorem resilient_fails_open {C B} `{!CircuitBreaker C} `{!TokenBlacklist B} (jti : string)
    (c : C) (b : B) :
  ∃ blacklisted c' b', resilient_IsBlacklisted jti (c, b) = (Ok blacklisted, (c', b'))
    ∧ (blacklisted = true → IsBlacklisted jti b = (Ok true, b'))
    ∧ (b' = b ∨ b' = (IsBlacklisted jti b).2).
Proof.
  unfold resilient_IsBlacklisted. simpl.
  destruct (Execute_spec (checked_call jti) c (None, b)) as [(err & c' & ->)|(c' & ->)].
  - exists false, c', b. naive_solver.
  - unfold checked_call. simpl. destruct (IsBlacklisted jti b) as [[x|err] b']; simpl.
    + exists x, c', b'. split_and!; [done| |by right]. by intros ->.
    + exists false, c', b'. naive_solver.
Qed.

(** ** Witnesses *)

Module AuthExample.
Definition truncate (t : time) : time := (t / second * second)%Z.
Definition example_claims (ttl : Z) (jti email : string) (roles : list string) (type : string)
    : customClaims :=
  {| c_Issuer := "wolf"; c_Subject := "u1"; c_Audience := ["api"];
     c_IssuedAt := Some (truncate 0); c_ExpiresAt := Some (truncate (0 + ttl));
     c_NotBefore := Some (truncate 0); c_ID := jti; c_Email := email; c_Roles := roles;
     c_Permissions := []; c_SessionID := "s1"; c_TokenType := type |}.
Definition access := example_claims (600 * second) "a1" "u@x" ["admin"] "access".
Definition refresh := example_claims (3600 * second) "r1" "" [] "refresh".

(** A library that knows two tokens. *)
Definition example_sign (_ : string) (_ : unit) (c : customClaims) : result error string :=
  if decide (c = access) then Ok "A" else if decide (c = refresh) then Ok "R" else Err (EText "sign").
Definition checks (issuer audience : string) (leeway : Z) (now : time) (c : customClaims) : bool :=
  bool_decide (c_Issuer c = issuer) && bool_decide (audience ∈ c_Audience c)
  && match c_ExpiresAt c with Some e => bool_decide (now < e + leeway)%Z | None => true end
  && match c_NotBefore c with Some n => bool_decide (n ≤ now + leeway)%Z | None => true end.
Definition example_parse (_ : unit) (_ : list string) (issuer audience : string) (leeway : Z)
    (now : time) (tok : string) : result error (option customClaims * bool) :=
  let accept c := if checks issuer audience leeway now c then Ok (Some c, true) else Err (EText "claims") in
  if decide (tok = "A") then accept access else if decide (tok = "R") then accept refresh
  else Err (EText "malformed").

Lemma checks_iff issuer audience leeway now c :
  checks issuer audience leeway now c = true
  ↔ c_Issuer c = issuer ∧ audience ∈ c_Audience c
    ∧ (∀ e, c_ExpiresAt c = Some e → now < e + leeway)%Z
    ∧ (∀ n, c_NotBefore c = Some n → n ≤ now + leeway)%Z.
Proof.
  unfold checks. rewrite !andb_true_iff, !bool_decide_eq_true.
  destruct (c_ExpiresAt c), (c_NotBefore c); rewrite ?bool_decide_eq_true; naive_solver.
Qed.

#[export] Program Instance example_jwt : Jwt unit := {|
  NewNumericDate := truncate; SignedString := example_sign; ParseWithClaims := example_parse;
  key_pair _ _ _ := True
|}.
Next Obligation. intros t. unfold truncate, second. pose proof (Z.mod_pos_bound t (10 ^ 9)). pose proof (Z.div_mod t (10 ^ 9)). lia. Qed.
Next Obligation.
  intros vk methods issuer audience leeway now tok oc valid. unfold example_parse.
  destruct (decide (tok = "A")); [|destruct (decide (tok = "R")); [|done]];
    (destruct (checks _ _ _ _ _) eqn:Hc; [|done]); intros [= <- <-];
    apply checks_iff in Hc; naive_solver.
Qed.
Next Obligation.
  intros method sk vk issuer audience leeway now c tok Hsign _ Hiss Haud He Hn.
  assert (checks issuer audience leeway now c = true) as Hc by by apply checks_iff.
  unfold example_sign in Hsign. unfold example_parse.
  destruct (decide (c = access)) as [->|]; simplify_eq; [by rewrite decide_True, Hc|].
  destruct (decide (c = refresh)) as [->|]; simplify_eq. by rewrite decide_False, decide_True, Hc.
Qed.

(** The database is the set of revoked sessions. *)
Definition example_check (sid : string) (d : list string) : result error bool :=
  Ok (bool_decide (sid ∈ d)).
Definition example_cfg : JWTConfig :=
  {| SigningMethod := "HS256"; SecretKey := "k"; PrivateKeyPath := ""; PublicKeyPath := "";
     AccessTokenTTL := 600 * second; RefreshTokenTTL := 3600 * second; Issuer := "wolf";
     Audience := ["api"] |}.
Definition example_service : JWTService unit (list string) :=
  {| cfg := example_cfg; sessionChecker := Some example_check; signingKey := ();
     verifyKey := (); method := "HS256" |}.
Definition example_params : TokenParams :=
  {| p_UserID := "u1"; p_Email := "u@x"; p_Roles := ["admin"]; p_Permissions := [];
     p_SessionID := "s1" |}.
Definition no_error : error := EText "none".
#[export] Instance example_blacklist : TokenBlacklist unit := NoopBlacklist.
Definition example_svc (d : list string) : svc unit (list string) :=
  {| blacklist := (); activeCache := ∅; db := d |}.
Notation example_validate := (ValidateAccessToken (D:=list string) no_error no_error no_error no_error).

(** An empty cache in which every lookup misses. *)
#[export] Instance example_cache : CacheClient unit := {|
  cache_Get _ s := (Err ErrCacheMiss, s);
  cache_Set _ _ _ s := (None, s)
|}.
Definition example_redis (now : time) : svc (redis unit) (list string) :=
  {| blacklist := {| wall := now; cache := () |}; activeCache := ∅; db := [] |}.

Definition example_user : UserClaims := NewUserClaims "u1" "u@x" ["editor"] ["doc:read"] "s1" 0 10.
End AuthExample.
Import AuthExample.

Lemma http_access_decisions_witness :
  decides (RequireRolesOrSelf "u2" ["editor"] (Some example_user)).1
    ((∃ r, r ∈ ["editor"] ∧ r ∈ Roles example_user) ∨ UserID example_user = "u2").
Proof. apply (http_access_decisions ["editor"] [] "u2" example_user), NewUserClaims_ok. Defined.

Lemma grpc_access_decisions_witness :
  ∃ msg, rbac_Unary {[ "/m" := {| rule_Roles := []; rule_Permissions := [] |} ]} "/m" None
           (λ _, pret (Ok ())) () = (Returns (Err (Unauthenticated, msg)), ()).
Proof.
  apply (grpc_access_decisions {[ "/m" := {| rule_Roles := []; rule_Permissions := [] |} ]} "/m"
    {| rule_Roles := []; rule_Permissions := [] |} example_user (λ _, pret (Ok ())) ());
    [apply NewUserClaims_ok | reflexivity].
Defined.

Lemma token_pair_roundtrip_witness :
  ∃ pair, GenerateTokenPair (D:=list string) id example_service 0 "a1" "r1" example_params = Ok pair
    ∧ (example_validate example_service second second (AccessToken pair) (example_svc [])).1
      = Returns (Ok (NewUserClaims "u1" "u@x" ["admin"] [] "s1" 0 (600 * second))).
Proof.
  eexists. split; [reflexivity|].
  edestruct (token_pair_roundtrip id no_error no_error no_error no_error example_service 0 second
    second "a1" "r1" example_params) as [Hvalid _]; cycle 6;
    [exact Hvalid| |reflexivity|by vm_compute|by vm_compute|reflexivity|right; reflexivity].
  split; [done|]. split; [done|]. by exists "api".
Defined.

Lemma session_revocation_bound_witness :
  ∃ err, (example_validate example_service (31 * second) (31 * second) "A" (example_svc ["s1"])).1
         = Returns (Err err).
Proof.
  eapply (session_revocation_bound no_error no_error no_error no_error example_service example_check
    "s1" (λ d, "s1" ∈ d) () ["s1"] 0 0 0 (31 * second) (31 * second) (example_svc ["s1"])
    (example_svc ["s1"]) "A" access); try reflexivity; try done.
  - intros d Hd. unfold example_check. by rewrite bool_decide_eq_true_2.
  - simpl. list_in.
Defined.

Lemma leeway_revocation_ignored_witness :
  (example_validate example_service (602 * second) (602 * second) "A"
     (RevokeToken "a1" (600 * second) (example_redis (602 * second))).2).1
  = Returns (Ok (NewUserClaims "u1" "u@x" ["admin"] [] "s1" 0 (600 * second))).
Proof.
  apply (leeway_revocation_ignored no_error no_error no_error no_error example_service
    (602 * second) (602 * second) (600 * second) "A" (example_redis (602 * second))
    (NewUserClaims "u1" "u@x" ["admin"] [] "s1" 0 (600 * second))); try reflexivity; try done.
Defined.
