(* ===== verification/Password.v ===== *)
(** * Passwords

    [Password.v] models infra/auth/password.go: hashing and verification over bcrypt, which is the
    class [Bcrypt], and the strength rules on the code points of the password.  The Unicode
    tables are the class [Unicode], with their values on ASCII. *)

From Stdlib Require Import Ascii.
From S2P Require Import Prelude Errors.

(** ** The code points of a string *)

Definition cont (lo hi : N) (c : ascii) : option N :=
  let b := N_of_ascii c in
  if ((lo <=? b) && (b <=? hi))%N then Some (N.land b 63) else None.

(** [for _, ch := range s]: a byte that starts no well-formed encoding gives U+FFFD. *)
Definition RuneError : N := 65533.
Fixpoint runes (l : list ascii) : list N :=
  match l with
  | [] => []
  | c :: l1 =>
      let b := N_of_ascii c in
      if (b <? 128)%N then b :: runes l1
      else if ((194 <=? b) && (b <=? 223))%N then
        match l1 with
        | c1 :: l2 =>
            match cont 128 191 c1 with
            | Some x => (N.land b 31 * 64 + x)%N :: runes l2
            | None => RuneError :: runes l1
            end
        | [] => RuneError :: runes l1
        end
      else if ((224 <=? b) && (b <=? 239))%N then
        match l1 with
        | c1 :: c2 :: l3 =>
            match cont (if b =? 224 then 160 else 128)%N (if b =? 237 then 159 else 191)%N c1, cont 128 191 c2 with
            | Some x, Some y => (N.land b 15 * 4096 + x * 64 + y)%N :: runes l3
            | _, _ => RuneError :: runes l1
            end
        | _ => RuneError :: runes l1
        end
      else if ((240 <=? b) && (b <=? 244))%N then
        match l1 with
        | c1 :: c2 :: c3 :: l4 =>
            match cont (if b =? 240 then 144 else 128)%N (if b =? 244 then 143 else 191)%N c1,
                  cont 128 191 c2, cont 128 191 c3 with
            | Some x, Some y, Some z => (N.land b 7 * 262144 + x * 4096 + y * 64 + z)%N :: runes l4
            | _, _, _ => RuneError :: runes l1
            end
        | _ => RuneError :: runes l1
        end
      else RuneError :: runes l1
  end.

Class Unicode := {
  IsUpper : N → bool;
  IsLower : N → bool;
  IsDigit : N → bool;
  IsLetter : N → bool;
  upper_ascii n : (n < 128)%N → IsUpper n = ((65 <=? n) && (n <=? 90))%N;
  lower_ascii n : (n < 128)%N → IsLower n = ((97 <=? n) && (n <=? 122))%N;
  digit_ascii n : (n < 128)%N → IsDigit n = ((48 <=? n) && (n <=? 57))%N;
  letter_ascii n : (n < 128)%N → IsLetter n = IsUpper n || IsLower n;
  upper_not_lower n : IsUpper n = true → IsLower n = false;
  case_is_letter n : IsUpper n = true ∨ IsLower n = true → IsLetter n = true;
  letter_not_digit n : IsLetter n = true → IsDigit n = false
}.

(** bcrypt; [r] is the salt that is drawn. *)
Class Bcrypt (Salt : Type) := {
  GenerateFromPassword : list ascii → Z → Salt → result error (list ascii);
  CompareHashAndPassword : list ascii → list ascii → option error;
  ErrMismatchedHashAndPassword : error;
  ErrHashTooShort : error;
  compare_generated p cost r h : GenerateFromPassword p cost r = Ok h → CompareHashAndPassword h p = None;
  generate_too_long p cost r : 72 < length p → ∃ err, GenerateFromPassword p cost r = Err err
}.

Section Passwords.
Context {Salt : Type} `{!Bcrypt Salt} `{!Unicode}.
Notation bytes s := (String.list_ascii_of_string s).

Definition HashPassword (password : string) (cost : Z) (r : Salt) : result error string :=
  match GenerateFromPassword (bytes password) cost r with
  | Err err => Err (Errorf_w "hash password: " err)
  | Ok hash => Ok (String.string_of_list_ascii hash)
  end.

Definition VerifyPassword (hash password : string) : option error :=
  match CompareHashAndPassword (bytes hash) (bytes password) with
  | Some err =>
      if errors_Is err ErrMismatchedHashAndPassword || errors_Is err ErrHashTooShort
      then Some NewPasswordMismatch else Some NewPasswordMismatch
  | None => None
  end.

(** The four flags of the loop. *)
Record found := { hasUpper : bool; hasLower : bool; hasDigit : bool; hasSpecial : bool }.
Definition classify (f : found) (ch : N) : found :=
  if IsUpper ch then {| hasUpper := true; hasLower := hasLower f; hasDigit := hasDigit f; hasSpecial := hasSpecial f |}
  else if IsLower ch then {| hasUpper := hasUpper f; hasLower := true; hasDigit := hasDigit f; hasSpecial := hasSpecial f |}
  else if IsDigit ch then {| hasUpper := hasUpper f; hasLower := hasLower f; hasDigit := true; hasSpecial := hasSpecial f |}
  else if negb (IsLetter ch) && negb (IsDigit ch)
  then {| hasUpper := hasUpper f; hasLower := hasLower f; hasDigit := hasDigit f; hasSpecial := true |}
  else f.

Definition ValidatePasswordStrength (password : string) : option error :=
  if bool_decide (length (bytes password) < 8)
  then Some (EText "password must be at least 8 characters")
  else
    let f := foldl classify {| hasUpper := false; hasLower := false; hasDigit := false; hasSpecial := false |}
               (runes (bytes password)) in
    if negb (hasUpper f) then Some (EText "password must contain at least one uppercase letter")
    else if negb (hasLower f) then Some (EText "password must contain at least one lowercase letter")
    else if negb (hasDigit f) then Some (EText "password must contain at least one digit")
    else if negb (hasSpecial f) then Some (EText "password must contain at least one special character")
    else None.

(** ** Properties *)

Definition special (ch : N) : bool := negb (IsLetter ch) && negb (IsDigit ch).

Lemma classify_flags ch f :
  hasUpper (classify f ch) = hasUpper f || IsUpper ch
  ∧ hasLower (classify f ch) = hasLower f || IsLower ch
  ∧ hasDigit (classify f ch) = hasDigit f || IsDigit ch
  ∧ hasSpecial (classify f ch) = hasSpecial f || special ch.
Proof.
  unfold classify, special. pose proof (upper_not_lower ch) as Hul. pose proof (case_is_letter ch) as Hcl.
  pose proof (letter_not_digit ch) as Hld.
  destruct (IsUpper ch), (IsLower ch), (IsDigit ch), (IsLetter ch); cbn; rewrite ?orb_true_r, ?orb_false_r;
    try done; exfalso; naive_solver.
Qed.

Lemma classify_all l f :
  let g := foldl classify f l in
  hasUpper g = hasUpper f || existsb IsUpper l ∧ hasLower g = hasLower f || existsb IsLower l
  ∧ hasDigit g = hasDigit f || existsb IsDigit l ∧ hasSpecial g = hasSpecial f || existsb special l.
Proof.
  cbn zeta. revert f. induction l as [|ch l IH]; intros f; cbn [foldl existsb]; [by rewrite !orb_false_r|].
  destruct (IH (classify f ch)) as (-> & -> & -> & ->). destruct (classify_flags ch f) as (-> & -> & -> & ->).
  by rewrite !orb_assoc.
Qed.

(** a password passes the strength check exactly when it has at least eight bytes and among its
    code points an uppercase letter, a lowercase letter, a digit and one that is neither a letter
    nor a digit; otherwise the error names the first of these rules, in this order, that fails. *)
Theorem ValidatePasswordStrength_spec (password : string) :
  let cs := runes (bytes password) in
  let rules :=
    [(8 <=? length (bytes password), "password must be at least 8 characters");
     (existsb IsUpper cs, "password must contain at least one uppercase letter");
     (existsb IsLower cs, "password must contain at least one lowercase letter");
     (existsb IsDigit cs, "password must contain at least one digit");
     (existsb special cs, "password must contain at least one special character")] in
  ValidatePasswordStrength password
  = (λ r, EText r.2) <$> head (List.filter (λ r, negb r.1) rules).
Proof.
  cbn zeta. unfold ValidatePasswordStrength. case_bool_decide as Hlen.
  - cbn [List.filter fst]. rewrite (proj2 (Nat.leb_gt _ _) Hlen). done.
  - cbn [List.filter fst]. rewrite (proj2 (Nat.leb_le _ _)) by lia. cbn [negb].
    pose proof (classify_all (runes (bytes password))
      {| hasUpper := false; hasLower := false; hasDigit := false; hasSpecial := false |}) as Hc. cbn zeta in Hc.
    destruct (foldl classify _ _) as [u lo d sp]. cbn in Hc |- *. destruct Hc as (-> & -> & -> & ->).
    repeat (case_match; cbn; try done).
Qed.

(** A password of six characters passes: its bytes are counted, and two of the characters take
    two bytes each. *)
Lemma six_characters_pass :
  let password := String.string_of_list_ascii
    (["A"; "a"; "1"; "!"]%char ++ (ascii_of_nat <$> [195; 169; 195; 169]%nat)) in
  length (runes (bytes password)) = 6 ∧ ValidatePasswordStrength password = None.
Proof.
  cbn zeta. rewrite String.list_ascii_of_string_of_list_ascii. split; [reflexivity|].
  unfold ValidatePasswordStrength. rewrite String.list_ascii_of_string_of_list_ascii.
  rewrite bool_decide_eq_false_2 by (vm_compute; lia). cbn zeta.
  set (l := runes _). assert (Hl : l = [65; 97; 49; 33; 233; 233]%N) by reflexivity. rewrite Hl.
  pose proof (classify_all [65; 97; 49; 33; 233; 233]%N
    {| hasUpper := false; hasLower := false; hasDigit := false; hasSpecial := false |}) as Hc. cbn zeta in Hc.
  assert (Hu : IsUpper 65 = true) by by rewrite upper_ascii.
  assert (Ha : IsLower 97 = true) by by rewrite lower_ascii.
  assert (Hd : IsDigit 49 = true) by by rewrite digit_ascii.
  assert (Hs : special 33 = true) by (unfold special; rewrite letter_ascii, upper_ascii, lower_ascii, digit_ascii; done).
  destruct (foldl classify _ _) as [u lo d sp]. cbn [existsb hasUpper hasLower hasDigit hasSpecial orb] in Hc |- *.
  rewrite Hu, Ha, Hd, Hs in Hc. cbn [orb] in Hc. rewrite !orb_true_r in Hc. by destruct Hc as (-> & -> & -> & ->).
Qed.

(** A hashed password verifies, and every failure of the comparison, a malformed hash included,
    gives the same answer. *)
Lemma VerifyPassword_hashed password cost r h :
  HashPassword password cost r = Ok h → VerifyPassword h password = None.
Proof.
  unfold HashPassword, VerifyPassword. destruct (GenerateFromPassword _ _ _) as [hash|] eqn:Hg; [|done].
  intros [= <-]. rewrite String.list_ascii_of_string_of_list_ascii. by rewrite (compare_generated _ _ _ _ Hg).
Qed.

Lemma VerifyPassword_answers h password :
  VerifyPassword h password = None ∨ VerifyPassword h password = Some NewPasswordMismatch.
Proof.
  unfold VerifyPassword. destruct (CompareHashAndPassword _ _); [right; by case_match|by left].
Qed.

(** No strong password above 72 bytes can be hashed. *)
Lemma HashPassword_too_long password cost r :
  72 < length (bytes password) → ∃ err, HashPassword password cost r = Err err.
Proof.
  intros Hl. unfold HashPassword. destruct (generate_too_long _ cost r Hl) as [err ->]. by eexists.
Qed.
End Passwords.
