(* ===== verification/Messenger.v ===== *)
(** * The message bus

    [Messenger.v] models the package messenger: message names (typer.go), stamps and envelopes
    (stamp/, envelope.go), the handler registry (registry.go, handler.go), the router
    (router.go), middleware chains (middleware.go, chain.go) and the bus (bus.go, options.go).
    Handlers, middleware and transports are arbitrary state transformers over a state [S]. *)

From S2P Require Import Prelude Errors Event.

(** ** Message names *)

(** The dynamic type of a message: its descriptor pointer and [reflect.Type.String]. *)
Record rtype := { rt_ptr : Z; rt_String : string }.

Section Messages.
Context {V : Type}.

(** A non-nil [any] value; [MessageName] is [Some] when it implements [Typer]. *)
Record message := { dyn : rtype; MessageName : option string; value : V }.


Definition typeNameCached (cache : gmap Z string) (msg : message) : string * gmap Z string :=
  match cache !! rt_ptr (dyn msg) with
  | Some name => (name, cache)
  | None => (rt_String (dyn msg), <[rt_ptr (dyn msg) := rt_String (dyn msg)]> cache)
  end.

Definition TypeNameOf (cache : gmap Z string) (msg : message) : string * gmap Z string :=
  match MessageName msg with
  | Some name => (name, cache)
  | None => typeNameCached cache msg
  end.

(** [PreregisterType]: [LoadOrStore]. *)
Definition PreregisterType (cache : gmap Z string) (rt : rtype) : gmap Z string :=
  match cache !! rt_ptr rt with
  | Some _ => cache
  | None => <[rt_ptr rt := rt_String rt]> cache
  end.

(** The name without the cache. *)
Definition TypeName (msg : message) : string :=
  match MessageName msg with Some name => name | None => rt_String (dyn msg) end.
End Messages.
Arguments message : clear implicits.

(** The cache maps the descriptor of each type of the program to its name. *)
Definition cache_ok (types : list rtype) (cache : gmap Z string) : Prop :=
  ∀ rt name, rt ∈ types → cache !! rt_ptr rt = Some name → name = rt_String rt.

(** ** Stamps *)

Inductive stamp (R : Type) :=
| BusNameStamp (Name : string)
| ResultStamp (Value : R)
| SentStamp (Transport : string) (SentAt : time)
| ReceivedStamp (Transport : string) (ReceivedAt : time)
| TransportNameStamp (Name : string)
| RedeliveryStamp (RetryCount : Z) (LastError : string)
| DelayStamp (Duration : Z)
| ErrorStamp (Err : string) (OccurredAt : time)
| TraceStamp (TraceID SpanID : string) (Headers : gmap string string)
| ForceSyncStamp
| ForceTransportStamp (TransportName : string)
| ConsumedByStamp (Handler : string) (Duration : Z)
| AggregateStamp (Type_ ID : string)
| OutboxIDStamp (EntryID : string)
| memoryIDStamp (ID : string)
| CustomStamp (Name : string).
Arguments BusNameStamp {R}. Arguments ResultStamp {R}. Arguments SentStamp {R}.
Arguments ReceivedStamp {R}. Arguments TransportNameStamp {R}. Arguments RedeliveryStamp {R}.
Arguments DelayStamp {R}. Arguments ErrorStamp {R}. Arguments TraceStamp {R}.
Arguments ForceSyncStamp {R}. Arguments ForceTransportStamp {R}. Arguments ConsumedByStamp {R}.
Arguments AggregateStamp {R}. Arguments OutboxIDStamp {R}. Arguments memoryIDStamp {R}.
Arguments CustomStamp {R}.

Definition NameBusName := "messenger.bus_name".
Definition NameResult := "messenger.result".
Definition NameSent := "messenger.sent".
Definition NameReceived := "messenger.received".
Definition NameTransportName := "messenger.transport_name".
Definition NameRedelivery := "messenger.redelivery".
Definition NameDelay := "messenger.delay".
Definition NameError := "messenger.error".
Definition NameTrace := "messenger.trace".
Definition NameForceSync := "messenger.force_sync".
Definition NameForceTransport := "messenger.force_transport".
Definition NameConsumed := "messenger.consumed".
Definition NameAggregate := "messenger.aggregate".
Definition NameOutboxID := "messenger.outbox_id".
Definition NameMemoryID := "memory.internal_id".

Definition StampName {R} (s : stamp R) : string :=
  match s with
  | BusNameStamp _ => NameBusName
  | ResultStamp _ => NameResult
  | SentStamp _ _ => NameSent
  | ReceivedStamp _ _ => NameReceived
  | TransportNameStamp _ => NameTransportName
  | RedeliveryStamp _ _ => NameRedelivery
  | DelayStamp _ => NameDelay
  | ErrorStamp _ _ => NameError
  | TraceStamp _ _ _ => NameTrace
  | ForceSyncStamp => NameForceSync
  | ForceTransportStamp _ => NameForceTransport
  | ConsumedByStamp _ _ => NameConsumed
  | AggregateStamp _ _ => NameAggregate
  | OutboxIDStamp _ => NameOutboxID
  | memoryIDStamp _ => NameMemoryID
  | CustomStamp name => name
  end.

(** ** Envelopes *)
Section Envelopes.
Context {V R : Type}.

Record Envelope := { Message : message V; stamps : list (stamp R); createdAt : time }.

Definition NewEnvelopeWithTime (msg : message V) (t : time) (ss : list (stamp R)) : Envelope :=
  {| Message := msg; stamps := ss; createdAt := t |}.
Definition NewEnvelope (now : time) (msg : message V) (ss : list (stamp R)) : Envelope :=
  {| Message := msg; stamps := ss; createdAt := now |}.

Definition WithStamp (e : Envelope) (s : stamp R) : Envelope :=
  {| Message := Message e; stamps := stamps e ++ [s]; createdAt := createdAt e |}.

Definition WithoutStamp (e : Envelope) (name : string) : Envelope :=
  {| Message := Message e; stamps := filter (λ s, StampName s ≠ name) (stamps e);
     createdAt := createdAt e |}.

(** The loop from the last index down. *)
Fixpoint find_first (name : string) (ss : list (stamp R)) : option (stamp R) :=
  match ss with
  | [] => None
  | s :: rest => if (StampName s =? name)%string then Some s else find_first name rest
  end.
Definition Last (e : Envelope) (name : string) : option (stamp R) :=
  find_first name (reverse (stamps e)).

Definition All (e : Envelope) (name : string) : list (stamp R) :=
  filter (λ s, StampName s = name) (stamps e).
Definition Stamps (e : Envelope) : list (stamp R) := stamps e.
Definition HasStamp (e : Envelope) (name : string) : bool :=
  existsb (λ s, (StampName s =? name)%string) (stamps e).
Definition StampCount (e : Envelope) : nat := length (stamps e).

Record DispatchResult := { ResEnvelope : option Envelope; Async : bool }.
(** [DispatchResult{}] holds the zero envelope. *)
Definition zeroResult : DispatchResult := {| ResEnvelope := None; Async := false |}.
End Envelopes.
Arguments Envelope : clear implicits.
Arguments DispatchResult : clear implicits.

(** ** Sentinel errors *)
Definition ErrNoHandler := ESentinel "messenger: no handler registered for message type".
Definition ErrQueryCannotBeAsync := ESentinel "messenger: query types cannot be routed to async transport".
Definition ErrTransportNotFound := ESentinel "messenger: transport not found".
Definition ErrBusClosed := ESentinel "messenger: bus is closed".
Definition ErrDuplicateHandler := ESentinel "messenger: duplicate handler for message type".
Definition ErrCircuitOpen := ESentinel "messenger: circuit breaker open".

(** [fmt.Errorf("%w: "+tail, sentinel)] *)
Definition sentinel_with (e : error) (tail : string) : error := EWrap (Error e +:+ ": " +:+ tail) e.

(** ** Router *)

Definition Router := gmap string string.
Definition NewRouter : Router := ∅.
Definition NewRouterFromMap (routes : gmap string string) : Router := routes.
Definition Route {V} (r : Router) (msg : message V) : string := default "" (r !! TypeName msg).
Definition UpdateRoutes (r : Router) (routes : gmap string string) : Router := routes.
Definition AddRoute (r : Router) (msgType transportName : string) : Router :=
  <[msgType := transportName]> r.
Definition RemoveRoute (r : Router) (msgType : string) : Router := delete msgType r.
Definition Routes (r : Router) : gmap string string := r.

Section Bus.
Context {V R S Ctx : Type}.
Notation message := (message V).
Notation Envelope := (Envelope V R).
Notation DispatchResult := (DispatchResult V R).

(** A computation that may fail or panic and acts on the state. *)
Definition action (A : Type) : Type := S → outcome (result error A) * S.
Definition ret {A} (a : A) : action A := λ s, (Returns (Ok a), s).
Definition fail {A} (e : error) : action A := λ s, (Returns (Err e), s).
Definition panic {A} (msg : string) : action A := λ s, (Panics msg, s).

(** ** Handlers *)

Record anyHandler := { HandleAny : Ctx → message → action (option R); IsCommand : bool }.

(** [msg.(C)]: [is_C] decides the assertion; [expected] is the name [%T] prints. *)
Definition assertion_failed (expected : string) (msg : message) : error :=
  EText ("messenger: type assertion failed: expected " +:+ expected +:+ ", got "
         +:+ rt_String (dyn msg)).

Definition commandWrapper (is_C : message → bool) (expected : string)
    (Handle : Ctx → message → action unit) : anyHandler :=
  {| HandleAny ctx msg s :=
       if is_C msg then
         match Handle ctx msg s with
         | (Returns (Ok _), s) => (Returns (Ok None), s)
         | (Returns (Err e), s) => (Returns (Err e), s)
         | (Panics p, s) => (Panics p, s) | (Hangs, s) => (Hangs, s)
         end
       else fail (assertion_failed expected msg) s;
     IsCommand := true |}.

Definition queryWrapper (is_Q : message → bool) (expected : string)
    (Handle : Ctx → message → action (option R)) : anyHandler :=
  {| HandleAny ctx msg s :=
       if is_Q msg then Handle ctx msg s else fail (assertion_failed expected msg) s;
     IsCommand := false |}.

Definition HandlerRegistry := gmap string anyHandler.
Definition NewHandlerRegistry : HandlerRegistry := ∅.

Definition register (r : HandlerRegistry) (typeName : string) (h : anyHandler) : outcome HandlerRegistry :=
  match r !! typeName with
  | Some _ => Panics (Error ErrDuplicateHandler +:+ ": " +:+ typeName)
  | None => Returns (<[typeName := h]> r)
  end.

(** [zero] is [*new(C)]. *)
Definition RegisterCommand (r : HandlerRegistry) (zero : message) (is_C : message → bool)
    (Handle : Ctx → message → action unit) : outcome HandlerRegistry :=
  register r (TypeName zero) (commandWrapper is_C (rt_String (dyn zero)) Handle).
Definition RegisterQuery (r : HandlerRegistry) (zero : message) (is_Q : message → bool)
    (Handle : Ctx → message → action (option R)) : outcome HandlerRegistry :=
  register r (TypeName zero) (queryWrapper is_Q (rt_String (dyn zero)) Handle).

Definition Resolve (r : HandlerRegistry) (msg : message) : result error anyHandler :=
  match r !! TypeName msg with
  | None => Err (sentinel_with ErrNoHandler (TypeName msg))
  | Some h => Ok h
  end.
Definition Has (r : HandlerRegistry) (msg : message) : bool :=
  bool_decide (is_Some (r !! TypeName msg)).
Definition CommandTypes (r : HandlerRegistry) : list string :=
  map fst (filter (λ kh, IsCommand kh.2 = true) (map_to_list r)).
Definition QueryTypes (r : HandlerRegistry) : list string :=
  map fst (filter (λ kh, IsCommand kh.2 = false) (map_to_list r)).

(** ** Chains *)

Definition terminalFunc := Ctx → Envelope → action DispatchResult.
Definition MiddlewareNext := Ctx → Envelope → action DispatchResult.
Definition Middleware := Ctx → Envelope → MiddlewareNext → action DispatchResult.

(** A node has a middleware with its bound [nextFunc], or a terminal. *)
Inductive chainNode :=
| Tail (terminal : terminalFunc)
| Node (middleware : Middleware) (nextFunc : MiddlewareNext).

Definition execute (n : chainNode) : MiddlewareNext := λ ctx env,
  match n with
  | Tail terminal => terminal ctx env
  | Node middleware nextFunc => middleware ctx env nextFunc
  end.

(** The loop from the last middleware to the first. *)
Definition buildChain (mws : list Middleware) (terminal : terminalFunc) : chainNode :=
  foldl (λ current mw, Node mw (execute current)) (Tail terminal) (reverse mws).

(** ** The bus *)

Definition Sender := Ctx → Envelope → S → outcome (option error) * S.

Record MessageBus := {
  bus_name : string;
  handlers : HandlerRegistry;
  router : Router;
  transports : gmap string Sender;
  mws : list Middleware;
  closed : bool
}.

Inductive BusOption :=
| WithMiddleware (l : list Middleware)
| WithTransport (name : string) (sender : Sender)
| WithRouter (r : Router)
| WithHandlerRegistry (reg : HandlerRegistry).

Definition apply (b : MessageBus) (opt : BusOption) : MessageBus :=
  match opt with
  | WithMiddleware l =>
      {| bus_name := bus_name b; handlers := handlers b; router := router b;
         transports := transports b; mws := mws b ++ l; closed := closed b |}
  | WithTransport name sender =>
      {| bus_name := bus_name b; handlers := handlers b; router := router b;
         transports := <[name := sender]> (transports b); mws := mws b; closed := closed b |}
  | WithRouter r =>
      {| bus_name := bus_name b; handlers := handlers b; router := r;
         transports := transports b; mws := mws b; closed := closed b |}
  | WithHandlerRegistry reg =>
      {| bus_name := bus_name b; handlers := reg; router := router b;
         transports := transports b; mws := mws b; closed := closed b |}
  end.

(** The panic names the first unregistered route of the iteration; the list of available
    transports is left out of the message. *)
Definition NewBus (name : string) (opts : list BusOption) : outcome MessageBus :=
  let b := foldl apply {| bus_name := name; handlers := NewHandlerRegistry; router := NewRouter;
                          transports := ∅; mws := []; closed := false |} opts in
  match list_find (λ route, transports b !! route.2 = None) (map_to_list (Routes (router b))) with
  | Some (_, (msgType, transportName)) =>
      Panics ("messenger: route " +:+ Quote msgType +:+ " → transport " +:+ Quote transportName
              +:+ " not registered")
  | None => Returns b
  end.

Definition syncTerminal (b : MessageBus) : terminalFunc := λ ctx env s,
  match Resolve (handlers b) (Message env) with
  | Err err => fail err s
  | Ok handler =>
      match HandleAny handler ctx (Message env) s with
      | (Panics p, s) => (Panics p, s) | (Hangs, s) => (Hangs, s)
      | (Returns (Err err), s) => fail err s
      | (Returns (Ok r), s) =>
          let env := match r with Some v => WithStamp env (ResultStamp v) | None => env end in
          ret {| ResEnvelope := Some env; Async := false |} s
      end
  end.

Definition sendToTransport (b : MessageBus) (transportName : string) : terminalFunc := λ ctx env s,
  match transports b !! transportName with
  | None => fail (sentinel_with ErrTransportNotFound (Quote transportName)) s
  | Some sender =>
      match sender ctx env s with
      | (Panics p, s) => (Panics p, s) | (Hangs, s) => (Hangs, s)
      | (Returns (Some err), s) =>
          fail (Errorf_w ("messenger: transport " +:+ Quote transportName +:+ " send failed: ") err) s
      | (Returns None, s) => ret {| ResEnvelope := Some env; Async := true |} s
      end
  end.

Definition dispatchTerminal (b : MessageBus) : terminalFunc := λ ctx env,
  if HasStamp env NameForceSync then syncTerminal b ctx env
  else match Last env NameForceTransport with
       | Some (ForceTransportStamp transportName) => sendToTransport b transportName ctx env
       | Some _ => panic "interface conversion: stamp is not ForceTransportStamp"
       | None =>
           let transportName := Route (router b) (Message env) in
           if (transportName =? "")%string then syncTerminal b ctx env
           else sendToTransport b transportName ctx env
       end.

Definition Dispatch (b : MessageBus) (now : time) (ctx : Ctx) (cmd : message)
    (ss : list (stamp R)) : action DispatchResult :=
  if closed b then fail ErrBusClosed
  else execute (buildChain (mws b) (dispatchTerminal b)) ctx (NewEnvelope now cmd ss).

Definition Query (b : MessageBus) (now : time) (ctx : Ctx) (query : message)
    (ss : list (stamp R)) : action (option R) := λ s,
  if closed b then fail ErrBusClosed s
  else
    let transport := Route (router b) query in
    if negb (transport =? "")%string
    then fail (sentinel_with ErrQueryCannotBeAsync
                 (TypeName query +:+ " routed to " +:+ Quote transport)) s
    else match execute (buildChain (mws b) (syncTerminal b)) ctx (NewEnvelope now query ss) s with
         | (Panics p, s) => (Panics p, s) | (Hangs, s) => (Hangs, s)
         | (Returns (Err err), s) => fail err s
         | (Returns (Ok res), s) =>
             match ResEnvelope res ≫= λ env, Last env NameResult with
             | Some (ResultStamp v) => ret (Some v) s
             | Some _ => panic "interface conversion: stamp is not ResultStamp" s
             | None => ret None s
             end
         end.

Definition Close (b : MessageBus) : MessageBus :=
  {| bus_name := bus_name b; handlers := handlers b; router := router b;
     transports := transports b; mws := mws b; closed := true |}.

(** ** Bus sets *)

Record BusSet := { buses : gmap string MessageBus; names : list string }.

Definition BusNameCommand := "command".
Definition BusNameQuery := "query".

Fixpoint collect_buses (l : list (string * MessageBus)) (m : gmap string MessageBus)
    : outcome (gmap string MessageBus) :=
  match l with
  | [] => Returns m
  | (name, b) :: rest =>
      match m !! name with
      | Some _ => Panics ("messenger: duplicate bus name " +:+ Quote name +:+ " in BusSet")
      | None => collect_buses rest (<[name := b]> m)
      end
  end.

(** [slices.Sorted] on the keys. *)
Definition NewBusSet (l : list (string * MessageBus)) : outcome BusSet :=
  match collect_buses l ∅ with
  | Panics p => Panics p | Hangs => Hangs
  | Returns m =>
      Returns {| buses := m; names := merge_sort String.le (map fst (map_to_list m)) |}
  end.

Definition BusSet_Get (set : BusSet) (name : string) : option MessageBus := buses set !! name.
Definition BusSet_Bus (set : BusSet) (name : string) : outcome MessageBus :=
  match buses set !! name with
  | Some b => Returns b
  | None => Panics ("messenger: bus " +:+ Quote name +:+ " not found in BusSet")
  end.
Definition BusSet_Command (set : BusSet) : outcome MessageBus := BusSet_Bus set BusNameCommand.
Definition BusSet_Query (set : BusSet) : outcome MessageBus := BusSet_Bus set BusNameQuery.

(** ** Properties *)

Lemma buildChain_cons mw rest terminal :
  buildChain (mw :: rest) terminal = Node mw (execute (buildChain rest terminal)).
Proof. unfold buildChain. by rewrite reverse_cons, foldl_app. Qed.

(** The reference: the first middleware wraps the second, and so on down to the terminal. *)
Fixpoint compose (l : list Middleware) (terminal : terminalFunc) : MiddlewareNext :=
  match l with
  | [] => terminal
  | mw :: rest => λ ctx env, mw ctx env (compose rest terminal)
  end.

(** the pre-built chain is the composition of the middleware in the order they were
    added: the first one outermost, the terminal innermost. *)
Theorem buildChain_compose (l : list Middleware) (terminal : terminalFunc) :
  execute (buildChain l terminal) = compose l terminal.
Proof.
  induction l as [|mw rest IH]; [done|]. rewrite buildChain_cons. simpl. by rewrite <- IH.
Qed.

(** a query is never sent to a transport: whatever the middleware, the stamps and the
    message, the outcome of [Query] and its effect on the state do not depend on the
    transports of the bus. *)
Theorem Query_ignores_transports (b : MessageBus) (ts : gmap string Sender) (now : time) (ctx : Ctx)
    (query : message) (ss : list (stamp R)) (s : S) :
  Query {| bus_name := bus_name b; handlers := handlers b; router := router b;
           transports := ts; mws := mws b; closed := closed b |} now ctx query ss s
  = Query b now ctx query ss s.
Proof. done. Qed.

Lemma list_find_none_all {A} (P : A → Prop) `{!∀ x, Decision (P x)} l :
  list_find P l = None → ∀ x, x ∈ l → ¬ P x.
Proof. rewrite list_find_None, Forall_forall. done. Qed.

(** a bus that [NewBus] returns has no dangling route: every message is handled in process
    or routed to a registered transport, so dispatching without an explicit
    [ForceTransportStamp] never fails for want of a transport. *)
Theorem NewBus_routes_registered (name : string) (opts : list BusOption) (b : MessageBus) (env : Envelope) :
  NewBus name opts = Returns b →
  Last env NameForceTransport = None →
  ∀ ctx s,
    dispatchTerminal b ctx env s = syncTerminal b ctx env s
    ∨ ∃ t sender, transports b !! t = Some sender ∧ Route (router b) (Message env) = t
        ∧ dispatchTerminal b ctx env s = sendToTransport b t ctx env s.
Proof.
  unfold NewBus. set (b0 := foldl apply _ opts).
  destruct (list_find _ _) as [[i [k t]]|] eqn:Hfind; [done|]. intros [= <-] Hforce ctx s.
  unfold dispatchTerminal. rewrite Hforce. destruct (HasStamp env NameForceSync); [by left|].
  destruct (String.eqb_spec (Route (router b0) (Message env)) "") as [|Hne]; [by left|]. right.
  unfold Route in *. destruct (router b0 !! TypeName (Message env)) as [t|] eqn:Hr; [|done].
  assert (Hreg : transports b0 !! t ≠ None).
  { apply (list_find_none_all _ _ Hfind (TypeName (Message env), t)). by apply elem_of_map_to_list. }
  destruct (transports b0 !! t) as [sender|] eqn:Hs; [|done]. by exists t, sender.
Qed.

Lemma collect_buses_spec l m m' :
  collect_buses l m = Returns m' →
  ∀ name, m' !! name = match m !! name with Some b => Some b | None => (list_to_map l : gmap _ _) !! name end.
Proof.
  revert m. induction l as [|[n b] l IH]; intros m; simpl.
  { intros [= <-] name. rewrite lookup_empty. by destruct (m !! name). }
  destruct (m !! n) eqn:Hn; [done|]. intros Hc name. rewrite (IH _ Hc). clear IH Hc.
  destruct (decide (n = name)) as [->|Hne].
  - by rewrite !lookup_insert_eq, Hn.
  - by rewrite !lookup_insert_ne by done.
Qed.
End Bus.

(** ** Envelopes *)
Section EnvelopeProperties.
Context {V R : Type}.
Implicit Types (e : Envelope V R) (s : stamp R).

Lemma find_first_None name (ss : list (stamp R)) :
  find_first name ss = None ↔ ∀ s, s ∈ ss → StampName s ≠ name.
Proof.
  induction ss as [|s ss IH]; simpl; [split; [by intros _ ? []%elem_of_nil|done]|].
  destruct (String.eqb_spec (StampName s) name) as [He|He].
  - split; [done|]. intros Hall. by destruct (Hall s (list_elem_of_here _ _)).
  - rewrite IH. split; [|intros Hall s' ?; apply Hall; by right].
    by intros Hall s' [->|?]%elem_of_cons; [|apply Hall].
Qed.

Lemma HasStamp_spec e name : HasStamp e name = true ↔ ∃ s, s ∈ stamps e ∧ StampName s = name.
Proof.
  unfold HasStamp. rewrite existsb_elem. split; intros (s & ? & Hs); exists s;
    split; try done; by apply String.eqb_eq.
Qed.

(** envelopes are values with stamp lists: adding a stamp makes it the last of its name
    and hides no other; removing a name removes exactly the stamps of that name, in order;
    [Last] finds a stamp exactly when [HasStamp] holds; message and time never change. *)
Theorem Envelope_stamp_laws e s (name : string) :
  Last (WithStamp e s) (StampName s) = Some s
  ∧ (name ≠ StampName s → Last (WithStamp e s) name = Last e name)
  ∧ (Last e name = None ↔ HasStamp e name = false)
  ∧ HasStamp (WithoutStamp e name) name = false
  ∧ (∀ other, other ≠ name → All (WithoutStamp e name) other = All e other)
  ∧ Message (WithoutStamp (WithStamp e s) name) = Message e
  ∧ createdAt (WithoutStamp (WithStamp e s) name) = createdAt e.
Proof.
  assert (Hlast : Last e name = None ↔ HasStamp e name = false).
  { unfold Last. rewrite find_first_None. setoid_rewrite elem_of_reverse.
    rewrite <- not_true_iff_false, HasStamp_spec. naive_solver. }
  split_and!; try done; unfold Last, WithStamp; simpl.
  - rewrite reverse_app. simpl. by rewrite String.eqb_refl.
  - intros Hne. rewrite reverse_app. simpl.
    destruct (String.eqb_spec (StampName s) name) as [He|He]; [by destruct Hne|done].
  - apply not_true_iff_false. rewrite HasStamp_spec. simpl.
    intros (s' & [Hf _]%list_elem_of_filter & ?). done.
  - intros other Hne. unfold All, WithoutStamp. simpl. rewrite list_filter_filter.
    apply list_filter_iff. intros s'. split; [tauto|]. intros ->. done.
Qed.
End EnvelopeProperties.

(** ** Cached names *)

Definition same_pointer_same_type (types : list rtype) : Prop :=
  ∀ r1 r2, r1 ∈ types → r2 ∈ types → rt_ptr r1 = rt_ptr r2 → r1 = r2.

Lemma TypeNameOf_cached {V} types (cache : gmap Z string) (msg : message V) :
  same_pointer_same_type types → dyn msg ∈ types → cache_ok types cache →
  (TypeNameOf cache msg).1 = TypeName msg ∧ cache_ok types (TypeNameOf cache msg).2.
Proof.
  intros Hinj Hin Hok. unfold TypeNameOf, TypeName. destruct (MessageName msg); [done|].
  unfold typeNameCached. destruct (cache !! rt_ptr (dyn msg)) as [name|] eqn:Hc; simpl.
  - split; [by eapply Hok|done].
  - split; [done|]. intros rt name Hrt. destruct (decide (rt_ptr (dyn msg) = rt_ptr rt)) as [He|He].
    + rewrite (Hinj _ _ Hin Hrt He), lookup_insert_eq. by intros [= ->].
    + rewrite lookup_insert_ne by done. by apply Hok.
Qed.

(** Names resolved one after another with the shared cache. *)
Fixpoint TypeNamesOf {V} (cache : gmap Z string) (msgs : list (message V)) : list string :=
  match msgs with
  | [] => []
  | m :: rest => let '(n, cache) := TypeNameOf cache m in n :: TypeNamesOf cache rest
  end.

(** the cached lookup of type names always agrees with the uncached one: starting from
    an empty cache, any sequence of messages resolves to their own names, provided that the
    runtime gives distinct types distinct descriptors. *)
Theorem TypeNamesOf_correct {V} (types : list rtype) (msgs : list (message V)) :
  same_pointer_same_type types → (∀ m, m ∈ msgs → dyn m ∈ types) →
  TypeNamesOf ∅ msgs = map TypeName msgs.
Proof.
  intros Hinj. assert (Hok : cache_ok types ∅) by (intros ? ? _; by rewrite lookup_empty).
  revert Hok. generalize (∅ : gmap Z string) as cache.
  induction msgs as [|m msgs IH]; intros cache Hok Hin; simpl; [done|].
  destruct (TypeNameOf_cached types cache m Hinj (Hin m (list_elem_of_here _ _)) Hok) as [Hn Hok'].
  destruct (TypeNameOf cache m) as [n cache']; simpl in *. rewrite Hn.
  f_equal. apply IH; [done|]. intros m' Hm'. apply Hin. by right.
Qed.

(** ** A concrete bus

    One command type, routed to the transport "async"; the state is what was sent. *)
Definition demo_rtype : rtype := {| rt_ptr := 4096; rt_String := "orders.Create" |}.
Definition demo_msg : message string :=
  {| dyn := demo_rtype; MessageName := None; value := "o-1" |}.
Definition demo_send (ctx : unit) (env : Envelope string nat) (s : list string)
    : outcome (option error) * list string := (Returns None, s ++ [value (Message env)]).
Definition demo_opts : list (BusOption (V := string) (R := nat) (S := list string) (Ctx := unit)) :=
  [ WithTransport "async" demo_send; WithRouter {[ "orders.Create" := "async" ]} ].
Definition demo_bus : MessageBus (V := string) (R := nat) (S := list string) (Ctx := unit) :=
  match NewBus "demo" demo_opts with
  | Returns b => b
  | _ => foldl apply {| bus_name := ""; handlers := ∅; router := ∅; transports := ∅; mws := [];
                        closed := true |} []
  end.
Definition demo_env : Envelope string nat := NewEnvelope 0%Z demo_msg [].

Lemma NewBus_routes_registered_witness :
  NewBus "demo" demo_opts = Returns demo_bus
  ∧ (dispatchTerminal demo_bus tt demo_env [] = syncTerminal demo_bus tt demo_env []
     ∨ ∃ t sender, transports demo_bus !! t = Some sender
         ∧ Route (router demo_bus) (Message demo_env) = t
         ∧ dispatchTerminal demo_bus tt demo_env [] = sendToTransport demo_bus t tt demo_env []).
Proof.
  split; [reflexivity|].
  apply (NewBus_routes_registered "demo" demo_opts demo_bus demo_env); reflexivity.
Defined.

Lemma TypeNamesOf_correct_witness :
  TypeNamesOf ∅ [demo_msg; demo_msg] = ["orders.Create"; "orders.Create"].
Proof.
  apply (TypeNamesOf_correct [demo_rtype] [demo_msg; demo_msg]).
  - intros r1 r2 ->%list_elem_of_singleton ->%list_elem_of_singleton _. reflexivity.
  - intros m Hm. rewrite !elem_of_cons in Hm.
    destruct Hm as [->|[->|[]%elem_of_nil]]; simpl; by left.
Defined.
