(* ===== verification/MessengerMiddleware.v ===== *)
(** * Messenger middleware

    [MessengerMiddleware.v] models messenger/middleware: recovery.go, validation.go, timeout.go,
    conditional.go and retry.go, with the delays of retry.go in the float64 arithmetic of
    Float.v.  The timers, the random source and the validator are parameters. *)

From Stdlib Require Import QArith Lqa.
From S2P Require Import Prelude Float Errors Event Messenger.

(** ** RetryConfig *)

Record RetryConfig := {
  MaxRetries : Z; Delay : Z; Multiplier : float64; MaxDelay : Z; Jitter : float64
}.

Definition DefaultRetryConfig : RetryConfig :=
  {| MaxRetries := 3; Delay := 100 * 10 ^ 6; Multiplier := of_int64 2; MaxDelay := 10 * 10 ^ 9;
     Jitter := fdiv_pos 1 0 10 0 |}.

(** The delay before an attempt; [bits] is what [rand.Float64] draws. *)
Definition backoff (cfg : RetryConfig) (attempt bits : Z) : Z :=
  let d := fmul (of_int64 (Delay cfg)) (Pow (Multiplier cfg) (attempt - 1)) in
  let d := if fltb (of_int64 0) (Jitter cfg)
           then let jitter := fmul (fmul d (Jitter cfg)) (fsub (fmul (rand_Float64 bits) (of_int64 2)) fone) in
                fadd d jitter
           else d in
  let d := if fltb (of_int64 (MaxDelay cfg)) d then of_int64 (MaxDelay cfg) else d in
  to_int64 d.

Section Middleware.
Context {V R S Ctx : Type}.
Notation message := (message V).
Notation Envelope := (Envelope V R).
Notation Middleware := (Middleware (V := V) (R := R) (S := S) (Ctx := Ctx)).
Notation MiddlewareNext := (MiddlewareNext (V := V) (R := R) (S := S) (Ctx := Ctx)).
Notation action := (action (S := S)).

(** ** Recovery *)

(** The deferred function turns a panic into an error; the result is the zero value. *)
Definition Recovery : Middleware := λ ctx env next s,
  match next ctx env s with
  | (Panics r, s) =>
      (Returns (Err (EText ("messenger: panic in handler for " +:+ TypeName (Message env)
                            +:+ ": " +:+ r))), s)
  | r => r
  end.

(** ** Validation *)

Definition Validation (validate : message → option error) : Middleware := λ ctx env next s,
  match validate (Message env) with
  | Some err =>
      fail (Errorf_w ("messenger: validation failed for " +:+ TypeName (Message env) +:+ ": ") err) s
  | None => next ctx env s
  end.

(** ** Timeout *)

Record Timeout := { defaultTimeout : Z; perType : gmap string Z }.
Definition NewTimeout (d : Z) : Timeout := {| defaultTimeout := d; perType := ∅ |}.
Definition WithTypeTimeout (m : Timeout) (msgType : string) (d : Z) : Timeout :=
  {| defaultTimeout := defaultTimeout m; perType := <[msgType := d]> (perType m) |}.

(** [context.WithTimeout] is a parameter. *)
Definition Timeout_Handle (WithTimeout : Ctx → Z → Ctx) (m : Timeout) : Middleware :=
  λ ctx env next,
    next (WithTimeout ctx (default (defaultTimeout m) (perType m !! TypeName (Message env)))) env.

(** ** Conditional *)

Inductive Condition := Always | OnCommand | OnQuery | OnConsumed | OnAsync | OnSync | OtherCondition.

Definition resolveIsCommand (registry : option (HandlerRegistry (V := V) (R := R) (S := S) (Ctx := Ctx)))
    (env : Envelope) : bool * bool :=
  match registry with
  | None => (false, false)
  | Some reg =>
      match Resolve reg (Message env) with
      | Err _ => (false, false)
      | Ok h => (IsCommand h, true)
      end
  end.

Definition shouldExecute (cond : Condition) (registry : option HandlerRegistry) (env : Envelope) : bool :=
  match cond with
  | Always => true
  | OnCommand => let '(isCmd, ok) := resolveIsCommand registry env in ok && isCmd
  | OnQuery => let '(isCmd, ok) := resolveIsCommand registry env in ok && negb isCmd
  | OnConsumed => HasStamp env NameReceived
  | OnAsync => HasStamp env NameSent || HasStamp env NameReceived
  | OnSync => negb (HasStamp env NameSent) && negb (HasStamp env NameReceived)
  | OtherCondition => true
  end.

Definition Conditional (inner : Middleware) (cond : Condition) (registry : option HandlerRegistry)
    : Middleware := λ ctx env next,
  if negb (shouldExecute cond registry env) then next ctx env else inner ctx env next.

Definition WhenCommand (inner : Middleware) (registry : HandlerRegistry) : Middleware :=
  Conditional inner OnCommand (Some registry).
Definition WhenQuery (inner : Middleware) (registry : HandlerRegistry) : Middleware :=
  Conditional inner OnQuery (Some registry).
Definition WhenConsumed (inner : Middleware) : Middleware := Conditional inner OnConsumed None.

(** ** Retry *)
Section Retry.
(** [rand.Float64] and [sleepWithContext]: the context's error when it is done before the time. *)
Context (cfg : RetryConfig) (rand : S → Z * S) (sleepWithContext : Ctx → Z → S → option error * S).

(** [sleepWithContext(ctx, m.backoff(attempt))]: the source is read only for the jitter. *)
Definition sleep (ctx : Ctx) (attempt : Z) (s : S) : option error * S :=
  let '(bits, s) := if fltb (of_int64 0) (Jitter cfg) then rand s else (0%Z, s) in
  sleepWithContext ctx (backoff cfg attempt bits) s.

(** The [for] loop: [n] attempts left, [attempt] the next one. *)
Fixpoint retry_loop (n : nat) (attempt : Z) (lastErr : error) (ctx : Ctx) (env : Envelope)
    (next : MiddlewareNext) : action (DispatchResult V R) := λ s,
  match n with
  | O => fail lastErr s
  | Datatypes.S n =>
      match sleep ctx attempt s with
      | (Some sleepErr, s) => fail sleepErr s
      | (None, s) =>
          let env := WithStamp env (RedeliveryStamp attempt (Error lastErr)) in
          match next ctx env s with
          | (Returns (Ok result), s) => ret result s
          | (Returns (Err err), s) => retry_loop n (attempt + 1) err ctx env next s
          | r => r
          end
      end
  end.

Definition Retry : Middleware := λ ctx env next s,
  match next ctx env s with
  | (Returns (Ok result), s) => ret result s
  | (Returns (Err err), s) => retry_loop (Z.to_nat (MaxRetries cfg)) 1 err ctx env next s
  | r => r
  end.
End Retry.

(** ** Properties *)

(** with [Recovery] outermost, no dispatch panics, whatever the handlers, the transports
    and the other middleware do. *)
Theorem Recovery_outermost (b : MessageBus (V := V) (R := R) (S := S) (Ctx := Ctx))
    (rest : list Middleware) (now : time) (ctx : Ctx) (cmd : message) (ss : list (stamp R)) (s : S) (p : string) :
  mws b = Recovery :: rest → (Dispatch b now ctx cmd ss s).1 ≠ Panics p.
Proof.
  intros Hm. unfold Dispatch. destruct (closed b); [done|]. rewrite Hm, buildChain_cons.
  simpl. unfold Recovery. by destruct (execute _ _ _ _) as [[]?].
Qed.

(** a message that fails validation reaches no later middleware, handler or transport:
    the state is untouched and the caller gets the validator's error. *)
Theorem Validation_blocks (b : MessageBus (V := V) (R := R) (S := S) (Ctx := Ctx))
    (validate : message → option error) (rest : list Middleware) (now : time) (ctx : Ctx)
    (cmd : message) (ss : list (stamp R)) (s : S) (err : error) :
  mws b = Validation validate :: rest → closed b = false → validate cmd = Some err →
  ∃ err', Dispatch b now ctx cmd ss s = (Returns (Err err'), s) ∧ in_tree err err'.
Proof.
  intros Hm Hc Hv. unfold Dispatch. rewrite Hc, Hm, buildChain_cons. simpl. unfold Validation.
  simpl. rewrite Hv. eexists. split; [done|].
  eapply in_tree_under; [|apply in_tree_here]. by left.
Qed.
End Middleware.

(** ** The delays of the retry middleware *)
Section Delays.
Local Open Scope Z_scope.
Implicit Types cfg : RetryConfig.

(** [2 * rand.Float64() - 1] is between -1 and 1. *)
Lemma spread_range bits :
  0 <= bits < 2 ^ 53 →
  ∃ m e, fsub (fmul (rand_Float64 bits) (of_int64 2)) fone = Finite m e ∧ (-(1) <= dy m e)%Q ∧ (dy m e <= 1)%Q.
Proof.
  intros Hb. change (of_int64 2) with (Finite 2 0). unfold rand_Float64.
  assert (Hr : (0 <= dy bits (-53) * dy 2 0)%Q ∧ (dy bits (-53) * dy 2 0 <= 2)%Q).
  { rewrite <- dy_mul. change (2%Q) with (inject_Z 2). rewrite <- dy_int, <- (dy_zero (-53 + 0)).
    rewrite (dy_common 2 0 (-53 + 0)) by lia. rewrite !dy_le. lia. }
  destruct (fmul_between bits (-53) 2 0 0 0 2 0) as (m & e & -> & _ & Hlo & Hhi);
    [apply rep_zero|by apply rep_int|rewrite dy_zero; apply Hr|rewrite dy_int; apply Hr|].
  rewrite dy_zero in Hlo. rewrite dy_int in Hhi. change (inject_Z 2) with 2%Q in Hhi.
  unfold fsub. change (fopp fone) with (Finite (-1) 0).
  destruct (fadd_between m e (-1) 0 (-1) 0 1 0) as (m' & e' & -> & _ & Hlo' & Hhi');
    [by apply rep_int..|rewrite !dy_int; change (inject_Z (-1)) with (-(1))%Q; lra
    |rewrite !dy_int; change (inject_Z (-1)) with (-(1))%Q; change (inject_Z 1) with 1%Q; lra|].
  exists m', e'. rewrite dy_int in Hlo', Hhi'. done.
Qed.

Lemma Qmult_spread (x t d : Q) :
  (0 <= x)%Q → (x <= d)%Q → (-(1) <= t)%Q → (t <= 1)%Q → (- d <= x * t)%Q ∧ (x * t <= d)%Q.
Proof.
  intros Hx Hd Ht0 Ht1. assert (0 <= x * (1 - t))%Q by (apply Qmult_le_0_compat; lra).
  assert (0 <= x * (1 + t))%Q by (apply Qmult_le_0_compat; lra). split; lra.
Qed.

(** A jitter of at most the whole delay does not make it negative. *)
Lemma jittered_nonneg m e jm je bits :
  rep m e → 0 <= m → (0 <= dy jm je)%Q → (dy jm je <= 1)%Q → 0 <= bits < 2 ^ 53 →
  nonneg (fadd (Finite m e) (fmul (fmul (Finite m e) (Finite jm je))
            (fsub (fmul (rand_Float64 bits) (of_int64 2)) fone))).
Proof.
  intros Hr Hm Hj0 Hj1 Hb. destruct (spread_range bits Hb) as (tm & te & -> & Ht0 & Ht1).
  apply (dy_nonneg m e) in Hm as Hd.
  destruct (fmul_between m e jm je 0 0 m e) as (m1 & e1 & -> & _ & Hlo1 & Hhi1);
    [apply rep_zero|done|rewrite dy_zero; by apply Qmult_le_0_compat|nra|].
  rewrite dy_zero in Hlo1.
  destruct (fmul_between m1 e1 tm te (- m) e m e) as (m2 & e2 & -> & _ & Hlo2 & _);
    [by apply rep_opp|done|rewrite dy_opp|..|]; try (by apply Qmult_spread).
  rewrite dy_opp in Hlo2. cbn [fadd]. apply round_nonneg, (dy_nonneg _ (Z.min e e2)). rewrite dy_add. lra.
Qed.

(** The cap. *)
Lemma capped_range x max :
  0 <= max <= 2 ^ 53 → nonneg x →
  0 <= to_int64 (if fltb (of_int64 max) x then of_int64 max else x) <= max.
Proof.
  intros Hmax Hx. destruct (of_int64_exact max) as (m & e & -> & _ & Heq); [lia|].
  assert (Hm : 0 <= to_int64 (Finite m e) <= max).
  { apply to_int64_between; [lia|lia|rewrite Heq; apply dy_le; lia|by rewrite Heq; apply Qle_refl]. }
  destruct (fltb (Finite m e) x) eqn:Hlt; [done|]. destruct x as [m' e'|neg|]; [|by cbn in Hx; subst|done].
  apply fltb_false in Hlt. rewrite Heq in Hlt. apply to_int64_between; [lia|lia| |done].
  rewrite dy_zero. by apply dy_nonneg.
Qed.

(** The delay without jitter. *)
Definition exponential cfg (attempt : Z) : float64 :=
  fmul (of_int64 (Delay cfg)) (Pow (Multiplier cfg) (attempt - 1)).

Lemma exponential_nonneg cfg attempt m e :
  0 < Delay cfg <= 2 ^ 53 → Multiplier cfg = Finite m e → 0 <= m → nonneg (exponential cfg attempt).
Proof.
  intros Hd Hmul Hm. unfold exponential. rewrite Hmul.
  destruct (of_int64_exact (Delay cfg)) as (dm & de & -> & _ & Heq); [lia|].
  assert (0 < dm) as Hdm.
  { apply (dy_lt 0 dm de). rewrite Heq, dy_zero, <- (dy_zero 0). apply dy_lt. lia. }
  pose proof (Pow_nonneg m e (attempt - 1) Hm) as Hp. destruct (Pow _ _) as [pm pe|neg|]; [| |done].
  - cbn. apply round_nonneg. cbn in Hp. nia.
  - cbn in *. subst. destruct (Z.eqb_spec dm 0); [lia|]. cbn. destruct (Z.ltb_spec dm 0); [lia|done].
Qed.

(** C37: the delay of a retry is between zero and [MaxDelay], whatever the random source draws,
    for a positive delay, a multiplier that is not negative and a jitter between 0 and 1, as
    long as the exponential does not overflow or there is no jitter. *)
Theorem backoff_range cfg (attempt bits mm me jm je : Z) :
  0 < Delay cfg <= 2 ^ 53 → 0 <= MaxDelay cfg <= 2 ^ 53 →
  Multiplier cfg = Finite mm me → 0 <= mm →
  Jitter cfg = Finite jm je → (0 <= dy jm je)%Q → (dy jm je <= 1)%Q → 0 <= bits < 2 ^ 53 →
  (jm = 0 ∨ fltb (exponential cfg attempt) (Inf false) = true) →
  0 <= backoff cfg attempt bits <= MaxDelay cfg.
Proof.
  intros Hd Hmax Hmul Hm Hjit Hj0 Hj1 Hb Hfin.
  pose proof (exponential_nonneg cfg attempt mm me Hd Hmul Hm) as Hx.
  unfold backoff. apply capped_range; [done|]. fold (exponential cfg attempt). rewrite Hjit.
  destruct (fltb (of_int64 0) (Finite jm je)) eqn:Hpos; [|done].
  change (of_int64 0) with (Finite 0 0) in Hpos. apply fltb_spec in Hpos. rewrite dy_zero in Hpos.
  destruct Hfin as [->|Hfin]; [rewrite dy_zero in Hpos; lra|].
  destruct (exponential cfg attempt) as [m e|neg|] eqn:Hexp; [|by cbn in Hx; subst|done].
  apply jittered_nonneg; try done. by apply fmul_Finite in Hexp.
Qed.

(** with the default multiplier and no jitter the delays double exactly up to the cap: the
    float64 arithmetic of [math.Pow] loses nothing. *)
Theorem backoff_doubles cfg (attempt bits : Z) :
  0 <= Delay cfg <= 2 ^ 53 → 0 <= MaxDelay cfg <= 2 ^ 53 →
  Multiplier cfg = of_int64 2 → Jitter cfg = of_int64 0 → 1 <= attempt <= 900 →
  backoff cfg attempt bits = Z.min (Delay cfg * 2 ^ (attempt - 1)) (MaxDelay cfg).
Proof.
  intros Hd Hmax Hmul Hjit Ha. unfold backoff. rewrite Hmul, Hjit. change (fltb (of_int64 0) (of_int64 0)) with false.
  cbv iota. set (n := attempt - 1).
  destruct (of_int64_exact (Delay cfg)) as (dm & de & -> & _ & Hdv); [lia|].
  destruct (Pow_two n) as (pm & pe & -> & Hpv); [lia|].
  assert (Hrep : rep (Delay cfg) n).
  { split_and!; [lia|unfold min_exp; lia|]. right. apply Z.leb_gt.
    assert (Z.log2 (Z.abs (Delay cfg)) <= 53) by (rewrite <- (Z.log2_pow2 53) by lia; apply Z.log2_le_mono; lia). lia. }
  destruct (fmul_exact dm de pm pe (Delay cfg) n Hrep) as (m & e & -> & _ & Hv).
  { rewrite Hdv, Hpv, <- dy_mul. by rewrite Z.mul_1_r. }
  destruct (of_int64_exact (MaxDelay cfg)) as (xm & xe & -> & _ & Hxv); [lia|].
  rewrite (dy_common (Delay cfg) n 0) in Hv by lia. rewrite Z.sub_0_r in Hv.
  assert (Hto : ∀ a b z, 0 <= z <= 2 ^ 53 → (dy a b == dy z 0)%Q → to_int64 (Finite a b) = z).
  { intros a b z Hz Hab. assert (z <= to_int64 (Finite a b) <= z); [|lia].
    apply to_int64_between; [lia|lia|rewrite Hab; apply Qle_refl..]. }
  destruct (fltb (Finite xm xe) (Finite m e)) eqn:Hlt.
  - apply fltb_spec in Hlt. rewrite Hxv, Hv, dy_lt in Hlt. rewrite Z.min_r by lia. by apply Hto.
  - apply fltb_false in Hlt. rewrite Hxv, Hv, dy_le in Hlt. rewrite Z.min_l by lia. apply Hto; [|done].
    split; [|lia]. apply Z.mul_nonneg_nonneg; lia.
Qed.
End Delays.

(** A [next] that records the envelopes it is called with. *)
Section RetryProperties.
Context {V R S Ctx : Type}.
Notation Envelope := (Envelope V R).
Notation action := (action (S := S)).
Context (next : Ctx → Envelope → action (DispatchResult V R)).
Context (cfg : RetryConfig) (rand : S → Z * S) (sleepWithContext : Ctx → Z → S → option error * S).

Definition logged_next (ctx : Ctx) (env : Envelope) (s : S * list Envelope)
    : outcome (result error (DispatchResult V R)) * (S * list Envelope) :=
  let '(r, s') := next ctx env s.1 in (r, (s', s.2 ++ [env])).
Definition logged_rand (s : S * list Envelope) : Z * (S * list Envelope) :=
  let '(k, s') := rand s.1 in (k, (s', s.2)).
Definition logged_sleep (ctx : Ctx) (d : Z) (s : S * list Envelope)
    : option error * (S * list Envelope) :=
  let '(r, s') := sleepWithContext ctx d s.1 in (r, (s', s.2)).
Notation sleep' := (sleep cfg rand sleepWithContext).
Notation retry_loop' := (retry_loop cfg logged_rand logged_sleep).

(** The envelopes of the retries after [env]: each carries one more [RedeliveryStamp], with
    the attempt number. *)
Inductive redelivered : Z → Envelope → list Envelope → Prop :=
| redelivered_nil attempt env : redelivered attempt env []
| redelivered_cons attempt env err l :
    redelivered (attempt + 1) (WithStamp env (RedeliveryStamp attempt err)) l →
    redelivered attempt env (WithStamp env (RedeliveryStamp attempt err) :: l).

Lemma logged_sleep_eq ctx attempt s log :
  sleep cfg logged_rand logged_sleep ctx attempt (s, log) = ((sleep' ctx attempt s).1, ((sleep' ctx attempt s).2, log)).
Proof.
  unfold sleep, logged_rand, logged_sleep. cbn [fst snd].
  destruct (fltb (of_int64 0) (Jitter cfg)); [destruct (rand s)|]; cbn [fst snd];
    by destruct (sleepWithContext _ _ _).
Qed.

Lemma logged_next_eq ctx env s log :
  logged_next ctx env (s, log) = ((next ctx env s).1, ((next ctx env s).2, log ++ [env])).
Proof. unfold logged_next. simpl. by destruct (next ctx env s). Qed.

Lemma retry_loop_spec n attempt lastErr ctx env s log :
  let r := retry_loop' n attempt lastErr ctx env logged_next (s, log) in
  ∃ l, r.2.2 = log ++ l ∧ length l ≤ n ∧ redelivered attempt env l
       ∧ (∀ err, r.1 = Returns (Err err) → length l = n ∨ ∃ k s0, (sleep' ctx k s0).1 = Some err).
Proof.
  revert attempt lastErr env s log. induction n as [|n IH]; intros attempt lastErr env s log; simpl.
  { exists []. rewrite app_nil_r. split_and!; [done|done|constructor|by left]. }
  rewrite !logged_sleep_eq. destruct (sleep' ctx attempt s) as [[serr|] s1] eqn:Hs; simpl.
  { exists []. rewrite app_nil_r. split_and!; [done|simpl; lia|constructor|].
    intros err [= <-]. right. exists attempt, s. by rewrite Hs. }
  set (env1 := WithStamp env _). rewrite !logged_next_eq.
  destruct (next ctx env1 s1) as [[[res|err]|p|] s2]; simpl.
  - exists [env1]. split_and!; [done|simpl; lia|by repeat constructor|done].
  - destruct (IH (attempt + 1)%Z err env1 s2 (log ++ [env1])) as (l & Hl & Hlen & Hred & Herr).
    exists (env1 :: l). split_and!; [|simpl; lia|by constructor|].
    + rewrite Hl. by rewrite <- app_assoc.
    + intros e He. destruct (Herr e He) as [Hn|?]; [left; simpl; lia|by right].
  - exists [env1]. split_and!; [done|simpl; lia|by repeat constructor|done].
  - exists [env1]. split_and!; [done|simpl; lia|by repeat constructor|done].
Qed.

(** the retry middleware calls the rest of the chain once, then at most [MaxRetries] more
    times, each time with one more [RedeliveryStamp] numbered from 1; it gives up with an
    error only after all attempts or when the wait is interrupted. *)
Theorem Retry_attempts (ctx : Ctx) (env : Envelope) (s : S) :
  let r := Retry cfg logged_rand logged_sleep ctx env logged_next (s, []) in
  ∃ l, r.2.2 = env :: l ∧ (Z.of_nat (length l) ≤ Z.max 0 (MaxRetries cfg))%Z ∧ redelivered 1 env l
       ∧ (∀ err, r.1 = Returns (Err err) →
            Z.of_nat (length l) = Z.max 0 (MaxRetries cfg) ∨ ∃ k s0, (sleep' ctx k s0).1 = Some err).
Proof.
  unfold Retry. rewrite !logged_next_eq.
  destruct (next ctx env s) as [[[res|err]|p|] s1]; simpl.
  - exists []. split_and!; [done|simpl; lia|constructor|done].
  - destruct (retry_loop_spec (Z.to_nat (MaxRetries cfg)) 1 err ctx env s1 [env])
      as (l & Hl & Hlen & Hred & Herr). exists l. split_and!; [done|lia|done|].
    intros e He. destruct (Herr e He) as [Hn|?]; [left; lia|by right].
  - exists []. split_and!; [done|simpl; lia|constructor|done].
  - exists []. split_and!; [done|simpl; lia|constructor|done].
Qed.
End RetryProperties.

(** ** Concrete buses *)

(** The command handler of this bus panics; [Recovery] is outermost. *)
Definition panicking_bus : MessageBus (V := string) (R := nat) (S := list string) (Ctx := unit) :=
  {| bus_name := "demo";
     handlers := {[ "orders.Create" := commandWrapper (λ _, true) "orders.Create"
                                         (λ _ _, panic "index out of range") ]};
     router := ∅; transports := ∅; mws := [Recovery]; closed := false |}.

Lemma Recovery_outermost_witness :
  (Dispatch panicking_bus 0%Z tt demo_msg [] []).1 ≠ Panics "index out of range".
Proof. apply (Recovery_outermost panicking_bus []). reflexivity. Defined.

Definition rejecting (msg : message string) : option error := Some (NewValidation "id" "is required").
Definition validating_bus : MessageBus (V := string) (R := nat) (S := list string) (Ctx := unit) :=
  {| bus_name := "demo"; handlers := ∅; router := ∅; transports := ∅;
     mws := [Validation rejecting]; closed := false |}.

Lemma Validation_blocks_witness :
  ∃ err', Dispatch validating_bus 0%Z tt demo_msg [] ["before"] = (Returns (Err err'), ["before"])
          ∧ in_tree (NewValidation "id" "is required") err'.
Proof.
  apply (Validation_blocks validating_bus rejecting [] 0%Z tt demo_msg [] ["before"]); reflexivity.
Defined.

Lemma backoff_range_witness :
  backoff DefaultRetryConfig 3 (2 ^ 51) = 380000000%Z
  ∧ (0 <= backoff DefaultRetryConfig 3 (2 ^ 51) <= MaxDelay DefaultRetryConfig)%Z.
Proof.
  split; [vm_compute; reflexivity|].
  apply (backoff_range DefaultRetryConfig 3 (2 ^ 51) 2 0 7205759403792794 (-56));
    [split; reflexivity || discriminate..|reflexivity|discriminate|vm_compute; reflexivity
    |vm_compute; discriminate|vm_compute; discriminate|split; [discriminate|reflexivity]
    |right; vm_compute; reflexivity].
Defined.

Definition steady_config : RetryConfig :=
  {| MaxRetries := 3; Delay := 100 * 10 ^ 6; Multiplier := of_int64 2; MaxDelay := 10 * 10 ^ 9;
     Jitter := of_int64 0 |}.

Lemma backoff_doubles_witness :
  backoff steady_config 4 0 = 800000000%Z
  ∧ backoff steady_config 4 0 = Z.min (Delay steady_config * 2 ^ (4 - 1)) (MaxDelay steady_config).
Proof.
  split; [vm_compute; reflexivity|].
  apply (backoff_doubles steady_config 4 0); [split; discriminate..|reflexivity|reflexivity|split; discriminate].
Defined.

(** Once the exponential has overflowed to infinity, the jitter makes it NaN: the cap does not
    apply, and the delay is negative, that is none. *)
Example backoff_overflow_waits_not : backoff DefaultRetryConfig 1100 0 = (- 2 ^ 63)%Z.
Proof. vm_compute. reflexivity. Qed.
