(* ===== verification/MessengerWorker.v ===== *)
(** * Transports and the consuming worker

    [MessengerWorker.v] models messenger/transport/memory/transport.go (the channel transport),
    messenger/transport/circuit.go and messenger/worker/worker.go, and runs the worker on the
    channel transport. *)

From S2P Require Import Prelude Errors GoText Event Messenger OutboxWorker.

Section Transport.
Context {V R S Ctx : Type}.
Notation message := (message V).
Notation Envelope := (Envelope V R).
Notation MessageBus := (MessageBus (V := V) (R := R) (S := S) (Ctx := Ctx)).

(** ** Receivers and the worker *)

Record Receiver := {
  Get : Ctx → S → outcome (result error (list Envelope)) * S;
  Ack : Ctx → Envelope → S → outcome (option error) * S;
  Reject : Ctx → Envelope → error → S → outcome (option error) * S
}.

(** Failures to acknowledge or to reject are only logged. *)
Definition logged (r : outcome (option error) * S) : outcome unit * S :=
  match r with
  | (Returns _, s) => (Returns tt, s)
  | (Panics p, s) => (Panics p, s)
  | (Hangs, s) => (Hangs, s)
  end.

Definition processMessage (bus : MessageBus) (now : time) (ctx : Ctx) (transportName : string)
    (receiver : Receiver) (env : Envelope) (s : S) : outcome unit * S :=
  let env := WithStamp env (ReceivedStamp transportName now) in
  match Dispatch bus now ctx (Message env) (Stamps env) s with
  | (Returns (Err err), s) => logged (Reject receiver ctx env err s)
  | (Returns (Ok _), s) => logged (Ack receiver ctx env s)
  | (Panics p, s) => (Panics p, s)
  | (Hangs, s) => (Hangs, s)
  end.

Fixpoint processAll (bus : MessageBus) (now : time) (ctx : Ctx) (transportName : string)
    (receiver : Receiver) (envelopes : list Envelope) (s : S) : outcome unit * S :=
  match envelopes with
  | [] => (Returns tt, s)
  | env :: rest =>
      match processMessage bus now ctx transportName receiver env s with
      | (Returns _, s) => processAll bus now ctx transportName receiver rest s
      | r => r
      end
  end.

(** One turn of [consumeLoop] with the context not cancelled; after an error or an empty
    batch the loop sleeps for [PollInterval]. *)
Definition consume_turn (bus : MessageBus) (now : time) (ctx : Ctx) (transportName : string)
    (receiver : Receiver) (s : S) : outcome unit * S :=
  match Get receiver ctx s with
  | (Returns (Err _), s) => (Returns tt, s)
  | (Returns (Ok envelopes), s) => processAll bus now ctx transportName receiver envelopes s
  | (Panics p, s) => (Panics p, s)
  | (Hangs, s) => (Hangs, s)
  end.

(** The turns of the loop at the given times. *)
Fixpoint consume (bus : MessageBus) (ctx : Ctx) (transportName : string) (receiver : Receiver)
    (times : list time) (s : S) : outcome unit * S :=
  match times with
  | [] => (Returns tt, s)
  | now :: rest =>
      match consume_turn bus now ctx transportName receiver s with
      | (Returns _, s) => consume bus ctx transportName receiver rest s
      | r => r
      end
  end.

(** ** Options of the worker *)

Record Options := { Concurrency : Z; PollInterval : Z; ShutdownTimeout : Z }.
Definition DefaultOptions : Options :=
  {| Concurrency := 1; PollInterval := 10 ^ 9; ShutdownTimeout := 30 * 10 ^ 9 |}.

(** The options; loggers are left out. *)
Definition WithConcurrency (n : Z) (o : Options) : Options :=
  {| Concurrency := n; PollInterval := PollInterval o; ShutdownTimeout := ShutdownTimeout o |}.
Definition WithPollInterval (d : Z) (o : Options) : Options :=
  {| Concurrency := Concurrency o; PollInterval := d; ShutdownTimeout := ShutdownTimeout o |}.
Definition WithShutdownTimeout (d : Z) (o : Options) : Options :=
  {| Concurrency := Concurrency o; PollInterval := PollInterval o; ShutdownTimeout := d |}.

(** The checks of [worker.New]; durations are shown in nanoseconds. *)
Definition NewWorkerOptions (opts : list (Options → Options)) : outcome Options :=
  let o := foldl (λ o opt, opt o) DefaultOptions opts in
  if bool_decide (Concurrency o < 1)%Z
  then Panics ("worker: concurrency must be >= 1, got " +:+ pretty (Concurrency o))
  else if bool_decide (PollInterval o ≤ 0)%Z
  then Panics ("worker: poll_interval must be > 0, got " +:+ pretty (PollInterval o))
  else if bool_decide (ShutdownTimeout o ≤ 0)%Z
  then Panics ("worker: shutdown_timeout must be > 0, got " +:+ pretty (ShutdownTimeout o))
  else Returns o.

(** ** CircuitSender *)
Section Circuit.
Context {C : Type} `{CircuitBreaker C}.
(** The sentinels of gobreaker and the breaker's place in the state. *)
Context (ErrOpenState ErrTooManyRequests : error).
Context (get_breaker : S → C) (put_breaker : C → S → S).
Notation Sender := (Ctx → Envelope → S → option error * S).

Definition CircuitSend (name : string) (inner : Sender) (fallback : option Sender) : Sender :=
  λ ctx env s,
    let '(err, (c, s)) := Execute (λ s, inner ctx env s) (get_breaker s, s) in
    let s := put_breaker c s in
    match err with
    | None => (None, s)
    | Some err =>
        if errors_Is err ErrOpenState || errors_Is err ErrTooManyRequests then
          match fallback with
          | Some f => f ctx env s
          | None => (Some (sentinel_with ErrCircuitOpen ("transport " +:+ Quote name)), s)
          end
        else (Some (Errorf_w ("circuit sender " +:+ Quote name +:+ ": ") err), s)
    end.

(** the breaker never hides a failed send: when [CircuitSender.Send] reports success, the
    wrapped sender accepted the envelope, or the fallback did; and it invokes the wrapped
    sender at most once, on the state it was called with. *)
Theorem CircuitSend_success (name : string) (inner : Sender) (fallback : option Sender)
    (ctx : Ctx) (env : Envelope) (s : S) :
  (CircuitSend name inner fallback ctx env s).1 = None →
  (∃ c, inner ctx env s = (None, (inner ctx env s).2)
        ∧ (CircuitSend name inner fallback ctx env s).2 = put_breaker c (inner ctx env s).2)
  ∨ (∃ f c s1, fallback = Some f ∧ (s1 = s ∨ s1 = (inner ctx env s).2)
        ∧ CircuitSend name inner fallback ctx env s = f ctx env (put_breaker c s1)
        ∧ (f ctx env (put_breaker c s1)).1 = None).
Proof.
  unfold CircuitSend.
  destruct (Execute_spec (λ s, inner ctx env s) (get_breaker s) s)
    as [(err & c & ->)|(c & ->)].
  - intros Hok. destruct (errors_Is err ErrOpenState || errors_Is err ErrTooManyRequests); [|done].
    destruct fallback as [f|]; [|done]. right. exists f, c, s. auto.
  - destruct (inner ctx env s) as [[err|] s1]; simpl.
    + intros Hok. destruct (errors_Is err ErrOpenState || errors_Is err ErrTooManyRequests); [|done].
      destruct fallback as [f|]; [|done]. right. exists f, c, s1. auto.
    + intros _. left. by exists c.
Qed.
End Circuit.
End Transport.

(** ** The memory transport *)
Section Memory.
Context {V R H Ctx : Type}.
Notation message := (message V).
Notation Envelope := (Envelope V R).

(** The channel with its capacity, the pending map, the closed flag and the process-wide
    sequence number; [hst] is the state of the handlers. *)
Record mstate := {
  t_name : string;
  ch : list Envelope;
  cap : nat;
  pending : gmap string Envelope;
  t_closed : bool;
  pendingSeq : Z;
  hst : H
}.

Definition set_ch (l : list Envelope) (s : mstate) : mstate :=
  {| t_name := t_name s; ch := l; cap := cap s; pending := pending s; t_closed := t_closed s;
     pendingSeq := pendingSeq s; hst := hst s |}.
Definition set_pending (m : gmap string Envelope) (s : mstate) : mstate :=
  {| t_name := t_name s; ch := ch s; cap := cap s; pending := m; t_closed := t_closed s;
     pendingSeq := pendingSeq s; hst := hst s |}.
Definition set_seq (n : Z) (s : mstate) : mstate :=
  {| t_name := t_name s; ch := ch s; cap := cap s; pending := pending s; t_closed := t_closed s;
     pendingSeq := n; hst := hst s |}.
Definition set_hst (h : H) (s : mstate) : mstate :=
  {| t_name := t_name s; ch := ch s; cap := cap s; pending := pending s; t_closed := t_closed s;
     pendingSeq := pendingSeq s; hst := h |}.

Definition closed_error (s : mstate) : error := EText ("transport: " +:+ t_name s +:+ " is closed").

(** [pendingSeq.Add(1)] on a [Uint64]. *)
Definition next_seq (s : mstate) : Z := ((pendingSeq s + 1) `mod` 2 ^ 64)%Z.

(** The send blocks while the buffer is full, whatever the context. *)
Definition mem_Send (ctx : Ctx) (env : Envelope) (s : mstate) : outcome (option error) * mstate :=
  if t_closed s then (Returns (Some (closed_error s)), s)
  else
    let n := next_seq s in
    let env := WithStamp env (memoryIDStamp (pretty n)) in
    let s := set_seq n s in
    if decide (length (ch s) < cap s) then (Returns None, set_ch (ch s ++ [env]) s)
    else (Hangs, s).

Definition pendingKey (env : Envelope) : outcome string :=
  match Last env NameMemoryID with
  | Some (memoryIDStamp id) => Returns id
  | Some _ => Panics "interface conversion: stamp is not memoryIDStamp"
  | None => Returns (TypeName (Message env) +:+ ":" +:+ pretty (createdAt env))
  end.

(** An envelope is available, or the channel is closed, or the call waits. *)
Definition mem_Get (ctx : Ctx) (s : mstate) : outcome (result error (list Envelope)) * mstate :=
  match ch s with
  | env :: rest =>
      match pendingKey env with
      | Returns key => (Returns (Ok [env]), set_pending (<[key := env]> (pending s)) (set_ch rest s))
      | Panics p => (Panics p, set_ch rest s)
      | Hangs => (Hangs, s)
      end
  | [] => if t_closed s then (Returns (Ok []), s) else (Hangs, s)
  end.

Definition mem_Ack (ctx : Ctx) (env : Envelope) (s : mstate) : outcome (option error) * mstate :=
  match pendingKey env with
  | Returns key => (Returns None, set_pending (delete key (pending s)) s)
  | Panics p => (Panics p, s)
  | Hangs => (Hangs, s)
  end.

Definition mem_Reject (ctx : Ctx) (env : Envelope) (reason : error) (s : mstate)
    : outcome (option error) * mstate :=
  match pendingKey env with
  | Panics p => (Panics p, s)
  | Hangs => (Hangs, s)
  | Returns key =>
      let s := set_pending (delete key (pending s)) s in
      if t_closed s then (Returns (Some (closed_error s)), s)
      else if decide (length (ch s) < cap s) then (Returns None, set_ch (ch s ++ [env]) s)
      else (Returns (Some (EText ("transport: " +:+ t_name s
                            +:+ " buffer full, message dropped on reject"))), s)
  end.

Definition mem_Close (s : mstate) : mstate :=
  {| t_name := t_name s; ch := ch s; cap := cap s; pending := pending s; t_closed := true;
     pendingSeq := pendingSeq s; hst := hst s |}.

(** [make(chan Envelope, size)] panics on a negative size.  The sequence number is shared by
    all transports of the process. *)
Inductive mem_option := WithBufferSize (size : Z) | WithName (name : string).
Definition defaultBufferSize : Z := 1000.
Fixpoint mem_New_loop (opts : list mem_option) (s : mstate) : outcome mstate :=
  match opts with
  | [] => Returns s
  | WithBufferSize size :: opts =>
      if bool_decide (size < 0)%Z then Panics "makechan: size out of range"
      else mem_New_loop opts
             {| t_name := t_name s; ch := []; cap := Z.to_nat size; pending := pending s;
                t_closed := t_closed s; pendingSeq := pendingSeq s; hst := hst s |}
  | WithName name :: opts =>
      mem_New_loop opts
        {| t_name := name; ch := ch s; cap := cap s; pending := pending s;
           t_closed := t_closed s; pendingSeq := pendingSeq s; hst := hst s |}
  end.
Definition mem_New (opts : list mem_option) (seq : Z) (h : H) : outcome mstate :=
  mem_New_loop opts {| t_name := "memory"; ch := []; cap := Z.to_nat defaultBufferSize; pending := ∅;
                       t_closed := false; pendingSeq := seq; hst := h |}.

(** [memory.Factory]: options of another type than expected are ignored. *)
Inductive any_option := OptInt (n : Z) | OptString (s : string) | OptOther.
Definition mem_Supports (dsn : string) : bool := bool_decide (is_Some (CutPrefix dsn "memory://")).
Definition mem_Create (opts : gmap string any_option) (seq : Z) (h : H) : outcome mstate :=
  let mopts := match opts !! "buffer_size" with Some (OptInt size) => [WithBufferSize size] | _ => [] end in
  let mopts := mopts ++ match opts !! "name" with Some (OptString name) => [WithName name] | _ => [] end in
  mem_New mopts seq h.

Lemma mem_Create_empty opts seq h s :
  mem_Create opts seq h = Returns s → ch s = [] ∧ pending s = ∅ ∧ t_closed s = false ∧ hst s = h.
Proof.
  unfold mem_Create, mem_New.
  destruct (opts !! "buffer_size") as [[size| |]|], (opts !! "name") as [[|name|]|]; cbn;
    try case_bool_decide; intros [= <-]; done.
Qed.

Definition mem_receiver : Receiver (V := V) (R := R) (S := mstate) (Ctx := Ctx) :=
  {| Get := mem_Get; Ack := mem_Ack; Reject := mem_Reject |}.
End Memory.

(** ** Properties *)
Section WorkerProperties.
Context {V R S Ctx : Type}.
Notation Envelope := (Envelope V R).
Notation MessageBus := (MessageBus (V := V) (R := R) (S := S) (Ctx := Ctx)).

(** [Last] and [HasStamp] see through a stamp of another name and a copied envelope. *)
Lemma find_first_snoc name (ss : list (stamp R)) st :
  find_first name (reverse (ss ++ [st]))
  = if (StampName st =? name)%string then Some st else find_first name (reverse ss).
Proof. by rewrite reverse_app. Qed.

Lemma HasStamp_snoc (env : Envelope) (st : stamp R) name :
  HasStamp (WithStamp env st) name = HasStamp env name || (StampName st =? name)%string.
Proof.
  unfold HasStamp, WithStamp. cbn [stamps]. rewrite existsb_app. simpl. by rewrite orb_false_r.
Qed.

(** A message on a bus that does not route it elsewhere. *)
Definition handled_here (bus : MessageBus) (env : Envelope) : Prop :=
  mws bus = [] ∧ closed bus = false
  ∧ (HasStamp env NameForceSync = true
     ∨ (Last env NameForceTransport = None ∧ Route (router bus) (Message env) = "")).

(** the worker delivers each received message of an unrouted type to its handler exactly
    once, then acknowledges it when the handler succeeds and rejects it, with the handler's
    error, when it fails; a message without handler is rejected. *)
Theorem processMessage_handles (bus : MessageBus) (now : time) (ctx : Ctx) (tname : string)
    (receiver : Receiver (V := V) (R := R) (S := S) (Ctx := Ctx)) (env : Envelope) (s : S) :
  handled_here bus env →
  let env' := WithStamp env (ReceivedStamp tname now) in
  processMessage bus now ctx tname receiver env s
  = match Resolve (handlers bus) (Message env) with
    | Err err => logged (Reject receiver ctx env' err s)
    | Ok h =>
        match HandleAny h ctx (Message env) s with
        | (Returns (Ok _), s1) => logged (Ack receiver ctx env' s1)
        | (Returns (Err err), s1) => logged (Reject receiver ctx env' err s1)
        | (Panics p, s1) => (Panics p, s1)
        | (Hangs, s1) => (Hangs, s1)
        end
    end.
Proof.
  intros (Hm & Hc & Hroute). unfold processMessage, Dispatch. rewrite Hc, Hm.
  set (env1 := WithStamp env _). set (env2 := NewEnvelope now (Message env1) (Stamps env1)).
  assert (Hdisp : execute (buildChain [] (dispatchTerminal bus)) ctx env2 s
                  = syncTerminal bus ctx env2 s).
  { simpl. unfold dispatchTerminal. change (HasStamp env2) with (HasStamp env1).
    subst env1. rewrite HasStamp_snoc. destruct Hroute as [->|[Hf Hr]]; [done|].
    destruct (HasStamp env NameForceSync || _); [done|]. unfold Last. simpl.
    rewrite find_first_snoc. simpl. unfold Last in Hf. rewrite Hf. by rewrite Hr. }
  rewrite Hdisp. unfold syncTerminal. simpl.
  destruct (Resolve (handlers bus) (Message env)) as [h|err]; [|done].
  by destruct (HandleAny h ctx (Message env) s) as [[[r|err]|p|] s1].
Qed.
End WorkerProperties.

Section RoutedLoop.
Context {V R H Ctx : Type}.
Notation message := (message V).
Notation Envelope := (Envelope V R).
Notation mstate := (mstate (V := V) (R := R) (H := H)).
Notation MessageBus := (MessageBus (V := V) (R := R) (S := mstate) (Ctx := Ctx)).

(** The only message in the transport is [msg], waiting in the channel. *)
Definition circulating (msg : message) (s : mstate) : Prop :=
  t_closed s = false ∧ 0 < cap s ∧ pending s = ∅
  ∧ ∃ env id, ch s = [env] ∧ Message env = msg ∧ HasStamp env NameForceSync = false
      ∧ Last env NameForceTransport = None ∧ Last env NameMemoryID = Some (memoryIDStamp id).

(** The bus routes [msg] to the transport the worker consumes from. *)
Definition routes_back (bus : MessageBus) (tname : string) (msg : message) : Prop :=
  mws bus = [] ∧ closed bus = false ∧ tname ≠ ""
  ∧ transports bus !! tname = Some mem_Send ∧ router bus !! TypeName msg = Some tname.

Lemma routed_turn bus now ctx tname msg s :
  routes_back bus tname msg → circulating msg s →
  ∃ s', consume_turn bus now ctx tname mem_receiver s = (Returns tt, s')
        ∧ circulating msg s' ∧ hst s' = hst s.
Proof.
  intros (Hm & Hc & Hne & Ht & Hr) (Hopen & Hcap & Hpend & env & id & Hch & <- & Hfs & Hft & Hid).
  unfold consume_turn, mem_receiver, mem_Get. simpl. rewrite Hch. unfold pendingKey at 1.
  rewrite Hid. simpl. unfold processMessage.
  set (env1 := WithStamp env (ReceivedStamp tname now)).
  set (s1 := set_pending _ _). unfold Dispatch. rewrite Hc, Hm.
  set (env2 := NewEnvelope now (Message env1) (Stamps env1)).
  change (execute (buildChain [] (dispatchTerminal bus)) ctx env2)
    with (dispatchTerminal bus ctx env2).
  set (env3 := WithStamp env2 (memoryIDStamp (pretty (next_seq s1)))).
  assert (Hid1 : Last env1 NameMemoryID = Some (memoryIDStamp id)).
  { unfold Last, env1. simpl. by rewrite find_first_snoc. }
  assert (Hft2 : Last env2 NameForceTransport = None).
  { unfold Last, env2, env1. simpl. by rewrite find_first_snoc. }
  assert (Hfs2 : HasStamp env2 NameForceSync = false).
  { change (HasStamp env1 NameForceSync = false). unfold env1. by rewrite HasStamp_snoc, Hfs. }
  assert (Hdisp : dispatchTerminal bus ctx env2 s1
      = (Returns (Ok {| ResEnvelope := Some env2; Async := true |}), set_ch [env3] (set_seq (next_seq s1) s1))).
  { unfold dispatchTerminal. rewrite Hfs2, Hft2. unfold Route. simpl. rewrite Hr. simpl.
    destruct (String.eqb_spec tname "") as [|_]; [done|].
    unfold sendToTransport. rewrite Ht. unfold mem_Send. simpl. rewrite Hopen.
    destruct (decide (0 < cap s)); [done|lia]. }
  rewrite Hdisp. cbn [Ack]. unfold mem_Ack, pendingKey. rewrite Hid1. simpl.
  eexists. split; [done|]. split; [|done].
  split_and!; try done; simpl.
  - rewrite Hpend. by rewrite delete_insert_eq, delete_empty.
  - exists env3, (pretty (next_seq s1)). split_and!; try done.
    + unfold env3. by rewrite HasStamp_snoc, Hfs2.
    + unfold Last, env3. simpl. rewrite find_first_snoc. simpl. exact Hft2.
    + unfold Last, env3. simpl. by rewrite find_first_snoc.
Qed.

(** C16: a message consumed from a transport it is routed to is never handled: the worker
    dispatches it through the routing bus, which sends it back to the transport because nothing
    looks at the [ReceivedStamp], and acknowledges it; after any number of turns it is still
    the one message in the channel and the handlers' state is untouched. *)
Theorem routed_message_circulates (bus : MessageBus) (ctx : Ctx) (tname : string) (msg : message)
    (times : list time) (s : mstate) :
  routes_back bus tname msg → circulating msg s →
  ∃ s', consume bus ctx tname mem_receiver times s = (Returns tt, s')
        ∧ circulating msg s' ∧ hst s' = hst s.
Proof.
  intros Hbus. revert s. induction times as [|now times IH]; intros s Hs; simpl; [by exists s|].
  destruct (routed_turn bus now ctx tname msg s Hbus Hs) as (s1 & -> & Hs1 & Hh).
  destruct (IH s1 Hs1) as (s2 & ? & ? & ?). exists s2. split_and!; try done. congruence.
Qed.
End RoutedLoop.

(** ** A concrete worker *)

Notation demo_state := (mstate (V := string) (R := nat) (H := list string)).

(** The command handler records the order. *)
Definition demo_handler : anyHandler (V := string) (R := nat) (S := demo_state) (Ctx := unit) :=
  commandWrapper (λ _, true) "orders.Create"
    (λ _ msg s, (Returns (Ok tt), set_hst (hst s ++ [value msg]) s)).

Definition consume_bus (routes : Router) : MessageBus (V := string) (R := nat) (S := demo_state) (Ctx := unit) :=
  {| bus_name := "demo"; handlers := {[ "orders.Create" := demo_handler ]}; router := routes;
     transports := {[ "memory" := mem_Send ]}; mws := []; closed := false |}.

Definition empty_transport : demo_state :=
  {| t_name := "memory"; ch := []; cap := 10; pending := ∅; t_closed := false; pendingSeq := 0;
     hst := [] |}.
Definition one_message : demo_state := (mem_Send tt demo_env empty_transport).2.

(** Without a route the order is handled and acknowledged. *)
Example unrouted_handled :
  let r := consume (consume_bus ∅) tt "memory" mem_receiver [1%Z] one_message in
  r.1 = Returns tt ∧ hst r.2 = ["o-1"] ∧ ch r.2 = [] ∧ pending r.2 = ∅.
Proof. by vm_compute. Qed.

Lemma processMessage_handles_witness :
  handled_here (consume_bus ∅) demo_env
  ∧ (processMessage (consume_bus ∅) 1%Z tt "memory" mem_receiver demo_env one_message).1 = Returns tt.
Proof.
  assert (Hh : handled_here (consume_bus ∅) demo_env) by (split_and!; [done|done|by right]).
  split; [exact Hh|].
  rewrite (processMessage_handles (consume_bus ∅) 1%Z tt "memory" mem_receiver demo_env one_message Hh).
  reflexivity.
Defined.

Lemma routed_message_circulates_witness :
  ∃ s', consume (consume_bus {[ "orders.Create" := "memory" ]}) tt "memory" mem_receiver
          [1%Z; 2%Z; 3%Z] one_message = (Returns tt, s')
        ∧ circulating demo_msg s' ∧ hst s' = [].
Proof.
  apply (routed_message_circulates (consume_bus {[ "orders.Create" := "memory" ]}) tt "memory"
    demo_msg [1%Z; 2%Z; 3%Z] one_message).
  - split_and!; reflexivity || done.
  - split_and!; [done|simpl; lia|done|].
    exists (WithStamp demo_env (memoryIDStamp "1")), "1". split_and!; reflexivity.
Defined.

(** A sender that keeps the messages it accepts, behind a closed breaker. *)
Definition keep_send (ctx : unit) (env : Envelope string nat) (s : nat * list string)
    : option error * (nat * list string) := (None, (s.1, s.2 ++ [value (Message env)])).

Lemma CircuitSend_success_witness :
  let send := CircuitSend (EText "circuit breaker is open") (EText "too many requests")
                fst (λ c s, (c, s.2)) "memory" keep_send None in
  (send tt demo_env (0, [])).1 = None
  ∧ ∃ c, (send tt demo_env (0, [])).2 = (c, ["o-1"]).
Proof.
  intros send. assert (Hok : (send tt demo_env (0, [])).1 = None) by reflexivity.
  split; [exact Hok|].
  destruct (CircuitSend_success (EText "circuit breaker is open") (EText "too many requests")
    fst (λ c s, (c, s.2)) "memory" keep_send None tt demo_env (0, []) Hok)
    as [(c & _ & Hc)|(f & c & s1 & Hf & _)]; [exists c; exact Hc|discriminate Hf].
Defined.
