(* ===== verification/Di.v ===== *)
(** * The dependency injection container

    [Di.v] models infra/di/container.go.  A factory is what it does with the container it is
    given: it resolves keys and continues with the values, returns a value or panics.  Each
    [sync.Once] and each scope's mutex is part of the state, so that a factory that waits for a
    lock its own goroutine holds is visible as [Hangs].  Values are [option V], with [None] for
    nil. *)

From S2P Require Import Prelude Errors.

Section Container.
Context {V : Type}.

Inductive Factory :=
| FReturn (v : option V)
| FPanic (msg : string)
| FGet (key : string) (k : option V → Factory).

Record entry := { factory : Factory; isScoped : bool }.

(** A [sync.Once] with its value: absent when never started. *)
Inductive once := OnceRunning | OnceDone (v : option V).

Record scope := { sc_locked : bool; sc_values : gmap string (option V) }.

(** The root container and the scopes; [built] is the trace of the factories called, with the
    container they were called from ([None] for a singleton). *)
Record container := {
  entries : gmap string entry;
  singletons : gmap string once;
  scopes : gmap nat scope;
  built : list (option (option nat) * string)
}.

Definition New : container := {| entries := ∅; singletons := ∅; scopes := ∅; built := [] |}.

Definition AddSingleton (key : string) (f : Factory) (c : container) : container :=
  {| entries := <[key := {| factory := f; isScoped := false |}]> (entries c);
     singletons := singletons c; scopes := scopes c; built := built c |}.
Definition AddScoped (key : string) (f : Factory) (c : container) : container :=
  {| entries := <[key := {| factory := f; isScoped := true |}]> (entries c);
     singletons := singletons c; scopes := scopes c; built := built c |}.

Definition set_once (key : string) (o : once) (c : container) : container :=
  {| entries := entries c; singletons := <[key := o]> (singletons c); scopes := scopes c;
     built := built c |}.
Definition set_scope (i : nat) (sc : scope) (c : container) : container :=
  {| entries := entries c; singletons := singletons c; scopes := <[i := sc]> (scopes c);
     built := built c |}.
Definition trace (who : option (option nat)) (key : string) (c : container) : container :=
  {| entries := entries c; singletons := singletons c; scopes := scopes c;
     built := built c ++ [(who, key)] |}.

(** The container a value is resolved from: the root ([None]) or a scope. *)
Definition cid := option nat.

(** [Scoped]: a new empty scope; also from a scoped container, whose child hangs off the root. *)
Definition Scoped (c : container) : cid * container :=
  let i := fresh (dom (scopes c)) in
  (Some i, set_scope i {| sc_locked := false; sc_values := ∅ |} c).

(** ** Resolution

    [fuel] bounds the depth of nested factory calls; [None] is running out of it. *)
Definition resolved : Type := option (outcome (option V) * container).

(** The body of a factory, with the [Get] of the container it received. *)
Fixpoint run (get : string → container → resolved) (f : Factory) (c : container) : resolved :=
  match f with
  | FReturn v => Some (Returns v, c)
  | FPanic msg => Some (Panics msg, c)
  | FGet key k =>
      match get key c with
      | Some (Returns v, c) => run get (k v) c
      | r => r
      end
  end.

(** [once.Do(func() { se.value = e.factory(c) })], then reading [se.value]: a panic of the
    factory counts as a return of [Do], and the value stays nil. *)
Definition once_do (get : string → container → resolved) (key : string) (f : Factory)
    (c : container) : resolved :=
  match singletons c !! key with
  | Some (OnceDone v) => Some (Returns v, c)
  | Some OnceRunning => Some (Hangs, c)
  | None =>
      match run get f (trace None key (set_once key OnceRunning c)) with
      | Some (Returns v, c) => Some (Returns v, set_once key (OnceDone v) c)
      | Some (Panics m, c) => Some (Panics m, set_once key (OnceDone None) c)
      | r => r
      end
  end.

(** The scoped branch of [scopedContainer.Get]: the scope's mutex is held until it returns. *)
Definition scoped_get (get : string → container → resolved) (i : nat) (key : string) (f : Factory)
    (c : container) : resolved :=
  match scopes c !! i with
  | None => Some (Panics "invalid memory address or nil pointer dereference", c)
  | Some sc =>
      if sc_locked sc then Some (Hangs, c)
      else match sc_values sc !! key with
           | Some v => Some (Returns v, c)
           | None =>
               match run get f (trace (Some (Some i)) key
                       (set_scope i {| sc_locked := true; sc_values := sc_values sc |} c)) with
               | Some (Returns v, c) =>
                   Some (Returns v, set_scope i {| sc_locked := false;
                           sc_values := <[key := v]> (sc_values sc) |} c)
               | Some (Panics m, c) =>
                   Some (Panics m, set_scope i {| sc_locked := false; sc_values := sc_values sc |} c)
               | r => r
               end
           end
  end.

Definition not_registered (key : string) : string := "di: key not registered: " +:+ key.

Fixpoint Get (fuel : nat) (from : cid) (key : string) (c : container) : resolved :=
  match fuel with
  | O => None
  | S fuel =>
      match entries c !! key with
      | None => Some (Panics (not_registered key), c)
      | Some e =>
          if negb (isScoped e) then once_do (Get fuel None) key (factory e) c
          else match from with
               | None => run (Get fuel None) (factory e) (trace (Some None) key c)
               | Some i => scoped_get (Get fuel from) i key (factory e) c
               end
      end
  end.

(** ** Validation *)

(** [tryResolve] recovers a panic of the factory. *)
Definition tryResolve (fuel : nat) (key : string) (e : entry) (c : container)
    : option (outcome (option error) * container) :=
  match once_do (Get fuel None) key (factory e) c with
  | Some (Returns _, c) => Some (Returns None, c)
  | Some (Panics m, c) =>
      Some (Returns (Some (EText ("di: singleton " +:+ Quote key
                                  +:+ " panicked during validation: " +:+ m))), c)
  | Some (Hangs, c) => Some (Hangs, c)
  | None => None
  end.

(** The loop over the snapshot, in the order of the map iteration. *)
Fixpoint validate_loop (fuel : nat) (snapshot : list (string * entry)) (errs : list (option error))
    (c : container) : option (outcome (option error) * container) :=
  match snapshot with
  | [] => Some (Returns (errors_Join errs), c)
  | (key, e) :: rest =>
      if isScoped e then validate_loop fuel rest errs c
      else match tryResolve fuel key e c with
           | Some (Returns (Some err), c) => validate_loop fuel rest (errs ++ [Some err]) c
           | Some (Returns None, c) => validate_loop fuel rest errs c
           | r => r
           end
  end.

Definition Validate (fuel : nat) (order : list (string * entry)) (c : container)
    : option (outcome (option error) * container) :=
  validate_loop fuel order [] c.

(** ** Typed access; [of_type] decides the assertion to [T]. *)

Definition GetTyped (fuel : nat) (from : option cid) (of_type : option V → bool) (key : string)
    (c : container) : resolved :=
  match from with
  | None => Some (Panics "di: no scoped container in context", c)
  | Some from =>
      match Get fuel from key c with
      | Some (Returns v, c) =>
          if of_type v then Some (Returns v, c)
          else Some (Panics ("di: type assertion failed for key: " +:+ key), c)
      | r => r
      end
  end.

(** [GetTypedSafe]; [type_name] is what [%T] prints. *)
Definition GetTypedSafe (fuel : nat) (from : option cid) (of_type : option V → bool)
    (type_name : option V → string) (key : string) (c : container)
    : option (outcome (result error (option V)) * container) :=
  match from with
  | None => Some (Returns (Err (EText "di: no scoped container in context")), c)
  | Some from =>
      match Get fuel from key c with
      | Some (Returns v, c) =>
          if of_type v then Some (Returns (Ok v), c)
          else Some (Returns (Err (EText ("di: type assertion failed for key " +:+ Quote key
                                          +:+ ": got " +:+ type_name v))), c)
      | Some (Panics m, c) => Some (Panics m, c)
      | Some (Hangs, c) => Some (Hangs, c)
      | None => None
      end
  end.

(** ** Client operations *)

Inductive di_op :=
| OpGet (from : cid) (key : string)
| OpScoped
| OpAddSingleton (key : string) (f : Factory)
| OpAddScoped (key : string) (f : Factory)
| OpValidate (order : list (string * entry)).

Definition after {A} (r : option (A * container)) (c : container) : container :=
  match r with Some (_, c') => c' | None => c end.

Definition apply_op (fuel : nat) (c : container) (op : di_op) : container :=
  match op with
  | OpGet from key => after (Get fuel from key c) c
  | OpScoped => (Scoped c).2
  | OpAddSingleton key f => AddSingleton key f c
  | OpAddScoped key f => AddScoped key f c
  | OpValidate order => after (Validate fuel order c) c
  end.

(** ** Properties *)

Definition built_count (key : string) (c : container) : nat :=
  length (filter (λ b, b = (None, key)) (built c)).

Definition single_inv (c : container) : Prop :=
  ∀ key, built_count key c = if decide (is_Some (singletons c !! key)) then 1 else 0.

(** What resolving may do to a container. *)
Record evolves (c c' : container) : Prop := {
  ev_inv : single_inv c → single_inv c';
  ev_done key v : singletons c !! key = Some (OnceDone v) → singletons c' !! key = Some (OnceDone v);
  ev_dom key : is_Some (singletons c !! key) → is_Some (singletons c' !! key);
  ev_entries : entries c' = entries c
}.

Lemma evolves_refl c : evolves c c.
Proof. by split. Qed.

Lemma evolves_trans c1 c2 c3 : evolves c1 c2 → evolves c2 c3 → evolves c1 c3.
Proof. intros [] []. split; eauto. congruence. Qed.

Lemma evolves_scope i sc c : evolves c (set_scope i sc c).
Proof. by split. Qed.

Lemma built_count_trace who key k c :
  built_count k (trace who key c)
  = (built_count k c + if decide ((who, key) = (None, k)) then 1 else 0)%nat.
Proof.
  unfold built_count, trace. simpl. rewrite filter_app, length_app, filter_cons.
  by case_decide.
Qed.

Lemma evolves_trace_scoped i key c : evolves c (trace (Some i) key c).
Proof.
  split; try done. intros Hinv k. rewrite built_count_trace, decide_False by done.
  rewrite Nat.add_0_r. apply Hinv.
Qed.

Lemma evolves_start key c :
  singletons c !! key = None → evolves c (trace None key (set_once key OnceRunning c)).
Proof.
  intros Hn. split; simpl; [| | |done].
  - intros Hinv k. rewrite built_count_trace. unfold built_count. simpl.
    fold (built_count k c). rewrite Hinv.
    destruct (decide (key = k)) as [->|Hne].
    + rewrite lookup_insert_eq, Hn. rewrite decide_False by (by intros []).
      by rewrite !decide_True.
    + rewrite lookup_insert_ne by done. rewrite (decide_False (P := (None, key) = (None, k))) by congruence.
      by rewrite Nat.add_0_r.
  - intros k v Hk. destruct (decide (key = k)) as [->|Hne]; [congruence|].
    by rewrite lookup_insert_ne.
  - intros k Hk. destruct (decide (key = k)) as [->|Hne]; [by rewrite lookup_insert_eq|].
    by rewrite lookup_insert_ne.
Qed.

Lemma set_once_inv key o c :
  is_Some (singletons c !! key) → single_inv c → single_inv (set_once key o c).
Proof.
  intros Hs Hinv k. unfold built_count. simpl. fold (built_count k c). rewrite Hinv.
  destruct (decide (key = k)) as [->|Hne].
  - rewrite lookup_insert_eq. by rewrite !decide_True.
  - by rewrite lookup_insert_ne.
Qed.

Definition get_evolves (get : string → container → resolved) : Prop :=
  ∀ key c r c', get key c = Some (r, c') → evolves c c'.

Lemma run_evolves get f c r c' :
  get_evolves get → run get f c = Some (r, c') → evolves c c'.
Proof.
  intros Hget. revert c. induction f as [v|m|key k IH]; intros c; simpl.
  - intros [= <- <-]. apply evolves_refl.
  - intros [= <- <-]. apply evolves_refl.
  - destruct (get key c) as [[[v|m|] c1]|] eqn:Hg; [| | |done].
    + intros Hr. eapply evolves_trans; [by eapply Hget|by eapply IH].
    + intros [= <- <-]. by eapply Hget.
    + intros [= <- <-]. by eapply Hget.
Qed.

Lemma once_do_evolves get key f c r c' :
  get_evolves get → once_do get key f c = Some (r, c') → evolves c c'.
Proof.
  intros Hget. unfold once_do.
  destruct (singletons c !! key) as [[|v]|] eqn:Hs.
  - intros [= <- <-]. apply evolves_refl.
  - intros [= <- <-]. apply evolves_refl.
  - set (c1 := trace _ _ _). pose proof (evolves_start key c Hs) as H1. fold c1 in H1.
    destruct (run get f c1) as [[o c2]|] eqn:Hrun; [|done].
    pose proof (run_evolves _ _ _ _ _ Hget Hrun) as H2.
    pose proof (evolves_trans _ _ _ H1 H2) as H3.
    assert (Hkey : is_Some (singletons c2 !! key)).
    { apply H2. subst c1. simpl. rewrite lookup_insert_eq. by eexists. }
    assert (Hset : ∀ o', evolves c (set_once key o' c2)).
    { intros o'. split; simpl; [intros; apply set_once_inv; [done|by apply H3]| | |apply H3].
      - intros k v Hk. rewrite lookup_insert_ne; [by apply H3|]. intros ->. congruence.
      - intros k Hk. destruct (decide (key = k)) as [->|Hne]; [by rewrite lookup_insert_eq|].
        rewrite lookup_insert_ne by done. by apply H3. }
    destruct o; intros [= <- <-]; auto.
Qed.

Lemma Get_evolves fuel from : get_evolves (Get fuel from).
Proof.
  revert from. induction fuel as [|fuel IH]; intros from key c r c'; simpl; [done|].
  destruct (entries c !! key) as [e|]; [|intros [= <- <-]; apply evolves_refl].
  destruct (isScoped e); simpl; [|apply once_do_evolves, IH].
  destruct from as [i|].
  - unfold scoped_get. destruct (scopes c !! i) as [sc|]; [|intros [= <- <-]; apply evolves_refl].
    destruct (sc_locked sc); [intros [= <- <-]; apply evolves_refl|].
    destruct (sc_values sc !! key); [intros [= <- <-]; apply evolves_refl|].
    set (c1 := trace _ _ _).
    assert (H1 : evolves c c1).
    { eapply evolves_trans; [apply evolves_scope|apply evolves_trace_scoped]. }
    destruct (run _ _ c1) as [[o c2]|] eqn:Hrun; [|done].
    apply run_evolves in Hrun; [|apply IH]. pose proof (evolves_trans _ _ _ H1 Hrun) as H2.
    destruct o; intros [= <- <-]; try done;
      (eapply evolves_trans; [done|apply evolves_scope]).
  - intros Hrun. apply run_evolves in Hrun; [|apply IH].
    eapply evolves_trans; [apply evolves_trace_scoped|done].
Qed.

Lemma validate_loop_evolves fuel snapshot errs c r c' :
  validate_loop fuel snapshot errs c = Some (r, c') → evolves c c'.
Proof.
  revert errs c. induction snapshot as [|[key e] rest IH]; intros errs c; simpl.
  { intros [= <- <-]. apply evolves_refl. }
  destruct (isScoped e); [apply IH|]. unfold tryResolve.
  destruct (once_do _ key (factory e) c) as [[o c1]|] eqn:Ho; [|done].
  apply once_do_evolves in Ho; [|apply Get_evolves].
  destruct o; [| |by intros [= <- <-]]; intros Hl; (eapply evolves_trans; [done|by eapply IH]).
Qed.

(** What every client operation keeps. *)
Lemma apply_op_keeps fuel c op :
  (single_inv c → single_inv (apply_op fuel c op))
  ∧ ∀ key v, singletons c !! key = Some (OnceDone v) →
             singletons (apply_op fuel c op) !! key = Some (OnceDone v).
Proof.
  assert (Hev : ∀ c', evolves c c' → (single_inv c → single_inv c')
      ∧ ∀ key v, singletons c !! key = Some (OnceDone v) → singletons c' !! key = Some (OnceDone v)).
  { intros c' [? ? _ _]. done. }
  destruct op as [from key| |key f|key f|order]; simpl; try done.
  - destruct (Get fuel from key c) as [[o c']|] eqn:Hg; simpl; [|done].
    apply Hev. by eapply Get_evolves.
  - unfold Validate. destruct (validate_loop fuel order [] c) as [[o c']|] eqn:Hg; simpl; [|done].
    apply Hev. by eapply validate_loop_evolves.
Qed.

Lemma run_ops_keeps fuel ops c :
  (single_inv c → single_inv (foldl (apply_op fuel) c ops))
  ∧ ∀ key v, singletons c !! key = Some (OnceDone v) →
             singletons (foldl (apply_op fuel) c ops) !! key = Some (OnceDone v).
Proof.
  revert c. induction ops as [|op ops IH]; intros c; simpl; [done|].
  destruct (apply_op_keeps fuel c op) as [H1 H2], (IH (apply_op fuel c op)) as [H3 H4]. auto.
Qed.

(** C17: the factory of a singleton is called at most once for the lifetime of the container,
    whatever sequence of registrations, validations and resolutions, from the root or from
    scopes, clients perform and however the factories depend on each other. *)
Theorem singleton_built_once (fuel : nat) (ops : list di_op) (key : string) :
  built_count key (foldl (apply_op fuel) New ops) ≤ 1.
Proof.
  destruct (run_ops_keeps fuel ops New) as [Hinv _].
  rewrite Hinv; [by case_decide; auto|]. intros k. simpl. by rewrite lookup_empty.
Qed.

Lemma Get_singleton_done fuel from key e v c :
  entries c !! key = Some e → isScoped e = false →
  singletons c !! key = Some (OnceDone v) → Get (S fuel) from key c = Some (Returns v, c).
Proof. intros He Hs Hv. simpl. rewrite He, Hs. simpl. unfold once_do. by rewrite Hv. Qed.

Lemma Get_singleton_started fuel from key e c o c1 :
  entries c !! key = Some e → isScoped e = false → Get fuel from key c = Some (o, c1) →
  match o with
  | Returns v => singletons c1 !! key = Some (OnceDone v)
  | Panics _ => singletons c !! key = None → singletons c1 !! key = Some (OnceDone None)
  | Hangs => True
  end.
Proof.
  intros He Hs. destruct fuel as [|fuel]; simpl; [done|]. rewrite He, Hs. simpl. unfold once_do.
  destruct (singletons c !! key) as [[|v]|] eqn:Hk; [by intros [= <- <-]|by intros [= <- <-]|].
  destruct (run _ _ _) as [[[v|m|] c2]|] eqn:Hr; [| | |done]; intros [= <- <-]; simpl.
  - by rewrite lookup_insert_eq.
  - intros _. by rewrite lookup_insert_eq.
  - done.
Qed.

(** a singleton is shared: once resolved, every later resolution of the key, from the
    root or any scope and after any further client operations, returns the same value and
    calls no factory, as long as the key is registered as a singleton. *)
Theorem singleton_shared (fuel n : nat) (from from' : cid) (key : string) (e e' : entry) (v : option V)
    (c c1 : container) (ops : list di_op) :
  entries c !! key = Some e → isScoped e = false →
  Get fuel from key c = Some (Returns v, c1) →
  let c2 := foldl (apply_op fuel) c1 ops in
  entries c2 !! key = Some e' → isScoped e' = false →
  Get (S n) from' key c2 = Some (Returns v, c2).
Proof.
  intros He Hs Hg c2 He' Hs'. apply (Get_singleton_done _ _ _ e'); [done|done|].
  apply run_ops_keeps. exact (Get_singleton_started _ _ _ _ _ _ _ He Hs Hg).
Qed.

(** a singleton whose factory panicked resolves to nil from then on: its [sync.Once] is
    spent, so the next [Get] returns nil without an error, and [Validate] accepts it. *)
Theorem panicked_singleton_is_nil (fuel n : nat) (from from' : cid) (key : string) (e : entry)
    (msg : string) (c c1 : container) :
  entries c !! key = Some e → isScoped e = false → singletons c !! key = None →
  Get fuel from key c = Some (Panics msg, c1) →
  Get (S n) from' key c1 = Some (Returns None, c1)
  ∧ Validate (S n) [(key, e)] c1 = Some (Returns None, c1).
Proof.
  intros He Hs Hk Hg.
  assert (Hd : singletons c1 !! key = Some (OnceDone None))
    by exact (Get_singleton_started _ _ _ _ _ _ _ He Hs Hg Hk).
  assert (He1 : entries c1 !! key = Some e).
  { by rewrite (ev_entries _ _ (Get_evolves _ _ _ _ _ _ Hg)). }
  split; [by eapply Get_singleton_done|].
  unfold Validate. simpl. rewrite Hs. unfold tryResolve, once_do. by rewrite Hd.
Qed.

(** a scoped factory that resolves another scoped key from its own scope never returns:
    the scope's mutex is held while the factory runs. *)
Theorem nested_scoped_deadlock (n i : nat) (a b : string) (k : option V → Factory) (eb : entry)
    (sc : scope) (c : container) :
  entries c !! a = Some {| factory := FGet b k; isScoped := true |} →
  entries c !! b = Some eb → isScoped eb = true →
  scopes c !! i = Some sc → sc_locked sc = false → sc_values sc !! a = None →
  ∃ c', Get (S (S n)) (Some i) a c = Some (Hangs, c').
Proof.
  intros Ha Hb Hsb Hi Hl Hv.
  replace (S (S n)) with (S (1 + n)) by done. cbn [Get]. rewrite Ha. simpl. unfold scoped_get. rewrite Hi, Hl, Hv.
  simpl. rewrite Hb, Hsb. simpl. rewrite lookup_insert_eq. simpl. by eexists.
Qed.

(** ** Termination *)

(** The singletons that have not been started. *)
Definition unstarted (c : container) : nat :=
  size (filter (λ key, singletons c !! key = None) (dom (entries c))).

Definition all_singletons (c : container) : Prop :=
  ∀ key e, entries c !! key = Some e → isScoped e = false.

Lemma unstarted_evolves c c' : evolves c c' → unstarted c' ≤ unstarted c.
Proof.
  intros [_ _ Hdom Hent]. unfold unstarted. rewrite Hent. apply subseteq_size.
  intros key. rewrite !elem_of_filter. intros [Hn Hin]. split; [|done].
  destruct (singletons c !! key) eqn:Hk; [|done].
  assert (is_Some (singletons c' !! key)) as [? ?] by (apply Hdom; eauto). congruence.
Qed.

Lemma unstarted_start key c e :
  entries c !! key = Some e → singletons c !! key = None →
  unstarted (trace None key (set_once key OnceRunning c)) < unstarted c.
Proof.
  intros He Hk. unfold unstarted. simpl. apply subset_size. split.
  - intros k. rewrite !elem_of_filter. intros [Hn Hin]. split; [|done].
    destruct (decide (key = k)) as [->|Hne]; [done|]. by rewrite lookup_insert_ne in Hn.
  - intros Hsub. specialize (Hsub key). rewrite !elem_of_filter in Hsub.
    destruct Hsub as [Hn _]; [split; [done|by apply elem_of_dom]|].
    by rewrite lookup_insert_eq in Hn.
Qed.

Lemma run_terminates get f c m :
  get_evolves get →
  (∀ key c', unstarted c' ≤ m → all_singletons c' → get key c' ≠ None) →
  unstarted c ≤ m → all_singletons c → run get f c ≠ None.
Proof.
  intros Hev Hget. revert c. induction f as [v|msg|key k IH]; intros c Hm Hall; simpl; [done|done|].
  specialize (Hget key c Hm Hall).
  destruct (get key c) as [[[v|p|] c1]|] eqn:Hg; try done.
  pose proof (Hev _ _ _ _ Hg) as He. apply IH.
  - pose proof (unstarted_evolves _ _ He). lia.
  - unfold all_singletons. by rewrite (ev_entries _ _ He).
Qed.

(** in a container of singletons every resolution terminates, cycles included: fuel for
    one nested call more than the singletons not yet started is enough. *)
Theorem Get_terminates (fuel : nat) (from : cid) (key : string) (c : container) :
  all_singletons c → unstarted c < fuel → Get fuel from key c ≠ None.
Proof.
  revert from key c. induction fuel as [|fuel IH]; intros from key c Hall Hm; [lia|]. simpl.
  destruct (entries c !! key) as [e|] eqn:He; [|done]. rewrite (Hall _ _ He). simpl.
  unfold once_do. destruct (singletons c !! key) as [[|v]|] eqn:Hk; [done|done|].
  pose proof (unstarted_start _ _ _ He Hk) as Hlt.
  pose proof (run_terminates (Get fuel None) (factory e)
    (trace None key (set_once key OnceRunning c)) (fuel - 1) (Get_evolves _ _)) as Hr.
  destruct (run _ _ _) as [[[v|p|] c1]|]; try done. exfalso. apply Hr; try done; [|lia].
  intros k c' Hc' Hall'. apply IH; [done|]. lia.
Qed.
End Container.
Arguments Factory : clear implicits.
Arguments entry : clear implicits.
Arguments container : clear implicits.
Arguments once : clear implicits.
Arguments scope : clear implicits.

(** [GetTypedSafe] panics on an unregistered key, like [GetTyped]. *)
Lemma GetTypedSafe_unregistered {V} fuel from (of_type : option V → bool) type_name key c :
  entries c !! key = None →
  GetTypedSafe (S fuel) (Some from) of_type type_name key c = Some (Panics (not_registered key), c).
Proof. intros Hk. simpl. by rewrite Hk. Qed.

(** ** A concrete container

    [repo] and [conn] are scoped and [repo] needs [conn]; [log] is a singleton, [svc] a
    singleton that needs it, and [bad] a singleton whose factory panics. *)
Definition demo : container string :=
  AddScoped "repo" (FGet "conn" (λ _, FReturn (Some "repo")))
  (AddScoped "conn" (FReturn (Some "conn"))
  (AddSingleton "bad" (FPanic "no configuration")
  (AddSingleton "svc" (FGet "log" (λ _, FReturn (Some "svc")))
  (AddSingleton "log" (FReturn (Some "log")) New)))).
Definition demo_scoped : container string := (Scoped demo).2.

Definition demo_got : container string := after (Get 5 None "svc" demo) demo.
Definition demo_panicked : container string := after (Get 5 None "bad" demo) demo.

Lemma singleton_shared_witness :
  Get 5 None "svc" demo = Some (Returns (Some "svc"), demo_got)
  ∧ Get 1 (Some 0%nat) "svc" (foldl (apply_op 5) demo_got [OpScoped])
    = Some (Returns (Some "svc"), foldl (apply_op 5) demo_got [OpScoped]).
Proof.
  split; [reflexivity|].
  apply (singleton_shared 5 0 None (Some 0%nat) "svc"
    {| factory := FGet "log" (λ _, FReturn (Some "svc")); isScoped := false |}
    {| factory := FGet "log" (λ _, FReturn (Some "svc")); isScoped := false |}
    (Some "svc") demo demo_got [OpScoped]); reflexivity.
Defined.

Lemma panicked_singleton_is_nil_witness :
  Get 5 None "bad" demo = Some (Panics "no configuration", demo_panicked)
  ∧ Get 1 None "bad" demo_panicked = Some (Returns None, demo_panicked)
  ∧ Validate 1 [("bad", {| factory := FPanic "no configuration"; isScoped := false |})] demo_panicked
    = Some (Returns None, demo_panicked).
Proof.
  split; [reflexivity|].
  apply (panicked_singleton_is_nil 5 0 None None "bad"
    {| factory := FPanic "no configuration"; isScoped := false |} "no configuration" demo);
    reflexivity.
Defined.

Lemma nested_scoped_deadlock_witness :
  ∃ c', Get 5 (Some 0%nat) "repo" demo_scoped = Some (Hangs, c').
Proof.
  apply (nested_scoped_deadlock 3 0 "repo" "conn" (λ _, FReturn (Some "repo"))
    {| factory := FReturn (Some "conn"); isScoped := true |}
    {| sc_locked := false; sc_values := ∅ |} demo_scoped); reflexivity.
Defined.

(** Two singletons that need each other: resolution ends, in a deadlock. *)
Definition cyclic : container string :=
  AddSingleton "a" (FGet "b" (λ _, FReturn None)) (AddSingleton "b" (FGet "a" (λ _, FReturn None)) New).

Example cyclic_hangs : fst <$> Get 3 None "a" cyclic = Some Hangs.
Proof. reflexivity. Qed.

Lemma Get_terminates_witness : Get 3 None "a" cyclic ≠ None.
Proof.
  apply (Get_terminates 3 None "a" cyclic).
  - intros key e. unfold cyclic. simpl.
    rewrite !lookup_insert, lookup_empty. repeat case_decide; intros [= <-]; reflexivity.
  - vm_compute. repeat constructor.
Defined.
