(* ===== verification/RequestTx.v ===== *)
(** * Transactions per request

    [RequestTx.v] models infra/middleware/http/transaction.go and
    infra/middleware/grpc/transaction.go: first one call through the middleware over the
    database of Db.v and the response writer of gin, then any number of calls served at once,
    which share the dependency injection container of Di.v.  In the second part each request is
    a sequence of steps (begin, register the transaction, statements of the handler, end) and
    the theorems quantify over their interleavings. *)

From S2P Require Import Prelude Errors Event Db Di.

(** ** One HTTP request *)

(** The response writer: the status sent to the client, and the bodies written.  A status can
    only be set before the first body. *)
Record writer := { wr_status : Z; wr_written : bool; wr_bodies : list string; wr_aborted : bool }.
Definition write_json (status : Z) (body : string) (wr : writer) : writer :=
  {| wr_status := if wr_written wr then wr_status wr else status; wr_written := true;
     wr_bodies := wr_bodies wr ++ [body]; wr_aborted := wr_aborted wr |}.
Definition abort_json (status : Z) (body : string) (wr : writer) : writer :=
  {| wr_status := if wr_written wr then wr_status wr else status; wr_written := true;
     wr_bodies := wr_bodies wr ++ [body]; wr_aborted := true |}.

Section OneRequest.
Context {D H : Type}.
Notation world := (world D (writer * H)).

Definition on_writer (f : writer → writer) (w : world) : world := set_mem (f (mem w).1, (mem w).2) w.
Definition AbortInternalError (message : string) (w : world) : world := on_writer (abort_json 500 message) w.

(** [handler] is the rest of the chain, run by [c.Next()]. *)
Definition TransactionMiddleware (handler : world → outcome unit * world) (w : world)
    : outcome unit * world :=
  match BeginTx w with
  | (Some _, w) => (Returns (), AbortInternalError "failed to begin database transaction" w)
  | (None, w) =>
      match handler w with
      | (Panics p, w) => (Panics p, (Rollback w).2)
      | (Hangs, w) => (Hangs, w)
      | (Returns _, w) =>
          if (500 <=? wr_status (mem w).1)%Z then (Returns (), (Rollback w).2)
          else match Commit w with
               | (Some _, w) => (Returns (), AbortInternalError "failed to commit database transaction" w)
               | (None, w) => (Returns (), w)
               end
      end
  end.

(** The interceptor; [handler] returns the response or an error. *)
Definition TransactionInterceptor {R} (handler : world → outcome (result error R) * world) (w : world)
    : outcome (result error R) * world :=
  match BeginTx w with
  | (Some _, w) => (Returns (Err (EText "rpc error: code = Internal desc = failed to begin database transaction")), w)
  | (None, w) =>
      match handler w with
      | (Panics p, w) => (Panics p, (Rollback w).2)
      | (Hangs, w) => (Hangs, w)
      | (Returns (Err err), w) => (Returns (Err err), (Rollback w).2)
      | (Returns (Ok resp), w) =>
          match Commit w with
          | (Some _, w) => (Returns (Err (EText "rpc error: code = Internal desc = failed to commit database transaction")), w)
          | (None, w) => (Returns (Ok resp), w)
          end
      end
  end.

(** the gRPC interceptor is atomic: the call succeeds only with the writes of the handler
    committed; after a panic, or when the handler fails, nothing is; a failed commit is an
    error that leaves all of them or none. *)
Theorem grpc_transaction_atomic {R} (handler : world → outcome (result error R) * world) (w : world) :
  only_through_tx handler →
  ∃ w0, tx_writes w0 = [] ∧ pool w0 = pool w
    ∧ let '(r, w') := TransactionInterceptor handler w in
      match r with
      | Returns (Ok resp) => (handler w0).1 = Returns (Ok resp) ∧ pool w' = tx_view (handler w0).2
      | Returns (Err _) => pool w' = pool w
                           ∨ (∃ resp, (handler w0).1 = Returns (Ok resp)) ∧ pool w' = tx_view (handler w0).2
      | Panics _ | Hangs => pool w' = pool w
      end.
Proof.
  intros Hh. unfold TransactionInterceptor. pose proof (BeginTx_spec w) as (Hp & _ & Ht).
  destruct (BeginTx w) as [[err|] w0] eqn:Hb; cbn in Hp, Ht.
  { exists (set_tx [] w0). split_and!; [done|done|]. by left. }
  exists w0. split_and!; [by apply Ht|done|]. pose proof (Hh w0) as Hpool. rewrite Hp in Hpool.
  destruct (handler w0) as [[[resp|err]|p|] w1]; cbn in *.
  - pose proof (Commit_spec w1) as (_ & _ & Hok & Hor). destruct (Commit w1) as [[e|] w2]; cbn in *.
    + destruct Hor as [Hor|Hor]; [left; congruence|right; eauto].
    + auto.
  - left. rewrite (proj1 (Rollback_spec w1)). done.
  - by rewrite (proj1 (Rollback_spec w1)).
  - done.
Qed.

(** the HTTP middleware hides a failed commit.  When the handler has written its response
    and the commit then fails without effect, the rows are unchanged but the client has the
    handler's status: the error body is appended to a response that already says success. *)
Theorem failed_commit_hidden (handler : world → outcome unit * world) (w w0 w1 : world) (e : error) :
  BeginTx w = (None, w0) → handler w0 = (Returns (), w1) → pool w1 = pool w0 →
  wr_written (mem w1).1 = true → (wr_status (mem w1).1 < 500)%Z → c_fault (here w1) = FailBefore e →
  let w' := (TransactionMiddleware handler w).2 in
  pool w' = pool w ∧ wr_status (mem w').1 = wr_status (mem w1).1
  ∧ wr_bodies (mem w').1 = wr_bodies (mem w1).1 ++ ["failed to commit database transaction"].
Proof.
  intros Hb Hh Hp Hw Hs Hf. unfold TransactionMiddleware. rewrite Hb, Hh.
  destruct (Z.leb_spec 500 (wr_status (mem w1).1)); [lia|]. unfold Commit. rewrite Hf. cbn.
  rewrite Hw. split_and!; [|done..]. pose proof (BeginTx_spec w) as (Hp0 & _). rewrite Hb in Hp0. cbn in Hp0. congruence.
Qed.
End OneRequest.

(** ** Concurrent requests *)

Definition connKey : string := "db.conn".

Section Server.
Context {D : Type}.

Inductive phase :=
| Waiting
| Begun (scope : cid) (tx : nat)
| Handling (scope : cid) (tx : nat)
| Done (status : Z).

(** The rows, the open transactions with their writes, the container, and the requests;
    [s_failed] are the statements that found no transaction or a closed one. *)
Record server := {
  rows : D; open : gmap nat (list (D → D)); ctr : container nat;
  requests : gmap nat phase; s_failed : nat
}.
Definition with_request (i : nat) (p : phase) (s : server) : server :=
  {| rows := rows s; open := open s; ctr := ctr s; requests := <[i := p]> (requests s); s_failed := s_failed s |}.

Inductive step :=
| Begin (i : nat)
| Register (i : nat)
| Statement (i : nat) (f : D → D)
| Finish (i : nat) (status : Z).

(** The handler resolves the connection with [di.GetTyped] and executes a write on it. *)
Definition resolve (scope : cid) (s : server) : option nat * server :=
  match Di.Get 2 scope connKey (ctr s) with
  | Some (Returns (Some tx), c) =>
      (Some tx, {| rows := rows s; open := open s; ctr := c; requests := requests s; s_failed := s_failed s |})
  | _ => (None, s)
  end.
Definition exec_on (tx : option nat) (f : D → D) (s : server) : server :=
  match tx with
  | Some tx =>
      match open s !! tx with
      | Some writes =>
          {| rows := rows s; open := <[tx := writes ++ [f]]> (open s); ctr := ctr s;
             requests := requests s; s_failed := s_failed s |}
      | None => {| rows := rows s; open := open s; ctr := ctr s; requests := requests s; s_failed := S (s_failed s) |}
      end
  | None => {| rows := rows s; open := open s; ctr := ctr s; requests := requests s; s_failed := S (s_failed s) |}
  end.
Definition close_tx (tx : nat) (commit : bool) (s : server) : server :=
  {| rows := if commit then foldl (λ d f, f d) (rows s) (default [] (open s !! tx)) else rows s;
     open := delete tx (open s); ctr := ctr s; requests := requests s; s_failed := s_failed s |}.

Definition server_step (s : server) (st : step) : server :=
  match st with
  | Begin i =>
      match requests s !! i with
      | Some Waiting =>
          let '(scope, c) := Di.Scoped (ctr s) in
          {| rows := rows s; open := <[i := []]> (open s); ctr := c;
             requests := <[i := Begun scope i]> (requests s); s_failed := s_failed s |}
      | _ => s
      end
  | Register i =>
      match requests s !! i with
      | Some (Begun scope tx) =>
          {| rows := rows s; open := open s; ctr := AddScoped connKey (FReturn (Some tx)) (ctr s);
             requests := <[i := Handling scope tx]> (requests s); s_failed := s_failed s |}
      | _ => s
      end
  | Statement i f =>
      match requests s !! i with
      | Some (Handling scope _) => let '(tx, s) := resolve scope s in exec_on tx f s
      | _ => s
      end
  | Finish i status =>
      match requests s !! i with
      | Some (Handling _ tx) => with_request i (Done status) (close_tx tx (status <? 500)%Z s)
      | _ => s
      end
  end.

(** A server with no request in progress. *)
Definition idle (d : D) (c : container nat) (n : nat) : server :=
  {| rows := d; open := ∅; ctr := c; requests := gset_to_gmap Waiting (set_seq 0 n); s_failed := 0 |}.

Lemma Scoped_lookup (c : container nat) i c' :
  Di.Scoped c = (Some i, c') → scopes c' !! i = Some {| sc_locked := false; sc_values := ∅ |} ∧ entries c' = entries c.
Proof. unfold Di.Scoped. intros [= <- <-]. cbn. by rewrite lookup_insert_eq. Qed.

(** The first resolution in a scope returns the transaction of the last registration, and later
    ones in that scope the same. *)
Lemma Get_registered (c : container nat) i sc tx :
  scopes c !! i = Some sc → sc_locked sc = false → sc_values sc !! connKey = None →
  entries c !! connKey = Some {| factory := FReturn (Some tx); isScoped := true |} →
  ∃ c', Di.Get 2 (Some i) connKey c = Some (Returns (Some tx), c')
        ∧ entries c' = entries c
        ∧ scopes c' !! i = Some {| sc_locked := false; sc_values := <[connKey := Some tx]> (sc_values sc) |}.
Proof.
  intros Hs Hl Hv He. cbn [Di.Get]. rewrite He. cbn [isScoped negb factory]. unfold scoped_get.
  rewrite Hs, Hl, Hv. cbn [run]. eexists. split_and!; [done|done|]. cbn. by rewrite lookup_insert_eq.
Qed.

(** the connection a request works on is the one registered last, by whichever request.  The
    scope's registration goes to the shared root container, so when request [j] registers its
    transaction between the registration of request [i] and the first use of the connection by
    [i]'s handler, the statements of [i] run in the transaction of [j]. *)
Theorem conn_of_last_registration (s : server) (i j txi txj : nat) (scopei scopej : nat) (sc : scope nat) (f : D → D)
    (writes : list (D → D)) :
  i ≠ j →
  requests s !! i = Some (Handling (Some scopei) txi) → requests s !! j = Some (Begun (Some scopej) txj) →
  scopes (ctr s) !! scopei = Some sc → sc_locked sc = false → sc_values sc !! connKey = None →
  open s !! txj = Some writes →
  let s' := server_step (server_step s (Register j)) (Statement i f) in
  open s' !! txj = Some (writes ++ [f]) ∧ (txi ≠ txj → open s' !! txi = open s !! txi).
Proof.
  intros Hij Hi Hj Hsc Hl Hv Ho. cbn [server_step]. rewrite Hj. cbn [requests].
  rewrite lookup_insert_ne, Hi by done. unfold resolve. cbn [ctr rows open requests s_failed].
  destruct (Get_registered (AddScoped connKey (FReturn (Some txj)) (ctr s)) scopei sc txj)
    as (c' & Hg & _); [done..|cbn; by rewrite lookup_insert_eq|].
  rewrite Hg. unfold exec_on. cbn [open]. rewrite Ho. cbn [open].
  split; [by rewrite lookup_insert_eq|]. intros Hne. by rewrite lookup_insert_ne.
Qed.

(** The state of a request that has the connection to itself. *)
Definition owns (i : nat) (k : nat) (writes : list (D → D)) (d : D) (s : server) : Prop :=
  requests s !! i = Some (Handling (Some k) i) ∧ open s !! i = Some writes ∧ rows s = d
  ∧ ∃ sc, scopes (ctr s) !! k = Some sc ∧ sc_locked sc = false
     ∧ entries (ctr s) !! connKey = Some {| factory := FReturn (Some i); isScoped := true |}
     ∧ (sc_values sc !! connKey = None ∨ sc_values sc !! connKey = Some (Some i)).

Lemma Statement_owns i k writes d s f :
  owns i k writes d s → owns i k (writes ++ [f]) d (server_step s (Statement i f)).
Proof.
  intros (Hi & Ho & Hd & sc & Hsc & Hl & He & Hv). cbn [server_step]. rewrite Hi. unfold resolve.
  destruct Hv as [Hv|Hv].
  - destruct (Get_registered (ctr s) k sc i) as (c' & -> & He' & Hs'); [done..|].
    unfold exec_on. cbn [open]. rewrite Ho. repeat split; cbn; try done; [by rewrite lookup_insert_eq|].
    eexists. rewrite Hs', He', He. split_and!; [done..|]. right. cbn. by rewrite lookup_insert_eq.
  - assert (Di.Get 2 (Some k) connKey (ctr s) = Some (Returns (Some i), ctr s)) as ->.
    { cbn [Di.Get]. rewrite He. cbn [isScoped negb factory]. unfold scoped_get. by rewrite Hsc, Hl, Hv. }
    unfold exec_on. cbn [open]. rewrite Ho. repeat split; cbn; try done; [by rewrite lookup_insert_eq|].
    exists sc. split_and!; auto.
Qed.

(** served one at a time, a request is a transaction: its handler's statements all take effect,
    in order, when the status is below 500, and none does otherwise. *)
Theorem sequential_request (s : server) (i : nat) (fs : list (D → D)) (status : Z) :
  requests s !! i = Some Waiting →
  let s' := foldl server_step s ([Begin i; Register i] ++ map (Statement i) fs ++ [Finish i status]) in
  rows s' = (if (status <? 500)%Z then foldl (λ d f, f d) (rows s) fs else rows s)
  ∧ requests s' !! i = Some (Done status).
Proof.
  intros Hi. cbv zeta. rewrite !foldl_app. cbn [foldl].
  assert (∃ k, owns i k [] (rows s) (server_step (server_step s (Begin i)) (Register i))) as [k Hown].
  { cbn [server_step]. rewrite Hi. destruct (Di.Scoped (ctr s)) as [sid c] eqn:Es.
    destruct sid as [k|]; [|done]. destruct (Scoped_lookup _ _ _ Es) as [Hk He].
    exists k. cbn [requests]. rewrite lookup_insert_eq. unfold owns. cbn.
    rewrite !lookup_insert_eq. split_and!; [done..|]. eexists. split_and!; [exact Hk|done|done|by left]. }
  generalize dependent (server_step (server_step s (Begin i)) (Register i)). intros s1 Hown.
  assert (owns i k ([] ++ fs) (rows s) (foldl server_step s1 (map (Statement i) fs))) as Hrun.
  { revert s1 Hown. generalize (@nil (D → D)) as ws. induction fs as [|f fs IH]; intros ws s1 Hown; cbn [map foldl].
    - by rewrite app_nil_r.
    - replace (ws ++ f :: fs) with ((ws ++ [f]) ++ fs) by (by rewrite <- app_assoc).
      apply IH. by apply Statement_owns. }
  destruct Hrun as (Hr & Ho & Hd & _). cbn [server_step]. rewrite Hr.
  unfold with_request, close_tx. cbn. rewrite lookup_insert_eq, Ho, Hd. done.
Qed.
End Server.


(** ** Witnesses *)

Definition no_faults (n : nat) : call := {| c_now := 0; c_locked _ := false; c_fault := NoFault |}.
Definition commit_fails (n : nat) : call :=
  {| c_now := 0; c_locked _ := false; c_fault := if decide (n = 2) then FailBefore (EText "connection lost") else NoFault |}.
Definition fresh_writer : writer := {| wr_status := 200; wr_written := false; wr_bodies := []; wr_aborted := false |}.
Definition start (env : nat → call) : world nat (writer * unit) :=
  {| pool := 0; tx_writes := []; mem := (fresh_writer, tt); calls := env; pos := 0 |}.
Definition add_one : statement nat unit := λ _ n, Ok (tt, S n).
Definition one_write (w : world nat (writer * unit)) : outcome unit * world nat (writer * unit) :=
  (Returns (), on_writer (write_json 201 "created") (Exec Tx add_one w).2).

Example grpc_transaction_atomic_witness :
  let handler w := (Returns (Ok "ok"), (Exec Tx add_one w).2) in
  only_through_tx handler
  ∧ ∃ w0, tx_writes w0 = [] ∧ pool w0 = 0
    ∧ pool (TransactionInterceptor (H := unit) handler (start no_faults)).2 = tx_view (handler w0).2.
Proof.
  intros handler. assert (only_through_tx handler) as Hh by (intros w; apply Exec_Tx_pool). split; [done|].
  destruct (grpc_transaction_atomic handler (start no_faults) Hh) as (w0 & H1 & H2 & H3).
  exists w0. split_and!; [done|done|]. apply H3.
Defined.

Example failed_commit_hidden_witness :
  let w' := (TransactionMiddleware one_write (start commit_fails)).2 in
  pool w' = 0 ∧ wr_status (mem w').1 = 201%Z
  ∧ wr_bodies (mem w').1 = ["created"; "failed to commit database transaction"].
Proof.
  apply (failed_commit_hidden one_write (start commit_fails) (BeginTx (start commit_fails)).2
           (one_write (BeginTx (start commit_fails)).2).2 (EText "connection lost")); reflexivity.
Defined.

(** Request 0 is handling, request 1 has begun. *)
Definition two_requests : server :=
  foldl server_step (idle 0 Di.New 2) [Begin 0; Register 0; Begin 1].
Example conn_of_last_registration_witness :
  open (server_step (server_step two_requests (Register 1)) (Statement 0 S)) !! 1 = Some [S].
Proof.
  apply (conn_of_last_registration two_requests 0 1 0 1 0 1 {| sc_locked := false; sc_values := ∅ |} S []);
    (done || reflexivity).
Defined.

Example sequential_request_witness :
  rows (foldl server_step (idle 0 Di.New 1) ([Begin 0; Register 0] ++ map (Statement 0) [S; S] ++ [Finish 0 201])) = 2.
Proof. apply (sequential_request (idle 0 Di.New 1) 0 [S; S] 201). reflexivity. Defined.
