(* ===== verification/RateLimit.v ===== *)
(** * Rate limiters

    [RateLimit.v] models infra/ratelimit: the sliding window log, the fixed window counter, the
    token bucket over golang.org/x/time/rate (an interface here) and the factory.  A request is
    a key and the reading of the clock taken under the limiter's lock; readings do not decrease.
    The locks of the token bucket, which reads the clock before them, are in TokenBucket.v. *)

From S2P Require Import Prelude Errors Event.

(** ** Sliding window *)

Record SlidingWindow := { timestamps : gmap string (list time); sw_rate : Z; sw_window : Z }.
Definition NewSlidingWindow (rate window : Z) : SlidingWindow :=
  {| timestamps := ∅; sw_rate := rate; sw_window := window |}.

(** The loop over the prefix that is not after the cutoff. *)
Fixpoint pruneTimestamps (ts : list time) (cutoff : time) : list time :=
  match ts with
  | [] => []
  | t :: rest => if bool_decide (cutoff < t)%Z then t :: rest else pruneTimestamps rest cutoff
  end.

Definition sw_Allow (now : time) (key : string) (sw : SlidingWindow) : bool * SlidingWindow :=
  let cutoff := (now - sw_window sw)%Z in
  let pruned := pruneTimestamps (default [] (timestamps sw !! key)) cutoff in
  let put l := {| timestamps := <[key := l]> (timestamps sw); sw_rate := sw_rate sw;
                  sw_window := sw_window sw |} in
  if bool_decide (sw_rate sw ≤ Z.of_nat (length pruned))%Z then (false, put pruned)
  else (true, put (pruned ++ [now])).

(** ** Fixed window *)

Record fixedWindowEntry := { fw_count : Z; windowStart : time }.
Record FixedWindow := { fw_entries : gmap string fixedWindowEntry; fw_rate : Z; fw_window : Z }.
Definition NewFixedWindow (rate window : Z) : FixedWindow :=
  {| fw_entries := ∅; fw_rate := rate; fw_window := window |}.

Definition fw_Allow (now : time) (key : string) (fw : FixedWindow) : bool * FixedWindow :=
  let put e := {| fw_entries := <[key := e]> (fw_entries fw); fw_rate := fw_rate fw;
                  fw_window := fw_window fw |} in
  match fw_entries fw !! key with
  | None => (true, put {| fw_count := 1; windowStart := now |})
  | Some entry =>
      if bool_decide (windowStart entry + fw_window fw < now)%Z
      then (true, put {| fw_count := 1; windowStart := now |})
      else if bool_decide (fw_rate fw ≤ fw_count entry)%Z then (false, fw)
      else (true, put {| fw_count := fw_count entry + 1; windowStart := windowStart entry |})
  end.

(** ** Token bucket *)

(** What the bucket uses of [rate.Limiter]. *)
Class Limiter (L : Type) := {
  NewLimiter : Z → Z → L;
  limiter_Allow : time → L → bool * L
}.

Section TokenBucket.
Context {L : Type} `{Limiter L}.

Record tokenBucketEntry := { limiter : L; lastSeen : time }.
Record TokenBucket := { tb_entries : gmap string tokenBucketEntry; limit : Z; burst : Z }.

Definition staleThreshold : Z := (10 * 60 * 10 ^ 9)%Z.

Definition NewTokenBucket (rps b : Z) : TokenBucket := {| tb_entries := ∅; limit := rps; burst := b |}.

(** [getLimiter(key).Allow()]: the entry is created on first use and its limiter advanced. *)
Definition getLimiter (now : time) (key : string) (tb : TokenBucket) : L :=
  match tb_entries tb !! key with
  | Some e => limiter e
  | None => NewLimiter (limit tb) (burst tb)
  end.

Definition tb_Allow (now : time) (key : string) (tb : TokenBucket) : bool * TokenBucket :=
  let '(ok, l) := limiter_Allow now (getLimiter now key tb) in
  (ok, {| tb_entries := <[key := {| limiter := l; lastSeen := now |}]> (tb_entries tb);
          limit := limit tb; burst := burst tb |}).

Definition removeStale (now : time) (tb : TokenBucket) : TokenBucket :=
  let cutoff := (now - staleThreshold)%Z in
  {| tb_entries := filter (λ ke, ¬ (lastSeen ke.2 < cutoff)%Z) (tb_entries tb);
     limit := limit tb; burst := burst tb |}.
End TokenBucket.
Arguments TokenBucket : clear implicits.
Arguments tokenBucketEntry : clear implicits.

(** ** Factory *)

Record Config := { Algorithm : string; Rate : Z; Burst : Z; Window : Z }.

Inductive Strategy (L : Type) :=
| STokenBucket (tb : TokenBucket L)
| SFixedWindow (fw : FixedWindow)
| SSlidingWindow (sw : SlidingWindow).
Arguments STokenBucket {L}. Arguments SFixedWindow {L}. Arguments SSlidingWindow {L}.

Definition New {L} (cfg : Config) : result error (Strategy L) :=
  if (Algorithm cfg =? "token_bucket")%string then Ok (STokenBucket (NewTokenBucket (Rate cfg) (Burst cfg)))
  else if (Algorithm cfg =? "fixed_window")%string then Ok (SFixedWindow (NewFixedWindow (Rate cfg) (Window cfg)))
  else if (Algorithm cfg =? "sliding_window")%string
  then Ok (SSlidingWindow (NewSlidingWindow (Rate cfg) (Window cfg)))
  else Err (EText ("ratelimit: unknown algorithm " +:+ Quote (Algorithm cfg))).

(** ** Runs: the requests that are allowed, in order. *)

Notation request := (string * Z)%type.

Fixpoint allowed {S} (Allow : time → string → S → bool * S) (reqs : list request) (s : S)
    : list request :=
  match reqs with
  | [] => []
  | (key, now) :: rest =>
      let '(ok, s) := Allow now key s in
      if ok then (key, now) :: allowed Allow rest s else allowed Allow rest s
  end.

(** The clock does not run backwards, from [T] on. *)
Fixpoint clock_from (T : time) (reqs : list request) : Prop :=
  match reqs with
  | [] => True
  | (_, now) :: rest => (T ≤ now)%Z ∧ clock_from now rest
  end.

(** ** Sliding window: properties *)

(** The requests of [key] in the window of length [w] that ends at [a + w]. *)
Definition in_window (key : string) (a w : Z) (r : request) : Prop :=
  r.1 = key ∧ (a < r.2 ≤ a + w)%Z.
#[export] Instance in_window_dec key a w r : Decision (in_window key a w r).
Proof. unfold in_window. apply _. Defined.

Lemma pruneTimestamps_suffix ts cutoff :
  ∃ dropped, ts = dropped ++ pruneTimestamps ts cutoff ∧ Forall (λ t, t ≤ cutoff)%Z dropped.
Proof.
  induction ts as [|t ts IH]; simpl; [by exists []|]. case_bool_decide; [by exists []|].
  destruct IH as (d & Hd & Hall). exists (t :: d). simpl. split; [by rewrite <- Hd|].
  constructor; [lia|done].
Qed.

(** What the log of each key says of the requests [A] allowed so far, at clock [T]. *)
Definition sw_inv (T : time) (A : list request) (sw : SlidingWindow) : Prop :=
  ∀ key, (∃ dropped, map snd (filter (λ r, r.1 = key) A)
                     = dropped ++ default [] (timestamps sw !! key)
                     ∧ Forall (λ t, t ≤ T - sw_window sw)%Z dropped)
  ∧ ∀ a, (Z.of_nat (length (filter (in_window key a (sw_window sw)) A)) ≤ Z.max 0 (sw_rate sw))%Z.

Lemma in_window_count key a w A dropped ts :
  map snd (filter (λ r, r.1 = key) A) = dropped ++ ts → Forall (λ t, t ≤ a)%Z dropped →
  length (filter (in_window key a w) A) ≤ length ts.
Proof.
  intros Hmap Hdrop.
  assert (length (filter (in_window key a w) A)
          = length (filter (λ t, a < t ≤ a + w)%Z (map snd (filter (λ r, r.1 = key) A)))) as ->.
  { clear Hmap. induction A as [|[k t] A IH]; [done|]. rewrite !filter_cons.
    destruct (decide (in_window key a w (k, t))) as [[Hk Ht]|Hn].
    - cbn [fst snd] in *. rewrite decide_True by done. cbn [length map]. rewrite filter_cons.
      rewrite decide_True by done. cbn [length]. by rewrite IH.
    - case_decide as Hk; [|done]. cbn [map]. rewrite filter_cons, decide_False; [done|].
      intros Ht. by apply Hn. }
  rewrite Hmap, filter_app, length_app.
  assert (filter (λ t, a < t ≤ a + w)%Z dropped = []) as ->.
  { clear Hmap. induction Hdrop as [|t d Ht _ IH]; [done|]. rewrite filter_cons, decide_False by lia. done. }
  simpl. apply length_filter.
Qed.

Lemma sw_Allow_inv T A now key sw ok sw' :
  sw_inv T A sw → (T ≤ now)%Z → sw_Allow now key sw = (ok, sw') →
  sw_inv now (A ++ if ok then [(key, now)] else []) sw'
  ∧ sw_rate sw' = sw_rate sw ∧ sw_window sw' = sw_window sw.
Proof.
  intros Hinv HT. unfold sw_Allow.
  destruct (pruneTimestamps_suffix (default [] (timestamps sw !! key)) (now - sw_window sw)%Z)
    as (d & Hd & Hdall).
  set (pruned := pruneTimestamps _ _) in *.
  assert (Hkey : ∃ dropped, map snd (filter (λ r, r.1 = key) A) = dropped ++ pruned
                 ∧ Forall (λ t, t ≤ now - sw_window sw)%Z dropped).
  { destruct (Hinv key) as [(d0 & Hd0 & Hall) _]. exists (d0 ++ d). split.
    - by rewrite Hd0, Hd, app_assoc.
    - apply Forall_app. split; [|done]. eapply Forall_impl; [done|]. intros t Ht. simpl in *. lia. }
  assert (Hother : ∀ k, k ≠ key → ∃ dropped, map snd (filter (λ r, r.1 = k) A)
                     = dropped ++ default [] (timestamps sw !! k)
                     ∧ Forall (λ t, t ≤ now - sw_window sw)%Z dropped).
  { intros k _. destruct (Hinv k) as [(d0 & Hd0 & Hall) _]. exists d0. split; [done|].
    eapply Forall_impl; [done|]. intros t Ht. simpl in *. lia. }
  case_bool_decide as Hfull; intros [= <- <-]; (split; [|done]); intros k.
  - rewrite app_nil_r. simpl. split; [|apply Hinv].
    destruct (decide (key = k)) as [<-|Hne]; [by rewrite lookup_insert_eq|].
    rewrite lookup_insert_ne by done. by apply Hother.
  - simpl. destruct (decide (key = k)) as [<-|Hne].
    + rewrite lookup_insert_eq. simpl. destruct Hkey as (d1 & Hd1 & Hall1). split.
      * exists d1. rewrite filter_app, map_app, Hd1, <- app_assoc. split; [|done].
        by rewrite filter_cons, decide_True, filter_nil.
      * intros a. rewrite filter_app, length_app, filter_cons, filter_nil.
        destruct (decide (in_window key a (sw_window sw) (key, now))) as [[_ Ha]|_]; simpl in *.
        -- assert (length (filter (in_window key a (sw_window sw)) A) ≤ length pruned); [|lia].
           eapply in_window_count; [done|]. eapply Forall_impl; [done|]. intros t Ht. simpl in *. lia.
        -- destruct (Hinv key) as [_ Hb]. specialize (Hb a). lia.
    + rewrite lookup_insert_ne by done. split.
      * destruct (Hother k) as (d1 & Hd1 & Hall1); [done|]. exists d1. split; [|done].
        by rewrite filter_app, filter_cons, decide_False, filter_nil, app_nil_r by done.
      * intros a. rewrite filter_app, filter_cons, decide_False, filter_nil, app_nil_r;
          [apply Hinv|]. by intros [? _].
Qed.

Lemma sw_run_bound T A reqs sw key a :
  sw_inv T A sw → clock_from T reqs →
  (Z.of_nat (length (filter (in_window key a (sw_window sw)) (A ++ allowed sw_Allow reqs sw)))
   ≤ Z.max 0 (sw_rate sw))%Z.
Proof.
  revert T A sw. induction reqs as [|[k now] reqs IH]; intros T A sw Hinv Hclock; simpl.
  { rewrite app_nil_r. apply Hinv. }
  destruct Hclock as [HT Hclock]. destruct (sw_Allow now k sw) as [ok sw'] eqn:Ha.
  destruct (sw_Allow_inv _ _ _ _ _ _ _ Hinv HT Ha) as (Hinv' & Hr & Hw).
  specialize (IH now _ sw' Hinv' Hclock). rewrite Hr, Hw in IH.
  destruct ok; rewrite <- app_assoc in IH; exact IH.
Qed.

(** C19: the sliding window limiter admits at most [rate] requests of a key in any time window
    of the configured length, wherever the window lies and whatever the requests of other keys. *)
Theorem sliding_window_bound (rate window T : Z) (reqs : list request) (key : string) (a : Z) :
  clock_from T reqs →
  (Z.of_nat (length (filter (in_window key a window)
                       (allowed sw_Allow reqs (NewSlidingWindow rate window))))
   ≤ Z.max 0 rate)%Z.
Proof.
  intros Hclock.
  apply (sw_run_bound T [] reqs (NewSlidingWindow rate window) key a); [|done].
  intros k. simpl. rewrite lookup_empty. split; [by exists []|]. intros b. simpl. lia.
Qed.

Lemma sliding_window_bound_witness :
  (Z.of_nat (length (filter (in_window "u" 0 10)
     (allowed sw_Allow [("u", 1); ("u", 2); ("v", 2); ("u", 3); ("u", 12)]%Z (NewSlidingWindow 2 10))))
   ≤ 2)%Z.
Proof.
  apply (sliding_window_bound 2 10 0 [("u", 1); ("u", 2); ("v", 2); ("u", 3); ("u", 12)]%Z "u" 0).
  simpl. lia.
Defined.

(** ** Fixed window: properties *)

(** The requests of [key] in the closed interval of length [w] from [a]. *)
Definition in_interval (key : string) (a w : Z) (r : request) : Prop :=
  r.1 = key ∧ (a ≤ r.2 ≤ a + w)%Z.
#[export] Instance in_interval_dec key a w r : Decision (in_interval key a w r).
Proof. unfold in_interval. apply _. Defined.

(** A window of the counter: its start and the times it admitted, newest window first. *)
Notation segment := (Z * list Z)%type.

Record segments_ok (w M : Z) (segs : list segment) : Prop := {
  seg_gaps : StronglySorted (λ x y, y + w < x)%Z (map fst segs);
  seg_size : Forall (λ sg, Z.of_nat (length sg.2) ≤ M)%Z segs;
  seg_range : Forall (λ sg, Forall (λ t, sg.1 ≤ t ≤ sg.1 + w)%Z sg.2) segs
}.

Lemma StronglySorted_filter {A} (R : relation A) (P : A → Prop) `{!∀ x, Decision (P x)} l :
  StronglySorted R l → StronglySorted R (filter P l).
Proof.
  induction 1 as [|x l Hs IH Hx]; [constructor|]. rewrite filter_cons. case_decide; [|done].
  constructor; [done|]. rewrite Forall_forall in Hx. rewrite Forall_forall.
  intros y [_ Hy]%list_elem_of_filter. by apply Hx.
Qed.

(** At most two windows touch an interval as long as a window. *)
Lemma two_windows (w a : Z) (l : list Z) :
  (0 ≤ w)%Z → StronglySorted (λ x y, y + w < x)%Z l →
  length (filter (λ s, a - w ≤ s ≤ a + w)%Z l) ≤ 2.
Proof.
  intros Hw Hs. apply (StronglySorted_filter _ (λ s, a - w ≤ s ≤ a + w)%Z) in Hs.
  assert (Hin : ∀ s, s ∈ filter (λ s, a - w ≤ s ≤ a + w)%Z l → (a - w ≤ s ≤ a + w)%Z).
  { intros s [Hr _]%list_elem_of_filter. exact Hr. }
  destruct (filter _ l) as [|x [|y [|z rest]]]; simpl; try lia. exfalso.
  apply StronglySorted_inv in Hs as [Hs Hx]. apply StronglySorted_inv in Hs as [_ Hy].
  apply Forall_cons in Hx as [Hx _]. apply Forall_cons in Hy as [Hy _].
  assert (a - w ≤ z ≤ a + w)%Z by (apply Hin; list_in).
  assert (a - w ≤ x ≤ a + w)%Z by (apply Hin; list_in). lia.
Qed.

Lemma segments_count (w M a : Z) segs :
  (0 ≤ M)%Z → segments_ok w M segs →
  (Z.of_nat (length (filter (λ t, a ≤ t ≤ a + w) (concat (map snd segs))))
   ≤ M * Z.of_nat (length (filter (λ s, a - w ≤ s ≤ a + w) (map fst segs))))%Z.
Proof.
  intros HM [_ Hsize Hrange]. induction segs as [|[s ts] segs IH]; simpl; [lia|].
  apply Forall_cons in Hsize as [Hts Hsize], Hrange as [Hin Hrange].
  specialize (IH Hsize Hrange). simpl in *. rewrite filter_app, length_app, filter_cons.
  pose proof (length_filter (λ t, a ≤ t ≤ a + w)%Z ts) as Hlen. case_decide as Hs; simpl; [lia|].
  assert (filter (λ t, a ≤ t ≤ a + w)%Z ts = []) as ->; [|simpl; lia].
  destruct (filter _ ts) as [|t rest] eqn:Hf; [done|].
  assert (t ∈ filter (λ t, a ≤ t ≤ a + w)%Z ts) as [Ht Hts']%list_elem_of_filter
    by (rewrite Hf; list_in).
  rewrite Forall_forall in Hin. specialize (Hin t Hts'). lia.
Qed.

(** What the counter of each key says of the requests [A] allowed so far, at clock [T]. *)
Definition fw_inv (T : time) (A : list request) (fw : FixedWindow) : Prop :=
  ∀ key, ∃ segs, map snd (filter (λ r, r.1 = key) A) ≡ₚ concat (map snd segs)
    ∧ segments_ok (fw_window fw) (Z.max 1 (fw_rate fw)) segs
    ∧ match fw_entries fw !! key with
      | None => segs = []
      | Some e => (windowStart e ≤ T)%Z
          ∧ ∃ cur older, segs = (windowStart e, cur) :: older ∧ fw_count e = Z.of_nat (length cur)
      end.

Lemma segments_new w M now segs :
  (1 ≤ M)%Z → (0 ≤ w)%Z → segments_ok w M segs →
  match segs with [] => True | (s, _) :: _ => (s + w < now)%Z end →
  segments_ok w M ((now, [now]) :: segs).
Proof.
  intros HM Hw [Hg Hs Hr] Hlast. split; simpl.
  - constructor; [done|]. destruct segs as [|[s ts] segs]; [constructor|]. simpl in *.
    apply StronglySorted_inv in Hg as [_ Hg]. constructor; [done|].
    eapply Forall_impl; [done|]. intros x Hx. simpl in *. lia.
  - constructor; [done|done].
  - constructor; [|done]. simpl. constructor; [lia|constructor].
Qed.

Lemma segments_grow w M now s cur older :
  segments_ok w M ((s, cur) :: older) → (Z.of_nat (length cur) < M)%Z → (s ≤ now ≤ s + w)%Z →
  segments_ok w M ((s, cur ++ [now]) :: older).
Proof.
  intros [Hg Hs Hr] Hlen Hnow. apply Forall_cons in Hs as [_ Hs], Hr as [Hcur Hr]. split; [done| |].
  - constructor; [|done]. simpl. rewrite length_app. simpl. lia.
  - constructor; [|done]. simpl in *. apply Forall_app. split; [done|]. by apply Forall_singleton.
Qed.

Lemma map_snd_filter_snoc (key : string) (A : list request) k now :
  map snd (filter (λ r, r.1 = key) (A ++ [(k, now)]))
  = map snd (filter (λ r, r.1 = key) A) ++ (if decide (k = key) then [now] else []).
Proof.
  rewrite filter_app, map_app, filter_cons, filter_nil. simpl. by case_decide.
Qed.

Lemma fw_Allow_inv T A now key fw ok fw' :
  (0 ≤ fw_window fw)%Z → fw_inv T A fw → (T ≤ now)%Z → fw_Allow now key fw = (ok, fw') →
  fw_inv now (A ++ if ok then [(key, now)] else []) fw'
  ∧ fw_rate fw' = fw_rate fw ∧ fw_window fw' = fw_window fw.
Proof.
  intros Hw Hinv HT. unfold fw_Allow.
  assert (Hsame : fw_inv now A fw).
  { intros k. destruct (Hinv k) as (segs & Hp & Hok & Hcur). exists segs. split_and!; try done.
    destruct (fw_entries fw !! k); [|done]. destruct Hcur as [? ?]. split; [lia|done]. }
  assert (Hput : ∀ e segs, (windowStart e ≤ now)%Z →
    map snd (filter (λ r, r.1 = key) A) ++ [now] ≡ₚ concat (map snd segs) →
    segments_ok (fw_window fw) (Z.max 1 (fw_rate fw)) segs →
    (∃ cur older, segs = (windowStart e, cur) :: older ∧ fw_count e = Z.of_nat (length cur)) →
    fw_inv now (A ++ [(key, now)])
      {| fw_entries := <[key := e]> (fw_entries fw); fw_rate := fw_rate fw; fw_window := fw_window fw |}).
  { intros e segs He Hp Hok Hcur k. rewrite map_snd_filter_snoc. simpl.
    destruct (decide (key = k)) as [<-|Hne].
    - rewrite lookup_insert_eq. by exists segs.
    - rewrite lookup_insert_ne, app_nil_r by done. apply Hsame. }
  destruct (Hsame key) as (segs & Hp & Hok & Hcur).
  destruct (fw_entries fw !! key) as [e|] eqn:He.
  - destruct Hcur as [Hws (cur & older & -> & Hcount)]. case_bool_decide as Hnew.
    + intros [= <- <-]. split; [|done].
      apply (Hput _ ((now, [now]) :: (windowStart e, cur) :: older)); [simpl; lia| | |].
      * rewrite Hp. simpl. by rewrite Permutation_app_comm.
      * apply segments_new; [lia|done|done|done].
      * by exists [now], ((windowStart e, cur) :: older).
    + case_bool_decide as Hfull; intros [= <- <-]; (split; [|done]); [by rewrite app_nil_r|].
      apply (Hput _ ((windowStart e, cur ++ [now]) :: older)); [simpl; lia| | |].
      * rewrite Hp. simpl. rewrite <- !app_assoc. apply Permutation_app_head. by rewrite Permutation_app_comm.
      * apply segments_grow; [done|lia|lia].
      * exists (cur ++ [now]), older. split; [done|]. simpl. rewrite length_app. simpl. lia.
  - subst segs. intros [= <- <-]. split; [|done]. apply (Hput _ [(now, [now])]); [simpl; lia| | |].
    + rewrite Hp. done.
    + by apply segments_new; [lia|..].
    + by exists [now], [].
Qed.

Lemma interval_count key a w A :
  length (filter (in_interval key a w) A)
  = length (filter (λ t, a ≤ t ≤ a + w)%Z (map snd (filter (λ r, r.1 = key) A))).
Proof.
  induction A as [|[k t] A IH]; [done|]. rewrite !filter_cons.
  destruct (decide (in_interval key a w (k, t))) as [[Hk Ht]|Hn].
  - cbn [fst snd] in *. rewrite decide_True by done. cbn [length map]. rewrite filter_cons.
    rewrite decide_True by done. cbn [length]. by rewrite IH.
  - case_decide as Hk; [|done]. cbn [map]. rewrite filter_cons, decide_False; [done|].
    intros Ht. by apply Hn.
Qed.

Lemma fw_inv_bound T A fw key a :
  (0 ≤ fw_window fw)%Z → fw_inv T A fw →
  (Z.of_nat (length (filter (in_interval key a (fw_window fw)) A)) ≤ 2 * Z.max 1 (fw_rate fw))%Z.
Proof.
  intros Hw Hinv. destruct (Hinv key) as (segs & Hp & Hok & _).
  rewrite interval_count, Hp.
  pose proof (segments_count (fw_window fw) (Z.max 1 (fw_rate fw)) a segs ltac:(lia) Hok) as Hc.
  pose proof (two_windows (fw_window fw) a (map fst segs) Hw (seg_gaps _ _ _ Hok)) as Ht. nia.
Qed.

Lemma fw_run_bound T A reqs fw key a :
  (0 ≤ fw_window fw)%Z → fw_inv T A fw → clock_from T reqs →
  (Z.of_nat (length (filter (in_interval key a (fw_window fw)) (A ++ allowed fw_Allow reqs fw)))
   ≤ 2 * Z.max 1 (fw_rate fw))%Z.
Proof.
  revert T A fw. induction reqs as [|[k now] reqs IH]; intros T A fw Hw Hinv Hclock; simpl.
  { rewrite app_nil_r. by eapply fw_inv_bound. }
  destruct Hclock as [HT Hclock]. destruct (fw_Allow now k fw) as [ok fw'] eqn:Ha.
  destruct (fw_Allow_inv _ _ _ _ _ _ _ Hw Hinv HT Ha) as (Hinv' & Hr & Hw').
  assert (Hwin : (0 ≤ fw_window fw')%Z) by (by rewrite Hw').
  specialize (IH now _ fw' Hwin Hinv' Hclock). rewrite Hr, Hw' in IH.
  destruct ok; rewrite <- app_assoc in IH; exact IH.
Qed.


(** The burst across the boundary: with one request per window of ten, two in a row. *)
Example boundary_burst :
  allowed fw_Allow [("u", 0); ("u", 5); ("u", 11); ("u", 12)]%Z (NewFixedWindow 1 10)
  = [("u", 0); ("u", 11)]%Z.
Proof. reflexivity. Qed.

(** A rate of zero still admits the first request of every window. *)
Example zero_rate_admits : allowed fw_Allow [("u", 0)]%Z (NewFixedWindow 0 10) = [("u", 0)]%Z.
Proof. reflexivity. Qed.

