(* ===== verification/TokenBucket.v ===== *)
(** * The token bucket under concurrency

    [TokenBucket.v] models infra/ratelimit/token_bucket.go with its locks: entries are objects
    that goroutines keep pointers to, [getLimiter] looks the key up under the read lock and
    again under the write lock, and the cleanup goroutine drops the entries that were not seen
    for ten minutes.  Each step of the machine is one critical section or one reading of the
    clock.  [rate.Limiter] is the interface of RateLimit.v with its documented rate.  The
    theorems bound what a key is admitted under every interleaving, and show when dropping idle
    entries changes no answer. *)

From S2P Require Import Prelude Event RateLimit.
Local Open Scope Z_scope.

(** ** The limiter's contract *)

Definition second : Z := 10 ^ 9.

Section Replay.
Context {L : Type} `{Limiter L}.

(** The answers of a limiter asked at the given times, and the limiter afterwards. *)
Fixpoint replay (l : L) (times : list time) : list bool * L :=
  match times with
  | [] => ([], l)
  | t :: rest => let '(ok, l) := limiter_Allow t l in let '(oks, l) := replay l rest in (ok :: oks, l)
  end.

(** The events admitted from [a] to [a + T]. *)
Definition admitted_at (a T : Z) (u : time * bool) : Prop := u.2 = true ∧ a <= u.1 <= a + T.
#[export] Instance admitted_at_dec a T u : Decision (admitted_at a T u).
Proof. unfold admitted_at. apply _. Defined.
End Replay.

(** What x/time/rate documents: a limiter of rate [rps] and burst [b] admits at most [b] events
    and [rps] more for every second of an interval, and a bucket left alone for as long as it
    takes to fill is as good as a new one. *)
Class LimiterLaws (L : Type) `{Limiter L} := {
  limiter_rate : ∀ rps b times a T, 0 <= rps → 0 <= b → 0 <= T → StronglySorted Z.le times →
    Z.of_nat (length (filter (admitted_at a T) (zip times (replay (NewLimiter rps b) times).1))) * second
    <= b * second + rps * T;
  limiter_idle : ∀ rps b times t now, 0 <= rps → 0 <= b → StronglySorted Z.le (times ++ [t]) →
    b * second <= rps * (now - t) →
    limiter_Allow now (replay (NewLimiter rps b) (times ++ [t])).2 = limiter_Allow now (NewLimiter rps b)
}.

(** ** The machine *)

Section Machine.
Context {L : Type} `{Limiter L}.

(** A goroutine in [Allow(key)]: before it reads the clock, before the read lock, between the
    locks with what it found, and with the entry whose limiter [getLimiter] returned. *)
Inductive call :=
| Called (key : string)
| Timed (key : string) (now : time)
| Looked (key : string) (now : time) (entry : option nat)
| Resolved (key : string) (entry : nat)
| Answered (ok : bool).

(** [cleanupLoop]: at its [select], with the cutoff of [removeStale] read, or returned. *)
Inductive cleanup := Selecting | Sweeping (cutoff : time) | Stopped.

(** An answered call: the entry asked, its key, the time and the answer. *)
Record use := { u_entry : nat; u_key : string; u_at : time; u_ok : bool }.

(** [objects] are the entries ever allocated with the key each was made for; [entries] is the
    map.  [uses] and [dropped] record the answered calls and the keys cleaned up. *)
Record bucket := {
  objects : list (string * tokenBucketEntry L);
  entries : gmap string nat;
  tb_limit : Z; tb_burst : Z;
  stop : bool;
  loop : cleanup;
  calls : list call;
  clock : time;
  uses : list use;
  dropped : list string
}.

(** [NewTokenBucket] with the goroutine it starts. *)
Definition start (rps b : Z) (now : time) : bucket :=
  {| objects := []; entries := ∅; tb_limit := rps; tb_burst := b; stop := false; loop := Selecting;
     calls := []; clock := now; uses := []; dropped := [] |}.

Definition set_call (i : nat) (c : call) (s : bucket) : bucket :=
  {| objects := objects s; entries := entries s; tb_limit := tb_limit s; tb_burst := tb_burst s;
     stop := stop s; loop := loop s; calls := <[i := c]> (calls s); clock := clock s; uses := uses s;
     dropped := dropped s |}.
Definition set_objects (o : list (string * tokenBucketEntry L)) (m : gmap string nat) (s : bucket) : bucket :=
  {| objects := o; entries := m; tb_limit := tb_limit s; tb_burst := tb_burst s;
     stop := stop s; loop := loop s; calls := calls s; clock := clock s; uses := uses s; dropped := dropped s |}.

(** [entry.lastSeen = now], through the pointer. *)
Definition touch (now : time) (o : string * tokenBucketEntry L) : string * tokenBucketEntry L :=
  (o.1, {| limiter := limiter o.2; lastSeen := now |}).
Definition seen (e : nat) (now : time) (s : bucket) : bucket :=
  set_objects (alter (touch now) e (objects s)) (entries s) s.

(** The critical section under the write lock, for what the read lock found. *)
Definition locked (key : string) (now : time) (found : option nat) (s : bucket) : nat * bucket :=
  match found with
  | Some e => (e, seen e now s)
  | None =>
      match entries s !! key with
      | Some e => (e, seen e now s)
      | None =>
          let e := length (objects s) in
          (e, set_objects (objects s ++ [(key, {| limiter := NewLimiter (tb_limit s) (tb_burst s); lastSeen := now |})])
                (<[key := e]> (entries s)) s)
      end
  end.

(** [limiter.Allow()] on the limiter of an entry. *)
Definition ask (key : string) (e : nat) (s : bucket) : option (bool * bucket) :=
  o ← objects s !! e;
  let '(ok, l) := limiter_Allow (clock s) (limiter o.2) in
  Some (ok,
    {| objects := <[e := (o.1, {| limiter := l; lastSeen := lastSeen o.2 |})]> (objects s);
       entries := entries s; tb_limit := tb_limit s; tb_burst := tb_burst s; stop := stop s; loop := loop s;
       calls := calls s; clock := clock s;
       uses := uses s ++ [{| u_entry := e; u_key := key; u_at := clock s; u_ok := ok |}]; dropped := dropped s |}).

(** The next step of a goroutine. *)
Definition turn (i : nat) (s : bucket) : option bucket :=
  c ← calls s !! i;
  match c with
  | Called key => Some (set_call i (Timed key (clock s)) s)
  | Timed key now => Some (set_call i (Looked key now (entries s !! key)) s)
  | Looked key now found => let '(e, s) := locked key now found s in Some (set_call i (Resolved key e) s)
  | Resolved key e => '(ok, s) ← ask key e s; Some (set_call i (Answered ok) s)
  | Answered _ => None
  end.

(** [entry.lastSeen.Before(cutoff)] for the entry of a key. *)
Definition stale (cutoff : time) (s : bucket) (ke : string * nat) : Prop :=
  ∃ o, objects s !! ke.2 = Some o ∧ lastSeen o.2 < cutoff.
#[export] Instance stale_dec cutoff s ke : Decision (stale cutoff s ke).
Proof.
  unfold stale. destruct (objects s !! ke.2) as [o|]; [|right; by intros (? & ? & _)].
  destruct (decide (lastSeen o.2 < cutoff)); [left; by exists o|right; intros (? & [= <-] & ?); done].
Defined.

(** The loop of [removeStale] under the lock. *)
Definition sweep (cutoff : time) (s : bucket) : bucket :=
  {| objects := objects s; entries := filter (λ ke, ¬ stale cutoff s ke) (entries s);
     tb_limit := tb_limit s; tb_burst := tb_burst s; stop := stop s; loop := loop s; calls := calls s;
     clock := clock s; uses := uses s;
     dropped := dropped s ++ (map_to_list (filter (stale cutoff s) (entries s))).*1 |}.

Definition set_loop (l : cleanup) (s : bucket) : bucket :=
  {| objects := objects s; entries := entries s; tb_limit := tb_limit s; tb_burst := tb_burst s;
     stop := stop s; loop := l; calls := calls s; clock := clock s; uses := uses s; dropped := dropped s |}.

(** A step of [cleanupLoop]; [ticked] says which case of the [select] is taken. *)
Definition cleanupLoop_step (ticked : bool) (s : bucket) : option bucket :=
  match loop s with
  | Selecting =>
      if ticked then Some (set_loop (Sweeping (clock s - staleThreshold)) s)
      else if stop s then Some (set_loop Stopped s) else None
  | Sweeping cutoff => Some (set_loop Selecting (sweep cutoff s))
  | Stopped => None
  end.

Definition Close (s : bucket) : outcome unit * bucket :=
  if stop s then (Panics "close of closed channel", s)
  else (Returns (), {| objects := objects s; entries := entries s; tb_limit := tb_limit s; tb_burst := tb_burst s;
                       stop := true; loop := loop s; calls := calls s; clock := clock s; uses := uses s;
                       dropped := dropped s |}).

(** What can happen next: time passes, a request arrives, a goroutine or the cleanup moves, or
    the bucket is closed. *)
Inductive event := EClock (now : time) | EArrive (key : string) | ETurn (i : nat) | ECleanup (ticked : bool) | EClose.

Definition step (ev : event) (s : bucket) : option bucket :=
  match ev with
  | EClock now =>
      if decide (clock s <= now)
      then Some {| objects := objects s; entries := entries s; tb_limit := tb_limit s; tb_burst := tb_burst s;
                   stop := stop s; loop := loop s; calls := calls s; clock := now; uses := uses s;
                   dropped := dropped s |}
      else None
  | EArrive key =>
      Some {| objects := objects s; entries := entries s; tb_limit := tb_limit s; tb_burst := tb_burst s;
              stop := stop s; loop := loop s; calls := calls s ++ [Called key]; clock := clock s;
              uses := uses s; dropped := dropped s |}
  | ETurn i => turn i s
  | ECleanup ticked => cleanupLoop_step ticked s
  | EClose => Some (Close s).2
  end.

Fixpoint run (evs : list event) (s : bucket) : option bucket :=
  match evs with [] => Some s | ev :: evs => step ev s ≫= run evs end.
End Machine.
Arguments bucket : clear implicits.

(** ** Invariant *)

Section Facts.
Context {L : Type} `{LimiterLaws L}.
Notation bucket := (bucket L).
Implicit Types s : bucket.

Definition keys s : list string := (objects s).*1.
Definition limiters s : list L := map (λ o, limiter o.2) (objects s).
Definition used (e : nat) s : list use := filter (λ u, u_entry u = e) (uses s).
(** The entry a goroutine has a pointer to, with the key it asked for. *)
Definition holds (c : call) : option (nat * string) :=
  match c with Looked key _ (Some e) | Resolved key e => Some (e, key) | _ => None end.

Record inv (rps b : Z) s : Prop := {
  inv_limit : tb_limit s = rps ∧ tb_burst s = b;
  inv_entries : ∀ k e, entries s !! k = Some e → keys s !! e = Some k;
  inv_calls : ∀ c e k, c ∈ calls s → holds c = Some (e, k) → keys s !! e = Some k;
  inv_uses : ∀ u, u ∈ uses s → keys s !! u_entry u = Some (u_key u);
  inv_count : ∀ k, count k (keys s) = (count k (dropped s) + if entries s !! k then 1 else 0)%nat;
  inv_replay : ∀ e l, limiters s !! e = Some l →
    replay (NewLimiter rps b) (map u_at (used e s)) = (map u_ok (used e s), l);
  inv_sorted : StronglySorted Z.le (map u_at (uses s));
  inv_past : ∀ u, u ∈ uses s → u_at u <= clock s
}.

Lemma bucket_start_inv rps b now : inv rps b (start rps b now).
Proof.
  split; try done; cbn; try (intros; set_solver). constructor.
Qed.

Lemma replay_snoc l times t :
  replay l (times ++ [t])
  = let '(oks, l) := replay l times in let '(ok, l) := limiter_Allow t l in (oks ++ [ok], l).
Proof.
  revert l. induction times as [|t' times IH]; intros l; cbn; [by destruct (limiter_Allow t l)|].
  destruct (limiter_Allow t' l) as [ok l1]. rewrite IH. destruct (replay l1 times) as [oks l2].
  by destruct (limiter_Allow t l2).
Qed.

(** Steps that leave the entries' keys and limiters, the map and the records alone. *)
Lemma inv_same rps b s s' :
  inv rps b s → keys s' = keys s → limiters s' = limiters s → entries s' = entries s →
  tb_limit s' = tb_limit s → tb_burst s' = tb_burst s → uses s' = uses s → dropped s' = dropped s →
  clock s <= clock s' →
  (∀ c e k, c ∈ calls s' → holds c = Some (e, k) → keys s !! e = Some k) → inv rps b s'.
Proof.
  intros [] Hk Hl He Hlim Hb Hu Hd Hc Hcalls.
  split; unfold used in *; rewrite ?Hk, ?Hl, ?He, ?Hlim, ?Hb, ?Hu, ?Hd; try done.
  intros u Hin. etrans; [by apply inv_past0|done].
Qed.

Lemma set_call_inv rps b i c s :
  inv rps b s → (∀ e k, holds c = Some (e, k) → keys s !! e = Some k) → inv rps b (set_call i c s).
Proof.
  intros Hi Hc. apply (inv_same _ _ s); try done. intros c' e k Hin Hh.
  apply list_elem_of_lookup in Hin as [j Hj]. cbn in Hj. apply list_lookup_insert_Some in Hj.
  destruct Hj as [(_ & -> & _)|[_ Hj]]; [by apply Hc|].
  eapply inv_calls; [done|by eapply list_elem_of_lookup_2|done].
Qed.

Lemma seen_keys e now s : keys (seen e now s) = keys s.
Proof. unfold keys, seen. cbn. apply list_eq. intros i. rewrite !list_lookup_fmap, list_lookup_alter. case_decide; [|done]. subst. by destruct (_ !! _). Qed.
Lemma seen_limiters e now s : limiters (seen e now s) = limiters s.
Proof. unfold limiters, seen. cbn. apply list_eq. intros i. rewrite !list_lookup_fmap, list_lookup_alter. case_decide; [|done]. subst. by destruct (_ !! _). Qed.
Lemma seen_inv rps b e now s : inv rps b s → inv rps b (seen e now s).
Proof.
  intros Hi. apply (inv_same _ _ s); try done; [apply seen_keys|apply seen_limiters|].
  intros c e' k Hc. by eapply inv_calls.
Qed.

Lemma filter_none {A} (P : A → Prop) `{!∀ x, Decision (P x)} (l : list A) :
  (∀ x, x ∈ l → ¬ P x) → filter P l = [].
Proof. intros Hn. apply elem_of_nil_inv. intros x. rewrite list_elem_of_filter. intros [HP Hx]. by apply (Hn x). Qed.

(** The double check: a limiter is made only for a key that has none. *)
Lemma locked_inv rps b key now found s e s' :
  inv rps b s → (∀ e, found = Some e → keys s !! e = Some key) → locked key now found s = (e, s') →
  inv rps b s' ∧ keys s' !! e = Some key.
Proof.
  intros Hi Hf Hl. unfold locked in Hl. destruct found as [e'|].
  { injection Hl as <- <-. split; [by apply seen_inv|]. rewrite seen_keys. by apply Hf. }
  destruct (entries s !! key) as [e'|] eqn:He.
  { injection Hl as <- <-. split; [by apply seen_inv|]. rewrite seen_keys. by eapply inv_entries. }
  injection Hl as <- <-. destruct Hi.
  assert (Hlen : length (keys s) = length (objects s)) by apply length_fmap.
  set (s1 := set_objects _ _ s).
  assert (Hnew : keys s1 = keys s ++ [key]) by (unfold keys; cbn; by rewrite fmap_app).
  assert (Hkeep : ∀ x k, keys s !! x = Some k → keys s1 !! x = Some k)
    by (intros; rewrite Hnew; by apply lookup_app_l_Some).
  split; [|rewrite Hnew, lookup_app_r, Hlen, Nat.sub_diag by lia; done].
  split; try done.
  - intros k e Hk. cbn in Hk. apply lookup_insert_Some in Hk as [[<- <-]|[_ Hk]]; [|by apply Hkeep, inv_entries0].
    rewrite Hnew, lookup_app_r, Hlen, Nat.sub_diag by lia. done.
  - intros c e k Hc Hh. by eapply Hkeep, inv_calls0.
  - intros u Hu. by apply Hkeep, inv_uses0.
  - intros k. rewrite Hnew, count_app, inv_count0. cbn [entries set_objects dropped s1].
    destruct (decide (key = k)) as [->|Hne].
    + rewrite lookup_insert_eq, He. cbn. rewrite decide_True by done. lia.
    + rewrite lookup_insert_ne by done. cbn. rewrite decide_False by done. lia.
  - intros e l. unfold limiters, used. cbn. rewrite map_app. intros [Hl|[Hge Hl]]%lookup_app_Some; [by apply inv_replay0|].
    rewrite length_map in Hge, Hl. destruct (e - _)%nat eqn:Hz; [|done]. cbn in Hl. injection Hl as <-.
    destruct inv_limit0 as [<- <-].
    rewrite (filter_none (λ u, u_entry u = e)); [done|]. intros u Hu He'. apply inv_uses0, lookup_lt_Some in Hu. lia.
Qed.

(** A call of [Allow] on the limiter of an entry goes on the entry's record. *)
Lemma ask_inv rps b key e s ok s' :
  inv rps b s → keys s !! e = Some key → ask key e s = Some (ok, s') → inv rps b s' ∧ keys s' = keys s.
Proof.
  intros [] Hkey Ha. unfold ask in Ha. destruct (objects s !! e) as [o|] eqn:Ho; [|done]. cbn in Ha.
  destruct (limiter_Allow (clock s) (limiter o.2)) as [ok' l] eqn:Hallow. injection Ha as <- <-.
  assert (Hk : (<[e := (o.1, {| limiter := l; lastSeen := lastSeen o.2 |})]> (objects s)).*1 = keys s).
  { rewrite list_fmap_insert. apply list_insert_id. unfold keys. by rewrite list_lookup_fmap, Ho. }
  assert (Hlt : (e < length (objects s))%nat) by by eapply lookup_lt_Some.
  split; [|done]. split; unfold keys; cbn [objects entries calls uses dropped clock tb_limit tb_burst]; rewrite ?Hk; try done.
  - intros u [Hu|Hu]%elem_of_app; [by apply inv_uses0|]. by apply list_elem_of_singleton in Hu as ->.
  - intros e' l'. unfold limiters, used. cbn [objects uses]. change (map ?f (<[e := ?x]> ?l)) with (f <$> <[e := x]> l).
    rewrite list_fmap_insert, filter_app, filter_cons, filter_nil. cbn [u_entry limiter snd]. intros Hl'.
    apply list_lookup_insert_Some in Hl' as [(<- & <- & _)|[Hne Hl']].
    + rewrite decide_True by done. rewrite !map_app. cbn [map u_at u_ok]. fold (used e s). rewrite replay_snoc.
      rewrite (inv_replay0 e (limiter o.2)) by (unfold limiters; change (map ?f ?l) with (f <$> l); by rewrite list_lookup_fmap, Ho).
      by rewrite Hallow.
    + rewrite decide_False by done. rewrite app_nil_r. by apply inv_replay0.
  - rewrite map_app. apply StronglySorted_app_2; [|done|repeat constructor].
    intros t t' (u & -> & Hu)%list_elem_of_fmap Ht. apply list_elem_of_singleton in Ht as ->. by apply inv_past0.
  - intros u [Hu|Hu]%elem_of_app; [by apply inv_past0|]. by apply list_elem_of_singleton in Hu as ->.
Qed.

Lemma count_keys {A} (m : gmap string A) k : count k (map_to_list m).*1 = if m !! k then 1%nat else 0%nat.
Proof.
  pose proof (NoDup_fst_map_to_list m) as Hnd. destruct (m !! k) as [x|] eqn:Hk.
  - assert (k ∈ (map_to_list m).*1) as Hin by (apply list_elem_of_fmap; exists (k, x); by rewrite elem_of_map_to_list).
    induction Hnd as [|y l Hy Hnd IH]; [by apply elem_of_nil in Hin|]. cbn. case_decide as Hd.
    + subst. by rewrite (proj2 (count_zero _ _)).
    + apply elem_of_cons in Hin as [?|Hin]; [done|]. by rewrite IH.
  - apply count_zero. intros ([k' x] & -> & Hin)%list_elem_of_fmap. apply elem_of_map_to_list in Hin. cbn in Hk. congruence.
Qed.

(** Cleaning up takes keys off the map and records each of them once. *)
Lemma sweep_inv rps b cutoff s : inv rps b s → inv rps b (sweep cutoff s).
Proof.
  intros []. split; try done.
  - intros k e. cbn. intros [Hk _]%map_lookup_filter_Some. by apply inv_entries0.
  - intros k. change (keys (sweep cutoff s)) with (keys s). rewrite inv_count0. cbn [dropped entries sweep].
    rewrite count_app, count_keys, !map_lookup_filter. destruct (entries s !! k) as [e|]; cbn; [|lia].
    destruct (decide (stale cutoff s (k, e))); cbn; repeat case_guard; try done; cbn; lia.
Qed.

Lemma bucket_turn_inv rps b i s s' : inv rps b s → turn i s = Some s' → inv rps b s'.
Proof.
  intros Hi Ht. unfold turn in Ht. destruct (calls s !! i) as [c|] eqn:Hc; [|done]. cbn in Ht.
  assert (Hh : ∀ e k, holds c = Some (e, k) → keys s !! e = Some k)
    by (intros e k; eapply inv_calls; [done|by eapply list_elem_of_lookup_2]).
  destruct c as [key|key now|key now found|key e|]; cbn in Ht.
  - injection Ht as <-. by apply set_call_inv.
  - injection Ht as <-. apply set_call_inv; [done|]. intros e k. cbn. destruct (entries s !! key) eqn:He; [|done].
    intros [= <- <-]. by eapply inv_entries.
  - destruct (locked key now found s) as [e s1] eqn:Hl. injection Ht as <-.
    destruct (locked_inv rps b key now found s e s1) as [H1 H2]; [done| |done|].
    { intros e' ->. by apply Hh. }
    apply set_call_inv; [done|]. by intros e' k [= <- <-].
  - destruct (ask key e s) as [[ok s1]|] eqn:Ha; [|done]. injection Ht as <-.
    destruct (ask_inv rps b key e s ok s1) as [H1 H2]; [done|by apply Hh|done|]. by apply set_call_inv.
  - done.
Qed.

Lemma step_inv rps b ev s s' : inv rps b s → step ev s = Some s' → inv rps b s'.
Proof.
  intros Hi. destruct ev as [now|key|i|ticked|]; cbn.
  - case_decide; [|done]. intros [= <-]. apply (inv_same _ _ s); try done. intros c e k Hc. by eapply inv_calls.
  - intros [= <-]. apply (inv_same _ _ s); try done. intros c e k [Hc|Hc]%elem_of_app; [by eapply inv_calls|].
    by apply list_elem_of_singleton in Hc as ->.
  - by apply bucket_turn_inv.
  - unfold cleanupLoop_step. assert (Hset : ∀ s l, inv rps b s → inv rps b (set_loop l s)).
    { intros s1 l H1. apply (inv_same _ _ s1); try done. intros c e k Hc. by eapply inv_calls. }
    destruct (loop s); [|intros [= <-]; by apply Hset, sweep_inv|done].
    destruct ticked; [intros [= <-]; by apply Hset|]. destruct (stop s); [|done]. intros [= <-]. by apply Hset.
  - intros [= <-]. unfold Close. destruct (stop s); [done|]. apply (inv_same _ _ s); try done.
    intros c e k Hc. by eapply inv_calls.
Qed.

Lemma run_inv rps b evs s s' : inv rps b s → run evs s = Some s' → inv rps b s'.
Proof.
  revert s. induction evs as [|ev evs IH]; intros s Hi; cbn; [by intros [= <-]|].
  destruct (step ev s) as [s1|] eqn:Hs; [|done]. cbn. apply IH. by eapply step_inv.
Qed.
(** ** The rate of a key *)

(** The calls for [key] that were admitted from [a] to [a + T]. *)
Definition admitted s (key : string) (a T : Z) : list use :=
  filter (λ u, u_key u = key ∧ admitted_at a T (u_at u, u_ok u)) (uses s).

(** The entries made for a key. *)
Definition made (ks : list string) (key : string) : list nat :=
  filter (λ e, ks !! e = Some key) (seq 0 (length ks)).

Lemma filter_ext_in {A} (P Q : A → Prop) `{!∀ x, Decision (P x), !∀ x, Decision (Q x)} (l : list A) :
  (∀ x, x ∈ l → P x ↔ Q x) → filter P l = filter Q l.
Proof.
  induction l as [|x l IH]; intros Hpq; [done|]. rewrite !filter_cons, IH by (intros; apply Hpq; by right).
  pose proof (Hpq x ltac:(by left)). repeat case_decide; naive_solver.
Qed.

Lemma made_length ks key : length (made ks key) = count key ks.
Proof.
  induction ks as [|k ks IH] using rev_ind; [done|]. rewrite count_app, <- IH. unfold made.
  rewrite length_app, Nat.add_1_r, seq_S, filter_app, length_app. f_equal.
  - f_equal. apply filter_ext_in. intros e He%elem_of_seq. rewrite lookup_app_l by lia. done.
  - change (0 + length ks)%nat with (length ks). rewrite filter_cons, filter_nil, lookup_app_r, Nat.sub_diag by lia. cbn.
    repeat case_decide; try done; congruence.
Qed.

(** Calls spread over few entries are few when each entry has few. *)
Lemma spread_bound (es : list nat) (l : list use) (M : Z) :
  (∀ u, u ∈ l → u_entry u ∈ es) →
  (∀ e, e ∈ es → Z.of_nat (length (filter (λ u, u_entry u = e) l)) * second <= M) →
  Z.of_nat (length l) * second <= Z.of_nat (length es) * M.
Proof.
  revert l. induction es as [|e es IH]; intros l Hin HM.
  { destruct l as [|u l]; [done|]. exfalso. specialize (Hin u ltac:(by left)). by apply elem_of_nil in Hin. }
  set (rest := filter (λ u, u_entry u ≠ e) l).
  assert (Hlen : (length l = length (filter (λ u, u_entry u = e) l) + length rest)%nat).
  { unfold rest. clear. induction l as [|u l IH]; [done|]. rewrite !filter_cons. repeat case_decide; cbn; try done; lia. }
  assert (Z.of_nat (length rest) * second <= Z.of_nat (length es) * M) as Hrest.
  { apply IH.
    - intros u [Hne Hu]%list_elem_of_filter. apply Hin in Hu. by apply elem_of_cons in Hu as [?|?].
    - intros e' He'. etrans; [|apply (HM e'); by right]. apply Z.mul_le_mono_nonneg_r; [done|].
      apply inj_le, submseteq_length, sublist_submseteq. unfold rest. clear.
      induction l as [|u l IH]; [done|]. rewrite !filter_cons. repeat case_decide; rewrite ?filter_cons;
        repeat case_decide; try done; by constructor. }
  pose proof (HM e ltac:(by left)). cbn [length]. unfold second in *. nia.
Qed.

(** The admitted calls of one entry are within the rate of its limiter. *)
Lemma entry_bound rps b s key a T e :
  inv rps b s → 0 <= rps → 0 <= b → 0 <= T → keys s !! e = Some key →
  Z.of_nat (length (filter (λ u, u_entry u = e) (admitted s key a T))) * second <= b * second + rps * T.
Proof.
  intros Hi Hr Hb HT He. assert (is_Some (limiters s !! e)) as [l Hl].
  { apply lookup_lt_is_Some. apply lookup_lt_Some in He. unfold keys in He. rewrite length_fmap in He.
    unfold limiters. by rewrite length_map. }
  etrans; [|apply (limiter_rate rps b (map u_at (used e s)) a T); try done].
  - apply Z.mul_le_mono_nonneg_r; [done|]. rewrite (inv_replay _ _ _ Hi e l Hl). cbn [fst].
    apply inj_le. unfold admitted, used. induction (uses s) as [|u us IH]; [done|].
    rewrite !filter_cons. destruct (decide (u_entry u = e)) as [Hu|Hu].
    + cbn [map zip zip_with]. rewrite (filter_cons (admitted_at a T)). unfold zip in IH.
      destruct (decide (u_key u = key ∧ admitted_at a T (u_at u, u_ok u))) as [[Hk Ha]|Hn].
      * rewrite filter_cons, !decide_True by done. cbn [length]. by apply le_n_S.
      * etrans; [exact IH|]. case_decide; [apply Nat.le_succ_diag_r|done].
    + case_decide; [|done]. rewrite filter_cons, decide_False by done. done.
  - unfold used. pose proof (inv_sorted _ _ _ Hi) as Hs. clear -Hs.
    induction (uses s) as [|u us IH]; [constructor|]. cbn in Hs. apply StronglySorted_inv in Hs as [Hs Hall].
    rewrite filter_cons. case_decide; [|by apply IH]. constructor; [by apply IH|].
    apply Forall_forall. intros t (u' & -> & [_ Hu']%list_elem_of_filter)%list_elem_of_fmap.
    rewrite Forall_forall in Hall. by apply Hall, list_elem_of_fmap_2.
Qed.

(** C21: under every interleaving of requests, cleanups and the clock, a key is admitted at most the
    burst and [rps] more per second in any interval, as long as the cleanup has not dropped it:
    each time it was dropped gives it one more limiter.  The second look under the write lock is
    what keeps two goroutines from making two limiters for one key. *)
Theorem token_bucket_bound (rps b now a T : Z) (evs : list event) s (key : string) :
  0 <= rps → 0 <= b → 0 <= T → run evs (start rps b now) = Some s →
  Z.of_nat (length (admitted s key a T)) * second
  <= (1 + Z.of_nat (count key (dropped s))) * (b * second + rps * T).
Proof.
  intros Hr Hb HT Hrun. pose proof (run_inv rps b evs _ _ (bucket_start_inv rps b now) Hrun) as Hi.
  etrans; [apply (spread_bound (made (keys s) key))|].
  - intros u [[Hk _] Hu]%list_elem_of_filter. apply list_elem_of_filter.
    apply (inv_uses _ _ _ Hi) in Hu. rewrite Hk in Hu. split; [done|].
    apply elem_of_seq. apply lookup_lt_Some in Hu. lia.
  - intros e [He _]%list_elem_of_filter. by apply entry_bound.
  - rewrite made_length, (inv_count _ _ _ Hi). apply Z.mul_le_mono_nonneg_r; [unfold second; nia|].
    destruct (entries s !! key); lia.
Qed.

(** ** The machine and the sequential model *)

(** The bucket of RateLimit.v that a state stands for. *)
Definition abs s : TokenBucket L :=
  {| tb_entries := omap (λ e, snd <$> objects s !! e) (entries s); limit := tb_limit s; burst := tb_burst s |}.

Lemma abs_lookup s k : tb_entries (abs s) !! k = entries s !! k ≫= λ e, snd <$> objects s !! e.
Proof. apply lookup_omap. Qed.

(** Two states with the same map stand for the same bucket when they differ in one entry. *)
Lemma abs_insert rps b s s' key e x :
  inv rps b s → entries s' = <[key := e]> (entries s) → tb_limit s' = tb_limit s → tb_burst s' = tb_burst s →
  snd <$> objects s' !! e = Some x →
  (∀ k e', entries s !! k = Some e' → k ≠ key → objects s' !! e' = objects s !! e') →
  abs s' = {| tb_entries := <[key := x]> (tb_entries (abs s)); limit := tb_limit s; burst := tb_burst s |}.
Proof.
  intros Hi He Hl Hb Hx Hother. unfold abs at 1. rewrite Hl, Hb, He. f_equal. apply map_eq. intros k.
  rewrite lookup_omap. destruct (decide (key = k)) as [<-|Hne]; [by rewrite !lookup_insert_eq|].
  rewrite !lookup_insert_ne, abs_lookup by done. destruct (entries s !! k) as [e'|] eqn:Hk; [|done]. cbn.
  by rewrite (Hother k e').
Qed.

Lemma run_cons ev evs s s1 : step ev s = Some s1 → run (ev :: evs) s = run evs s1.
Proof. intros Hs. cbn. by rewrite Hs. Qed.

(** The last two steps of a call that found or made the entry [e], with the entry it works on. *)
Lemma finish_call rps b s s4 i key e l ok x :
  inv rps b s → (i < length (calls s4))%nat →
  objects s4 !! e = Some (key, x) → limiter_Allow (clock s4) (limiter x) = (ok, l) →
  entries s4 = <[key := e]> (entries s) → tb_limit s4 = tb_limit s → tb_burst s4 = tb_burst s →
  (∀ k e', entries s !! k = Some e' → k ≠ key → e' ≠ e ∧ objects s4 !! e' = objects s !! e') →
  ∃ s', run [ETurn i] (set_call i (Resolved key e) s4) = Some s' ∧ calls s' !! i = Some (Answered ok)
    ∧ abs s' = {| tb_entries := <[key := {| limiter := l; lastSeen := lastSeen x |}]> (tb_entries (abs s));
                  limit := tb_limit s; burst := tb_burst s |}.
Proof.
  intros Hi Hlt Ho Ha He Hl Hb Hother. eexists. split; [|split].
  - erewrite run_cons; [reflexivity|]. cbn [step]. unfold turn. cbn [calls set_call].
    rewrite list_lookup_insert_eq by done. cbn [mbind option_bind]. unfold ask. cbn [objects set_call clock].
    rewrite Ho. cbn [mbind option_bind snd]. by rewrite Ha.
  - cbn [calls set_call]. apply list_lookup_insert_eq. by rewrite length_insert.
  - apply (abs_insert rps b s _ key e); try done; cbn [objects set_call].
    + rewrite list_lookup_insert_eq by (by eapply lookup_lt_Some). done.
    + intros k e' Hk Hne. destruct (Hother k e' Hk Hne) as [Hee Hoo]. by rewrite list_lookup_insert_ne.
Qed.

(** A call that is not interrupted is [tb_Allow] at the time of the clock. *)
Theorem call_refines rps b s (key : string) :
  inv rps b s →
  let i := length (calls s) in
  ∃ s', run [EArrive key; ETurn i; ETurn i; ETurn i; ETurn i] s = Some s'
    ∧ calls s' !! i = Some (Answered (tb_Allow (clock s) key (abs s)).1)
    ∧ abs s' = (tb_Allow (clock s) key (abs s)).2.
Proof.
  intros Hi i. erewrite run_cons by reflexivity. set (s1 := {| objects := objects s |}).
  assert (Hi1 : (i < length (calls s1))%nat) by (cbn; rewrite length_app; cbn; lia).
  erewrite run_cons.
  2:{ cbn [step]. unfold turn. cbn [calls s1]. rewrite lookup_app_r, Nat.sub_diag by lia. reflexivity. }
  erewrite run_cons.
  2:{ cbn [step]. unfold turn. cbn [calls set_call]. rewrite list_lookup_insert_eq by done. reflexivity. }
  set (s3 := set_call i (Looked _ _ _) _).
  assert (Hi3 : (i < length (calls s3))%nat) by (cbn; by rewrite !length_insert).
  erewrite run_cons.
  2:{ cbn [step]. unfold turn. cbn [calls set_call s3]. rewrite list_lookup_insert_eq by (by rewrite length_insert).
      cbn [mbind option_bind]. rewrite (surjective_pairing (locked _ _ _ _)). reflexivity. }
  assert (Hown : ∀ e k, entries s !! k = Some e → ∃ x, objects s !! e = Some (k, x)).
  { intros e k Hk%(inv_entries _ _ _ Hi). unfold keys in Hk. rewrite list_lookup_fmap in Hk.
    destruct (objects s !! e) as [[k' x]|]; [|done]. injection Hk as <-. by exists x. }
  unfold tb_Allow, getLimiter. rewrite abs_lookup. cbn [entries s3 set_call s1 clock] in *.
  destruct (entries s !! key) as [e|] eqn:He.
  - destruct (Hown e key He) as [x Hx]. cbn [locked fst snd mbind option_bind]. rewrite Hx. cbn [fmap option_fmap option_map snd].
    destruct (limiter_Allow (clock s) (limiter x)) as [ok l] eqn:Ha. cbn [fst snd].
    apply (finish_call rps b s (seen e (clock s) s3) i key e l ok {| limiter := limiter x; lastSeen := clock s |}); try done.
    + cbn. by rewrite list_lookup_alter_eq, Hx.
    + cbn. by rewrite insert_id.
    + intros k e' Hk Hne. destruct (Hown e' k Hk) as [x' Hx'].
      assert (e' ≠ e) as Hee by (intros ->; congruence). split; [done|]. cbn. by rewrite list_lookup_alter_ne.
  - cbn [mbind option_bind]. destruct (limiter_Allow (clock s) (NewLimiter (limit (abs s)) (burst (abs s)))) as [ok l] eqn:Ha.
    unfold locked. cbn [entries s3 set_call s1]. rewrite He. cbn [fst snd].
    apply (finish_call rps b s (set_objects _ _ s3) i key _ l ok {| limiter := NewLimiter (tb_limit s) (tb_burst s); lastSeen := clock s |}); try done.
    + cbn. by rewrite lookup_app_r, Nat.sub_diag by lia.
    + intros k e' Hk Hne. destruct (Hown e' k Hk) as [x' Hx']. apply lookup_lt_Some in Hx' as Hlt. split; [cbn; lia|].
      cbn. by rewrite lookup_app_l.
Qed.

(** A cleanup is [removeStale] at the time its cutoff was read. *)
Theorem sweep_refines now s : abs (sweep (now - staleThreshold) s) = removeStale now (abs s).
Proof.
  unfold abs, removeStale. cbn [tb_entries limit burst sweep entries objects tb_limit tb_burst]. f_equal. apply map_eq. intros k.
  rewrite lookup_omap, !map_lookup_filter, lookup_omap. destruct (entries s !! k) as [e|]; [|done]. cbn [mbind option_bind].
  assert (Hst : stale (now - staleThreshold) s (k, e) ↔ ∃ o, objects s !! e = Some o ∧ lastSeen o.2 < now - staleThreshold) by done.
  destruct (objects s !! e) as [o|] eqn:Ho; cbn [fmap option_fmap option_map mbind option_bind].
  - destruct (decide (lastSeen o.2 < now - staleThreshold)) as [Hlt|Hge];
      repeat case_guard; cbn; rewrite ?Ho; try done; naive_solver.
  - repeat case_guard; cbn; rewrite ?Ho; done.
Qed.

(** ** Dropping idle entries *)

Inductive tb_op := Req (key : string) (now : time) | Sweep (now : time).
Definition op_time (op : tb_op) : time := match op with Req _ now | Sweep now => now end.

(** The answers of a bucket, with the cleanups or without them. *)
Fixpoint answers (sweeps : bool) (ops : list tb_op) (tb : TokenBucket L) : list bool :=
  match ops with
  | [] => []
  | Req key now :: ops => let '(ok, tb) := tb_Allow now key tb in ok :: answers sweeps ops tb
  | Sweep now :: ops => answers sweeps ops (if sweeps then removeStale now tb else tb)
  end.

(** [tb] has dropped entries of [tb'] that were idle for ten minutes at time [T]. *)
Record idle_dropped (rps b : Z) (T : time) (tb tb' : TokenBucket L) : Prop := {
  id_limit : limit tb = rps ∧ burst tb = b ∧ limit tb' = rps ∧ burst tb' = b;
  id_none : ∀ k, tb_entries tb' !! k = None → tb_entries tb !! k = None;
  id_some : ∀ k e, tb_entries tb' !! k = Some e →
    lastSeen e <= T
    ∧ (∃ times, StronglySorted Z.le (times ++ [lastSeen e])
                ∧ limiter e = (replay (NewLimiter rps b) (times ++ [lastSeen e])).2)
    ∧ (tb_entries tb !! k = Some e ∨ tb_entries tb !! k = None ∧ lastSeen e < T - staleThreshold)
}.

Lemma idle_later rps b T T' tb tb' : idle_dropped rps b T tb tb' → T <= T' → idle_dropped rps b T' tb tb'.
Proof.
  intros [Hl Hn Hs] HT. split; [done|done|]. intros k e (Hle & Ht & Hd)%Hs. split; [lia|]. split; [done|].
  destruct Hd as [|[? ?]]; [by left|right]. split; [done|lia].
Qed.

Lemma idle_sweep rps b T tb tb' : idle_dropped rps b T tb tb' → idle_dropped rps b T (removeStale T tb) tb'.
Proof.
  intros [Hl Hn Hs]. split; [done| |].
  - intros k Hk%Hn. cbn. by rewrite map_lookup_filter, Hk.
  - intros k e Hk. destruct (Hs k e Hk) as (Hle & Ht & Hd). split; [done|]. split; [done|]. cbn.
    rewrite map_lookup_filter. destruct Hd as [->|[-> ?]]; [|by right]. cbn.
    case_guard as Hg; [by left|right]. split; [done|]. cbn in Hg. lia.
Qed.

Lemma idle_request rps b T key tb tb' :
  0 <= rps → 0 <= b → b * second <= rps * staleThreshold → idle_dropped rps b T tb tb' →
  (tb_Allow T key tb).1 = (tb_Allow T key tb').1
  ∧ idle_dropped rps b T (tb_Allow T key tb).2 (tb_Allow T key tb').2.
Proof.
  intros Hr Hb Hfill [(H1 & H2 & H3 & H4) Hn Hs].
  assert (∃ times, StronglySorted Z.le (times ++ [T])
    ∧ limiter_Allow T (getLimiter T key tb) = limiter_Allow T (getLimiter T key tb')
    ∧ (limiter_Allow T (getLimiter T key tb')).2 = (replay (NewLimiter rps b) (times ++ [T])).2)
    as (times & Hsort & Heq & Hrep).
  { unfold getLimiter. rewrite H1, H2, H3, H4. destruct (tb_entries tb' !! key) as [e|] eqn:He.
    - destruct (Hs key e He) as (Hle & (times & Ht & Hl) & Hd). exists (times ++ [lastSeen e]). split_and!.
      + apply StronglySorted_app_2; [|done|repeat constructor]. intros t t' Hin Ht'.
        apply list_elem_of_singleton in Ht' as ->. apply elem_of_app in Hin as [Hin|Hin].
        * etrans; [|exact Hle]. eapply (StronglySorted_app_le Z.le); [exact Ht|done|by left].
        * by apply list_elem_of_singleton in Hin as ->.
      + destruct Hd as [->|[-> Hlt]]; [done|]. rewrite Hl. symmetry. apply limiter_idle; try done.
        unfold staleThreshold in *. nia.
      + rewrite replay_snoc, Hl. destruct (replay _ _). cbn. by destruct (limiter_Allow _ _).
    - rewrite (Hn key He). exists []. split_and!; [repeat constructor|done|]. cbn. by destruct (limiter_Allow _ _). }
  unfold tb_Allow. rewrite Heq. destruct (limiter_Allow T (getLimiter T key tb')) as [ok l]. cbn [fst snd] in *.
  split; [done|]. split; [done| |].
  - intros k. cbn. rewrite !lookup_insert_None. intros [? ?]. split; [by apply Hn|done].
  - intros k e. cbn. destruct (decide (key = k)) as [<-|Hne].
    + rewrite !lookup_insert_eq. intros [= <-]. cbn. split; [lia|]. split; [by exists times|by left].
    + rewrite !lookup_insert_ne by done. apply Hs.
Qed.

(** when an empty bucket fills within the ten minutes after which idle entries are dropped, that
    is for a burst of at most 600 times the rate, dropping them changes no answer. *)
Theorem eviction_transparent (rps b T : Z) (ops : list tb_op) :
  0 <= rps → 0 <= b → b <= 600 * rps → StronglySorted Z.le (T :: map op_time ops) →
  answers true ops (NewTokenBucket rps b) = answers false ops (NewTokenBucket rps b).
Proof.
  intros Hr Hb Hfill. assert (Hf : b * second <= rps * staleThreshold) by (unfold second, staleThreshold; nia).
  assert (idle_dropped rps b T (NewTokenBucket rps b) (NewTokenBucket rps b)) as Hi by by split.
  revert Hi. generalize (NewTokenBucket (L := L) rps b) at 1 3 as tb. generalize (NewTokenBucket (L := L) rps b) as tb'.
  revert T. induction ops as [|op ops IH]; intros T tb' tb Hi Hsort; [done|].
  apply StronglySorted_inv in Hsort as [Hsort Hall]. cbn in Hall. apply Forall_cons in Hall as [Hle _].
  apply (idle_later _ _ _ (op_time op)) in Hi; [|done]. destruct op as [key now|now]; cbn [op_time] in *.
  - destruct (idle_request rps b now key tb tb') as [Hok Hi']; [done..|]. cbn.
    destruct (tb_Allow now key tb) as [ok t1], (tb_Allow now key tb') as [ok' t1']. cbn in Hok, Hi'. subst.
    f_equal. by apply (IH now).
  - cbn. apply (IH now); [|done]. by apply idle_sweep.
Qed.
End Facts.

(** ** A limiter with exact arithmetic

    A bucket counted in billionths of a token; [filled_at] is the time of the last admitted event.
    It satisfies the laws, so they are consistent. *)
Record exact := { ex_rate : Z; ex_burst : Z; tokens : Z; filled_at : option time }.

Definition available (t : time) (l : exact) : Z :=
  match filled_at l with
  | None => ex_burst l * second
  | Some t0 => Z.min (ex_burst l * second) (tokens l + ex_rate l * Z.max 0 (t - t0))
  end.

#[export] Instance exact_limiter : Limiter exact := {
  NewLimiter rps b := {| ex_rate := rps; ex_burst := b; tokens := b * second; filled_at := None |};
  limiter_Allow t l :=
    if second <=? available t l
    then (true, {| ex_rate := ex_rate l; ex_burst := ex_burst l; tokens := available t l - second; filled_at := Some t |})
    else (false, l)
}.

(** A limiter of rate [rps] and burst [b] last filled no later than [t]. *)
Definition kept (rps b : Z) (t : time) (l : exact) : Prop :=
  ex_rate l = rps ∧ ex_burst l = b ∧ ∀ t0, filled_at l = Some t0 → t0 <= t ∧ 0 <= tokens l <= b * second.

Lemma available_range rps b t l : 0 <= rps → 0 <= b → kept rps b t l → 0 <= available t l <= b * second.
Proof.
  intros Hr Hb (<- & <- & Hk). unfold available, second in *. destruct (filled_at l) as [t0|]; [|nia].
  destruct (Hk t0 eq_refl). nia.
Qed.

Lemma available_grows rps b t t' l :
  0 <= rps → 0 <= b → kept rps b t l → t <= t' → available t' l <= available t l + rps * (t' - t).
Proof.
  intros Hr Hb (<- & <- & Hk) Ht. unfold available, second in *. destruct (filled_at l) as [t0|]; [|nia].
  destruct (Hk t0 eq_refl). rewrite !Z.max_r by lia. nia.
Qed.

Lemma kept_later rps b t t' l : kept rps b t l → t <= t' → kept rps b t' l.
Proof. intros (? & ? & Hk) Ht. split_and!; [done..|]. intros t0 [? ?]%Hk. split; [lia|done]. Qed.

Lemma kept_Allow rps b t l : 0 <= rps → 0 <= b → kept rps b t l → kept rps b t (limiter_Allow t l).2.
Proof.
  intros Hr Hb Hk. cbn. destruct (Z.leb_spec second (available t l)); [|done].
  pose proof (available_range rps b t l Hr Hb Hk). destruct Hk as (<- & <- & _). split_and!; try done.
  intros t0 [= <-]. cbn. unfold second in *. lia.
Qed.

(** What is available before a call pays for the call and for what is available after it. *)
Lemma Allow_pays rps b t l ok l' :
  0 <= rps → 0 <= b → kept rps b t l → limiter_Allow t l = (ok, l') →
  (if ok then second else 0) + available t l' <= available t l.
Proof.
  intros Hr Hb Hk. cbn. pose proof (available_range rps b t l Hr Hb Hk) as Hrange. destruct Hk as (<- & <- & _).
  destruct (Z.leb_spec second (available t l)); intros [= <- <-]; [|lia].
  set (v := available t l) in *. unfold available. cbn. rewrite Z.sub_diag. nia.
Qed.

(** The events admitted from [t] on, when [t] is in the interval. *)
Lemma exact_rate_from rps b a T times t l :
  0 <= rps → 0 <= b → a <= t → kept rps b t l → StronglySorted Z.le (t :: times) →
  Z.of_nat (length (filter (admitted_at a T) (zip times (replay l times).1))) * second
  <= available t l + rps * Z.max 0 (a + T - t).
Proof.
  intros Hr Hb. revert t l. induction times as [|t1 times IH]; intros t l Ha Hk Hs.
  { pose proof (available_range rps b t l Hr Hb Hk). cbn. nia. }
  apply StronglySorted_inv in Hs as [Hs Hall]. apply Forall_cons in Hall as [Ht _].
  assert (Hk1 := kept_later rps b t t1 l Hk Ht). pose proof (available_grows rps b t t1 l Hr Hb Hk Ht) as Hg.
  cbn [replay]. destruct (limiter_Allow t1 l) as [ok l1] eqn:Hal.
  pose proof (Allow_pays rps b t1 l ok l1 Hr Hb Hk1 Hal) as Hpay.
  assert (kept rps b t1 l1) as Hk2 by (pose proof (kept_Allow rps b t1 l Hr Hb Hk1) as Hkk; by rewrite Hal in Hkk).
  specialize (IH t1 l1 ltac:(lia) Hk2 Hs). destruct (replay l1 times) as [oks l2]. cbn [fst] in *.
  change (zip (t1 :: times) (ok :: oks)) with ((t1, ok) :: zip times oks).
  rewrite filter_cons. destruct (decide (admitted_at a T (t1, ok))) as [[Hok Hin]|Hout].
  - cbn in Hok, Hin. subst ok. cbn [length]. rewrite Nat2Z.inj_succ. rewrite Z.max_r in IH by lia. rewrite Z.max_r by lia.
    unfold second in *. nia.
  - pose proof (available_range rps b t l Hr Hb Hk). destruct (Z.le_gt_cases t1 (a + T)).
    + rewrite Z.max_r in IH by lia. rewrite Z.max_r by lia. destruct ok; unfold second in *; nia.
    + assert (Hnone : filter (admitted_at a T) (zip times oks) = []); [|rewrite Hnone; cbn; nia].
      apply filter_none. intros [t2 ok2] Hin [_ Hle]. apply elem_of_lookup_zip_with in Hin as (j & t3 & ok3 & [= -> ->] & Hj & _).
      apply StronglySorted_inv in Hs as [_ Hall]. rewrite Forall_forall in Hall.
      apply list_elem_of_lookup_2 in Hj. specialize (Hall _ Hj). cbn in Hle. lia.
Qed.

Lemma exact_rate rps b a T times t l :
  0 <= rps → 0 <= b → 0 <= T → kept rps b t l → StronglySorted Z.le (t :: times) →
  Z.of_nat (length (filter (admitted_at a T) (zip times (replay l times).1))) * second <= b * second + rps * T.
Proof.
  intros Hr Hb HT. revert t l. induction times as [|t1 times IH]; intros t l Hk Hs; [cbn; unfold second; nia|].
  apply StronglySorted_inv in Hs as [Hs Hall]. apply Forall_cons in Hall as [Ht _].
  assert (Hk1 := kept_later rps b t t1 l Hk Ht). destruct (Z.le_gt_cases a t1) as [Ha|Ha].
  - etrans; [apply (exact_rate_from rps b a T (t1 :: times) t1 l Hr Hb Ha Hk1)|].
    + constructor; [done|]. apply StronglySorted_inv in Hs as [_ Hall]. by constructor.
    + pose proof (available_range rps b t1 l Hr Hb Hk1). nia.
  - cbn [replay]. destruct (limiter_Allow t1 l) as [ok l1] eqn:Hal.
    assert (kept rps b t1 l1) as Hk2 by (pose proof (kept_Allow rps b t1 l Hr Hb Hk1) as Hkk; by rewrite Hal in Hkk).
    specialize (IH t1 l1 Hk2 Hs). destruct (replay l1 times) as [oks l2]. cbn [fst] in *.
    change (zip (t1 :: times) (ok :: oks)) with ((t1, ok) :: zip times oks).
    rewrite filter_cons, decide_False; [done|]. intros [_ [? _]]. cbn in *. lia.
Qed.

Lemma replay_kept rps b times t l :
  0 <= rps → 0 <= b → StronglySorted Z.le (times ++ [t]) → (∀ t', t' ∈ times ++ [t] → kept rps b t' l) →
  kept rps b t (replay l (times ++ [t])).2.
Proof.
  intros Hr Hb. revert l. induction times as [|t1 times IH]; intros l Hs Hk; cbn [app replay].
  - pose proof (kept_Allow rps b t l Hr Hb (Hk t ltac:(by left))) as Hk1. by destruct (limiter_Allow t l).
  - apply StronglySorted_inv in Hs as [Hs Hall]. rewrite Forall_forall in Hall.
    pose proof (kept_Allow rps b t1 l Hr Hb (Hk t1 ltac:(by left))) as Hk1. destruct (limiter_Allow t1 l) as [ok l1].
    cbn [snd] in Hk1. specialize (IH l1 Hs). destruct (replay l1 (times ++ [t])). apply IH.
    intros t' Ht'. eapply kept_later; [exact Hk1|by apply Hall].
Qed.

(** A bucket of size 0 admits nothing and never changes. *)
Lemma replay_empty rps times : (replay (NewLimiter rps 0 : exact) times).2 = NewLimiter rps 0.
Proof.
  induction times as [|t times IH]; [done|]. revert IH. cbn [replay].
  change (limiter_Allow t (NewLimiter rps 0)) with (false, NewLimiter rps 0 : exact). cbn iota beta.
  by destruct (replay (NewLimiter rps 0) times).
Qed.

#[export] Instance exact_laws : LimiterLaws exact.
Proof.
  assert (Hnew : ∀ rps b t, kept rps b t (NewLimiter rps b)) by (intros; by split_and!).
  split.
  - intros rps b [|t times] a T Hr Hb HT Hs; [cbn; unfold second; nia|].
    apply (exact_rate rps b a T (t :: times) t); try done. constructor; [done|].
    apply StronglySorted_inv in Hs as [_ Hall]. by constructor.
  - intros rps b times t now Hr Hb Hs Hidle. destruct (decide (b = 0)) as [->|Hb0]; [by rewrite replay_empty|].
    pose proof (replay_kept rps b times t (NewLimiter rps b) Hr Hb Hs ltac:(done)) as (Hrate & Hburst & Hk).
    set (l := (replay _ _).2) in *. cbn. rewrite Hrate, Hburst.
    assert (available now l = b * second) as ->; [|cbn; by destruct (Z.leb_spec second (b * second)); unfold second in *; [|lia]].
    unfold available. rewrite Hrate, Hburst. destruct (filled_at l) as [t0|] eqn:Hf; [|done].
    destruct (Hk t0 eq_refl) as [? ?]. apply Z.min_l. unfold second in *. nia.
Qed.

(** ** Witnesses *)

(** Two goroutines look a new key up before either takes the write lock; the second one finds
    the limiter of the first and is refused. *)
Definition race_events : list event :=
  [EArrive "u"; EArrive "u"; ETurn 0; ETurn 1; ETurn 0; ETurn 1; ETurn 0; ETurn 1; ETurn 0; ETurn 1].
Definition race : bucket exact := default (start 1 1 0) (run race_events (start 1 1 0)).

Example race_answers : calls race = [Answered true; Answered false] ∧ length (objects race) = 1%nat.
Proof. split; vm_compute; reflexivity. Qed.

Lemma token_bucket_bound_witness :
  Z.of_nat (length (admitted race "u" 0 0)) * second
  <= (1 + Z.of_nat (count "u" (dropped race))) * (1 * second + 1 * 0).
Proof. apply (token_bucket_bound 1 1 0 0 0 race_events race "u"); [lia..|]. vm_compute. reflexivity. Defined.

(** A cleanup between two bursts of a key. *)
Definition bursts (n : nat) : list tb_op :=
  replicate n (Req "u" 0) ++ [Sweep (601 * second)] ++ replicate n (Req "u" (601 * second)).

Lemma eviction_transparent_witness :
  answers true (bursts 3) (NewTokenBucket 1 2 : TokenBucket exact)
  = answers false (bursts 3) (NewTokenBucket 1 2 : TokenBucket exact).
Proof. apply (eviction_transparent 1 2 0 (bursts 3)); [lia..|]. cbn. repeat constructor; done. Defined.

(** With a burst of more than 600 times the rate the cleanup gives a key tokens it had not yet
    earned: of two bursts of 700 requests 1400 are admitted instead of 1301. *)
Example eviction_refills :
  length (filter (λ ok, ok = true) (answers true (bursts 700) (NewTokenBucket 1 700 : TokenBucket exact))) = 1400%nat
  ∧ length (filter (λ ok, ok = true) (answers false (bursts 700) (NewTokenBucket 1 700 : TokenBucket exact))) = 1301%nat.
Proof. split; vm_compute; reflexivity. Qed.
