(* ===== verification/Seed.v ===== *)
(** * Database seeding

    [Seed.v] models infra/seed: the seeder registry (registry.go), the filters (filter.go), the
    order (sort.go), the reference store (reference.go), the seed context (context.go), the
    truncation of tables (truncator.go) and the runner with its transactions (runner.go), over
    the database of [Db.v] and the sort of [TopoSort.v].  A seeder is arbitrary code. *)

From Stdlib Require Import Ascii.
From S2P Require Import Prelude Errors Event Db TopoSort.
Import Kahn Items.
Local Open Scope go_scope.

Section Seed.
(** The database, the rest of the program's memory, the values of references and the
    configuration. *)
Context {D H V Cfg : Type}.

(** ** reference.go *)

Definition ReferenceStore := gmap string V.
Definition NewReferenceStore : ReferenceStore := ∅.
Definition Set_ (key : string) (value : V) (rs : ReferenceStore) : ReferenceStore :=
  <[key := value]> rs.
Definition Get (rs : ReferenceStore) (key : string) : option V := rs !! key.
Definition not_found (key : string) : string := "seed: reference " +:+ Quote key +:+ " not found".
Definition MustGet (rs : ReferenceStore) (key : string) : outcome V :=
  match Get rs key with Some v => Returns v | None => Panics (not_found key) end.

(** The type assertion [raw.(T)] and the names [%T] prints are arguments. *)
Definition GetRef {T} (cast : V → option T) (typeOf : V → string) (want : string)
    (rs : ReferenceStore) (key : string) : result error T :=
  match Get rs key with
  | None => Err (EText (not_found key))
  | Some raw =>
      match cast raw with
      | Some typed => Ok typed
      | None => Err (EText ("seed: reference " +:+ Quote key +:+ " has type " +:+ typeOf raw
                            +:+ ", want " +:+ want))
      end
  end.
Definition MustGetRef {T} (cast : V → option T) (typeOf : V → string) (want : string)
    (rs : ReferenceStore) (key : string) : outcome T :=
  match GetRef cast typeOf want rs key with Ok v => Returns v | Err e => Panics (Error e) end.

(** The program's memory: the reference stores made so far, shared by pointer, and the rest. *)
Record memory := { stores : list ReferenceStore; other : H }.
Notation world := (world D memory).

Definition new_store (w : world) : nat * world :=
  (length (stores (mem w)),
   set_mem {| stores := stores (mem w) ++ [NewReferenceStore]; other := other (mem w) |} w).

(** ** context.go *)

Record SeedContext := {
  sc_tx : bool; (* whether a transaction is set *)
  sc_logger : bool;
  sc_refs : nat; (* a pointer to a store *)
  sc_env : string;
  sc_cfg : option Cfg;
  sc_dryRun : bool
}.
Definition SeedContextOption := SeedContext → SeedContext.

Definition WithTx (tx : bool) : SeedContextOption := λ sc,
  {| sc_tx := tx; sc_logger := sc_logger sc; sc_refs := sc_refs sc; sc_env := sc_env sc;
     sc_cfg := sc_cfg sc; sc_dryRun := sc_dryRun sc |}.
Definition WithLogger (l : bool) : SeedContextOption := λ sc,
  {| sc_tx := sc_tx sc; sc_logger := l; sc_refs := sc_refs sc; sc_env := sc_env sc;
     sc_cfg := sc_cfg sc; sc_dryRun := sc_dryRun sc |}.
Definition WithRefs (refs : nat) : SeedContextOption := λ sc,
  {| sc_tx := sc_tx sc; sc_logger := sc_logger sc; sc_refs := refs; sc_env := sc_env sc;
     sc_cfg := sc_cfg sc; sc_dryRun := sc_dryRun sc |}.
Definition WithEnv (env : string) : SeedContextOption := λ sc,
  {| sc_tx := sc_tx sc; sc_logger := sc_logger sc; sc_refs := sc_refs sc; sc_env := env;
     sc_cfg := sc_cfg sc; sc_dryRun := sc_dryRun sc |}.
Definition WithConfig (cfg : Cfg) : SeedContextOption := λ sc,
  {| sc_tx := sc_tx sc; sc_logger := sc_logger sc; sc_refs := sc_refs sc; sc_env := sc_env sc;
     sc_cfg := Some cfg; sc_dryRun := sc_dryRun sc |}.
Definition WithDryRun (dryRun : bool) : SeedContextOption := λ sc,
  {| sc_tx := sc_tx sc; sc_logger := sc_logger sc; sc_refs := sc_refs sc; sc_env := sc_env sc;
     sc_cfg := sc_cfg sc; sc_dryRun := dryRun |}.

Definition NewSeedContext (opts : list SeedContextOption) (w : world) : SeedContext * world :=
  let '(refs, w) := new_store w in
  (foldl (λ sc opt, opt sc)
     {| sc_tx := false; sc_logger := false; sc_refs := refs; sc_env := ""; sc_cfg := None;
        sc_dryRun := false |} opts, w).

(** The connection a seeder's statements use. *)
Definition DBTX (sc : SeedContext) : conn := if sc_tx sc then Tx else Pool.

(** ** seeder.go *)

Record Seeder := {
  Name : string;
  Groups : list string;
  Environments : list string;
  DependsOn : list string;
  SeedFn : SeedContext → prog world (option error);
  ShouldRun : option (SeedContext → prog world bool); (* ConditionalSeeder *)
  TruncateTablesOf : option (list string) (* TruncatingSeeder *)
}.

(** ** registry.go *)

Record Registry := { seeders : list Seeder; seen : gset string }.
Definition NewRegistry : Registry := {| seeders := []; seen := ∅ |}.
Definition Register (s : Seeder) (r : Registry) : option error * Registry :=
  if decide (Name s ∈ seen r)
  then (Some (EText ("seed: duplicate seeder " +:+ Quote (Name s))), r)
  else (None, {| seeders := seeders r ++ [s]; seen := {[Name s]} ∪ seen r |}).
Definition MustRegister (s : Seeder) : prog Registry unit := λ r,
  match Register s r with
  | (Some err, r) => (Panics (Error err), r)
  | (None, r) => (Returns (), r)
  end.
Definition Seeders (r : Registry) : list Seeder := seeders r.
Definition Names (r : Registry) : list string := map Name (seeders r).

(** ** filter.go *)

Notation TxMode := string (only parsing).
Definition TxModeGlobal : TxMode := "global".
Definition TxModePerSeeder : TxMode := "per-seeder".

Record RunOptions := {
  o_Groups : list string;
  o_Classes : list string;
  o_Skip : list string;
  o_Env : string;
  o_TxMode : TxMode;
  o_DryRun : bool;
  o_Fresh : bool;
  o_Force : bool
}.

Definition mem_str (x : string) (l : list string) : bool := bool_decide (x ∈ l).

Definition filterByEnv (ss : list Seeder) (env : string) : list Seeder :=
  if (env =? "")%string then ss
  else List.filter (λ s, match Environments s with
                         | [] => true
                         | envs => mem_str env envs
                         end) ss.
Definition filterByGroups (ss : list Seeder) (groups : list string) : list Seeder :=
  match groups with
  | [] => ss
  | _ => List.filter (λ s, existsb (λ sg, mem_str sg groups) (Groups s)) ss
  end.
Definition filterByClass (ss : list Seeder) (classes : list string) : list Seeder :=
  match classes with
  | [] => ss
  | _ => List.filter (λ s, mem_str (Name s) classes) ss
  end.
Definition filterBySkip (ss : list Seeder) (skip : list string) : list Seeder :=
  match skip with
  | [] => ss
  | _ => List.filter (λ s, negb (mem_str (Name s) skip)) ss
  end.
Definition filterSeeders (ss : list Seeder) (env : string) (opts : RunOptions) : list Seeder :=
  let ss := filterByEnv ss env in
  let ss := filterByGroups ss (o_Groups opts) in
  let ss := filterByClass ss (o_Classes opts) in
  let ss := filterBySkip ss (o_Skip opts) in
  ss.

(** ** sort.go *)

Definition unregistered (name dep : string) : error :=
  EText ("seed: seeder " +:+ Quote name +:+ " depends on unregistered seeder " +:+ Quote dep).
Definition buildDeps (ss : list Seeder) (byName : gmap string Seeder)
    : result error (gmap string (list string)) :=
  build_deps Name DependsOn unregistered byName ss ∅.

Definition in_degrees (ss : list Seeder) (deps : gmap string (list string)) : gmap string Z :=
  foldl (λ acc s, <[Name s := Z.of_nat (length (default [] (deps !! Name s)))]> acc) ∅ ss.

Definition cycle_error : error := EText "seed: dependency cycle detected among seeders".

(** [None] only if the loop ran out of the fuel [len(seeders) + 1]. *)
Definition kahnSort `{!MapRange} (ss : list Seeder) (byName : gmap string Seeder)
    (deps : gmap string (list string)) : option (result error (list (option Seeder))) :=
  let inDegree := in_degrees ss deps in
  let queue := initial_queue (map Name ss) inDegree in
  let revDeps := build_rev deps in
  match kahn_loop (S (length ss)) revDeps inDegree queue [] with
  | None => None
  | Some sorted =>
      let sorted := map (λ n, byName !! n) sorted in
      if length sorted =? length ss then Some (Ok sorted) else Some (Err cycle_error)
  end.

Definition topologicalSort `{!MapRange} (ss : list Seeder)
    : option (result error (list (option Seeder))) :=
  match ss with
  | [] => Some (Ok [])
  | _ =>
      let byName := build_byName Name ss in
      match buildDeps ss byName with
      | Err err => Some (Err err)
      | Ok deps => kahnSort ss byName deps
      end
  end.

(** ** The registry *)

Definition registry_ok (r : Registry) : Prop :=
  NoDup (map Name (seeders r)) ∧ ∀ n, n ∈ seen r ↔ n ∈ map Name (seeders r).

Lemma seeders_ok_new : registry_ok NewRegistry.
Proof. split; simpl; [constructor | set_solver]. Qed.

Lemma Register_seeders_ok s r : registry_ok r → registry_ok (Register s r).2.
Proof.
  intros [Hnd Hseen]. unfold Register. case_decide as Hd; [done|].
  rewrite Hseen in Hd. split; simpl.
  - rewrite map_app. apply NoDup_app. split; [done|]. split; [|apply NoDup_singleton].
    intros n Hn ->%list_elem_of_singleton. done.
  - intros n. rewrite map_app, elem_of_union, elem_of_app, elem_of_singleton. simpl.
    rewrite list_elem_of_singleton, Hseen. tauto.
Qed.

(** ** truncator.go *)

Definition in_range (lo hi c : ascii) : bool :=
  (N.leb (N_of_ascii lo) (N_of_ascii c) && N.leb (N_of_ascii c) (N_of_ascii hi))%bool.
Definition is_letter (c : ascii) : bool :=
  (in_range "a" "z" c || in_range "A" "Z" c || Ascii.eqb c "_")%bool.
Definition is_word (c : ascii) : bool := (is_letter c || in_range "0" "9" c)%bool.

(** [[a-zA-Z_][a-zA-Z0-9_]*] at the start of a string; the rest of the string. *)
Fixpoint word_rest (s : string) : string :=
  match s with
  | String c s' => if is_word c then word_rest s' else s
  | EmptyString => EmptyString
  end.
Definition ident (s : string) : option string :=
  match s with
  | String c s' => if is_letter c then Some (word_rest s') else None
  | EmptyString => None
  end.
Definition validTableName (s : string) : bool :=
  match ident s with
  | Some EmptyString => true
  | Some (String "." s') => match ident s' with Some EmptyString => true | _ => false end
  | _ => false
  end.

Fixpoint join_comma (l : list string) : string :=
  match l with
  | [] => ""
  | [t] => t
  | t :: l' => t +:+ ", " +:+ join_comma l'
  end.
Definition truncate_query (tables : list string) : string :=
  "TRUNCATE TABLE " +:+ join_comma tables +:+ " RESTART IDENTITY CASCADE".

Definition invalid_table (t : string) : error := EText ("seed: invalid table name " +:+ Quote t).

(** What the server does with the text of a query. *)
Context (exec_sql : string → statement D unit).

Definition TruncateTables (c : conn) (tables : list string) (w : world) : option error * world :=
  match tables with
  | [] => (None, w)
  | _ =>
      match List.find (λ t, negb (validTableName t)) tables with
      | Some t => (Some (invalid_table t), w)
      | None =>
          match Exec c (exec_sql (truncate_query tables)) w with
          | (Ok _, w) => (None, w)
          | (Err err, w) => (Some err, w)
          end
      end
  end.

(** ** runner.go *)

Record SeederResult := {
  res_Name : string;
  res_Status : string;
  res_Duration : Z;
  res_Error : option error
}.

Record Runner := { cfg : Cfg; registry : Registry }.
Definition NewRunner (cfg : Cfg) (registry : Registry) : Runner :=
  {| cfg := cfg; registry := registry |}.

(** [cfg.App.Env]; [time.Since(start)] when a seeder ends. *)
Context (App_Env : Cfg → string) (since : world → Z).
Context `{!MapRange}.

Definition resolveEnv (r : Runner) (opts : RunOptions) : string :=
  if (o_Env opts =? "")%string then App_Env (cfg r) else o_Env opts.

Definition newSeedContext (r : Runner) (refs : nat) (env : string) (dryRun : bool) (w : world)
    : SeedContext * world :=
  NewSeedContext [WithTx true; WithLogger true; WithRefs refs; WithEnv env; WithConfig (cfg r);
                  WithDryRun dryRun] w.

(** The tables of the truncating seeders, each once, in order. *)
Definition add_table (acc : gset string * list string) (t : string) : gset string * list string :=
  if decide (t ∈ acc.1) then acc else ({[t]} ∪ acc.1, acc.2 ++ [t]).
Definition fresh_tables (ss : list Seeder) : list string :=
  (foldl (λ acc s, match TruncateTablesOf s with
                   | Some ts => foldl add_table acc ts
                   | None => acc
                   end) (∅, []) ss).2.

Definition handleFresh (ss : list Seeder) (w : world) : option error * world :=
  match fresh_tables ss with
  | [] => (None, w)
  | tables =>
      match TruncateTables Pool tables w with
      | (Some err, w) => (Some (Errorf_w "seed: truncation failed: " err), w)
      | (None, w) => (None, w)
      end
  end.

Definition executeSingle (s : Seeder) (sc : SeedContext) (dryRun : bool)
    : prog world SeederResult := λ w,
  let result status err w :=
    (Returns {| res_Name := Name s; res_Status := status; res_Duration := since w;
                res_Error := err |}, w) in
  let seed : prog world SeederResult := λ w,
    if dryRun then result "dry-run" None w
    else (let! r := SeedFn s sc in
          match r with
          | Some err => result "error" (Some err)
          | None => result "ok" None
          end) w in
  match ShouldRun s with
  | Some shouldRun =>
      (let! ok := shouldRun sc in
       if ok : bool then seed else result "conditional-skip" None) w
  | None => seed w
  end.

Definition nil_seeder {A} : prog world A :=
  λ w, (Panics "invalid memory address or nil pointer dereference", w).

(** The loop of [runGlobal]: the results so far and the error that stopped it. *)
Fixpoint global_loop (ss : list (option Seeder)) (sc : SeedContext) (dryRun : bool)
    (results : list SeederResult) : prog world (list SeederResult * option error) :=
  match ss with
  | [] => pret (results, None)
  | None :: _ => nil_seeder
  | Some s :: rest =>
      let! result := executeSingle s sc dryRun in
      let results := results ++ [result] in
      match res_Error result with
      | Some err => λ w, let '(_, w) := Rollback w in (Returns (results, Some err), w)
      | None => global_loop rest sc dryRun results
      end
  end.

Definition runGlobal (r : Runner) (ss : list (option Seeder)) (env : string) (opts : RunOptions)
    : prog world (list SeederResult * option error) := λ w,
  match BeginTx w with
  | (Some err, w) =>
      (Returns ([], Some (Errorf_w "seed: failed to begin transaction: " err)), w)
  | (None, w) =>
      let '(refs, w) := new_store w in
      let '(sc, w) := newSeedContext r refs env (o_DryRun opts) w in
      (let! x := global_loop ss sc (o_DryRun opts) [] in
       match x with
       | (results, Some err) => pret (results, Some err)
       | (results, None) => λ w,
           if o_DryRun opts then
             match Rollback w with
             | (Some err, w) =>
                 (Returns (results, Some (Errorf_w "seed: dry-run rollback failed: " err)), w)
             | (None, w) => (Returns (results, None), w)
             end
           else
             match Commit w with
             | (Some err, w) => (Returns (results, Some (Errorf_w "seed: commit failed: " err)), w)
             | (None, w) => (Returns (results, None), w)
             end
       end) w
  end.

(** [result] is a copy of the element appended to [results], so the status set after a failed
    commit is not seen by the caller. *)
Fixpoint perSeeder_loop (r : Runner) (ss : list (option Seeder)) (refs : nat) (env : string)
    (dryRun : bool) (results : list SeederResult)
    : prog world (list SeederResult * option error) := λ w,
  match ss with
  | [] => (Returns (results, None), w)
  | o :: rest =>
      match BeginTx w with
      | (Some err, w) =>
          match o with
          | None => nil_seeder w
          | Some s =>
              (Returns (results, Some (Errorf_w ("seed: failed to begin transaction for "
                                                 +:+ Name s +:+ ": ") err)), w)
          end
      | (None, w) =>
          match o with
          | None => nil_seeder w
          | Some s =>
              let '(sc, w) := newSeedContext r refs env dryRun w in
              (let! result := executeSingle s sc dryRun in
               let results := results ++ [result] in
               match res_Error result with
               | Some _ => λ w,
                   let '(_, w) := Rollback w in
                   perSeeder_loop r rest refs env dryRun results w
               | None => λ w,
                   if dryRun then
                     match Rollback w with
                     | (Some err, w) =>
                         (Returns (results, Some (Errorf_w ("seed: dry-run rollback failed for "
                                                            +:+ Name s +:+ ": ") err)), w)
                     | (None, w) => perSeeder_loop r rest refs env dryRun results w
                     end
                   else let '(_, w) := Commit w in
                        perSeeder_loop r rest refs env dryRun results w
               end) w
          end
      end
  end.

Definition runPerSeeder (r : Runner) (ss : list (option Seeder)) (env : string)
    (opts : RunOptions) : prog world (list SeederResult * option error) := λ w,
  let '(refs, w) := new_store w in
  perSeeder_loop r ss refs env (o_DryRun opts) [] w.

(** [None] only if the sort ran out of fuel. *)
Definition Run (r : Runner) (opts : RunOptions) (w : world)
    : option (outcome (list SeederResult * option error) * world) :=
  let env := resolveEnv r opts in
  if ((env =? "production")%string && negb (o_Force opts))%bool then
    Some (Returns ([], Some (EText "seed: refusing to run in production without --force")), w)
  else
    let ss := filterSeeders (Seeders (registry r)) env opts in
    let '(fresh, w) := if o_Fresh opts then handleFresh ss w else (None, w) in
    match fresh with
    | Some err => Some (Returns ([], Some err), w)
    | None =>
        match ss with
        | [] => Some (Returns ([], None), w)
        | _ =>
            match topologicalSort ss with
            | None => None
            | Some (Err err) => Some (Returns ([], Some err), w)
            | Some (Ok sorted) =>
                Some (if (o_TxMode opts =? TxModePerSeeder)%string
                      then runPerSeeder r sorted env opts w
                      else runGlobal r sorted env opts w)
            end
        end
    end.

(** ** The filters *)

(** The seeders a run selects, as one predicate. *)
Definition selected (env : string) (opts : RunOptions) (s : Seeder) : bool :=
  ((env =? "")%string || bool_decide (Environments s = []) || mem_str env (Environments s))
  && (bool_decide (o_Groups opts = []) || existsb (λ g, mem_str g (o_Groups opts)) (Groups s))
  && (bool_decide (o_Classes opts = []) || mem_str (Name s) (o_Classes opts))
  && negb (mem_str (Name s) (o_Skip opts)).

Lemma filter_filter_bool {A} (f g : A → bool) l :
  List.filter f (List.filter g l) = List.filter (λ x, g x && f x) l.
Proof. induction l as [|x l IH]; simpl; [done|]. destruct (g x); simpl; by rewrite IH. Qed.

Lemma filter_true {A} (l : list A) : List.filter (λ _, true) l = l.
Proof. induction l; simpl; by f_equal. Qed.

Lemma filterSeeders_selected ss env opts :
  filterSeeders ss env opts = List.filter (selected env opts) ss.
Proof.
  assert (filterByEnv ss env = List.filter (λ s, (env =? "")%string
    || bool_decide (Environments s = []) || mem_str env (Environments s)) ss) as He.
  { unfold filterByEnv. destruct (env =? "")%string; simpl; [by rewrite filter_true|].
    apply List.filter_ext. intros s. by destruct (Environments s). }
  assert (∀ l, filterByGroups l (o_Groups opts) = List.filter (λ s, bool_decide (o_Groups opts = [])
    || existsb (λ g, mem_str g (o_Groups opts)) (Groups s)) l) as Hg.
  { intros l. unfold filterByGroups. destruct (o_Groups opts); simpl; [by rewrite filter_true|done]. }
  assert (∀ l, filterByClass l (o_Classes opts) = List.filter (λ s, bool_decide (o_Classes opts = [])
    || mem_str (Name s) (o_Classes opts)) l) as Hc.
  { intros l. unfold filterByClass. destruct (o_Classes opts); simpl; [by rewrite filter_true|done]. }
  assert (∀ l, filterBySkip l (o_Skip opts) = List.filter (λ s, negb (mem_str (Name s) (o_Skip opts))) l)
    as Hs.
  { intros l. unfold filterBySkip. destruct (o_Skip opts); simpl; [by rewrite filter_true|done]. }
  unfold filterSeeders. rewrite Hs, Hc, Hg, He, !filter_filter_bool.
  apply List.filter_ext. intros s. unfold selected. by rewrite !andb_assoc.
Qed.

Lemma filterSeeders_NoDup ss env opts :
  NoDup (map Name ss) → NoDup (map Name (filterSeeders ss env opts)).
Proof.
  rewrite filterSeeders_selected. intros Hnd. eapply sublist_NoDup; [exact Hnd|]. clear Hnd.
  induction ss as [|s ss IH]; simpl; [constructor|]. destruct (selected _ _ s); simpl; by constructor.
Qed.

(** ** The order *)

Definition seed_order : list Seeder → list Seeder → Prop := item_order Name DependsOn.

Lemma seed_order_nil : seed_order [] [].
Proof. split; [done|]. intros [|??] ????; discriminate. Qed.

Lemma in_degrees_get ss (deps : gmap string (list string)) n :
  (∀ n, n ∉ map Name ss → deps_of deps n = []) →
  get (in_degrees ss deps) n = Z.of_nat (length (deps_of deps n)).
Proof.
  intros Hother. unfold in_degrees.
  assert (∀ (acc : gmap string Z) l,
    get (foldl (λ acc s, <[Name s := Z.of_nat (length (default [] (deps !! Name s)))]> acc) acc l) n
    = if decide (n ∈ map Name l) then Z.of_nat (length (deps_of deps n)) else get acc n) as Hgen.
  { intros acc l. revert acc. induction l as [|s l IH]; intros acc; simpl.
    - done.
    - rewrite IH, get_insert. unfold deps_of.
      destruct (decide (n ∈ map Name l)); [by rewrite decide_True by (apply elem_of_cons; auto)|].
      destruct (decide (Name s = n)) as [->|Hne].
      + by rewrite decide_True by (apply elem_of_cons; auto).
      + by rewrite decide_False by (rewrite elem_of_cons; naive_solver). }
  rewrite Hgen. case_decide; [done|]. rewrite Hother by done.
  unfold get. by rewrite lookup_empty.
Qed.

(** The sort returns an order of the seeders in which each follows its dependencies, or an
    error when there is none. *)
Lemma topologicalSort_spec ss :
  NoDup (map Name ss) →
  match topologicalSort ss with
  | None => False
  | Some (Ok out) => ∃ order, out = map Some order ∧ seed_order ss order
  | Some (Err e) => ∀ order, ¬ seed_order ss order
  end.
Proof.
  intros Hnd. unfold topologicalSort.
  destruct ss as [|s0 ss0] eqn:Hss.
  { exists []. split; [done|]. apply seed_order_nil. }
  rewrite <- Hss in *. clear Hss. unfold buildDeps.
  destruct (build_deps _ _ _ _ _ _) as [deps|e] eqn:Hbuild.
  - unfold kahnSort. pose proof (build_deps_spec Name DependsOn unregistered
      (build_byName Name ss) ss ∅ Hnd) as Hspec. rewrite Hbuild in Hspec.
    destruct Hspec as (_ & _ & Hother).
    destruct (sort_items Name DependsOn unregistered ss deps (in_degrees ss deps) Hnd Hbuild)
      as (out & -> & Hsound & Hcomplete).
    { intros n. apply in_degrees_get. intros m Hm. rewrite Hother by done.
      unfold deps_of. by rewrite lookup_empty. }
    rewrite length_map. destruct (Nat.eqb_spec (length out) (length ss)) as [Hlen|Hlen].
    + destruct (Hsound Hlen) as (order & Hord & Hmap). by exists order.
    + intros order Hord. by apply Hlen, (Hcomplete order).
  - by apply build_deps_error in Hbuild as [_ Hnone].
Qed.

(** ** The runner *)

(** A seeder that works through the connection of its context. *)
Definition uses_context (s : Seeder) : Prop :=
  (∀ sc, sc_tx sc = true → only_through_tx (SeedFn s sc))
  ∧ ∀ f sc, ShouldRun s = Some f → sc_tx sc = true → only_through_tx (f sc).

(** The seeders executed one after the other. *)
Definition seed_all (order : list Seeder) (sc : SeedContext) (dryRun : bool) (w : world) : world :=
  foldl (λ w s, (executeSingle s sc dryRun w).2) w order.

Lemma executeSingle_pool s sc dryRun w :
  uses_context s → sc_tx sc = true → pool (executeSingle s sc dryRun w).2 = pool w.
Proof.
  intros [Hseed Hcond] Hsc. unfold executeSingle.
  assert (∀ w, pool (SeedFn s sc w).2 = pool w) as Hs by (intros; by apply Hseed).
  destruct (ShouldRun s) as [f|] eqn:Hf; unfold pbind.
  - pose proof (Hcond f sc eq_refl Hsc w) as Hp.
    destruct (f sc w) as [[[]|?|] w1]; simpl in *; try done.
    destruct dryRun; simpl; [done|]. rewrite <- Hp. pose proof (Hs w1) as Hp1.
    by destruct (SeedFn s sc w1) as [[[]|?|] w2].
  - destruct dryRun; simpl; [done|]. pose proof (Hs w) as Hp1.
    by destruct (SeedFn s sc w) as [[[]|?|] w2].
Qed.

Lemma executeSingle_name s sc dryRun w r w' :
  executeSingle s sc dryRun w = (Returns r, w') → res_Name r = Name s.
Proof.
  unfold executeSingle, pbind. destruct (ShouldRun s) as [f|].
  - destruct (f sc w) as [[[]|?|] w1]; [|naive_solver..]. destruct dryRun; [naive_solver|].
    destruct (SeedFn s sc w1) as [[[]|?|] w2]; naive_solver.
  - destruct dryRun; [naive_solver|]. destruct (SeedFn s sc w) as [[[]|?|] w2]; naive_solver.
Qed.

(** The loop leaves the committed rows alone; when it ends without an error every seeder ran,
    in the given order, and reported no error. *)
Lemma global_loop_spec l sc dryRun results w :
  Forall uses_context l → sc_tx sc = true →
  let '(out, w') := global_loop (map Some l) sc dryRun results w in
  pool w' = pool w
  ∧ ∀ all, out = Returns (all, None) →
      w' = seed_all l sc dryRun w
      ∧ ∃ new, all = results ++ new ∧ map res_Name new = map Name l
               ∧ Forall (λ r, res_Error r = None) new.
Proof.
  intros Hl Hsc. revert results w. induction Hl as [|s l Hs Hl IH]; intros results w; simpl.
  { split; [done|]. intros all [= <-]. split; [done|]. exists []. by rewrite app_nil_r. }
  pose proof (executeSingle_pool s sc dryRun w Hs Hsc) as Hp.
  unfold pbind. destruct (executeSingle s sc dryRun w) as [[r|?|] w1] eqn:Hex; simpl in *; try done.
  apply executeSingle_name in Hex. destruct (res_Error r) as [e|] eqn:He.
  - pose proof (Rollback_spec w1) as (Hp2 & _). destruct (Rollback w1) as [? w2]; simpl in *.
    split; [congruence|naive_solver].
  - specialize (IH (results ++ [r]) w1).
    destruct (global_loop _ _ _ _ w1) as [out w2]. destruct IH as [Hp2 Hret].
    split; [congruence|]. intros all (Hw & new & -> & Hnames & Hnone)%Hret. split; [done|].
    exists (r :: new). rewrite <- app_assoc. simpl. split_and!; [done|congruence|by constructor].
Qed.

Lemma newSeedContext_spec r refs env dryRun w :
  let '(sc, w') := newSeedContext r refs env dryRun w in
  sc_tx sc = true ∧ pool w' = pool w ∧ tx_writes w' = tx_writes w
  ∧ sc_env sc = env ∧ sc_refs sc = refs ∧ sc_dryRun sc = dryRun.
Proof. done. Qed.

(** The committed rows are those of all the seeders' writes, made in a transaction that began
    on [d]. *)
Definition seeded (order : list Seeder) (d d' : D) : Prop :=
  ∃ sc w0, sc_tx sc = true ∧ pool w0 = d ∧ tx_writes w0 = []
    ∧ d' = tx_view (seed_all order sc false w0).

(** What a run in one transaction leaves behind. *)
Definition global_result (ss : list Seeder) (opts : RunOptions) (d d' : D)
    (out : outcome (list SeederResult * option error)) : Prop :=
  match out with
  | Returns (results, None) =>
      ∃ order, seed_order ss order ∧ map res_Name results = map Name order
        ∧ Forall (λ r, res_Error r = None) results
        ∧ if o_DryRun opts then d' = d else seeded order d d'
  | Returns (results, Some err) =>
      d' = d ∨ o_DryRun opts = false ∧ ∃ order, seed_order ss order ∧ seeded order d d'
  | Panics _ | Hangs => d' = d
  end.

Lemma runGlobal_spec r ss order env opts w :
  Forall uses_context order → seed_order ss order →
  let '(out, w') := runGlobal r (map Some order) env opts w in
  global_result ss opts (pool w) (pool w') out.
Proof.
  intros Hctx Hord. unfold runGlobal.
  pose proof (BeginTx_spec w) as (Hp0 & _ & Ht0).
  destruct (BeginTx w) as [[err|] w0] eqn:Hb; simpl in Hp0, Ht0; [by left|].
  specialize (Ht0 eq_refl). simpl.
  match goal with |- context [pbind (global_loop _ ?sc ?dry []) _ ?w1] =>
    pose proof (global_loop_spec order sc dry [] w1 Hctx eq_refl) as Hloop end.
  unfold pbind. destruct (global_loop _ _ _ _ _) as [[[results [err | ] ] | ? | ] w2];
    destruct Hloop as [Hp2 Hret]; simpl in Hp2; rewrite Hp0 in Hp2; simpl; [by left| |done..].
  destruct (Hret results eq_refl) as (Hw2 & new & Hres & Hnames & Hnone). simpl in Hres. subst new.
  destruct (o_DryRun opts) eqn:Hdry.
  - pose proof (Rollback_spec w2) as (Hp3 & _).
    destruct (Rollback w2) as [[err|] w3]; simpl in *; [left; congruence|].
    exists order. rewrite Hdry. split_and!; [done..|congruence].
  - assert (seeded order (pool w) (tx_view w2)) as Hseeded.
    { rewrite Hw2. eexists _, _. split_and!; [| | |reflexivity]; [done|done|done]. }
    pose proof (Commit_spec w2) as (_ & _ & Hok & Hor).
    destruct (Commit w2) as [[err|] w3]; simpl in *.
    + destruct Hor as [Hor|Hor]; rewrite Hor; [by left|]. right. eauto.
    + exists order. rewrite Hdry, Hok by done. eauto.
Qed.

Lemma selected_uses_context r env opts order :
  Forall uses_context (seeders r) → seed_order (filterSeeders (seeders r) env opts) order →
  Forall uses_context order.
Proof.
  intros Hall [Hperm _]. rewrite Hperm, filterSeeders_selected. apply Forall_forall.
  intros s Hs. rewrite Forall_forall in Hall. apply Hall.
  apply list_elem_of_In, List.filter_In in Hs as [Hs _]. by apply list_elem_of_In.
Qed.

Lemma seeded_nil (w : world) : seeded [] (pool w) (pool w).
Proof.
  exists {| sc_tx := true; sc_logger := true; sc_refs := 0; sc_env := ""; sc_cfg := None;
            sc_dryRun := false |}, (set_tx [] w). done.
Qed.

(** The body of [Run] after the truncation. *)
Lemma Run_body_spec r env opts w :
  registry_ok (registry r) → Forall uses_context (seeders (registry r)) →
  (o_TxMode opts =? TxModePerSeeder)%string = false →
  let ss := filterSeeders (seeders (registry r)) env opts in
  ∃ out w',
    match ss with
    | [] => Some (Returns ([], None), w)
    | _ =>
        match topologicalSort ss with
        | None => None
        | Some (Err err) => Some (Returns ([], Some err), w)
        | Some (Ok sorted) =>
            Some (if (o_TxMode opts =? TxModePerSeeder)%string
                  then runPerSeeder r sorted env opts w
                  else runGlobal r sorted env opts w)
        end
    end = Some (out, w')
    ∧ (ss ≠ [] → global_result ss opts (pool w) (pool w') out)
    ∧ (ss = [] → out = Returns ([], None) ∧ w' = w).
Proof.
  intros [Hnd _] Hctx Hmode ss. rewrite Hmode.
  assert (Hss' : ss = filterSeeders (seeders (registry r)) env opts) by done. clearbody ss.
  pose proof (topologicalSort_spec ss ltac:(rewrite Hss'; by apply filterSeeders_NoDup)) as Hsort.
  destruct ss as [|s0 ss0] eqn:Hss; [by eexists _, _|]. rewrite <- Hss in *.
  destruct (topologicalSort ss) as [[sorted|err]|]; [| |done].
  - destruct Hsort as (order & -> & Hord).
    pose proof (runGlobal_spec r ss order env opts w
      ltac:(rewrite Hss' in Hord; by eapply selected_uses_context) Hord) as Hrun.
    destruct (runGlobal _ _ _ _ w) as [out w']. exists out, w'. split_and!; [done|done|congruence].
  - eexists _, _. split_and!; [done|by left|congruence].
Qed.


(** ** Truncation *)

Lemma global_result_dry ss opts d d' out :
  o_DryRun opts = true → global_result ss opts d d' out → d' = d.
Proof.
  intros Hdry. unfold global_result. rewrite Hdry. destruct out as [[rs [e|]]|?|]; naive_solver.
Qed.

Lemma find_valid tables :
  Forall (λ t, validTableName t = true) tables →
  List.find (λ t, negb (validTableName t)) tables = None.
Proof. induction 1 as [|t l Ht _ IH]; simpl; [done|]. by rewrite Ht. Qed.

(** A dry run with the fresh option really truncates: when the truncation succeeds the
    committed rows after the run are the truncated ones, although every seeder is only
    previewed. *)
Theorem dry_run_fresh_truncates (r : Runner) (opts : RunOptions) (w : world) (d' : D) :
  let tables := fresh_tables (filterSeeders (seeders (registry r)) (resolveEnv r opts) opts) in
  registry_ok (registry r) → Forall uses_context (seeders (registry r)) →
  (o_TxMode opts =? TxModePerSeeder)%string = false → resolveEnv r opts ≠ "production" →
  o_Fresh opts = true → o_DryRun opts = true →
  tables ≠ [] → Forall (λ t, validTableName t = true) tables →
  c_fault (here w) = NoFault →
  exec_sql (truncate_query tables) (here w) (pool w) = Ok ((), d') →
  ∃ out w', Run r opts w = Some (out, w') ∧ pool w' = d'.
Proof.
  intros tables Hreg Hctx Hmode Henv Hfresh Hdry Hne Hvalid Hfault Hsql. unfold Run.
  rewrite (proj2 (String.eqb_neq _ _) Henv), Hfresh. cbn [andb].
  unfold Seeders, handleFresh. fold tables.
  clearbody tables. destruct tables as [|t ts]; [done|]. set (tables := t :: ts) in *.
  assert (∃ w1, TruncateTables Pool tables w = (None, w1) ∧ pool w1 = d') as (w1 & Htr & Hp1).
  { unfold TruncateTables. rewrite find_valid by done. unfold Exec. rewrite Hfault.
    unfold effect. simpl view. rewrite Hsql. eexists. split; [done|]. simpl. by rewrite Hsql. }
  rewrite Htr.
  destruct (Run_body_spec r (resolveEnv r opts) opts w1 Hreg Hctx Hmode)
    as (out & w' & Hout & Hres & Hnil).
  exists out, w'. split; [done|]. destruct (filterSeeders _ _ _) as [|s ss] eqn:Hss.
  - by destruct Hnil as [_ ->].
  - eapply global_result_dry in Hres; [congruence|done..].
Qed.

(** ** One transaction per seeder *)

(** What a run with a transaction per seeder leaves behind, seeder by seeder: a seeder that
    fails, or is only previewed, leaves no write and does not stop the next one; one that
    reports no error committed its writes, unless the commit failed. *)
Inductive isolated (dryRun : bool) : list Seeder → list SeederResult → D → D → Prop :=
| IsolatedNil d : isolated dryRun [] [] d d
| IsolatedDropped s r ss rs d d' :
    res_Name r = Name s → res_Error r ≠ None ∨ dryRun = true →
    isolated dryRun ss rs d d' → isolated dryRun (s :: ss) (r :: rs) d d'
| IsolatedKept s r ss rs d d1 d' :
    res_Name r = Name s → res_Error r = None → dryRun = false → d1 = d ∨ seeded [s] d d1 →
    isolated dryRun ss rs d1 d' → isolated dryRun (s :: ss) (r :: rs) d d'.

Lemma perSeeder_loop_spec r l refs env dryRun results w :
  Forall uses_context l →
  ∀ all err w', perSeeder_loop r (map Some l) refs env dryRun results w = (Returns (all, err), w') →
  ∃ ran rest new, l = ran ++ rest ∧ all = results ++ new ∧ (err = None → rest = [])
    ∧ isolated dryRun ran new (pool w) (pool w').
Proof.
  intros Hl. revert results w. induction Hl as [|s l Hs Hl IH]; intros results w all err w'; simpl.
  { intros [= <- <- <-]. exists [], [], [].
    split_and!; [done|by rewrite app_nil_r|done|constructor]. }
  pose proof (BeginTx_spec w) as (Hp0 & _ & Ht0).
  destruct (BeginTx w) as [[e|] w0]; simpl in Hp0, Ht0.
  { intros [= <- <- <-]. exists [], (s :: l), []. rewrite Hp0.
    split_and!; [done|by rewrite app_nil_r|done|constructor]. }
  specialize (Ht0 eq_refl). simpl. unfold pbind.
  match goal with |- context [executeSingle s ?sc dryRun ?w1] =>
    pose proof (executeSingle_pool s sc dryRun w1 Hs eq_refl) as Hp1; set (sc0 := sc) in *;
    set (w1' := w1) in * end.
  destruct (executeSingle s sc0 dryRun w1') as [[x|?|] w2] eqn:Hex; simpl in Hp1; try discriminate.
  pose proof (executeSingle_name _ _ _ _ _ _ Hex) as Hname.
  assert (∀ results w3, pool w3 = pool w → res_Error x ≠ None ∨ dryRun = true →
    perSeeder_loop r (map Some l) refs env dryRun (results ++ [x]) w3 = (Returns (all, err), w') →
    ∃ ran rest new, s :: l = ran ++ rest ∧ all = results ++ new ∧ (err = None → rest = [])
      ∧ isolated dryRun ran new (pool w) (pool w')) as Hdrop.
  { intros res w3 Hp3 Hd (ran & rest & new & -> & -> & Hrest & Hiso)%IH.
    exists (s :: ran), rest, (x :: new). rewrite <- app_assoc. rewrite Hp3 in Hiso.
    split_and!; [done..|by constructor]. }
  destruct (res_Error x) as [e|] eqn:He; [|destruct dryRun].
  - pose proof (Rollback_spec w2) as (Hp3 & _). destruct (Rollback w2) as [? w3]; simpl in Hp3.
    apply Hdrop; [congruence|by left].
  - pose proof (Rollback_spec w2) as (Hp3 & _). destruct (Rollback w2) as [[e|] w3]; simpl in Hp3.
    + intros [= <- <- <-]. exists [s], l, [x]. split_and!; [done..|].
      replace (pool w3) with (pool w) by congruence.
      apply IsolatedDropped; [done|by right|constructor].
    + apply Hdrop; [congruence|by right].
  - pose proof (Commit_spec w2) as (_ & _ & _ & Hor). destruct (Commit w2) as [? w3]; simpl in Hor.
    intros (ran & rest & new & -> & -> & Hrest & Hiso)%IH.
    exists (s :: ran), rest, (x :: new). rewrite <- app_assoc.
    split_and!; [done..|]. eapply IsolatedKept; [done..| |done].
    destruct Hor as [Hor|Hor]; rewrite Hor; [left; congruence|]. right.
    exists sc0, w1'. split_and!; [done|done|done|]. unfold seed_all. simpl. by rewrite Hex.
Qed.

(** A run with a transaction per seeder that reports no error of its own executed every
    selected seeder, each after its dependencies, with one result per seeder; a failed or
    previewed seeder leaves no write behind and does not affect the others, and a seeder whose
    result has no error committed its writes unless its commit failed. *)
Theorem Run_perSeeder_isolated (r : Runner) (opts : RunOptions) (w w' : world)
    (results : list SeederResult) :
  registry_ok (registry r) → Forall uses_context (seeders (registry r)) →
  (o_TxMode opts =? TxModePerSeeder)%string = true → o_Fresh opts = false →
  Run r opts w = Some (Returns (results, None), w') →
  ∃ order,
    seed_order (List.filter (selected (resolveEnv r opts) opts) (seeders (registry r))) order
    ∧ isolated (o_DryRun opts) order results (pool w) (pool w').
Proof.
  intros [Hnd _] Hctx Hmode Hfresh. unfold Run. rewrite Hfresh, <- filterSeeders_selected, Hmode.
  destruct (_ && _)%bool; [done|]. unfold Seeders.
  pose proof (selected_uses_context (registry r) (resolveEnv r opts) opts) as Hsel.
  pose proof (topologicalSort_spec _ (filterSeeders_NoDup _ (resolveEnv r opts) opts Hnd)) as Hsort.
  destruct (filterSeeders _ _ _) as [|s0 ss0]; [intros [= <- <-]|].
  { exists []. split; [apply seed_order_nil | constructor]. }
  destruct (topologicalSort _) as [[sorted|err]|]; [|done|done].
  destruct Hsort as (order & -> & Hord). specialize (Hsel order Hctx Hord).
  unfold runPerSeeder. simpl. intros [= Hrun].
  destruct (perSeeder_loop_spec _ _ _ _ _ _ _ Hsel _ _ _ Hrun)
    as (ran & rest & new & -> & Hall & Hnil & Hiso). simpl in Hall. subst new.
  rewrite Hnil, app_nil_r in Hord by done. by exists ran.
Qed.

(** A commit that fails is not reported: the run returns no error and the seeder's result
    says "ok", while nothing was committed. *)
Theorem failed_commit_reported_ok (r : Runner) (s : Seeder) (env : string) (opts : RunOptions)
    (w w1 w2 : world) (e : error) :
  let '(refs, w0) := new_store w in
  let '(sc, w1') := newSeedContext r refs env false w1 in
  uses_context s → ShouldRun s = None → o_DryRun opts = false →
  BeginTx w0 = (None, w1) → SeedFn s sc w1' = (Returns None, w2) →
  c_fault (here w2) = FailBefore e →
  ∃ w', runPerSeeder r [Some s] env opts w
        = (Returns ([{| res_Name := Name s; res_Status := "ok"; res_Duration := since w2;
                        res_Error := None |}], None), w')
      ∧ pool w' = pool w.
Proof.
  destruct (new_store w) as [refs w0] eqn:Hst.
  destruct (newSeedContext r refs env false w1) as [sc w1'] eqn:Hsc.
  intros [Hseed _] Hnone Hdry Hb Hrun Hfault.
  unfold runPerSeeder. rewrite Hst, Hdry. cbn [perSeeder_loop map]. rewrite Hb, Hsc.
  unfold pbind at 1, executeSingle. rewrite Hnone. unfold pbind. rewrite Hrun. simpl.
  unfold Commit. rewrite Hfault. eexists. split; [done|]. simpl.
  pose proof (newSeedContext_spec r refs env false w1) as Hspec. rewrite Hsc in Hspec.
  destruct Hspec as (Htx & Hp1 & _). pose proof (Hseed sc Htx w1') as Hp2. rewrite Hrun in Hp2.
  apply BeginTx_ok in Hb as (Hp0 & _). simpl in Hp2.
  rewrite Hp2, Hp1, Hp0. unfold new_store in Hst. by simplify_eq/=.
Qed.

(** ** Table names *)

Definition all_chars (P : ascii → bool) (s : string) : Prop :=
  Forall (λ c, P c = true) (String.list_ascii_of_string s).

Lemma all_chars_app P s1 s2 : all_chars P (s1 +:+ s2) ↔ all_chars P s1 ∧ all_chars P s2.
Proof.
  unfold all_chars. induction s1 as [|c s1 IH]; simpl; [rewrite Forall_nil; tauto|].
  change (String.list_ascii_of_string (String.append s1 s2)) with (String.list_ascii_of_string (s1 +:+ s2)).
  rewrite !Forall_cons, IH. tauto.
Qed.

(** An identifier of the regular expression: a letter or underscore, then word characters. *)
Definition is_ident (s : string) : Prop :=
  ∃ c s', s = String c s' ∧ is_letter c = true ∧ all_chars is_word s'.

Lemma word_rest_split s :
  ∃ p, s = p +:+ word_rest s ∧ all_chars is_word p
       ∧ match word_rest s with String c _ => is_word c = false | EmptyString => True end.
Proof.
  induction s as [|c s (p & Hs & Hp & Hrest)]; simpl.
  { exists EmptyString. split_and!; [done|constructor|done]. }
  destruct (is_word c) eqn:Hc; [|exists EmptyString; split_and!; [done|constructor|done]].
  exists (String c p). split_and!; [|by constructor|done].
  change (String c p +:+ word_rest s) with (String c (p +:+ word_rest s)). by rewrite <- Hs.
Qed.

Lemma word_rest_app p rest :
  all_chars is_word p → match rest with String c _ => is_word c = false | EmptyString => True end →
  word_rest (p +:+ rest) = rest.
Proof.
  intros Hp Hrest. induction p as [|c p IH].
  { destruct rest as [|c rest]; simpl in *; [done|]. by rewrite Hrest. }
  unfold all_chars in Hp. simpl in Hp. apply Forall_cons in Hp as [Hc Hp].
  simpl. rewrite Hc. by apply IH.
Qed.

Lemma append_empty (s : string) : s +:+ EmptyString = s.
Proof.
  induction s as [|c s IH]; [done|].
  change (String c (s +:+ EmptyString) = String c s). by rewrite IH.
Qed.

Lemma ident_iff s rest :
  match rest with String c _ => is_word c = false | EmptyString => True end →
  ident s = Some rest ↔ ∃ p, s = p +:+ rest ∧ is_ident p.
Proof.
  intros Hrest. split.
  - destruct s as [|c s]; simpl; [done|]. destruct (is_letter c) eqn:Hc; [|done]. intros [= Hr].
    destruct (word_rest_split s) as (p & Hs & Hp & _). rewrite Hr in Hs. exists (String c p).
    split; [by rewrite Hs at 1 | by exists c, p].
  - intros (p & -> & c & p' & -> & Hc & Hp). simpl. rewrite Hc. f_equal. by apply word_rest_app.
Qed.

Lemma ident_rest s rest :
  ident s = Some rest → match rest with String c _ => is_word c = false | EmptyString => True end.
Proof.
  destruct s as [|c s]; simpl; [done|]. destruct (is_letter c); [|done]. intros [= <-].
  by destruct (word_rest_split s) as (? & _ & _ & ?).
Qed.

Lemma validTableName_iff s :
  validTableName s = true
  ↔ is_ident s ∨ ∃ a b, s = a +:+ "." +:+ b ∧ is_ident a ∧ is_ident b.
Proof.
  assert (∀ s, ident s = Some EmptyString ↔ is_ident s) as Hend.
  { intros s'. rewrite ident_iff by done. split; [|intros; exists s'; by rewrite append_empty].
    intros (p & -> & Hp). by rewrite append_empty. }
  assert (∀ s b, ident s = Some (String "." b) ↔ ∃ a, s = a +:+ "." +:+ b ∧ is_ident a) as Hdot.
  { intros s' b. by rewrite ident_iff. }
  unfold validTableName. split.
  - intros Hv. destruct (ident s) as [[|c b]|] eqn:Hi; [left; by apply Hend| |done].
    destruct (decide (c = "."%char)) as [->|Hc].
    + right. apply Hdot in Hi as (a & -> & Ha). destruct (ident b) as [[|]|] eqn:Hb; try done.
      exists a, b. split_and!; [done|done|by apply Hend].
    + exfalso. by destruct c as [[] [] [] [] [] [] [] []].
  - intros [Hs|(a & b & -> & Ha & Hb)].
    + by rewrite (proj2 (Hend s) Hs).
    + rewrite (proj2 (Hdot (a +:+ "." +:+ b) b)) by eauto. by rewrite (proj2 (Hend b) Hb).
Qed.

(** A table name, with or without its schema. *)
Definition table_name (s : string) : Prop :=
  is_ident s ∨ ∃ a b, s = a +:+ "." +:+ b ∧ is_ident a ∧ is_ident b.

Definition query_char (c : ascii) : bool :=
  is_word c || existsb (Ascii.eqb c) [" "; ","; "."]%char.

Lemma all_chars_impl (P Q : ascii → bool) s :
  (∀ c, P c = true → Q c = true) → all_chars P s → all_chars Q s.
Proof. intros HPQ Hs. eapply Forall_impl; [exact Hs|]. intros c. apply HPQ. Qed.

Lemma is_ident_chars s : is_ident s → all_chars query_char s.
Proof.
  assert (∀ c, is_word c = true → query_char c = true) as Hw
    by (intros c Hc; unfold query_char; by rewrite Hc).
  intros (c & s' & -> & Hc & Hs'). constructor.
  - apply Hw. unfold is_word. by rewrite Hc.
  - by eapply all_chars_impl in Hs'.
Qed.

Lemma table_name_chars s : table_name s → all_chars query_char s.
Proof.
  intros [Hs|(a & b & -> & Ha & Hb)]; [by apply is_ident_chars|].
  rewrite !all_chars_app. split_and!; [by apply is_ident_chars | | by apply is_ident_chars].
  by repeat constructor.
Qed.

Lemma join_comma_chars l : Forall table_name l → all_chars query_char (join_comma l).
Proof.
  induction 1 as [|t l Ht Hl IH]; [constructor|]. simpl.
  destruct l as [|t' l]; [by apply table_name_chars|].
  rewrite !all_chars_app. split_and!; [by apply table_name_chars | by repeat constructor | done].
Qed.

(** [TruncateTables] sends a query only when every name is an identifier, optionally
    qualified by a schema, and then the query's text has only letters, digits, underscores,
    dots, commas and spaces: no quote, semicolon or comment can reach the server.  Otherwise it
    returns an error naming an offending table and makes no call. *)
Theorem TruncateTables_safe (c : conn) (tables : list string) (w : world) :
  (∃ t, t ∈ tables ∧ ¬ table_name t
        ∧ TruncateTables c tables w = (Some (invalid_table t), w))
  ∨ (Forall table_name tables ∧ all_chars query_char (truncate_query tables)
     ∧ TruncateTables c tables w
       = if bool_decide (tables = []) then (None, w)
         else let '(r, w') := Exec c (exec_sql (truncate_query tables)) w in
              (match r with Ok _ => None | Err err => Some err end, w')).
Proof.
  unfold TruncateTables.
  destruct (List.find (λ t, negb (validTableName t)) tables) as [t|] eqn:Hf.
  - left. exists t. apply List.find_some in Hf as [Hin%list_elem_of_In Hv%negb_true_iff].
    split_and!; [done| |by destruct tables; [apply elem_of_nil in Hin|]].
    intros Ht%validTableName_iff. congruence.
  - right. assert (Forall table_name tables) as Hall.
    { apply Forall_forall. intros t Ht%list_elem_of_In. apply validTableName_iff.
      pose proof (List.find_none _ _ Hf t Ht) as Hn. simpl in Hn. by destruct (validTableName t). }
    split_and!; [done| |].
    + unfold truncate_query. rewrite !all_chars_app.
      split_and!; [by repeat constructor | by apply join_comma_chars | by repeat constructor].
    + destruct tables; [done|]. simpl bool_decide. by destruct (Exec _ _ w) as [[] ?].
Qed.
End Seed.

(** ** Witnesses

    Rows are strings; a seeder inserts a row through its context's connection. *)

Module SeedExample.
Definition insert_row (x : string) : statement (list string) unit := λ _ d, Ok ((), d ++ [x]).
Definition exec_sql (q : string) : statement (list string) unit := λ _ _, Ok ((), []).

Definition example_seed (x : string) (sc : SeedContext (Cfg:=string))
    : prog (world (list string) (memory (H:=unit) (V:=unit))) (option error) := λ w,
  match Exec (DBTX sc) (insert_row x) w with
  | (Ok _, w) => (Returns None, w)
  | (Err e, w) => (Returns (Some e), w)
  end.
Definition example_seeder (name : string) (deps : list string)
    : Seeder (D:=list string) (H:=unit) (V:=unit) (Cfg:=string) :=
  {| Name := name; Groups := []; Environments := []; DependsOn := deps;
     SeedFn := example_seed name; ShouldRun := None; TruncateTablesOf := Some ["users"] |}.

Lemma example_seeder_uses_context name deps : uses_context (example_seeder name deps).
Proof.
  split; [|done]. intros sc Hsc w. simpl. unfold example_seed, DBTX. rewrite Hsc.
  pose proof (Exec_Tx_pool (insert_row name) w) as Hp.
  by destruct (Exec Tx (insert_row name) w) as [[]?].
Qed.

Definition example_registry : Registry :=
  (Register (example_seeder "roles" []) (Register (example_seeder "users" ["roles"]) NewRegistry).2).2.
Lemma example_registry_ok : registry_ok example_registry.
Proof. apply Register_seeders_ok, Register_seeders_ok, seeders_ok_new. Qed.
Lemma example_registry_context : Forall uses_context (seeders example_registry).
Proof. repeat (constructor; [apply example_seeder_uses_context|]). constructor. Qed.

Definition example_runner : Runner := NewRunner "development" example_registry.
Definition example_options (mode : string) (dryRun fresh : bool) : RunOptions :=
  {| o_Groups := []; o_Classes := []; o_Skip := []; o_Env := ""; o_TxMode := mode;
     o_DryRun := dryRun; o_Fresh := fresh; o_Force := false |}.
Definition calm_call : call := {| c_now := 0; c_locked := λ _, false; c_fault := NoFault |}.
Definition example_world (calls : nat → call)
    : world (list string) (memory (H:=unit) (V:=unit)) :=
  {| pool := ["old"]; tx_writes := []; mem := {| stores := []; other := () |}; calls := calls;
     pos := 0 |}.
Notation example_run mode dryRun fresh :=
  (Run exec_sql id (λ _, 0%Z) example_runner (example_options mode dryRun fresh)
     (example_world (λ _, calm_call))).
End SeedExample.
Import SeedExample.


Lemma dry_run_fresh_truncates_witness :
  (∃ out w', example_run "global" true true = Some (out, w') ∧ pool w' = []).
Proof.
  apply (dry_run_fresh_truncates exec_sql id (λ _, 0%Z) example_runner
    (example_options "global" true true) (example_world (λ _, calm_call)) []
    example_registry_ok example_registry_context); try done.
  by repeat constructor.
Defined.

Lemma Run_perSeeder_isolated_witness :
  ∃ results w', example_run "per-seeder" false false = Some (Returns (results, None), w')
    ∧ pool w' = ["old"; "roles"; "users"]
    ∧ ∃ order, seed_order (List.filter (selected "development"
          (example_options "per-seeder" false false)) (seeders example_registry)) order
        ∧ isolated (λ _, 0%Z) false order results ["old"] (pool w').
Proof.
  assert (∃ results w', example_run "per-seeder" false false = Some (Returns (results, None), w')
    ∧ pool w' = ["old"; "roles"; "users"]) as (results & w' & Hrun & Hp).
  { eexists _, _. split; vm_compute; reflexivity. }
  exists results, w'. split; [exact Hrun|]. split; [exact Hp|].
  apply (Run_perSeeder_isolated exec_sql id (λ _, 0%Z) example_runner
    (example_options "per-seeder" false false) (example_world (λ _, calm_call)) _ _
    example_registry_ok example_registry_context eq_refl eq_refl Hrun).
Defined.

(** The third call, the commit, loses its connection. *)
Definition lost_connection : error := EText "connection lost".
Definition lost_commit (n : nat) : call :=
  if n =? 2 then {| c_now := 0; c_locked := λ _, false; c_fault := FailBefore lost_connection |}
  else calm_call.

Lemma failed_commit_reported_ok_witness :
  ∃ w', runPerSeeder (λ _, 0%Z) example_runner [Some (example_seeder "roles" [])] "development"
          (example_options "per-seeder" false false) (example_world lost_commit)
        = (Returns ([{| res_Name := "roles"; res_Status := "ok"; res_Duration := 0;
                        res_Error := None |}], None), w')
      ∧ pool w' = ["old"].
Proof.
  eapply (failed_commit_reported_ok (λ _, 0%Z) example_runner (example_seeder "roles" [])
    "development" (example_options "per-seeder" false false) (example_world lost_commit) _ _
    lost_connection); [apply example_seeder_uses_context|reflexivity..].
Defined.
