(* ===== verification/SeedReport.v ===== *)
(** * The report of a seeding run and its flags

    [SeedReport.v] models the rest of infra/seed: the summary the runner logs (runner.go), the
    parsing of the lists given on the command line (ParseCSV) and the marks of a seeding context
    (seeder.go). *)

From Stdlib Require Import Ascii.
From S2P Require Import Prelude Errors GoText Event Db TopoSort Seed.
Import Kahn Items.

(** ** seeder.go: the marks of a context *)

(** The values of a context under the two unexported keys. *)
Inductive seed_key := seedingKey | eventsDisabledKey.
#[export] Instance seed_key_eq_dec : EqDecision seed_key.
Proof. solve_decision. Defined.
Definition marks := list (seed_key * bool).

Definition Value (k : seed_key) (ctx : marks) : bool :=
  default false (snd <$> list_find (λ kv, kv.1 = k) ctx ≫= λ r, Some r.2).
Definition WithSeeding (ctx : marks) : marks := (seedingKey, true) :: ctx.
Definition IsSeeding (ctx : marks) : bool := Value seedingKey ctx.
Definition WithEventsDisabled (ctx : marks) : marks := (eventsDisabledKey, true) :: ctx.
Definition EventsDisabled (ctx : marks) : bool := Value eventsDisabledKey ctx.

(** ** runner.go: the summary *)

Inductive log_level := LInfo | LWarn.
Inductive field := FString (k v : string) | FDuration (k : string) (d : Z) | FError (e : error) | FInt (k : string) (n : nat).
Record log_line := { l_level : log_level; l_msg : string; l_fields : list field }.

Definition result_line (res : SeederResult) : log_line :=
  {| l_level := LInfo; l_msg := "seed: result";
     l_fields := [FString "seeder" (res_Name res); FString "status" (res_Status res);
                  FDuration "duration" (res_Duration res)]
                 ++ match res_Error res with Some e => [FError e] | None => [] end |}.

(** The counters of the [switch]; a status it does not name is counted nowhere. *)
Record counters := { n_ok : nat; n_skipped : nat; n_errored : nat }.
Definition count_status (c : counters) (res : SeederResult) : counters :=
  if (res_Status res =? "ok")%string then {| n_ok := S (n_ok c); n_skipped := n_skipped c; n_errored := n_errored c |}
  else if ((res_Status res =? "conditional-skip") || (res_Status res =? "dry-run"))%string
  then {| n_ok := n_ok c; n_skipped := S (n_skipped c); n_errored := n_errored c |}
  else if (res_Status res =? "error")%string
  then {| n_ok := n_ok c; n_skipped := n_skipped c; n_errored := S (n_errored c) |}
  else c.

Definition printSummary (results : list SeederResult) : list log_line :=
  let c := foldl count_status {| n_ok := 0; n_skipped := 0; n_errored := 0 |} results in
  let totals := [FInt "ok" (n_ok c); FInt "skipped" (n_skipped c); FInt "errors" (n_errored c);
                 FInt "total" (length results)] in
  [{| l_level := LInfo; l_msg := "seed: --- summary ---"; l_fields := [] |}]
  ++ map result_line results
  ++ [if decide (0 < n_errored c) then {| l_level := LWarn; l_msg := "seed: completed with errors"; l_fields := totals |}
      else {| l_level := LInfo; l_msg := "seed: totals"; l_fields := totals |}].

(** ** ParseCSV *)

(** [strings.Split(s, ",")] on the bytes of [s]. *)
Fixpoint split_comma (cur : list ascii) (l : list ascii) : list (list ascii) :=
  match l with
  | [] => [cur]
  | c :: l => if (c =? ",")%char then cur :: split_comma [] l else split_comma (cur ++ [c]) l
  end.
Definition Split (s : string) : list string :=
  map String.string_of_list_ascii (split_comma [] (String.list_ascii_of_string s)).

(** [None] is the nil slice. *)
Definition ParseCSV (s : string) : option (list string) :=
  if (s =? "")%string then None
  else
    let out := filter (λ t, t ≠ EmptyString) (map TrimSpace (Split s)) in
    match out with [] => None | _ => Some out end.

(** ** Properties *)

(** The statuses [executeSingle] gives. *)
Definition known_status (res : SeederResult) : Prop :=
  res_Status res ∈ ["ok"; "conditional-skip"; "dry-run"; "error"]
  ∧ (res_Status res = "error" ↔ res_Error res ≠ None).

Lemma count_status_total results c :
  Forall known_status results →
  let c' := foldl count_status c results in
  n_ok c' + n_skipped c' + n_errored c' = n_ok c + n_skipped c + n_errored c + length results
  ∧ n_errored c' = n_errored c + length (filter (λ res, res_Error res ≠ None) results).
Proof.
  intros Hall. revert c. induction Hall as [|res results [Hk He] _ IH]; intros c; cbn [foldl]; [cbn; lia|].
  destruct (IH (count_status c res)) as [H1 H2]. rewrite H1, H2, filter_cons. cbn [length].
  assert (Hc : let c' := count_status c res in
    n_ok c' + n_skipped c' + n_errored c' = S (n_ok c + n_skipped c + n_errored c)
    ∧ n_errored c' = n_errored c + if decide (res_Error res ≠ None) then 1 else 0).
  { unfold count_status. rewrite !elem_of_cons, elem_of_nil in Hk.
    destruct Hk as [Hs|[Hs|[Hs|[Hs|[]]]]]; rewrite Hs in He |- *; cbn;
      [rewrite decide_False by (intros Hn; by apply He in Hn) ..|rewrite decide_True by (by apply He)]; lia. }
  destruct Hc as [Hc1 Hc2]. destruct (decide (res_Error res ≠ None)); cbn [length]; lia.
Qed.

(** the totals of the summary add up: every result is counted once, the errors are exactly the
    results that carry one, and the last line is a warning exactly when there is one. *)
Theorem summary_adds_up (results : list SeederResult) :
  Forall known_status results →
  ∃ ok skipped lines,
    printSummary results
    = {| l_level := LInfo; l_msg := "seed: --- summary ---"; l_fields := [] |} :: lines
      ++ [{| l_level := if decide (Exists (λ res, res_Error res ≠ None) results) then LWarn else LInfo;
             l_msg := if decide (Exists (λ res, res_Error res ≠ None) results)
                      then "seed: completed with errors" else "seed: totals";
             l_fields := [FInt "ok" ok; FInt "skipped" skipped;
                          FInt "errors" (length (filter (λ res, res_Error res ≠ None) results));
                          FInt "total" (length results)] |}]
    ∧ lines = map result_line results
    ∧ ok + skipped + length (filter (λ res, res_Error res ≠ None) results) = length results.
Proof.
  intros Hall. destruct (count_status_total results {| n_ok := 0; n_skipped := 0; n_errored := 0 |} Hall) as [H1 H2].
  unfold printSummary. set (c := foldl _ _ _) in *. cbn [n_ok n_skipped n_errored] in H1, H2.
  exists (n_ok c), (n_skipped c), (map result_line results). split_and!; [|done|lia].
  cbn [app]. do 3 f_equal. rewrite H2. cbn.
  assert (Hiff : 0 < length (filter (λ res, res_Error res ≠ None) results) ↔ Exists (λ res, res_Error res ≠ None) results).
  { rewrite Exists_exists. split.
    - intros Hl. destruct (filter _ results) as [|res l] eqn:Hf; [cbn in Hl; lia|].
      assert (res ∈ filter (λ res, res_Error res ≠ None) results) as [? ?]%list_elem_of_filter by (rewrite Hf; left).
      by exists res.
    - intros (res & Hin & Hne). destruct (filter _ results) as [|x l] eqn:Hf; [|cbn; lia].
      assert (res ∈ filter (λ res, res_Error res ≠ None) results) as Hr by (by apply list_elem_of_filter).
      rewrite Hf in Hr. by apply elem_of_nil in Hr. }
  destruct (decide (0 < _)), (decide (Exists _ _)); try done; exfalso; tauto.
Qed.

(** ** The results of a run *)
Section Results.
Local Open Scope go_scope.
Context {D H V Cfg : Type} (exec_sql : string → statement D unit) (App_Env : Cfg → string).
Notation world := (world D (memory (H := H) (V := V))).
Context (since : world → Z).
Context `{!MapRange}.
Implicit Types (s : Seeder (D := D) (H := H) (V := V) (Cfg := Cfg)).

Lemma executeSingle_status s sc dryRun w res w' :
  executeSingle since s sc dryRun w = (Returns res, w') → known_status res.
Proof.
  assert (Hseed : ∀ w res w',
    (if dryRun then (Returns {| res_Name := Name s; res_Status := "dry-run"; res_Duration := since w; res_Error := None |}, w)
     else (let! r := SeedFn s sc in
           match r with
           | Some err => λ w, (Returns {| res_Name := Name s; res_Status := "error"; res_Duration := since w;
                                          res_Error := Some err |}, w)
           | None => λ w, (Returns {| res_Name := Name s; res_Status := "ok"; res_Duration := since w;
                                      res_Error := None |}, w)
           end) w) = (Returns res, w') → known_status res).
  { intros w0 res0 w0'. destruct dryRun; [intros [= <- <-]; by split; [list_in|]|].
    intros (r & w1 & _ & Hr)%pbind_returns. destruct r as [err|]; injection Hr as <- <-; by split; [list_in|]. }
  unfold executeSingle. destruct (ShouldRun s) as [shouldRun|]; [|apply Hseed].
  intros (ok & w1 & _ & Hr)%pbind_returns. destruct ok; [by eapply Hseed|]. injection Hr as <- <-. by split; [list_in|].
Qed.

Lemma global_loop_status ss sc dryRun results w rs err w' :
  Forall known_status results →
  global_loop (Cfg := Cfg) since ss sc dryRun results w = (Returns (rs, err), w') → Forall known_status rs.
Proof.
  revert results w. induction ss as [|[s|] ss IH]; intros results w Hall; cbn [global_loop]; [by intros [= <- <- <-]| |done].
  intros (res & w1 & Hres & Hr)%pbind_returns. apply executeSingle_status in Hres.
  assert (Hall' : Forall known_status (results ++ [res])) by (apply Forall_app; split; [done|by apply Forall_singleton]).
  destruct (res_Error res); [destruct (Rollback w1) as [? w2]; by simplify_eq|by eapply IH].
Qed.

Lemma perSeeder_loop_status r ss refs env dryRun results w rs err w' :
  Forall known_status results →
  perSeeder_loop (Cfg := Cfg) since r ss refs env dryRun results w = (Returns (rs, err), w') → Forall known_status rs.
Proof.
  revert results w. induction ss as [|[s|] ss IH]; intros results w Hall; cbn [perSeeder_loop].
  - by intros [= <- <- <-].
  - destruct (BeginTx w) as [[e|] w1]; [by intros [= <- <- <-]|].
    destruct (newSeedContext r refs env dryRun w1) as [sc w2].
    intros (res & w3 & Hres & Hr)%pbind_returns. apply executeSingle_status in Hres.
    assert (Hall' : Forall known_status (results ++ [res])) by (apply Forall_app; split; [done|by apply Forall_singleton]).
    destruct (res_Error res); [destruct (Rollback w3) as [? w4]; by eapply IH|].
    destruct dryRun; [|destruct (Commit w3) as [? w4]; by eapply IH].
    destruct (Rollback w3) as [[e|] w4]; [by simplify_eq|by eapply IH].
  - by destruct (BeginTx w) as [[e|] w1].
Qed.

(** every result a run returns has one of the four statuses the summary counts, and carries an error
    exactly when its status says so. *)
Theorem Run_statuses (r : Runner) (opts : RunOptions) (w : world) results err w' :
  Run exec_sql App_Env since r opts w = Some (Returns (results, err), w') → Forall known_status results.
Proof.
  unfold Run. set (env := resolveEnv App_Env r opts).
  destruct (_ && _); [by intros [= <- <- <-]|]. set (ss := filterSeeders _ _ _).
  destruct (if o_Fresh opts then _ else _) as [[fe|] w1]; [by intros [= <- <- <-]|].
  destruct ss as [|s0 ss0]; [by intros [= <- <- <-]|].
  destruct (topologicalSort _) as [[sorted|e]|]; [|by intros [= <- <- <-]|done].
  destruct (_ =? TxModePerSeeder)%string; intros [= Hr].
  - unfold runPerSeeder in Hr. destruct (new_store w1) as [refs w2]. by eapply perSeeder_loop_status.
  - unfold runGlobal in Hr. destruct (BeginTx w1) as [[e|] w2]; [by simplify_eq|].
    destruct (new_store w2) as [refs w3]. destruct (newSeedContext r refs env (o_DryRun opts) w3) as [sc w4].
    apply pbind_returns in Hr as ([rs e] & w5 & Hl & Hr). apply global_loop_status in Hl; [|done].
    destruct e as [e|]; [by unfold pret in Hr; simplify_eq|].
    destruct (o_DryRun opts); [destruct (Rollback w5) as [[]?]|destruct (Commit w5) as [[]?]]; by simplify_eq.
Qed.
End Results.

(** ** Lists on the command line *)

Definition join_commas (l : list string) : string := String.concat "," l.

Lemma split_comma_app cur x l :
  ("," : ascii) ∉ x → split_comma cur (x ++ ("," : ascii) :: l) = (cur ++ x) :: split_comma [] l.
Proof.
  revert cur. induction x as [|c x IH]; intros cur Hx; cbn [app split_comma]; [by rewrite app_nil_r|].
  apply not_elem_of_cons in Hx as [Hc Hx]. destruct (Ascii.eqb_spec c ","); [congruence|].
  rewrite IH by done. by rewrite <- app_assoc.
Qed.

Lemma split_comma_last cur x : ("," : ascii) ∉ x → split_comma cur x = [cur ++ x].
Proof.
  revert cur. induction x as [|c x IH]; intros cur Hx; cbn [split_comma]; [by rewrite app_nil_r|].
  apply not_elem_of_cons in Hx as [Hc Hx]. destruct (Ascii.eqb_spec c ","); [congruence|].
  rewrite IH by done. by rewrite <- app_assoc.
Qed.

Lemma concat_cons x y l : String.concat "," (x :: y :: l) = x +:+ String "," (String.concat "," (y :: l)).
Proof. done. Qed.

Lemma Split_join l :
  l ≠ [] → Forall (λ x, ("," : ascii) ∉ String.list_ascii_of_string x) l → Split (join_commas l) = l.
Proof.
  unfold Split, join_commas. intros Hne Hall. induction Hall as [|x l Hx Hl IH]; [done|].
  destruct l as [|y l].
  - cbn [String.concat]. rewrite split_comma_last by done. cbn. by rewrite String.string_of_list_ascii_of_string.
  - rewrite concat_cons, list_ascii_app. cbn [String.list_ascii_of_string].
    rewrite split_comma_app by done. cbn [map app]. rewrite String.string_of_list_ascii_of_string. f_equal.
    by apply IH.
Qed.

(** a list of names that are not empty, have no commas and no surrounding space is parsed back
    from its comma-separated text. *)
Theorem ParseCSV_join (l : list string) :
  l ≠ [] → Forall (λ x, x ≠ EmptyString ∧ TrimSpace x = x ∧ ("," : ascii) ∉ String.list_ascii_of_string x) l →
  ParseCSV (join_commas l) = Some l.
Proof.
  intros Hne Hall. unfold ParseCSV.
  assert (Hs : Split (join_commas l) = l).
  { apply Split_join; [done|]. eapply Forall_impl; [exact Hall|]. by intros x (_ & _ & ?). }
  destruct (String.eqb_spec (join_commas l) "") as [E|_].
  { rewrite E in Hs. cbn in Hs. subst l. by inversion Hall as [|? ? [? _]]. }
  rewrite Hs. assert (map TrimSpace l = l) as ->.
  { clear - Hall. induction Hall as [|x l (_ & Ht & _) _ IH]; [done|]. cbn. by rewrite Ht, IH. }
  rewrite filter_all; [by destruct l|]. eapply Forall_impl; [exact Hall|]. by intros x (? & _).
Qed.

Example ParseCSV_join_witness : ParseCSV (join_commas ["iam.roles"; "core"]) = Some ["iam.roles"; "core"].
Proof. apply ParseCSV_join; [discriminate|]. repeat constructor; (discriminate || reflexivity || decide_now). Defined.

(** A context with both marks, and one with neither. *)
Example marks_read :
  IsSeeding (WithEventsDisabled (WithSeeding [])) = true ∧ EventsDisabled (WithEventsDisabled (WithSeeding [])) = true
  ∧ IsSeeding [] = false ∧ EventsDisabled (WithSeeding []) = false.
Proof. by vm_compute. Qed.
