(* ===== verification/SeedData.v ===== *)
(** * Fake data for seeding

    [SeedData.v] models infra/seed/fake.go and factory.go: the deterministic generator of names,
    numbers and identifiers, and the factories that share it.  A faker is a pointer to a generator
    and a factory has a mutable index: both live on the heap [heap], so that factories derived
    from one another are seen to share what they share.  The generator is math/rand/v2 with its
    PCG source, and floats are those of Float.v. *)

From Stdlib Require Import Ascii QArith.
From S2P Require Import Prelude Errors GoText Float.
Local Open Scope Z_scope.
Local Open Scope go_scope.

(** ** math/rand/v2 *)

Definition wrapU64 (z : Z) : Z := z `mod` 2 ^ 64.

Record PCG := { pcg_hi : Z; pcg_lo : Z }.
Definition NewPCG (seed1 seed2 : Z) : PCG := {| pcg_hi := seed1; pcg_lo := seed2 |}.

(** The 128-bit linear congruential step, then the output function. *)
Definition pcg_mul : Z := 2549297995355413924 * 2 ^ 64 + 4865540595714422341.
Definition pcg_inc : Z := 6364136223846793005 * 2 ^ 64 + 1442695040888963407.
Definition pcg_next (p : PCG) : PCG :=
  let x := ((pcg_hi p * 2 ^ 64 + pcg_lo p) * pcg_mul + pcg_inc) `mod` 2 ^ 128 in
  {| pcg_hi := x / 2 ^ 64; pcg_lo := x `mod` 2 ^ 64 |}.
Definition pcg_Uint64 (p : PCG) : Z * PCG :=
  let p := pcg_next p in
  let hi := pcg_hi p in
  let hi := Z.lxor hi (Z.shiftr hi 32) in
  let hi := wrapU64 (hi * 15750249268501108917) in
  let hi := Z.lxor hi (Z.shiftr hi 48) in
  (wrapU64 (hi * Z.lor (pcg_lo p) 1), p).

(** The heap: the generators and the index of each factory. *)
Record heap := { rngs : list PCG; idxs : list Z }.
Definition Faker := nat.
Definition nil_deref {A} : prog heap A := λ h,
  (Panics "runtime error: invalid memory address or nil pointer dereference", h).

Definition Uint64 (f : Faker) : prog heap Z := λ h,
  match rngs h !! f with
  | None => nil_deref h
  | Some p => let '(x, p) := pcg_Uint64 p in (Returns x, {| rngs := <[f := p]> (rngs h); idxs := idxs h |})
  end.

Section Fakes.
(** The draws the rejection loop of [uint64n] may take. *)
Context (fuel : nat).

Fixpoint reject_below (fuel : nat) (f : Faker) (n thresh : Z) (hi lo : Z) : prog heap Z :=
  if lo <? thresh
  then match fuel with
       | O => λ h, (Hangs, h)
       | S fuel =>
           let! x := Uint64 f in
           reject_below fuel f n thresh (x * n / 2 ^ 64) ((x * n) `mod` 2 ^ 64)
       end
  else pret hi.

Definition uint64n (f : Faker) (n : Z) : prog heap Z :=
  let! x := Uint64 f in
  if Z.land n (n - 1) =? 0 then pret (Z.land x (n - 1))
  else
    let hi := x * n / 2 ^ 64 in
    let lo := (x * n) `mod` 2 ^ 64 in
    if lo <? n then reject_below fuel f n (wrapU64 (- n) `mod` n) hi lo else pret hi.

Definition IntN (f : Faker) (n : Z) : prog heap Z :=
  if n <=? 0 then λ h, (Panics "invalid argument to IntN", h) else uint64n f n.
Definition Int64N (f : Faker) (n : Z) : prog heap Z :=
  if n <=? 0 then λ h, (Panics "invalid argument to Int64N", h) else uint64n f n.

(** ** The faker *)

Definition NewFaker (seed : Z) : prog heap Faker := λ h,
  (Returns (length (rngs h)), {| rngs := rngs h ++ [NewPCG seed seed]; idxs := idxs h |}).
(** The two seeds come from the global generator. *)
Definition NewRandomFaker (seed1 seed2 : Z) : prog heap Faker := λ h,
  (Returns (length (rngs h)), {| rngs := rngs h ++ [NewPCG seed1 seed2]; idxs := idxs h |}).

Definition Int (f : Faker) (min max : Z) : prog heap Z :=
  if min >=? max then pret min
  else let! r := IntN f (wrap64 (wrap64 (max - min) + 1)) in pret (wrap64 (min + r)).

(** The generator's [Float64] takes the low 53 bits of a draw. *)
Definition Float64 (f : Faker) (min max : float64) : prog heap float64 :=
  let! x := Uint64 f in
  pret (fadd min (fmul (rand_Float64 (x `mod` 2 ^ 53)) (fsub max min))).
Definition Price (f : Faker) (min max : Z) : prog heap Z :=
  if min >=? max then pret min
  else let! r := Int64N f (wrap64 (wrap64 (max - min) + 1)) in pret (wrap64 (min + r)).

Definition Bool (f : Faker) : prog heap bool :=
  let! r := IntN f 2 in pret (r =? 1).

Definition Pick (f : Faker) (items : list string) : prog heap string :=
  match items with
  | [] => pret ""
  | _ => let! i := IntN f (Z.of_nat (length items)) in pret (nth (Z.to_nat i) items "")
  end.

(** [%x] of a byte slice; the widths of the format are the lengths of the slices. *)
Definition hex_byte (b : Z) : string := hex_digit (Z.to_nat (b / 16)) +:+ hex_digit (Z.to_nat (b `mod` 16)).
Definition hex_bytes (l : list Z) : string := String.concat "" (map hex_byte l).

Fixpoint random_bytes (f : Faker) (n : nat) : prog heap (list Z) :=
  match n with
  | O => pret []
  | S n => let! b := IntN f 256 in let! rest := random_bytes f n in pret (b :: rest)
  end.

Definition set_version (buf : list Z) : list Z :=
  let buf := <[6%nat := Z.lor (Z.land (nth 6 buf 0) 15) 64]> buf in
  <[8%nat := Z.lor (Z.land (nth 8 buf 0) 63) 128]> buf.

Definition format_uuid (buf : list Z) : string :=
  hex_bytes (take 4 buf) +:+ "-" +:+ hex_bytes (take 2 (drop 4 buf)) +:+ "-"
  +:+ hex_bytes (take 2 (drop 6 buf)) +:+ "-" +:+ hex_bytes (take 2 (drop 8 buf)) +:+ "-"
  +:+ hex_bytes (take 6 (drop 10 buf)).

Definition UUID (f : Faker) : prog heap string :=
  let! buf := random_bytes f 16 in pret (format_uuid (set_version buf)).

Definition firstNames : list string :=
  ["Alice"; "Bob"; "Charlie"; "Diana"; "Eve"; "Frank";
   "Grace"; "Henry"; "Ivy"; "Jack"; "Karen"; "Leo";
   "Mia"; "Noah"; "Olivia"; "Paul"; "Quinn"; "Ruby";
   "Sam"; "Tina"; "Uma"; "Victor"; "Wendy"; "Xander"].
Definition lastNames : list string :=
  ["Smith"; "Johnson"; "Williams"; "Brown"; "Jones"; "Garcia";
   "Miller"; "Davis"; "Rodriguez"; "Martinez"; "Hernandez"; "Lopez";
   "Gonzalez"; "Wilson"; "Anderson"; "Thomas"; "Taylor"; "Moore";
   "Jackson"; "Martin"; "Lee"; "Perez"; "Thompson"; "White"].
Definition words : list string :=
  ["alpha"; "bravo"; "charlie"; "delta"; "echo"; "foxtrot";
   "golf"; "hotel"; "india"; "juliet"; "kilo"; "lima";
   "mike"; "november"; "oscar"; "papa"; "quebec"; "romeo";
   "sierra"; "tango"; "uniform"; "victor"; "whiskey"; "xray"].

Definition FirstName (f : Faker) : prog heap string := Pick f firstNames.
Definition LastName (f : Faker) : prog heap string := Pick f lastNames.
Definition Word (f : Faker) : prog heap string := Pick f words.

Definition Name (f : Faker) : prog heap string :=
  let! first := FirstName f in let! last := LastName f in pret (first +:+ " " +:+ last).

Definition email_of (first last : string) (seq : Z) : string :=
  first +:+ "." +:+ last +:+ "+" +:+ pretty seq +:+ "@example.com".
Definition Email (f : Faker) (seq : Z) : prog heap string :=
  let! first := FirstName f in
  let! last := LastName f in
  pret (email_of (ToLower first) (ToLower last) seq).

Fixpoint pick_words (f : Faker) (n : nat) : prog heap (list string) :=
  match n with
  | O => pret []
  | S n => let! w := Word f in let! rest := pick_words f n in pret (w :: rest)
  end.

(** [strings.ToUpper] of one ASCII letter. *)
Definition upper_char (c : ascii) : ascii :=
  let n := nat_of_ascii c in
  if ((97 <=? n) && (n <=? 122))%nat then ascii_of_nat (n - 32) else c.

(** [s[:1]] of an empty string panics. *)
Definition Sentence (f : Faker) (n : Z) : prog heap string :=
  if n <=? 0 then pret ""
  else
    let! parts := pick_words f (Z.to_nat n) in
    match String.concat " " parts with
    | EmptyString => λ h, (Panics "runtime error: slice bounds out of range [:1] with length 0", h)
    | String c rest => pret (String (upper_char c) rest +:+ ".")
    end.

(** The calls on a faker and what they return. *)
Inductive fake :=
| AInt (min max : Z) | AFloat64 (min max : float64) | ABool | AUUID | APick (items : list string)
| AFirstName | ALastName | AName | AEmail (seq : Z) | APrice (min max : Z) | AWord | ASentence (n : Z).
Inductive fake_value := FInt (z : Z) | FFloat (x : float64) | FBool (b : bool) | FText (s : string).

Definition fake_call (c : fake) (f : Faker) : prog heap fake_value :=
  match c with
  | AInt min max => let! z := Int f min max in pret (FInt z)
  | AFloat64 min max => let! x := Float64 f min max in pret (FFloat x)
  | ABool => let! b := Bool f in pret (FBool b)
  | AUUID => let! s := UUID f in pret (FText s)
  | APick items => let! s := Pick f items in pret (FText s)
  | AFirstName => let! s := FirstName f in pret (FText s)
  | ALastName => let! s := LastName f in pret (FText s)
  | AName => let! s := Name f in pret (FText s)
  | AEmail seq => let! s := Email f seq in pret (FText s)
  | APrice min max => let! z := Price f min max in pret (FInt z)
  | AWord => let! s := Word f in pret (FText s)
  | ASentence n => let! s := Sentence f n in pret (FText s)
  end.

(** Calls on several fakers one after the other, with their outcomes. *)
Fixpoint fake_trace (calls : list (Faker * fake)) (h : heap) : list (Faker * outcome fake_value) :=
  match calls with
  | [] => []
  | (f, c) :: rest => let '(r, h) := fake_call c f h in (f, r) :: fake_trace rest h
  end.

(** ** Factories *)
Section Factories.
Context {T : Type}.

Definition Definition_ : Type := Z → Faker → prog heap T.
Record State := { st_Name : string; Apply : T → Z → Faker → prog heap T }.

(** [f_idx] points to the index; the other fields do not change. *)
Record Factory := { def : Definition_; states : gmap string State; faker : Faker; f_idx : nat }.

Definition alloc_idx (i : Z) : prog heap nat := λ h,
  (Returns (length (idxs h)), {| rngs := rngs h; idxs := idxs h ++ [i] |}).
Definition read_idx (f : Factory) : prog heap Z := λ h,
  match idxs h !! f_idx f with Some i => (Returns i, h) | None => nil_deref h end.
Definition write_idx (f : Factory) (i : Z) : prog heap () := λ h,
  (Returns (), {| rngs := rngs h; idxs := <[f_idx f := i]> (idxs h) |}).

Definition NewFactory (d : Definition_) : prog heap Factory :=
  let! fk := NewFaker 42 in
  let! r := alloc_idx 0 in
  pret {| def := d; states := ∅; faker := fk; f_idx := r |}.

Definition WithState (f : Factory) (s : State) : prog heap Factory :=
  let! i := read_idx f in
  let! r := alloc_idx i in
  pret {| def := def f; states := <[st_Name s := s]> (states f); faker := faker f; f_idx := r |}.

Definition WithFaker (f : Factory) (fk : Faker) : prog heap Factory :=
  let! i := read_idx f in
  let! r := alloc_idx i in
  pret {| def := def f; states := states f; faker := fk; f_idx := r |}.

(** An unknown state is skipped. *)
Fixpoint apply_states (f : Factory) (names : list string) (instance : T) : prog heap T :=
  match names with
  | [] => pret instance
  | name :: rest =>
      match states f !! name with
      | None => apply_states f rest instance
      | Some s =>
          let! i := read_idx f in
          let! instance := Apply s instance (wrap64 (i - 1)) (faker f) in
          apply_states f rest instance
      end
  end.

Definition Make (f : Factory) (names : list string) : prog heap T :=
  let! i := read_idx f in
  let! instance := def f i (faker f) in
  let! i := read_idx f in
  let! _ := write_idx f (wrap64 (i + 1)) in
  apply_states f names instance.

Fixpoint make_loop (f : Factory) (n : nat) (names : list string) : prog heap (list T) :=
  match n with
  | O => pret []
  | S n => let! x := Make f names in let! rest := make_loop f n names in pret (x :: rest)
  end.
Definition MakeMany (f : Factory) (n : Z) (names : list string) : prog heap (list T) :=
  if n <? 0 then λ h, (Panics "runtime error: makeslice: len out of range", h)
  else make_loop f (Z.to_nat n) names.

Definition MakeWithOverride (f : Factory) (override : T → prog heap T) (names : list string) : prog heap T :=
  let! instance := Make f names in override instance.

(** The counter is an [atomic.Int64]. *)
Record Sequence := { counter : Z; gen : Z → T }.
Definition NewSequence (g : Z → T) : Sequence := {| counter := 0; gen := g |}.
Definition Sequence_Next (s : Sequence) : T * Sequence :=
  let n := wrap64 (counter s + 1) in (gen s n, {| counter := n; gen := gen s |}).
End Factories.
End Fakes.

(** The first outputs of a generator seeded with 1 and 2. *)
Example pcg_outputs :
  let '(x, p) := pcg_Uint64 (NewPCG 1 2) in
  let '(y, p) := pcg_Uint64 p in
  (x, y) = (14192431797130687760, 11371241257079532652).
Proof. reflexivity. Qed.

(** ** The draws stay in range *)

Lemma land_below x y : 0 ≤ y → 0 ≤ Z.land x y ≤ y.
Proof.
  intros Hy. rewrite Z.land_comm. split; [by apply Z.land_nonneg; left|].
  rewrite <-(Z.lor_ldiff_and y x) at 2. rewrite <-Z.add_nocarry_lor.
  - assert (0 ≤ Z.ldiff y x) by (apply Z.ldiff_nonneg; by left). lia.
  - apply Z.bits_inj'. intros n _. rewrite !Z.land_spec, Z.ldiff_spec, Z.bits_0.
    by destruct (Z.testbit y n), (Z.testbit x n).
Qed.

Lemma high_word x n : 0 ≤ x < 2 ^ 64 → 0 < n → 0 ≤ x * n / 2 ^ 64 < n.
Proof. intros Hx Hn. split; [apply Z.div_pos; nia|]. apply Z.div_lt_upper_bound; nia. Qed.

(** The heap after draws from [f]: the same factories, the same generators but [f]. *)
Definition drawn (f : Faker) (h h' : heap) : Prop :=
  idxs h' = idxs h ∧ (is_Some (rngs h !! f) → is_Some (rngs h' !! f))
  ∧ ∀ g, g ≠ f → rngs h' !! g = rngs h !! g.

Lemma drawn_refl f h : drawn f h h.
Proof. done. Qed.
Lemma drawn_trans f h1 h2 h3 : drawn f h1 h2 → drawn f h2 h3 → drawn f h1 h3.
Proof.
  intros (Hi1 & Hs1 & Hg1) (Hi2 & Hs2 & Hg2). split_and!; [congruence|auto|].
  intros g Hg. by rewrite Hg2, Hg1.
Qed.

Lemma Uint64_spec f h :
  match rngs h !! f with
  | Some p => ∃ h', Uint64 f h = (Returns (pcg_Uint64 p).1, h') ∧ drawn f h h'
                    ∧ rngs h' !! f = Some (pcg_Uint64 p).2 ∧ 0 ≤ (pcg_Uint64 p).1 < 2 ^ 64
  | None => ∃ msg, Uint64 f h = (Panics msg, h)
  end.
Proof.
  unfold Uint64. destruct (rngs h !! f) as [p|] eqn:Hf; [|by eexists].
  destruct (pcg_Uint64 p) as [x p'] eqn:Hx. cbn [fst snd]. eexists. split; [done|].
  assert (Hlt : (f < length (rngs h))%nat) by by eapply lookup_lt_Some. split_and!.
  - split_and!; cbn [idxs rngs]; [done|..].
    + intros _. rewrite list_lookup_insert_eq by done. by eexists.
    + intros g Hg. by rewrite list_lookup_insert_ne.
  - by apply list_lookup_insert_eq.
  - unfold pcg_Uint64 in Hx. injection Hx as <- _. apply Z.mod_pos_bound. lia.
  - unfold pcg_Uint64 in Hx. injection Hx as <- _. apply Z.mod_pos_bound. lia.
Qed.

(** What a draw of a value below [n] gives: a value in range, a panic on a faker that is not
    there, or no end of the rejection loop within the fuel. *)
Definition below (f : Faker) (n : Z) (h : heap) (r : outcome Z * heap) : Prop :=
  match r with
  | (Returns x, h') => 0 ≤ x < n ∧ drawn f h h'
  | (Panics _, _) => rngs h !! f = None
  | (Hangs, _) => Z.land n (n - 1) ≠ 0
  end.

Lemma reject_below_spec fuel f n thresh hi lo h :
  0 < n → 0 ≤ hi < n → Z.land n (n - 1) ≠ 0 → is_Some (rngs h !! f) →
  below f n h (reject_below fuel f n thresh hi lo h).
Proof.
  intros Hn Hhi Hpow. revert hi lo h Hhi. induction fuel as [|fuel IH]; intros hi lo h Hhi Hf; cbn [reject_below].
  - by destruct (lo <? thresh).
  - destruct (lo <? thresh); [|by split]. pose proof (Uint64_spec f h) as Hu. destruct Hf as [p Hp].
    rewrite Hp in Hu. destruct Hu as (h1 & Hu & Hd & Hp1 & Hr). unfold pbind. rewrite Hu.
    specialize (IH _ ((((pcg_Uint64 p).1 * n) `mod` 2 ^ 64)) h1 (high_word _ n Hr Hn)).
    rewrite Hp1 in IH. specialize (IH (mk_is_Some _ _ eq_refl)).
    destruct (reject_below _ _ _ _ _ _ _) as [[x|msg|] h2]; cbn in IH |- *; [|congruence|done].
    destruct IH as [Hx Hd2]. split; [done|]. by eapply drawn_trans.
Qed.

Lemma uint64n_spec fuel f n h : 0 < n → below f n h (uint64n fuel f n h).
Proof.
  intros Hn. unfold uint64n, pbind. pose proof (Uint64_spec f h) as Hu.
  destruct (rngs h !! f) as [p|] eqn:Hp; [|destruct Hu as [msg ->]; exact Hp].
  destruct Hu as (h1 & -> & Hd & Hp1 & Hr). set (x := (pcg_Uint64 p).1) in *.
  destruct (Z.eqb_spec (Z.land n (n - 1)) 0) as [Hz|Hz].
  { unfold pret, below. pose proof (land_below x (n - 1) ltac:(lia)). split; [lia|done]. }
  destruct (_ <? n); [|split; [by apply high_word|done]].
  pose proof (reject_below_spec fuel f n (wrapU64 (- n) `mod` n) (x * n / 2 ^ 64) ((x * n) `mod` 2 ^ 64) h1
    Hn (high_word _ _ Hr Hn) Hz (mk_is_Some _ _ Hp1)) as Hb.
  destruct (reject_below _ _ _ _ _ _ _) as [[y|msg|] h2]; cbn in Hb |- *; [|congruence|done].
  destruct Hb as [Hy Hd2]. split; [done|]. by eapply drawn_trans.
Qed.

(** [Int] gives a number from [min] to [max] when the range has at most 2^63 - 1 numbers and
    the faker exists; a wider range always panics, since the width wraps to a non-positive
    number; for a range of one number no draw is made.  The rejection loop of the generator is
    only entered when the width is not a power of two. *)
Theorem Int_range (fuel : nat) (f : Faker) (min max : Z) (h : heap) :
  int64_range min → int64_range max → is_Some (rngs h !! f) →
  (max ≤ min → Int fuel f min max h = (Returns min, h))
  ∧ (min < max → max - min + 1 < 2 ^ 63 →
     match Int fuel f min max h with
     | (Returns r, h') => min ≤ r ≤ max ∧ drawn f h h'
     | (Panics _, _) => False
     | (Hangs, _) => Z.land (max - min + 1) (max - min) ≠ 0
     end)
  ∧ (2 ^ 63 ≤ max - min + 1 → Int fuel f min max h = (Panics "invalid argument to IntN", h)).
Proof.
  unfold int64_range. intros Hmin Hmax Hf. unfold Int. rewrite Z.geb_leb. split_and!.
  - intros Hle. by rewrite (proj2 (Z.leb_le _ _) Hle).
  - intros Hlt Hw. rewrite (proj2 (Z.leb_gt _ _) Hlt).
    rewrite (wrap64_id (max - min)), wrap64_id by (unfold int64_range; lia).
    unfold IntN, pbind. rewrite (proj2 (Z.leb_gt _ _)) by lia.
    pose proof (uint64n_spec fuel f (max - min + 1) h ltac:(lia)) as Hb.
    replace (max - min + 1 - 1) with (max - min) in * by lia.
    destruct (uint64n _ _ _ _) as [[r|msg|] h']; cbn in Hb.
    + destruct Hb as [Hr Hd]. cbn. rewrite wrap64_id by (unfold int64_range; lia). split; [lia|done].
    + destruct Hf as [p Hp]. rewrite Hp in Hb. done.
    + replace (max - min + 1 - 1) with (max - min) in Hb by lia. exact Hb.
  - intros Hw. rewrite (proj2 (Z.leb_gt _ _)) by lia. unfold IntN, pbind.
    assert (wrap64 (wrap64 (max - min) + 1) ≤ 0) as Hneg; [|by rewrite (proj2 (Z.leb_le _ _) Hneg)].
    destruct (decide (max - min < 2 ^ 63)) as [Heq|Hge].
    + replace (max - min) with (2 ^ 63 - 1) by lia. vm_compute. congruence.
    + rewrite (wrap64_add_over (max - min)) by lia. rewrite wrap64_id by (unfold int64_range; lia). lia.
Qed.

Lemma Int_range_witness :
  let h := {| rngs := [NewPCG 42 42]; idxs := [] |} in
  (∃ r h', Int 10 0%nat (-5) 10 h = (Returns r, h') ∧ -5 ≤ r ≤ 10)
  ∧ Int 10 0%nat 0 (2 ^ 63 - 1) h = (Panics "invalid argument to IntN", h).
Proof.
  cbn zeta. set (h := {| rngs := [NewPCG 42 42]; idxs := [] |}).
  assert (Hf : is_Some (rngs h !! 0%nat)) by by eexists. split.
  - destruct (Int_range 10 0%nat (-5) 10 h) as (_ & Hin & _); [by vm_compute|by vm_compute|done|].
    specialize (Hin ltac:(lia) ltac:(lia)).
    destruct (Int 10 0%nat (-5) 10 h) as [[r|msg|] h'] eqn:E; [|done|by destruct Hin].
    exists r, h'. split; [done|]. apply Hin.
  - destruct (Int_range 10 0%nat 0 (2 ^ 63 - 1) h) as (_ & _ & Hp); [by vm_compute|by vm_compute|done|].
    apply Hp. lia.
Defined.

(** With an acceptable draw among the next [fuel] the rejection loop ends. *)
Definition draw (p : PCG) (k : nat) : Z := (pcg_Uint64 (Nat.iter k (λ p, (pcg_Uint64 p).2) p)).1.
Definition acceptable (n x : Z) : Prop := wrapU64 (- n) `mod` n ≤ (x * n) `mod` 2 ^ 64.

Lemma draw_0 p : draw p 0 = (pcg_Uint64 p).1.
Proof. done. Qed.
Lemma draw_S p k : draw p (S k) = draw (pcg_Uint64 p).2 k.
Proof. unfold draw. by rewrite Nat.iter_succ_r. Qed.

Lemma reject_below_ends fuel f n hi lo h p k :
  rngs h !! f = Some p → (k < fuel)%nat → acceptable n (draw p k) →
  ∃ x h', reject_below fuel f n (wrapU64 (- n) `mod` n) hi lo h = (Returns x, h').
Proof.
  revert hi lo h p k. induction fuel as [|fuel IH]; intros hi lo h p k Hp Hk Ha; [lia|].
  cbn [reject_below]. destruct (lo <? _); [|by do 2 eexists].
  pose proof (Uint64_spec f h) as Hu. rewrite Hp in Hu. destruct Hu as (h1 & Hu & _ & Hp1 & _).
  unfold pbind. rewrite Hu. destruct k as [|k].
  - rewrite draw_0 in Ha. unfold acceptable in Ha.
    destruct fuel; cbn [reject_below]; rewrite (proj2 (Z.ltb_ge _ _) Ha); by do 2 eexists.
  - apply (IH _ _ _ (pcg_Uint64 p).2 k Hp1); [lia|]. by rewrite <-draw_S.
Qed.

Lemma uint64n_ends fuel f n h p k :
  rngs h !! f = Some p → (k < fuel)%nat → acceptable n (draw p (S k)) →
  ∃ x h', uint64n fuel f n h = (Returns x, h').
Proof.
  intros Hp Hk Ha. unfold uint64n, pbind. pose proof (Uint64_spec f h) as Hu. rewrite Hp in Hu.
  destruct Hu as (h1 & -> & _ & Hp1 & _). destruct (_ =? 0); [by do 2 eexists|].
  destruct (_ <? n); [|by do 2 eexists].
  eapply reject_below_ends; [exact Hp1|exact Hk|]. by rewrite <-draw_S.
Qed.

(** ** Names and addresses *)

Lemma Pick_in fuel f items h x h' :
  items ≠ [] → Pick fuel f items h = (Returns x, h') → x ∈ items ∧ drawn f h h'.
Proof.
  intros Hne. unfold Pick. destruct items as [|i0 items]; [done|]. set (l := i0 :: items).
  unfold IntN, pbind. rewrite (proj2 (Z.leb_gt _ _)) by (cbn; lia).
  pose proof (uint64n_spec fuel f (Z.of_nat (length l)) h ltac:(cbn; lia)) as Hb.
  destruct (uint64n _ _ _ _) as [[i|msg|] h1]; [|done..]. intros [= <- <-]. destruct Hb as [Hi Hd].
  split; [|done]. apply list_elem_of_In, (nth_In l ""). lia.
Qed.

(** Text without a plus sign. *)
Fixpoint no_plus (s : string) : bool :=
  match s with EmptyString => true | String c s => negb (Ascii.eqb c "+") && no_plus s end.

Lemma cut_plus s1 s2 t1 t2 :
  no_plus s1 = true → no_plus s2 = true → s1 +:+ "+" +:+ t1 = s2 +:+ "+" +:+ t2 → t1 = t2.
Proof.
  revert s2. induction s1 as [|c s1 IH]; intros [|c2 s2]; cbn [no_plus]; rewrite ?andb_true_iff.
  - intros _ _ [= Ht]. exact Ht.
  - intros _ [Hc _] [= <- _]. by rewrite Ascii.eqb_refl in Hc.
  - intros [Hc _] _ [= -> _]. by rewrite Ascii.eqb_refl in Hc.
  - intros [_ H1] [_ H2] [= _ Heq]. by apply (IH s2).
Qed.

Lemma text_app_assoc s t u : (s +:+ t) +:+ u = s +:+ t +:+ u.
Proof. induction s as [|c s IH]; [done|]. exact (f_equal (String c) IH). Qed.

Lemma no_plus_app s t : no_plus (s +:+ t) = no_plus s && no_plus t.
Proof.
  induction s as [|c s IH]; [done|]. change (String c s +:+ t) with (String c (s +:+ t)).
  cbn [no_plus]. by rewrite IH, andb_assoc.
Qed.

Lemma text_app_inv_tail s1 s2 t : s1 +:+ t = s2 +:+ t → s1 = s2.
Proof.
  intros Heq. apply (f_equal String.list_ascii_of_string) in Heq. rewrite !list_ascii_app in Heq.
  apply app_inv_tail in Heq. rewrite <-(String.string_of_list_ascii_of_string s1), Heq.
  apply String.string_of_list_ascii_of_string.
Qed.

Lemma names_no_plus x : x ∈ firstNames ∨ x ∈ lastNames → no_plus (ToLower x) = true.
Proof.
  assert (Hall : Forall (λ x, no_plus (ToLower x) = true) (firstNames ++ lastNames)) by decide_now.
  rewrite Forall_forall in Hall. intros Hx. apply Hall, elem_of_app, Hx.
Qed.

Lemma Email_shape fuel f seq h e h' :
  Email fuel f seq h = (Returns e, h') →
  ∃ name, no_plus name = true ∧ e = name +:+ "+" +:+ pretty seq +:+ "@example.com".
Proof.
  unfold Email, pbind, FirstName, LastName.
  destruct (Pick fuel f firstNames h) as [[a|msg|] h1] eqn:Ha; [|done..].
  destruct (Pick fuel f lastNames h1) as [[b|msg|] h2] eqn:Hb; [|done..].
  intros [= <- _]. apply Pick_in in Ha as [Ha _]; [|done]. apply Pick_in in Hb as [Hb _]; [|done].
  exists (ToLower a +:+ "." +:+ ToLower b). split.
  - rewrite !no_plus_app, !names_no_plus by auto. done.
  - unfold email_of. by rewrite !text_app_assoc.
Qed.

(** two addresses made by [Email] are different whenever their sequence numbers are, whichever
    fakers made them and whatever names were drawn. *)
Theorem Email_unique (fuel : nat) (f1 f2 : Faker) (seq1 seq2 : Z) (h1 h2 h1' h2' : heap) (e1 e2 : string) :
  Email fuel f1 seq1 h1 = (Returns e1, h1') → Email fuel f2 seq2 h2 = (Returns e2, h2') →
  seq1 ≠ seq2 → e1 ≠ e2.
Proof.
  intros H1 H2 Hne ->. apply Email_shape in H1 as (n1 & Hn1 & ->). apply Email_shape in H2 as (n2 & Hn2 & Heq).
  apply cut_plus in Heq; [|done..]. apply text_app_inv_tail in Heq. by apply (inj pretty) in Heq.
Qed.

Lemma Email_unique_witness :
  ∃ e1 e2 h1 h2, Email 10 0%nat 1 {| rngs := [NewPCG 42 42]; idxs := [] |} = (Returns e1, h1)
    ∧ Email 10 0%nat 2 {| rngs := [NewPCG 42 42]; idxs := [] |} = (Returns e2, h2) ∧ e1 ≠ e2.
Proof.
  do 4 eexists. split; [vm_compute; reflexivity|]. split; [vm_compute; reflexivity|].
  eapply (Email_unique 10 0%nat 0%nat 1 2 {| rngs := [NewPCG 42 42]; idxs := [] |}
    {| rngs := [NewPCG 42 42]; idxs := [] |}); [vm_compute; reflexivity|vm_compute; reflexivity|lia].
Defined.

(** ** Identifiers *)

Lemma all_bytes (P : Z → bool) : forallb P (seqZ 0 256) = true → ∀ b, 0 ≤ b < 256 → P b = true.
Proof.
  rewrite forallb_forall. intros Hall b Hb. apply Hall, list_elem_of_In, elem_of_seqZ. lia.
Qed.

Definition two_chars (s : string) : bool :=
  match s with String _ (String _ EmptyString) => true | _ => false end.
Definition first_in (l : list ascii) (s : string) : bool :=
  match s with String c _ => existsb (Ascii.eqb c) l | _ => false end.

Lemma hex_byte_shape b : 0 ≤ b < 256 → ∃ c d, hex_byte b = String c (String d EmptyString).
Proof.
  intros Hb. pose proof (all_bytes (λ b, two_chars (hex_byte b)) eq_refl b Hb) as Ht. cbv beta in Ht.
  destruct (hex_byte b) as [|c [|d [|]]]; try done. by exists c, d.
Qed.

Lemma version_byte b :
  0 ≤ b < 256 → ∃ d, hex_byte (Z.lor (Z.land b 15) 64) = String "4" (String d EmptyString).
Proof.
  intros Hb. pose proof (all_bytes (λ b, let s := hex_byte (Z.lor (Z.land b 15) 64) in
    two_chars s && first_in ["4"%char] s) eq_refl b Hb) as Ht. cbv beta zeta in Ht.
  destruct (hex_byte _) as [|c [|d [|]]]; try done. cbn in Ht. rewrite orb_false_r in Ht.
  apply Ascii.eqb_eq in Ht as ->. by exists d.
Qed.

Lemma variant_byte b :
  0 ≤ b < 256 →
  ∃ c d, hex_byte (Z.lor (Z.land b 63) 128) = String c (String d EmptyString)
         ∧ c ∈ ["8"; "9"; "a"; "b"]%char.
Proof.
  intros Hb. pose proof (all_bytes (λ b, let s := hex_byte (Z.lor (Z.land b 63) 128) in
    two_chars s && first_in ["8"; "9"; "a"; "b"]%char s) eq_refl b Hb) as Ht. cbv beta zeta in Ht.
  destruct (hex_byte _) as [|c [|d [|]]]; try done. exists c, d. split; [done|]. cbn [two_chars andb first_in] in Ht.
  apply existsb_exists in Ht as (x & Hx & Heq). apply Ascii.eqb_eq in Heq as <-. by apply list_elem_of_In.
Qed.

Lemma random_bytes_spec fuel f n h :
  is_Some (rngs h !! f) →
  ∃ l h', random_bytes fuel f n h = (Returns l, h') ∧ length l = n ∧ Forall (λ b, 0 ≤ b < 256) l ∧ drawn f h h'.
Proof.
  revert h. induction n as [|n IH]; intros h Hf; cbn [random_bytes]; [by exists [], h|].
  unfold pbind, IntN. cbn [Z.leb]. pose proof (uint64n_spec fuel f 256 h ltac:(lia)) as Hb.
  replace (256 <=? 0) with false by done.
  destruct (uint64n fuel f 256 h) as [[b|msg|] h1]; cbn [below] in Hb.
  - destruct Hb as [Hb Hd]. destruct (IH h1) as (l & h2 & -> & Hl & Hall & Hd2); [by apply Hd|].
    exists (b :: l), h2. cbn. split_and!; [done|by rewrite Hl|by constructor|by eapply drawn_trans].
  - rewrite Hb in Hf. by destruct Hf.
  - by destruct Hb.
Qed.

(** on a faker that exists [UUID] always gives, without waiting for a draw to be accepted, a
    text of 36 characters with the dashes of a UUID, version digit 4 and a variant digit of 8,
    9, a or b. *)
Theorem UUID_version4 (fuel : nat) (f : Faker) (h : heap) :
  is_Some (rngs h !! f) →
  ∃ u h', UUID fuel f h = (Returns u, h') ∧ drawn f h h' ∧ String.length u = 36%nat
    ∧ String.get 8 u = Some "-"%char ∧ String.get 13 u = Some "-"%char
    ∧ String.get 18 u = Some "-"%char ∧ String.get 23 u = Some "-"%char
    ∧ String.get 14 u = Some "4"%char
    ∧ ∃ c, String.get 19 u = Some c ∧ c ∈ ["8"; "9"; "a"; "b"]%char.
Proof.
  intros Hf. unfold UUID, pbind. destruct (random_bytes_spec fuel f 16 h Hf) as (l & h' & -> & Hl & Hall & Hd).
  do 2 eexists. split; [done|]. split; [done|].
  do 16 (destruct l as [|? l]; [done|apply Forall_cons in Hall as [? Hall]]). destruct l; [|done]. clear Hl Hall.
  unfold set_version, format_uuid, hex_bytes. cbn [nth insert list_insert take drop map String.concat].
  repeat match goal with
  | |- context [hex_byte (Z.lor (Z.land ?b 15) 64)] =>
      destruct (version_byte b) as (? & ->); [done|]
  | |- context [hex_byte (Z.lor (Z.land ?b 63) 128)] =>
      destruct (variant_byte b) as (? & ? & -> & ?); [done|]
  | H : 0 ≤ ?b < 256 |- context [hex_byte ?b] => destruct (hex_byte_shape b H) as (? & ? & ->)
  end.
  split_and!; [reflexivity..|]. eexists. split; [reflexivity|done].
Qed.

Lemma UUID_version4_witness :
  ∃ u h', UUID 0 0%nat {| rngs := [NewPCG 7 7]; idxs := [] |} = (Returns u, h') ∧ String.length u = 36%nat.
Proof.
  destruct (UUID_version4 0 0%nat {| rngs := [NewPCG 7 7]; idxs := [] |}) as (u & h' & Hu & _ & Hl & _); [by eexists|].
  exists u, h'. split; [exact Hu|exact Hl].
Defined.

(** ** Factories *)

Lemma derived_factory {T} (f : Factory (T := T)) (st : State (T := T)) (h : heap) (k : Z) :
  idxs h !! f_idx f = Some k →
  ∃ f' h', WithState f st h = (Returns f', h') ∧ rngs h' = rngs h
    ∧ def f' = def f ∧ faker f' = faker f ∧ f_idx f' ≠ f_idx f
    ∧ idxs h' !! f_idx f' = Some k ∧ idxs h' !! f_idx f = Some k.
Proof.
  intros Hk. unfold WithState, pbind, read_idx. rewrite Hk. unfold alloc_idx, pret.
  assert (Hlt : (f_idx f < length (idxs h))%nat) by by eapply lookup_lt_Some.
  do 2 eexists. split; [done|]. split_and!; try done.
  - cbn. lia.
  - cbn. by rewrite lookup_app_r, Nat.sub_diag by lia.
  - cbn. by rewrite lookup_app_l.
Qed.

(** Instances made from a definition that only looks at the index carry consecutive indices. *)
Lemma MakeMany_indices {T} (g : Z → T) (f : Factory (T := T)) (n : nat) (h : heap) (k : Z) :
  def f = (λ i _, pret (g i)) → idxs h !! f_idx f = Some k → 0 ≤ k → k + Z.of_nat n < 2 ^ 63 →
  MakeMany f (Z.of_nat n) [] h
  = (Returns (map g (seqZ k (Z.of_nat n))),
     {| rngs := rngs h; idxs := <[f_idx f := k + Z.of_nat n]> (idxs h) |}).
Proof.
  intros Hdef. unfold MakeMany. rewrite (proj2 (Z.ltb_ge _ _)), Nat2Z.id by lia.
  revert h k. induction n as [|n IH]; intros h k Hk H0 Hb; cbn [make_loop].
  { rewrite Z.add_0_r. cbn. rewrite list_insert_id by done. by destruct h. }
  unfold Make, pbind, read_idx. rewrite Hk, Hdef. unfold pret at 1. rewrite Hk.
  unfold write_idx. cbn [apply_states]. rewrite wrap64_id by (unfold int64_range; lia).
  assert (Hlt : (f_idx f < length (idxs h))%nat) by by eapply lookup_lt_Some.
  unfold pret at 1. rewrite (IH _ (k + 1)); [|by apply list_lookup_insert_eq|lia..].
  cbn [rngs idxs]. rewrite list_insert_insert_eq, (seqZ_cons k) by lia. unfold pret. cbn [map].
  replace (Z.pred (Z.of_nat (S n))) with (Z.of_nat n) by lia. replace (Z.succ k) with (k + 1) by lia.
  by replace (k + Z.of_nat (S n)) with (k + 1 + Z.of_nat n) by lia.
Qed.

(** Deriving a factory and using it changes what the original makes: both use the same index, and
    the draws of one are missing from the other. *)
Definition email_factory : prog heap (Factory (T := string)) := NewFactory (λ i f, Email 10 f i).
Definition inactive : State (T := string) :=
  {| st_Name := "inactive"; Apply x i f := pret (x +:+ " (inactive)") |}.

Example derived_factory_shares :
  let empty := {| rngs := []; idxs := [] |} in
  ((let! f := email_factory in Make f []) empty).1 = Returns "olivia.martinez+0@example.com"
  ∧ ((let! f := email_factory in
      let! f' := WithState f inactive in
      let! x := Make f' ["inactive"] in
      let! y := Make f [] in
      pret (x, y)) empty).1
    = Returns ("olivia.martinez+0@example.com (inactive)", "paul.gonzalez+0@example.com").
Proof. split; vm_compute; reflexivity. Qed.

(** The first draw of the generator seeded with 4 is above one half. *)
Definition half_faker : Faker * heap := (0%nat, {| rngs := [NewPCG 4 4]; idxs := [] |}).

(** [Float64] may return its upper bound: between two neighbouring numbers there is no other. *)
Example Float64_returns_max :
  ∃ h, Float64 half_faker.1 (Finite 1 0) (Finite (2 ^ 52 + 1) (-52)) half_faker.2
       = (Returns (Finite (2 ^ 52 + 1) (-52)), h).
Proof. eexists. vm_compute. reflexivity. Qed.

(** ** Reproducibility *)
Section Reproducible.
Context (fuel : nat).

(** A program on a faker sees nothing of the heap but its generator and changes nothing else. *)
Definition own {A} (p : Faker → prog heap A) : Prop :=
  (∀ f1 h1 f2 h2, rngs h1 !! f1 = rngs h2 !! f2 →
     (p f1 h1).1 = (p f2 h2).1 ∧ rngs (p f1 h1).2 !! f1 = rngs (p f2 h2).2 !! f2)
  ∧ ∀ f h g, g ≠ f → rngs (p f h).2 !! g = rngs h !! g.

Lemma own_const {A} (o : outcome A) : own (λ _ h, (o, h)).
Proof. done. Qed.

Lemma own_bind {A B} (p : Faker → prog heap A) (q : A → Faker → prog heap B) :
  own p → (∀ a, own (q a)) → own (λ f, let! a := p f in q a f).
Proof.
  intros [Hp1 Hp2] Hq. split.
  - intros f1 h1 f2 h2 E. destruct (Hp1 f1 h1 f2 h2 E) as [Ho Hr]. unfold pbind.
    destruct (p f1 h1) as [o1 k1], (p f2 h2) as [o2 k2]. cbn [fst snd] in *. subst o2.
    destruct o1 as [a|m|]; [by apply (Hq a)|done|done].
  - intros f h g Hg. specialize (Hp2 f h g Hg). unfold pbind. destruct (p f h) as [[a|m|] k]; cbn [snd] in *; try done.
    rewrite <- Hp2. by apply (Hq a).
Qed.

Lemma own_Uint64 : own Uint64.
Proof.
  split.
  - intros f1 h1 f2 h2 E. unfold Uint64. rewrite <- E. destruct (rngs h1 !! f1) as [p|] eqn:H1; [|cbn; by rewrite H1, E].
    destruct (pcg_Uint64 p) as [x p']. cbn. split; [done|].
    rewrite !list_lookup_insert_eq; [done|by eapply lookup_lt_Some; symmetry|by eapply lookup_lt_Some].
  - intros f h g Hg. unfold Uint64. destruct (rngs h !! f) as [p|]; [|done].
    destruct (pcg_Uint64 p) as [x p']. cbn. by rewrite list_lookup_insert_ne.
Qed.

Lemma own_reject n k thresh hi lo : own (λ f, reject_below k f n thresh hi lo).
Proof.
  revert hi lo. induction k as [|k IH]; intros hi lo; cbn [reject_below]; destruct (lo <? thresh);
    try apply own_const. apply own_bind; [apply own_Uint64|]. intros x. apply IH.
Qed.

Lemma own_uint64n n : own (λ f, uint64n fuel f n).
Proof.
  apply own_bind; [apply own_Uint64|]. intros x. destruct (Z.land n (n - 1) =? 0); [apply own_const|].
  cbv zeta. destruct ((x * n) `mod` 2 ^ 64 <? n); [apply own_reject|apply own_const].
Qed.

Lemma own_IntN n : own (λ f, IntN fuel f n).
Proof. unfold IntN. destruct (n <=? 0); [apply own_const|apply own_uint64n]. Qed.
Lemma own_Int64N n : own (λ f, Int64N fuel f n).
Proof. unfold Int64N. destruct (n <=? 0); [apply own_const|apply own_uint64n]. Qed.

Lemma own_Pick items : own (λ f, Pick fuel f items).
Proof.
  unfold Pick. destruct items as [|x items]; [apply own_const|].
  apply own_bind; [apply own_IntN|]. intros i. apply own_const.
Qed.

Lemma own_bytes n : own (λ f, random_bytes fuel f n).
Proof.
  induction n as [|n IH]; cbn [random_bytes]; [apply own_const|].
  apply own_bind; [apply own_IntN|]. intros b. apply own_bind; [apply IH|]. intros l. apply own_const.
Qed.

Lemma own_words n : own (λ f, pick_words fuel f n).
Proof.
  induction n as [|n IH]; cbn [pick_words]; [apply own_const|].
  apply own_bind; [apply own_Pick|]. intros b. apply own_bind; [apply IH|]. intros l. apply own_const.
Qed.

Lemma own_map {A B} (g : A → B) p : own p → own (λ f, let! a := p f in pret (g a)).
Proof. intros Hp. apply own_bind; [done|]. intros a. apply own_const. Qed.

Lemma own_Name : own (Name fuel).
Proof. apply own_bind; [apply own_Pick|]. intros a. apply own_map, own_Pick. Qed.

Lemma own_Email seq : own (λ f, Email fuel f seq).
Proof. apply own_bind; [apply own_Pick|]. intros a. apply own_map, own_Pick. Qed.

Lemma own_Sentence n : own (λ f, Sentence fuel f n).
Proof.
  unfold Sentence. destruct (n <=? 0); [apply own_const|]. apply own_bind; [apply own_words|].
  intros l. destruct (String.concat " " l); apply own_const.
Qed.

Lemma own_Int min max : own (λ f, Int fuel f min max).
Proof. unfold Int. destruct (min >=? max); [apply own_const|apply own_map, own_IntN]. Qed.

Lemma own_Price min max : own (λ f, Price fuel f min max).
Proof. unfold Price. destruct (min >=? max); [apply own_const|apply own_map, own_Int64N]. Qed.

Lemma own_call c : own (fake_call fuel c).
Proof.
  destruct c; cbn [fake_call]; apply own_map;
    first [apply own_Int | apply own_Price | apply own_Name | apply own_Email | apply own_Sentence
          | apply own_Pick | apply own_map, own_Uint64 | apply own_map, own_IntN | apply own_map, own_bytes].
Qed.

(** The outcomes of the calls on one faker. *)
Definition outcomes_of (f : Faker) (l : list (Faker * outcome fake_value)) : list (outcome fake_value) :=
  map snd (filter (λ r, r.1 = f) l).
Definition calls_of (f : Faker) (l : list (Faker * fake)) : list fake := map snd (filter (λ r, r.1 = f) l).

(** a faker is reproducible: what the calls on it return depends only on its seed and on those
    calls, not on the other fakers nor on how the calls on them are interleaved. *)
Theorem faker_reproducible (seed : Z) (f : Faker) (h : heap) (calls : list (Faker * fake)) :
  rngs h !! f = Some (NewPCG seed seed) →
  outcomes_of f (fake_trace fuel calls h)
  = outcomes_of 0%nat (fake_trace fuel (map (pair 0%nat) (calls_of f calls)) {| rngs := [NewPCG seed seed]; idxs := [] |}).
Proof.
  set (h0 := {| rngs := [NewPCG seed seed]; idxs := [] |}). intros Hf.
  assert (E : rngs h !! f = rngs h0 !! 0%nat) by done. clear Hf. clearbody h0. clear seed. revert h h0 E.
  induction calls as [|[g c] calls IH]; intros h h0 E; [done|].
  destruct (own_call c) as [Htwin Hother]. unfold outcomes_of, calls_of in *. cbn [fake_trace map].
  destruct (decide (g = f)) as [->|Hne].
  - destruct (Htwin f h 0%nat h0 E) as [Ho Hr].
    rewrite (filter_cons_True _ (f, c)) by done. cbn [map fake_trace snd].
    destruct (fake_call fuel c f h) as [o1 k1], (fake_call fuel c 0%nat h0) as [o2 k2]. cbn [fst snd] in *. subst o2.
    rewrite !filter_cons_True by done. cbn [map snd]. f_equal. by apply IH.
  - rewrite (filter_cons_False _ (g, c)) by done.
    pose proof (Hother g h f ltac:(congruence)) as Hg. destruct (fake_call fuel c g h) as [o1 k1]. cbn [snd] in Hg.
    rewrite filter_cons_False by done. apply IH. congruence.
Qed.
End Reproducible.

(** Two fakers of the same seed whose calls are interleaved. *)
Example faker_reproducible_witness :
  let h := {| rngs := [NewPCG 9 9; NewPCG 7 7]; idxs := [] |} in
  outcomes_of 1%nat (fake_trace 0 [(1%nat, AFirstName); (0%nat, ABool); (1%nat, AInt 1 6)] h)
  = outcomes_of 0%nat (fake_trace 0 [(0%nat, AFirstName); (0%nat, AInt 1 6)] {| rngs := [NewPCG 7 7]; idxs := [] |}).
Proof.
  exact (faker_reproducible 0 7 1%nat {| rngs := [NewPCG 9 9; NewPCG 7 7]; idxs := [] |}
           [(1%nat, AFirstName); (0%nat, ABool); (1%nat, AInt 1 6)] eq_refl).
Defined.
