(* ===== verification/Io.v ===== *)
(** * Streams, buffers, TLS and runtime settings

    [Io.v] models infra/io/stream.go on a model of [bufio.Scanner], infra/pool (buffer.go, pool.go),
    infra/security/tls.go and infra/profiling/tuning.go.  A reader is the list of what its reads
    give; the files and certificates of the TLS helpers are parameters. *)

From Stdlib Require Import Ascii.
From S2P Require Import Prelude Errors.

(** ** bufio.Scanner *)
Section Scanner.

(** What a reader has to give: its chunks, then the error of every later read. *)
Record reader := { chunks : list (list ascii); final : error }.
Definition EOF : error := ESentinel "EOF".
(** [err == io.EOF]. *)
Definition is_EOF (e : error) : bool := match e with ESentinel n => (n =? "EOF")%string | _ => false end.
Definition ErrTooLong : error := ESentinel "bufio.Scanner: token too long".
Definition ErrNoProgress : error := ESentinel "multiple Read calls return no data or error".

(** [Read] into a slice of [k] bytes. *)
Definition Read (k : nat) (r : reader) : list ascii * option error * reader :=
  match chunks r with
  | [] => ([], Some (final r), r)
  | c :: cs =>
      if length c <=? k then (c, None, {| chunks := cs; final := final r |})
      else (take k c, None, {| chunks := drop k c :: cs; final := final r |})
  end.

(** [sc_win] is [buf[start:end]]; [sc_len] is the length of the buffer. *)
Record scanner := {
  sc_r : reader;
  sc_start : nat;
  sc_win : list ascii;
  sc_len : nat;
  maxTokenSize : nat;
  sc_err : option error;
  sc_token : list ascii
}.

(** [bufio.NewScanner] followed by [Buffer] with a buffer of capacity [n] and maximum [max]. *)
Definition NewScanner (r : reader) (n max : nat) : scanner :=
  {| sc_r := r; sc_start := 0; sc_win := []; sc_len := n; maxTokenSize := max; sc_err := None;
     sc_token := [] |}.

Definition with_window (start : nat) (win : list ascii) (s : scanner) : scanner :=
  {| sc_r := sc_r s; sc_start := start; sc_win := win; sc_len := sc_len s;
     maxTokenSize := maxTokenSize s; sc_err := sc_err s; sc_token := sc_token s |}.
Definition with_token (t : list ascii) (s : scanner) : scanner :=
  {| sc_r := sc_r s; sc_start := sc_start s; sc_win := sc_win s; sc_len := sc_len s;
     maxTokenSize := maxTokenSize s; sc_err := sc_err s; sc_token := t |}.
Definition with_len (n : nat) (s : scanner) : scanner :=
  {| sc_r := sc_r s; sc_start := 0; sc_win := sc_win s; sc_len := n;
     maxTokenSize := maxTokenSize s; sc_err := sc_err s; sc_token := sc_token s |}.
Definition setErr (err : error) (s : scanner) : scanner :=
  {| sc_r := sc_r s; sc_start := sc_start s; sc_win := sc_win s; sc_len := sc_len s;
     maxTokenSize := maxTokenSize s;
     sc_err := match sc_err s with
               | None => Some err
               | Some e => if is_EOF e then Some err else Some e
               end;
     sc_token := sc_token s |}.
Definition sc_Err (s : scanner) : option error :=
  match sc_err s with Some e => if is_EOF e then None else Some e | None => None end.

Definition newline : ascii := "010"%char.
Definition is_newline (c : ascii) : bool := Ascii.eqb c newline.

(** The bytes before the first newline and those after it. *)
Fixpoint cut_line (l : list ascii) : option (list ascii * list ascii) :=
  match l with
  | [] => None
  | c :: l =>
      if is_newline c then Some ([], l)
      else match cut_line l with Some (line, rest) => Some (c :: line, rest) | None => None end
  end.

Definition dropCR (l : list ascii) : list ascii :=
  match last l with
  | Some c => if Ascii.eqb c "013" then take (length l - 1) l else l
  | None => l
  end.

(** [ScanLines]: the advance and the token. *)
Definition ScanLines (data : list ascii) (atEOF : bool) : nat * option (list ascii) :=
  match cut_line data with
  | Some (line, _) => (S (length line), Some (dropCR line))
  | None =>
      match data with
      | [] => (0, None)
      | _ => if atEOF then (length data, Some (dropCR data)) else (0, None)
      end
  end.

(** The reads of one turn: at most 101 without a byte. *)
Fixpoint fill (tries : nat) (s : scanner) : scanner :=
  let '(bs, err, r) := Read (sc_len s - (sc_start s + length (sc_win s))) (sc_r s) in
  let s := {| sc_r := r; sc_start := sc_start s; sc_win := sc_win s ++ bs; sc_len := sc_len s;
              maxTokenSize := maxTokenSize s; sc_err := sc_err s; sc_token := sc_token s |} in
  match err, bs with
  | Some err, _ => setErr err s
  | None, _ :: _ => s
  | None, [] => match tries with O => setErr ErrNoProgress s | S tries => fill tries s end
  end.

(** The window moves to the front of the buffer. *)
Definition compact (s : scanner) : scanner :=
  if bool_decide (0 < sc_start s ∧ (sc_start s + length (sc_win s) = sc_len s ∨ sc_len s / 2 < sc_start s))
  then with_window 0 (sc_win s) s else s.

(** [Scan]; [None] when the fuel does not suffice. *)
Fixpoint Scan (fuel : nat) (s : scanner) : option (bool * scanner) :=
  match fuel with
  | O => None
  | S fuel =>
      let '(advance, token) :=
        if bool_decide (sc_win s ≠ [] ∨ is_Some (sc_err s))
        then ScanLines (sc_win s) (bool_decide (is_Some (sc_err s))) else (0, None) in
      let s := with_window (sc_start s + advance) (drop advance (sc_win s)) s in
      match token with
      | Some t => Some (true, with_token t s)
      | None =>
          if bool_decide (is_Some (sc_err s)) then Some (false, with_window 0 [] s)
          else
            let s := compact s in
            if sc_start s + length (sc_win s) =? sc_len s
            then if maxTokenSize s <=? sc_len s then Some (false, setErr ErrTooLong s)
                 else Scan fuel (fill 100 (with_len (min (if sc_len s =? 0 then 4096 else sc_len s * 2) (maxTokenSize s)) s))
            else Scan fuel (fill 100 s)
      end
  end.

(** ** StreamProcess *)
Section Process.
Context {S : Type} (processLine : list ascii → S → option error * S).

Fixpoint process_loop (fuel : nat) (sc : scanner) (s : S) : outcome (option error) * S :=
  match fuel with
  | O => (Hangs, s)
  | Datatypes.S fuel' =>
      match Scan fuel sc with
      | None => (Hangs, s)
      | Some (false, sc) => (Returns (sc_Err sc), s)
      | Some (true, sc) =>
          match processLine (sc_token sc) s with
          | (Some err, s) => (Returns (Some err), s)
          | (None, s) => process_loop fuel' sc s
          end
      end
  end.

Definition defaultBufSize : Z := 64 * 1024.
Definition buf_size (bufSize : Z) : nat := Z.to_nat (if bool_decide (bufSize ≤ 0)%Z then defaultBufSize else bufSize).

Definition StreamProcess (fuel : nat) (r : reader) (bufSize : Z) (s : S) : outcome (option error) * S :=
  process_loop fuel (NewScanner r (buf_size bufSize) (buf_size bufSize)) s.

(** ** The lines of a text *)

Fixpoint lines (l : list ascii) : list (list ascii) :=
  match l with
  | [] => []
  | c :: l =>
      if is_newline c then [] :: lines l
      else match lines l with [] => [[c]] | x :: xs => (c :: x) :: xs end
  end.

(** Each line shorter than the buffer is processed in turn; the first other one ends it. *)
Fixpoint process_lines (B : nat) (ls : list (list ascii)) (err : option error) (s : S) : option error * S :=
  match ls with
  | [] => (err, s)
  | l :: ls =>
      if length l <? B then
        match processLine (dropCR l) s with
        | (Some e, s) => (Some e, s)
        | (None, s) => process_lines B ls err s
        end
      else (Some ErrTooLong, s)
  end.
End Process.
End Scanner.

(** ** Properties of the scanner *)

Lemma cut_line_app_Some a b line rest :
  cut_line a = Some (line, rest) → cut_line (a ++ b) = Some (line, rest ++ b).
Proof.
  revert line. induction a as [|c a IH]; intros line; cbn [cut_line app]; [done|].
  destruct (is_newline c); [by intros [= <- <-]|].
  destruct (cut_line a) as [[l r]|]; [|done]. intros [= <- <-]. by rewrite (IH l).
Qed.

Lemma cut_line_app_None a b :
  cut_line a = None →
  cut_line (a ++ b) = match cut_line b with Some (l, r) => Some (a ++ l, r) | None => None end.
Proof.
  induction a as [|c a IH]; cbn [cut_line app]; [by destruct (cut_line b) as [[]|]|].
  destruct (is_newline c); [done|]. destruct (cut_line a) as [[]|]; [done|]. intros _.
  rewrite IH by done. by destruct (cut_line b) as [[]|].
Qed.

Lemma cut_line_drop a line rest :
  cut_line a = Some (line, rest) → drop (S (length line)) a = rest ∧ length a = S (length line) + length rest.
Proof.
  revert line. induction a as [|c a IH]; intros line; cbn [cut_line]; [done|].
  destruct (is_newline c); [by intros [= <- <-]|].
  destruct (cut_line a) as [[l r]|]; [|done]. intros [= <- <-]. destruct (IH l) as [Hd Hl]; [done|].
  split; [done|]. cbn. lia.
Qed.

Lemma lines_cut a line rest : cut_line a = Some (line, rest) → lines a = line :: lines rest.
Proof.
  revert line. induction a as [|c a IH]; intros line; cbn [cut_line lines]; [done|].
  destruct (is_newline c); [by intros [= <- <-]|].
  destruct (cut_line a) as [[l r]|]; [|done]. intros [= <- <-]. by rewrite (IH l).
Qed.

Lemma lines_last a : cut_line a = None → a ≠ [] → lines a = [a].
Proof.
  induction a as [|c a IH]; cbn [cut_line lines]; [done|]. destruct (is_newline c); [done|].
  destruct (cut_line a) as [[]|]; [done|]. intros _ _. destruct a as [|c' a]; [done|]. by rewrite IH.
Qed.

(** What is still to be scanned, and a scanner of buffer size [B] in the middle of its work. *)
Definition remaining (s : scanner) : list ascii := sc_win s ++ concat (chunks (sc_r s)).
Definition ready (B : nat) (s : scanner) : Prop :=
  sc_len s = B ∧ maxTokenSize s = B ∧ sc_err s = None ∧ sc_start s + length (sc_win s) ≤ B
  ∧ Forall (λ c, c ≠ []) (chunks (sc_r s)).

Lemma fill_end tries s :
  chunks (sc_r s) = [] → sc_err s = None →
  sc_err (fill tries s) = Some (final (sc_r s)) ∧ sc_win (fill tries s) = sc_win s.
Proof.
  intros Hc He. destruct tries; cbn [fill]; unfold Read; rewrite Hc; cbn; rewrite He; split; try done; apply app_nil_r.
Qed.

Lemma fill_more B tries s :
  ready B s → chunks (sc_r s) ≠ [] → sc_start s + length (sc_win s) < B →
  ready B (fill tries s) ∧ remaining (fill tries s) = remaining s
  ∧ final (sc_r (fill tries s)) = final (sc_r s)
  ∧ length (concat (chunks (sc_r (fill tries s)))) < length (concat (chunks (sc_r s))).
Proof.
  intros (Hl & Hm & He & Hw & Hne) Hc Hroom. unfold ready, remaining.
  destruct (chunks (sc_r s)) as [|c cs] eqn:Hcs; [done|]. apply Forall_cons in Hne as [Hc0 Hne].
  assert (Hf : fill tries s
    = let '(bs, _, r) := Read (sc_len s - (sc_start s + length (sc_win s))) (sc_r s) in
      {| sc_r := r; sc_start := sc_start s; sc_win := sc_win s ++ bs; sc_len := sc_len s;
         maxTokenSize := maxTokenSize s; sc_err := sc_err s; sc_token := sc_token s |}).
  { destruct tries; cbn [fill]; unfold Read; rewrite Hcs; destruct (length c <=? _) eqn:Hle;
      (destruct c as [|b c]; [done|]); try done.
    all: replace (sc_len s - (sc_start s + length (sc_win s))) with (S (B - (sc_start s + length (sc_win s)) - 1)) by lia.
    all: done. }
  rewrite Hf. unfold Read. rewrite Hcs. destruct (Nat.leb_spec (length c) (sc_len s - (sc_start s + length (sc_win s)))) as [Hle|Hgt];
    cbn [sc_len maxTokenSize sc_err sc_start sc_win sc_r chunks final concat]; rewrite !length_app.
  - split_and!; try done; [lia|by rewrite <-app_assoc|]. destruct c; [done|]. cbn. lia.
  - rewrite length_take, length_drop. split_and!; try done.
    + lia.
    + constructor; [|done]. intros Hd. apply (f_equal length) in Hd. rewrite length_drop in Hd. cbn in Hd. lia.
    + rewrite <-!app_assoc. f_equal. by rewrite app_assoc, take_drop.
    + lia.
Qed.

(** What [Scan] answers for the text that remains. *)
Definition scan_answer (B : nat) (s : scanner) (r : bool * scanner) : Prop :=
  match cut_line (remaining s) with
  | Some (line, rest) =>
      if length line <? B
      then r.1 = true ∧ sc_token r.2 = dropCR line ∧ ready B r.2 ∧ remaining r.2 = rest
           ∧ final (sc_r r.2) = final (sc_r s)
      else r.1 = false ∧ sc_err r.2 = Some ErrTooLong
  | None =>
      match remaining s with
      | [] => r.1 = false ∧ sc_err r.2 = Some (final (sc_r s))
      | l => if length l <? B
             then r.1 = true ∧ sc_token r.2 = dropCR l ∧ sc_err r.2 = Some (final (sc_r s)) ∧ sc_win r.2 = []
             else r.1 = false ∧ sc_err r.2 = Some ErrTooLong
      end
  end.

Lemma scan_answer_cong B s s' r :
  remaining s' = remaining s → final (sc_r s') = final (sc_r s) → scan_answer B s' r → scan_answer B s r.
Proof. unfold scan_answer. by intros -> ->. Qed.

Lemma compact_spec B s :
  ready B s → ready B (compact s) ∧ sc_win (compact s) = sc_win s ∧ sc_r (compact s) = sc_r s
  ∧ (sc_start (compact s) + length (sc_win s) = B → sc_start (compact s) = 0).
Proof.
  intros (Hl & Hm & He & Hw & Hne). unfold compact. case_bool_decide as Hc.
  - split_and!; try done. unfold ready. cbn. split_and!; try done. lia.
  - split_and!; try done. intros Hfull. apply not_and_l in Hc. lia.
Qed.

(** The buffer is full and has no newline. *)
Lemma scan_too_long B s s' :
  0 < B → cut_line (sc_win s) = None → length (sc_win s) = B → sc_err s' = Some ErrTooLong →
  scan_answer B s (false, s').
Proof.
  intros HB Hcut Hfull He. unfold scan_answer. unfold remaining at 1. rewrite cut_line_app_None by done.
  destruct (cut_line (concat _)) as [[l r]|].
  - rewrite (proj2 (Nat.ltb_ge _ _)); [done|]. rewrite length_app. lia.
  - destruct (remaining s) as [|c rest] eqn:Hrem.
    + apply (f_equal length) in Hrem. unfold remaining in Hrem. rewrite length_app in Hrem. cbn in Hrem. lia.
    + rewrite (proj2 (Nat.ltb_ge _ _)); [done|]. rewrite <-Hrem. unfold remaining. rewrite length_app. lia.
Qed.

(** Scanning after the last read. *)
Lemma scan_last fuel s err :
  sc_err s = Some err → cut_line (sc_win s) = None →
  ∃ s', Scan (S fuel) s = Some (match sc_win s with [] => false | _ => true end, s')
        ∧ sc_err s' = Some err ∧ sc_win s' = []
        ∧ (sc_win s ≠ [] → sc_token s' = dropCR (sc_win s)).
Proof.
  intros He Hcut. cbn [Scan]. rewrite bool_decide_eq_true_2 by (right; rewrite He; by eexists).
  unfold ScanLines. rewrite Hcut, (bool_decide_eq_true_2 (is_Some (sc_err s))) by (rewrite He; by eexists).
  destruct (sc_win s) as [|c w] eqn:Hw.
  - cbn [sc_err with_window]. rewrite bool_decide_eq_true_2 by (rewrite He; by eexists).
    eexists. split; [done|]. by cbn [sc_err sc_win with_window].
  - eexists. split; [done|]. cbn [sc_err sc_win sc_token with_window with_token]. split_and!; try done.
    by rewrite drop_ge.
Qed.

(** [Scan] from a scanner in the middle of its work: it ends, and answers by the remaining text
    whatever the chunks are. *)
Lemma Scan_spec B fuel s :
  0 < B → ready B s → length (concat (chunks (sc_r s))) + 2 ≤ fuel →
  ∃ r, Scan fuel s = Some r ∧ scan_answer B s r.
Proof.
  intros HB. revert s. induction fuel as [|fuel IH]; intros s Hs Hfuel; [lia|].
  pose proof Hs as (Hl & Hm & He & Hw & Hne). cbn [Scan].
  rewrite (bool_decide_eq_false_2 (is_Some (sc_err s))) by (rewrite He; by intros [? ?]).
  destruct (cut_line (sc_win s)) as [[line rest]|] eqn:Hcut.
  { destruct (cut_line_drop _ _ _ Hcut) as [Hd Hlen]. assert (sc_win s ≠ []) by by intros Heq; rewrite Heq in Hcut.
    rewrite bool_decide_eq_true_2 by by left. unfold ScanLines. rewrite Hcut, Hd.
    eexists. split; [done|]. unfold scan_answer. unfold remaining at 1. rewrite (cut_line_app_Some _ _ _ _ Hcut).
    rewrite (proj2 (Nat.ltb_lt _ _)) by lia. split_and!; try done. unfold ready. cbn. split_and!; try done. lia. }
  assert (Htok : (if bool_decide (sc_win s ≠ [] ∨ is_Some (sc_err s)) then ScanLines (sc_win s) false else (0, None))
                 = (0, None)).
  { case_bool_decide; [|done]. unfold ScanLines. rewrite Hcut. by destruct (sc_win s). }
  rewrite Htok. replace (with_window (sc_start s + 0) (drop 0 (sc_win s)) s) with s
    by (unfold with_window; rewrite Nat.add_0_r, drop_0; by destruct s).
  rewrite (bool_decide_eq_false_2 (is_Some (sc_err s))) by (rewrite He; by intros [? ?]).
  destruct (compact_spec B s Hs) as (Hs1 & Hw1 & Hr1 & Hfull1). pose proof Hs1 as (Hl1 & Hm1 & He1 & Hb1 & _).
  rewrite Hl1, Hm1, Hw1 in *. destruct (Nat.eqb_spec (sc_start (compact s) + length (sc_win s)) B) as [Hfull|Hroom].
  { rewrite Nat.leb_refl. eexists. split; [done|]. apply scan_too_long; [done|done| |].
    - specialize (Hfull1 Hfull). lia.
    - cbn. by rewrite He1. }
  assert (Hcong : ∀ r, scan_answer B (compact s) r → scan_answer B s r).
  { intros r. apply scan_answer_cong; [|by rewrite Hr1]. unfold remaining. by rewrite Hw1, Hr1. }
  destruct (decide (chunks (sc_r s) = [])) as [Hnil|Hmore].
  - destruct (fill_end 100 (compact s)) as [He2 Hw2]; [by rewrite Hr1|done|].
    destruct fuel as [|fuel]; [lia|].
    destruct (scan_last fuel (fill 100 (compact s)) _ He2) as (s' & -> & He' & Hwin' & Htok'); [by rewrite Hw2, Hw1|].
    eexists. split; [done|]. unfold scan_answer, remaining. rewrite Hnil. cbn [concat].
    rewrite app_nil_r, Hcut, Hw2, Hw1, <-Hr1. rewrite Hw2, Hw1 in Htok'.
    destruct (sc_win s) as [|c w] eqn:Hwin; [done|]. rewrite (proj2 (Nat.ltb_lt _ _)) by lia.
    split_and!; try done. by apply Htok'.
  - destruct (fill_more B 100 (compact s) Hs1) as (Hs2 & Hrem2 & Hfin2 & Hlt2); [by rewrite Hr1|rewrite Hw1; lia|].
    rewrite Hr1 in Hlt2. destruct (IH _ Hs2) as (r & Hscan & Hans); [lia|].
    exists r. split; [done|]. apply Hcong. by eapply scan_answer_cong.
Qed.

Lemma sc_Err_too_long s : sc_err s = Some ErrTooLong → sc_Err s = Some ErrTooLong.
Proof. unfold sc_Err. by intros ->. Qed.

(** The error a reader leaves: none at the end of the file. *)
Definition final_error (r : reader) : option error := if is_EOF (final r) then None else Some (final r).

Lemma sc_Err_final s r : sc_err s = Some (final r) → sc_Err s = final_error r.
Proof. unfold sc_Err, final_error. by intros ->. Qed.

Lemma process_loop_spec {S} (processLine : list ascii → S → option error * S) B fuel sc s :
  0 < B → ready B sc → length (remaining sc) + 2 ≤ fuel →
  process_loop processLine fuel sc s
  = let '(err, s') := process_lines processLine B (lines (remaining sc)) (final_error (sc_r sc)) s in
    (Returns err, s').
Proof.
  intros HB. revert sc s. induction fuel as [|fuel IH]; intros sc s Hsc Hfuel; [lia|]. cbn [process_loop].
  destruct (Scan_spec B (Datatypes.S fuel) sc HB Hsc) as ([b sc'] & -> & Hans).
  { unfold remaining in Hfuel. rewrite length_app in Hfuel. lia. }
  unfold scan_answer in Hans. cbn [fst snd] in Hans.
  destruct (cut_line (remaining sc)) as [[line rest]|] eqn:Hcut.
  - rewrite (lines_cut _ _ _ Hcut). cbn [process_lines]. destruct (cut_line_drop _ _ _ Hcut) as [_ Hlen].
    destruct (length line <? B).
    + destruct Hans as (-> & -> & Hsc' & Hrem' & Hfin'). destruct (processLine (dropCR line) s) as [[e|] s1]; [done|].
      rewrite IH by (try done; rewrite Hrem'; lia). unfold final_error. by rewrite Hrem', Hfin'.
    + destruct Hans as [-> He]. by rewrite (sc_Err_too_long _ He).
  - destruct (remaining sc) as [|c l] eqn:Hrem.
    { destruct Hans as [-> He]. by rewrite (sc_Err_final _ _ He). }
    rewrite lines_last by done. cbn [process_lines]. destruct (length (c :: l) <? B).
    + destruct Hans as (-> & -> & He & Hw). destruct (processLine _ s) as [[e|] s1]; [done|].
      destruct fuel as [|fuel]; [cbn in Hfuel; lia|]. cbn [process_loop].
      destruct (scan_last fuel sc' _ He) as (s2 & Hs2 & He2 & _ & _); [by rewrite Hw|].
      rewrite Hw in Hs2. rewrite Hs2. by rewrite (sc_Err_final _ _ He2).
    + destruct Hans as [-> He]. by rewrite (sc_Err_too_long _ He).
Qed.


(** A line of four bytes does not fit a buffer of four; one of three does. *)
Definition text (s : string) : list ascii := String.list_ascii_of_string s.

(** ** infra/pool *)

(** [sync.Pool]: [Get] takes any of the objects or makes a new one, and objects may be dropped at
    any time; [pick] says which object is taken, if any. *)
Section Pools.
Context {T : Type}.
Record ObjectPool := { factory : T; pooled : list T }.
Definition NewObjectPool (factory : T) : ObjectPool := {| factory := factory; pooled := [] |}.
Definition ObjectPool_Get (pick : option nat) (p : ObjectPool) : T * ObjectPool :=
  match pick ≫= λ i, pooled p !! i, pick with
  | Some x, Some i => (x, {| factory := factory p; pooled := delete i (pooled p) |})
  | _, _ => (factory p, p)
  end.
Definition ObjectPool_Put (x : T) (p : ObjectPool) : ObjectPool :=
  {| factory := factory p; pooled := x :: pooled p |}.
Definition pool_drop (i : nat) (p : ObjectPool) : ObjectPool :=
  {| factory := factory p; pooled := delete i (pooled p) |}.
End Pools.
Arguments ObjectPool : clear implicits.

(** A buffer: its unread bytes and its capacity. *)
Record Buffer := { b_bytes : list ascii; b_cap : nat }.
Definition Buffer_Reset (b : Buffer) : Buffer := {| b_bytes := []; b_cap := b_cap b |}.
Definition new_buffer : Buffer := {| b_bytes := []; b_cap := 0 |}.

Definition DefaultMaxBufferSize : Z := 64 * 1024.
Record BufferPool := { bp_pool : ObjectPool Buffer; maxSize : Z }.
Definition NewBufferPool (maxSize : Z) : BufferPool :=
  {| bp_pool := NewObjectPool new_buffer;
     maxSize := if bool_decide (maxSize ≤ 0)%Z then DefaultMaxBufferSize else maxSize |}.
Definition BufferPool_Get (pick : option nat) (bp : BufferPool) : Buffer * BufferPool :=
  let '(b, p) := ObjectPool_Get pick (bp_pool bp) in
  (Buffer_Reset b, {| bp_pool := p; maxSize := maxSize bp |}).
Definition BufferPool_Put (b : option Buffer) (bp : BufferPool) : BufferPool :=
  match b with
  | None => bp
  | Some b =>
      if bool_decide (maxSize bp < Z.of_nat (b_cap b))%Z then bp
      else {| bp_pool := ObjectPool_Put (Buffer_Reset b) (bp_pool bp); maxSize := maxSize bp |}
  end.

Inductive pool_move := PGet (pick : option nat) | PPut (b : option Buffer) | PDrop (i : nat).
Definition pool_step (bp : BufferPool) (m : pool_move) : BufferPool :=
  match m with
  | PGet pick => (BufferPool_Get pick bp).2
  | PPut b => BufferPool_Put b bp
  | PDrop i => {| bp_pool := pool_drop i (bp_pool bp); maxSize := maxSize bp |}
  end.

Definition pool_inv (bp : BufferPool) : Prop :=
  Forall (λ b, b_bytes b = [] ∧ (Z.of_nat (b_cap b) ≤ maxSize bp)%Z) (pooled (bp_pool bp))
  ∧ factory (bp_pool bp) = new_buffer.

Lemma buffer_step_inv bp m : pool_inv bp → pool_inv (pool_step bp m).
Proof.
  intros [Hall Hf]. destruct m as [pick|[b|]|i]; cbn [pool_step].
  - unfold BufferPool_Get, ObjectPool_Get. destruct pick as [i|]; cbn; [|by split].
    destruct (pooled (bp_pool bp) !! i); [|by split]. split; [by apply Forall_delete|done].
  - unfold BufferPool_Put. case_bool_decide; [by split|]. split; [|done]. cbn. constructor; [|done]. split; [done|]. cbn. lia.
  - by split.
  - split; [by apply Forall_delete|done].
Qed.

(** Whatever is put into a buffer pool and taken from it, in any order and by any choice of the
    underlying pool, a buffer that is taken is empty and the pool holds no buffer above its
    limit. *)
Lemma buffer_pool_bounded (n : Z) (ms : list pool_move) (pick : option nat) :
  let bp := foldl pool_step (NewBufferPool n) ms in
  b_bytes (BufferPool_Get pick bp).1 = []
  ∧ Forall (λ b, (Z.of_nat (b_cap b) ≤ if bool_decide (n ≤ 0)%Z then DefaultMaxBufferSize else n)%Z)
      (pooled (bp_pool bp)).
Proof.
  cbn zeta. assert (Hinv : ∀ bp ms, pool_inv bp →
    pool_inv (foldl pool_step bp ms) ∧ maxSize (foldl pool_step bp ms) = maxSize bp).
  { clear. intros bp ms. revert bp. induction ms as [|m ms IH]; intros bp Hbp; [done|]. cbn [foldl].
    destruct (IH _ (buffer_step_inv bp m Hbp)) as [? Hm]. split; [done|]. rewrite Hm.
    destruct m as [pick|[b|]|i]; cbn; try done.
    - unfold BufferPool_Get. by destruct (ObjectPool_Get _ _).
    - by case_bool_decide. }
  destruct (Hinv (NewBufferPool n) ms) as [[Hall _] Hm]; [split; [constructor|done]|]. split.
  - unfold BufferPool_Get. by destruct (ObjectPool_Get _ _).
  - eapply Forall_impl; [exact Hall|]. intros b [_ Hb]. by rewrite Hm in Hb.
Qed.

(** ** infra/security/tls.go *)
Section TLS.
Context {Cert CertPool : Type}.
Context (LoadX509KeyPair : string → string → result error Cert).
Context (ReadFile : string → result error (list ascii)).
(** [AppendCertsFromPEM] on a new pool; [None] when no certificate was parsed. *)
Context (AppendCertsFromPEM : list ascii → option CertPool).

Definition VersionTLS12 : Z := 771.
Definition TLS_ECDHE_RSA_WITH_AES_256_GCM_SHA384 : Z := 49200.
Definition TLS_ECDHE_RSA_WITH_AES_128_GCM_SHA256 : Z := 49199.
Definition TLS_ECDHE_ECDSA_WITH_AES_256_GCM_SHA384 : Z := 49196.
Definition TLS_ECDHE_ECDSA_WITH_AES_128_GCM_SHA256 : Z := 49195.
Inductive ClientAuthType := NoClientCert | RequireAndVerifyClientCert.

(** The fields the helpers set; the others are zero. *)
Record tls_Config := {
  MinVersion : Z;
  Certificates : list Cert;
  CipherSuites : list Z;
  RootCAs : option CertPool;
  ClientCAs : option CertPool;
  ClientAuth : ClientAuthType
}.

Definition aead_suites : list Z :=
  [TLS_ECDHE_RSA_WITH_AES_256_GCM_SHA384; TLS_ECDHE_RSA_WITH_AES_128_GCM_SHA256;
   TLS_ECDHE_ECDSA_WITH_AES_256_GCM_SHA384; TLS_ECDHE_ECDSA_WITH_AES_128_GCM_SHA256].

Definition ServerTLSConfig (certFile keyFile : string) : result error tls_Config :=
  match LoadX509KeyPair certFile keyFile with
  | Err err => Err (Errorf_w "security: load TLS cert: " err)
  | Ok cert =>
      Ok {| MinVersion := VersionTLS12; Certificates := [cert]; CipherSuites := aead_suites;
            RootCAs := None; ClientCAs := None; ClientAuth := NoClientCert |}
  end.

Definition ClientTLSConfig (caFile : string) : result error tls_Config :=
  match ReadFile caFile with
  | Err err => Err (Errorf_w "security: read CA cert: " err)
  | Ok caCert =>
      match AppendCertsFromPEM caCert with
      | None => Err (EText "security: failed to parse CA certificate")
      | Some pool =>
          Ok {| MinVersion := VersionTLS12; Certificates := []; CipherSuites := [];
                RootCAs := Some pool; ClientCAs := None; ClientAuth := NoClientCert |}
      end
  end.

Definition MutualTLSConfig (certFile keyFile caFile : string) : result error tls_Config :=
  match LoadX509KeyPair certFile keyFile with
  | Err err => Err (Errorf_w "security: load mTLS cert: " err)
  | Ok cert =>
      match ReadFile caFile with
      | Err err => Err (Errorf_w "security: read CA cert for mTLS: " err)
      | Ok caCert =>
          match AppendCertsFromPEM caCert with
          | None => Err (EText "security: failed to parse CA certificate for mTLS")
          | Some pool =>
              Ok {| MinVersion := VersionTLS12; Certificates := [cert]; CipherSuites := aead_suites;
                    RootCAs := None; ClientCAs := Some pool; ClientAuth := RequireAndVerifyClientCert |}
          end
      end
  end.

(** A mutual configuration demands a client certificate signed by the given authority; it does not
    name that authority for the server's own certificate, so that a client that uses it checks
    the server against the system's roots. *)
Lemma MutualTLSConfig_policy certFile keyFile caFile c :
  MutualTLSConfig certFile keyFile caFile = Ok c →
  MinVersion c = VersionTLS12 ∧ CipherSuites c = aead_suites ∧ ClientAuth c = RequireAndVerifyClientCert
  ∧ RootCAs c = None
  ∧ ∃ cert pem pool, LoadX509KeyPair certFile keyFile = Ok cert ∧ ReadFile caFile = Ok pem
      ∧ AppendCertsFromPEM pem = Some pool ∧ Certificates c = [cert] ∧ ClientCAs c = Some pool.
Proof.
  unfold MutualTLSConfig. destruct (LoadX509KeyPair _ _) as [cert|]; [|done].
  destruct (ReadFile caFile) as [pem|]; [|done]. destruct (AppendCertsFromPEM pem) as [pool|] eqn:Hp; [|done].
  intros [= <-]. split_and!; try done. by exists cert, pem, pool.
Qed.
End TLS.

(** ** infra/profiling/tuning.go *)

(** The settings of the Go runtime. *)
Record runtime_settings := { gc_percent : Z; memory_limit : Z }.
Definition SetGCPercent (p : Z) (s : runtime_settings) : Z * runtime_settings :=
  (gc_percent s, {| gc_percent := if bool_decide (p < 0)%Z then -1 else p; memory_limit := memory_limit s |}).
Definition SetMemoryLimit (l : Z) (s : runtime_settings) : Z * runtime_settings :=
  (memory_limit s, {| gc_percent := gc_percent s;
                      memory_limit := if bool_decide (l < 0)%Z then memory_limit s else l |}).

Record TuningConfig := { GCPercent : Z; MemoryLimit : Z }.
Definition Apply_tuning (cfg : TuningConfig) (s : runtime_settings) : TuningConfig * runtime_settings :=
  let '(gc, s) := if bool_decide (GCPercent cfg = 0)%Z then (0%Z, s) else SetGCPercent (GCPercent cfg) s in
  let '(ml, s) := if bool_decide (MemoryLimit cfg = 0)%Z then (0%Z, s) else SetMemoryLimit (MemoryLimit cfg) s in
  ({| GCPercent := gc; MemoryLimit := ml |}, s).

Definition Validate_tuning (cfg : TuningConfig) : option error :=
  if bool_decide (GCPercent cfg < -1)%Z
  then Some (EText ("profiling: gc_percent must be >= -1, got " +:+ pretty (GCPercent cfg)))
  else if bool_decide (GCPercent cfg > 2000)%Z
  then Some (EText ("profiling: gc_percent must be <= 2000, got " +:+ pretty (GCPercent cfg)))
  else if bool_decide (MemoryLimit cfg < 0)%Z
  then Some (EText ("profiling: memory_limit must be >= 0, got " +:+ pretty (MemoryLimit cfg)))
  else None.

(** Applying what [Apply] returned restores the settings, except a percentage or a limit of 0,
    which the configuration cannot express. *)
Lemma Apply_restores cfg s :
  (-1 ≤ gc_percent s)%Z → (0 ≤ memory_limit s)%Z →
  let '(prev, s1) := Apply_tuning cfg s in
  let s2 := (Apply_tuning prev s1).2 in
  (gc_percent s ≠ 0%Z ∨ GCPercent cfg = 0%Z → gc_percent s2 = gc_percent s)
  ∧ (memory_limit s ≠ 0%Z ∨ MemoryLimit cfg = 0%Z → memory_limit s2 = memory_limit s)
  ∧ (gc_percent s = 0%Z → (0 < GCPercent cfg)%Z → gc_percent s2 = GCPercent cfg).
Proof.
  intros Hg Hm. destruct s as [g m], cfg as [cg cm]. cbn in *. unfold Apply_tuning, SetGCPercent, SetMemoryLimit. cbn.
  repeat case_bool_decide; cbn in *; repeat case_bool_decide; cbn in *; split_and!; lia.
Qed.
