(* ===== verification/Inbox.v ===== *)
(** * Deduplication: the inbox and idempotency keys

    [Inbox.v] models infra/events/inbox (store.go, processor.go, middleware.go) and
    infra/idempotency/store.go over the database of [Db.v].  The middleware is stated and
    proved against the interface [Deduplicator], which the inbox store implements.  Concurrent
    deliveries are interleaved at their calls, and a delivery may be cut by a crash at any
    point; [pstep] and [mstep] are those systems. *)

From S2P Require Import Prelude Errors Event Db.

(** ** The interface between the middleware and the store

    [seen] is the set of recorded identifiers.  A check reads it; a mark may fail before or
    after its effect, and adds the identifier when it succeeds. *)
Class Deduplicator (S : Type) := {
  IsProcessed : string → S → result error bool * S;
  MarkProcessed : string → string → S → result error bool * S;
  seen : S → gset string;
  IsProcessed_seen id s : seen (IsProcessed id s).2 = seen s;
  IsProcessed_ok id s b : (IsProcessed id s).1 = Ok b → b = bool_decide (id ∈ seen s);
  MarkProcessed_seen id ty s :
    seen (MarkProcessed id ty s).2 = seen s ∨ seen (MarkProcessed id ty s).2 = {[id]} ∪ seen s;
  MarkProcessed_ok id ty s b :
    (MarkProcessed id ty s).1 = Ok b →
    b = bool_decide (id ∉ seen s) ∧ seen (MarkProcessed id ty s).2 = {[id]} ∪ seen s
}.

(** ** The tables *)

Record inbox_row := { i_event_type : string; i_processed_at : time }.
Record CachedResponse := {
  StatusCode : Z; Body : string; resp_CreatedAt : time; ExpiresAt : time
}.

(** [inbox_events] and [idempotency_keys] by primary key, and the application's tables. *)
Record database (A : Type) := {
  inbox_events : gmap string inbox_row;
  idempotency_keys : gmap string CachedResponse;
  app : A
}.
Arguments inbox_events {A} _.
Arguments idempotency_keys {A} _.
Arguments app {A} _.

Section Stores.
Context {A H : Type}.
Notation database := (database A).
Notation world := (world database H).

Definition set_inbox (m : gmap string inbox_row) (d : database) : database :=
  {| inbox_events := m; idempotency_keys := idempotency_keys d; app := app d |}.
Definition set_keys (m : gmap string CachedResponse) (d : database) : database :=
  {| inbox_events := inbox_events d; idempotency_keys := m; app := app d |}.

(** [INSERT INTO inbox_events ... ON CONFLICT (id) DO NOTHING]: the rows affected. *)
Definition stmt_insert_inbox (id eventType : string) : statement database Z := λ k d,
  match inbox_events d !! id with
  | Some _ => Ok (0%Z, d)
  | None =>
      Ok (1%Z, set_inbox (<[id := {| i_event_type := eventType; i_processed_at := c_now k |}]>
                            (inbox_events d)) d)
  end.
Definition stmt_inbox_exists (id : string) : statement database bool := λ _ d,
  Ok (bool_decide (is_Some (inbox_events d !! id)), d).
Definition stmt_inbox_cleanup (cutoff : time) : statement database Z := λ _ d,
  let keep := filter (λ e : string * inbox_row, ¬ (i_processed_at e.2 < cutoff)%Z) (inbox_events d) in
  Ok (Z.of_nat (size (inbox_events d) - size keep), set_inbox keep d).

(** ** store.go *)

Definition store_IsProcessed (messageID : string) (w : world) : result error bool * world :=
  match Exec Pool (stmt_inbox_exists messageID) w with
  | (Err err, w) =>
      (Err (Errorf_w ("inbox store: is processed " +:+ Quote messageID +:+ ": ") err), w)
  | (Ok exists_, w) => (Ok exists_, w)
  end.

Definition store_MarkProcessed (messageID eventType : string) (w : world)
    : result error bool * world :=
  match Exec Pool (stmt_insert_inbox messageID eventType) w with
  | (Err err, w) =>
      (Err (Errorf_w ("inbox store: mark processed " +:+ Quote messageID +:+ ": ") err), w)
  | (Ok rows, w) =>
      match Ping w with
      | (Some err, w) =>
          (Err (Errorf_w ("inbox store: rows affected " +:+ Quote messageID +:+ ": ") err), w)
      | (None, w) => (Ok (bool_decide (0 < rows)%Z), w)
      end
  end.

(** [now] is the reading of the program's clock. *)
Definition store_Cleanup (now : time) (retention : Z) (w : world) : result error Z * world :=
  match Exec Pool (stmt_inbox_cleanup (now - retention)%Z) w with
  | (Err err, w) => (Err (Errorf_w "inbox store: cleanup: " err), w)
  | (Ok n, w) => match Ping w with (Some err, w) => (Err err, w) | (None, w) => (Ok n, w) end
  end.

(** ** processor.go *)

(** The statement of [Process], up to the decision to call the handler. *)
Definition Process_record (eventID eventType : string) (w : world) : result error bool * world :=
  match Exec Pool (stmt_insert_inbox eventID eventType) w with
  | (Err err, w) => (Err (Errorf_w ("inbox: record event " +:+ Quote eventID +:+ ": ") err), w)
  | (Ok rows, w) =>
      match Ping w with
      | (Some err, w) => (Err (Errorf_w ("inbox: rows affected " +:+ Quote eventID +:+ ": ") err), w)
      | (None, w) => (Ok (negb (rows =? 0)%Z), w)
      end
  end.

Definition Process {P} (evt : baseEvent P) (handler : baseEvent P → prog world (option error))
    : prog world (option error) := λ w,
  match Process_record (EventID evt) (EventType evt) w with
  | (Err err, w) => (Returns (Some err), w)
  | (Ok false, w) => (Returns None, w)
  | (Ok true, w) =>
      pbind (handler evt) (λ r,
        match r with
        | Some err =>
            pret (Some (Errorf_w ("inbox: handler error for event " +:+ Quote (EventID evt)
                                  +:+ ": ") err))
        | None => pret None
        end) w
  end.

(** ** infra/idempotency/store.go *)

(** [sql.ErrNoRows], which [Scan] returns for an empty result. *)
Definition ErrNoRows : error := ESentinel "sql: no rows in result set".

Definition stmt_get_key (key : string) : statement database CachedResponse := λ k d,
  match idempotency_keys d !! key with
  | Some row => if bool_decide (c_now k < ExpiresAt row)%Z then Ok (row, d) else Err ErrNoRows
  | None => Err ErrNoRows
  end.
Definition stmt_set_key (key : string) (resp : CachedResponse) : statement database unit := λ _ d,
  Ok ((), set_keys (<[key := resp]> (idempotency_keys d)) d).
Definition stmt_cleanup_keys : statement database unit := λ k d,
  Ok ((), set_keys (filter (λ e : string * CachedResponse, ¬ (ExpiresAt e.2 ≤ c_now k)%Z)
                      (idempotency_keys d)) d).

Definition Get (key : string) (w : world) : result error (option CachedResponse) * world :=
  match Exec Pool (stmt_get_key key) w with
  | (Err err, w) =>
      if errors_Is err ErrNoRows then (Ok None, w)
      else (Err (Errorf_w ("idempotency: get key " +:+ Quote key +:+ ": ") err), w)
  | (Ok resp, w) => (Ok (Some resp), w)
  end.
Definition Set_ (key : string) (resp : CachedResponse) (w : world) : option error * world :=
  match Exec Pool (stmt_set_key key resp) w with
  | (Err err, w) => (Some (Errorf_w ("idempotency: set key " +:+ Quote key +:+ ": ") err), w)
  | (Ok _, w) => (None, w)
  end.
Definition keys_Cleanup (w : world) : option error * world :=
  match Exec Pool stmt_cleanup_keys w with
  | (Err err, w) => (Some (Errorf_w "idempotency: cleanup: " err), w)
  | (Ok _, w) => (None, w)
  end.

(** ** The inbox store implements the interface *)

Definition recorded (w : world) : gset string := dom (inbox_events (pool w)).

Lemma insert_inbox_recorded id ty k d :
  dom (inbox_events (effect (stmt_insert_inbox id ty) k d)) = {[id]} ∪ dom (inbox_events d).
Proof.
  unfold effect, stmt_insert_inbox. destruct (inbox_events d !! id) eqn:Hid; simpl.
  - apply elem_of_dom_2 in Hid. set_solver.
  - by rewrite dom_insert_L.
Qed.

Lemma Exec_insert_recorded id ty (w : world) :
  recorded (Exec Pool (stmt_insert_inbox id ty) w).2 = recorded w
  ∨ recorded (Exec Pool (stmt_insert_inbox id ty) w).2 = {[id]} ∪ recorded w.
Proof.
  unfold recorded. destruct (Exec_Pool_cases (stmt_insert_inbox id ty) w) as [-> | ->]; [by left|].
  right. apply insert_inbox_recorded.
Qed.

Lemma Exec_insert_ok id ty (w w' : world) n :
  Exec Pool (stmt_insert_inbox id ty) w = (Ok n, w') →
  n = (if decide (id ∈ recorded w) then 0%Z else 1%Z) ∧ recorded w' = {[id]} ∪ recorded w.
Proof.
  intros [Hp [d' Hst]]%Exec_Pool_ok. unfold recorded. rewrite Hp, insert_inbox_recorded.
  split; [|done]. unfold stmt_insert_inbox in Hst.
  destruct (inbox_events (pool w) !! id) eqn:Hid; injection Hst as <- <-.
  - by rewrite decide_True by by eapply elem_of_dom_2.
  - by rewrite decide_False by by apply not_elem_of_dom.
Qed.

Lemma Ping_recorded (w : world) : recorded (Ping w).2 = recorded w.
Proof. unfold recorded. by destruct (Ping_spec w) as (-> & _). Qed.

Lemma store_IsProcessed_spec id (w : world) :
  recorded (store_IsProcessed id w).2 = recorded w
  ∧ ∀ b, (store_IsProcessed id w).1 = Ok b → b = bool_decide (id ∈ recorded w).
Proof.
  unfold store_IsProcessed.
  destruct (Exec Pool (stmt_inbox_exists id) w) as [[b|err] w'] eqn:Hex.
  - apply Exec_Pool_ok in Hex as [Hp [d' Hst]]. injection Hst as <- <-. unfold recorded.
    simpl. rewrite Hp. split; [done|]. intros b' [= <-]. apply bool_decide_ext. by rewrite elem_of_dom.
  - split; [|done]. pose proof (Exec_Pool_cases (stmt_inbox_exists id) w) as Hor.
    rewrite Hex in Hor. unfold recorded. simpl in *. by destruct Hor as [-> | ->].
Qed.

Lemma store_MarkProcessed_spec id ty (w : world) :
  (recorded (store_MarkProcessed id ty w).2 = recorded w
   ∨ recorded (store_MarkProcessed id ty w).2 = {[id]} ∪ recorded w)
  ∧ ∀ b, (store_MarkProcessed id ty w).1 = Ok b →
      b = bool_decide (id ∉ recorded w)
      ∧ recorded (store_MarkProcessed id ty w).2 = {[id]} ∪ recorded w.
Proof.
  unfold store_MarkProcessed. pose proof (Exec_insert_recorded id ty w) as Hor.
  destruct (Exec Pool (stmt_insert_inbox id ty) w) as [[n|err] w'] eqn:Hex; [|done].
  apply Exec_insert_ok in Hex as [-> Hrec]. pose proof (Ping_recorded w') as Hping.
  destruct (Ping w') as [[err|] w2]; simpl in *; rewrite Hping; [done|].
  split; [done|]. intros b [= <-]. split; [|done].
  destruct (decide (id ∈ recorded w)) as [Hin|Hin];
    [by rewrite (bool_decide_eq_false_2 (id ∉ recorded w)) by (intros Hn; by apply Hn)
    | by rewrite (bool_decide_eq_true_2 (id ∉ recorded w))].
Qed.

#[global] Program Instance store_Deduplicator : Deduplicator world := {|
  IsProcessed := store_IsProcessed;
  MarkProcessed := store_MarkProcessed;
  seen := recorded
|}.
Next Obligation. intros. apply store_IsProcessed_spec. Qed.
Next Obligation. intros id s b. apply store_IsProcessed_spec. Qed.
Next Obligation. intros. apply store_MarkProcessed_spec. Qed.
Next Obligation. intros id ty s b. apply store_MarkProcessed_spec. Qed.
End Stores.

(** ** middleware.go *)

Record Message := { ID : string; Subject : string; Headers : gmap string string }.

Section Middleware.
Context {S : Type} `{!Deduplicator S}.

Definition MessageHandler := Message → prog S (option error).

Definition eventType (msg : Message) : string :=
  let eventType := default "" (Headers msg !! "event_type") in
  if (eventType =? "")%string then Subject msg else eventType.

Definition Wrap (next : MessageHandler) : MessageHandler := λ msg s,
  match IsProcessed (ID msg) s with
  | (Err err, s) =>
      (Returns (Some (Errorf_w ("inbox middleware: dedup check for " +:+ Quote (ID msg)
                                +:+ ": ") err)), s)
  | (Ok true, s) => (Returns None, s)
  | (Ok false, s) =>
      pbind (next msg) (λ r,
        match r with
        | Some err => pret (Some err)
        | None => λ s, let '(_, s) := MarkProcessed (ID msg) (eventType msg) s in (Returns None, s)
        end) s
  end.

(** ** Concurrent deliveries of broker messages

    Subscriber [i] has the handler [handler i]; all share one store.  A flight is a delivery
    between two of its calls. *)
Context (handler : nat → MessageHandler).

Inductive stage := Delivered | Checked | Handled.
Record flight := { f_sub : nat; f_msg : Message; f_stage : stage }.
(** [acked]: deliveries for which [Wrap] returned nil; [handled]: successful handler runs. *)
Record msys := {
  m_state : S; flights : list flight; acked : list (nat * string); handled : list (nat * string)
}.

Inductive mstep : msys → msys → Prop :=
| MDeliver i msg s fs a h :
    mstep {| m_state := s; flights := fs; acked := a; handled := h |}
          {| m_state := s; flights := {| f_sub := i; f_msg := msg; f_stage := Delivered |} :: fs;
             acked := a; handled := h |}
| MCheckFails i msg err s s' fs1 fs2 a h :
    IsProcessed (ID msg) s = (Err err, s') →
    mstep {| m_state := s;
             flights := fs1 ++ {| f_sub := i; f_msg := msg; f_stage := Delivered |} :: fs2;
             acked := a; handled := h |}
          {| m_state := s'; flights := fs1 ++ fs2; acked := a; handled := h |}
| MDuplicate i msg s s' fs1 fs2 a h :
    IsProcessed (ID msg) s = (Ok true, s') →
    mstep {| m_state := s;
             flights := fs1 ++ {| f_sub := i; f_msg := msg; f_stage := Delivered |} :: fs2;
             acked := a; handled := h |}
          {| m_state := s'; flights := fs1 ++ fs2; acked := a ++ [(i, ID msg)]; handled := h |}
| MFirst i msg s s' fs1 fs2 a h :
    IsProcessed (ID msg) s = (Ok false, s') →
    mstep {| m_state := s;
             flights := fs1 ++ {| f_sub := i; f_msg := msg; f_stage := Delivered |} :: fs2;
             acked := a; handled := h |}
          {| m_state := s';
             flights := fs1 ++ {| f_sub := i; f_msg := msg; f_stage := Checked |} :: fs2;
             acked := a; handled := h |}
| MHandlerFails i msg r s s' fs1 fs2 a h :
    handler i msg s = (r, s') → r ≠ Returns None →
    mstep {| m_state := s;
             flights := fs1 ++ {| f_sub := i; f_msg := msg; f_stage := Checked |} :: fs2;
             acked := a; handled := h |}
          {| m_state := s'; flights := fs1 ++ fs2; acked := a; handled := h |}
| MHandle i msg s s' fs1 fs2 a h :
    handler i msg s = (Returns None, s') →
    mstep {| m_state := s;
             flights := fs1 ++ {| f_sub := i; f_msg := msg; f_stage := Checked |} :: fs2;
             acked := a; handled := h |}
          {| m_state := s';
             flights := fs1 ++ {| f_sub := i; f_msg := msg; f_stage := Handled |} :: fs2;
             acked := a; handled := h ++ [(i, ID msg)] |}
| MMark i msg s r s' fs1 fs2 a h :
    MarkProcessed (ID msg) (eventType msg) s = (r, s') →
    mstep {| m_state := s;
             flights := fs1 ++ {| f_sub := i; f_msg := msg; f_stage := Handled |} :: fs2;
             acked := a; handled := h |}
          {| m_state := s'; flights := fs1 ++ fs2; acked := a ++ [(i, ID msg)]; handled := h |}
| MCrash f s fs1 fs2 a h :
    mstep {| m_state := s; flights := fs1 ++ f :: fs2; acked := a; handled := h |}
          {| m_state := s; flights := fs1 ++ fs2; acked := a; handled := h |}
| MClean s s' fs a h :
    seen s' ⊆ seen s →
    mstep {| m_state := s; flights := fs; acked := a; handled := h |}
          {| m_state := s'; flights := fs; acked := a; handled := h |}.

(** Everything recorded, marked soon or acknowledged has been handled. *)
Record msys_inv (σ : msys) : Prop := {
  inv_seen id : id ∈ seen (m_state σ) → id ∈ (handled σ).*2;
  inv_flights f : f ∈ flights σ → f_stage f = Handled → ID (f_msg f) ∈ (handled σ).*2;
  inv_acked p : p ∈ acked σ → p.2 ∈ (handled σ).*2
}.

(** Handlers do not write the inbox table. *)
Definition leaves_inbox (next : MessageHandler) : Prop :=
  ∀ msg s, seen (next msg s).2 = seen s.

Lemma elem_of_drop_middle {A} (x y : A) l1 l2 : x ∈ l1 ++ l2 → x ∈ l1 ++ y :: l2.
Proof. list_in. Qed.

Lemma elem_of_swap_middle {A} (x y z : A) l1 l2 :
  x ∈ l1 ++ z :: l2 → x = z ∨ x ∈ l1 ++ y :: l2.
Proof. list_in. Qed.

(** What a call did to the recorded identifiers. *)
Ltac seen_after :=
  match goal with
  | Hc : IsProcessed ?id ?s = _ |- _ =>
      pose proof (IsProcessed_seen id s) as Hseen; pose proof (IsProcessed_ok id s) as Hok;
      rewrite Hc in Hseen, Hok; simpl in Hseen, Hok
  | Hq : ∀ i, leaves_inbox (handler i), Hc : handler ?i ?msg ?s = _ |- _ =>
      pose proof (Hq i msg s) as Hseen; rewrite Hc in Hseen; simpl in Hseen
  | Hc : MarkProcessed ?id ?ty ?s = _ |- _ =>
      pose proof (MarkProcessed_seen id ty s) as Hseen; rewrite Hc in Hseen; simpl in Hseen
  | _ => idtac
  end.

Lemma mstep_inv σ σ' :
  (∀ i, leaves_inbox (handler i)) → msys_inv σ → mstep σ σ' → msys_inv σ'.
Proof.
  intros Hquiet [Hs Hf Ha] Hstep. destruct Hstep; simpl in *; seen_after;
    (constructor; simpl in *; [try rewrite Hseen|..]);
    try done; try (intros f' Hin Hst; by eapply Hf; [apply elem_of_drop_middle|]).
  - intros f' [->|Hin]%elem_of_cons; [done|by apply Hf].
  - intros q [Hq|Hq%list_elem_of_singleton]%elem_of_app; [by apply Ha|]. subst q. apply Hs.
    apply (bool_decide_eq_true_1 _). symmetry. by apply Hok.
  - intros f' Hin Hst. eapply elem_of_swap_middle in Hin as [->|Hin]; [done|]. by eapply Hf.
  - intros id Hid. rewrite fmap_app. apply elem_of_app. auto.
  - intros f' Hin Hst. rewrite fmap_app. simpl.
    eapply elem_of_swap_middle in Hin as [->|Hin]; [list_in|]. apply elem_of_app. left.
    by eapply Hf.
  - intros q Hq. rewrite fmap_app. apply elem_of_app. auto.
  - assert (ID msg ∈ h.*2) as Hh.
    { apply (Hf {| f_sub := i; f_msg := msg; f_stage := Handled |}); [list_in|done]. }
    intros id Hid. destruct Hseen as [Hseen|Hseen]; rewrite Hseen in Hid; [by apply Hs|].
    apply elem_of_union in Hid as [->%elem_of_singleton|Hid]; [done|by apply Hs].
  - intros q [Hq|Hq%list_elem_of_singleton]%elem_of_app; [by apply Ha|]. subst q.
    apply (Hf {| f_sub := i; f_msg := msg; f_stage := Handled |}); [list_in|done].
  - intros id Hid. apply Hs. set_solver.
Qed.

(** A call of [Wrap] is a run of the system in which no other delivery moves. *)
Lemma Wrap_msteps i msg s fs a h :
  let '(r, s') := Wrap (handler i) msg s in
  ∃ h', rtc mstep {| m_state := s; flights := fs; acked := a; handled := h |}
    {| m_state := s'; flights := fs;
       acked := a ++ (match r with Returns None => [(i, ID msg)] | _ => [] end);
       handled := h ++ h' |}.
Proof.
  unfold Wrap. destruct (IsProcessed (ID msg) s) as [[[]|err] s1] eqn:Hc; rewrite ?app_nil_r.
  - exists []. rewrite app_nil_r. eapply rtc_l; [apply (MDeliver i msg)|].
    eapply rtc_once, (MDuplicate i msg _ _ []), Hc.
  - unfold pbind. destruct (handler i msg s1) as [r s2] eqn:Hh.
    destruct r as [[err|]|m|]; simpl;
      [exists []; rewrite !app_nil_r| |exists []; rewrite !app_nil_r..];
      [|destruct (MarkProcessed _ _ s2) as [m s3] eqn:Hm; exists [(i, ID msg)]|..];
      (eapply rtc_l; [apply (MDeliver i msg)|]);
      (eapply rtc_l; [eapply (MFirst i msg _ _ []), Hc|]);
      [|eapply rtc_l; [eapply (MHandle i msg _ _ []), Hh|]; eapply rtc_once, (MMark i msg _ _ _ []), Hm|..];
      eapply rtc_once, (MHandlerFails i msg _ _ _ []); done.
  - exists []. rewrite !app_nil_r. eapply rtc_l; [apply (MDeliver i msg)|].
    eapply rtc_once, (MCheckFails i msg err _ _ []), Hc.
Qed.

Lemma mstep_rtc_inv σ σ' :
  (∀ i, leaves_inbox (handler i)) → msys_inv σ → rtc mstep σ σ' → msys_inv σ'.
Proof. intros Hquiet Hinv Hrun. induction Hrun; [done|]. eauto using mstep_inv. Qed.

Lemma acked_handled σ i id : msys_inv σ → (i, id) ∈ acked σ → ∃ j, (j, id) ∈ handled σ.
Proof.
  intros [_ _ Ha] ([j id'] & Heq & Hj)%Ha%list_elem_of_fmap. simpl in Heq. subst. eauto.
Qed.

(** No message is acknowledged unhandled: along every interleaving of deliveries to any
    number of subscribers, with failing checks, handlers and marks, crashes and cleanups, a
    delivery for which [Wrap] returned nil has the identifier of a message that some
    subscriber's handler processed successfully; and a call of [Wrap] is such a run. *)
Theorem acknowledged_was_handled (s : S) (σ : msys) :
  (∀ i, leaves_inbox (handler i)) → seen s = ∅ →
  rtc mstep {| m_state := s; flights := []; acked := []; handled := [] |} σ →
  (∀ i id, (i, id) ∈ acked σ → ∃ j, (j, id) ∈ handled σ)
  ∧ ∀ i msg, (Wrap (handler i) msg (m_state σ)).1 = Returns None →
      ∃ σ', rtc mstep σ σ' ∧ m_state σ' = (Wrap (handler i) msg (m_state σ)).2
            ∧ ∃ j, (j, ID msg) ∈ handled σ'.
Proof.
  intros Hquiet Hempty Hrun.
  assert (msys_inv σ) as Hinv.
  { eapply mstep_rtc_inv; [done| |done]. constructor; simpl; [rewrite Hempty|..]; set_solver. }
  split; [intros i id Hin; by eapply acked_handled|].
  intros i msg Hret. pose proof (Wrap_msteps i msg (m_state σ) (flights σ) (acked σ) (handled σ)) as Hw.
  destruct (Wrap (handler i) msg (m_state σ)) as [r s'] eqn:Hwrap. simpl in Hret. subst r.
  destruct Hw as [h' Hw]. eexists. split; [destruct σ; exact Hw|]. split; [done|].
  eapply (acked_handled _ i); [eapply mstep_rtc_inv; [done| |exact Hw]; by destruct σ|]. simpl. list_in.
Qed.

(** The recorded identifier does not name a consumer: once one subscriber has processed a
    message, a second subscriber of the same message returns nil and its handler never runs,
    whatever it is. *)
Theorem second_subscriber_skipped (first : MessageHandler) (msg : Message) (s s0 s1 s2 : S)
    (inserted : bool) :
  IsProcessed (ID msg) s = (Ok false, s0) → first msg s0 = (Returns None, s1) →
  MarkProcessed (ID msg) (eventType msg) s1 = (Ok inserted, s2) →
  Wrap first msg s = (Returns None, s2)
  ∧ ∀ (second : MessageHandler) b s3,
      IsProcessed (ID msg) s2 = (Ok b, s3) → Wrap second msg s2 = (Returns None, s3).
Proof.
  intros Hc Hh Hm. unfold Wrap, pbind. rewrite Hc, Hh, Hm. split; [done|].
  intros second b s3 Hc2. pose proof (IsProcessed_ok (ID msg) s2 b) as Hb. rewrite Hc2 in Hb.
  pose proof (MarkProcessed_ok (ID msg) (eventType msg) s1 inserted) as Hs2. rewrite Hm in Hs2.
  destruct Hs2 as [_ Hs2]; [done|]. simpl in Hs2. rewrite Hc2, Hb by done.
  rewrite bool_decide_eq_true_2; [done|]. rewrite Hs2. set_solver.
Qed.
End Middleware.

(** ** Concurrent processing of domain events

    A flight has been recorded and is about to call its handler.  Events may be processed by
    any number of goroutines; the other users of the database keep the recorded rows. *)
Section Processing.
Context {A H P : Type}.
Notation world := (world (database A) H).
Context (handler : baseEvent P → prog world (option error)).

Record psys := { p_world : world; recording : list (baseEvent P); invoked : list string }.

Inductive pstep : psys → psys → Prop :=
| PSkip (evt : baseEvent P) r w w' fs inv :
    Process_record (EventID evt) (EventType evt) w = (r, w') → r ≠ Ok true →
    pstep {| p_world := w; recording := fs; invoked := inv |}
          {| p_world := w'; recording := fs; invoked := inv |}
| PRecord (evt : baseEvent P) w w' fs inv :
    Process_record (EventID evt) (EventType evt) w = (Ok true, w') →
    pstep {| p_world := w; recording := fs; invoked := inv |}
          {| p_world := w'; recording := evt :: fs; invoked := inv |}
| PInvoke evt w r w' fs1 fs2 inv :
    handler evt w = (r, w') →
    pstep {| p_world := w; recording := fs1 ++ evt :: fs2; invoked := inv |}
          {| p_world := w'; recording := fs1 ++ fs2; invoked := EventID evt :: inv |}
| PCrash evt w fs1 fs2 inv :
    pstep {| p_world := w; recording := fs1 ++ evt :: fs2; invoked := inv |}
          {| p_world := w; recording := fs1 ++ fs2; invoked := inv |}
| POther w w' fs inv :
    recorded w ⊆ recorded w' →
    pstep {| p_world := w; recording := fs; invoked := inv |}
          {| p_world := w'; recording := fs; invoked := inv |}.

(** The recorded events in flight and the invoked ones are different and all recorded. *)
Record psys_inv (σ : psys) : Prop := {
  inv_once : NoDup (map EventID (recording σ) ++ invoked σ);
  inv_recorded id : id ∈ map EventID (recording σ) ++ invoked σ → id ∈ recorded (p_world σ)
}.

Lemma Process_record_spec id ty (w : world) :
  recorded w ⊆ recorded (Process_record id ty w).2
  ∧ ((Process_record id ty w).1 = Ok true →
     id ∉ recorded w ∧ id ∈ recorded (Process_record id ty w).2).
Proof.
  unfold Process_record. pose proof (Exec_insert_recorded id ty w) as Hor.
  destruct (Exec Pool (stmt_insert_inbox id ty) w) as [[n|err] w'] eqn:Hex;
    [|simpl in *; split; [set_solver|done]].
  apply Exec_insert_ok in Hex as [-> Hrec]. pose proof (Ping_recorded w') as Hping.
  destruct (Ping w') as [[err|] w2]; simpl in *; rewrite Hping, Hrec.
  - split; [set_solver|done].
  - split; [set_solver|]. destruct (decide (id ∈ recorded w)); [done|set_solver].
Qed.

(** Handlers do not delete inbox rows. *)
Definition keeps_inbox : Prop := ∀ evt w, recorded w ⊆ recorded (handler evt w).2.

Lemma NoDup_remove_middle {B} (x : B) l1 l2 l3 :
  (l1 ++ x :: l2) ++ l3 ≡ₚ x :: (l1 ++ l2) ++ l3.
Proof. by rewrite <- Permutation_middle. Qed.

Lemma pstep_inv σ σ' : keeps_inbox → psys_inv σ → pstep σ σ' → psys_inv σ'.
Proof.
  intros Hkeep [Hnd Hrec] Hstep. destruct Hstep as [evt r w w' fs inv Hr|evt w w' fs inv Hr
    |evt w r w' fs1 fs2 inv Hr|evt w fs1 fs2 inv|w w' fs inv Hsub]; simpl in *.
  - destruct (Process_record_spec (EventID evt) (EventType evt) w) as [Hsub _].
    rewrite Hr in Hsub. constructor; simpl in *; [done|]. intros id Hid. by apply Hsub, Hrec.
  - destruct (Process_record_spec (EventID evt) (EventType evt) w) as [Hsub Hnew].
    rewrite Hr in Hsub, Hnew. destruct Hnew as [Hnot Hin]; [done|]. constructor; simpl in *.
    + constructor; [|done]. intros Hid. by apply Hnot, Hrec.
    + intros id [->|Hid]%elem_of_cons; [done|]. by apply Hsub, Hrec.
  - pose proof (Hkeep evt w) as Hsub. rewrite Hr in Hsub. simpl in Hsub.
    rewrite map_app in Hnd, Hrec. simpl in Hnd, Hrec.
    rewrite NoDup_remove_middle in Hnd. setoid_rewrite NoDup_remove_middle in Hrec.
    constructor; simpl; rewrite map_app.
    + by rewrite <- Permutation_middle.
    + intros id. rewrite <- Permutation_middle. intros Hid. by apply Hsub, Hrec.
  - rewrite map_app in Hnd, Hrec. simpl in Hnd, Hrec.
    rewrite NoDup_remove_middle in Hnd. setoid_rewrite NoDup_remove_middle in Hrec.
    apply NoDup_cons in Hnd as [_ Hnd]. constructor; simpl; rewrite map_app; [done|].
    intros id Hid. apply Hrec. apply elem_of_cons. by right.
  - constructor; simpl; [done|]. intros id Hid. by apply Hsub, Hrec.
Qed.

Lemma pstep_rtc_inv σ σ' : keeps_inbox → psys_inv σ → rtc pstep σ σ' → psys_inv σ'.
Proof. intros Hkeep Hinv Hrun. induction Hrun; [done|]. eauto using pstep_inv. Qed.

Lemma invoked_once σ id : psys_inv σ → count id (invoked σ) ≤ 1.
Proof.
  intros [Hnd _]. apply NoDup_app in Hnd as (_ & _ & Hnd).
  induction (invoked σ) as [|x l IH]; simpl; [lia|]. apply NoDup_cons in Hnd as [Hx Hnd].
  case_decide as Hd; [|by apply IH]. subst. apply count_zero in Hx. lia.
Qed.

(** A call of [Process] is a run of the system in which no other goroutine moves; it invokes
    the handler exactly when the event was not recorded. *)
Lemma Process_psteps evt w fs inv :
  let '(_, w') := Process evt handler w in
  ∃ inv', rtc pstep {| p_world := w; recording := fs; invoked := inv |}
                    {| p_world := w'; recording := fs; invoked := inv' ++ inv |}.
Proof.
  unfold Process. destruct (Process_record _ _ w) as [[[]|err] w1] eqn:Hr.
  - unfold pbind. destruct (handler evt w1) as [r w2] eqn:Hh.
    assert (rtc pstep {| p_world := w; recording := fs; invoked := inv |}
              {| p_world := w2; recording := fs; invoked := [EventID evt] ++ inv |}) as Hrun.
    { eapply rtc_l; [by apply (PRecord evt)|]. by eapply rtc_once, (PInvoke evt _ _ _ []). }
    destruct r as [[e|]|m|]; simpl; eauto.
  - exists []. apply rtc_once. by eapply (PSkip evt).
  - exists []. apply rtc_once. by eapply (PSkip evt).
Qed.

End Processing.

(** ** Idempotency keys *)
Section Keys.
Context {A H : Type}.
Notation world := (world (database A) H).

(** A cleanup, successful or not, removes at most rows that have expired. *)
Lemma keys_Cleanup_lookup (w : world) k :
  idempotency_keys (pool (keys_Cleanup w).2) !! k = idempotency_keys (pool w) !! k
  ∨ idempotency_keys (pool (keys_Cleanup w).2) !! k = None
    ∧ ∀ row, idempotency_keys (pool w) !! k = Some row → (ExpiresAt row ≤ c_now (here w))%Z.
Proof.
  assert ((keys_Cleanup w).2 = (Exec Pool stmt_cleanup_keys w).2) as ->
    by (unfold keys_Cleanup; by destruct (Exec Pool _ w) as [[] ?]).
  destruct (Exec_Pool_cases stmt_cleanup_keys w) as [-> | ->]; [by left|].
  cbn -[filter]. rewrite map_lookup_filter.
  destruct (idempotency_keys (pool w) !! k) as [row|]; simpl; [|by left].
  case_guard as Hg; simpl; [by left|]. right. split; [done|]. intros row' [= <-]. done.
Qed.

(** What [Get] reads when the server answers. *)
Lemma Get_lookup (w : world) k :
  c_fault (here w) = NoFault →
  (Get k w).1 = Ok (match idempotency_keys (pool w) !! k with
                    | Some row => if bool_decide (c_now (here w) < ExpiresAt row)%Z
                                  then Some row else None
                    | None => None
                    end).
Proof.
  intros Hf. unfold Get, Exec. rewrite Hf. unfold stmt_get_key. simpl view.
  destruct (idempotency_keys (pool w) !! k) as [row|]; [|done]. by case_bool_decide.
Qed.

(** A cached response is replayed until it expires and no longer: after a successful [Set]
    and a cleanup, [Get] on the same key returns the response while the server's clock is
    before its expiry and nothing afterwards, and other keys read as before. *)
Theorem Get_after_Set (key key' : string) (resp : CachedResponse) (w w1 w2 : world) :
  Set_ key resp w = (None, w1) → w2 = (keys_Cleanup w1).2 → c_fault (here w2) = NoFault →
  (c_now (here w1) ≤ c_now (here w2))%Z →
  (Get key w2).1
  = Ok (if bool_decide (c_now (here w2) < ExpiresAt resp)%Z then Some resp else None)
  ∧ (key' ≠ key → (Get key' w2).1 = (Get key' (set_pool (pool w) w2)).1).
Proof.
  unfold Set_. destruct (Exec Pool (stmt_set_key key resp) w) as [[]w'] eqn:Hset; [|done].
  intros [= <-] Hw2 Hfault Hclock. apply Exec_Pool_ok in Hset as [Hset _].
  pose proof (keys_Cleanup_lookup w') as Hk. rewrite <- Hw2, Hset in Hk. cbn in Hk.
  rewrite !Get_lookup by done. cbn [set_pool pool]. split.
  - destruct (Hk key) as [-> | [-> Hexp]]; [by rewrite lookup_insert_eq|].
    specialize (Hexp resp (lookup_insert_eq _ _ _)). by rewrite bool_decide_eq_false_2 by lia.
  - intros Hne. change (here (set_pool (pool w) w2)) with (here w2).
    destruct (Hk key') as [-> | [-> Hexp]]; [by rewrite lookup_insert_ne by done|].
    destruct (idempotency_keys (pool w) !! key') as [row|] eqn:Hrow; [|done].
    rewrite bool_decide_eq_false_2; [done|]. specialize (Hexp row).
    rewrite lookup_insert_ne in Hexp by done. specialize (Hexp Hrow). lia.
Qed.
End Keys.

(** ** Witnesses *)

Module InboxExample.
Definition calm_call (n : nat) : call :=
  {| c_now := Z.of_nat n; c_locked := λ _, false; c_fault := NoFault |}.
Definition example_world : world (database (list string)) unit :=
  {| pool := {| inbox_events := ∅; idempotency_keys := ∅; app := [] |}; tx_writes := [];
     mem := (); calls := calm_call; pos := 0 |}.
(** A handler that writes a row of the application's table. *)
Definition append_row (x : string) : statement (database (list string)) unit := λ _ d,
  Ok ((), {| inbox_events := inbox_events d; idempotency_keys := idempotency_keys d;
             app := app d ++ [x] |}).
Definition example_handler (x : string) : prog (world (database (list string)) unit) (option error) :=
  λ w, match Exec Pool (append_row x) w with
       | (Ok _, w) => (Returns None, w)
       | (Err e, w) => (Returns (Some e), w)
       end.

Lemma example_handler_recorded x w : recorded (example_handler x w).2 = recorded w.
Proof.
  assert ((example_handler x w).2 = (Exec Pool (append_row x) w).2) as ->
    by (unfold example_handler; by destruct (Exec Pool _ w) as [[] ?]).
  unfold recorded. by destruct (Exec_Pool_cases (append_row x) w) as [-> | ->].
Qed.

Definition example_message : Message :=
  {| ID := "m1"; Subject := "orders"; Headers := ∅ |}.
Definition example_event : baseEvent unit :=
  NewEvent "m1" 0%Z "order.created" None [].
End InboxExample.
Import InboxExample.

Lemma acknowledged_was_handled_witness :
  ∃ σ', m_state σ' = (Wrap (λ _, example_handler "a") example_message example_world).2
        ∧ ∃ j, (j, "m1") ∈ handled σ'.
Proof.
  destruct (acknowledged_was_handled (λ _ _, example_handler "a") example_world
    {| m_state := example_world; flights := []; acked := []; handled := [] |}) as [_ Hw];
    [intros i msg s; apply example_handler_recorded|done|apply rtc_refl|].
  destruct (Hw 0 example_message eq_refl) as (σ' & _ & Hst & Hj). by exists σ'.
Defined.

Lemma second_subscriber_skipped_witness :
  let run x s := Wrap (λ _, example_handler x) example_message s in
  let w2 := (run "a" example_world).2 in
  app (pool w2) = ["a"] ∧ (run "b" w2).1 = Returns None ∧ app (pool (run "b" w2).2) = ["a"].
Proof.
  assert (Hskip : ∀ s0 s1 s2,
    IsProcessed "m1" example_world = (Ok false, s0) → example_handler "a" s0 = (Returns None, s1) →
    MarkProcessed "m1" "orders" s1 = (Ok true, s2) → _)
    by (intros s0 s1 s2; exact (second_subscriber_skipped (λ _, example_handler "a")
          example_message example_world s0 s1 s2 true)).
  destruct (Hskip _ _ _ eq_refl eq_refl eq_refl) as [Hfirst Hsecond]. cbv beta zeta.
  rewrite Hfirst. cbn [snd]. split; [reflexivity|].
  erewrite (Hsecond (λ _, example_handler "b") true _ eq_refl). split; reflexivity.
Defined.


Lemma Get_after_Set_witness :
  let resp := {| StatusCode := 201; Body := "{}"; resp_CreatedAt := 0; ExpiresAt := 10 |} in
  let w1 := (Set_ "k" resp example_world).2 in
  let w2 := (keys_Cleanup w1).2 in
  (Get "k" w2).1 = Ok (Some resp).
Proof.
  intros resp w1 w2.
  destruct (Get_after_Set "k" "j" resp example_world w1 w2 eq_refl eq_refl eq_refl) as [-> _];
    [done|reflexivity].
Defined.
