(* ===== verification/Cqrs.v ===== *)
(** * Command and query handlers

    [Cqrs.v] models cqrs/handler.go, cqrs/middleware.go and cqrs/standard_chain.go.  A handler
    is arbitrary code over the application's state; the state also records what the tracing,
    logging and metrics libraries are told, in order.  Durations and log fields are left out. *)

From S2P Require Import Prelude Errors.
Local Open Scope go_scope.

(** What the observability libraries are told. *)
Inductive observation :=
| SpanStart (name : string)
| SpanError (err : error)
| SpanEnd
| Logged (message name : string) (err : option error)
| Counted (name status : string)
| CacheHit (name : string)
| CacheMiss (name : string).

Record state (A : Type) := { app : A; observed : list observation }.
Arguments app {A} _.
Arguments observed {A} _.

Definition observe {A} (o : observation) : prog (state A) unit := λ s,
  (Returns (), {| app := app s; observed := observed s ++ [o] |}).
Definition observe_error {A} (err : option error) : prog (state A) unit :=
  match err with Some e => observe (SpanError e) | None => pret () end.

Section Handlers.
Context {A Ctx C R : Type}.

(** ** handler.go

    A handler returns a value and an error, both of which its caller sees. *)
Definition Handler := Ctx → C → prog (state A) (R * option error).
Definition Middleware := Handler → Handler.

(** The loop from the last middleware to the first. *)
Definition Chain (handler : Handler) (mws : list Middleware) : Handler :=
  foldl (λ h mw, mw h) handler (rev mws).

(** ** middleware.go *)

(** The zero value of [R], the context of a span, and the deferred [span.End()]. *)
Context (zero : R) (with_span : string → Ctx → Ctx).

Definition end_span {X} (m : prog (state A) X) : prog (state A) X := λ s,
  match m s with
  | (Hangs, s) => (Hangs, s)
  | (r, s) => (r, {| app := app s; observed := observed s ++ [SpanEnd] |})
  end.

Definition tracing (kind name : string) : Middleware := λ next ctx cmd,
  let spanName := kind +:+ "/" +:+ name in
  let! _ := observe (SpanStart spanName) in
  end_span (let! r := next (with_span spanName ctx) cmd in
            let! _ := observe_error r.2 in
            pret r).

(** [CtxFieldsFunc]: [None] is a nil function, which panics when it is called. *)
Fixpoint call_fields (ctxFields : list (option (Ctx → unit))) (ctx : Ctx) : prog (state A) unit :=
  match ctxFields with
  | [] => pret ()
  | None :: _ => λ s, (Panics "invalid memory address or nil pointer dereference", s)
  | Some _ :: rest => call_fields rest ctx
  end.

Definition logging (message name : string) (ctxFields : list (option (Ctx → unit))) : Middleware :=
  λ next ctx cmd,
    let! r := next ctx cmd in
    let! _ := call_fields ctxFields ctx in
    let! _ := observe (Logged message name r.2) in
    pret r.

Definition validation (validateFn : C → option error) : Middleware := λ next ctx cmd,
  match validateFn cmd with
  | Some err => pret (zero, Some err)
  | None => next ctx cmd
  end.

Definition metrics (name : string) : Middleware := λ next ctx cmd,
  let! r := next ctx cmd in
  let status := match r.2 with Some _ => "error" | None => "success" end in
  let! _ := observe (Counted name status) in
  pret r.

(** [CacheGetter] and [CacheInvalidator]. *)
Record CacheGetter := {
  cache_Get : string → prog (state A) (R * bool * option error);
  cache_Set : string → R → Z → prog (state A) (option error)
}.
Definition CacheInvalidator := string → prog (state A) (option error).

Definition WithCommandCacheInvalidation (Delete : CacheInvalidator) (keyFn : C → string)
    : Middleware := λ next ctx cmd,
  let! r := next ctx cmd in
  match r.2 with
  | Some _ => pret r
  | None => let! _ := Delete (keyFn cmd) in pret (r.1, None)
  end.

Definition WithQueryCaching (cache : CacheGetter) (keyFn : C → string) (ttl : Z) : Middleware :=
  λ next ctx query,
    let key := keyFn query in
    let! g := cache_Get cache key in
    let '(cached, hit, err) := g in
    if (negb (bool_decide (is_Some err)) && hit)%bool then pret (cached, None)
    else let! r := next ctx query in
         match r.2 with
         | Some _ => pret r
         | None => let! _ := cache_Set cache key r.1 ttl in pret (r.1, None)
         end.

(** ** The command and query versions *)

Definition WithCommandTracing (name : string) : Middleware := tracing "command" name.
Definition WithQueryTracing (name : string) : Middleware := tracing "query" name.
Definition WithCommandLogging (name : string) (ctxFields : list (option (Ctx → unit))) : Middleware :=
  logging "command handled" name ctxFields.
Definition WithQueryLogging (name : string) (ctxFields : list (option (Ctx → unit))) : Middleware :=
  logging "query handled" name ctxFields.
Definition WithCommandValidation (validateFn : C → option error) : Middleware := validation validateFn.
Definition WithQueryValidation (validateFn : C → option error) : Middleware := validation validateFn.
Definition WithCommandMetrics (name : string) : Middleware := metrics name.
Definition WithQueryMetrics (name : string) : Middleware := metrics name.
Definition ChainCommand : Handler → list Middleware → Handler := Chain.
Definition ChainQuery : Handler → list Middleware → Handler := Chain.

(** ** standard_chain.go *)

(** The dependencies the chains read; [CacheCounters] tells whether the two optional counters
    are set. *)
Record ChainDeps := {
  CtxFields : option (Ctx → unit);
  Validate : C → option error;
  CacheCounters : bool
}.

Definition StandardCommandChain (handler : Handler) (name : string) (deps : ChainDeps) : Handler :=
  ChainCommand handler
    [WithCommandTracing name; WithCommandValidation (Validate deps);
     WithCommandLogging name [CtxFields deps]; WithCommandMetrics name].

Definition StandardCommandChainWithInvalidation (handler : Handler) (name : string)
    (cache : CacheInvalidator) (keyFn : C → string) (deps : ChainDeps) : Handler :=
  ChainCommand handler
    [WithCommandTracing name; WithCommandCacheInvalidation cache keyFn;
     WithCommandValidation (Validate deps); WithCommandLogging name [CtxFields deps];
     WithCommandMetrics name].

Definition StandardQueryChain (handler : Handler) (name : string) (deps : ChainDeps) : Handler :=
  ChainQuery handler
    [WithQueryTracing name; WithQueryValidation (Validate deps);
     WithQueryLogging name [CtxFields deps]; WithQueryMetrics name].

Definition metricsCacheGetter (name : string) (inner : CacheGetter) : CacheGetter := {|
  cache_Get key :=
    let! g := cache_Get inner key in
    let '(val, hit, err) := g in
    match err with
    | None => let! _ := observe (if hit : bool then CacheHit name else CacheMiss name) in pret g
    | Some _ => pret g
    end;
  cache_Set := cache_Set inner
|}.

Definition StandardQueryChainWithCaching (handler : Handler) (name : string) (cache : CacheGetter)
    (keyFn : C → string) (ttl : Z) (deps : ChainDeps) : Handler :=
  let c := if CacheCounters deps then metricsCacheGetter name cache else cache in
  ChainQuery handler
    [WithQueryTracing name; WithQueryCaching c keyFn ttl; WithQueryValidation (Validate deps);
     WithQueryLogging name [CtxFields deps]; WithQueryMetrics name].

(** [AsVoidCommand] *)
Definition AsVoidCommand (fn : Ctx → C → prog (state A) (option error)) (void : R) : Handler :=
  λ ctx cmd, let! err := fn ctx cmd in pret (void, err).
End Handlers.

(** ** Properties *)

Section ChainProperties.
Context {A Ctx C R : Type} (zero : R) (with_span : string → Ctx → Ctx).
Notation Handler := (Handler (A:=A) (Ctx:=Ctx) (C:=C) (R:=R)).
Notation Middleware := (Middleware (A:=A) (Ctx:=Ctx) (C:=C) (R:=R)).
Notation state := (state A).

Lemma Chain_cons (h : Handler) (mw : Middleware) mws : Chain h (mw :: mws) = mw (Chain h mws).
Proof. unfold Chain. simpl. by rewrite foldl_app. Qed.

(** The first middleware passed to [ChainCommand] or [ChainQuery] is the outermost, and the
    chain is the composition of the middlewares in the order they are passed. *)
Theorem Chain_first_outermost (h : Handler) (mws : list Middleware) :
  ChainCommand h mws = foldr (λ mw h, mw h) h mws ∧ ChainQuery h mws = foldr (λ mw h, mw h) h mws.
Proof.
  unfold ChainCommand, ChainQuery. assert (Chain h mws = foldr (λ mw h, mw h) h mws) as Hc; [|done].
  induction mws as [|mw mws IH]; [done|]. rewrite Chain_cons. simpl. by rewrite IH.
Qed.

Definition observing (s : state) (l : list observation) : state :=
  {| app := app s; observed := observed s ++ l |}.

Lemma observe_eq (o : observation) (s : state) : observe o s = (Returns (), observing s [o]).
Proof. done. Qed.

Lemma observing_app (s : state) l1 l2 : observing (observing s l1) l2 = observing s (l1 ++ l2).
Proof. unfold observing. simpl. by rewrite <- app_assoc. Qed.

Definition span_error (err : option error) : list observation :=
  match err with Some e => [SpanError e] | None => [] end.

Lemma observe_error_eq (err : option error) (s : state) :
  observe_error err s = (Returns (), observing s (span_error err)).
Proof. destruct err; [done|]. unfold observing. simpl. rewrite app_nil_r. by destruct s. Qed.

(** The middlewares inside the tracing, around a handler. *)
Definition inner_result (message name : string) (deps : ChainDeps (Ctx:=Ctx) (C:=C)) (h : Handler)
    (ctx : Ctx) (cmd : C) (s : state) : outcome (R * option error) * state :=
  match Validate deps cmd with
  | Some err => (Returns (zero, Some err), s)
  | None =>
      match h ctx cmd s with
      | (Returns (r, err), s1) =>
          let s2 := observing s1 [Counted name (match err with Some _ => "error" | None => "success" end)] in
          match CtxFields deps with
          | Some _ => (Returns (r, err), observing s2 [Logged message name err])
          | None => (Panics "invalid memory address or nil pointer dereference", s2)
          end
      | (Panics m, s1) => (Panics m, s1)
      | (Hangs, s1) => (Hangs, s1)
      end
  end.

Lemma inner_chain message name deps (h : Handler) ctx cmd (s : state) :
  validation zero (Validate deps) (logging message name [CtxFields deps] (metrics name h)) ctx cmd s
  = inner_result message name deps h ctx cmd s.
Proof.
  unfold inner_result, validation. destruct (Validate deps cmd); [done|].
  unfold logging, metrics, pbind. destruct (h ctx cmd s) as [[[r err]|m|] s1]; [|done..].
  simpl. by destruct (CtxFields deps).
Qed.

Lemma tracing_eq kind name (h : Handler) ctx cmd (s : state) :
  tracing with_span kind name h ctx cmd s
  = let spanName := kind +:+ "/" +:+ name in
    match h (with_span spanName ctx) cmd (observing s [SpanStart spanName]) with
    | (Returns r, s1) => (Returns r, observing s1 (span_error r.2 ++ [SpanEnd]))
    | (Panics m, s1) => (Panics m, observing s1 [SpanEnd])
    | (Hangs, s1) => (Hangs, s1)
    end.
Proof.
  unfold tracing, end_span, pbind at 1. rewrite observe_eq. cbv zeta. unfold pbind.
  destruct (h _ _ _) as [[r|m|] s1]; [|done..]. rewrite observe_error_eq. unfold pret.
  by rewrite <- (observing_app s1).
Qed.

(** The standard command chain is transparent and observes in the documented order.  An
    invalid command is answered with the validation error without running the handler, and only
    the span sees it; otherwise the handler runs once, inside the span, the caller gets its
    result and error, and one counter and one log entry follow, in that order, before the span
    ends.  Without a [CtxFields] function the chain panics after the handler has run. *)
Theorem StandardCommandChain_spec (h : Handler) (name : string)
    (deps : ChainDeps (Ctx:=Ctx) (C:=C)) (ctx : Ctx) (cmd : C) (s : state) :
  let span := "command/" +:+ name in
  let s0 := observing s [SpanStart span] in
  StandardCommandChain zero with_span h name deps ctx cmd s
  = match Validate deps cmd with
    | Some err => (Returns (zero, Some err), observing s0 [SpanError err; SpanEnd])
    | None =>
        match h (with_span span ctx) cmd s0 with
        | (Returns (r, err), s1) =>
            let counted := Counted name (match err with Some _ => "error" | None => "success" end) in
            match CtxFields deps with
            | Some _ =>
                (Returns (r, err),
                 observing s1 ([counted; Logged "command handled" name err]
                               ++ span_error err ++ [SpanEnd]))
            | None =>
                (Panics "invalid memory address or nil pointer dereference",
                 observing s1 [counted; SpanEnd])
            end
        | (Panics m, s1) => (Panics m, observing s1 [SpanEnd])
        | (Hangs, s1) => (Hangs, s1)
        end
    end.
Proof.
  intros span s0. unfold StandardCommandChain, ChainCommand. rewrite !Chain_cons.
  unfold WithCommandTracing, WithCommandValidation, WithCommandLogging, WithCommandMetrics.
  rewrite tracing_eq. cbv zeta. change ("command" +:+ "/" +:+ name) with span. fold s0.
  rewrite inner_chain. unfold inner_result. destruct (Validate deps cmd); [done|].
  change (Chain h []) with h. destruct (h _ _ _) as [[[r err]|m|] s1]; [|done..].
  destruct (CtxFields deps); cbn -[observing]; by rewrite !observing_app.
Qed.
End ChainProperties.

(** ** Caching

    The application's state has data and the contents of a cache.  Queries of type [Q] read the
    data, commands of type [C] change it; [ans] and [exec] are the reference semantics. *)
Section Caching.
Context {A D Ctx Q C R R' : Type} (zero : R) (zero' : R') (with_span : string → Ctx → Ctx).
Context (data : A → D) (contents : A → gmap string R).
Notation state := (state A).

(** The cache may lose entries and fail to read or store; deletions succeed. *)
Record cache_laws (cache : CacheGetter (A:=A) (R:=R)) (Delete : CacheInvalidator (A:=A)) : Prop := {
  get_law key (s : state) : ∃ v hit err s', cache_Get cache key s = (Returns (v, hit, err), s')
    ∧ data (app s') = data (app s) ∧ contents (app s') ⊆ contents (app s)
    ∧ (err = None → hit = true → contents (app s) !! key = Some v);
  set_law key v ttl (s : state) : ∃ err s', cache_Set cache key v ttl s = (Returns err, s')
    ∧ data (app s') = data (app s) ∧ contents (app s') ⊆ <[key := v]> (contents (app s));
  delete_law key (s : state) : ∃ s', Delete key s = (Returns None, s')
    ∧ data (app s') = data (app s) ∧ contents (app s') ⊆ delete key (contents (app s))
}.

(** Query handlers answer from the data; command handlers change the data, and leave it alone
    when they fail. *)
Definition answers (ans : D → Q → R * option error) (h : Handler (A:=A) (Ctx:=Ctx) (C:=Q) (R:=R)) : Prop :=
  ∀ ctx q (s : state), ∃ s', h ctx q s = (Returns (ans (data (app s)) q), s')
    ∧ data (app s') = data (app s) ∧ contents (app s') = contents (app s).
Definition executes (exec : D → C → R' * option error * D)
    (h : Handler (A:=A) (Ctx:=Ctx) (C:=C) (R:=R')) : Prop :=
  ∀ ctx c (s : state), ∃ s', h ctx c s = (Returns (exec (data (app s)) c).1, s')
    ∧ data (app s') = (exec (data (app s)) c).2 ∧ contents (app s') = contents (app s).

Context (ans : D → Q → R * option error) (exec : D → C → R' * option error * D).
Context (qkey : Q → string) (ckey : C → string).
Context (qdeps : ChainDeps (Ctx:=Ctx) (C:=Q)) (cdeps : ChainDeps (Ctx:=Ctx) (C:=C)).

(** Keys identify queries, and a command's key names the queries whose answer it changes. *)
Record keys_ok : Prop := {
  key_query q q' : qkey q = qkey q' → Validate qdeps q = Validate qdeps q' ∧ ∀ d, ans d q = ans d q';
  key_command d c : (exec d c).1.2 = None →
    ∀ q, qkey q ≠ ckey c → ans (exec d c).2 q = ans d q;
  failed_command d c err : (exec d c).1.2 = Some err → (exec d c).2 = d
}.

(** Every cached value is the answer to each valid query with that key. *)
Definition coherent (s : state) : Prop :=
  ∀ q v, contents (app s) !! qkey q = Some v →
    Validate qdeps q = None ∧ ans (data (app s)) q = (v, None).

(** The reference semantics of a query and of a command, without caches. *)
Definition ref_query (d : D) (q : Q) : R * option error :=
  match Validate qdeps q with Some err => (zero, Some err) | None => ans d q end.
Definition ref_command (d : D) (c : C) : R' * option error * D :=
  match Validate cdeps c with Some err => (zero', Some err, d) | None => exec d c end.

Lemma coherent_weaken (s s' : state) :
  coherent s → data (app s') = data (app s) → contents (app s') ⊆ contents (app s) → coherent s'.
Proof.
  intros Hs Hd Hc q v Hv. rewrite Hd. apply Hs. by eapply lookup_weaken.
Qed.

(** The chain below the cache answers like the reference and keeps data and contents. *)
Lemma inner_answers message name (h : Handler (A:=A) (Ctx:=Ctx) (C:=Q) (R:=R)) ctx q (s : state) :
  answers ans h → is_Some (CtxFields qdeps) →
  ∃ s', inner_result zero message name qdeps h ctx q s = (Returns (ref_query (data (app s)) q), s')
    ∧ data (app s') = data (app s) ∧ contents (app s') = contents (app s).
Proof.
  intros Hh [f Hf]. unfold inner_result, ref_query. destruct (Validate qdeps q); [by eexists|].
  destruct (Hh ctx q s) as (s1 & -> & Hd & Hc). rewrite Hf.
  destruct (ans (data (app s)) q) as [r err]. by eexists.
Qed.

Lemma metricsCacheGetter_laws name cache Delete :
  cache_laws cache Delete → cache_laws (metricsCacheGetter name cache) Delete.
Proof.
  intros [Hget Hset Hdel]. split; [|done|done]. intros key s. simpl. unfold pbind.
  destruct (Hget key s) as (v & hit & err & s' & -> & Hd & Hc & Hv).
  destruct err as [err|]; simpl; eexists v, hit, _, _; split; try reflexivity; done.
Qed.

Lemma cached_query cache Delete ttl message name h ctx q (s : state) :
  cache_laws cache Delete → keys_ok → answers ans h → is_Some (CtxFields qdeps) → coherent s →
  ∃ s', WithQueryCaching cache qkey ttl
          (validation zero (Validate qdeps) (logging message name [CtxFields qdeps] (metrics name h)))
          ctx q s = (Returns (ref_query (data (app s)) q), s')
    ∧ data (app s') = data (app s) ∧ coherent s'.
Proof.
  intros [Hget Hset _] Hkeys Hh Hf Hs. unfold WithQueryCaching, pbind at 1.
  destruct (Hget (qkey q) s) as (v & hit & err & s1 & -> & Hd1 & Hc1 & Hv).
  assert (coherent s1) as Hs1 by by eapply coherent_weaken.
  destruct (negb (bool_decide (is_Some err)) && hit)%bool eqn:Hhit.
  - apply andb_true_iff in Hhit as [Herr%negb_true_iff%bool_decide_eq_false ->].
    apply eq_None_not_Some in Herr. destruct (Hs q v) as [Hval Hans]; [by apply Hv|].
    exists s1. unfold ref_query. rewrite Hval, Hans. done.
  - unfold pbind at 1. rewrite inner_chain.
    destruct (inner_answers message name h ctx q s1 Hh Hf) as (s2 & -> & Hd2 & Hc2).
    rewrite Hd1. destruct (ref_query (data (app s)) q) as [r [e|]] eqn:Href; simpl.
    + exists s2. split_and!; [done|congruence|]. apply (coherent_weaken s1); [done|done|by rewrite Hc2].
    + unfold pbind. destruct (Hset (qkey q) r ttl s2) as (err2 & s3 & -> & Hd3 & Hc3).
      exists s3. split_and!; [done|congruence|]. intros q' v' Hv'.
      apply (lookup_weaken _ _ _ _ Hv') in Hc3. rewrite Hd3, Hd2.
      destruct (decide (qkey q = qkey q')) as [Heq|Hne].
      * rewrite Heq, lookup_insert_eq in Hc3. injection Hc3 as <-.
        destruct (key_query Hkeys _ _ Heq) as [<- <-]. unfold ref_query in Href. rewrite Hd1.
        by destruct (Validate qdeps q).
      * rewrite lookup_insert_ne in Hc3 by done. rewrite Hc2 in Hc3. by apply Hs1.
Qed.

Lemma inner_executes message name (h : Handler (A:=A) (Ctx:=Ctx) (C:=C) (R:=R')) ctx c (s : state) :
  executes exec h → is_Some (CtxFields cdeps) →
  ∃ s', inner_result zero' message name cdeps h ctx c s
        = (Returns (ref_command (data (app s)) c).1, s')
    ∧ data (app s') = (ref_command (data (app s)) c).2 ∧ contents (app s') = contents (app s).
Proof.
  intros Hh [f Hf]. unfold inner_result, ref_command. destruct (Validate cdeps c); [by eexists|].
  destruct (Hh ctx c s) as (s1 & -> & Hd & Hc). rewrite Hf.
  destruct (exec (data (app s)) c) as [[r err] d']. by eexists.
Qed.

Lemma invalidating_command cache Delete message name h ctx c (s : state) :
  cache_laws cache Delete → keys_ok → executes exec h → is_Some (CtxFields cdeps) → coherent s →
  ∃ s', WithCommandCacheInvalidation Delete ckey
          (validation zero' (Validate cdeps) (logging message name [CtxFields cdeps] (metrics name h)))
          ctx c s = (Returns (ref_command (data (app s)) c).1, s')
    ∧ data (app s') = (ref_command (data (app s)) c).2 ∧ coherent s'.
Proof.
  intros [_ _ Hdel] Hkeys Hh Hf Hs. unfold WithCommandCacheInvalidation, pbind at 1.
  rewrite inner_chain.
  destruct (inner_executes message name h ctx c s Hh Hf) as (s1 & -> & Hd1 & Hc1).
  destruct (ref_command (data (app s)) c) as [[r err] d'] eqn:Href. simpl in *.
  assert (∀ e, err = Some e → d' = data (app s)) as Hfailed.
  { intros e ->. unfold ref_command in Href. destruct (Validate cdeps c); [by simplify_eq|].
    pose proof (failed_command Hkeys (data (app s)) c e) as Hfail. rewrite Href in Hfail.
    by apply Hfail. }
  destruct err as [e|]; simpl.
  - exists s1. split_and!; [done|done|].
    apply (coherent_weaken s); [done|rewrite Hd1; by eapply Hfailed|by rewrite Hc1].
  - unfold pbind. destruct (Hdel (ckey c) s1) as (s2 & -> & Hd2 & Hc2).
    exists s2. split_and!; [done|congruence|]. intros q v Hv.
    apply (lookup_weaken _ _ _ _ Hv) in Hc2. rewrite Hc1 in Hc2.
    apply lookup_delete_Some in Hc2 as [Hne Hc2]. rewrite Hd2, Hd1.
    destruct (Hs q v Hc2) as [Hval Hans]. split; [done|].
    unfold ref_command in Href. destruct (Validate cdeps c); [by simplify_eq|].
    pose proof (key_command Hkeys (data (app s)) c) as Hcmd. rewrite Href in Hcmd.
    by rewrite Hcmd.
Qed.

Lemma tracing_state {X Y} kind name (h : Handler (A:=A) (Ctx:=Ctx) (C:=X) (R:=Y)) ctx x (s s1 : state) r :
  h (with_span (kind +:+ "/" +:+ name) ctx) x (observing s [SpanStart (kind +:+ "/" +:+ name)])
  = (Returns r, s1) →
  ∃ l, tracing with_span kind name h ctx x s = (Returns r, observing s1 l).
Proof. intros Hh. rewrite tracing_eq. cbv zeta. rewrite Hh. by eexists. Qed.

(** ** A program over the cached handlers and its reference *)

Inductive op := OpQuery (ctx : Ctx) (q : Q) | OpCommand (ctx : Ctx) (c : C).
Definition response : Type := (R * option error) + (R' * option error).

Context (cache : CacheGetter (A:=A) (R:=R)) (Delete : CacheInvalidator (A:=A)) (ttl : Z).
Context (qh : Handler (A:=A) (Ctx:=Ctx) (C:=Q) (R:=R)) (ch : Handler (A:=A) (Ctx:=Ctx) (C:=C) (R:=R')).
Context (qname cname : string).

Fixpoint run_cached (ops : list op) : prog state (list response) :=
  match ops with
  | [] => pret []
  | OpQuery ctx q :: rest =>
      let! r := StandardQueryChainWithCaching zero with_span qh qname cache qkey ttl qdeps ctx q in
      let! rs := run_cached rest in
      pret (inl r :: rs)
  | OpCommand ctx c :: rest =>
      let! r := StandardCommandChainWithInvalidation zero' with_span ch cname Delete ckey cdeps ctx c in
      let! rs := run_cached rest in
      pret (inr r :: rs)
  end.

Fixpoint run_reference (ops : list op) (d : D) : list response :=
  match ops with
  | [] => []
  | OpQuery _ q :: rest => inl (ref_query d q) :: run_reference rest d
  | OpCommand _ c :: rest => inr (ref_command d c).1 :: run_reference rest (ref_command d c).2
  end.

End Caching.

(** ** Witnesses

    The data is a number and the cache a map; the query reads the number, the command sets it. *)
Module CqrsExample.
Definition appdata : Type := Z * gmap string Z.
Definition example_cache : CacheGetter (A:=appdata) (R:=Z) := {|
  cache_Get key s :=
    (Returns (match (app s).2 !! key with Some v => (v, true, None) | None => (0%Z, false, None) end), s);
  cache_Set key v _ s :=
    (Returns None, {| app := ((app s).1, <[key := v]> (app s).2); observed := observed s |})
|}.
Definition example_delete : CacheInvalidator (A:=appdata) := λ key s,
  (Returns None, {| app := ((app s).1, delete key (app s).2); observed := observed s |}).
Definition example_query : Handler (A:=appdata) (Ctx:=unit) (C:=unit) (R:=Z) := λ _ _ s,
  (Returns ((app s).1, None), s).
Definition example_command : Handler (A:=appdata) (Ctx:=unit) (C:=Z) (R:=unit) := λ _ z s,
  (Returns ((), None), {| app := (z, (app s).2); observed := observed s |}).
Definition example_deps C : ChainDeps (Ctx:=unit) (C:=C) :=
  {| CtxFields := Some (λ _, ()); Validate := λ _, None; CacheCounters := true |}.
Definition example_ops : list (op (Ctx:=unit) (Q:=unit) (C:=Z)) :=
  [OpQuery () (); OpCommand () 7%Z; OpQuery () (); OpQuery () ()].
End CqrsExample.
Import CqrsExample.

