(* ===== verification/Cache.v ===== *)
(** * Caches and function decorators

    [Cache.v] models infra/cache (client.go, factory.go, json_adapter.go, local.go, noop.go,
    redis.go, singleflight.go) and infra/decorator.  A client is operations over its state [K];
    [lawful] states what a client promises in terms of the values a lookup may return, and each
    layer of the stack is proved to keep the promise of the one below.  The LRU of
    hashicorp/golang-lru, the Redis client and encoding/json are interfaces.  Calls are atomic:
    a coalesced lookup is the call of its leader. *)

From S2P Require Import Prelude Errors Event.

(** ** client.go *)

Definition ErrCacheMiss : error := ESentinel "cache: miss".

(** A byte slice, nil being [None]. *)
Notation bytes := (option string).

Class Client (K : Type) := {
  Get : string → K → result error bytes * K;
  Set_ : string → bytes → Z → K → option error * K;
  Delete : list string → K → option error * K;
  Ping : K → option error * K;
  Close : K → option error * K
}.

(** [may s k v]: a lookup of [k] in state [s] may return [v].  A lookup returns such a value and
    adds none; a successful write leaves only the value written under its key, a successful
    delete none; a failed write or delete may or may not have happened. *)
Record lawful {K} `{Client K} (may : K → string → bytes → Prop) : Prop := {
  get_law k s : (∀ v, (Get k s).1 = Ok v → may s k v)
                ∧ ∀ k' v, may (Get k s).2 k' v → may s k' v;
  set_law k v ttl s k' v' : may (Set_ k v ttl s).2 k' v' →
    (k' = k ∧ v' = v) ∨ (may s k' v' ∧ (k' = k → (Set_ k v ttl s).1 ≠ None));
  delete_law ks s k' v' : may (Delete ks s).2 k' v' →
    may s k' v' ∧ (k' ∈ ks → (Delete ks s).1 ≠ None)
}.

(** ** noop.go *)

#[export] Instance noopClient : Client unit := {|
  Get _ s := (Err ErrCacheMiss, s);
  Set_ _ _ _ s := (None, s);
  Delete _ s := (None, s);
  Ping s := (None, s);
  Close s := (None, s)
|}.
Lemma noop_lawful : lawful (K := unit) (λ _ _ _, False).
Proof. split; done. Qed.

(** ** redis.go

    The commands of the Redis client; [rdb_Get] gives [goredis.Nil] for a missing key. *)
Class Redis (R : Type) := {
  redis_Nil : error;
  rdb_Get : string → R → result error bytes * R;
  rdb_Set : string → bytes → Z → R → option error * R;
  rdb_Del : list string → R → option error * R;
  rdb_Ping : R → option error * R;
  rdb_Close : R → option error * R
}.
Record redisClient (R : Type) := { rdb : R }.
Arguments rdb {R} _.

Section RedisClient.
Context {R : Type} `{Redis R}.

Definition wrap_err (text : string) (r : option error * R) : option error * redisClient R :=
  (match r.1 with Some err => Some (Errorf_w text err) | None => None end, {| rdb := r.2 |}).
Definition redis_Get (key : string) (c : redisClient R) : result error bytes * redisClient R :=
  let '(r, s) := rdb_Get key (rdb c) in
  (match r with
   | Ok val => Ok val
   | Err err => if errors_Is err redis_Nil then Err ErrCacheMiss
                else Err (Errorf_w ("cache: redis get " +:+ Quote key +:+ ": ") err)
   end, {| rdb := s |}).
Definition redis_Set (key : string) (value : bytes) (ttl : Z) (c : redisClient R) :=
  wrap_err ("cache: redis set " +:+ Quote key +:+ ": ") (rdb_Set key value ttl (rdb c)).
Definition redis_Delete (keys : list string) (c : redisClient R) : option error * redisClient R :=
  match keys with [] => (None, c) | _ => wrap_err "cache: redis delete: " (rdb_Del keys (rdb c)) end.
#[export] Instance redis_Client : Client (redisClient R) := {|
  Get := redis_Get;
  Set_ := redis_Set;
  Delete := redis_Delete;
  Ping c := wrap_err "cache: redis ping: " (rdb_Ping (rdb c));
  Close c := wrap_err "cache: redis close: " (rdb_Close (rdb c))
|}.
(** The connection is verified and closed again when the server does not answer. *)
Definition NewRedisClient (fresh : R) : result error (redisClient R) * R :=
  match rdb_Ping fresh with
  | (None, s) => (Ok {| rdb := s |}, s)
  | (Some err, s) =>
      match rdb_Close s with
      | (Some closeErr, s) =>
          (Err (EWrap ("cache: redis ping failed (" +:+ Error err +:+ "); also failed to close client: "
                         +:+ Error closeErr) err), s)
      | (None, s) => (Err (Errorf_w "cache: redis ping: " err), s)
      end
  end.
End RedisClient.

(** ** singleflight.go

    [group.Do] runs the lookup of the first of the concurrent callers and hands its result to
    all of them.  The result is stored as an interface value, in which a nil slice is not nil. *)
Record SingleflightCache (K : Type) := { sf_inner : K }.
Arguments sf_inner {K} _.

Section Singleflight.
Context {K : Type} `{Client K}.

(** An [any] that holds a byte slice is not nil. *)
Definition any_is_nil (v : bytes) : bool := false.
Definition sf_Get (key : string) (c : SingleflightCache K) : result error bytes * SingleflightCache K :=
  let '(r, s) := Get key (sf_inner c) in
  (match r with
   | Err err => Err err
   | Ok v => if any_is_nil v then Err ErrCacheMiss else Ok v
   end, {| sf_inner := s |}).
Definition lift_sf (r : option error * K) : option error * SingleflightCache K := (r.1, {| sf_inner := r.2 |}).
#[export] Instance sf_Client : Client (SingleflightCache K) := {|
  Get := sf_Get;
  Set_ key value ttl c := lift_sf (Set_ key value ttl (sf_inner c));
  Delete keys c := lift_sf (Delete keys (sf_inner c));
  Ping c := lift_sf (Ping (sf_inner c));
  Close c := lift_sf (Close (sf_inner c))
|}.

Lemma sf_lawful may : lawful may → lawful (λ c k v, may (sf_inner c) k v).
Proof.
  intros [Hget Hset Hdel]. split.
  - intros k c. pose proof (Hget k (sf_inner c)) as [Hv Hs]. cbn. unfold sf_Get.
    destruct (Get k (sf_inner c)) as [[v|err] s]; cbn in *; done.
  - intros k v ttl c k' v'. apply Hset.
  - intros ks c k' v'. apply Hdel.
Qed.
End Singleflight.

(** ** local.go *)

(** The expirable LRU: [lru_entries] is what it holds, with the times of insertion.  It may
    drop entries at any time; an entry is returned until its time to live is over, which a
    non-positive one never is. *)
Definition fresh_at (ttl : Z) (added now : time) : Prop := (0 < ttl → now < added + ttl)%Z.
Class LRU (L : Type) := {
  lru_entries : L → gmap string (bytes * time);
  lru_Get : Z → string → time → L → bytes * bool * L;
  lru_Add : string → bytes → time → L → L;
  lru_Remove : string → L → L;
  lru_Purge : L → L;
  lru_Len : L → Z;
  lru_get_law ttl k now l : (lru_Get ttl k now l).1.2 = true →
    ∃ t, lru_entries l !! k = Some ((lru_Get ttl k now l).1.1, t) ∧ fresh_at ttl t now;
  lru_get_keeps ttl k now l : lru_entries (lru_Get ttl k now l).2 ⊆ lru_entries l;
  lru_add_law k v now l : lru_entries (lru_Add k v now l) ⊆ <[k := (v, now)]> (lru_entries l);
  lru_add_get k v t ttl now l : fresh_at ttl t now → (lru_Get ttl k now (lru_Add k v t l)).1 = (v, true);
  lru_remove_law k l : lru_entries (lru_Remove k l) ⊆ delete k (lru_entries l);
  lru_purge_law l : lru_entries (lru_Purge l) = ∅
}.

Record LocalCache (K L : Type) := { inner : K; store : L; defaultTTL : Z; clock : time }.
Arguments inner {K L} _.
Arguments store {K L} _.
Arguments defaultTTL {K L} _.
Arguments clock {K L} _.

Section Local.
Context {K L : Type} `{Client K} `{LRU L}.

Definition set_local (k : K) (l : L) (c : LocalCache K L) : LocalCache K L :=
  {| inner := k; store := l; defaultTTL := defaultTTL c; clock := clock c |}.
Definition local_Get (key : string) (c : LocalCache K L) : result error bytes * LocalCache K L :=
  let '(data, ok, l) := lru_Get (defaultTTL c) key (clock c) (store c) in
  if ok : bool then (Ok data, set_local (inner c) l c)
  else
    let '(r, k) := Get key (inner c) in
    match r with
    | Err err => (Err err, set_local k l c)
    | Ok data => (Ok data, set_local k (lru_Add key data (clock c) l) c)
    end.
Definition local_Set (key : string) (value : bytes) (ttl : Z) (c : LocalCache K L)
    : option error * LocalCache K L :=
  let '(r, k) := Set_ key value ttl (inner c) in
  match r with
  | Some err => (Some (Errorf_w "local cache: set: " err), set_local k (store c) c)
  | None => (None, set_local k (lru_Add key value (clock c) (store c)) c)
  end.
Definition remove_all (keys : list string) (l : L) : L := foldl (λ l k, lru_Remove k l) l keys.
Definition local_Delete (keys : list string) (c : LocalCache K L) : option error * LocalCache K L :=
  let '(r, k) := Delete keys (inner c) in (r, set_local k (remove_all keys (store c)) c).
Definition Invalidate (keys : list string) (c : LocalCache K L) : LocalCache K L :=
  set_local (inner c) (remove_all keys (store c)) c.
Definition local_Ping (c : LocalCache K L) : option error * LocalCache K L :=
  let '(r, k) := Ping (inner c) in (r, set_local k (store c) c).
Definition local_Close (c : LocalCache K L) : option error * LocalCache K L :=
  let '(r, k) := Close (inner c) in (r, set_local k (lru_Purge (store c)) c).
Definition local_Len (c : LocalCache K L) : Z := lru_Len (store c).
#[export] Instance local_Client : Client (LocalCache K L) := {|
  Get := local_Get; Set_ := local_Set; Delete := local_Delete; Ping := local_Ping; Close := local_Close
|}.

(** What the two levels may return. *)
Definition local_may (may : K → string → bytes → Prop) (c : LocalCache K L) (k : string) (v : bytes) : Prop :=
  (∃ t, lru_entries (store c) !! k = Some (v, t)) ∨ may (inner c) k v.

Lemma remove_all_law keys l k v t :
  lru_entries (remove_all keys l) !! k = Some (v, t) → lru_entries l !! k = Some (v, t) ∧ k ∉ keys.
Proof.
  unfold remove_all. revert l. induction keys as [|x keys IH]; intros l; cbn [foldl]; [set_solver|].
  intros Hl. apply IH in Hl as [Hl Hk]. eapply lookup_weaken in Hl; [|apply lru_remove_law].
  apply lookup_delete_Some in Hl as [Hne Hl]. split; [done|]. set_solver.
Qed.

Lemma add_law k v now l k' v' t :
  lru_entries (lru_Add k v now l) !! k' = Some (v', t) →
  (k' = k ∧ v' = v ∧ t = now) ∨ (k' ≠ k ∧ lru_entries l !! k' = Some (v', t)).
Proof.
  intros Hl. eapply lookup_weaken in Hl; [|apply lru_add_law].
  apply lookup_insert_Some in Hl as [[<- [= <- <-]]|[Hne Hl]]; [by left|]. right. by split.
Qed.

(** the two-level cache keeps the promise of the client below it: a lookup returns only a
    value that the level below or the in-process level held, a successful write leaves no older
    value of its key in either, and a successful delete leaves none. *)
Theorem local_lawful (may : K → string → bytes → Prop) : lawful may → lawful (local_may may).
Proof.
  intros [Hget Hset Hdel]. split.
  - intros k c. cbn. unfold local_Get. pose proof (Hget k (inner c)) as [Hv Hs].
    pose proof (lru_get_law (defaultTTL c) k (clock c) (store c)) as Hhit.
    pose proof (lru_get_keeps (defaultTTL c) k (clock c) (store c)) as Hkeep.
    destruct (lru_Get (defaultTTL c) k (clock c) (store c)) as [[data ok] l]. cbn [fst snd] in *.
    assert (∀ k' v t, lru_entries l !! k' = Some (v, t) → lru_entries (store c) !! k' = Some (v, t)) as Hl
      by (intros; by eapply lookup_weaken).
    destruct ok; [|destruct (Get k (inner c)) as [[d|err] s]]; cbn [fst snd] in *; split.
    + intros v [= <-]. left. destruct (Hhit eq_refl) as (t & Ht & _). eauto.
    + intros k' v [[t Ht]|Hm]; [left; eauto|by right].
    + intros v [= <-]. right. by apply Hv.
    + intros k' v [[t Ht]|Hm]; [|right; by apply Hs].
      apply add_law in Ht as [(-> & -> & _)|[_ Ht]]; [right; by apply Hv|left; eauto].
    + done.
    + intros k' v [[t Ht]|Hm]; [left; eauto|right; by apply Hs].
  - intros k v ttl c k' v'. cbn. unfold local_Set. pose proof (Hset k v ttl (inner c) k' v') as Hs.
    destruct (Set_ k v ttl (inner c)) as [[err|] s]; cbn [fst snd] in *; intros [[t Ht]|Hm].
    + right. split; [left; eauto|done].
    + destruct (Hs Hm) as [?|[Hm' _]]; [by left|]. right. split; [by right|done].
    + apply add_law in Ht as [(-> & -> & _)|[Hne Ht]]; [by left|]. right. split; [left; eauto|done].
    + destruct (Hs Hm) as [?|[Hm' Hne]]; [by left|]. right. split; [by right|]. intros Hk. by destruct (Hne Hk).
  - intros ks c k' v'. cbn. unfold local_Delete. pose proof (Hdel ks (inner c) k' v') as Hs.
    destruct (Delete ks (inner c)) as [r s]; cbn [fst snd] in *. intros [[t Ht]|Hm].
    + apply remove_all_law in Ht as [Ht Hk]. split; [left; eauto|done].
    + destruct (Hs Hm) as [Hm' Hne]. split; [by right|done].
Qed.

(** *** Staleness

    A run of one pod: its calls, writes to the shared level below by others, and time passing.
    The history has the clock and the level below before and after each step. *)
Inductive pod_op :=
| PodGet (key : string)
| PodSet (key : string) (value : bytes) (ttl : Z)
| PodDelete (keys : list string)
| PodInvalidate (keys : list string)
| Others (f : K → K)
| Pass (d : N).
Definition pod_call (c : LocalCache K L) (op : pod_op) : LocalCache K L :=
  match op with
  | PodGet key => (local_Get key c).2
  | PodSet key value ttl => (local_Set key value ttl c).2
  | PodDelete keys => (local_Delete keys c).2
  | PodInvalidate keys => Invalidate keys c
  | Others f => set_local (f (inner c)) (store c) c
  | Pass d => {| inner := inner c; store := store c; defaultTTL := defaultTTL c; clock := clock c + Z.of_N d |}
  end.
Definition snapshot (c : LocalCache K L) : time * K := (clock c, inner c).
Definition pod_step (s : LocalCache K L * list (time * K)) (op : pod_op) : LocalCache K L * list (time * K) :=
  let c := pod_call s.1 op in (c, s.2 ++ [snapshot s.1; snapshot c]).

(** The level below holds [v] under [k]: a lookup returns it, or it has just been written. *)
Definition holds (k : string) (v : bytes) (s : K) : Prop :=
  (Get k s).1 = Ok v ∨ ∃ s0 ttl, Set_ k v ttl s0 = (None, s).
Definition entries_ok (s : LocalCache K L * list (time * K)) : Prop :=
  ∀ k v t, lru_entries (store s.1) !! k = Some (v, t) →
    (t ≤ clock s.1)%Z ∧ ∃ r, (t, r) ∈ s.2 ∧ holds k v r.

Lemma entries_ok_weaken c h c' h' :
  entries_ok (c, h) → (clock c ≤ clock c')%Z → h ⊆ h' →
  (∀ k v t, lru_entries (store c') !! k = Some (v, t) →
     lru_entries (store c) !! k = Some (v, t)
     ∨ (t = clock c' ∧ ∃ r, (clock c', r) ∈ h' ∧ holds k v r)) →
  entries_ok (c', h').
Proof.
  intros Hok Hc Hh Hl k v t Ht. cbn in *. destruct (Hl k v t Ht) as [Ht'|(-> & r & Hr)].
  - destruct (Hok k v t Ht') as (? & r & ? & ?). cbn in *. split; [lia|]. exists r. split; [by apply Hh|done].
  - split; [lia|]. eauto.
Qed.

Lemma pod_step_ok s op : entries_ok s → entries_ok (pod_step s op).
Proof.
  destruct s as [c h]. intros Hok. unfold pod_step. cbn [fst snd].
  apply (entries_ok_weaken c h); [done|..|set_solver|].
  { destruct op; cbn; try (unfold local_Get, local_Set, local_Delete; repeat case_match; cbn; lia). }
  intros k' v' t. destruct op as [key|key value ttl|keys|keys|f|d]; cbn; try (by left).
  - unfold local_Get. pose proof (lru_get_keeps (defaultTTL c) key (clock c) (store c)) as Hkeep.
    destruct (lru_Get (defaultTTL c) key (clock c) (store c)) as [[data ok] l]. cbn [fst snd] in *.
    destruct ok; [|destruct (Get key (inner c)) as [[d|err] r] eqn:E]; cbn; intros Ht;
      try (left; by eapply lookup_weaken).
    apply add_law in Ht as [(-> & -> & ->)|[_ Ht]]; [|left; by eapply lookup_weaken].
    right. split; [done|]. exists (inner c). split; [set_solver|]. left. by rewrite E.
  - unfold local_Set. destruct (Set_ key value ttl (inner c)) as [[err|] r] eqn:E; cbn; intros Ht; [by left|].
    apply add_law in Ht as [(-> & -> & ->)|[_ Ht]]; [|by left].
    right. split; [done|]. exists r. split; [set_solver|]. right. by exists (inner c), ttl.
  - unfold local_Delete. destruct (Delete keys (inner c)) as [r s]. cbn. intros Ht.
    apply remove_all_law in Ht as [Ht _]. by left.
  - intros Ht. apply remove_all_law in Ht as [Ht _]. by left.
Qed.

Lemma pod_run_ok ops s :
  entries_ok s →
  entries_ok (foldl pod_step s ops) ∧ defaultTTL (foldl pod_step s ops).1 = defaultTTL s.1.
Proof.
  revert s. induction ops as [|op ops IH]; intros s Hs; [done|]. cbn [foldl].
  destruct (IH (pod_step s op) (pod_step_ok s op Hs)) as [Hok ->]. split; [done|].
  destruct op; cbn; try done; unfold local_Get, local_Set, local_Delete; repeat case_match; done.
Qed.


(** a time to live of zero or less does not disable the in-process level, as its
    constructor's comment says: an entry then never expires, and a value written once is
    returned at every later time without asking the level below. *)
Theorem zero_ttl_never_expires (c : LocalCache K L) (key : string) (value : bytes) (ttl later : Z) (k : K) :
  (defaultTTL c ≤ 0)%Z → (local_Set key value ttl c).1 = None →
  let c' := (local_Set key value ttl c).2 in
  let c'' := {| inner := k; store := store c'; defaultTTL := defaultTTL c'; clock := later |} in
  (local_Get key c'').1 = Ok value ∧ inner (local_Get key c'').2 = k.
Proof.
  intros Hd Hs. unfold local_Set in *. destruct (Set_ key value ttl (inner c)) as [[err|] s]; [done|].
  cbn. unfold local_Get. cbn.
  pose proof (lru_add_get key value (clock c) (defaultTTL c) later (store c)) as Hg.
  destruct (lru_Get (defaultTTL c) key later (lru_Add key value (clock c) (store c))) as [[d ok] l].
  cbn in Hg. specialize (Hg ltac:(unfold fresh_at; lia)). by simplify_eq/=.
Qed.
End Local.

(** ** factory.go *)

Definition defaultLocalSize : Z := 10000.
Definition defaultLocalTTL : Z := 10 * 10 ^ 9.
Record LocalCacheConfig := { Enabled : bool; Size : Z; TTL : Z }.

Section Factory.
Context {R L : Type} `{Redis R} `{LRU L}.
(** [NewLRU size] is an empty LRU; [connect] opens a Redis client. *)
Context (NewLRU : Z → L) (connect : R).

Inductive client :=
| RemoteClient (c : SingleflightCache (redisClient R))
| NoopClient
| LocalRemote (c : LocalCache (SingleflightCache (redisClient R)) L)
| LocalNoop (c : LocalCache unit L).
Definition NewLocalCache {K} (k : K) (size ttl now : Z) : LocalCache K L :=
  {| inner := k; store := NewLRU size; defaultTTL := ttl; clock := now |}.
Definition NewClient (driver : string) (now : time) (local : LocalCacheConfig) : result error client :=
  let size := if decide (Size local ≤ 0)%Z then defaultLocalSize else Size local in
  let ttl := if decide (TTL local ≤ 0)%Z then defaultLocalTTL else TTL local in
  if (driver =? "redis")%string then
    match (NewRedisClient connect).1 with
    | Err err => Err (Errorf_w "cache: factory: " err)
    | Ok rc =>
        let c := {| sf_inner := rc |} in
        Ok (if Enabled local then LocalRemote (NewLocalCache c size ttl now) else RemoteClient c)
    end
  else Ok (if Enabled local then LocalNoop (NewLocalCache tt size ttl now) else NoopClient).

Lemma NewClient_ttl driver now local c :
  NewClient driver now local = Ok c →
  match c with
  | LocalRemote c => (0 < defaultTTL c)%Z
  | LocalNoop c => (0 < defaultTTL c)%Z
  | _ => True
  end.
Proof. unfold NewClient. repeat case_match; intros; simplify_eq/=; unfold defaultLocalTTL; try done; lia. Qed.
End Factory.

(** ** json_adapter.go *)

Section JSONAdapter.
Context {K R : Type} `{Client K}.
(** [json.Marshal] and [json.Unmarshal] at the type [R]. *)
Context (marshal : R → result error string) (unmarshal : bytes → result error R) (zero : R).

Record JSONAdapter := { client_ : K; prefix : string }.
Definition adapter_Get (a : JSONAdapter) (key : string) : R * bool * option error * K :=
  let '(r, k) := Get (prefix a +:+ key) (client_ a) in
  match r with
  | Err err => if errors_Is err ErrCacheMiss then (zero, false, None, k) else (zero, false, Some err, k)
  | Ok data =>
      match unmarshal data with
      | Err _ => (zero, false, None, (Delete [prefix a +:+ key] k).2)
      | Ok result => (result, true, None, k)
      end
  end.
Definition adapter_Set (a : JSONAdapter) (key : string) (value : R) (ttl : Z) : option error * K :=
  match marshal value with
  | Err err => (Some (Errorf_w ("cache: marshal value for key " +:+ Quote (prefix a +:+ key) +:+ ": ") err), client_ a)
  | Ok data => Set_ (prefix a +:+ key) (Some data) ttl (client_ a)
  end.
Definition adapter_Delete (a : JSONAdapter) (keys : list string) : option error * K :=
  Delete (map (λ k, prefix a +:+ k) keys) (client_ a).

(** over a lawful client the typed adapter returns a hit only for a value that decodes a
    document the cache may hold under the prefixed key, and never reports a miss as an error;
    after a successful [Set] a hit on the same key is the value that was set, and a document
    that does not decode is a miss and is deleted. *)
Theorem adapter_correct (may : K → string → bytes → Prop) (a : JSONAdapter) (key : string) (value : R) (ttl : Z) :
  lawful may → (∀ r d, marshal r = Ok d → unmarshal (Some d) = Ok r) →
  (∀ v, (adapter_Get a key).1 = (v, true, None) →
        ∃ d, may (client_ a) (prefix a +:+ key) d ∧ unmarshal d = Ok v)
  ∧ (∀ k', adapter_Set a key value ttl = (None, k') →
       let '(v, hit, err, _) := adapter_Get {| client_ := k'; prefix := prefix a |} key in
       hit = true → v = value ∧ err = None)
  ∧ (∀ d, (Get (prefix a +:+ key) (client_ a)).1 = Ok d → is_ok (unmarshal d) = false →
       (adapter_Get a key).1 = (zero, false, None)).
Proof.
  intros [Hget Hset _] Hjson. split_and!.
  - intros v. unfold adapter_Get. destruct (Hget (prefix a +:+ key) (client_ a)) as [Hv _].
    destruct (Get (prefix a +:+ key) (client_ a)) as [[d|err] k]; [|by destruct (errors_Is err ErrCacheMiss)].
    destruct (unmarshal d) eqn:E; [|done]. intros [= <-]. exists d. split; [by apply Hv|done].
  - intros k' Hs. unfold adapter_Set in Hs. destruct (marshal value) as [data|err] eqn:Em; [|done].
    unfold adapter_Get. cbn [client_ prefix]. destruct (Hget (prefix a +:+ key) k') as [Hv _].
    destruct (Get (prefix a +:+ key) k') as [[d|err] k]; [|by destruct (errors_Is err ErrCacheMiss)].
    destruct (unmarshal d) as [r|] eqn:E; [|done]. intros _. split; [|done].
    pose proof (Hset (prefix a +:+ key) (Some data) ttl (client_ a) (prefix a +:+ key) d) as Hlaw.
    rewrite Hs in Hlaw. destruct (Hlaw (Hv d eq_refl)) as [[_ ->]|[_ Hne]]; [|by destruct Hne].
    rewrite (Hjson value data Em) in E. congruence.
  - intros d Hd Hbad. unfold adapter_Get. destruct (Get (prefix a +:+ key) (client_ a)) as [r k].
    cbn in Hd. subst r. by destruct (unmarshal d).
Qed.
End JSONAdapter.
Arguments JSONAdapter : clear implicits.

(** ** infra/decorator *)

Section Decorators.
Context {W In Out : Type}.

(** A decorated function returns a value and an error, both of which its caller sees. *)
Definition DFunc : Type := In → W → (Out * option error) * W.
Definition DMiddleware : Type := DFunc → DFunc.
Definition DChain (fn : DFunc) (mws : list DMiddleware) : DFunc := foldl (λ f mw, mw f) fn (rev mws).

(** The log and the metrics are told through [tell]. *)
Inductive note :=
| OperationFailed (operation : string) (err : error)
| OperationSucceeded (operation : string)
| Observed (operation status : string)
| CacheWarning (text key : string) (err : error).
Context (tell : note → W → W).

Definition WithLogging (operation : string) : DMiddleware := λ next inp w,
  let '((result, err), w) := next inp w in
  match err with
  | Some e => ((result, err), tell (OperationFailed operation e) w)
  | None => ((result, None), tell (OperationSucceeded operation) w)
  end.
Definition WithMetrics (operation : string) : DMiddleware := λ next inp w,
  let '((result, err), w) := next inp w in
  ((result, err), tell (Observed operation (if err is Some _ then "error" else "success")) w).

(** [WithCache] over a client that lives in the world. *)
Context {K : Type} `{Client K} (client_of : W → K) (with_client : K → W → W).
Context (marshal : Out → result error string) (unmarshal : bytes → result error Out).
(** The path to [next], whose result is stored. *)
Definition cache_miss (key : string) (ttl : Z) (next : DFunc) (inp : In) (w : W) : (Out * option error) * W :=
  let '((result, err), w) := next inp w in
  match err with
  | Some _ => ((result, err), w)
  | None =>
      match marshal result with
      | Err e => ((result, None), tell (CacheWarning "cache marshal error" key e) w)
      | Ok raw =>
          let '(setErr, k) := Set_ key (Some raw) ttl (client_of w) in
          let w := with_client k w in
          ((result, None), match setErr with
                           | Some e => tell (CacheWarning "cache set error" key e) w
                           | None => w
                           end)
      end
  end.
Definition WithCache (keyFn : In → string) (ttl : Z) : DMiddleware := λ next inp w,
  let key := keyFn inp in
  let '(r, k) := Get key (client_of w) in
  let w := with_client k w in
  match r with
  | Ok raw =>
      match unmarshal raw with
      | Ok cached => ((cached, None), w)
      | Err _ => cache_miss key ttl next inp w
      end
  | Err err =>
      cache_miss key ttl next inp
        (if errors_Is err ErrCacheMiss then w else tell (CacheWarning "cache get error" key err) w)
  end.

(** The first middleware is the outermost. *)
Lemma DChain_cons fn mw mws : DChain fn (mw :: mws) = mw (DChain fn mws).
Proof. unfold DChain. cbn [rev]. by rewrite foldl_app. Qed.

(** The world as far as caching is concerned: the client, which the decorated function and the
    notes leave alone. *)
Record cache_world (may : K → string → bytes → Prop) : Prop := {
  world_lawful : lawful may;
  world_client k w : client_of (with_client k w) = k;
  world_tell n w : client_of (tell n w) = client_of w
}.
(** Every document the cache may return for a key of the function decodes to its answer. *)
Definition answers_ok (may : K → string → bytes → Prop) (keyFn : In → string) (f : In → Out * option error) (w : W) :=
  ∀ inp d v, may (client_of w) (keyFn inp) d → unmarshal d = Ok v → f inp = (v, None).

(** caching is transparent.  A function whose answer depends on its input only gives the same
    answer through [WithCache], whatever errors the cache reports, and keeps the cache correct;
    an error of the function is returned and never cached.  Inputs of one key must have the
    same answer. *)
Theorem WithCache_transparent (may : K → string → bytes → Prop) (keyFn : In → string) (ttl : Z)
    (next : DFunc) (f : In → Out * option error) (w : W) (inp : In) :
  cache_world may → (∀ r d, marshal r = Ok d → unmarshal (Some d) = Ok r) →
  (∀ i j, keyFn i = keyFn j → f i = f j) →
  (∀ i w, (next i w).1 = f i ∧ client_of (next i w).2 = client_of w) →
  answers_ok may keyFn f w →
  (WithCache keyFn ttl next inp w).1 = f inp ∧ answers_ok may keyFn f (WithCache keyFn ttl next inp w).2.
Proof.
  intros [[Hget Hset _] Hcl Htell] Hjson Hkey Hnext Hok. unfold WithCache.
  destruct (Hget (keyFn inp) (client_of w)) as [Hv Hs].
  destruct (Get (keyFn inp) (client_of w)) as [r k] eqn:Eg. cbn [fst snd] in Hv, Hs.
  assert (answers_ok may keyFn f (with_client k w)) as Hok1.
  { intros i d v Hd. rewrite Hcl in Hd. apply (Hok i d v). by apply Hs. }
  assert (∀ w1, answers_ok may keyFn f w1 → (cache_miss (keyFn inp) ttl next inp w1).1 = f inp
          ∧ answers_ok may keyFn f (cache_miss (keyFn inp) ttl next inp w1).2) as Hmiss.
  { intros w1 Hok2. unfold cache_miss. destruct (Hnext inp w1) as [Hres Hsame].
    destruct (next inp w1) as [[result err] w2]. cbn [fst snd] in *.
    assert (answers_ok may keyFn f w2) as Hok3 by (intros i d v; rewrite Hsame; apply Hok2).
    destruct err as [e|]; [done|]. destruct (marshal result) as [raw|e] eqn:Em.
    - pose proof (λ k' v', Hset (keyFn inp) (Some raw) ttl (client_of w2) k' v') as Hlaw.
      destruct (Set_ (keyFn inp) (Some raw) ttl (client_of w2)) as [setErr k2]. cbn [fst snd] in Hlaw.
      split; [done|]. intros i d v Hd Hu.
      assert (may k2 (keyFn i) d) as Hd' by (cbn [snd] in Hd; destruct setErr; by rewrite ?Htell, Hcl in Hd).
      destruct (Hlaw _ _ Hd') as [[Hk ->]|[Hd2 _]]; [|by apply (Hok3 i d v)].
      rewrite (Hjson _ _ Em) in Hu. simplify_eq. by rewrite (Hkey _ _ Hk).
    - split; [done|]. intros i d v Hd. cbn [snd] in Hd. rewrite Htell in Hd. by apply Hok3. }
  cbv zeta. destruct r as [raw|err].
  - destruct (unmarshal raw) as [cached|e] eqn:Eu; [|by apply Hmiss].
    split; [|done]. symmetry. apply (Hok inp raw cached); [by apply Hv|done].
  - apply Hmiss. destruct (errors_Is err ErrCacheMiss); [done|].
    intros i d v Hd. rewrite Htell in Hd. by apply Hok1.
Qed.
End Decorators.

(** ** Witnesses

    A remote cache that is a map, and an LRU that never evicts. *)
Module CacheExample.
#[export] Instance map_client : Client (gmap string bytes) := {|
  Get k s := (match s !! k with Some v => Ok v | None => Err ErrCacheMiss end, s);
  Set_ k v _ s := (None, <[k := v]> s);
  Delete ks s := (None, foldl (λ s k, delete k s) s ks);
  Ping s := (None, s);
  Close s := (None, s)
|}.
Definition map_may (s : gmap string bytes) (k : string) (v : bytes) : Prop := s !! k = Some v.
Lemma map_lawful : lawful map_may.
Proof.
  unfold map_may. split; cbn.
  - intros k s. split; [|done]. intros v. by destruct (s !! k) as [d|] eqn:E; intros [= <-].
  - intros k v ttl s k' v' Hl. apply lookup_insert_Some in Hl as [[-> ->]|[Hne Hl]]; [by left|]. right. by split.
  - intros ks s k' v'. revert s. induction ks as [|x ks IH]; intros s Hl; cbn in *; [set_solver|].
    apply IH in Hl as [Hl Hk]. apply lookup_delete_Some in Hl as [Hne Hl]. split; [done|]. set_solver.
Qed.

Definition plain_lru : LRU (gmap string (bytes * time)).
Proof.
  refine {| lru_entries := id;
            lru_Get ttl k now l := (match l !! k with
                                    | Some (v, t) => if bool_decide (fresh_at ttl t now) then (v, true) else (None, false)
                                    | None => (None, false)
                                    end, l);
            lru_Add k v now l := <[k := (v, now)]> l;
            lru_Remove k l := delete k l;
            lru_Purge _ := ∅;
            lru_Len l := Z.of_nat (size l) |}; cbn.
  - intros ttl k now l. destruct (l !! k) as [[v t]|] eqn:E; [|done]. case_bool_decide; [|done]. eauto.
  - done.
  - done.
  - intros k v t ttl now l Hf. rewrite lookup_insert_eq. by rewrite bool_decide_eq_true_2.
  - done.
  - done.
Defined.
#[export] Existing Instance plain_lru.
Definition pod : LocalCache (gmap string bytes) (gmap string (bytes * time)) :=
  {| inner := ∅; store := ∅; defaultTTL := 10; clock := 0 |}.
End CacheExample.
Import CacheExample.

Example local_lawful_witness : lawful map_may ∧ lawful (local_may (L := gmap string (bytes * time)) map_may).
Proof. split; [exact map_lawful|]. apply local_lawful. exact map_lawful. Defined.


Example zero_ttl_never_expires_witness :
  let c : LocalCache (gmap string bytes) (gmap string (bytes * time)) :=
    {| inner := ∅; store := ∅; defaultTTL := 0; clock := 0 |} in
  let c' := (local_Set "k" (Some "v") 60 c).2 in
  (local_Get "k" {| inner := ∅; store := store c'; defaultTTL := defaultTTL c'; clock := 10 ^ 18 |}).1 = Ok (Some "v").
Proof.
  intros c c'.
  exact (proj1 (zero_ttl_never_expires c "k" (Some "v") 60 (10 ^ 18) (∅ : gmap string bytes) (Z.le_refl 0) eq_refl)).
Defined.

Definition text_marshal (s : string) : result error string := Ok s.
Definition text_unmarshal (d : bytes) : result error string :=
  match d with Some s => Ok s | None => Err (EText "eof") end.

Example adapter_correct_witness :
  (adapter_Get text_unmarshal EmptyString
     {| client_ := (adapter_Set text_marshal {| client_ := (∅ : gmap string bytes); prefix := "p:" |} "k" "v" 60).2;
        prefix := "p:" |} "k").1 = ("v", true, None).
Proof.
  destruct (adapter_correct text_marshal text_unmarshal EmptyString map_may
              {| client_ := (∅ : gmap string bytes); prefix := "p:" |} "k" "v" 60 map_lawful
              ltac:(by intros r d [= <-])) as (_ & Hset & _).
  specialize (Hset _ eq_refl). destruct (Hset eq_refl) as [_ _]. reflexivity.
Defined.

Example WithCache_transparent_witness :
  let next : DFunc (W := gmap string bytes) := λ n w, ((pretty n, None), w) in
  (WithCache (λ _ w, w) id (λ k _, k) text_marshal text_unmarshal (λ n : nat, pretty n) 60 next 7 ∅).1 = ("7", None).
Proof.
  intros next.
  refine (proj1 (WithCache_transparent (λ _ w, w) id (λ k _, k) text_marshal text_unmarshal map_may
     (λ n : nat, pretty n) 60 next (λ n, (pretty n, None)) ∅ 7 _ _ _ _ _)).
  - split; [exact map_lawful|done|done].
  - by intros r d [= <-].
  - intros i j E. by rewrite E.
  - done.
  - intros inp d v Hd. change ((∅ : gmap string bytes) !! (pretty inp : string) = Some d) in Hd. by rewrite lookup_empty in Hd.
Defined.
