(* ===== verification/Concurrency.v ===== *)
(** * Concurrency helpers and ordered shutdown

    [Concurrency.v] models infra/concurrency: sharded processing (sharded.go), the shutdown group
    (shutdown.go) with the groups of infra/bootstrap/lifecycle.go, and the worker pool
    (workerpool.go).  Goroutines are interleaved by a schedule or a step relation over which the
    theorems quantify. *)

From S2P Require Import Prelude Errors.

(** ** sharded.go *)

Section Sharded.
Context {T R : Type}.

(** [max(1, min(workers, n))] *)
Definition clamp_workers (workers : Z) (n : nat) : nat :=
  Z.to_nat (Z.max 1 (Z.min workers (Z.of_nat n))).

(** The loop over the workers: the shards from worker [i] on, of the items from the offset on. *)
Fixpoint shards_from (i k base remainder : nat) (items : list T) : list (list T) :=
  match k with
  | O => []
  | S k' =>
      let size := if i <? remainder then S base else base in
      take size items :: shards_from (S i) k' base remainder (drop size items)
  end.
Definition shards (items : list T) (workers : Z) : list (list T) :=
  let n := length items in
  let w := clamp_workers workers n in
  shards_from 0 w (n / w) (n mod w) items.

(** Each goroutine writes the result of its shard at its own index. *)
Definition ProcessSharded (items : list T) (workers : Z) (fn : list T → R) : list R :=
  match items with [] => [] | _ => map fn (shards items workers) end.

(** The loop that merges the results: the error of the first failed shard in index order. *)
Fixpoint collect (results : list (R * option error)) (merged : list R) : result error (list R) :=
  match results with
  | [] => Ok merged
  | (_, Some err) :: _ => Err err
  | (v, None) :: rest => collect rest (merged ++ [v])
  end.

(** [fn] sees whether the context was cancelled while it ran; [cancelled i] tells whether the
    goroutine of shard [i] saw it. *)
Definition run_shards (fn : bool → list T → R * option error) (cancelled : nat → bool)
    (ss : list (list T)) : list (R * option error) :=
  imap (λ i s, fn (cancelled i) s) ss.

Definition ProcessShardedWithError (items : list T) (workers : Z)
    (fn : bool → list T → R * option error) (cancelled : nat → bool)
    (merge : list R → R) (zero : R) : R * option error :=
  match items with
  | [] => (zero, None)
  | _ =>
      match collect (run_shards fn cancelled (shards items workers)) [] with
      | Err err => (zero, Some err)
      | Ok merged => (merge merged, None)
      end
  end.
End Sharded.

(** ** shutdown.go *)

Section Shutdown.
Context {S : Type}.

Record shutdownEntry := { priority : Z; name : string; closer : S → option error * S }.
Definition ShutdownGroup := list shutdownEntry.

Definition Add (p : Z) (n : string) (c : S → option error * S) (g : ShutdownGroup) : ShutdownGroup :=
  g ++ [{| priority := p; name := n; closer := c |}].

(** [sort.SliceStable] by priority. *)
Fixpoint insert_entry (e : shutdownEntry) (l : list shutdownEntry) : list shutdownEntry :=
  match l with
  | [] => [e]
  | e' :: l' => if bool_decide (priority e ≤ priority e')%Z then e :: l else e' :: insert_entry e l'
  end.
Definition SliceStable (l : list shutdownEntry) : list shutdownEntry := foldr insert_entry [] l.

(** The contiguous entries with the priority [p], and the rest. *)
Fixpoint span_priority (p : Z) (l : list shutdownEntry) : list shutdownEntry * list shutdownEntry :=
  match l with
  | [] => ([], [])
  | e :: l' =>
      if decide (priority e = p)
      then let '(batch, rest) := span_priority p l' in (e :: batch, rest)
      else ([], l)
  end.

(** A schedule chooses the order in which the goroutines of a batch run their closers. *)
Context (sched : list (nat * shutdownEntry) → list (nat * shutdownEntry)).

(** The closers run in the order of the schedule; [batchErrs] by index. *)
Fixpoint run_closers (l : list (nat * shutdownEntry)) (errs : gmap nat (option error)) (s : S)
    : gmap nat (option error) * S :=
  match l with
  | [] => (errs, s)
  | (idx, e) :: l' => let '(err, s) := closer e s in run_closers l' (<[idx := err]> errs) s
  end.
Definition run_batch (batch : list shutdownEntry) (s : S) : list (option error) * S :=
  let '(errs, s) := run_closers (sched (imap pair batch)) ∅ s in
  (imap (λ idx _, default None (errs !! idx)) batch, s).

(** The loop over the batches; [None] when the fuel runs out first. *)
Fixpoint shutdown_loop (fuel : nat) (l : list shutdownEntry) (allErrs : list (option error)) (s : S)
    : option (option error * S) :=
  match fuel with
  | O => None
  | Datatypes.S fuel' =>
      match l with
      | [] => Some (errors_Join allErrs, s)
      | e :: _ =>
          let '(batch, rest) := span_priority (priority e) l in
          let '(batchErrs, s) := run_batch batch s in
          shutdown_loop fuel' rest
            (allErrs ++ filter (λ err, is_Some err) batchErrs) s
      end
  end.
Definition Shutdown (g : ShutdownGroup) (s : S) : option (option error * S) :=
  shutdown_loop (Datatypes.S (length g)) (SliceStable g) [] s.

(** ** infra/bootstrap/lifecycle.go: the group of [App.Shutdown] *)

(** [stop] wraps the error of a step with its message and logs success. *)
Definition step (msg : string) (close : S → option error * S) : S → option error * S := λ s,
  match close s with
  | (Some err, s) => (Some (Errorf_w msg err), s)
  | (None, s) => (None, s)
  end.

Record App := {
  modules : list (string * (S → option error * S)); (* name and OnStop *)
  eventBus : S → option error * S;
  stream : S → option error * S;
  cacheClient : S → option error * S;
  writeDB : S → option error * S;
  readDB : S → option error * S;
  tracerProvider : option (S → option error * S)
}.

Definition add_modules (ms : list (string * (S → option error * S))) (g : ShutdownGroup)
    : ShutdownGroup :=
  foldl (λ g m, Add 1 ("module-" +:+ m.1)
                  (step ("bootstrap: module " +:+ Quote m.1 +:+ " OnStop: ") m.2) g) g (rev ms).

Definition app_group (a : App) : ShutdownGroup :=
  let g := add_modules (modules a) [] in
  let g := Add 2 "event-bus" (step "bootstrap: close event bus: " (eventBus a)) g in
  let g := Add 2 "messaging-stream" (step "bootstrap: close messaging stream: " (stream a)) g in
  let g := Add 3 "cache-client" (step "bootstrap: close cache client: " (cacheClient a)) g in
  let g := Add 4 "write-db" (step "bootstrap: close write db pool: " (writeDB a)) g in
  let g := Add 4 "read-db" (step "bootstrap: close read db pool: " (readDB a)) g in
  match tracerProvider a with
  | Some t => Add 5 "tracer-provider" (step "bootstrap: shutdown tracer provider: " t) g
  | None => g
  end.

Definition App_Shutdown (a : App) (s : S) : option (option error * S) := Shutdown (app_group a) s.
End Shutdown.

(** ** workerpool.go

    A worker is idle, handles an item, or has returned.  [submitted], [handled] and [dropped]
    record what happened to the items. *)
Section WorkerPool.
Context {T : Type}.

Record WorkerPool := {
  p_workers : nat; p_capacity : nat;
  queue : list T; closed : bool; cancelled : bool;
  running : list T; exited : nat;
  submitted : list T; handled : list T; dropped : list T
}.

Definition NewWorkerPool (workers queueSize : Z) : WorkerPool :=
  let workers := if bool_decide (workers ≤ 0)%Z then 1%Z else workers in
  let queueSize := if bool_decide (queueSize ≤ 0)%Z then (workers * 2)%Z else queueSize in
  {| p_workers := Z.to_nat workers; p_capacity := Z.to_nat queueSize; queue := []; closed := false;
     cancelled := false; running := []; exited := 0; submitted := []; handled := []; dropped := [] |}.

Definition Submit (item : T) (p : WorkerPool) : outcome (option error) * WorkerPool :=
  if closed p then (Panics "send on closed channel", p)
  else if length (queue p) <? p_capacity p then
    (Returns None,
     {| p_workers := p_workers p; p_capacity := p_capacity p; queue := queue p ++ [item];
        closed := closed p; cancelled := cancelled p; running := running p; exited := exited p;
        submitted := submitted p ++ [item]; handled := handled p; dropped := dropped p |})
  else (Returns (Some (EText ("workerpool: queue is full (capacity "
                              +:+ pretty (N.of_nat (p_capacity p)) +:+ ")"))), p).

(** The steps of the clients and of the workers' loop [run]. *)
Inductive pool_step : WorkerPool → WorkerPool → Prop :=
| PSubmit p item r p' : Submit item p = (r, p') → pool_step p p'
| PTake p item rest :
    queue p = item :: rest → cancelled p = false → length (running p) + exited p < p_workers p →
    pool_step p
      {| p_workers := p_workers p; p_capacity := p_capacity p; queue := rest; closed := closed p;
         cancelled := cancelled p; running := item :: running p; exited := exited p;
         submitted := submitted p; handled := handled p; dropped := dropped p |}
| PAbandon p item rest :
    queue p = item :: rest → cancelled p = true → length (running p) + exited p < p_workers p →
    pool_step p
      {| p_workers := p_workers p; p_capacity := p_capacity p; queue := rest; closed := closed p;
         cancelled := cancelled p; running := running p; exited := S (exited p);
         submitted := submitted p; handled := handled p; dropped := dropped p ++ [item] |}
| PFinish p l1 item l2 :
    running p = l1 ++ item :: l2 →
    pool_step p
      {| p_workers := p_workers p; p_capacity := p_capacity p; queue := queue p; closed := closed p;
         cancelled := cancelled p; running := l1 ++ l2; exited := exited p;
         submitted := submitted p; handled := handled p ++ [item]; dropped := dropped p |}
| PReturn p :
    queue p = [] → closed p = true → length (running p) + exited p < p_workers p →
    pool_step p
      {| p_workers := p_workers p; p_capacity := p_capacity p; queue := queue p; closed := closed p;
         cancelled := cancelled p; running := running p; exited := S (exited p);
         submitted := submitted p; handled := handled p; dropped := dropped p |}
| PClose p :
    pool_step p
      {| p_workers := p_workers p; p_capacity := p_capacity p; queue := queue p; closed := true;
         cancelled := cancelled p; running := running p; exited := exited p;
         submitted := submitted p; handled := handled p; dropped := dropped p |}
| PCancel p :
    pool_step p
      {| p_workers := p_workers p; p_capacity := p_capacity p; queue := queue p; closed := closed p;
         cancelled := true; running := running p; exited := exited p;
         submitted := submitted p; handled := handled p; dropped := dropped p |}.
(** [Stop] returns when [wg.Wait()] does: every worker has returned. *)
Definition stopped (p : WorkerPool) : Prop := closed p = true ∧ exited p = p_workers p.
End WorkerPool.

(** ** Properties of sharding *)

Section ShardedProperties.
Context {T R : Type}.

Lemma shards_from_spec k : ∀ i base remainder (items : list T),
  length items = k * base + k `min` (remainder - i) →
  concat (shards_from i k base remainder items) = items
  ∧ length (shards_from i k base remainder items) = k
  ∧ Forall (λ s, base ≤ length s ≤ S base) (shards_from i k base remainder items).
Proof.
  induction k as [|k IH]; intros i base remainder items Hlen; simpl.
  { split_and!; [|done|constructor]. by destruct items. }
  rewrite Nat.mul_succ_l in Hlen.
  set (size := if i <? remainder then S base else base).
  assert (size = base + (if i <? remainder then 1 else 0)) as Hsize by (subst size; destruct (_ <? _); lia).
  assert (size ≤ length items ∧ length items - size = k * base + k `min` (remainder - S i)) as [Hle Hrest].
  { rewrite Hsize, Hlen. destruct (Nat.ltb_spec i remainder); lia. }
  destruct (IH (S i) base remainder (drop size items)) as (Hcat & Hk & Hall).
  { by rewrite length_drop. }
  split_and!; [by rewrite Hcat, take_drop|by rewrite Hk|]. constructor; [|done].
  rewrite length_take. rewrite Nat.min_l by done. rewrite Hsize. destruct (_ <? _); lia.
Qed.

Lemma clamp_workers_bounds workers n : 0 < n → 1 ≤ clamp_workers workers n ≤ n.
Proof. unfold clamp_workers. lia. Qed.

(** Sharding covers the items: the results are those of the function on consecutive shards
    whose concatenation is the input, one per worker after clamping the number of workers to
    between one and the number of items, none of them empty and no two differing in size by
    more than one. *)
Theorem ProcessSharded_covers (items : list T) (workers : Z) (fn : list T → R) :
  items ≠ [] →
  ∃ ss, ProcessSharded items workers fn = map fn ss ∧ concat ss = items
    ∧ length ss = clamp_workers workers (length items)
    ∧ (∀ s, s ∈ ss → 1 ≤ length s) ∧ (∀ s s', s ∈ ss → s' ∈ ss → length s ≤ S (length s')).
Proof.
  intros Hne. set (n := length items). set (w := clamp_workers workers n).
  assert (0 < n) as Hn by (subst n; destruct items; simpl; [done|lia]).
  pose proof (clamp_workers_bounds workers n Hn) as Hw. fold w in Hw.
  destruct (shards_from_spec w 0 (n / w) (n mod w) items) as (Hcat & Hlen & Hall).
  { fold n. rewrite Nat.sub_0_r. pose proof (Nat.mod_upper_bound n w).
    pose proof (Nat.div_mod_eq n w). lia. }
  exists (shards items workers). rewrite Forall_forall in Hall.
  assert (1 ≤ n / w) as Hbase by (apply Nat.div_le_lower_bound; lia).
  split_and!; [by destruct items|done|done| |].
  - intros s Hs. apply Hall in Hs. lia.
  - intros s s' Hs Hs'. apply Hall in Hs, Hs'. lia.
Qed.

Lemma collect_spec (results : list (R * option error)) merged :
  (∃ vs, results = map (λ v, (v, None)) vs ∧ collect results merged = Ok (merged ++ vs))
  ∨ (∃ i v err, results !! i = Some (v, Some err) ∧ collect results merged = Err err
       ∧ ∀ j v' err', j < i → results !! j = Some (v', err') → err' = None).
Proof.
  revert merged. induction results as [|[v [err|]] results IH]; intros merged; simpl.
  - left. exists []. by rewrite app_nil_r.
  - right. exists 0, v, err. split_and!; [done|done|]. intros j ?? Hj. lia.
  - destruct (IH (merged ++ [v])) as [(vs & -> & ->)|(i & v' & err & Hi & -> & Hlow)].
    + left. exists (v :: vs). by rewrite <- app_assoc.
    + right. exists (S i), v', err. split_and!; [done|done|]. intros [|j] v'' err' Hj Hlook; simpl in *;
        [by simplify_eq|]. eapply Hlow; [|done]. lia.
Qed.

(** [ProcessShardedWithError] merges the results of all shards when none fails, and otherwise
    returns the error of the failed shard with the lowest index, which may be the cancellation
    that another shard's failure caused rather than that failure. *)
Theorem sharded_error_lowest_index (items : list T) (workers : Z)
    (fn : bool → list T → R * option error) (cancelled : nat → bool) (merge : list R → R) (zero : R) :
  items ≠ [] →
  let ss := shards items workers in
  (∃ vs, (∀ i s, ss !! i = Some s → ∃ v, vs !! i = Some v ∧ fn (cancelled i) s = (v, None))
     ∧ length vs = length ss
     ∧ ProcessShardedWithError items workers fn cancelled merge zero = (merge vs, None))
  ∨ (∃ i s v err, ss !! i = Some s ∧ fn (cancelled i) s = (v, Some err)
     ∧ (∀ j s', j < i → ss !! j = Some s' → (fn (cancelled j) s').2 = None)
     ∧ ProcessShardedWithError items workers fn cancelled merge zero = (zero, Some err)).
Proof.
  intros Hne ss. unfold ProcessShardedWithError.
  assert (∀ i, run_shards fn cancelled ss !! i = (λ s, fn (cancelled i) s) <$> ss !! i) as Hrun
    by (intros i; apply (list_lookup_imap (λ i s, fn (cancelled i) s))).
  destruct items as [|x items]; [done|]. fold ss.
  destruct (collect_spec (run_shards fn cancelled ss) []) as [(vs & Hvs & ->)|(i & v & err & Hi & -> & Hlow)].
  - left. exists vs. split_and!; [|by rewrite <- (length_imap (λ i s, fn (cancelled i) s) ss);
      fold (run_shards fn cancelled ss); rewrite Hvs, length_map|done].
    intros i s Hs. specialize (Hrun i). rewrite Hs, Hvs, list_lookup_fmap in Hrun.
    destruct (vs !! i) as [v|]; simpl in Hrun; [|done]. injection Hrun as Hrun. eauto.
  - right. rewrite Hrun in Hi. destruct (ss !! i) as [s|] eqn:Hs; simpl in Hi; [|done].
    injection Hi as Hi. exists i, s, v, err. split_and!; [done|done| |done].
    intros j s' Hj Hs'. specialize (Hrun j). rewrite Hs' in Hrun. simpl in Hrun.
    destruct (fn (cancelled j) s') as [v' err'] eqn:Hfn. simpl. by eapply Hlow.
Qed.
End ShardedProperties.

(** ** Properties of the shutdown *)

Section ShutdownProperties.
Context {S : Type}.
Notation shutdownEntry := (shutdownEntry (S:=S)).

Definition before (e e' : shutdownEntry) : Prop := (priority e ≤ priority e')%Z.

(** The closers run one after the other: their results and the final state. *)
Fixpoint run_order (l : list shutdownEntry) (s : S) : list (option error) * S :=
  match l with
  | [] => ([], s)
  | e :: l' =>
      let '(err, s) := closer e s in
      let '(errs, s) := run_order l' s in (err :: errs, s)
  end.

Lemma run_order_app l1 l2 s :
  run_order (l1 ++ l2) s
  = ((run_order l1 s).1 ++ (run_order l2 (run_order l1 s).2).1, (run_order l2 (run_order l1 s).2).2).
Proof.
  revert s. induction l1 as [|e l1 IH]; intros s; simpl; [by destruct (run_order l2 s)|].
  destruct (closer e s) as [err s1]. rewrite IH. by destruct (run_order l1 s1) as [errs s2].
Qed.

Lemma insert_entry_perm (e : shutdownEntry) l : insert_entry e l ≡ₚ e :: l.
Proof.
  induction l as [|e' l IH]; simpl; [done|]. case_bool_decide; [done|].
  rewrite IH. apply perm_swap.
Qed.

Lemma SliceStable_perm (l : list shutdownEntry) : SliceStable l ≡ₚ l.
Proof. induction l as [|e l IH]; simpl; [done|]. by rewrite insert_entry_perm, IH. Qed.

Lemma insert_entry_sorted (e : shutdownEntry) l : StronglySorted before l → StronglySorted before (insert_entry e l).
Proof.
  induction 1 as [|e' l Hs IH Hall]; simpl; [repeat constructor|].
  case_bool_decide as Hle.
  - constructor; [by constructor|]. constructor; [done|].
    eapply Forall_impl; [exact Hall|]. intros x Hx. unfold before in *. lia.
  - constructor; [done|]. rewrite insert_entry_perm. constructor; [unfold before; lia|done].
Qed.

Lemma SliceStable_sorted (l : list shutdownEntry) : StronglySorted before (SliceStable l).
Proof. induction l as [|e l IH]; simpl; [constructor|]. by apply insert_entry_sorted. Qed.

Lemma span_priority_spec p (l : list shutdownEntry) :
  let '(batch, rest) := span_priority p l in l = batch ++ rest ∧ Forall (λ e, priority e = p) batch.
Proof.
  induction l as [|e l IH]; simpl; [done|]. case_decide as Hp; [|done].
  destruct (span_priority p l) as [batch rest]. destruct IH as [-> Hall]. by split; [|constructor].
Qed.

Lemma run_closers_spec (l : list (nat * shutdownEntry)) errs s :
  NoDup l.*1 →
  let '(errs', s') := run_closers l errs s in
  s' = (run_order l.*2 s).2
  ∧ map (λ x, default None (errs' !! x.1)) l = (run_order l.*2 s).1
  ∧ ∀ i, i ∉ l.*1 → errs' !! i = errs !! i.
Proof.
  revert errs s. induction l as [|[idx e] l IH]; intros errs s Hnd; [done|].
  rewrite !fmap_cons in *. cbn [run_closers run_order map fst snd] in *.
  apply NoDup_cons in Hnd as [Hnin Hnd]. destruct (closer e s) as [err s1].
  specialize (IH (<[idx := err]> errs) s1 Hnd).
  destruct (run_closers l (<[idx := err]> errs) s1) as [errs' s']. destruct IH as (-> & Hmap & Hout).
  destruct (run_order l.*2 s1) as [rs s2]. cbn [fst snd] in *. split_and!; [done| |].
  - rewrite Hmap, Hout by done. by rewrite lookup_insert_eq.
  - intros i [Hne Hi]%not_elem_of_cons. rewrite Hout by done. by rewrite lookup_insert_ne.
Qed.

Lemma imap_pair_fst {A} (l : list A) : (imap pair l).*1 = seq 0 (length l).
Proof.
  apply list_eq. intros i. rewrite list_lookup_fmap, list_lookup_imap.
  destruct (l !! i) as [x|] eqn:Hi; simpl.
  - symmetry. apply lookup_seq. split; [done|]. by apply lookup_lt_Some in Hi.
  - symmetry. apply lookup_seq_ge. apply lookup_ge_None in Hi. done.
Qed.

Lemma imap_pair_snd {A} (l : list A) : (imap pair l).*2 = l.
Proof.
  apply list_eq. intros i. rewrite list_lookup_fmap, list_lookup_imap. by destruct (l !! i).
Qed.

Section Scheduled.
Context (sched : list (nat * shutdownEntry) → list (nat * shutdownEntry)).
Context (sched_perm : ∀ l, sched l ≡ₚ l).

(** A batch runs each of its closers once, in some order, and collects all results. *)
Lemma run_batch_spec (batch : list shutdownEntry) s :
  let '(errs, s') := run_batch sched batch s in
  ∃ order, order ≡ₚ batch ∧ s' = (run_order order s).2 ∧ errs ≡ₚ (run_order order s).1.
Proof.
  unfold run_batch. set (l := sched (imap pair batch)).
  assert (NoDup l.*1) as Hnd.
  { subst l. rewrite sched_perm, imap_pair_fst. apply NoDup_seq. }
  pose proof (run_closers_spec l ∅ s Hnd) as Hrun.
  destruct (run_closers l ∅ s) as [errs s']. destruct Hrun as (-> & Hmap & _).
  exists l.*2. split_and!; [|done|].
  - subst l. by rewrite sched_perm, imap_pair_snd.
  - rewrite <- Hmap. subst l. rewrite (sched_perm (imap pair batch)).
    replace (imap (λ idx _, default None (errs !! idx)) batch)
      with (map (λ x : nat * shutdownEntry, default None (errs !! x.1)) (imap pair batch)); [done|].
    apply list_eq. intros i. rewrite list_lookup_fmap, !list_lookup_imap. by destruct (batch !! i).
Qed.

Lemma StronglySorted_app_intro (l1 l2 : list shutdownEntry) :
  StronglySorted before l1 → StronglySorted before l2 →
  (∀ x y, x ∈ l1 → y ∈ l2 → before x y) → StronglySorted before (l1 ++ l2).
Proof.
  induction 1 as [|x l1 Hs IH Hx]; intros H2 Hxy; simpl; [done|]. constructor.
  - apply IH; [done|]. intros a b Ha Hb. apply Hxy; [list_in|done].
  - apply Forall_app. split; [done|]. apply Forall_forall. intros y Hy. apply Hxy; [list_in|done].
Qed.

Lemma same_priority_sorted p (l : list shutdownEntry) : Forall (λ e, priority e = p) l → StronglySorted before l.
Proof.
  induction 1 as [|e l He Hl IH]; constructor; [done|]. eapply Forall_impl; [exact Hl|].
  intros x Hx. simpl in Hx. unfold before. lia.
Qed.

Lemma shutdown_loop_spec fuel (l : list shutdownEntry) allErrs s :
  length l < fuel → StronglySorted before l →
  ∃ order errs, shutdown_loop sched fuel l allErrs s = Some (errors_Join errs, (run_order order s).2)
    ∧ order ≡ₚ l ∧ StronglySorted before order
    ∧ errs ≡ₚ allErrs ++ filter (λ err, is_Some err) (run_order order s).1.
Proof.
  revert l allErrs s. induction fuel as [|fuel IH]; intros l allErrs s Hlen Hsort; [lia|].
  cbn [shutdown_loop]. destruct l as [|e l].
  { exists [], allErrs. split_and!; [done|done|constructor|by rewrite app_nil_r]. }
  pose proof (span_priority_spec (priority e) (e :: l)) as Hspan.
  assert (0 < length (span_priority (priority e) (e :: l)).1) as Hpos.
  { simpl. rewrite decide_True by done. destruct (span_priority _ l). simpl. lia. }
  destruct (span_priority (priority e) (e :: l)) as [batch rest]. destruct Hspan as [Hl Hbatch].
  rewrite Hl in Hsort, Hlen |- *. rewrite length_app in Hlen. simpl in Hpos.
  pose proof (run_batch_spec batch s) as Hrun. destruct (run_batch sched batch s) as [berrs s1].
  destruct Hrun as (o1 & Ho1 & -> & Hberrs).
  destruct (IH rest (allErrs ++ filter (λ err, is_Some err) berrs) (run_order o1 s).2)
    as (o2 & errs & -> & Ho2 & Hsort2 & Herrs); [lia| |].
  { clear -Hsort. induction batch as [|b batch IHb]; [done|]. apply IHb. simpl in Hsort.
    by apply StronglySorted_inv in Hsort as [? _]. }
  exists (o1 ++ o2), errs. rewrite run_order_app. simpl. split_and!; [done|by rewrite Ho1, Ho2| |].
  - apply StronglySorted_app_intro; [|done|].
    + apply (same_priority_sorted (priority e)). by rewrite Ho1.
    + intros x y Hx Hy. rewrite Ho1 in Hx. rewrite Ho2 in Hy. by eapply StronglySorted_app_le.
  - rewrite Herrs, Hberrs, filter_app, app_assoc. done.
Qed.

(** C39: A shutdown closes every registered resource exactly once, however the goroutines of a
    priority are scheduled: the closers run in an order of the entries in which no entry
    precedes one of a lower priority, a failure does not stop the ones after it, and the error
    joins exactly the errors the closers returned. *)
Theorem Shutdown_ordered (g : ShutdownGroup (S:=S)) (s : S) :
  ∃ order errs, Shutdown sched g s = Some (errors_Join errs, (run_order order s).2)
    ∧ order ≡ₚ g ∧ StronglySorted before order
    ∧ errs ≡ₚ filter (λ err, is_Some err) (run_order order s).1.
Proof.
  destruct (shutdown_loop_spec (Datatypes.S (length g)) (SliceStable g) [] s)
    as (order & errs & Hrun & Hperm & Hsort & Herrs).
  - rewrite SliceStable_perm. lia.
  - apply SliceStable_sorted.
  - exists order, errs. split_and!; [done|by rewrite Hperm, SliceStable_perm|done|done].
Qed.
End Scheduled.
End ShutdownProperties.

(** ** Properties of the worker pool *)

Section PoolProperties.
Context {T : Type}.
Notation WorkerPool := (WorkerPool (T:=T)).

Record pool_inv (p : WorkerPool) : Prop := {
  inv_conserved : submitted p ≡ₚ handled p ++ dropped p ++ running p ++ queue p;
  inv_queue : length (queue p) ≤ p_capacity p;
  inv_workers : length (running p) + exited p ≤ p_workers p;
  inv_positive : 1 ≤ p_workers p;
  inv_dropped : cancelled p = false → dropped p = [];
  inv_exited : cancelled p = false → 0 < exited p → closed p = true ∧ queue p = []
}.

Lemma pool_inv_new workers queueSize : pool_inv (NewWorkerPool workers queueSize).
Proof.
  unfold NewWorkerPool. split; simpl; try done; try lia; repeat case_bool_decide; lia.
Qed.

Lemma Submit_inv item (p p' : WorkerPool) r : pool_inv p → Submit item p = (r, p') → pool_inv p'.
Proof.
  intros Hinv. pose proof Hinv as [Hc Hq Hw Hpos Hd He]. unfold Submit. destruct (closed p) eqn:Hcl; [by intros [= <- <-]|].
  destruct (Nat.ltb_spec (length (queue p)) (p_capacity p)) as [Hlt|]; [|by intros [= <- <-]].
  intros [= <- <-]. split; simpl; try done.
  - rewrite Hc, <- !app_assoc. done.
  - rewrite length_app. simpl. lia.
  - intros Hnc Hex. destruct (He Hnc Hex). done.
Qed.

Lemma pool_step_inv p p' : pool_step p p' → pool_inv p → pool_inv p'.
Proof.
  intros Hstep Hinv. pose proof Hinv as [Hc Hq Hw Hpos Hd He].
  destruct Hstep as [p item r p' Hs|p item rest Hqueue Hnc Hfree|p item rest Hqueue Hcan Hfree
    |p l1 item l2 Hrun|p Hqueue Hcl Hfree|p|p].
  - by eapply Submit_inv.
  - rewrite Hqueue in *. split; simpl in *; try done; try lia.
    + rewrite Hc. do 2 f_equiv. by rewrite <- Permutation_middle.
    + intros ? Hex. destruct (He Hnc Hex). done.
  - rewrite Hqueue in *. split; simpl in *; try congruence; try lia.
    rewrite Hc. f_equiv. rewrite <- app_assoc. f_equiv. simpl. by rewrite <- Permutation_middle.
  - rewrite Hrun in *. rewrite length_app in Hw. simpl in Hw.
    split; simpl in *; try done; rewrite ?length_app; try lia.
    rewrite Hc, <- !app_assoc. f_equiv. simpl. rewrite <- (Permutation_middle l1).
    rewrite (Permutation_app_comm (dropped p)). simpl. f_equiv. by rewrite Permutation_app_comm.
  - rewrite Hqueue in *. split; simpl in *; try done; lia.
  - split; simpl; try done. intros Hnc Hex. by destruct (He Hnc Hex).
  - split; simpl; try done.
Qed.

Lemma pool_steps_inv p p' : rtc pool_step p p' → pool_inv p → pool_inv p'.
Proof. induction 1; eauto using pool_step_inv. Qed.

(** C38: Until the context is cancelled the pool loses no item: when [Stop] returns, the items
    that were handled are exactly those whose submission succeeded, each as often as it was
    submitted.  At every moment at most the configured number of workers run and at most the
    configured number of items wait. *)
Theorem pool_drains (workers queueSize : Z) (p : WorkerPool) :
  rtc pool_step (NewWorkerPool workers queueSize) p →
  length (running p) ≤ p_workers p ∧ length (queue p) ≤ p_capacity p
  ∧ (stopped p → cancelled p = false → handled p ≡ₚ submitted p ∧ queue p = [] ∧ running p = []).
Proof.
  intros Hrun. assert (pool_inv p) as [Hc Hq Hw Hpos Hd He].
  { eapply pool_steps_inv; [done|apply pool_inv_new]. }
  split_and!; [lia|done|]. intros [Hcl Hex] Hnc.
  destruct (He Hnc) as [_ Hempty]; [lia|]. assert (running p = []) as Hr
    by (destruct (running p); [done|simpl in Hw; lia]).
  split_and!; [|done|done]. by rewrite Hc, Hd, Hr, Hempty, !app_nil_r by done.
Qed.
End PoolProperties.

(** ** Witnesses *)

Lemma ProcessSharded_covers_witness :
  ProcessSharded [1; 2; 3; 4; 5] 2 (@length nat) = [3; 2]
  ∧ ∃ ss, concat ss = [1; 2; 3; 4; 5] ∧ length ss = 2.
Proof.
  split; [reflexivity|].
  destruct (ProcessSharded_covers [1; 2; 3; 4; 5] 2 (@length nat)) as (ss & _ & Hc & Hl & _);
    [done|]. by exists ss.
Defined.

(** The second shard fails and cancels the first, whose error is the one returned. *)
Definition disk_full : error := EText "disk full".
Definition context_canceled : error := ESentinel "context canceled".
Definition example_fn (cancelled : bool) (shard : list nat) : nat * option error :=
  if decide (2 ∈ shard) then (0, Some disk_full)
  else if cancelled then (0, Some context_canceled) else (length shard, None).

Lemma sharded_error_lowest_index_witness :
  ProcessShardedWithError [1; 2] 2 example_fn (λ i, i =? 0) sum_list 0 = (0, Some context_canceled).
Proof.
  destruct (sharded_error_lowest_index [1; 2] 2 example_fn (λ i, i =? 0) sum_list 0)
    as [(vs & Hvs & _)|(i & s & v & err & Hi & Hfn & Hlow & ->)]; [done| |].
  - destruct (Hvs 0 [1] eq_refl) as (v & _ & Hfn). discriminate Hfn.
  - destruct i as [|i].
    + injection Hi as <-. injection Hfn as _ <-. reflexivity.
    + specialize (Hlow 0 [1] (Nat.lt_0_succ i) eq_refl). discriminate Hlow.
Defined.

(** Closing appends a name to a log. *)
Definition log_close (n : string) (s : list string) : option error * list string := (None, s ++ [n]).
Definition example_app : App (S:=list string) :=
  {| modules := [("users", log_close "users"); ("orders", log_close "orders")];
     eventBus := log_close "bus"; stream := log_close "stream"; cacheClient := log_close "cache";
     writeDB := log_close "write"; readDB := log_close "read";
     tracerProvider := Some (log_close "tracer") |}.

Lemma Shutdown_ordered_witness :
  App_Shutdown (@rev _) example_app []
  = Some (None, ["users"; "orders"; "stream"; "bus"; "cache"; "read"; "write"; "tracer"])
  ∧ ∃ order errs, App_Shutdown (@rev _) example_app [] = Some (errors_Join errs, (run_order order []).2)
      ∧ order ≡ₚ app_group example_app ∧ StronglySorted before order.
Proof.
  split; [reflexivity|].
  destruct (Shutdown_ordered (@rev _) (λ l, symmetry (Permutation_rev l)) (app_group example_app) [])
    as (order & errs & Hrun & Hperm & Hsort & _). exists order, errs.
  split; [exact Hrun|]. split; [exact Hperm | exact Hsort].
Defined.

Lemma pool_drains_witness :
  ∃ p, Submit 7 (NewWorkerPool 1 1) = (Returns None, p) ∧ length (queue p) ≤ 1.
Proof.
  eexists. split; [reflexivity|].
  apply (pool_drains 1 1). eapply rtc_once, (PSubmit _ 7 (Returns None)). reflexivity.
Defined.
