(* ===== verification/Resilience.v ===== *)
(** * Resilience

    [Resilience.v] models infra/resilience: retry with backoff (retry.go), the trip conditions
    of the circuit breakers (circuit_breaker.go), the HTTP client that composes both
    (http_client.go), fallback.go, timeout.go and the bulkhead (bulkhead.go), with the
    semaphore limiter of infra/concurrency/semaphore.go, which has the same contract.  Code
    runs over a world [W]; gobreaker is the interface [CircuitBreaker] of OutboxWorker.v, and
    net/http and x/sync/semaphore are arguments. *)

From Stdlib Require Import QArith Lqa.
From S2P Require Import Prelude Float Errors Event Db Outbox OutboxWorker.
Local Open Scope nat_scope.
Local Open Scope go_scope.

(** ** retry.go *)

(** [exp *= 2] [attempt] times, at 64 bits. *)
Fixpoint double (attempt : nat) (exp : Z) : Z :=
  match attempt with O => exp | S n => double n (wrap64 (exp * 2)) end.
(** The jitter is a random multiplier; [bits] is what [rand.Float64] draws. *)
Definition jitter (bits : Z) : float64 := fadd (Finite 3 (-2)) (fmul (rand_Float64 bits) fhalf).
Definition backoffDelay (bits base : Z) (attempt : nat) : Z :=
  to_int64 (fmul (of_int64 (double attempt base)) (jitter bits)).

Section Retry.
Context {W : Type}.
(** [ctx_Err] reads the context; [wait d] is the select between the context and a timer of [d]:
    the context's error when it is done first; [rand] reads the random source. *)
Context (ctx_Err : W → option error) (wait : Z → prog W (option error)) (rand : W → Z * W).

Section Loop.
Context (maxRetries baseDelay : Z) (fn : prog W (option error)).
Definition wait_backoff (attempt : nat) : prog W (option error) := λ w,
  let '(bits, w) := rand w in wait (backoffDelay bits baseDelay attempt) w.
Definition cancelled_before (attempt : nat) (err : error) : error :=
  Errorf_w ("retry: context cancelled after " +:+ pretty attempt +:+ " attempt(s): ") err.
Definition cancelled_waiting (attempt : nat) (err : error) : error :=
  Errorf_w ("retry: context cancelled waiting for back-off after " +:+ pretty (S attempt)
              +:+ " attempt(s): ") err.
(** The loop with [retries] retries to go after this attempt. *)
Fixpoint retry_loop (retries attempt : nat) : prog W (option error) := λ w,
  match ctx_Err w with
  | Some err => (Returns (Some (cancelled_before attempt err)), w)
  | None =>
      (let! lastErr := fn in
       match lastErr, retries with
       | None, _ => pret None
       | Some err, O =>
           pret (Some (Errorf_w ("retry: all " +:+ pretty (S attempt) +:+ " attempt(s) failed: ") err))
       | Some _, S retries =>
           let! stopped := wait_backoff attempt in
           match stopped with
           | Some err => pret (Some (cancelled_waiting attempt err))
           | None => retry_loop retries (S attempt)
           end
       end) w
  end.
(** With a negative [maxRetries] the loop body never runs and the nil error is formatted. *)
Definition WithRetry : prog W (option error) :=
  if decide (maxRetries < 0)%Z
  then pret (Some (EText ("retry: all " +:+ pretty (wrap64 (maxRetries + 1))
                            +:+ " attempt(s) failed: %!w(<nil>)")))
  else retry_loop (Z.to_nat maxRetries) 0.

(** [k] attempts from number [attempt] on that failed, each followed by its full backoff. *)
Inductive failures : nat → nat → W → W → Prop :=
| failures_0 attempt w : failures 0 attempt w w
| failures_S k attempt w w1 w2 w3 err :
    ctx_Err w = None → fn w = (Returns (Some err), w1) →
    wait_backoff attempt w1 = (Returns None, w2) →
    failures k (S attempt) w2 w3 → failures (S k) attempt w w3.

(** What ends the loop in state [w] after attempt number [attempt], [retries] retries remaining. *)
Inductive last_attempt (retries attempt : nat) (w : W) : option error → W → Prop :=
| last_success w' :
    ctx_Err w = None → fn w = (Returns None, w') → last_attempt retries attempt w None w'
| last_exhausted err w' :
    retries = 0 → ctx_Err w = None → fn w = (Returns (Some err), w') →
    last_attempt retries attempt w
      (Some (Errorf_w ("retry: all " +:+ pretty (S attempt) +:+ " attempt(s) failed: ") err)) w'
| last_cancelled err :
    ctx_Err w = Some err → last_attempt retries attempt w (Some (cancelled_before attempt err)) w
| last_interrupted err w1 e w2 :
    0 < retries → ctx_Err w = None → fn w = (Returns (Some err), w1) →
    wait_backoff attempt w1 = (Returns (Some e), w2) →
    last_attempt retries attempt w (Some (cancelled_waiting attempt e)) w2.

Lemma WithRetry_loop_spec retries attempt w r w' :
  retry_loop retries attempt w = (Returns r, w')
  ↔ ∃ k w1, k ≤ retries ∧ failures k attempt w w1 ∧ last_attempt (retries - k) (attempt + k) w1 r w'.
Proof.
  split.
  - revert attempt w. induction retries as [|retries IH]; intros attempt w; simpl; unfold pbind, pret.
    + destruct (ctx_Err w) as [e|] eqn:Hc.
      { intros [= <- <-]. exists 0, w. split_and!; [lia|constructor|]. rewrite Nat.add_0_r. by constructor. }
      destruct (fn w) as [[[err|]|msg|] w1] eqn:Hf; intros Hr; simplify_eq;
        exists 0, w; (split_and!; [lia|constructor|]); rewrite Nat.add_0_r; by econstructor.
    + destruct (ctx_Err w) as [e|] eqn:Hc.
      { intros [= <- <-]. exists 0, w. split_and!; [lia|constructor|]. rewrite Nat.add_0_r. by constructor. }
      destruct (fn w) as [[[err|]|msg|] w1] eqn:Hf; intros Hr; simplify_eq.
      2: { exists 0, w. split_and!; [lia|constructor|]. by constructor. }
      destruct (wait_backoff _ w1) as [[[e|]|msg|] w2] eqn:Hw; simplify_eq.
      { exists 0, w. split_and!; [lia|constructor|]. rewrite Nat.add_0_r. econstructor; [lia|done..]. }
      destruct (IH _ _ Hr) as (k & w3 & Hk & Hfs & Hl).
      exists (S k), w3. split_and!; [lia|by econstructor|].
      by replace (attempt + S k) with (S attempt + k) by lia.
  - intros (k & w1 & Hk & Hfs & Hl). revert retries Hk Hl.
    induction Hfs as [attempt w|k attempt w w1 w2 w3 err Hc Hf Hw Hfs IH]; intros retries Hk Hl.
    + rewrite Nat.sub_0_r, Nat.add_0_r in Hl.
      destruct Hl as [w' Hc Hf|err w' Hl Hc Hf|err Hc|err w1 e w2 Hl Hc Hf Hw]; destruct retries as [|retries];
        simpl; rewrite Hc; unfold pbind, pret; try rewrite Hf; try rewrite Hw; try done; lia.
    + destruct retries as [|retries]; [lia|]. simpl. rewrite Hc. unfold pbind. rewrite Hf, Hw.
      apply IH; [lia|]. by replace (S attempt + k) with (attempt + S k) by lia.
Qed.
End Loop.

(** [WithRetry] with a non-negative number of retries returns exactly what its contract
    says: after [k] failed attempts, each followed by its whole backoff, either the next attempt
    succeeds, or it is the last one and its error is wrapped with the number of attempts, or the
    context stopped the loop before that attempt or in the wait after it. *)
Theorem WithRetry_spec (maxRetries baseDelay : Z) (fn : prog W (option error)) (w w' : W) (r : option error) :
  (0 ≤ maxRetries)%Z →
  WithRetry maxRetries baseDelay fn w = (Returns r, w')
  ↔ ∃ k w1, k ≤ Z.to_nat maxRetries ∧ failures baseDelay fn k 0 w w1
            ∧ last_attempt baseDelay fn (Z.to_nat maxRetries - k) k w1 r w'.
Proof. intros Hm. unfold WithRetry. rewrite decide_False by lia. apply WithRetry_loop_spec. Qed.

(** A successful retry ran the function successfully. *)
Lemma WithRetry_success maxRetries baseDelay fn w w' :
  WithRetry maxRetries baseDelay fn w = (Returns None, w') → ∃ w1, fn w1 = (Returns None, w').
Proof.
  unfold WithRetry. case_decide; [done|]. intros Hr. apply WithRetry_loop_spec in Hr as (k & w1 & _ & _ & Hl).
  inversion Hl; eauto.
Qed.
End Retry.

Lemma double_value attempt exp : double attempt exp = wrap64 (exp * 2 ^ Z.of_nat attempt) ∨ attempt = 0.
Proof.
  destruct attempt as [|n]; [by right|left]. revert exp. induction n as [|n IH]; intros exp.
  - simpl. f_equal.
  - change (double (S (S n)) exp) with (double (S n) (wrap64 (exp * 2))). rewrite IH.
    rewrite (Nat2Z.inj_succ (S n)), Z.pow_succ_r by lia. unfold wrap64.
    set (p := (2 ^ Z.of_nat (S n))%Z). f_equal. rewrite <- (Z.add_mod_idemp_l (_ * p)) by lia.
    rewrite <- Z.mul_mod_idemp_l by lia.
    replace (((exp * 2 + 2 ^ 63) `mod` 2 ^ 64 - 2 ^ 63) `mod` 2 ^ 64)%Z with ((exp * 2) `mod` 2 ^ 64)%Z.
    + rewrite Z.mul_mod_idemp_l, Z.add_mod_idemp_l by lia. f_equal. f_equal. lia.
    + rewrite Zminus_mod_idemp_l. f_equal. lia.
Qed.

(** the exponential backoff is not bounded and overflows: the delay before the jitter is the
    base times [2^attempt] at 64 bits, so it doubles while that fits, is negative when it first
    does not fit and the timer fires at once, and is 0 from attempt 64 on, when the loop retries
    without any delay. *)
Theorem backoff_overflows (base : Z) (attempt : nat) :
  (0 < base < 2 ^ 63)%Z →
  ((base * 2 ^ Z.of_nat attempt < 2 ^ 63)%Z → double attempt base = (base * 2 ^ Z.of_nat attempt)%Z)
  ∧ ((2 ^ 63 ≤ base * 2 ^ Z.of_nat attempt < 2 ^ 64)%Z → (double attempt base < 0)%Z)
  ∧ (64 ≤ attempt → double attempt base = 0%Z).
Proof.
  intros Hb. assert (0 < 2 ^ Z.of_nat attempt)%Z by (apply Z.pow_pos_nonneg; lia).
  destruct (double_value attempt base) as [->| ->].
  - split_and!; intros Hx.
    + apply wrap64_id. unfold int64_range. nia.
    + rewrite wrap64_add_over by lia. lia.
    + unfold wrap64. replace (Z.of_nat attempt) with (Z.of_nat (attempt - 64) + 64)%Z by lia.
      rewrite Z.pow_add_r, Z.mul_assoc by lia. rewrite Z.add_comm, Z.mod_add by lia. done.
  - simpl. lia.
Qed.

Lemma jitter_range bits :
  (0 ≤ bits < 2 ^ 53)%Z →
  ∃ m e, jitter bits = Finite m e ∧ (dy 3 (-2) <= dy m e)%Q ∧ (dy m e <= dy 5 (-2))%Q.
Proof.
  intros Hb. unfold jitter, rand_Float64, fhalf.
  assert (Hr : (0 <= dy bits (-53) * dy 1 (-1))%Q ∧ (dy bits (-53) * dy 1 (-1) <= dy 1 (-1))%Q).
  { rewrite <- dy_mul, Z.mul_1_r, <- (dy_zero (-53 + -1)). rewrite (dy_common 1 (-1) (-53 + -1)), !dy_le by lia. lia. }
  destruct (fmul_between bits (-53) 1 (-1) 0 0 1 (-1)) as (m & e & -> & _ & Hlo & Hhi);
    [apply rep_zero|by apply rep_pow2|rewrite dy_zero; apply Hr|apply Hr|]. rewrite dy_zero in Hlo.
  assert (dy 5 (-2) == dy 3 (-2) + dy 1 (-1))%Q as H5 by reflexivity.
  destruct (fadd_between 3 (-2) m e 3 (-2) 5 (-2)) as (m' & e' & -> & _ & H1 & H2);
    [by apply rep_small..|lra|lra|by exists m', e'].
Qed.

(** the jitter keeps the delay within a quarter of the exponential, the upper end included. *)
Theorem backoffDelay_jitter (bits base : Z) (attempt : nat) :
  (0 ≤ bits < 2 ^ 53)%Z → (0 < base)%Z → (base * 2 ^ Z.of_nat attempt ≤ 2 ^ 50)%Z →
  let d := (base * 2 ^ Z.of_nat attempt)%Z in
  (3 * d / 4 ≤ backoffDelay bits base attempt ≤ 5 * d / 4)%Z.
Proof.
  intros Hb Hbase Hd d. assert (0 < 2 ^ Z.of_nat attempt)%Z as Hp by (apply Z.pow_pos_nonneg; lia).
  assert (Hd0 : (0 < d ≤ 2 ^ 50)%Z) by nia. unfold backoffDelay.
  assert (double attempt base = d) as ->.
  { destruct (double_value attempt base) as [->| ->]; [|unfold d; simpl; lia].
    apply wrap64_id. unfold int64_range. fold d. lia. }
  rewrite of_int64_small by lia. destruct (jitter_range bits Hb) as (m & e & -> & Hlo & Hhi).
  assert (Hdd : (0 <= dy d 0)%Q) by (apply dy_nonneg; lia).
  assert (dy (3 * d) (-2) <= dy d 0 * dy m e)%Q as H3.
  { rewrite Z.mul_comm. change (-2)%Z with (0 + -2)%Z. rewrite dy_mul. by apply Qmult_le_l_nonneg. }
  assert (dy d 0 * dy m e <= dy (5 * d) (-2))%Q as H5.
  { rewrite Z.mul_comm. change (-2)%Z with (0 + -2)%Z. rewrite dy_mul. by apply Qmult_le_l_nonneg. }
  destruct (fmul_between d 0 m e (3 * d) (-2) (5 * d) (-2)) as (m' & e' & -> & _ & Hlo' & Hhi');
    [apply rep_small; [lia|by vm_compute]..|done|done|].
  assert (Hx : ∀ z, (dy z 0 == dy (4 * z) (-2))%Q).
  { intros z. rewrite (dy_common z 0 (-2)) by lia. by rewrite Z.mul_comm. }
  clearbody d. apply to_int64_nonneg; [apply Z.div_pos; lia|apply Z.div_lt_upper_bound; lia| |].
  - eapply Qle_trans; [|exact Hlo']. rewrite Hx, dy_le. pose proof (Z.mul_div_le (3 * d) 4 ltac:(lia)). lia.
  - intros z Hz. apply Z.div_le_lower_bound; [lia|]. apply (dy_le (4 * z) (5 * d) (-2)). rewrite <- Hx. lra.
Qed.

(** ** circuit_breaker.go *)

(** The counters of gobreaker, of type uint32. *)
Record Counts := { Requests : Z; TotalFailures : Z }.
Definition failureRatio_over_half (c : Counts) : bool :=
  let failureRatio := fdiv (of_int64 (TotalFailures c)) (of_int64 (Requests c)) in
  fltb fhalf failureRatio.
Definition ReadyToTrip (c : Counts) : bool :=
  if (Requests c =? 0)%Z then false else failureRatio_over_half c.
(** The condition of [NewResilientHTTPClient]. *)
Definition ReadyToTrip_http (c : Counts) : bool :=
  if (Requests c <? 5)%Z then false else failureRatio_over_half c.

(** ** fallback.go and timeout.go *)

Section Combinators.
Context {W T : Type}.

Definition WithFallback (primary fallback : prog W (result error T)) : prog W (result error T) :=
  let! r := primary in
  match r with Ok result => pret (Ok result) | Err _ => fallback end.

(** [fn] runs under the derived context, which it may or may not look at. *)
Definition WithTimeout (fn : prog W (result error T)) : prog W (result error T) :=
  let! r := fn in
  match r with
  | Ok result => pret (Ok result)
  | Err err => pret (Err (Errorf_w "timeout: " err))
  end.
End Combinators.

(** ** http_client.go *)

Section HttpClient.
Context {W C : Type} `{CircuitBreaker C}.
Context (ctx_Err : W → option error) (wait : Z → prog W (option error)) (rand : W → Z * W).

Record Response := { StatusCode : Z }.
(** [roundTrip body] is [http.Client.Do] on the request whose unread body is [body]. *)
Context (roundTrip : string → W → result error Response * W).

(** The state of a call: the unread part of the request's body, the bodies handed to the
    transport so far, the variable [resp], and the world. *)
Record call := { c_body : string; c_sent : list string; c_resp : option Response; c_world : W }.

(** The function run by the breaker.  The transport reads the body to its end and closes it;
    [req.WithContext] copies the request with the same body. *)
Definition attempt_request (s : call) : option error * call :=
  let '(r, w) := roundTrip (c_body s) (c_world s) in
  let after resp := {| c_body := EmptyString; c_sent := c_sent s ++ [c_body s]; c_resp := resp; c_world := w |} in
  match r with
  | Err err => (Some err, after (c_resp s))
  | Ok r =>
      if (500 <=? StatusCode r)%Z
      then (Some (EText ("resilience: server error " +:+ pretty (StatusCode r))), after (c_resp s))
      else (None, after (Some r))
  end.
(** The function run by the retry loop. *)
Definition guarded_request : prog (C * call) (option error) := λ s,
  let '(r, s) := Execute attempt_request s in (Returns r, s).

Record ResilientHTTPClient := { rc_maxRetries : Z; rc_baseDelay : Z }.
Definition NewResilientHTTPClient (maxRetries : Z) : ResilientHTTPClient :=
  {| rc_maxRetries := maxRetries; rc_baseDelay := 100 * 10 ^ 6 |}.
(** The waits, the random source and the context of the retry loop act on the world of the call. *)
Definition set_world (w : W) (s : C * call) : C * call :=
  (s.1, {| c_body := c_body s.2; c_sent := c_sent s.2; c_resp := c_resp s.2; c_world := w |}).
Definition lift_wait (d : Z) : prog (C * call) (option error) := λ s,
  let '(r, w) := wait d (c_world s.2) in (r, set_world w s).
Definition lift_rand (s : C * call) : Z * (C * call) :=
  let '(bits, w) := rand (c_world s.2) in (bits, set_world w s).
Definition Do (c : ResilientHTTPClient) (body : string) (breaker : C) (w : W)
    : outcome (option Response * option error) * (C * call) :=
  (let! err := WithRetry (λ s, ctx_Err (c_world s.2)) lift_wait lift_rand
                 (rc_maxRetries c) (rc_baseDelay c) guarded_request in
   λ s, (Returns (c_resp s.2, err), s))
  (breaker, {| c_body := body; c_sent := []; c_resp := None; c_world := w |}).

(** *** Properties *)

(** What holds of a call between two attempts of the retry loop: nothing is left of the body
    once it has been sent, and a response is never recorded by a failed attempt. *)
Definition first_only (body : string) (s : call) : Prop :=
  c_resp s = None
  ∧ ((c_sent s = [] ∧ c_body s = body)
     ∨ (c_body s = EmptyString ∧ ∃ n, c_sent s = body :: replicate n EmptyString)).

Lemma guarded_request_cases s :
  ∃ c', guarded_request s = (Returns (attempt_request s.2).1, (c', (attempt_request s.2).2))
        ∨ ∃ err, guarded_request s = (Returns (Some err), (c', s.2)).
Proof.
  destruct s as [c s]. unfold guarded_request.
  destruct (Execute_spec attempt_request c s) as [(err & c' & ->)|(c' & ->)]; eauto.
Qed.

Lemma sent_next body s :
  first_only body s → c_body (attempt_request s).2 = EmptyString
  ∧ ∃ n, c_sent (attempt_request s).2 = body :: replicate n EmptyString.
Proof.
  intros (_ & Hs). unfold attempt_request. destruct (roundTrip (c_body s) (c_world s)) as [r w].
  assert (∃ n, c_sent s ++ [c_body s] = body :: replicate n EmptyString) as Hn.
  { destruct Hs as [[-> ->]|(-> & n & ->)]; [by exists 0|]. exists (S n).
    cbn [app]. f_equal. symmetry. apply replicate_cons_app. }
  destruct r as [r|err]; [destruct (500 <=? StatusCode r)%Z|]; done.
Qed.

Lemma attempt_resp s :
  c_resp s = None →
  match (attempt_request s).1 with
  | Some _ => c_resp (attempt_request s).2 = None
  | None => ∃ r, c_resp (attempt_request s).2 = Some r ∧ (StatusCode r < 500)%Z
  end.
Proof.
  intros Hs. unfold attempt_request. destruct (roundTrip (c_body s) (c_world s)) as [[r|err] w]; [|done].
  destruct (Z.leb_spec 500 (StatusCode r)); [done|]. exists r. split; [done|lia].
Qed.

Lemma failed_request_first_only body s err s' :
  first_only body s.2 → guarded_request s = (Returns (Some err), s') → first_only body s'.2.
Proof.
  intros Hs Hr. pose proof (sent_next body _ Hs) as Hn. pose proof (attempt_resp _ (proj1 Hs)) as Hp.
  destruct (guarded_request_cases s) as (c' & [E|(e & E)]); rewrite E in Hr;
    destruct (attempt_request s.2) as [r s1]; simplify_eq/=; [|done].
  split; [done|]. by right.
Qed.

(** The loop's invariant: before each attempt only the first one has carried the body. *)
Lemma failures_first_only d body k attempt s s' :
  failures (λ s, ctx_Err (c_world s.2)) lift_wait lift_rand d guarded_request k attempt s s' →
  first_only body s.2 → first_only body s'.2.
Proof.
  induction 1 as [|k attempt s s1 s2 s3 err _ Hf Hw _ IH]; intros Hs; [done|]. apply IH.
  assert (first_only body s1.2) as Hs1 by (by eapply failed_request_first_only).
  unfold wait_backoff, lift_rand, lift_wait in Hw. destruct (rand _) as [bits w0]. destruct (wait _ _) as [r w'].
  by simplify_eq/=.
Qed.

Lemma last_attempt_sent d body n k s r s' :
  last_attempt (λ s, ctx_Err (c_world s.2)) lift_wait lift_rand d guarded_request n k s r s' →
  first_only body s.2 →
  ((c_sent s'.2 = [] ∧ c_body s'.2 = body) ∨ ∃ m, c_sent s'.2 = body :: replicate m EmptyString)
  ∧ match r with
    | None => ∃ resp, c_resp s'.2 = Some resp ∧ (StatusCode resp < 500)%Z
    | Some _ => c_resp s'.2 = None
    end.
Proof.
  intros Hl Hs.
  assert (∀ s1 : C * call, first_only body s1.2 → (c_sent s1.2 = [] ∧ c_body s1.2 = body)
            ∨ ∃ m, c_sent s1.2 = body :: replicate m EmptyString) as Hweak.
  { intros s1 (_ & [?|(_ & ?)]); eauto. }
  destruct Hl as [s' _ Hf|err s' _ _ Hf|err _|err s1 e s2 _ _ Hf Hw].
  - pose proof (sent_next body _ Hs) as [_ Hn]. pose proof (attempt_resp _ (proj1 Hs)) as Hp.
    destruct (guarded_request_cases s) as (c' & [E|(e & E)]); rewrite E in Hf;
      destruct (attempt_request s.2) as [r s1]; simplify_eq/=. eauto.
  - pose proof (failed_request_first_only _ _ _ _ Hs Hf) as Hs'. split; [by apply Hweak|]. apply Hs'.
  - split; [by apply Hweak|]. apply Hs.
  - pose proof (failed_request_first_only _ _ _ _ Hs Hf) as Hs'.
    unfold wait_backoff, lift_rand, lift_wait in Hw. destruct (rand _) as [bits w0]. destruct (wait _ _) as [r w'].
    simplify_eq/=. split; [by apply (Hweak s1)|]. apply Hs'.
Qed.

(** the resilient HTTP client.  When [Do] returns without error it returns a response with
    a status below 500, and otherwise no response.  But only the first request that reaches
    the transport carries the body: every retry sends an empty one. *)
Theorem Do_retries_without_body (c : ResilientHTTPClient) (body : string) (breaker : C) (w : W)
    (resp : option Response) (err : option error) (s : C * call) :
  Do c body breaker w = (Returns (resp, err), s) →
  match err with
  | None => ∃ r, resp = Some r ∧ (StatusCode r < 500)%Z
  | Some _ => resp = None
  end
  ∧ (c_sent s.2 = [] ∨ ∃ n, c_sent s.2 = body :: replicate n EmptyString).
Proof.
  unfold Do. intros Hd. apply pbind_returns in Hd as (e & s1 & Hr & Hd). simplify_eq.
  unfold WithRetry in Hr. case_decide.
  - unfold pret in Hr. simplify_eq/=. auto.
  - apply WithRetry_loop_spec in Hr as (k & s2 & _ & Hfs & Hl).
    apply (failures_first_only _ body) in Hfs; [|split; [done|left; done]].
    destruct (last_attempt_sent _ body _ _ _ _ _ Hl Hfs) as [Hsent Hresp].
    split; [done|]. tauto.
Qed.
End HttpClient.

(** ** bulkhead.go and infra/concurrency/semaphore.go

    Both hold one of a number of slots while the function runs.  The slots of the bulkhead are
    the elements of a buffered channel; those of the limiter are the weight of
    x/sync/semaphore.  A system has any number of callers of [Execute]; a step is one of a
    caller: it takes a slot and starts the function, gives up because its context is done, or
    its function returns or panics and the deferred call frees the slot. *)

Definition ErrBulkheadFull : error := ESentinel "bulkhead: all slots occupied".
(** [make(chan struct{}, n)] panics for a negative capacity. *)
Definition NewBulkhead (maxConcurrent : Z) : outcome Z :=
  if decide (maxConcurrent < 0)%Z then Panics "makechan: size out of range" else Returns maxConcurrent.
Definition NewConcurrencyLimiter (max : Z) : Z := if decide (max ≤ 0)%Z then 1%Z else max.

Inductive caller :=
| Waiting
| Inside
| Finished (r : outcome (option error)).
#[export] Instance caller_inside_dec c : Decision (c = Inside).
Proof. destruct c; [right|left|right]; done. Defined.

Inductive caller_move :=
| Enter
| GiveUp (err : error)
| Leave (r : outcome (option error)).

(** [held] is the length of the channel, or the acquired weight. *)
Record limiter := { held : Z; callers : list caller }.
Definition set_caller (i : nat) (c : caller) (n : Z) (s : limiter) : limiter :=
  {| held := n; callers := <[i := c]> (callers s) |}.
(** A move that is not possible now, because the caller would block, leaves the state alone. *)
Definition Execute_step (slots : Z) (s : limiter) (m : nat * caller_move) : limiter :=
  match callers s !! m.1, m.2 with
  | Some Waiting, Enter => if decide (held s < slots)%Z then set_caller m.1 Inside (held s + 1) s else s
  | Some Waiting, GiveUp err => set_caller m.1 (Finished (Returns (Some err))) (held s) s
  | Some Inside, Leave r => set_caller m.1 (Finished r) (held s - 1) s
  | _, _ => s
  end.

Definition inside (s : limiter) : nat := length (filter (λ c, c = Inside) (callers s)).
Definition slots_ok (slots : Z) (s : limiter) : Prop :=
  held s = Z.of_nat (inside s) ∧ (held s ≤ Z.max 0 slots)%Z.

Lemma inside_insert i c c' l :
  l !! i = Some c →
  length (filter (λ c, c = Inside) (<[i := c']> l)) + (if decide (c = Inside) then 1 else 0)
  = length (filter (λ c, c = Inside) l) + (if decide (c' = Inside) then 1 else 0).
Proof.
  revert i. induction l as [|x l IH]; intros [|i] Hi; simplify_eq/=; rewrite !filter_cons.
  - destruct (decide (c = Inside)), (decide (c' = Inside)); simpl; lia.
  - specialize (IH _ Hi). destruct (decide (x = Inside)); simpl; lia.
Qed.

Lemma set_caller_inside i c c' n s :
  callers s !! i = Some c →
  (Z.of_nat (inside (set_caller i c' n s))
   = Z.of_nat (inside s) + (if decide (c' = Inside) then 1 else 0) - (if decide (c = Inside) then 1 else 0))%Z.
Proof.
  intros Hi. pose proof (inside_insert i c c' _ Hi) as Hl. unfold inside. cbn [set_caller callers].
  destruct (decide (c = Inside)), (decide (c' = Inside)); lia.
Qed.

Lemma Execute_step_ok slots s m : slots_ok slots s → slots_ok slots (Execute_step slots s m).
Proof.
  destruct m as [i m]. intros [Hh Hb]. unfold Execute_step. cbn [fst snd].
  destruct (callers s !! i) as [[| |r]|] eqn:Hi, m as [|err|r']; try done.
  - case_decide; [|done]. unfold slots_ok. rewrite (set_caller_inside _ Waiting) by done. cbn [held set_caller].
    repeat case_decide; simplify_eq; lia.
  - unfold slots_ok. rewrite (set_caller_inside _ Waiting) by done. cbn [held set_caller].
    repeat case_decide; simplify_eq; lia.
  - unfold slots_ok. rewrite (set_caller_inside _ Inside) by done. cbn [held set_caller].
    repeat case_decide; simplify_eq; lia.
Qed.

(** at most the configured number of functions run at once, and no slot leaks: in every run
    of any number of callers the slots held are the functions running, whatever the calls
    returned or panicked with, so a waiting caller can enter whenever fewer run; with no
    slots, as for a bulkhead of size 0, no function ever runs. *)
Theorem slots_bound (slots : Z) (n : nat) (moves : list (nat * caller_move)) :
  let s := foldl (Execute_step slots) {| held := 0; callers := replicate n Waiting |} moves in
  (Z.of_nat (inside s) ≤ Z.max 0 slots)%Z
  ∧ ∀ i, callers s !! i = Some Waiting → (Z.of_nat (inside s) < slots)%Z →
         callers (Execute_step slots s (i, Enter)) !! i = Some Inside.
Proof.
  set (s0 := {| held := 0; callers := replicate n Waiting |}).
  assert (slots_ok slots s0) as H0.
  { split; [|cbn; lia]. unfold inside. cbn. by induction n. }
  assert (∀ ms s, slots_ok slots s → slots_ok slots (foldl (Execute_step slots) s ms)) as Hrun.
  { induction ms as [|m ms IH]; intros s Hs; [done|]. by apply IH, Execute_step_ok. }
  specialize (Hrun moves s0 H0). cbv zeta. revert Hrun.
  generalize (foldl (Execute_step slots) s0 moves). intros s [Hh Hb]. split; [lia|]. intros i Hi Hlt.
  unfold Execute_step. cbn [fst snd]. rewrite Hi, decide_True by lia.
  cbn. apply list_lookup_insert_eq. by eapply lookup_lt_Some.
Qed.

(** ** Witnesses *)

(** A context that is never done, waits that pass, and a function that fails twice. *)
Definition third_time : prog nat (option error) := λ n,
  (Returns (if decide (n < 2) then Some (EText "down") else None), S n).

Example WithRetry_spec_witness :
  (0 ≤ 3)%Z ∧ ∃ k w1, k ≤ 3 ∧ failures (λ _, None) (λ _ w, (Returns None, w)) (pair 0%Z) 5%Z third_time k 0 0 w1
                      ∧ last_attempt (λ _, None) (λ _ w, (Returns None, w)) (pair 0%Z) 5%Z third_time (3 - k) k w1 None 3.
Proof.
  split; [lia|].
  apply (WithRetry_spec (λ _, None) (λ _ w, (Returns None, w)) (pair 0%Z) 3%Z 5%Z third_time 0 3 None); [lia|reflexivity].
Defined.

Example backoffDelay_jitter_witness :
  backoffDelay (2 ^ 53 - 1) (100 * 10 ^ 6) 0 = 125000000%Z
  ∧ (3 * (100 * 10 ^ 6 * 2 ^ Z.of_nat 0) / 4 ≤ backoffDelay (2 ^ 53 - 1) (100 * 10 ^ 6) 0
     ≤ 5 * (100 * 10 ^ 6 * 2 ^ Z.of_nat 0) / 4)%Z.
Proof.
  split; [vm_compute; reflexivity|]. apply (backoffDelay_jitter (2 ^ 53 - 1) (100 * 10 ^ 6) 0); [lia|lia|vm_compute; discriminate].
Defined.

Example backoff_overflows_witness :
  double 64 (100 * 10 ^ 6) = 0%Z ∧ (double 37 (100 * 10 ^ 6) < 0)%Z.
Proof.
  split.
  - apply (backoff_overflows (100 * 10 ^ 6) 64); lia.
  - apply (backoff_overflows (100 * 10 ^ 6) 37); lia.
Defined.

(** A breaker that lets everything through and a server that answers 503 and then 400. *)
Definition closed_breaker : CircuitBreaker unit.
Proof.
  refine {| Execute S f s := let '(r, s') := f s.2 in (r, (s.1, s')) |}.
  intros S f [] s. right. exists tt. cbn. by destruct (f s).
Defined.
Definition flaky_server : string → nat → result error Response * nat := λ _ n,
  (Ok {| StatusCode := if decide (n = 0) then 503 else 400 |}, S n).
Definition flaky_call : outcome (option Response * option error) * (unit * call) :=
  Do (H := closed_breaker) (λ _, None) (λ _ w, (Returns None, w)) (pair 0%Z) flaky_server
    (NewResilientHTTPClient 2) "payload" tt 0.

Example Do_retries_without_body_witness :
  flaky_call.1 = Returns (Some {| StatusCode := 400 |}, None)
  ∧ c_sent flaky_call.2.2 = ["payload"; EmptyString]
  ∧ (c_sent flaky_call.2.2 = [] ∨ ∃ n, c_sent flaky_call.2.2 = "payload" :: replicate n EmptyString).
Proof.
  split; [reflexivity|]. split; [reflexivity|].
  apply (Do_retries_without_body (H := closed_breaker) (λ _, None) (λ _ w, (Returns None, w)) (pair 0%Z) flaky_server
           (NewResilientHTTPClient 2) "payload" tt 0 (Some {| StatusCode := 400 |}) None flaky_call.2).
  reflexivity.
Defined.

Example slots_bound_witness :
  let s := foldl (Execute_step 1) {| held := 0; callers := replicate 2 Waiting |}
             [(0, Enter); (1, Enter); (0, Leave (Panics "boom"))] in
  callers (Execute_step 1 s (1, Enter)) !! 1 = Some Inside.
Proof. apply (slots_bound 1 2 [(0, Enter); (1, Enter); (0, Leave (Panics "boom"))]); reflexivity. Defined.
