(* ===== verification/Breaker.v ===== *)
(** * The circuit breakers of the platform

    [Breaker.v] models how circuit breakers are configured: infra/resilience/circuit_breaker.go, the
    breaker of infra/resilience/http_client.go and of messenger/transport/circuit.go.  The breaker
    itself is gobreaker; here are the settings it is given, the conditions that trip it and what
    is done when its state changes. *)

From S2P Require Import Prelude Float Errors Event Messenger OutboxWorker MessengerWorker Resilience.

(** ** gobreaker's types *)

(** [gobreaker.Counts]. *)
Record gb_Counts := {
  gb_Requests : Z;
  gb_TotalSuccesses : Z;
  gb_TotalFailures : Z;
  gb_ConsecutiveSuccesses : Z;
  gb_ConsecutiveFailures : Z
}.
Definition ratio_counts (c : gb_Counts) : Counts :=
  {| Requests := gb_Requests c; TotalFailures := gb_TotalFailures c |}.

(** How gobreaker counts the outcome of a request. *)
Definition zero_counts : gb_Counts :=
  {| gb_Requests := 0; gb_TotalSuccesses := 0; gb_TotalFailures := 0; gb_ConsecutiveSuccesses := 0;
     gb_ConsecutiveFailures := 0 |}.
Definition count (c : gb_Counts) (success : bool) : gb_Counts :=
  if success then
    {| gb_Requests := gb_Requests c + 1; gb_TotalSuccesses := gb_TotalSuccesses c + 1;
       gb_TotalFailures := gb_TotalFailures c; gb_ConsecutiveSuccesses := gb_ConsecutiveSuccesses c + 1;
       gb_ConsecutiveFailures := 0 |}
  else
    {| gb_Requests := gb_Requests c + 1; gb_TotalSuccesses := gb_TotalSuccesses c;
       gb_TotalFailures := gb_TotalFailures c + 1; gb_ConsecutiveSuccesses := 0;
       gb_ConsecutiveFailures := gb_ConsecutiveFailures c + 1 |}.

Inductive gb_State := StateClosed | StateHalfOpen | StateOpen.
Definition State_String (s : gb_State) : string :=
  match s with StateClosed => "closed" | StateHalfOpen => "half-open" | StateOpen => "open" end.

(** What a change of state leaves behind: a log line and a count under its three labels. *)
Record transitions := { tr_logged : list (string * list string); tr_counted : list (list string) }.

Record Settings := {
  set_Name : string;
  set_MaxRequests : Z;
  set_Interval : Z;
  set_Timeout : Z;
  set_ReadyToTrip : gb_Counts → bool;
  set_OnStateChange : string → gb_State → gb_State → transitions → transitions
}.

(** ** The three breakers *)

Definition NewCircuitBreaker (name : string) (maxRequests interval timeout : Z) : Settings :=
  {| set_Name := name; set_MaxRequests := maxRequests; set_Interval := interval; set_Timeout := timeout;
     set_ReadyToTrip c := ReadyToTrip (ratio_counts c);
     set_OnStateChange name from to t :=
       {| tr_logged := tr_logged t
            ++ [("circuit breaker state changed", [name; State_String from; State_String to])];
          tr_counted := tr_counted t ++ [[name; State_String from; State_String to]] |} |}.

Definition second : Z := 10 ^ 9.

(** The breaker of [NewResilientHTTPClient]; its changes are logged and not counted. *)
Definition http_breaker (name : string) : Settings :=
  {| set_Name := name; set_MaxRequests := 3; set_Interval := 10 * second; set_Timeout := 30 * second;
     set_ReadyToTrip c := ReadyToTrip_http (ratio_counts c);
     set_OnStateChange name from to t :=
       {| tr_logged := tr_logged t
            ++ [("http client circuit breaker state changed", [name; State_String from; State_String to])];
          tr_counted := tr_counted t |} |}.

Section CircuitSender.
Context {Sender : Type}.
Record CircuitSender := { inner : Sender; fallback : option Sender; settings : option Settings }.
Inductive CircuitOption := WithFallbackSender (s : Sender) | WithBreakerSettings (s : Settings).
Definition apply_circuit (cs : CircuitSender) (opt : CircuitOption) : CircuitSender :=
  match opt with
  | WithFallbackSender s => {| inner := inner cs; fallback := Some s; settings := settings cs |}
  | WithBreakerSettings s => {| inner := inner cs; fallback := fallback cs; settings := Some s |}
  end.

Definition default_settings (name : string) : Settings :=
  {| set_Name := "messenger.transport." +:+ name; set_MaxRequests := 3; set_Interval := 60 * second;
     set_Timeout := 30 * second;
     set_ReadyToTrip c := (5 <=? gb_ConsecutiveFailures c)%Z;
     set_OnStateChange _ _ _ t := t |}.

(** The sender and the settings its breaker is made of. *)
Definition NewCircuitSender (name : string) (s : Sender) (opts : list CircuitOption) : CircuitSender * Settings :=
  let cs := foldl apply_circuit {| inner := s; fallback := None; settings := None |} opts in
  (cs, default (default_settings name) (settings cs)).
End CircuitSender.

(** ** Which outcomes trip which breaker *)

Definition counted (outcomes : list bool) : gb_Counts := foldl count zero_counts outcomes.
Definition failures (outcomes : list bool) : nat := length (List.filter negb outcomes).

Lemma counted_snoc outcomes b : counted (outcomes ++ [b]) = count (counted outcomes) b.
Proof. unfold counted. by rewrite foldl_app. Qed.

Lemma counted_totals outcomes :
  gb_Requests (counted outcomes) = Z.of_nat (length outcomes)
  ∧ gb_TotalFailures (counted outcomes) = Z.of_nat (failures outcomes).
Proof.
  induction outcomes as [|b l IH] using rev_ind; [done|]. destruct IH as [IHr IHf].
  unfold failures in *. rewrite counted_snoc, List.filter_app, !length_app.
  destruct b; cbn [count gb_Requests gb_TotalFailures List.filter negb length]; lia.
Qed.

Lemma counted_consecutive outcomes n :
  (0 < n)%nat →
  (Z.of_nat n ≤ gb_ConsecutiveFailures (counted outcomes))%Z ↔ ∃ pre, outcomes = pre ++ replicate n false.
Proof.
  revert n. induction outcomes as [|b l IH] using rev_ind; intros n Hn.
  - cbn. split; [lia|]. intros [pre Hp]. destruct n; [lia|].
    by apply symmetry, app_nil in Hp as [_ Hp].
  - rewrite counted_snoc. destruct b; cbn [count gb_ConsecutiveFailures].
    + split; [lia|]. intros [pre Hp]. destruct n as [|n]; [lia|].
      rewrite replicate_S_end, app_assoc in Hp. by apply app_inj_tail in Hp as [_ Hp].
    + destruct n as [|[|n]]; [lia|..].
      * split; [|].
        { intros _. by exists l. }
        { intros _. assert (0 ≤ gb_ConsecutiveFailures (counted l))%Z; [|lia].
          clear. induction l as [|b l IH] using rev_ind; [done|]. rewrite counted_snoc. destruct b; cbn; lia. }
      * assert (Hiff : (Z.of_nat (S (S n)) ≤ gb_ConsecutiveFailures (counted l) + 1)%Z
                       ↔ (Z.of_nat (S n) ≤ gb_ConsecutiveFailures (counted l))%Z) by lia.
        rewrite Hiff, IH by lia. split; intros [pre Hp]; exists pre.
        { by rewrite Hp, (replicate_S_end (S n)), app_assoc. }
        { rewrite (replicate_S_end (S n)), app_assoc in Hp. by apply app_inj_tail in Hp as [Hp _]. }
Qed.

(** when the breakers trip, counted since their window began: the general breaker when more than
    half of the requests failed, one failed request alone included; the one of the HTTP client
    not before the fifth request; the one of a transport after five failures in a row. *)
Theorem breakers_trip (name : string) (maxRequests interval timeout : Z) (outcomes : list bool) :
  (Z.of_nat (length outcomes) < 2 ^ 32)%Z →
  (set_ReadyToTrip (NewCircuitBreaker name maxRequests interval timeout) (counted outcomes) = true
     ↔ length outcomes < 2 * failures outcomes)
  ∧ (set_ReadyToTrip (http_breaker name) (counted outcomes) = true
     ↔ 5 ≤ length outcomes ∧ length outcomes < 2 * failures outcomes)
  ∧ (set_ReadyToTrip (default_settings name) (counted outcomes) = true
     ↔ ∃ pre, outcomes = pre ++ replicate 5 false)
  ∧ set_ReadyToTrip (NewCircuitBreaker name maxRequests interval timeout) (counted [false]) = true.
Proof.
  intros Hlen. destruct (counted_totals outcomes) as [Hr Hf].
  assert (Hle : failures outcomes ≤ length outcomes) by apply List.filter_length_le.
  cbn [set_ReadyToTrip NewCircuitBreaker http_breaker default_settings].
  unfold ReadyToTrip, ReadyToTrip_http, failureRatio_over_half, ratio_counts. cbn [Requests TotalFailures].
  rewrite Hr, Hf. split_and!.
  - destruct (Z.eqb_spec (Z.of_nat (length outcomes)) 0) as [H0|H0].
    + split; [done|]. destruct outcomes; [cbn; lia|cbn in H0; lia].
    + rewrite ratio_over_half, Z.ltb_lt by lia. lia.
  - destruct (Z.ltb_spec (Z.of_nat (length outcomes)) 5) as [H5|H5]; [split; [done|lia]|].
    rewrite ratio_over_half, Z.ltb_lt by lia. lia.
  - rewrite Z.leb_le. by apply (counted_consecutive outcomes 5 ltac:(lia)).
  - reflexivity.
Qed.
