(* ===== verification/Pipeline.v ===== *)
(** * Asynchronous calls, pipelines and sender groups

    [Pipeline.v] models the rest of infra/concurrency: async.go, pipeline.go and
    sender_group.go.  A pipeline is a machine whose moves are those of its goroutines; the
    theorems hold of every sequence of moves.  An output channel is the list of the values
    sent so far; its capacity only delays senders. *)

From S2P Require Import Prelude Errors.
Local Open Scope go_scope.

(** ** async.go *)

Section Async.
Context {T : Type} (zero : T).

Record Result := { r_Value : T; r_Err : option error }.
(** The channel of an [Async] call: the buffered result and whether it is closed. *)
Record async_chan := { buffered : option Result; closed : bool }.
Definition context_Canceled : error := ESentinel "context canceled".

(** The goroutine: one send, then the close; a call that never returns sends nothing. *)
Definition Async {W} (ctx_Err : option error) (fn : prog W (T * option error)) (w : W) : async_chan * W :=
  match ctx_Err with
  | Some err => ({| buffered := Some {| r_Value := zero; r_Err := Some err |}; closed := true |}, w)
  | None =>
      match fn w with
      | (Returns (v, err), w) => ({| buffered := Some {| r_Value := v; r_Err := err |}; closed := true |}, w)
      | (Panics msg, w) =>
          ({| buffered := Some {| r_Value := zero; r_Err := Some (EText ("async: panic recovered: " +:+ msg)) |};
              closed := true |}, w)
      | (Hangs, w) => ({| buffered := None; closed := false |}, w)
      end
  end.
(** [done] is the context's error once it is done; [pick] resolves the select when both cases
    are ready. *)
Definition Await (done : option error) (pick : bool) (ch : async_chan)
    : outcome (T * option error) * async_chan :=
  let receive :=
    match buffered ch with
    | Some r => Some ((r_Value r, r_Err r), {| buffered := None; closed := closed ch |})
    | None => if closed ch then Some ((zero, Some context_Canceled), ch) else None
    end in
  match receive, done with
  | Some (r, ch), None => (Returns r, ch)
  | None, Some err => (Returns (zero, Some err), ch)
  | Some (r, ch'), Some err => if pick then (Returns r, ch') else (Returns (zero, Some err), ch)
  | None, None => (Hangs, ch)
  end.

(** an awaited call gives its result exactly once: a call that returns or panics hands its
    value and error, or the recovered panic, to the first [Await], and every later one gets
    [context.Canceled]; [Await] blocks only on a call that never returns under a context that
    is not done. *)
Theorem Await_once {W} (fn : prog W (T * option error)) (w : W) (pick : bool) :
  let '(ch, w') := Async None fn w in
  let '(first, ch') := Await None pick ch in
  match (fn w).1 with
  | Returns r => first = Returns r
  | Panics msg => first = Returns (zero, Some (EText ("async: panic recovered: " +:+ msg)))
  | Hangs => first = Hangs
  end
  ∧ w' = (fn w).2
  ∧ ((fn w).1 ≠ Hangs → Await None pick ch' = (Returns (zero, Some context_Canceled), ch'))
  ∧ ∀ err, (Await (Some err) pick ch).1 ≠ Hangs.
Proof.
  unfold Async, Await. destruct (fn w) as [[[v err]|msg|] w1]; cbn; split_and!; try done;
    intros e; destruct pick; done.
Qed.
End Async.

(** ** FanOut *)

Section FanOut.
Context {T R : Type} (fn : T → result error R).

Inductive worker := Idle | Holding (r : R) | Stopped.
Record fan := { f_in : list T; f_workers : list worker; f_out : list R; f_cancelled : bool; f_closed : bool }.
(** The input channel holds [items] and is closed after them. *)
Definition FanOut (items : list T) (workers : Z) : fan :=
  {| f_in := items; f_workers := replicate (Z.to_nat (if decide (workers ≤ 0)%Z then 1 else workers)) Idle;
     f_out := []; f_cancelled := false; f_closed := false |}.

(** Worker [i] receives an item and applies [fn], sends its result, gives it up or stops because
    the context is done, or stops because the input is closed; the waiting goroutine closes the
    output; the context is cancelled. *)
Inductive fan_move := Take (i : nat) | Emit (i : nat) | GiveUp (i : nat) | Finish (i : nat) | CloseOut | Cancel.
Definition set_worker (i : nat) (x : worker) (s : fan) : fan :=
  {| f_in := f_in s; f_workers := <[i := x]> (f_workers s); f_out := f_out s;
     f_cancelled := f_cancelled s; f_closed := f_closed s |}.
Definition success (x : T) : option R := match fn x with Ok r => Some r | Err _ => None end.
Definition is_stopped (x : worker) : bool := if x is Stopped then true else false.
Definition fan_step (s : fan) (m : fan_move) : fan :=
  match m with
  | Take i =>
      match f_workers s !! i, f_in s with
      | Some Idle, x :: rest =>
          {| f_in := rest;
             f_workers := <[i := if f_cancelled s then Stopped
                                 else match success x with Some r => Holding r | None => Idle end]> (f_workers s);
             f_out := f_out s; f_cancelled := f_cancelled s; f_closed := f_closed s |}
      | _, _ => s
      end
  | Emit i =>
      match f_workers s !! i with
      | Some (Holding r) =>
          {| f_in := f_in s; f_workers := <[i := Idle]> (f_workers s); f_out := f_out s ++ [r];
             f_cancelled := f_cancelled s; f_closed := f_closed s |}
      | _ => s
      end
  | GiveUp i =>
      match f_workers s !! i, f_cancelled s with
      | Some (Holding _), true => set_worker i Stopped s
      | _, _ => s
      end
  | Finish i =>
      match f_workers s !! i, f_in s with
      | Some Idle, [] => set_worker i Stopped s
      | _, _ => s
      end
  | CloseOut =>
      if forallb is_stopped (f_workers s)
      then {| f_in := f_in s; f_workers := f_workers s; f_out := f_out s; f_cancelled := f_cancelled s; f_closed := true |}
      else s
  | Cancel =>
      {| f_in := f_in s; f_workers := f_workers s; f_out := f_out s; f_cancelled := true; f_closed := f_closed s |}
  end.

Definition held_by (x : worker) : list R := if x is Holding r then [r] else [].
(** The results in the hands of the workers. *)
Definition in_flight (s : fan) : list R := concat (map held_by (f_workers s)).
Record fan_ok (items : list T) (s : fan) : Prop := {
  fan_workers : f_workers s ≠ [];
  fan_results : ∃ lost, f_out s ++ in_flight s ++ lost ++ omap success (f_in s) ≡ₚ omap success items
                        ∧ (f_cancelled s = false → lost = []);
  fan_stopped : f_cancelled s = false → Stopped ∈ f_workers s → f_in s = [];
  fan_closed : f_closed s = true → Forall (λ x, is_stopped x = true) (f_workers s)
}.

Lemma held_insert i x x' (l : list worker) :
  l !! i = Some x →
  held_by x ++ concat (map held_by (<[i := x']> l)) ≡ₚ held_by x' ++ concat (map held_by l).
Proof.
  revert i. induction l as [|y l IH]; intros [|i] Hi; simplify_eq/=.
  - apply Permutation_app_swap_app.
  - rewrite Permutation_app_swap_app, (IH _ Hi). apply Permutation_app_swap_app.
Qed.

Lemma stopped_insert i x x' (l : list worker) :
  l !! i = Some x → Stopped ∈ <[i := x']> l → x' = Stopped ∨ Stopped ∈ l.
Proof.
  intros Hi Hs. apply list_elem_of_lookup in Hs as [j Hj].
  destruct (decide (i = j)) as [->|Hne].
  - rewrite list_lookup_insert_eq in Hj by (by eapply lookup_lt_Some). left. congruence.
  - rewrite list_lookup_insert_ne in Hj by done. right. apply list_elem_of_lookup. eauto.
Qed.

Lemma not_all_stopped i x (l : list worker) :
  l !! i = Some x → is_stopped x = false → ¬ Forall (λ x, is_stopped x = true) l.
Proof. intros Hi Hx Hall. rewrite Forall_lookup in Hall. specialize (Hall _ _ Hi). congruence. Qed.

Lemma insert_not_nil {A} i (x : A) l : l ≠ [] → <[i := x]> l ≠ [].
Proof. destruct l, i; done. Qed.

(** A move of one worker keeps the invariant when it accounts for its item. *)
Lemma fan_worker_ok items s i x x' in' out' :
  fan_ok items s → f_workers s !! i = Some x → is_stopped x = false →
  (∃ dropped, out' ++ held_by x' ++ dropped ++ omap success in'
              ≡ₚ f_out s ++ held_by x ++ omap success (f_in s)
              ∧ (f_cancelled s = false → dropped = [])) →
  (f_cancelled s = false → x' = Stopped → in' = []) → (f_in s = [] → in' = []) →
  fan_ok items {| f_in := in'; f_workers := <[i := x']> (f_workers s); f_out := out';
                  f_cancelled := f_cancelled s; f_closed := f_closed s |}.
Proof.
  intros [Hw (lost & Hp & Hl) Hs Hc] Hi Hx (dropped & Hd & Hdl) Hstop Hin. split; cbn.
  - by apply insert_not_nil.
  - exists (dropped ++ lost). split; [|intros Hf; by rewrite Hl, Hdl].
    rewrite <- Hp. unfold in_flight. cbn. pose proof (held_insert i x x' _ Hi) as Hins.
    apply (Permutation_app_inv_l (held_by x)). apply (Permutation_app_inv_l (held_by x')).
    revert Hd Hins. generalize (concat (map held_by (<[i := x']> (f_workers s)))), (concat (map held_by (f_workers s))).
    generalize (held_by x), (held_by x'), (omap success in'), (omap success (f_in s)), (f_out s).
    intros hx hx' l' l out a b Hd Hins.
    transitivity ((hx ++ a) ++ (out' ++ hx' ++ dropped ++ l') ++ lost); [|rewrite Hd, Hins]; solve_Permutation.
  - intros Hf Hst. apply (stopped_insert _ _ _ _ Hi) in Hst as [->|Hst]; eauto.
  - intros Ht. by destruct (not_all_stopped _ _ _ Hi Hx (Hc Ht)).
Qed.

Lemma fan_step_ok items s m : fan_ok items s → fan_ok items (fan_step s m).
Proof.
  intros Hok. destruct m as [i|i|i|i| |]; simpl.
  - destruct (f_workers s !! i) as [[|r|]|] eqn:Hi; try done.
    destruct (f_in s) as [|x rest] eqn:Hin; [done|]. apply (fan_worker_ok items s i Idle); try done.
    + rewrite Hin. destruct (f_cancelled s); cbn.
      * exists (option_list (success x)). split; [|done]. by destruct (success x).
      * exists []. split; [|done]. by destruct (success x).
    + intros ->. by destruct (success x).
    + by rewrite Hin.
  - destruct (f_workers s !! i) as [[|r|]|] eqn:Hi; try done.
    apply (fan_worker_ok items s i (Holding r)); try done.
    exists []. split; [|done]. by rewrite <- app_assoc.
  - destruct (f_workers s !! i) as [[|r|]|] eqn:Hi; try done. destruct (f_cancelled s) eqn:Hca; [|done].
    unfold set_worker. apply (fan_worker_ok items s i (Holding r)); rewrite ?Hca; try done. by exists [r].
  - destruct (f_workers s !! i) as [[|r|]|] eqn:Hi; try done. destruct (f_in s) eqn:Hin; [|done].
    unfold set_worker. apply (fan_worker_ok items s i Idle); try done. by exists [].
  - destruct (forallb is_stopped (f_workers s)) eqn:Hall; [|done]. destruct Hok. split; cbn; eauto.
    intros _. apply Forall_forall. intros x Hx. rewrite forallb_forall in Hall. apply Hall. by apply list_elem_of_In.
  - destruct Hok as [Hw (lost & Hp & _) Hs Hc]. split; cbn; try done. by exists lost.
Qed.

Lemma FanOut_ok items workers : fan_ok items (FanOut items workers).
Proof.
  assert (∀ n : nat, concat (map held_by (replicate n Idle)) = []) as Hnil by (induction n; done).
  split; cbn; try done.
  - destruct (Z.to_nat _) eqn:E; [|done]. case_decide; lia.
  - exists []. unfold in_flight. cbn. by rewrite Hnil.
  - intros _ Hst. by apply elem_of_replicate in Hst as [[=] _].
Qed.

(** fanning out loses and duplicates nothing.  In every run of the workers the values sent
    are results of distinct input items; when the output is closed without the context having
    been cancelled they are exactly the results of all items for which the stage succeeded, in
    some order. *)
Theorem FanOut_complete (items : list T) (workers : Z) (moves : list fan_move) :
  let s := foldl fan_step (FanOut items workers) moves in
  (∃ rest, f_out s ++ rest ≡ₚ omap success items)
  ∧ (f_closed s = true → f_cancelled s = false → f_out s ≡ₚ omap success items).
Proof.
  assert (∀ ms s, fan_ok items s → fan_ok items (foldl fan_step s ms)) as Hrun.
  { induction ms as [|m ms IH]; intros s Hs; [done|]. by apply IH, fan_step_ok. }
  specialize (Hrun moves _ (FanOut_ok items workers)). cbv zeta. revert Hrun.
  generalize (foldl fan_step (FanOut items workers) moves). intros s [Hw (lost & Hp & Hl) Hs Hc].
  split; [eauto|]. intros Ht Hf. specialize (Hc Ht).
  assert (in_flight s = []) as Hnil.
  { unfold in_flight. clear -Hc. induction Hc as [|x l Hx _ IH]; [done|]. by destruct x. }
  assert (f_in s = []) as Hin.
  { apply (Hs Hf). destruct Hc as [|x l Hx _]; [done|]. destruct x; try done. by left. }
  rewrite Hnil, Hin, (Hl Hf), app_nil_r in Hp. done.
Qed.
End FanOut.

(** ** FanIn and the sender group

    Both let several goroutines send to one channel, which a waiting goroutine closes when all
    have finished.  A source is the values a goroutine has still to send.  When the context is
    done, [abandon] is what remains of a source after the value it was sending: nothing for
    [FanIn], whose goroutine returns, the rest for [SenderGroup], whose [send] returns to its
    caller. *)
Section Senders.
Context {T : Type} (abandon : list T → list T).

Record senders := {
  s_sources : list (list T); s_out : list T;
  s_started : bool; s_cancelled : bool; s_closed : bool; s_panicked : bool
}.
Definition NewSenderGroup : senders :=
  {| s_sources := []; s_out := []; s_started := false; s_cancelled := false; s_closed := false; s_panicked := false |}.

Inductive sender_move := Go (vals : list T) | Start | SendFrom (i : nat) | AbandonFrom (i : nat) | CloseCh | CancelAll.
Definition is_done (vals : list T) : bool := if vals is [] then true else false.
Definition sender_step (s : senders) (m : sender_move) : senders :=
  match m with
  | Go vals =>
      {| s_sources := s_sources s ++ [vals]; s_out := s_out s; s_started := s_started s;
         s_cancelled := s_cancelled s; s_closed := s_closed s; s_panicked := s_panicked s |}
  | Start =>
      {| s_sources := s_sources s; s_out := s_out s; s_started := true;
         s_cancelled := s_cancelled s; s_closed := s_closed s; s_panicked := s_panicked s |}
  | SendFrom i =>
      match s_sources s !! i with
      | Some (x :: rest) =>
          {| s_sources := <[i := rest]> (s_sources s);
             s_out := if s_closed s then s_out s else s_out s ++ [x]; s_started := s_started s;
             s_cancelled := s_cancelled s; s_closed := s_closed s;
             s_panicked := s_panicked s || s_closed s |}
      | _ => s
      end
  | AbandonFrom i =>
      match s_sources s !! i, s_cancelled s with
      | Some (x :: rest), true =>
          {| s_sources := <[i := abandon (x :: rest)]> (s_sources s); s_out := s_out s; s_started := s_started s;
             s_cancelled := s_cancelled s; s_closed := s_closed s; s_panicked := s_panicked s |}
      | _, _ => s
      end
  | CloseCh =>
      if s_started s && forallb is_done (s_sources s) then
        {| s_sources := s_sources s; s_out := s_out s; s_started := s_started s;
           s_cancelled := s_cancelled s; s_closed := true; s_panicked := s_panicked s |}
      else s
  | CancelAll =>
      {| s_sources := s_sources s; s_out := s_out s; s_started := s_started s;
         s_cancelled := true; s_closed := s_closed s; s_panicked := s_panicked s |}
  end.
Definition is_go (m : sender_move) : bool := if m is Go _ then true else false.

(** [FanIn] starts one goroutine per channel and the one that waits for them. *)
Definition FanIn (channels : list (list T)) : senders :=
  foldl sender_step NewSenderGroup (map Go channels ++ [Start]).

Record senders_ok (vals : list T) (s : senders) : Prop := {
  senders_values : ∃ lost, s_out s ++ lost ++ concat (s_sources s) ≡ₚ vals
                           ∧ (s_cancelled s = false → lost = []);
  senders_closed : s_closed s = true → Forall (λ l, l = []) (s_sources s);
  senders_alive : s_panicked s = false
}.

Context (abandon_suffix : ∀ l, ∃ dropped, l = dropped ++ abandon l).

Lemma concat_insert i (l l' : list T) ss dropped :
  ss !! i = Some l → l = dropped ++ l' → concat ss ≡ₚ dropped ++ concat (<[i := l']> ss).
Proof.
  revert i. induction ss as [|x ss IH]; intros [|i] Hi ->; simplify_eq/=; [by rewrite app_assoc|].
  rewrite (IH _ Hi eq_refl). apply Permutation_app_swap_app.
Qed.

Lemma source_not_closed vals s i x rest :
  senders_ok vals s → s_sources s !! i = Some (x :: rest) → s_closed s = false.
Proof.
  intros [_ Hc _] Hi. destruct (s_closed s); [|done]. specialize (Hc eq_refl).
  rewrite Forall_lookup in Hc. by specialize (Hc _ _ Hi).
Qed.

Lemma sender_step_ok vals s m : is_go m = false → senders_ok vals s → senders_ok vals (sender_step s m).
Proof.
  intros Hgo Hok. pose proof Hok as [(lost & Hp & Hl) Hc Ha].
  destruct m as [vs| |i|i| |]; simpl; try done.
  - by split; cbn; eauto.
  - destruct (s_sources s !! i) as [[|x rest]|] eqn:Hi; try done.
    pose proof (source_not_closed _ _ _ _ _ Hok Hi) as Hcl.
    pose proof (concat_insert i _ rest _ [x] Hi eq_refl) as Hcon.
    rewrite Hcl. split; cbn; rewrite ?Ha; try done. exists lost. split; [|done].
    rewrite <- Hp, Hcon. solve_Permutation.
  - destruct (s_sources s !! i) as [[|x rest]|] eqn:Hi; try done. destruct (s_cancelled s) eqn:Hca; [|done].
    pose proof (source_not_closed _ _ _ _ _ Hok Hi) as Hcl.
    destruct (abandon_suffix (x :: rest)) as [dropped Hd].
    pose proof (concat_insert i _ _ _ _ Hi Hd) as Hcon.
    split; cbn; rewrite ?Hcl; try done. exists (lost ++ dropped). split; [|done].
    rewrite <- Hp, Hcon. solve_Permutation.
  - destruct (s_started s && forallb is_done (s_sources s)) eqn:E; [|done].
    apply andb_true_iff in E as [_ Hall]. split; cbn; eauto.
    intros _. apply Forall_forall. intros l Hin. rewrite forallb_forall in Hall.
    specialize (Hall l ltac:(by apply list_elem_of_In)). by destruct l.
  - split; cbn; try done. by exists lost.
Qed.

Lemma FanIn_ok channels : senders_ok (concat channels) (FanIn channels).
Proof.
  unfold FanIn. rewrite foldl_app. cbn [foldl].
  assert (∀ s, s_closed s = false → s_cancelled s = false → s_panicked s = false → s_out s = [] →
     let s' := foldl sender_step s (map Go channels) in
     s_closed s' = false ∧ s_cancelled s' = false ∧ s_panicked s' = false ∧ s_out s' = []
     ∧ s_sources s' = s_sources s ++ channels) as Hgo.
  { induction channels as [|c cs IH]; intros s H1 H2 H3 H4; cbn [map foldl]; [by rewrite app_nil_r|].
    destruct (IH (sender_step s (Go c))) as (? & ? & ? & ? & E); try done.
    split_and!; try done. rewrite E. cbn. by rewrite <- app_assoc. }
  destruct (Hgo NewSenderGroup) as (Hc & Hx & Hp & Ho & Hs); try done. cbn in Hs.
  split; cbn; rewrite ?Hc, ?Hp; try done. rewrite Ho, Hs. by exists [].
Qed.

(** merging loses and duplicates nothing and never sends on the closed channel.  With all
    senders registered before the start, in every run no send panics, the values sent are
    values of the sources, each once, and when the channel is closed without the context having
    been cancelled it has carried all of them. *)
Theorem senders_complete (channels : list (list T)) (moves : list sender_move) :
  Forall (λ m, is_go m = false) moves →
  let s := foldl sender_step (FanIn channels) moves in
  s_panicked s = false
  ∧ (∃ rest, s_out s ++ rest ≡ₚ concat channels)
  ∧ (s_closed s = true → s_cancelled s = false → s_out s ≡ₚ concat channels).
Proof.
  intros Hgo.
  assert (∀ s, senders_ok (concat channels) s → senders_ok (concat channels) (foldl sender_step s moves)) as Hrun.
  { induction Hgo as [|m ms Hm _ IH]; intros s Hs; [done|]. by apply IH, sender_step_ok. }
  destruct (Hrun _ (FanIn_ok channels)) as [(lost & Hp & Hl) Hc Ha]. split_and!; [done|eauto|].
  intros Ht Hf. specialize (Hc Ht).
  assert (concat (s_sources (foldl sender_step (FanIn channels) moves)) = []) as Hnil.
  { clear -Hc. by induction Hc as [|l ls -> _ IH]. }
  rewrite Hnil, (Hl Hf), app_nil_r in Hp. done.
Qed.
End Senders.

(** What a source keeps when its context is done. *)
Definition FanIn_abandon {T} (l : list T) : list T := [].
Definition SenderGroup_abandon {T} (l : list T) : list T := tail l.
Lemma FanIn_abandon_suffix {T} (l : list T) : ∃ dropped, l = dropped ++ FanIn_abandon l.
Proof. exists l. unfold FanIn_abandon. by rewrite app_nil_r. Qed.
Lemma SenderGroup_abandon_suffix {T} (l : list T) : ∃ dropped, l = dropped ++ SenderGroup_abandon l.
Proof. destruct l as [|x l]; [by exists []|by exists [x]]. Qed.

(** ** Witnesses *)

Example FanOut_complete_witness :
  let half (n : nat) : result error nat := if decide (n mod 2 = 0) then Ok (n / 2) else Err (EText "odd") in
  f_out (foldl (fan_step half) (FanOut [4; 5; 6] 2)
     [Take 0; Take 1; Take 1; Emit 1; Emit 0; Finish 0; Finish 1; CloseOut]) ≡ₚ [2; 3].
Proof.
  intros half.
  apply (FanOut_complete half [4; 5; 6] 2 [Take 0; Take 1; Take 1; Emit 1; Emit 0; Finish 0; Finish 1; CloseOut]);
    reflexivity.
Defined.

Example senders_complete_witness :
  let moves := [SendFrom 1; SendFrom 0; SendFrom 1; CloseCh] in
  s_out (foldl (sender_step SenderGroup_abandon) (FanIn SenderGroup_abandon [[1]; [2; 3]]) moves) ≡ₚ [1; 2; 3].
Proof.
  intros moves.
  refine (proj2 (proj2 (senders_complete SenderGroup_abandon SenderGroup_abandon_suffix [[1]; [2; 3]] moves _)) _ _);
    [repeat constructor | reflexivity | reflexivity].
Defined.
