(* ===== verification/Observability.v ===== *)
(** * Observability and the database pools

    [Observability.v] models infra/observability (the logger and its context fields, the metric
    collectors with their package-level singleton, the runtime gauges, the tracer provider) and
    infra/db/pool.go, health.go and pool_metrics.go (opening a pool, its health checks, its
    gauges).  The Prometheus registry is the class [Registry] with the documented behaviour of
    registration; zap, OpenTelemetry, the driver and the syntax of URLs are arguments. *)

From S2P Require Import Prelude Errors GoText Config.
Local Open Scope go_scope.

(** ** infra/observability/logging/logger.go *)

Section Logging.
Context {zlevel logger : Type} (InfoLevel : zlevel).
(** zap: parsing of a level, and building a logger from the production or development preset. *)
Context (UnmarshalText : string → result error zlevel).
Context (zap_Build : bool → zlevel → result error logger).
Context (logger_With : logger → list (string * string) → logger).

Definition parseLevel (level : string) : result error zlevel :=
  match UnmarshalText level with Err _ => Ok InfoLevel | Ok l => Ok l end.
Definition logging_New (level format serviceName env : string) : result error logger :=
  match parseLevel level with
  | Err err => Err err
  | Ok l =>
      match zap_Build (format =? "json")%string l with
      | Err err => Err err
      | Ok base => Ok (logger_With base [("service", serviceName); ("env", env)])
      end
  end.

(** The values a context holds under the keys of the package, and the span of OpenTelemetry: the
    text of a trace identifier and of a span identifier when it has them. *)
Record context := { ctx_values : gmap string string; span_TraceID : option string; span_SpanID : option string }.
Definition keyRequestID : string := "request_id".
Definition keyTraceID : string := "trace_id".
Definition keyCorrelationID : string := "correlation_id".
Definition keyUserID : string := "user_id".
Definition WithValue (k v : string) (ctx : context) : context :=
  {| ctx_values := <[k := v]> (ctx_values ctx); span_TraceID := span_TraceID ctx; span_SpanID := span_SpanID ctx |}.
Definition stringFromCtx (ctx : context) (k : string) : string := default EmptyString (ctx_values ctx !! k).
Definition WithRequestID (ctx : context) (id : string) : context := WithValue keyRequestID id ctx.
Definition RequestIDFromContext (ctx : context) : string := stringFromCtx ctx keyRequestID.
Definition WithTraceID (ctx : context) (id : string) : context := WithValue keyTraceID id ctx.
Definition TraceIDFromContext (ctx : context) : string := stringFromCtx ctx keyTraceID.
Definition OTelTraceIDFromContext (ctx : context) : string := default EmptyString (span_TraceID ctx).
Definition WithCorrelationID (ctx : context) (id : string) : context := WithValue keyCorrelationID id ctx.
Definition CorrelationIDFromContext (ctx : context) : string := stringFromCtx ctx keyCorrelationID.
Definition WithUserID (ctx : context) (id : string) : context := WithValue keyUserID id ctx.
Definition UserIDFromContext (ctx : context) : string := stringFromCtx ctx keyUserID.

(** The helpers of the four identifiers, and of the span's trace identifier: what sets one on a
    context and what reads one. *)
Inductive id_name := ARequestID | ATraceID | ACorrelationID | AUserID.
Inductive id_source := OfValue (n : id_name) | OfSpan.
Definition id_helpers : (id_name → context → string → context) * (id_source → context → string) :=
  (λ n, match n with
        | ARequestID => WithRequestID | ATraceID => WithTraceID
        | ACorrelationID => WithCorrelationID | AUserID => WithUserID
        end,
   λ src, match src with
          | OfValue ARequestID => RequestIDFromContext
          | OfValue ATraceID => TraceIDFromContext
          | OfSpan => OTelTraceIDFromContext
          | OfValue ACorrelationID => CorrelationIDFromContext
          | OfValue AUserID => UserIDFromContext
          end).

#[export] Instance id_source_eq_dec : EqDecision id_source.
Proof. intros [[]|] [[]|]; first [left; reflexivity | right; discriminate]. Defined.

(** an identifier set on a context is the one read back, and setting it changes no other. *)
Theorem ids_independent (n : id_name) (src : id_source) (ctx : context) (v : string) :
  id_helpers.2 src (id_helpers.1 n ctx v)
  = if decide (src = OfValue n) then v else id_helpers.2 src ctx.
Proof.
  destruct n, src as [[]|]; cbn; unfold WithRequestID, WithTraceID, WithCorrelationID, WithUserID,
    RequestIDFromContext, TraceIDFromContext, CorrelationIDFromContext, UserIDFromContext, stringFromCtx, WithValue;
    cbn [ctx_values]; rewrite ?lookup_insert_eq; rewrite ?lookup_insert_ne by done; reflexivity.
Qed.

Definition nonempty (k v : string) : list (string * string) := if (v =? "")%string then [] else [(k, v)].
Definition ContextFields (ctx : context) : list (string * string) :=
  nonempty keyRequestID (RequestIDFromContext ctx)
  ++ (if negb (TraceIDFromContext ctx =? "")%string then [(keyTraceID, TraceIDFromContext ctx)]
      else nonempty keyTraceID (OTelTraceIDFromContext ctx))
  ++ nonempty keyCorrelationID (CorrelationIDFromContext ctx)
  ++ nonempty keyUserID (UserIDFromContext ctx).

Definition WithTraceContext (ctx : context) (l : logger) : logger :=
  match span_TraceID ctx, span_SpanID ctx with
  | Some t, Some s => logger_With l [("trace_id", t); ("span_id", s)]
  | _, _ => l
  end.

(** An unknown level never fails; only building the logger can. *)
Lemma logging_New_ok level format name env :
  (∀ b l, ∃ lg, zap_Build b l = Ok lg) → ∃ lg, logging_New level format name env = Ok lg.
Proof.
  intros Hb. unfold logging_New, parseLevel.
  destruct (UnmarshalText level) as [l|err];
    [destruct (Hb (format =? "json")%string l) as [lg ->] | destruct (Hb (format =? "json")%string InfoLevel) as [lg ->]];
    by eexists.
Qed.
End Logging.

Lemma elem_nonempty k v k' v' : (k', v') ∈ nonempty k v ↔ k' = k ∧ v' = v ∧ v ≠ EmptyString.
Proof. unfold nonempty. destruct (String.eqb_spec v ""); set_solver. Qed.

(** What a log record of a request carries: the fields that were stored and are not empty, each
    once, in a fixed order; the trace identifier of the span only when none was stored. *)
Lemma ContextFields_spec (ctx : context) :
  NoDup (map fst (ContextFields ctx))
  ∧ ∀ k v, (k, v) ∈ ContextFields ctx ↔
      v ≠ EmptyString
      ∧ (k ∈ [keyRequestID; keyCorrelationID; keyUserID] ∧ stringFromCtx ctx k = v
         ∨ k = keyTraceID ∧ v = (if (TraceIDFromContext ctx =? "")%string then OTelTraceIDFromContext ctx
                                 else TraceIDFromContext ctx)).
Proof.
  split.
  - unfold ContextFields, nonempty.
    destruct (RequestIDFromContext ctx =? "")%string, (TraceIDFromContext ctx =? "")%string,
      (OTelTraceIDFromContext ctx =? "")%string, (CorrelationIDFromContext ctx =? "")%string,
      (UserIDFromContext ctx =? "")%string; apply (bool_decide_unpack _); reflexivity.
  - intros k v. unfold ContextFields. rewrite !elem_of_app, !elem_nonempty.
    unfold RequestIDFromContext, CorrelationIDFromContext, UserIDFromContext.
    destruct (String.eqb_spec (TraceIDFromContext ctx) ""); cbn [negb];
      rewrite ?elem_nonempty, ?list_elem_of_singleton, !elem_of_cons, elem_of_nil; naive_solver.
Qed.

(** ** infra/observability/metrics *)

(** A collector is known by its full name and its constant labels. *)
Definition desc : Type := string * list (string * string).
Inductive collector_kind := CounterK | CounterVecK | GaugeK | HistogramK | HistogramVecK | GaugeFuncK.
Record collector := { co_desc : desc; co_kind : collector_kind; co_labels : list string }.
Definition mk (kind : collector_kind) (name : string) (labels : list string) : collector :=
  {| co_desc := (name, []); co_kind := kind; co_labels := labels |}.

(** The default registry: [registered] gives the collector under a description, with the value
    it was created over.  Registering a description that is present is an error and changes
    nothing. *)
Class Registry (R W : Type) := {
  registered : W → gmap desc (collector * R);
  Register : collector → R → prog W (option error);
  register_new c r w : registered w !! co_desc c = None →
    ∃ w', Register c r w = (Returns None, w') ∧ registered w' = <[co_desc c := (c, r)]> (registered w);
  register_dup c r w : is_Some (registered w !! co_desc c) →
    ∃ err, Register c r w = (Returns (Some err), w)
}.

Section Metrics.
Context {R W : Type} `{!Registry R W}.

(** [MustRegister] registers in order and panics on the first error. *)
Fixpoint MustRegister (cs : list (collector * R)) : prog W unit :=
  match cs with
  | [] => pret ()
  | (c, r) :: cs =>
      let! err := Register c r in
      match err with Some err => λ w, (Panics (Error err), w) | None => MustRegister cs end
  end.

Definition http_grpc_db_collectors : list collector :=
  [ mk HistogramVecK "http_request_duration_seconds" ["method"; "path"; "status"];
    mk CounterVecK "http_requests_total" ["method"; "path"; "status"];
    mk GaugeK "http_requests_in_flight" [];
    mk HistogramVecK "grpc_request_duration_seconds" ["method"; "status"];
    mk CounterVecK "grpc_requests_total" ["method"; "status"];
    mk HistogramVecK "db_query_duration_seconds" ["pool"; "query"] ].
Definition outbox_collectors : list collector :=
  [ mk GaugeK "outbox_queue_depth" [];
    mk CounterVecK "outbox_publish_total" ["status"];
    mk CounterK "outbox_polled_total" [];
    mk CounterK "outbox_dlq_total" [];
    mk CounterK "outbox_dlq_insert_errors_total" [];
    mk CounterK "outbox_mark_published_errors_total" [];
    mk HistogramK "outbox_poll_duration_seconds" [] ].
Definition event_collectors : list collector :=
  [ mk CounterVecK "event_publish_total" ["event_type"; "status"];
    mk CounterVecK "event_consume_total" ["event_type"; "status"];
    mk HistogramVecK "event_consume_duration_seconds" ["event_type"] ].
Definition cqrs_collectors : list collector :=
  [ mk CounterVecK "cqrs_query_cache_hits_total" ["query_name"];
    mk CounterVecK "cqrs_query_cache_misses_total" ["query_name"];
    mk HistogramVecK "cqrs_command_duration_seconds" ["command_name"; "status"];
    mk CounterVecK "cqrs_command_total" ["command_name"; "status"];
    mk HistogramVecK "cqrs_query_duration_seconds" ["query_name"; "status"];
    mk CounterVecK "cqrs_query_total" ["query_name"; "status"] ].
Definition service_collectors : list collector :=
  http_grpc_db_collectors ++ outbox_collectors ++ event_collectors ++ cqrs_collectors.

(** The package variables; a [Metrics] is the list of its collectors. *)
Record metrics_pkg := { singletonOnce : bool; singleton : option (list collector) }.
Notation state := (metrics_pkg * W)%type.
Definition lift {T} (m : prog W T) : prog state T := λ s, let (r, w) := m s.2 in (r, (s.1, w)).
Context (none : R).
Definition newMetrics : prog state (list collector) :=
  let! _ := lift (MustRegister (map (λ c, (c, none)) service_collectors)) in pret service_collectors.
(** [sync.Once.Do] counts as done also when its function panics. *)
Definition metrics_New : prog state (option (list collector)) := λ s,
  if singletonOnce s.1 then (Returns (singleton s.1), s)
  else match newMetrics ({| singletonOnce := true; singleton := singleton s.1 |}, s.2) with
       | (Returns m, (_, w)) => (Returns (Some m), ({| singletonOnce := true; singleton := Some m |}, w))
       | (Panics msg, (p, w)) => (Panics msg, (p, w))
       | (Hangs, (p, w)) => (Hangs, (p, w))
       end.
Definition Reset : prog state unit := λ s, (Returns (), ({| singletonOnce := false; singleton := None |}, s.2)).

Definition runtime_collectors : list collector :=
  [ mk GaugeFuncK "wolf_runtime_goroutines_active" []; mk GaugeFuncK "wolf_runtime_gomaxprocs" [] ].
Definition RegisterRuntimeMetrics : prog W unit := MustRegister (map (λ c, (c, none)) runtime_collectors).

(** ** infra/db/pool_metrics.go *)

Definition pool_gauges : list string :=
  [ "db_pool_open_connections"; "db_pool_in_use"; "db_pool_idle"; "db_pool_wait_count_total";
    "db_pool_wait_duration_seconds_total"; "db_pool_max_idle_closed_total"; "db_pool_max_lifetime_closed_total" ].
(** A gauge of a pool reads the statistics of that pool at every scrape. *)
Definition registerPool (pool : string) (db : R) : list (collector * R) :=
  map (λ name, ({| co_desc := (name, [("pool", pool)]); co_kind := GaugeFuncK; co_labels := [] |}, db)) pool_gauges.
Fixpoint register_all (cs : list (collector * R)) : prog W unit :=
  match cs with
  | [] => pret ()
  | (c, r) :: cs => let! _ := Register c r in register_all cs
  end.
Definition NewPoolMetrics (writeDB readDB : R) : prog W (list (collector * R)) :=
  let collectors := registerPool "write" writeDB ++ registerPool "read" readDB in
  let! _ := register_all collectors in pret collectors.
End Metrics.
Arguments metrics_pkg : clear implicits.

(** ** infra/observability/tracing/otel.go *)

Section Tracing.
Context {exporter resource provider W : Type}.
Context (otlptracegrpc_New : string → bool → prog W (result error exporter)).
Context (resource_New : list (string * string) → prog W (result error resource)).
Context (NewTracerProvider : exporter → resource → float64 → prog W provider).
Context (SetTracerProvider : provider → prog W unit) (SetTextMapPropagator : list string → prog W unit).
Context (serviceVersion : string).
Definition buildExporter : string → bool → prog W (result error exporter) := otlptracegrpc_New.
Definition buildResource (serviceName env : string) : prog W (result error resource) :=
  resource_New [("service.name", serviceName); ("service.version", serviceVersion); ("deployment.environment", env)].
Definition tracing_Init (serviceName env endpoint : string) (sampleRate : float64) (insecure : bool)
    : prog W (result error provider) :=
  let! r := buildExporter endpoint insecure in
  match r with
  | Err err => pret (Err (Errorf_w "tracing: create OTLP exporter: " err))
  | Ok exporter =>
      let! r := buildResource serviceName env in
      match r with
      | Err err => pret (Err (Errorf_w "tracing: create resource: " err))
      | Ok res =>
          let! tp := NewTracerProvider exporter res sampleRate in
          let! _ := SetTracerProvider tp in
          let! _ := SetTextMapPropagator ["tracecontext"; "baggage"] in
          pret (Ok tp)
      end
  end.
End Tracing.

(** ** infra/db/pool.go and health.go *)

Section Pools.
Context {D U W : Type}.
(** A parsed URL, its query values and its text. *)
Context (url_Parse : string → result error U) (url_Query : U → gmap string (list string)).
Context (set_RawQuery : gmap string (list string) → U → U) (url_String : U → string).
Definition dsn_query (cfg : PoolConfig) (q : gmap string (list string)) : gmap string (list string) :=
  let q := if (0 <? StatementTimeout cfg)%Z then <["statement_timeout" := [pretty (StatementTimeout cfg)]]> q else q in
  let q := if (0 <? IdleInTransactionTimeout cfg)%Z
           then <["idle_in_transaction_session_timeout" := [pretty (IdleInTransactionTimeout cfg)]]> q else q in
  if SimpleProtocol cfg then <["default_query_exec_mode" := ["simple_protocol"]]> q else q.
Definition buildDSN (cfg : PoolConfig) : result error string :=
  match url_Parse (DSN cfg) with
  | Err err => Err (Errorf_w "db: parse dsn: " err)
  | Ok u => Ok (url_String (set_RawQuery (dsn_query cfg (url_Query u)) u))
  end.

(** A pool of database/sql over the driver. *)
Context (sql_Open : string → prog W (result error D)) (PingContext db_Close : D → prog W (option error)).
Context (tune : D → Z → Z → Z → Z → prog W unit).
Definition NewPool (cfg : PoolConfig) : prog W (result error D) :=
  match buildDSN cfg with
  | Err err => pret (Err err)
  | Ok dsn =>
      let! r := sql_Open dsn in
      match r with
      | Err err => pret (Err (Errorf_w "db: open pool: " err))
      | Ok db =>
          let! _ := tune db (MaxOpenConns cfg) (MaxIdleConns cfg) (ConnMaxLifetime cfg) (ConnMaxIdleTime cfg) in
          let! err := PingContext db in
          match err with
          | None => pret (Ok db)
          | Some err =>
              let! closeErr := db_Close db in
              match closeErr with
              | Some closeErr =>
                  pret (Err (EWrap ("db: ping failed (" +:+ Error err +:+ "); also failed to close pool: "
                                    +:+ Error closeErr) err))
              | None => pret (Err (Errorf_w "db: ping pool: " err))
              end
          end
      end
  end.
Definition NewWritePool (cfg : DBConfig) : prog W (result error D) :=
  let! r := NewPool (DB_Write cfg) in
  match r with Err err => pret (Err (Errorf_w "db: new write pool: " err)) | Ok pool => pret (Ok pool) end.
Definition NewReadPool (cfg : DBConfig) : prog W (result error D) :=
  let! r := NewPool (DB_Read cfg) in
  match r with Err err => pret (Err (Errorf_w "db: new read pool: " err)) | Ok pool => pret (Ok pool) end.

Record HealthChecker := { h_writeDB : D; h_readDB : D }.
Definition CheckWrite (h : HealthChecker) : prog W (option error) :=
  let! err := PingContext (h_writeDB h) in pret (Errorf_w "db: write pool health check: " <$> err).
Definition CheckRead (h : HealthChecker) : prog W (option error) :=
  let! err := PingContext (h_readDB h) in pret (Errorf_w "db: read pool health check: " <$> err).
Definition CheckAll (h : HealthChecker) : prog W (option error) :=
  let! writeErr := CheckWrite h in
  let! readErr := CheckRead h in
  pret (errors_Join [writeErr; readErr]).

(** A pool that does not answer is closed again, whether closing reports an error or not: [held]
    lists the open pools. *)
Context {R : Type} (held : W → list R) (r : D → R).
Hypothesis Open_acquires : ∀ dsn, acquires held r (sql_Open dsn).
Hypothesis tune_preserves : ∀ db a b c d, preserves held (tune db a b c d).
Hypothesis Ping_preserves : ∀ db, preserves held (PingContext db).
Hypothesis Close_releases : ∀ db, releases held (r db) (db_Close db).
Lemma NewPool_acquires cfg : acquires held r (NewPool cfg).
Proof using Open_acquires tune_preserves Ping_preserves Close_releases.
  unfold NewPool. destruct (buildDSN cfg) as [dsn|err]; [|by apply acquires_err].
  apply (acquires_then held r r); [done|]. intros db s l Hs. unfold pbind.
  pose proof (tune_preserves db (MaxOpenConns cfg) (MaxIdleConns cfg) (ConnMaxLifetime cfg) (ConnMaxIdleTime cfg) s) as Ht.
  destruct (tune _ _ _ _ _ s) as [[[]|msg|] s1]; cbn in Ht; [|done..].
  pose proof (Ping_preserves db s1) as Hp. destruct (PingContext db s1) as [[[err|]|msg|] s2]; cbn in Hp; [| |done..].
  - destruct (Close_releases db s2 l) as (e & s3 & -> & Hs3); [congruence|]. by destruct e.
  - cbn. congruence.
Qed.
Lemma pools_acquire cfg : acquires held r (NewWritePool cfg) ∧ acquires held r (NewReadPool cfg).
Proof using Open_acquires tune_preserves Ping_preserves Close_releases.
  split; apply acquires_wrap, NewPool_acquires.
Qed.

(** Both pools are pinged, and the check passes exactly when both answer. *)
Lemma pools_CheckAll_spec h w we w1 re w2 :
  PingContext (h_writeDB h) w = (Returns we, w1) → PingContext (h_readDB h) w1 = (Returns re, w2) →
  ∃ e, CheckAll h w = (Returns e, w2) ∧ (e = None ↔ we = None ∧ re = None).
Proof.
  intros H1 H2. unfold CheckAll, CheckWrite, CheckRead, pbind, pret. rewrite H1, H2. eexists. split; [done|].
  destruct we, re; naive_solver.
Qed.
End Pools.
Arguments HealthChecker : clear implicits.

(** ** Registration *)

Section RegistryFacts.
Context {R W : Type} `{!Registry R W}.
Notation entries cs := (list_to_map (map (λ cr, (co_desc cr.1, cr)) cs) : gmap desc (collector * R)).
Notation state := (metrics_pkg * W)%type.

(** Registering keeps what is there and adds the rest; the first of a description wins. *)
Lemma Register_union c (r : R) w :
  ∃ e w', Register c r w = (Returns e, w') ∧ registered w' = registered w ∪ {[co_desc c := (c, r)]}
          ∧ (e = None ↔ registered w !! co_desc c = None).
Proof.
  destruct (registered w !! co_desc c) as [x|] eqn:E.
  - destruct (register_dup c r w) as [err Hr]; [by eexists|]. exists (Some err), w. split; [done|].
    split; [|by split]. symmetry. apply map_eq. intros d. rewrite lookup_union.
    destruct (decide (d = co_desc c)) as [->|]; [by rewrite E, lookup_singleton_eq|].
    rewrite lookup_singleton_ne by done. by destruct (registered w !! d).
  - destruct (register_new c r w E) as (w' & Hr & Hw). exists None, w'. split; [done|]. split; [|by split].
    rewrite Hw. apply map_eq. intros d. rewrite lookup_union.
    destruct (decide (d = co_desc c)) as [->|]; [by rewrite E, lookup_insert_eq, lookup_singleton_eq|].
    rewrite lookup_insert_ne, lookup_singleton_ne by done. by destruct (registered w !! d).
Qed.

Lemma entries_cons c (r : R) cs : entries ((c, r) :: cs) = {[co_desc c := (c, r)]} ∪ entries cs.
Proof. cbn. by rewrite insert_union_singleton_l. Qed.

Lemma register_all_union cs w :
  ∃ w', register_all cs w = (Returns (), w') ∧ registered w' = registered w ∪ entries cs.
Proof.
  revert w. induction cs as [|[c r] cs IH]; intros w.
  { exists w. split; [done|]. cbn. by rewrite (right_id_L ∅ (∪)). }
  destruct (Register_union c r w) as (e & w1 & Hr & Hw1 & _). destruct (IH w1) as (w2 & Hr2 & Hw2).
  exists w2. cbn [register_all]. unfold pbind. rewrite Hr, Hr2. split; [done|].
  by rewrite entries_cons, Hw2, Hw1, (assoc_L (∪)).
Qed.

Lemma MustRegister_union cs w :
  NoDup (map (λ cr, co_desc cr.1) cs) → (∀ c, c ∈ cs → registered w !! co_desc c.1 = None) →
  ∃ w', MustRegister cs w = (Returns (), w') ∧ registered w' = registered w ∪ entries cs.
Proof.
  revert w. induction cs as [|[c r] cs IH]; intros w Hnd Hnew.
  { exists w. split; [done|]. cbn. by rewrite (right_id_L ∅ (∪)). }
  cbn in Hnd. apply NoDup_cons in Hnd as [Hc Hnd].
  destruct (Register_union c r w) as (e & w1 & Hr & Hw1 & He).
  assert (e = None) as -> by (apply He, (Hnew (c, r)); list_in).
  destruct (IH w1 Hnd) as (w2 & Hr2 & Hw2).
  { intros c' Hc'. rewrite Hw1, lookup_union_r by (apply (Hnew c'); by right).
    apply lookup_singleton_ne. intros Heq. apply Hc. rewrite Heq. apply list_elem_of_fmap. by exists c'. }
  exists w2. cbn [MustRegister]. unfold pbind. rewrite Hr, Hr2. split; [done|].
  by rewrite entries_cons, Hw2, Hw1, (assoc_L (∪)).
Qed.

Lemma MustRegister_dup c (r : R) cs w :
  is_Some (registered w !! co_desc c) → ∃ msg, MustRegister ((c, r) :: cs) w = (Panics msg, w).
Proof.
  intros Hd. destruct (register_dup c r w Hd) as [err Hr]. exists (Error err).
  cbn [MustRegister]. unfold pbind. by rewrite Hr.
Qed.

(** What the composition root does with the registry. *)
Context (none : R).
Definition register_platform (writeDB readDB : R) : prog state unit :=
  let! _ := metrics_New none in
  let! _ := lift (RegisterRuntimeMetrics none) in
  let! _ := lift (NewPoolMetrics writeDB readDB) in pret ().
Definition fresh_pkg : metrics_pkg := {| singletonOnce := false; singleton := None |}.
Definition platform_entries (writeDB readDB : R) : list (collector * R) :=
  map (λ c, (c, none)) (service_collectors ++ runtime_collectors) ++ registerPool "write" writeDB ++ registerPool "read" readDB.

Lemma platform_descs (wr rd : R) : NoDup (map (λ cr, co_desc cr.1) (platform_entries wr rd)).
Proof. unfold platform_entries. cbn. apply (bool_decide_unpack _). reflexivity. Qed.

Lemma entries_lookup (cs : list (collector * R)) c :
  NoDup (map (λ cr, co_desc cr.1) cs) → c ∈ cs → entries cs !! co_desc c.1 = Some c.
Proof.
  intros Hnd Hc. apply elem_of_list_to_map_1.
  - change ((map (λ cr, (co_desc cr.1, cr)) cs).*1) with (map fst (map (λ cr, (co_desc cr.1, cr)) cs)). by rewrite map_map.
  - apply list_elem_of_fmap. by exists c.
Qed.
Lemma entries_app (cs cs' : list (collector * R)) : entries (cs ++ cs') = entries cs ∪ entries cs'.
Proof. by rewrite map_app, list_to_map_app. Qed.

(** Registering on top of what was registered before. *)
Lemma register_first (wr rd : R) w :
  (∀ c, c ∈ platform_entries wr rd → registered w !! co_desc c.1 = None) →
  ∃ w1, register_platform wr rd (fresh_pkg, w)
        = (Returns (), ({| singletonOnce := true; singleton := Some service_collectors |}, w1))
    ∧ registered w1 = registered w ∪ entries (platform_entries wr rd).
Proof.
  intros Hnew. pose proof (platform_descs wr rd) as Hnd. set (svc := map (λ c, (c, none)) service_collectors).
  set (rt := map (λ c, (c, none)) runtime_collectors). set (pools := registerPool "write" wr ++ registerPool "read" rd).
  assert (platform_entries wr rd = svc ++ rt ++ pools) as Hp
    by (unfold platform_entries; by rewrite map_app, <- (assoc_L (++))).
  rewrite Hp in *. clear Hp. rewrite map_app in Hnd. apply NoDup_app in Hnd as (Hsvc & Hdis & Hnd).
  rewrite map_app in Hnd, Hdis. apply NoDup_app in Hnd as (Hrt & _ & _).
  destruct (MustRegister_union svc w Hsvc) as (wa & Ha & Hwa); [intros c Hc; apply Hnew, elem_of_app; by left|].
  destruct (MustRegister_union rt wa Hrt) as (wb & Hb & Hwb).
  { intros c Hc. rewrite Hwa, lookup_union_r by (apply Hnew, elem_of_app; right; apply elem_of_app; by left). apply not_elem_of_list_to_map_1.
    change ((map (λ cr, (co_desc cr.1, cr)) svc).*1) with (map fst (map (λ cr : collector * R, (co_desc cr.1, cr)) svc)).
    rewrite map_map. intros Hin. apply (Hdis _ Hin), elem_of_app. left. apply list_elem_of_fmap. by exists c. }
  destruct (register_all_union pools wb) as (wc & Hc & Hwc). exists wc. split.
  - unfold register_platform, metrics_New, newMetrics, lift, RegisterRuntimeMetrics, NewPoolMetrics, pbind.
    cbn [singletonOnce fresh_pkg fst snd]. fold svc rt. rewrite Ha. unfold pret. cbn beta iota. cbn [fst snd]. rewrite Hb. cbn [fst snd].
    fold pools. by rewrite Hc.
  - by rewrite Hwc, Hwb, Hwa, !entries_app, !(assoc_L (∪)).
Qed.

(** the descriptions of the platform's collectors do not clash, so setting up observability
    once in a process succeeds and registers all of them.  Setting it up again, for instance for
    a second application after a failed start, panics on the runtime gauges although the service
    collectors and the pool gauges are written to be registered repeatedly; the gauges of the
    pools would go on reading the first pools. *)
Theorem platform_registers_once (wr rd wr' rd' : R) (w : W) :
  (∀ c, c ∈ platform_entries wr rd → registered w !! co_desc c.1 = None) →
  ∃ w1, register_platform wr rd (fresh_pkg, w)
        = (Returns (), ({| singletonOnce := true; singleton := Some service_collectors |}, w1))
    ∧ (∀ c, c ∈ platform_entries wr rd → registered w1 !! co_desc c.1 = Some c)
    ∧ (∃ msg, register_platform wr' rd' ({| singletonOnce := true; singleton := Some service_collectors |}, w1)
              = (Panics msg, ({| singletonOnce := true; singleton := Some service_collectors |}, w1)))
    ∧ (∃ w2, register_all (registerPool "write" wr' ++ registerPool "read" rd') w1 = (Returns (), w2)
             ∧ ∀ c, c ∈ registerPool "write" wr ++ registerPool "read" rd → registered w2 !! co_desc c.1 = Some c).
Proof.
  intros Hnew. destruct (register_first wr rd w Hnew) as (w1 & Hrun & Hreg). exists w1.
  assert (∀ c, c ∈ platform_entries wr rd → registered w1 !! co_desc c.1 = Some c) as Hin.
  { intros c Hc. rewrite Hreg, lookup_union_r by auto. apply entries_lookup; [apply platform_descs|done]. }
  split_and!; [done|done| |].
  - assert (∃ msg, MustRegister (map (λ c, (c, none)) runtime_collectors) w1 = (Panics msg, w1)) as [msg Hp].
    { apply MustRegister_dup. exists (mk GaugeFuncK "wolf_runtime_goroutines_active" [], none).
      apply (Hin (mk GaugeFuncK "wolf_runtime_goroutines_active" [], none)).
      unfold platform_entries. rewrite map_app, !elem_of_app. left. right. apply list_elem_of_here. }
    exists msg. unfold register_platform, pbind, metrics_New, lift, RegisterRuntimeMetrics. cbn [singletonOnce fst snd].
    by rewrite Hp.
  - destruct (register_all_union (registerPool "write" wr' ++ registerPool "read" rd') w1) as (w2 & Hall & Hreg2).
    exists w2. split; [done|]. intros c Hc. rewrite Hreg2. apply lookup_union_Some_l, Hin.
    unfold platform_entries. by apply elem_of_app; right.
Qed.
End RegistryFacts.

(** ** Witness

    A registry that is its map; pools are numbers. *)
#[local] Instance map_registry : Registry nat (gmap desc (collector * nat)).
Proof.
  refine {|
    registered w := w;
    Register c r w := match w !! co_desc c with
                      | Some _ => (Returns (Some (EText "duplicate metrics collector registration attempted")), w)
                      | None => (Returns None, <[co_desc c := (c, r)]> w)
                      end
  |}.
  - intros c r w Hn. rewrite Hn. by eexists.
  - intros c r w [x Hx]. rewrite Hx. by eexists.
Defined.
Example platform_registers_once_witness :
  ∃ w1, register_platform (R := nat) (W := gmap desc (collector * nat)) 0 1 2 (fresh_pkg, ∅)
        = (Returns (), ({| singletonOnce := true; singleton := Some service_collectors |}, w1))
    ∧ ∃ msg, (register_platform (R := nat) 0 3 4
                ({| singletonOnce := true; singleton := Some service_collectors |}, w1)).1 = Panics msg.
Proof.
  destruct (platform_registers_once (R := nat) (W := gmap desc (collector * nat)) 0 1 2 3 4 ∅ (λ _ _, lookup_empty _))
    as (w1 & H1 & _ & (msg & H2) & _).
  exists w1. split; [exact H1|]. exists msg. rewrite H2. reflexivity.
Defined.
