(* ===== verification/GoTime.v ===== *)
(** * Timestamps as text

    [GoTime.v] models what the program uses of package time's text form: the UTC layout of the
    event headers ("2006-01-02T15:04:05.999999999Z"), [time.Parse] with RFC3339Nano and the
    text of a duration.
    Instants are nanoseconds since the Unix epoch.  Of the inputs outside RFC 3339 that Go's
    parser also takes, such as one-digit hours, none is accepted here. *)

From Stdlib Require Import Ascii.
From S2P Require Import Prelude Event.
Local Open Scope Z_scope.

(** ** Dates of the Gregorian calendar *)

(** Day 0 is 1970-01-01; an era is 400 years of 146097 days from the first of March. *)
Definition civil (days : Z) : Z * Z * Z :=
  let z := days + 719468 in
  let era := z / 146097 in
  let doe := z `mod` 146097 in
  let yoe := (doe - doe / 1460 + doe / 36524 - doe / 146096) / 365 in
  let doy := doe - (365 * yoe + yoe / 4 - yoe / 100) in
  let mp := (5 * doy + 2) / 153 in
  let d := doy - (153 * mp + 2) / 5 + 1 in
  let m := if mp <? 10 then mp + 3 else mp - 9 in
  let y := yoe + era * 400 in
  (if m <=? 2 then y + 1 else y, m, d).

Definition days_of (y m d : Z) : Z :=
  let y := if m <=? 2 then y - 1 else y in
  let era := y / 400 in
  let yoe := y `mod` 400 in
  let doy := (153 * (if 2 <? m then m - 3 else m + 9) + 2) / 5 + d - 1 in
  era * 146097 + (yoe * 365 + yoe / 4 - yoe / 100 + doy) - 719468.

(** The date exists: the day is one of the month's. *)
Definition valid_date (y m d : Z) : bool := bool_decide (civil (days_of y m d) = (y, m, d)).

(** ** Format *)

Definition digit (n : Z) : ascii := ascii_of_nat (Z.to_nat (48 + n)).
(** The [w] low digits of [n]. *)
Fixpoint digits (w : nat) (n : Z) : list ascii :=
  match w with
  | O => []
  | S w => digits w (n / 10) ++ [digit (n `mod` 10)]
  end.
Fixpoint drop_zeros (l : list ascii) : list ascii :=
  match l with
  | c :: l' => if Ascii.eqb c "0" then drop_zeros l' else l
  | [] => []
  end.
(** The fraction of a second without trailing zeros, after a point. *)
Definition fraction (ns : Z) : list ascii :=
  match rev (drop_zeros (rev (digits 9 ns))) with
  | [] => []
  | ds => "."%char :: ds
  end.
Definition year_digits (y : Z) : list ascii :=
  (if y <? 0 then ["-"%char] else [])
  ++ (if Z.abs y <? 10000 then digits 4 (Z.abs y) else String.list_ascii_of_string (pretty (Z.abs y))).

Definition format_list (t : time) : list ascii :=
  let secs := t / 10 ^ 9 in
  let '(y, m, d) := civil (secs / 86400) in
  let sod := secs `mod` 86400 in
  year_digits y ++ "-"%char :: digits 2 m ++ "-"%char :: digits 2 d ++ "T"%char
    :: digits 2 (sod / 3600) ++ ":"%char :: digits 2 ((sod / 60) `mod` 60) ++ ":"%char
    :: digits 2 (sod `mod` 60) ++ fraction (t `mod` 10 ^ 9) ++ ["Z"%char].
Definition FormatUTC (t : time) : string := String.string_of_list_ascii (format_list t).

(** [Duration.String]: the unit below a second is the largest that gives a whole part. *)
Definition unit_text (u scale : Z) (w : nat) (suffix : string) : string :=
  pretty (u / scale) +:+ String.string_of_list_ascii
    (match rev (drop_zeros (rev (digits w (u `mod` scale)))) with [] => [] | ds => "."%char :: ds end) +:+ suffix.
Definition Duration_String (d : Z) : string :=
  let u := Z.abs d in
  (if d <? 0 then "-" else EmptyString)
  +:+ (if u =? 0 then "0s"
       else if u <? 10 ^ 3 then pretty u +:+ "ns"
       else if u <? 10 ^ 6 then unit_text u (10 ^ 3) 3 "µs"
       else if u <? 10 ^ 9 then unit_text u (10 ^ 6) 6 "ms"
       else
         let secs := unit_text (u `mod` (60 * 10 ^ 9)) (10 ^ 9) 9 "s" in
         let mins := u / (60 * 10 ^ 9) in
         if mins =? 0 then secs
         else if mins / 60 =? 0 then pretty mins +:+ "m" +:+ secs
         else pretty (mins / 60) +:+ "h" +:+ pretty (mins `mod` 60) +:+ "m" +:+ secs).

(** ** Parse *)

Definition digit_value (c : ascii) : option Z :=
  let n := Z.of_nat (nat_of_ascii c) - 48 in
  if (0 <=? n) && (n <=? 9) then Some n else None.
(** Exactly [w] digits. *)
Fixpoint parse_digits (w : nat) (acc : Z) (l : list ascii) : option (Z * list ascii) :=
  match w, l with
  | O, _ => Some (acc, l)
  | S w, c :: l => match digit_value c with Some n => parse_digits w (10 * acc + n) l | None => None end
  | S _, [] => None
  end.
Definition parse_char (c : ascii) (l : list ascii) : option (list ascii) :=
  match l with c' :: l => if Ascii.eqb c c' then Some l else None | [] => None end.
Fixpoint digit_prefix (l : list ascii) : list ascii * list ascii :=
  match l with
  | c :: l' => match digit_value c with
               | Some _ => let '(ds, rest) := digit_prefix l' in (c :: ds, rest)
               | None => ([], l)
               end
  | [] => ([], [])
  end.
(** The nanoseconds of a fraction, which is optional but not empty. *)
Definition parse_fraction (l : list ascii) : option (Z * list ascii) :=
  match parse_char "." l with
  | None => Some (0, l)
  | Some l =>
      match digit_prefix l with
      | ([], _) => None
      | (ds, rest) =>
          match parse_digits 9 0 (take 9 (ds ++ replicate 9 "0"%char)) with
          | Some (ns, _) => Some (ns, rest)
          | None => None
          end
      end
  end.
(** The zone in seconds east of Greenwich. *)
Definition parse_zone (l : list ascii) : option (Z * list ascii) :=
  match parse_char "Z" l with
  | Some l => Some (0, l)
  | None =>
      match l with
      | c :: l =>
          if Ascii.eqb c "+" || Ascii.eqb c "-" then
            '(hh, l) ← parse_digits 2 0 l; l ← parse_char ":" l; '(mm, l) ← parse_digits 2 0 l;
            if (hh <=? 24) && (mm <? 60)
            then Some ((if Ascii.eqb c "+" then 1 else -1) * (hh * 3600 + mm * 60), l) else None
          else None
      | [] => None
      end
  end.

Definition parse_list (l : list ascii) : option time :=
  '(y, l) ← parse_digits 4 0 l; l ← parse_char "-" l;
  '(m, l) ← parse_digits 2 0 l; l ← parse_char "-" l;
  '(d, l) ← parse_digits 2 0 l; l ← parse_char "T" l;
  '(hh, l) ← parse_digits 2 0 l; l ← parse_char ":" l;
  '(mi, l) ← parse_digits 2 0 l; l ← parse_char ":" l;
  '(ss, l) ← parse_digits 2 0 l;
  '(ns, l) ← parse_fraction l;
  '(zone, l) ← parse_zone l;
  if valid_date y m d && (hh <? 24) && (mi <? 60) && (ss <? 60) && bool_decide (l = [])
  then Some ((days_of y m d * 86400 + hh * 3600 + mi * 60 + ss - zone) * 10 ^ 9 + ns)
  else None.
Definition ParseRFC3339 (s : string) : option time := parse_list (String.list_ascii_of_string s).

(** ** The round trip *)

Lemma civil_bounds days :
  let '(_, m, d) := civil days in 1 ≤ m ≤ 12 ∧ 1 ≤ d ≤ 31.
Proof.
  unfold civil. set (doe := (days + 719468) `mod` 146097).
  assert (0 ≤ doe < 146097) as Hdoe by (apply Z.mod_pos_bound; lia). clearbody doe.
  set (yoe := (doe - doe / 1460 + doe / 36524 - doe / 146096) / 365).
  set (doy := doe - (365 * yoe + yoe / 4 - yoe / 100)).
  assert (0 ≤ doy ≤ 365) as Hdoy by (unfold doy, yoe; Z.div_mod_to_equations; lia).
  clearbody doy. destruct (Z.ltb_spec ((5 * doy + 2) / 153) 10); Z.div_mod_to_equations; lia.
Qed.

Lemma days_of_civil days : let '(y, m, d) := civil days in days_of y m d = days.
Proof.
  unfold civil.
  pose proof (Z.div_mod (days + 719468) 146097 ltac:(lia)) as Hz.
  pose proof (Z.mod_pos_bound (days + 719468) 146097 ltac:(lia)) as Hdoe.
  generalize dependent ((days + 719468) `mod` 146097). intros doe.
  generalize ((days + 719468) / 146097). intros era Hz Hdoe.
  assert (days = 146097 * era + doe - 719468) as -> by lia. clear Hz.
  set (yoe := (doe - doe / 1460 + doe / 36524 - doe / 146096) / 365).
  assert (0 ≤ yoe < 400) as Hyoe by (unfold yoe; Z.div_mod_to_equations; lia).
  set (doy := doe - (365 * yoe + yoe / 4 - yoe / 100)).
  assert (0 ≤ doy ≤ 365) as Hdoy by (unfold doy, yoe; Z.div_mod_to_equations; lia).
  assert (doe = 365 * yoe + yoe / 4 - yoe / 100 + doy) as Hd by (unfold doy; lia).
  clearbody doy. clearbody yoe. subst doe.
  set (mp := (5 * doy + 2) / 153).
  assert (0 ≤ mp ≤ 11) as Hmp by (unfold mp; Z.div_mod_to_equations; lia).
  unfold days_of. clearbody mp.
  assert ((yoe + era * 400) / 400 = era) as He by (Z.div_mod_to_equations; lia).
  assert ((yoe + era * 400) `mod` 400 = yoe) as Hm by (Z.div_mod_to_equations; lia).
  destruct (Z.ltb_spec mp 10).
  - rewrite (proj2 (Z.leb_gt (mp + 3) 2)), (proj2 (Z.ltb_lt 2 (mp + 3))), He, Hm by lia.
    replace (mp + 3 - 3) with mp by lia. lia.
  - rewrite (proj2 (Z.leb_le (mp - 9) 2)), (proj2 (Z.ltb_ge 2 (mp - 9))) by lia.
    replace (yoe + era * 400 + 1 - 1) with (yoe + era * 400) by lia. rewrite He, Hm.
    replace (mp - 9 + 9) with mp by lia. lia.
Qed.

Lemma valid_civil days : let '(y, m, d) := civil days in valid_date y m d = true.
Proof.
  pose proof (days_of_civil days) as H. unfold valid_date.
  destruct (civil days) as [[y m] d] eqn:E. apply bool_decide_eq_true_2. congruence.
Qed.

Lemma digit_value_digit n : 0 ≤ n ≤ 9 → digit_value (digit n) = Some n.
Proof.
  intros H. unfold digit_value, digit. rewrite nat_ascii_embedding by lia.
  replace (Z.of_nat (Z.to_nat (48 + n)) - 48) with n by lia.
  by rewrite (proj2 (Z.leb_le 0 n)), (proj2 (Z.leb_le n 9)) by lia.
Qed.

Lemma digits_length w n : length (digits w n) = w.
Proof. revert n. induction w as [|w IH]; intros n; simpl; [done|]. rewrite length_app, IH. simpl. lia. Qed.

(** Reading digits after [acc] reads the number they continue. *)
Lemma parse_digits_digits w n acc rest :
  0 ≤ n < 10 ^ Z.of_nat w →
  parse_digits w acc (digits w n ++ rest) = Some (acc * 10 ^ Z.of_nat w + n, rest).
Proof.
  revert n rest.
  revert acc. induction w as [|w IH]; intros acc n rest Hn.
  - simpl in *. do 2 f_equal. lia.
  - assert (∀ w a l, parse_digits (S w) a l
       = match parse_digits w a l with
         | Some (a, c :: l) => match digit_value c with Some n => Some (10 * a + n, l) | None => None end
         | _ => None
         end) as Hlast.
    { clear. induction w as [|w IH]; intros a [|c l]; try done.
      cbn [parse_digits]. destruct (digit_value c); [|done]. by rewrite <- IH. }
    rewrite Hlast. cbn [digits]. rewrite <- (assoc_L (++)).
    rewrite Nat2Z.inj_succ, Z.pow_succ_r in Hn |- * by lia.
    rewrite IH by (Z.div_mod_to_equations; lia). cbn [app].
    rewrite digit_value_digit by (Z.div_mod_to_equations; lia).
    do 2 f_equal. pose proof (Z.div_mod n 10 ltac:(lia)). lia.
Qed.

Lemma digits_are_digits w n : 0 ≤ n → Forall (λ c, is_Some (digit_value c)) (digits w n).
Proof.
  revert n. induction w as [|w IH]; intros n Hn; [constructor|]. cbn [digits].
  apply Forall_app. split; [apply IH; Z.div_mod_to_equations; lia|].
  apply Forall_singleton. rewrite digit_value_digit by (Z.div_mod_to_equations; lia). eauto.
Qed.

(** Trimming takes away zeros only. *)
Lemma drop_zeros_split l : ∃ k, l = replicate k "0"%char ++ drop_zeros l.
Proof.
  induction l as [|c l [k IH]]; [by exists 0%nat|]. simpl.
  destruct (Ascii.eqb_spec c "0"); [|by exists 0%nat]. subst. exists (S k). simpl. by rewrite <- IH.
Qed.
Lemma trim_split l : ∃ k, l = rev (drop_zeros (rev l)) ++ replicate k "0"%char.
Proof.
  destruct (drop_zeros_split (rev l)) as [k E]. exists k.
  rewrite <- (rev_involutive l) at 1. rewrite E at 1. rewrite rev_app_distr. f_equal.
  clear. induction k as [|k IH]; [done|]. simpl. rewrite IH. symmetry. apply (replicate_cons_app k).
Qed.

Lemma digit_prefix_app ds c rest :
  Forall (λ c, is_Some (digit_value c)) ds → digit_value c = None →
  digit_prefix (ds ++ c :: rest) = (ds, c :: rest).
Proof.
  intros H Hc. induction H as [|x ds [n Hn] _ IH]; simpl; [by rewrite Hc|]. by rewrite Hn, IH.
Qed.

Lemma parse_fraction_fraction ns rest :
  0 ≤ ns < 10 ^ 9 → parse_fraction (fraction ns ++ "Z"%char :: rest) = Some (ns, "Z"%char :: rest).
Proof.
  intros Hns. unfold fraction.
  destruct (trim_split (digits 9 ns)) as [k E].
  pose proof (digits_are_digits 9 ns ltac:(lia)) as Hd.
  pose proof (digits_length 9 ns) as Hlen.
  pose proof (parse_digits_digits 9 ns 0 [] ltac:(lia)) as Hp. rewrite app_nil_r in Hp.
  generalize dependent (rev (drop_zeros (rev (digits 9 ns)))). intros ds E.
  rewrite E in Hd, Hlen, Hp. rewrite length_app, length_replicate in Hlen. apply Forall_app in Hd as [Hd _].
  destruct ds as [|c ds].
  - assert (k = 9%nat) as -> by (simpl in Hlen; lia). vm_compute in Hp.
    injection Hp as Hp. cbn. do 2 f_equal. lia.
  - unfold parse_fraction. cbn [app parse_char Ascii.eqb Bool.eqb].
    change (c :: ds ++ "Z"%char :: rest) with ((c :: ds) ++ "Z"%char :: rest).
    rewrite digit_prefix_app by done.
    assert (take 9 ((c :: ds) ++ replicate 9 "0"%char) = (c :: ds) ++ replicate k "0"%char) as ->.
    { rewrite take_app_ge by (simpl in *; lia). f_equal. rewrite take_replicate. f_equal. simpl in *. lia. }
    by rewrite Hp.
Qed.

(** Instants whose year has four digits. *)
Definition four_digit_year (t : time) : Prop :=
  let '(y, _, _) := civil (t / 10 ^ 9 / 86400) in 0 ≤ y ≤ 9999.
#[global] Instance four_digit_year_dec t : Decision (four_digit_year t).
Proof. unfold four_digit_year. destruct (civil _) as [[y m] d]. apply _. Defined.

Lemma parse_char_same c l : parse_char c (c :: l) = Some l.
Proof. simpl. by rewrite Ascii.eqb_refl. Qed.

Lemma ParseRFC3339_FormatUTC t : four_digit_year t → ParseRFC3339 (FormatUTC t) = Some t.
Proof.
  unfold ParseRFC3339, FormatUTC. rewrite String.list_ascii_of_string_of_list_ascii.
  unfold four_digit_year, format_list. set (secs := t / 10 ^ 9).
  pose proof (civil_bounds (secs / 86400)) as Hb. pose proof (days_of_civil (secs / 86400)) as Hdays.
  pose proof (valid_civil (secs / 86400)) as Hv. destruct (civil (secs / 86400)) as [[y m] d]. intros Hy.
  pose proof (Z.mod_pos_bound secs 86400 ltac:(lia)) as Hsod.
  pose proof (Z.div_mod secs 86400 ltac:(lia)) as Hsecs.
  pose proof (Z.mod_pos_bound t (10 ^ 9) ltac:(lia)) as Hns.
  pose proof (Z.div_mod t (10 ^ 9) ltac:(lia)) as Ht. fold secs in Ht.
  set (sod := secs `mod` 86400) in *. set (ns := t `mod` 10 ^ 9) in *. clearbody sod ns.
  unfold year_digits. rewrite (proj2 (Z.ltb_ge y 0)), (proj2 (Z.ltb_lt (Z.abs y) 10000)), Z.abs_eq by lia.
  assert (0 ≤ sod / 3600 < 24) by (Z.div_mod_to_equations; lia).
  assert (0 ≤ (sod / 60) `mod` 60 < 60) by (apply Z.mod_pos_bound; lia).
  assert (0 ≤ sod `mod` 60 < 60) by (apply Z.mod_pos_bound; lia).
  assert (sod = sod / 3600 * 3600 + (sod / 60) `mod` 60 * 60 + sod `mod` 60) by (Z.div_mod_to_equations; lia).
  generalize dependent (sod / 3600). intros hh. generalize dependent ((sod / 60) `mod` 60). intros mi.
  generalize dependent (sod `mod` 60). intros ss. intros.
  unfold parse_list. cbn [app].
  repeat (rewrite parse_digits_digits by (simpl; lia); cbn [mbind option_bind];
          try (rewrite parse_char_same; cbn [mbind option_bind])).
  rewrite parse_fraction_fraction by lia. cbn [mbind option_bind parse_zone]. unfold parse_zone.
  rewrite parse_char_same. cbn [mbind option_bind].
  rewrite !Z.mul_0_l, !Z.add_0_l, Hv, Hdays.
  rewrite (proj2 (Z.ltb_lt hh 24)), (proj2 (Z.ltb_lt mi 60)), (proj2 (Z.ltb_lt ss 60)) by lia.
  cbn [andb]. rewrite bool_decide_eq_true_2 by done. f_equal. lia.
Qed.

(** The text of an instant has no vertical bar. *)
Definition is_time_char (c : ascii) : bool :=
  if digit_value c is Some _ then true else bool_decide (c ∈ ["-"; "T"; ":"; "."; "Z"]%char).
Lemma digits_time_chars w n : 0 ≤ n → Forall (λ c, is_time_char c = true) (digits w n).
Proof.
  intros Hn. eapply Forall_impl; [by apply (digits_are_digits w n)|].
  intros c [v Hv]. unfold is_time_char. by rewrite Hv.
Qed.
Lemma fraction_time_chars ns : 0 ≤ ns → Forall (λ c, is_time_char c = true) (fraction ns).
Proof.
  intros Hns. unfold fraction. destruct (trim_split (digits 9 ns)) as [k E].
  pose proof (digits_time_chars 9 ns Hns) as Hd. rewrite E in Hd. apply Forall_app in Hd as [Hd _].
  destruct (rev (drop_zeros (rev (digits 9 ns)))); [done|]. by constructor.
Qed.
Lemma format_time_chars t : four_digit_year t → Forall (λ c, is_time_char c = true) (format_list t).
Proof.
  unfold four_digit_year, format_list. pose proof (civil_bounds (t / 10 ^ 9 / 86400)) as Hb.
  destruct (civil _) as [[y m] d]. intros Hy.
  pose proof (Z.mod_pos_bound (t / 10 ^ 9) 86400 ltac:(lia)) as Hsod.
  pose proof (Z.mod_pos_bound t (10 ^ 9) ltac:(lia)) as Hns.
  unfold year_digits. rewrite (proj2 (Z.ltb_ge y 0)), (proj2 (Z.ltb_lt (Z.abs y) 10000)) by lia. cbn [app].
  repeat first
    [ apply fraction_time_chars; lia
    | apply digits_time_chars; first [lia | apply Z.div_pos; lia | eapply proj1, Z.mod_pos_bound; lia]
    | apply Forall_app; split
    | apply Forall_cons; split; [reflexivity|]
    | apply Forall_nil_2 ].
Qed.
