(* ===== verification/OutboxNotify.v ===== *)
(** * The outbox notifier and the lag check

    [OutboxNotify.v] models infra/events/outbox/notifier.go and infra/events/outbox/health.go.
    The notifier is a machine: its moves are what the driver answers, the timer, the
    cancellation of its context and the receive of the worker.  The lag check is a query on the
    tables of Outbox.v. *)

From S2P Require Import Prelude Errors GoText Event Db Outbox GoTime.

(** ** notifier.go *)

Definition NotifyChannel : string := "outbox_events_inserted".
Definition reconnectDelay : Z := (3 * 10 ^ 9)%Z.

(** Where [Start] is: in a call of the driver inside [listenLoop], in the select before a new
    attempt, or returned. *)
Inductive phase := Connecting | Executing | Waiting | Delaying | Returned (e : error).
(** [wake] is the channel of capacity one, [open_conns] counts the connections to close, [cause]
    is the error of the context once it is cancelled. *)
Record Notifier := { ph : phase; wake : bool; open_conns : nat; cause : option error; warnings : list error }.
Definition NewNotifier : Notifier :=
  {| ph := Connecting; wake := false; open_conns := 0; cause := None; warnings := [] |}.

Inductive move :=
| ConnectReturns (err : option error)
| ExecReturns (err : option error)
| WaitReturns (err : option error)
| TimerFires
| CtxDone
| Cancel (err : error)
| Receive.

Definition set_ph (p : phase) (n : Notifier) : Notifier :=
  {| ph := p; wake := wake n; open_conns := open_conns n; cause := cause n; warnings := warnings n |}.
Definition set_conns (k : nat) (n : Notifier) : Notifier :=
  {| ph := ph n; wake := wake n; open_conns := k; cause := cause n; warnings := warnings n |}.
Definition set_wake (b : bool) (n : Notifier) : Notifier :=
  {| ph := ph n; wake := b; open_conns := open_conns n; cause := cause n; warnings := warnings n |}.

(** [listenLoop] returned [err]: [Start] returns the context's error or arms the timer. *)
Definition loop_failed (err : error) (n : Notifier) : Notifier :=
  match cause n with
  | Some c => set_ph (Returned c) n
  | None => {| ph := Delaying; wake := wake n; open_conns := open_conns n; cause := None;
               warnings := warnings n ++ [err] |}
  end.
(** The deferred [conn.Close]. *)
Definition close_conn (n : Notifier) : Notifier := set_conns (open_conns n - 1) n.

(** The moves of [listenLoop]. *)
Definition listenLoop (n : Notifier) (m : move) : Notifier :=
  match ph n, m with
  | Connecting, ConnectReturns (Some err) => loop_failed (Errorf_w "outbox: notifier connect: " err) n
  | Connecting, ConnectReturns None => set_ph Executing (set_conns (S (open_conns n)) n)
  | Executing, ExecReturns (Some err) => loop_failed (Errorf_w "outbox: notifier LISTEN: " err) (close_conn n)
  | Executing, ExecReturns None => set_ph Waiting n
  | Waiting, WaitReturns (Some err) => loop_failed (Errorf_w "outbox: notifier wait: " err) (close_conn n)
  | Waiting, WaitReturns None => set_wake true n
  | _, _ => n
  end.
(** All moves; one that is not enabled changes nothing.  The worker receives from a full channel
    only. *)
Definition Notifier_step (n : Notifier) (m : move) : Notifier :=
  match m with
  | Cancel err => {| ph := ph n; wake := wake n; open_conns := open_conns n;
                     cause := match cause n with Some c => Some c | None => Some err end; warnings := warnings n |}
  | Receive => set_wake false n
  | TimerFires => match ph n with Delaying => set_ph Connecting n | _ => n end
  | CtxDone => match ph n, cause n with Delaying, Some c => set_ph (Returned c) n | _, _ => n end
  | _ => listenLoop n m
  end.
Definition Start (ms : list move) : Notifier := foldl Notifier_step NewNotifier ms.

(** ** health.go *)

Record LagChecker := { threshold : Z }.
Definition lagging (cutoff : time) (row : outbox_row) : bool := unpublished row && bool_decide (r_created_at row < cutoff)%Z.
(** [now] is the clock of the process. *)
Definition LagChecker_HealthCheck {Dom Mem} (now : time) (c : LagChecker) (w : world (database Dom) Mem)
    : option error * world (database Dom) Mem :=
  let cutoff := (now - threshold c)%Z in
  match Exec Pool (λ _ d, Ok (Z.of_nat (length (filter (λ row, lagging cutoff row = true) (outbox_events d))), d)) w with
  | (Err err, w) => (Some (Errorf_w "outbox_lag: query: " err), w)
  | (Ok count, w) =>
      if (0 <? count)%Z
      then (Some (EText ("outbox_lag: " +:+ pretty count +:+ " entries older than " +:+ Duration_String (threshold c)
                         +:+ " remain unpublished")), w)
      else (None, w)
  end.

(** ** The notifier's invariant *)

(** A connection is open exactly while [listenLoop] uses it; [Start] returns only the error of
    its cancelled context. *)
Definition notifier_ok (n : Notifier) : Prop :=
  open_conns n = match ph n with Executing | Waiting => 1 | _ => 0 end
  ∧ match ph n with Returned e => cause n = Some e | _ => True end.

Lemma loop_failed_ok err n : open_conns n = 0 → notifier_ok (loop_failed err n).
Proof. intros Hn. unfold notifier_ok, loop_failed, set_ph. by destruct (cause n) as [c|] eqn:E; cbn; rewrite ?E. Qed.
Lemma Notifier_step_ok n m : notifier_ok n → notifier_ok (Notifier_step n m).
Proof.
  intros [Hc Hr]. destruct m as [[err|]|[err|]|[err|]| | |err|]; unfold Notifier_step, listenLoop;
    destruct (ph n) eqn:E; rewrite ?E; try (by split; rewrite ?E);
    try (apply loop_failed_ok; cbn; lia); try (split; cbn; rewrite ?E; (done || lia)).
  - destruct (cause n) eqn:Ec; split; cbn; rewrite ?E; (done || lia).
  - split; cbn; rewrite ?E; [done|]. by rewrite Hr.
Qed.
Lemma Start_ok ms : notifier_ok (Start ms).
Proof.
  unfold Start. assert (notifier_ok NewNotifier) as H0 by by split.
  revert H0. generalize NewNotifier. induction ms as [|m ms IH]; intros n H0; [done|]. by apply IH, Notifier_step_ok.
Qed.

(** Only a notification fills the channel and only a receive empties it. *)
Lemma step_wake n m :
  wake (Notifier_step n m)
  = match m with
    | Receive => false
    | WaitReturns None => wake n || match ph n with Waiting => true | _ => false end
    | _ => wake n
    end.
Proof.
  assert (∀ err n, wake (loop_failed err n) = wake n) as Hl by (intros err n'; unfold loop_failed; by case_match).
  destruct m as [[err|]|[err|]|[err|]| | |err|]; unfold Notifier_step, listenLoop; destruct (ph n); cbn;
    rewrite ?Hl, ?orb_false_r, ?orb_true_r; try done. by destruct (cause n).
Qed.

(** Some notification arrived and the worker has not received since. *)
Definition pending (ms : list move) : Prop :=
  ∃ pre post, ms = pre ++ WaitReturns None :: post ∧ ph (Start pre) = Waiting ∧ Receive ∉ post.

Lemma wake_pending_snoc ms m :
  pending (ms ++ [m]) ↔ m ≠ Receive ∧ (pending ms ∨ m = WaitReturns None ∧ ph (Start ms) = Waiting).
Proof.
  split.
  - intros (pre & post & Heq & Hw & Hp). destruct post as [|x post _] using rev_ind.
    + apply app_inj_tail in Heq as [-> ->]. split; [done|]. by right.
    + rewrite app_comm_cons, app_assoc in Heq. apply app_inj_tail in Heq as [-> ->].
      split; [set_solver|]. left. exists pre, post. set_solver.
  - intros [Hm [(pre & post & -> & Hw & Hp)|[-> Hw]]].
    + exists pre, (post ++ [m]). rewrite <- app_assoc. split_and!; [done..|]. set_solver.
    + exists ms, []. split_and!; [done..|]. apply not_elem_of_nil.
Qed.

(** C32: no notification is lost and none is invented: along every run of the notifier, through
    failed connections and reconnects, the wake channel is full exactly when a notification
    arrived that the worker has not received yet.  At most one connection is open, none in a
    delay or after the return, [Start] returns only when its context is cancelled, with that
    error, and once it is cancelled the next error of the driver, or the select of a delay, ends
    it. *)
Theorem notifier_signals (ms : list move) :
  let n := Start ms in
  (wake n = true ↔ pending ms)
  ∧ open_conns n ≤ 1
  ∧ (∀ e, ph n = Returned e → cause n = Some e ∧ open_conns n = 0)
  ∧ (∀ c err, cause n = Some c →
       match ph n with
       | Connecting => ph (Notifier_step n (ConnectReturns (Some err))) = Returned c
       | Executing => ph (Notifier_step n (ExecReturns (Some err))) = Returned c
       | Waiting => ph (Notifier_step n (WaitReturns (Some err))) = Returned c
       | Delaying => ph (Notifier_step n CtxDone) = Returned c
       | Returned e => e = c
       end).
Proof.
  cbv zeta. destruct (Start_ok ms) as [Hc Hr]. split_and!.
  - clear Hc Hr. induction ms as [|m ms IH] using rev_ind.
    { split; [done|]. intros (pre & post & Heq & _). by destruct pre. }
    rewrite wake_pending_snoc. unfold Start in *. rewrite foldl_app. cbn [foldl]. rewrite step_wake, <- IH.
    destruct m as [[err|]|[err|]|[err|]| | |err|]; rewrite ?orb_true_iff; try naive_solver.
    destruct (ph (foldl _ _ ms)); naive_solver.
  - rewrite Hc. destruct (ph (Start ms)); lia.
  - intros e He. rewrite He in *. by split.
  - intros c err Hcause. unfold Notifier_step, listenLoop, loop_failed, close_conn, set_conns.
    destruct (ph (Start ms)) eqn:E; rewrite ?E; cbn; rewrite ?Hcause; try done. congruence.
Qed.

(** the lag check fails exactly when the query fails or some unpublished entry is older than
    the threshold, and it never changes the database. *)
Theorem lag_check_spec {Dom Mem} (now : time) (c : LagChecker) (w : world (database Dom) Mem) :
  let '(r, w') := LagChecker_HealthCheck now c w in
  outbox_events (pool w') = outbox_events (pool w)
  ∧ (c_fault (here w) = NoFault →
     (r = None ↔ ∀ row, row ∈ outbox_events (pool w) → r_published_at row = None → (now - threshold c ≤ r_created_at row)%Z))
  ∧ (c_fault (here w) ≠ NoFault → ∃ err, r = Some (Errorf_w "outbox_lag: query: " err)).
Proof.
  unfold LagChecker_HealthCheck, Exec. set (p := λ row, lagging (now - threshold c) row = true).
  destruct (c_fault (here w)) as [|e|e]; cbn [view].
  - assert (length (filter p (outbox_events (pool w))) = 0 ↔
      ∀ row, row ∈ outbox_events (pool w) → r_published_at row = None → (now - threshold c ≤ r_created_at row)%Z) as Hp.
    { rewrite length_zero_iff_nil. split.
      - intros He row Hin Hn. destruct (Z.le_gt_cases (now - threshold c) (r_created_at row)); [done|].
        exfalso. apply (not_elem_of_nil row). rewrite <- He. apply list_elem_of_filter. split; [|done].
        subst p. unfold lagging, unpublished. rewrite Hn. by apply bool_decide_eq_true.
      - intros Hall. apply elem_of_nil_inv. intros row [Hp Hin]%list_elem_of_filter. specialize (Hall row Hin).
        subst p. unfold lagging, unpublished in Hp. destruct (r_published_at row); [done|].
        apply bool_decide_eq_true in Hp. specialize (Hall eq_refl). lia. }
    destruct (Z.ltb_spec 0 (Z.of_nat (length (filter p (outbox_events (pool w)))))); cbn;
      (split; [done|]; split; [intros _; rewrite <- Hp|done]); split; intros; try done; lia.
  - cbn. split_and!; [done..|]. intros _. by eexists.
  - cbn. split_and!; [done..|]. intros _. by eexists.
Qed.

(** A context cancelled during a wait, after two notifications of which one was received. *)
Example a_run : Start [ConnectReturns (Some (EText "refused")); TimerFires; ConnectReturns None; ExecReturns None;
    WaitReturns None; Receive; WaitReturns None; Cancel (EText "context canceled"); WaitReturns (Some (EText "closed"))]
  = {| ph := Returned (EText "context canceled"); wake := true; open_conns := 0; cause := Some (EText "context canceled");
       warnings := [Errorf_w "outbox: notifier connect: " (EText "refused")] |}.
Proof. reflexivity. Qed.
