(* ===== verification/Domain.v ===== *)
(** * Value objects, rules and collections

    [Domain.v] models the kernel's small packages: vo (money.go, pagination.go), entity/base.go,
    spec/spec.go, policy/policy.go, runtime/policy.go, infra/validation (chain.go, rules.go),
    validator/validator.go over an interface of go-playground/validator, types (collection.go
    and the rest of set.go) and clock/clock.go.  Go's [int] and [int64] are integers that wrap
    at 64 bits. *)

From Stdlib Require Import Ascii.
From S2P Require Import Prelude Errors GoText Event GoTime.

(** ** vo/money.go *)

Record Money := { amount : Z; currency : string }.
Definition NewMoney (a : Z) (c : string) : result error Money :=
  if decide (String.length c ≠ 3)
  then Err (NewValidation "currency" "currency must be a 3-character ISO 4217 code")
  else if decide (a < 0)%Z then Err (NewValidation "amount" "amount must be >= 0")
  else Ok {| amount := a; currency := c |}.
Definition Money_Add (m other : Money) : result error Money :=
  if decide (currency m ≠ currency other)
  then Err (EText ("currency mismatch: cannot add " +:+ currency other +:+ " to " +:+ currency m))
  else Ok {| amount := wrap64 (amount m + amount other); currency := currency m |}.
Definition Money_Subtract (m other : Money) : result error Money :=
  if decide (currency m ≠ currency other)
  then Err (EText ("currency mismatch: cannot subtract " +:+ currency other +:+ " from " +:+ currency m))
  else
    let result := wrap64 (amount m - amount other) in
    if decide (result < 0)%Z then Err (NewValidation "amount" "subtraction result must be >= 0")
    else Ok {| amount := result; currency := currency m |}.
Definition Money_Multiply (m : Money) (factor : Z) : Money :=
  {| amount := wrap64 (amount m * factor); currency := currency m |}.
Definition Money_IsZero (m : Money) : bool := (amount m =? 0)%Z.
Definition Money_Equals (m other : Money) : bool :=
  (amount m =? amount other)%Z && (currency m =? currency other)%string.
Definition Money_String (m : Money) : string := pretty (amount m) +:+ " " +:+ currency m.

(** What [NewMoney] guarantees. *)
Definition money_ok (m : Money) : Prop := (0 ≤ amount m < 2 ^ 63)%Z ∧ String.length (currency m) = 3.

(** the invariant of money.  [NewMoney] establishes it and [Subtract] keeps it: on valid
    operands of one currency it returns the exact difference, or an error exactly when that is
    negative.  [Add] and [Multiply] are exact while the result fits 64 bits; a sum that does not
    fit is returned without error and is negative. *)
Theorem money_arithmetic (m other : Money) (factor : Z) :
  money_ok m → money_ok other → currency m = currency other →
  (Money_Subtract m other
   = if decide (amount other ≤ amount m)%Z
     then Ok {| amount := amount m - amount other; currency := currency m |}
     else Err (NewValidation "amount" "subtraction result must be >= 0"))
  ∧ (∃ s, Money_Add m other = Ok s ∧ currency s = currency m
          ∧ (if decide (amount m + amount other < 2 ^ 63)%Z
             then amount s = (amount m + amount other)%Z ∧ money_ok s
             else (amount s < 0)%Z))
  ∧ ((0 ≤ factor)%Z → (amount m * factor < 2 ^ 63)%Z →
     amount (Money_Multiply m factor) = (amount m * factor)%Z ∧ money_ok (Money_Multiply m factor)).
Proof.
  intros [Hm Hc] [Ho Ho'] Heq. split_and!.
  - unfold Money_Subtract. rewrite decide_False by (by intros []).
    rewrite wrap64_id by (unfold int64_range; lia). repeat case_decide; (done || lia).
  - unfold Money_Add. rewrite decide_False by (by intros []). eexists. split_and!; [done..|].
    case_decide; cbn [amount].
    + rewrite wrap64_id by (unfold int64_range; lia). split; [done|].
      split; cbn [amount currency]; [lia|done].
    + rewrite wrap64_add_over by lia. lia.
  - intros Hf Hlt. cbn [Money_Multiply amount]. rewrite wrap64_id by (unfold int64_range; nia). split; [done|].
    split; cbn [amount currency Money_Multiply]; [|done].
    rewrite ?wrap64_id by (unfold int64_range; nia). nia.
Qed.

Lemma NewMoney_ok a c m : int64_range a → NewMoney a c = Ok m → money_ok m ∧ amount m = a ∧ currency m = c.
Proof.
  unfold NewMoney, int64_range. intros Ha. repeat case_decide; try done. intros [= <-].
  split; [|done]. split; cbn; lia.
Qed.

(** ** vo/pagination.go *)

Definition defaultPageLimit : Z := 20.
Definition maxPageLimit : Z := 100.
Record PageRequest := { Cursor : string; Limit : Z }.
Definition PageRequest_Validate (p : PageRequest) : option error :=
  if decide (Limit p < 0)%Z then Some (EText ("pagination limit must be >= 0, got " +:+ pretty (Limit p))) else None.
Definition EffectiveLimit (p : PageRequest) : Z :=
  if decide (Limit p ≤ 0)%Z then defaultPageLimit
  else if decide (maxPageLimit < Limit p)%Z then maxPageLimit
  else Limit p.

Record PageResponse (T : Type) := { Items : list T; NextCursor : string; HasMore : bool; TotalCount : Z }.
Arguments Items {T} _.
Arguments NextCursor {T} _.
Arguments HasMore {T} _.
Arguments TotalCount {T} _.
Definition MapPage {T U} (page : PageResponse T) (fn : T → U) : PageResponse U :=
  {| Items := map fn (Items page); NextCursor := NextCursor page; HasMore := HasMore page;
     TotalCount := TotalCount page |}.

Definition EncodeCursor (createdAt : time) (id : string) : string :=
  rawURL_EncodeToString (FormatUTC createdAt +:+ "|" +:+ id).
(** The texts of the base64 and time errors are left out. *)
Definition DecodeCursor (cursor : string) : result error (time * string) :=
  match rawURL_DecodeString cursor with
  | None => Err (Errorf_w "cursor: decode base64: " (EText "base64"))
  | Some raw =>
      match split_at "|" (String.list_ascii_of_string raw) with
      | None => Err (EText "cursor: invalid format")
      | Some (l1, l2) =>
          match ParseRFC3339 (String.string_of_list_ascii l1) with
          | None => Err (Errorf_w "cursor: parse time: " (EText "time"))
          | Some t => Ok (t, String.string_of_list_ascii l2)
          end
      end
  end.

(** pagination cursors are lossless: decoding the cursor of an instant of a four-digit year
    and of any identifier, one with vertical bars included, gives back both, to the nanosecond. *)
Theorem cursor_roundtrip (createdAt : time) (id : string) :
  four_digit_year createdAt → DecodeCursor (EncodeCursor createdAt id) = Ok (createdAt, id).
Proof.
  intros Hy. unfold DecodeCursor, EncodeCursor. rewrite rawURL_roundtrip.
  unfold FormatUTC at 1. rewrite !list_ascii_app, String.list_ascii_of_string_of_list_ascii.
  change (String.list_ascii_of_string "|") with ["|"%char]. cbn [app].
  rewrite split_at_app.
  - fold (FormatUTC createdAt). rewrite ParseRFC3339_FormatUTC by done.
    by rewrite String.string_of_list_ascii_of_string.
  - intros Hin. pose proof (format_time_chars _ Hy) as Hc. rewrite Forall_forall in Hc.
    by specialize (Hc _ Hin).
Qed.

(** ** entity/base.go *)

Module Entity.
Record Base := { id : string; createdAt : time; updatedAt : time }.
Definition NewBase (now : time) (i : string) : Base := {| id := i; createdAt := now; updatedAt := now |}.
Definition SetUpdatedAt (t : time) (b : Base) : Base := {| id := id b; createdAt := createdAt b; updatedAt := t |}.
End Entity.

(** ** spec/spec.go *)

Section Specs.
Context {T : Type}.

Inductive Spec :=
| funcSpec (name : string) (pred : T → bool)
| andSpec (left right : Spec)
| orSpec (left right : Spec)
| notSpec (inner : Spec).
Fixpoint Name (s : Spec) : string :=
  match s with
  | funcSpec name _ => name
  | andSpec l r => Name l +:+ " AND " +:+ Name r
  | orSpec l r => Name l +:+ " OR " +:+ Name r
  | notSpec s => "NOT " +:+ Name s
  end.
Fixpoint IsSatisfiedBy (s : Spec) (e : T) : bool :=
  match s with
  | funcSpec _ pred => pred e
  | andSpec l r => IsSatisfiedBy l e && IsSatisfiedBy r e
  | orSpec l r => IsSatisfiedBy l e || IsSatisfiedBy r e
  | notSpec s => negb (IsSatisfiedBy s e)
  end.
(** A violation has no cause: it is its text. *)
Definition Violation (SpecName Message : string) : error :=
  EText ("specification " +:+ Quote SpecName +:+ " violated: " +:+ Message).
Definition Spec_Check (s : Spec) (e : T) : option error :=
  if IsSatisfiedBy s e then None else Some (Violation (Name s) (Name s +:+ " is not satisfied")).
Definition CheckAll (e : T) (specs : list Spec) : list error :=
  foldl (λ errs s, match Spec_Check s e with Some err => errs ++ [err] | None => errs end) [] specs.
Definition FormatViolations (errs : list error) : string :=
  String.concat "; " (map Error errs).

(** [CheckAll] reports every violated specification and nothing else, in order, whatever
    combination of connectives they are; it is empty exactly when all of them hold. *)
Theorem CheckAll_spec (e : T) (specs : list Spec) :
  CheckAll e specs
  = map (λ s, Violation (Name s) (Name s +:+ " is not satisfied"))
      (filter (λ s, IsSatisfiedBy s e = false) specs)
  ∧ (CheckAll e specs = [] ↔ Forall (λ s, IsSatisfiedBy s e = true) specs).
Proof.
  assert (CheckAll e specs
    = map (λ s, Violation (Name s) (Name s +:+ " is not satisfied"))
      (filter (λ s, IsSatisfiedBy s e = false) specs)) as E.
  { unfold CheckAll. induction specs as [|s specs IH] using rev_ind; [done|].
    rewrite foldl_app, filter_app, map_app, IH. cbn [foldl]. unfold Spec_Check.
    rewrite filter_cons, filter_nil. destruct (IsSatisfiedBy s e); cbn; by rewrite ?app_nil_r. }
  split; [done|]. rewrite E. clear E. induction specs as [|s specs IH]; [done|].
  rewrite filter_cons, Forall_cons, <- IH. destruct (IsSatisfiedBy s e); case_decide; naive_solver.
Qed.
End Specs.
Arguments Spec : clear implicits.

(** ** policy/policy.go *)

Section Policies.
Context {I O : Type}.
Record Policy := { p_Name : string; Apply : I → result error O }.
Definition Func (name : string) (fn : I → result error O) : Policy := {| p_Name := name; Apply := fn |}.
Fixpoint apply_first (input : I) (policies : list Policy) : option O :=
  match policies with
  | [] => None
  | p :: ps => match Apply p input with Ok result => Some result | Err _ => apply_first input ps end
  end.
Definition ApplyFirst (input : I) (policies : list Policy) : result error O :=
  match apply_first input policies with
  | Some result => Ok result
  | None => Err (EText ("policy: all " +:+ pretty (length policies) +:+ " policies failed"))
  end.
End Policies.
Arguments Policy : clear implicits.

(** ** runtime/policy.go *)

Record EndpointPolicy := {
  RequireAuth : bool; Roles : list string; Permissions : list string; AllowSelf : bool;
  SelfParamName : string; RateLimit : Z; MaxBodySize : Z; IdempotencyKey : bool; Timeout : Z; AuditLog : bool
}.
Definition DefaultPolicy : EndpointPolicy :=
  {| RequireAuth := true; Roles := []; Permissions := []; AllowSelf := false; SelfParamName := EmptyString;
     RateLimit := 100; MaxBodySize := 2 ^ 20; IdempotencyKey := false; Timeout := 30 * 10 ^ 9; AuditLog := true |}.

(** ** infra/validation *)

Section Validation.
Context {T : Type}.

Definition Rule : Type := T → option error.
(** [ValidationErrors] has no [Unwrap]: to package errors it is its text. *)
Definition ValidationErrors_Error (errs : list error) : string :=
  match errs with
  | [AppError _ msg _ _] => msg
  | _ => "validation failed: " +:+ pretty (length errs) +:+ " error(s)"
  end.
Definition ValidationErrors (errs : list error) : error := EText (ValidationErrors_Error errs).
(** A type assertion: a wrapped application error is not one. *)
Definition toAppError (err : error) : error :=
  match err with
  | AppError _ _ _ _ => err
  | _ => AppError ErrValidation (Error err) EmptyString (Some err)
  end.
Definition collect_errors (rules : list Rule) (input : T) : list error :=
  foldl (λ errs rule, match rule input with Some err => errs ++ [toAppError err] | None => errs end) [] rules.
Definition Chain_Validate (rules : list Rule) (input : T) : option error :=
  match collect_errors rules input with [] => None | errs => Some (ValidationErrors errs) end.

Definition Required (fieldName : string) (getter : T → string) : Rule := λ input,
  if (getter input =? "")%string then Some (NewValidation fieldName (fieldName +:+ " is required")) else None.
Definition MaxLength (fieldName : string) (max : Z) (getter : T → string) : Rule := λ input,
  if decide (max < Z.of_nat (String.length (getter input)))%Z
  then Some (NewValidation fieldName (fieldName +:+ " must not exceed " +:+ pretty max +:+ " characters"))
  else None.
Definition Positive (fieldName : string) (getter : T → Z) : Rule := λ input,
  if decide (getter input ≤ 0)%Z then Some (NewValidation fieldName (fieldName +:+ " must be a positive number"))
  else None.
Definition Custom (fn : T → option error) : Rule := fn.
Definition UniqueCheck (fieldName : string) (checkFn : T → result error bool) : Rule := λ input,
  match checkFn input with
  | Err err => Some (NewValidation fieldName ("could not verify uniqueness of " +:+ fieldName +:+ ": " +:+ Error err))
  | Ok true => Some (NewValidation fieldName (fieldName +:+ " already exists"))
  | Ok false => None
  end.

Lemma collect_errors_omap rules input : collect_errors rules input = omap (λ rule : Rule, toAppError <$> rule input) rules.
Proof.
  unfold collect_errors. induction rules as [|rule rules IH] using rev_ind; [done|].
  rewrite foldl_app, omap_app, IH. cbn. destruct (rule input); cbn; by rewrite ?app_nil_r.
Qed.

(** a validation chain evaluates every rule and fails exactly when one of them fails.  The
    error it returns is however no application error to the error mappers: whatever the rules
    returned, the HTTP layer answers 500 INTERNAL_ERROR and gRPC Internal, without the messages. *)
Theorem chain_failure_is_internal (rules : list Rule) (input : T) :
  (Chain_Validate rules input = None ↔ Forall (λ rule : Rule, rule input = None) rules)
  ∧ ∀ err, Chain_Validate rules input = Some err →
      mapError err = (500%Z, "INTERNAL_ERROR", "an unexpected error occurred")
      ∧ mapGRPCError err = (Internal, "internal server error").
Proof.
  unfold Chain_Validate. rewrite collect_errors_omap. split.
  - induction rules as [|rule rules IH]; [done|]. cbn. rewrite Forall_cons.
    destruct (rule input); cbn; [naive_solver|]. rewrite IH. naive_solver.
  - intros err. destruct (omap _ rules); [done|]. by intros [= <-].
Qed.
End Validation.

(** ** validator/validator.go *)

(** What the wrapper reads of go-playground/validator: a struct fails with the errors of its
    fields, or with another error when the argument is not a struct. *)
Record FieldError := { fe_Field : string; fe_Tag : string; fe_Param : string }.
Inductive struct_error :=
| FieldErrors (ve : list FieldError)
| InvalidValidation (text : string).

Definition buildMessage (fe : FieldError) : string :=
  if decide (fe_Tag fe = "required") then fe_Field fe +:+ " is required"
  else if decide (fe_Tag fe = "min") then fe_Field fe +:+ " must be at least " +:+ fe_Param fe
  else if decide (fe_Tag fe = "max") then fe_Field fe +:+ " must be at most " +:+ fe_Param fe
  else if decide (fe_Tag fe = "email") then fe_Field fe +:+ " must be a valid email address"
  else if decide (fe_Tag fe ∈ ["uuid"; "uuid4"]) then fe_Field fe +:+ " must be a valid UUID"
  else if decide (fe_Tag fe = "oneof") then fe_Field fe +:+ " must be one of: " +:+ fe_Param fe
  else fe_Field fe +:+ " failed validation: " +:+ fe_Tag fe.
(** [text] is the message of the library's error. *)
Definition Validate (text : struct_error → string) (err : option struct_error) : option error :=
  match err with
  | None => None
  | Some (FieldErrors (first :: _)) => Some (NewValidation (fe_Field first) (buildMessage first))
  | Some err => Some (NewValidation "input" (text err))
  end.

Lemma Validate_is_bad_request text err e :
  Validate text err = Some e → ∃ msg, mapError e = (400%Z, ErrValidation, msg).
Proof. destruct err as [[[|fe ve]|t]|]; intros [= <-]; eexists; reflexivity. Qed.

(** ** types *)

Section Collections.
Context {T U : Type}.
Definition Map (items : list T) (fn : T → U) : list U := map fn items.
Definition Filter (items : list T) (fn : T → bool) : list T :=
  foldl (λ out v, if fn v then out ++ [v] else out) [] items.
Definition Reduce (items : list T) (initial : U) (fn : U → T → U) : U := foldl fn initial items.
End Collections.

Section Keyed.
Context {T K : Type} `{Countable K}.
Definition GroupBy (items : list T) (fn : T → K) : gmap K (list T) :=
  foldl (λ out v, <[fn v := default [] (out !! fn v) ++ [v]]> out) ∅ items.
Definition slice_Contains (items : list K) (v : K) : bool := bool_decide (v ∈ items).
Definition Unique (items : list K) : list K :=
  (foldl (λ s v, if decide (v ∈ s.1) then s else ({[v]} ∪ s.1, s.2 ++ [v])) ((∅ : gset K), []) items).2.

Definition set_Add (v : K) (s : gset K) : gset K := {[v]} ∪ s.
Definition set_Remove (v : K) (s : gset K) : gset K := s ∖ {[v]}.
Definition set_Len (s : gset K) : nat := size s.
(** The iteration order of a Go map is any order of its elements. *)
Definition set_ToSlice (s : gset K) : list K := elements s.
(** The loop runs over the smaller of the two sets. *)
Definition Intersect (s other : gset K) : gset K :=
  let '(small, large) := if decide (size other < size s) then (other, s) else (s, other) in
  list_to_set (filter (λ v, v ∈ large) (elements small)).
Definition Union (s other : gset K) : gset K :=
  list_to_set (elements s ++ elements other).

(** The reference: each value followed by the others' first occurrences. *)
Fixpoint first_occurrences (l : list K) : list K :=
  match l with [] => [] | v :: l => v :: filter (λ v', v' ≠ v) (first_occurrences l) end.

Lemma Unique_from (l : list K) (seen : gset K) out :
  (foldl (λ s v, if decide (v ∈ s.1) then s else ({[v]} ∪ s.1, s.2 ++ [v])) (seen, out) l).2
  = out ++ filter (λ v, v ∉ seen) (first_occurrences l).
Proof.
  revert seen out. induction l as [|v l IH]; intros seen out; cbn [foldl first_occurrences]; [by rewrite app_nil_r|].
  rewrite filter_cons, list_filter_filter. cbn [fst snd]. destruct (decide (v ∈ seen)) as [Hv|Hv]; rewrite IH.
  - rewrite decide_False by tauto. f_equal. apply list_filter_iff. intros x. set_solver.
  - rewrite decide_True, <- app_assoc by done. cbn [app]. do 2 f_equal. apply list_filter_iff. intros x. set_solver.
Qed.

Lemma GroupBy_lookup (items : list T) (fn : T → K) k :
  default [] (GroupBy items fn !! k) = filter (λ v, fn v = k) items.
Proof.
  unfold GroupBy. induction items as [|v items IH] using rev_ind; [done|].
  rewrite foldl_app, filter_app, <- IH. cbn [foldl]. rewrite filter_cons, filter_nil.
  destruct (decide (fn v = k)) as [<-|Hne].
  - by rewrite lookup_insert_eq.
  - by rewrite lookup_insert_ne, app_nil_r.
Qed.

(** the collection helpers equal their references: grouping partitions the items by key and
    keeps their order, [Unique] keeps the first occurrence of each value in order, and the set
    operations, which iterate over one of the sets, are intersection and union. *)
Theorem collections_spec (items : list T) (fn : T → K) (values : list K) (s other : gset K) :
  (∀ k, default [] (GroupBy items fn !! k) = filter (λ v, fn v = k) items)
  ∧ Unique values = first_occurrences values
  ∧ Intersect s other = s ∩ other ∧ Union s other = s ∪ other.
Proof.
  split_and!.
  - apply GroupBy_lookup.
  - unfold Unique. rewrite Unique_from. cbn [app]. apply filter_all. apply Forall_true. set_solver.
  - unfold Intersect. apply set_eq. intros v. case_decide; rewrite elem_of_list_to_set, list_elem_of_filter,
      elem_of_elements, elem_of_intersection; tauto.
  - unfold Union. set_solver.
Qed.
End Keyed.

(** ** clock/clock.go *)

Record FakeClock := { Fixed : time }.
Definition FakeClock_Now (f : FakeClock) : time := Fixed f.

(** ** Witnesses *)

Example money_arithmetic_witness :
  let m := {| amount := 2 ^ 62; currency := "EUR" |} in
  money_ok m ∧ ∃ s, Money_Add m m = Ok s ∧ (amount s < 0)%Z.
Proof.
  intros m. assert (money_ok m) as Hm by (split; [cbn; lia|reflexivity]). split; [done|].
  destruct (money_arithmetic m m 0 Hm Hm eq_refl) as (_ & (s & Hs & _ & Ha) & _).
  exists s. split; [done|]. exact Ha.
Defined.

Example cursor_roundtrip_witness :
  DecodeCursor (EncodeCursor 1700000000123456000 "a|b") = Ok (1700000000123456000%Z, "a|b").
Proof. apply cursor_roundtrip. decide_now. Defined.

Example chain_failure_is_internal_witness :
  ∃ err, Chain_Validate [Required "name" id; MaxLength "name" 3 id] "" = Some err
         ∧ mapError err = (500%Z, "INTERNAL_ERROR", "an unexpected error occurred").
Proof.
  eexists. split; [reflexivity|].
  apply (chain_failure_is_internal [Required "name" id; MaxLength "name" 3 id] ""). reflexivity.
Defined.
