(* ===== verification/Json.v ===== *)
(** * JSON documents

    [Json.v] models what the program uses of encoding/json.  A document is its tree; a string
    token that is an RFC 3339 timestamp is the leaf [JTime] of its instant, and a number token
    that is not an integer keeps its text.  [json.Unmarshal] into a struct goes through the
    members in order and gives each to the field of its name, exactly or up to letter case;
    members of no field are skipped.  The texts of the package's errors are left out: [ErrJSON]
    stands for them.  Documents are compared up to the order of the members of objects, which
    a JSONB column does not keep. *)

From Stdlib Require Import Ascii.
From S2P Require Import Prelude Errors GoText Event.

Inductive json :=
| JNull
| JBool (b : bool)
| JInt (z : Z)
| JNumber (text : string)
| JString (s : string)
| JTime (t : time)
| JArray (l : list json)
| JObject (members : list (string * json)).

Definition ErrJSON : error := EText "json".

(** A [json.RawMessage] or [[]byte]: [None] when the bytes are not a JSON text. *)
Definition RawMessage : Type := option json.

(** ** Strings in documents

    [json.Marshal] writes a string with each byte that is not part of a UTF-8 encoding replaced
    by U+FFFD.  [rune_size] is the size of the encoding the bytes start with, 0 for none. *)
Definition between (a b : nat) (c : ascii) : bool := (a <=? nat_of_ascii c) && (nat_of_ascii c <=? b).
Definition cont (c : ascii) : bool := between 128 191 c.

Definition rune_size (l : list ascii) : nat :=
  match l with
  | [] => 0
  | c0 :: l =>
      if between 0 127 c0 then 1
      else match l with
      | [] => 0
      | c1 :: l =>
          if between 194 223 c0 then if cont c1 then 2 else 0
          else match l with
          | [] => 0
          | c2 :: l =>
              let ok2 (lo hi : nat) := between lo hi c1 && cont c2 in
              if between 224 224 c0 then if ok2 160 191 then 3 else 0
              else if between 225 236 c0 || between 238 239 c0 then if ok2 128 191 then 3 else 0
              else if between 237 237 c0 then if ok2 128 159 then 3 else 0
              else match l with
              | [] => 0
              | c3 :: _ =>
                  let ok3 (lo hi : nat) := between lo hi c1 && cont c2 && cont c3 in
                  if between 240 240 c0 then if ok3 144 191 then 4 else 0
                  else if between 241 243 c0 then if ok3 128 191 then 4 else 0
                  else if between 244 244 c0 then if ok3 128 143 then 4 else 0
                  else 0
              end
          end
      end
  end.

Definition RuneError : list ascii := map ascii_of_nat [239; 191; 189].
Fixpoint coerce (fuel : nat) (l : list ascii) : list ascii :=
  match fuel, l with
  | S fuel, c :: l' =>
      match rune_size l with
      | 0 => RuneError ++ coerce fuel l'
      | n => take n l ++ coerce fuel (drop n l)
      end
  | _, _ => []
  end.
Definition coerceUTF8 (s : string) : string :=
  let l := String.list_ascii_of_string s in String.string_of_list_ascii (coerce (length l) l).
Definition valid_utf8 (s : string) : Prop := coerceUTF8 s = s.

(** ** Marshalling *)

(** [Time.MarshalJSON] refuses years outside [0, 9999]; instants are nanoseconds since 1970. *)
Definition min_json_time : time := -62167219200 * 10 ^ 9.
Definition max_json_time : time := 253402300800 * 10 ^ 9.
Definition marshal_time (t : time) : result error json :=
  if (min_json_time <=? t)%Z && (t <? max_json_time)%Z then Ok (JTime t) else Err ErrJSON.
Definition marshal_string (s : string) : json := JString (coerceUTF8 s).
(** [map[string]string]: sorted by key; the order is of no account to the reader. *)
Definition marshal_map (m : gmap string string) : json :=
  JObject (map (λ kv, (coerceUTF8 kv.1, marshal_string kv.2)) (map_to_list m)).
(** [omitempty] *)
Definition omit_empty (k s : string) : list (string * json) :=
  if decide (s = EmptyString) then [] else [(k, marshal_string s)].

(** ** Unmarshalling *)

(** The folding of member names: ASCII case, U+017F and U+212A. *)
Fixpoint fold_name (s : string) : string :=
  match s with
  | EmptyString => EmptyString
  | String c s1 =>
      match nat_of_ascii c, s1 with
      | 197, String c1 s2 =>
          if nat_of_ascii c1 =? 191 then String "s" (fold_name s2) else String c (fold_name s1)
      | 226, String c1 (String c2 s3) =>
          if (nat_of_ascii c1 =? 132) && (nat_of_ascii c2 =? 170) then String "k" (fold_name s3)
          else String c (fold_name s1)
      | n, _ =>
          if (65 <=? n) && (n <=? 90) then String (ascii_of_nat (n + 32)) (fold_name s1)
          else String c (fold_name s1)
      end
  end.

Section Struct.
Context {T : Type}.

(** A field of the struct: its name and the decoding of a member into the struct. *)
Definition field : Type := string * (json → T → result error T).

Fixpoint find_exact (k : string) (fields : list field) : option field :=
  match fields with
  | [] => None
  | f :: fields => if decide (f.1 = k) then Some f else find_exact k fields
  end.
Fixpoint find_fold (k : string) (fields : list field) : option field :=
  match fields with
  | [] => None
  | f :: fields => if decide (fold_name f.1 = fold_name k) then Some f else find_fold k fields
  end.
Definition find_field (k : string) (fields : list field) : option field :=
  match find_exact k fields with Some f => Some f | None => find_fold k fields end.

Definition set_member (fields : list field) (x : T) (member : string * json) : result error T :=
  match find_field member.1 fields with
  | None => Ok x
  | Some f => f.2 member.2 x
  end.

(** A mismatch does not end the loop, but the caller sees only the error. *)
Fixpoint set_members (fields : list field) (members : list (string * json)) (x : T)
    : result error T :=
  match members with
  | [] => Ok x
  | m :: members =>
      match set_member fields x m with
      | Ok x => set_members fields members x
      | Err e => Err e
      end
  end.

Definition unmarshal_struct (fields : list field) (j : json) (x : T) : result error T :=
  match j with
  | JNull => Ok x
  | JObject members => set_members fields members x
  | _ => Err ErrJSON
  end.
End Struct.
Arguments field : clear implicits.

(** [json.Unmarshal] of raw bytes. *)
Definition unmarshal_raw {T} (fields : list (field T)) (v : RawMessage) (zero : T) : option T :=
  match v with
  | None => None
  | Some j => match unmarshal_struct fields j zero with Ok x => Some x | Err _ => None end
  end.

(** [rfc3339] is the text of an instant, for a timestamp read into a string. *)
Section Leaves.
Context (rfc3339 : time → string).

Definition unmarshal_string (j : json) (old : string) : result error string :=
  match j with
  | JNull => Ok old
  | JString s => Ok s
  | JTime t => Ok (rfc3339 t)
  | _ => Err ErrJSON
  end.
(** [int], [int64] and [time.Duration]. *)
Definition unmarshal_int (j : json) (old : Z) : result error Z :=
  match j with
  | JNull => Ok old
  | JInt z => if decide (-2 ^ 63 ≤ z < 2 ^ 63)%Z then Ok z else Err ErrJSON
  | _ => Err ErrJSON
  end.
Definition unmarshal_time (j : json) (old : time) : result error time :=
  match j with JNull => Ok old | JTime t => Ok t | _ => Err ErrJSON end.
Definition map_member (m : result error (gmap string string)) (member : string * json)
    : result error (gmap string string) :=
  match m, unmarshal_string member.2 EmptyString with
  | Ok m, Ok v => Ok (<[member.1 := v]> m)
  | _, _ => Err ErrJSON
  end.
Definition unmarshal_map (j : json) (old : gmap string string)
    : result error (gmap string string) :=
  match j with
  | JNull => Ok ∅
  | JObject members => foldl map_member (Ok old) members
  | _ => Err ErrJSON
  end.
(** An array into a slice: the elements the slice has are decoded into, others start at zero. *)
Fixpoint unmarshal_elems {A} (dec : json → A → result error A) (zero : A) (l : list json)
    (old : list A) : result error (list A) :=
  match l with
  | [] => Ok []
  | j :: l =>
      let '(x, old) := match old with [] => (zero, []) | x :: old => (x, old) end in
      match dec j x, unmarshal_elems dec zero l old with
      | Ok x, Ok xs => Ok (x :: xs)
      | _, _ => Err ErrJSON
      end
  end.
Definition unmarshal_slice {A} (dec : json → A → result error A) (zero : A) (j : json)
    (old : list A) : result error (list A) :=
  match j with
  | JNull => Ok []
  | JArray l => unmarshal_elems dec zero l old
  | _ => Err ErrJSON
  end.
End Leaves.

(** ** Equality up to the order of members *)

Inductive jequiv : json → json → Prop :=
| jequiv_refl j : jequiv j j
| jequiv_array l l' : Forall2 jequiv l l' → jequiv (JArray l) (JArray l')
| jequiv_object ms ms1 ms' :
    NoDup ms.*1 → ms1 ≡ₚ ms' → ms.*1 = ms1.*1 → Forall2 jequiv ms.*2 ms1.*2 →
    jequiv (JObject ms) (JObject ms').

(** ** Properties *)

Lemma find_fold_Some {T} k (fields : list (field T)) f :
  find_fold k fields = Some f → f ∈ fields ∧ fold_name f.1 = fold_name k.
Proof.
  induction fields as [|g fields IH]; simpl; [done|]. case_decide.
  - intros [= <-]. split; [list_in|done].
  - intros [? ?]%IH. split; [list_in|done].
Qed.

Lemma find_field_Some {T} k (fields : list (field T)) f :
  find_field k fields = Some f → f ∈ fields ∧ fold_name f.1 = fold_name k.
Proof.
  unfold find_field. destruct (find_exact k fields) as [g|] eqn:Hg; [|apply find_fold_Some].
  intros [= <-]. induction fields as [|h fields IH]; simpl in *; [done|]. case_decide.
  - simplify_eq. split; [list_in|done].
  - destruct (IH Hg). split; [list_in|done].
Qed.

(** Fields with different names are decoded independently of each other. *)
Definition independent {T} (fields : list (field T)) : Prop :=
  ∀ f g, f ∈ fields → g ∈ fields → fold_name f.1 ≠ fold_name g.1 →
  ∀ j1 j2 x,
    match f.2 j1 x with Ok x => g.2 j2 x | Err e => Err e end
    = match g.2 j2 x with Ok x => f.2 j1 x | Err e => Err e end.

(** Results related by [RT]; errors correspond. *)
Definition rel_result {T} (RT : T → T → Prop) (r r' : result error T) : Prop :=
  match r, r' with Ok x, Ok x' => RT x x' | Err e, Err e' => e = e' | _, _ => False end.

(** The members [ms] are read like equivalent ones, into structs related by [RT]. *)
Definition order_blind {T} (RT : T → T → Prop) (fields : list (field T))
    (ms : list (string * json)) : Prop :=
  Forall (λ m, ∀ f j' x x', find_field m.1 fields = Some f → jequiv m.2 j' → RT x x' →
    rel_result RT (f.2 m.2 x) (f.2 j' x')) ms.

Section Order.
Context {T : Type} (fields : list (field T)).

Lemma set_member_swap x m1 m2 :
  independent fields → fold_name m1.1 ≠ fold_name m2.1 →
  match set_member fields x m1 with Ok x => set_member fields x m2 | Err e => Err e end
  = match set_member fields x m2 with Ok x => set_member fields x m1 | Err e => Err e end.
Proof.
  intros Hind Hne. unfold set_member.
  destruct (find_field m1.1 fields) as [f|] eqn:Hf, (find_field m2.1 fields) as [g|] eqn:Hg.
  - apply find_field_Some in Hf as [Hf Hf1]. apply find_field_Some in Hg as [Hg Hg1].
    apply Hind; [done..|congruence].
  - by destruct (f.2 m1.2 x).
  - by destruct (g.2 m2.2 x).
  - done.
Qed.

Lemma set_members_perm ms ms' x :
  independent fields → NoDup (map fold_name ms.*1) → ms ≡ₚ ms' →
  set_members fields ms x = set_members fields ms' x.
Proof.
  intros Hind Hnd Hp. revert x Hnd. induction Hp as [|m ms ms' Hp IH|m1 m2 ms|ms1 ms2 ms3 Hp1 IH1 Hp2 IH2];
    intros x Hnd; simpl in *.
  - done.
  - apply NoDup_cons in Hnd as [_ Hnd]. destruct (set_member fields x m); [by apply IH|done].
  - apply NoDup_cons in Hnd as [Hin _]. assert (fold_name m1.1 ≠ fold_name m2.1) as Hne.
    { intros Heq. apply Hin. rewrite Heq. list_in. }
    pose proof (set_member_swap x m1 m2 Hind Hne) as Hs.
    destruct (set_member fields x m1) as [x1|e1], (set_member fields x m2) as [x2|e2]; simpl in *;
      rewrite ?Hs; try done; by rewrite <- Hs.
  - rewrite IH1 by done. apply IH2. by rewrite <- Hp1.
Qed.

Lemma set_members_equiv (RT : T → T → Prop) ms ms' x x' :
  order_blind RT fields ms → ms.*1 = ms'.*1 → Forall2 jequiv ms.*2 ms'.*2 → RT x x' →
  rel_result RT (set_members fields ms x) (set_members fields ms' x').
Proof.
  revert ms' x x'.
  induction ms as [|[k j] ms IH]; intros [|[k' j'] ms'] x x'; cbn [set_members]; try done.
  intros [Hm Hblind]%Forall_cons [= -> Hk] [Hj Hr]%Forall2_cons Hx.
  assert (rel_result RT (set_member fields x (k', j)) (set_member fields x' (k', j'))) as Hrel.
  { unfold set_member. simpl. destruct (find_field k' fields) as [f|] eqn:Hf; [|done].
    by apply Hm. }
  destruct (set_member fields x (k', j)), (set_member fields x' (k', j')); simpl in Hrel; try done.
  by apply IH.
Qed.

(** The order of members is of no account to a struct whose members differ in their folded
    names. *)
Lemma unmarshal_struct_equiv (RT : T → T → Prop) ms j' x x' :
  independent fields → order_blind RT fields ms → NoDup (map fold_name ms.*1) →
  jequiv (JObject ms) j' → RT x x' →
  rel_result RT (unmarshal_struct fields (JObject ms) x) (unmarshal_struct fields j' x').
Proof.
  intros Hind Hblind Hnd Heq Hx.
  inversion Heq as [j Hj|l l' _|ms0 ms1 ms' _ Hp Hk Hj]; subst; cbn [unmarshal_struct].
  - apply set_members_equiv; try done. apply Forall_Forall2_diag, Forall_true. constructor.
  - rewrite <- (set_members_perm ms1 ms' x' Hind); [|by rewrite <- Hk|done].
    by apply set_members_equiv.
Qed.
End Order.

Lemma unmarshal_string_equiv rfc j j' old :
  jequiv j j' → unmarshal_string rfc j old = unmarshal_string rfc j' old.
Proof. by destruct 1. Qed.
Lemma unmarshal_int_equiv j j' old : jequiv j j' → unmarshal_int j old = unmarshal_int j' old.
Proof. by destruct 1. Qed.
Lemma unmarshal_time_equiv j j' old : jequiv j j' → unmarshal_time j old = unmarshal_time j' old.
Proof. by destruct 1. Qed.

(** ** Maps of strings *)

Lemma map_member_err rfc ms : foldl (map_member rfc) (Err ErrJSON) ms = Err ErrJSON.
Proof. by induction ms. Qed.

Lemma map_member_swap rfc m m1 m2 :
  m1.1 ≠ m2.1 →
  map_member rfc (map_member rfc m m1) m2 = map_member rfc (map_member rfc m m2) m1.
Proof.
  intros Hne. unfold map_member. destruct m as [m|e]; [|done].
  destruct (unmarshal_string rfc m1.2 EmptyString), (unmarshal_string rfc m2.2 EmptyString); try done.
  by rewrite insert_insert_ne.
Qed.

Lemma map_members_perm rfc ms ms' m :
  NoDup ms.*1 → ms ≡ₚ ms' → foldl (map_member rfc) m ms = foldl (map_member rfc) m ms'.
Proof.
  intros Hnd Hp. revert m Hnd.
  induction Hp as [|x ms ms' Hp IH|x y ms|ms1 ms2 ms3 Hp1 IH1 Hp2 IH2]; intros m Hnd;
    simpl in *; try done.
  - apply NoDup_cons in Hnd as [_ Hnd]. by apply IH.
  - apply NoDup_cons in Hnd as [Hin _]. rewrite (map_member_swap rfc m x y); [done|].
    intros Heq. apply Hin. rewrite Heq. list_in.
  - rewrite IH1 by done. apply IH2. by rewrite <- Hp1.
Qed.

Lemma unmarshal_map_equiv rfc j j' old :
  jequiv j j' → unmarshal_map rfc j old = unmarshal_map rfc j' old.
Proof.
  destruct 1 as [j|l l' _|ms ms1 ms' Hnd Hp Hk Hj]; [done..|]. simpl.
  trans (foldl (map_member rfc) (Ok old) ms1); [|by apply map_members_perm; [rewrite <- Hk|]].
  clear Hp Hnd. revert ms1 Hk Hj. generalize (Ok (E:=error) old).
  induction ms as [|[k j] ms IH]; intros m [|[k1 j1] ms1]; simpl; try done.
  intros [= -> Hk] [Hj Hr]%Forall2_cons. rewrite (IH _ ms1 Hk Hr). unfold map_member. simpl.
  by rewrite (unmarshal_string_equiv rfc j j1).
Qed.

Definition valid_map (m : gmap string string) : Prop :=
  map_Forall (λ k v, valid_utf8 k ∧ valid_utf8 v) m.

Lemma map_roundtrip rfc m : valid_map m → unmarshal_map rfc (marshal_map m) ∅ = Ok m.
Proof.
  intros Hv. cbn [marshal_map unmarshal_map].
  assert (∀ l acc, Forall (λ kv, valid_utf8 kv.1 ∧ valid_utf8 kv.2) l →
    foldl (map_member rfc) (Ok acc) (map (λ kv, (coerceUTF8 kv.1, marshal_string kv.2)) l)
    = Ok (foldl (λ m kv, <[kv.1 := kv.2]> m) acc l)) as Hfold.
  { induction l as [|[k v] l IH]; intros acc Hl; cbn [foldl map]; [done|].
    apply Forall_cons in Hl as [[Hk Hv'] Hl]. unfold valid_utf8 in *. cbn [fst snd] in *.
    assert (map_member rfc (Ok acc) (coerceUTF8 k, marshal_string v) = Ok (<[k := v]> acc)) as ->
      by (unfold map_member, marshal_string; cbn [fst snd unmarshal_string]; by rewrite Hk, Hv').
    by apply IH. }
  rewrite Hfold by (apply map_Forall_to_list in Hv; eapply Forall_impl; [exact Hv|]; by intros []).
  f_equal. rewrite <- (list_to_map_to_list m) at 2.
  assert (∀ (l : list (string * string)) (acc : gmap string string), NoDup l.*1 → (∀ k, k ∈ l.*1 → acc !! k = None) →
    foldl (λ m kv, <[kv.1 := kv.2]> m) acc l = list_to_map l ∪ acc) as Hacc.
  { induction l as [|[k v] l IH]; intros acc Hnd Hnone; simpl; [by rewrite (left_id_L ∅ (∪))|].
    apply NoDup_cons in Hnd as [Hk Hnd]. rewrite IH; [|done|].
    - rewrite <- insert_union_l. symmetry. apply insert_union_r.
      by apply not_elem_of_list_to_map_1.
    - intros k' Hk'. rewrite lookup_insert_ne; [apply Hnone; simpl; list_in|]. intros ->. done. }
  rewrite Hacc; [apply (right_id_L ∅ (∪))|apply NoDup_fst_map_to_list|].
  intros k _. apply lookup_empty.
Qed.

(** ** Slices *)

Lemma unmarshal_elems_equiv {A} (dec : json → A → result error A) zero l l' old :
  Forall2 (λ j j', ∀ x, dec j x = dec j' x) l l' →
  unmarshal_elems dec zero l old = unmarshal_elems dec zero l' old.
Proof.
  intros Hl. revert old. induction Hl as [|j j' l l' Hj _ IH]; intros old; simpl; [done|].
  destruct old as [|x old]; by rewrite Hj, IH.
Qed.

(** The elements of a fresh slice decode independently. *)
Lemma unmarshal_elems_Ok {A} (dec : json → A → result error A) zero l xs :
  Forall2 (λ j x, dec j zero = Ok x) l xs → unmarshal_elems dec zero l [] = Ok xs.
Proof. induction 1 as [|j x l xs Hj _ IH]; simpl; [done|]. by rewrite Hj, IH. Qed.
