(* ===== verification/EventBus.v ===== *)
(** * In-process event dispatch

    [EventBus.v] models package event beyond the events themselves (bus.go, dispatcher.go,
    registry.go, category.go, type_registry.go, serde.go) and the asynchronous bus of
    infra/events/inprocess/bus.go.  Handlers are programs over a world [W].  The asynchronous
    bus is a machine whose goroutines run one handler call at a time, in any order; the calls
    of two goroutines do not interleave further. *)

From S2P Require Import Prelude Errors Event Json.
Local Open Scope go_scope.

(** ** Values of interface type

    A payload is a value with its dynamic type: a struct type [t] of the program, or a pointer
    to one, which may be nil.  What a struct type is to package reflect and to encoding/json
    is the program's business: [GoData] has its name, its zero value, the bytes of a [[]byte],
    and its JSON form. *)
Section Values.
Context {gotype V : Type}.

Inductive value :=
| VStruct (t : gotype) (v : V)
| VPtr (t : gotype) (p : option V).
End Values.
Arguments value : clear implicits.

Class GoData (gotype V : Type) := {
  #[global] gotype_eq_dec :: EqDecision gotype;
  type_String : gotype → string;
  reflect_zero : gotype → V;
  as_bytes : gotype → V → option RawMessage;
  json_Marshal : value gotype V → result error json;
  unmarshal_value : gotype → json → V → result error V
}.

(** [json.Unmarshal] into a new value of type [t]. *)
Definition json_Unmarshal {gotype V} `{GoData gotype V} (t : gotype) (data : RawMessage)
    : result error V :=
  match data with Some j => unmarshal_value t j (reflect_zero t) | None => Err ErrJSON end.

Definition nil_dereference : string :=
  "runtime error: invalid memory address or nil pointer dereference".

Section EventPackage.
Context {gotype V W : Type} `{GoData gotype V}.
Notation value := (value gotype V).
Notation Event := (baseEvent value).

(** The verb %T. *)
Definition Sprintf_T (v : option value) : string :=
  match v with
  | Some (VStruct t _) => type_String t
  | Some (VPtr t _) => "*" +:+ type_String t
  | None => "<nil>"
  end.

Definition EventHandler : Type := Event → prog W (option error).

(** ** bus.go *)

Record InMemoryBus := { handlers : gmap string (list EventHandler) }.
Definition NewInMemoryBus : InMemoryBus := {| handlers := ∅ |}.

(** A missing key of a Go map of slices reads as the empty slice. *)
Definition handlers_of (m : gmap string (list EventHandler)) (ty : string) : list EventHandler :=
  default [] (m !! ty).
Definition add_handler (ty : string) (h : EventHandler) (m : gmap string (list EventHandler))
    : gmap string (list EventHandler) := <[ty := handlers_of m ty ++ [h]]> m.

(** The handlers in order, up to the first error. *)
Fixpoint run_handlers (hs : list EventHandler) (evt : Event) : prog W (option error) :=
  match hs with
  | [] => pret None
  | h :: hs => let! err := h evt in match err with Some err => pret (Some err) | None => run_handlers hs evt end
  end.
Definition Publish (b : InMemoryBus) (evt : Event) : prog W (option error) :=
  run_handlers (handlers_of (handlers b) (EventType evt)) evt.
Definition Subscribe (eventType : string) (handler : EventHandler) (b : InMemoryBus) : InMemoryBus :=
  {| handlers := add_handler eventType handler (handlers b) |}.
Definition Close (b : InMemoryBus) : option error := None.

(** ** registry.go *)

Record registryEntry := { re_eventType : string; re_handler : EventHandler }.
Record HandlerRegistry := { entries : list registryEntry }.
Definition NewHandlerRegistry : HandlerRegistry := {| entries := [] |}.
Definition HandlerRegistry_Register (eventType : string) (handler : EventHandler) (r : HandlerRegistry)
    : HandlerRegistry :=
  {| entries := entries r ++ [{| re_eventType := eventType; re_handler := handler |}] |}.
Definition RegisterAll (r : HandlerRegistry) (sub : InMemoryBus) : InMemoryBus :=
  foldl (λ b e, Subscribe (re_eventType e) (re_handler e) b) sub (entries r).
Definition HandlerRegistry_Len (r : HandlerRegistry) : nat := length (entries r).

(** ** dispatcher.go *)

Definition TypedHandler : Type := Event → V → prog W (option error).

(** The dispatcher of the payload type [d_T]; [snapshot] is the published handler slice. *)
Record EventDispatcher := { d_T : gotype; snapshot : list TypedHandler }.
Definition NewEventDispatcher (T : gotype) : EventDispatcher := {| d_T := T; snapshot := [] |}.
Definition EventDispatcher_Register (handler : TypedHandler) (d : EventDispatcher) : EventDispatcher :=
  {| d_T := d_T d; snapshot := snapshot d ++ [handler] |}.

Fixpoint run_typed (hs : list TypedHandler) (evt : Event) (payload : V) : prog W (option error) :=
  match hs with
  | [] => pret None
  | h :: hs =>
      let! err := h evt payload in
      match err with Some err => pret (Some err) | None => run_typed hs evt payload end
  end.
Definition Dispatch (d : EventDispatcher) (evt : Event) : prog W (option error) :=
  let mismatch := pret (Some (EText ("event: dispatcher expected payload type " +:+ type_String (d_T d)
                                       +:+ ", got " +:+ Sprintf_T (Payload evt)))) in
  match Payload evt with
  | Some (VStruct t v) => if decide (t = d_T d) then run_typed (snapshot d) evt v else mismatch
  | Some (VPtr t p) =>
      if decide (t = d_T d) then
        match p with
        | Some v => run_typed (snapshot d) evt v
        | None => λ w, (Panics nil_dereference, w)
        end
      else mismatch
  | None => mismatch
  end.
Definition AsEventHandler (d : EventDispatcher) : EventHandler := λ evt, Dispatch d evt.

(** The log lines of [EventHandlerWithLogging]. *)
Inductive log_line :=
| HandlingEvent (name : string) (evt : Event)
| EventHandlerFailed (name : string) (evt : Event) (err : error).
Definition EventHandlerWithLogging (handler : EventHandler) (logger : log_line → prog W unit)
    (name : string) : EventHandler := λ evt,
  let! _ := logger (HandlingEvent name evt) in
  let! err := handler evt in
  match err with
  | Some e => let! _ := logger (EventHandlerFailed name evt e) in pret err
  | None => pret err
  end.

(** ** category.go *)

Definition CategoryDomain : string := "domain".
Definition CategoryIntegration : string := "integration".
Definition ToIntegrationEvent (uuid : string) (now : time) (domainEvt : Event) (eventType : string)
    (payload : option value) : Event :=
  NewEvent uuid now eventType payload
    [WithAggregateInfo (AggregateID domainEvt) (EvAggregateType domainEvt);
     WithCorrelationID (CorrelationID (GetMetadata domainEvt));
     WithCausationID (EventID domainEvt);
     WithTraceID (TraceID (GetMetadata domainEvt));
     WithSource (Source (GetMetadata domainEvt))].

(** ** type_registry.go *)

Record TypeRegistry := { types : gmap string gotype }.
Definition NewTypeRegistry : TypeRegistry := {| types := ∅ |}.

(** [t.Kind()] panics on the nil type of a nil exemplar. *)
Definition TypeRegistry_Register (eventType : string) (exemplar : option value) (r : TypeRegistry)
    : outcome TypeRegistry :=
  match exemplar with
  | None => Panics nil_dereference
  | Some (VStruct t _) | Some (VPtr t _) =>
      let insert := Returns {| types := <[eventType := t]> (types r) |} in
      match types r !! eventType with
      | Some existing =>
          if decide (existing = t) then insert
          else Panics ("event: type " +:+ Quote eventType +:+ " already registered as "
                         +:+ type_String existing +:+ ", cannot re-register as " +:+ type_String t)
      | None => insert
      end
  end.

Definition not_registered (eventType : string) : error :=
  EText ("event: type " +:+ Quote eventType +:+ " not registered").
Definition Build (r : TypeRegistry) (eventType : string) : result error value :=
  match types r !! eventType with
  | None => Err (not_registered eventType)
  | Some t => Ok (VPtr t (Some (reflect_zero t)))
  end.
Definition Serialize (r : TypeRegistry) (eventType : string) (payload : value) : result error json :=
  match types r !! eventType with
  | None => Err (not_registered eventType)
  | Some _ =>
      match json_Marshal payload with
      | Err err => Err (Errorf_w ("event: serialize " +:+ Quote eventType +:+ ": ") err)
      | Ok data => Ok data
      end
  end.
(** [json.Unmarshal] writes through the pointer that [Build] returned. *)
Definition Deserialize (r : TypeRegistry) (eventType : string) (data : RawMessage)
    : result error value :=
  match Build r eventType with
  | Ok (VPtr t (Some _)) =>
      match json_Unmarshal t data with
      | Err err => Err (Errorf_w ("event: deserialize " +:+ Quote eventType +:+ ": ") err)
      | Ok v => Ok (VPtr t (Some v))
      end
  | Ok instance => Ok instance
  | Err err => Err err
  end.
Definition IsRegistered (r : TypeRegistry) (eventType : string) : bool :=
  bool_decide (is_Some (types r !! eventType)).

(** ** serde.go *)

Record Serde := { s_T : gotype; s_registry : TypeRegistry; s_eventType : string }.
Definition NewSerde (T : gotype) (registry : TypeRegistry) (eventType : string) : result error Serde :=
  if IsRegistered registry eventType
  then Ok {| s_T := T; s_registry := registry; s_eventType := eventType |}
  else Err (EText ("event: serde: type " +:+ Quote eventType +:+ " not registered")).
Definition MustSerde (T : gotype) (registry : TypeRegistry) (eventType : string) : outcome Serde :=
  match NewSerde T registry eventType with
  | Ok s => Returns s
  | Err err => Panics (Error err)
  end.
Definition Serde_Encode (s : Serde) (payload : V) : result error json :=
  Serialize (s_registry s) (s_eventType s) (VStruct (s_T s) payload).
(** The result is a pointer to [s_T]: its target. *)
Definition Serde_Decode (s : Serde) (data : RawMessage) : result error (option V) :=
  match Deserialize (s_registry s) (s_eventType s) data with
  | Err err => Err err
  | Ok result =>
      let unexpected := Err (EText ("event: serde: unexpected type " +:+ Sprintf_T (Some result)
                                      +:+ " for " +:+ Quote (s_eventType s))) in
      match result with
      | VPtr t p => if decide (t = s_T s) then Ok p else unexpected
      | VStruct _ _ => unexpected
      end
  end.

(** ** infra/events/inprocess/bus.go *)

(** A handler goroutine: the handler's index, the handler and its event. *)
Definition task : Type := nat * EventHandler * Event.

(** [b_tasks] are the goroutines to run and [b_blocked] those whose handler never returns: the
    wait group counts both.  [b_ran] is the trace of the calls that returned, [b_log] the
    logged errors, and [b_crash] the message of a panic, which ends the process. *)
Record Bus := {
  b_handlers : gmap string (list EventHandler);
  b_tasks : list task;
  b_blocked : list task;
  b_ran : list task;
  b_log : list (nat * Event * error);
  b_crash : option string
}.
Definition NewBus : Bus :=
  {| b_handlers := ∅; b_tasks := []; b_blocked := []; b_ran := []; b_log := []; b_crash := None |}.

(** The goroutines of one [Publish]. *)
Definition fan_out (m : gmap string (list EventHandler)) (evt : Event) : list task :=
  imap (λ i h, (i, h, evt)) (handlers_of m (EventType evt)).
Definition Bus_Publish (evt : Event) (b : Bus) : option error * Bus :=
  (None, {| b_handlers := b_handlers b; b_tasks := b_tasks b ++ fan_out (b_handlers b) evt;
            b_blocked := b_blocked b; b_ran := b_ran b; b_log := b_log b; b_crash := b_crash b |}).
Definition Bus_Subscribe (eventType : string) (handler : EventHandler) (b : Bus) : Bus :=
  {| b_handlers := add_handler eventType handler (b_handlers b); b_tasks := b_tasks b;
     b_blocked := b_blocked b; b_ran := b_ran b; b_log := b_log b; b_crash := b_crash b |}.

(** The scheduler runs the [n]th waiting goroutine, if the process is alive. *)
Definition run_task (n : nat) (b : Bus) (w : W) : Bus * W :=
  match b_crash b, b_tasks b !! n with
  | None, Some (idx, handler, evt) =>
      let rest := delete n (b_tasks b) in
      match handler evt w with
      | (Returns err, w) =>
          ({| b_handlers := b_handlers b; b_tasks := rest; b_blocked := b_blocked b;
              b_ran := b_ran b ++ [(idx, handler, evt)];
              b_log := b_log b ++ match err with Some e => [(idx, evt, e)] | None => [] end;
              b_crash := None |}, w)
      | (Hangs, w) =>
          ({| b_handlers := b_handlers b; b_tasks := rest;
              b_blocked := b_blocked b ++ [(idx, handler, evt)]; b_ran := b_ran b;
              b_log := b_log b; b_crash := None |}, w)
      | (Panics msg, w) =>
          ({| b_handlers := b_handlers b; b_tasks := rest; b_blocked := b_blocked b;
              b_ran := b_ran b; b_log := b_log b; b_crash := Some msg |}, w)
      end
  | _, _ => (b, w)
  end.

Definition closeTimeout_text : string := "5s".
(** [Close] while the scheduler runs [schedule] before the timer fires. *)
Definition Bus_Close (schedule : list nat) (b : Bus) (w : W) : option error * (Bus * W) :=
  let '(b, w) := foldl (λ s n, run_task n s.1 s.2) (b, w) schedule in
  (match b_tasks b, b_blocked b with
   | [], [] => None
   | _, _ => Some (EText ("inprocess: bus close timed out after " +:+ closeTimeout_text
                            +:+ " waiting for handlers to finish"))
   end, (b, w)).

(** A run: calls of the clients and steps of the scheduler. *)
Inductive bus_op :=
| OpPublish (evt : Event)
| OpSubscribe (eventType : string) (handler : EventHandler)
| OpRun (n : nat).
Definition bus_step (s : Bus * W) (op : bus_op) : Bus * W :=
  match op with
  | OpPublish evt => ((Bus_Publish evt s.1).2, s.2)
  | OpSubscribe ty h => (Bus_Subscribe ty h s.1, s.2)
  | OpRun n => run_task n s.1 s.2
  end.

(** What the bus owes: each event once to each handler subscribed to its type before it was
    published. *)
Fixpoint owed (m : gmap string (list EventHandler)) (ops : list bus_op) : list task :=
  match ops with
  | [] => []
  | OpPublish evt :: ops => fan_out m evt ++ owed m ops
  | OpSubscribe ty h :: ops => owed (add_handler ty h m) ops
  | OpRun _ :: ops => owed m ops
  end.

(** ** Properties *)

Lemma handlers_of_add ty h m ty' :
  handlers_of (add_handler ty h m) ty' = handlers_of m ty' ++ (if decide (ty = ty') then [h] else []).
Proof.
  unfold handlers_of at 1, add_handler. destruct (decide (ty = ty')) as [->|Hne].
  - by rewrite lookup_insert_eq.
  - by rewrite lookup_insert_ne, app_nil_r.
Qed.

(** The registrations of one event type, in order. *)
Definition registered (ty : string) (es : list registryEntry) : list EventHandler :=
  map re_handler (filter (λ e, re_eventType e = ty) es).

Lemma registered_app ty l1 l2 : registered ty (l1 ++ l2) = registered ty l1 ++ registered ty l2.
Proof. unfold registered. by rewrite filter_app, map_app. Qed.

Lemma handlers_RegisterAll r b ty :
  handlers_of (handlers (RegisterAll r b)) ty
  = handlers_of (handlers b) ty ++ registered ty (entries r).
Proof.
  unfold RegisterAll. induction (entries r) as [|e es IH] using rev_ind; [by rewrite app_nil_r|].
  rewrite foldl_app. cbn [foldl Subscribe handlers]. rewrite handlers_of_add, IH, registered_app, app_assoc.
  f_equal. unfold registered. rewrite filter_cons, filter_nil. by case_decide.
Qed.

Lemma run_handlers_app hs1 hs2 evt w :
  run_handlers (hs1 ++ hs2) evt w
  = match run_handlers hs1 evt w with
    | (Returns None, w) => run_handlers hs2 evt w
    | r => r
    end.
Proof.
  revert w. induction hs1 as [|h hs1 IH]; intros w; simpl; [done|].
  unfold pbind. by destruct (h evt w) as [[[err|]|msg|] w1].
Qed.

Lemma run_handlers_error hs evt w err w' :
  run_handlers hs evt w = (Returns (Some err), w')
  ↔ ∃ pre h post w1, hs = pre ++ h :: post ∧ run_handlers pre evt w = (Returns None, w1)
                     ∧ h evt w1 = (Returns (Some err), w').
Proof.
  split.
  - revert w. induction hs as [|h hs IH]; intros w; simpl; [done|]. unfold pbind, pret.
    destruct (h evt w) as [[[e|]|msg|] w1] eqn:E; intros Hr; simplify_eq/=.
    + exists [], h, hs, w. split_and!; done.
    + destruct (IH _ Hr) as (pre & h' & post & w2 & -> & Hpre & Hh).
      exists (h :: pre), h', post, w2. simpl. unfold pbind. by rewrite E.
  - intros (pre & h & post & w1 & -> & Hpre & Hh). rewrite run_handlers_app, Hpre. simpl.
    unfold pbind. by rewrite Hh.
Qed.

(** a bus wired from a handler registry calls the handlers registered for the event's type,
    in registration order, and stops at the first error, which it returns: an error comes from
    a handler all of whose predecessors returned nil, and no handler after it runs. *)
Theorem Publish_stops_at_first_error (r : HandlerRegistry) (evt : Event) (w w' : W) (err : error) :
  Publish (RegisterAll r NewInMemoryBus) evt w = (Returns (Some err), w')
  ↔ ∃ pre h post w1,
      registered (EventType evt) (entries r) = pre ++ h :: post
      ∧ run_handlers pre evt w = (Returns None, w1)
      ∧ h evt w1 = (Returns (Some err), w').
Proof. unfold Publish. rewrite handlers_RegisterAll. apply run_handlers_error. Qed.

(** *** The type registry *)

Lemma Register_types ty ex r r' :
  TypeRegistry_Register ty ex r = Returns r' →
  ∃ t, types r' = <[ty := t]> (types r) ∧ (∀ t0, types r !! ty = Some t0 → t0 = t).
Proof.
  unfold TypeRegistry_Register. intros Hr.
  destruct ex as [[t v|t p]|]; [| |done]; exists t; destruct (types r !! ty) as [t0|] eqn:E;
    try case_decide; simplify_eq/=; naive_solver.
Qed.

(** Registrations that did not panic. *)
Inductive extends : TypeRegistry → TypeRegistry → Prop :=
| extends_refl r : extends r r
| extends_step r r1 r2 ty ex :
    TypeRegistry_Register ty ex r = Returns r1 → extends r1 r2 → extends r r2.

Lemma extends_types r r' ty t : extends r r' → types r !! ty = Some t → types r' !! ty = Some t.
Proof.
  induction 1 as [r|r r1 r2 ty' ex Hr _ IH]; [done|]. intros Ht. apply IH.
  apply Register_types in Hr as (t' & -> & Hsame). destruct (decide (ty' = ty)) as [->|Hne].
  - rewrite lookup_insert_eq. f_equal. symmetry. eauto.
  - by rewrite lookup_insert_ne.
Qed.

Lemma Deserialize_registered r ty t data :
  types r !! ty = Some t →
  Deserialize r ty data
  = match json_Unmarshal t data with
    | Ok v => Ok (VPtr t (Some v))
    | Err err => Err (Errorf_w ("event: deserialize " +:+ Quote ty +:+ ": ") err)
    end.
Proof. intros E. unfold Deserialize, Build. rewrite E. by destruct (json_Unmarshal t data). Qed.

(** type safety of decoding.  Once an event type is registered, no later registration
    changes its Go type, so a serde made for that type keeps decoding into it: it returns a
    non-nil pointer or the decoding error, never the unexpected-type error.  A serde made for
    another type rejects every document that decodes. *)
Theorem Serde_type_safe (r r' : TypeRegistry) (ty : string) (t T : gotype) (s : Serde) (data : RawMessage) :
  types r !! ty = Some t → extends r r' → NewSerde T r' ty = Ok s →
  match json_Unmarshal t data with
  | Ok v => Serde_Decode s data
            = if decide (t = T) then Ok (Some v)
              else Err (EText ("event: serde: unexpected type *" +:+ type_String t +:+ " for " +:+ Quote ty))
  | Err err => Serde_Decode s data = Err (Errorf_w ("event: deserialize " +:+ Quote ty +:+ ": ") err)
  end.
Proof.
  intros Ht He Hs. apply (extends_types _ _ _ _ He) in Ht. unfold NewSerde in Hs.
  destruct (IsRegistered r' ty); simplify_eq/=. unfold Serde_Decode. cbn.
  rewrite (Deserialize_registered _ _ t) by done.
  destruct (json_Unmarshal t data); [|done]. by destruct (decide (t = T)).
Qed.

(** *** The asynchronous bus *)

(** The goroutines accounted for. *)
Definition accounted (b : Bus) : list task := b_ran b ++ b_tasks b ++ b_blocked b.

Lemma run_task_crash n b w : b_crash b ≠ None → run_task n b w = (b, w).
Proof. intros Hc. unfold run_task. by destruct (b_crash b). Qed.

Lemma run_task_accounted n b w :
  b_crash (run_task n b w).1 = None →
  b_handlers (run_task n b w).1 = b_handlers b ∧ accounted (run_task n b w).1 ≡ₚ accounted b.
Proof.
  unfold run_task. destruct (b_crash b) as [msg|] eqn:Hc; [done|].
  destruct (b_tasks b !! n) as [[[idx h] evt]|] eqn:Hn; [|done].
  pose proof (delete_Permutation _ _ _ Hn) as Hp. unfold accounted.
  destruct (h evt w) as [[err|msg|] w']; simpl; [| done |]; intros _; (split; [done|]);
    (etrans; [|apply Permutation_app_head, Permutation_app_tail; symmetry; exact Hp]); cbn [app].
  - rewrite <- app_assoc. reflexivity.
  - apply Permutation_app_head. rewrite app_assoc. symmetry. apply Permutation_cons_append.
Qed.

Lemma bus_step_crash ops b w : b_crash b ≠ None → b_crash (foldl bus_step (b, w) ops).1 ≠ None.
Proof.
  revert b w. induction ops as [|op ops IH]; intros b w Hc; [done|]. simpl.
  destruct op; simpl; [by apply IH..|]. rewrite run_task_crash by done. by apply IH.
Qed.

Lemma bus_accounted ops b w :
  b_crash (foldl bus_step (b, w) ops).1 = None →
  accounted (foldl bus_step (b, w) ops).1 ≡ₚ accounted b ++ owed (b_handlers b) ops.
Proof.
  revert b w. induction ops as [|op ops IH]; intros b w Hc; simpl in *; [by rewrite app_nil_r|].
  destruct op as [evt|ty h|n]; simpl in *.
  - rewrite IH by done. unfold accounted. simpl. rewrite <- !app_assoc.
    do 2 apply Permutation_app_head. apply Permutation_app_swap_app.
  - by rewrite IH by done.
  - destruct (run_task n b w) as [b' w'] eqn:E.
    assert (b_crash b' = None) as Hc'.
    { destruct (b_crash b') eqn:E'; [|done]. exfalso. by apply (bus_step_crash ops b' w'); [rewrite E'|]. }
    pose proof (run_task_accounted n b w) as Hacc. rewrite E in Hacc. destruct (Hacc Hc') as [Hh Hp].
    simpl in *. by rewrite IH, Hp, Hh by done.
Qed.

Lemma owed_app_runs m ops ns : owed m (ops ++ map OpRun ns) = owed m ops.
Proof.
  revert m. induction ops as [|[] ops IH]; intros m; simpl; [|by rewrite IH..].
  by induction ns.
Qed.

Lemma foldl_runs ns s : foldl bus_step s (map OpRun ns) = foldl (λ s n, run_task n s.1 s.2) s ns.
Proof. revert s. induction ns; intros s; simpl; [done|]. by rewrite IHns. Qed.

(** the asynchronous bus neither loses nor duplicates a delivery.  In any run of publications,
    subscriptions and goroutine steps of a process that does not crash, the handler calls that
    returned, those waiting and those blocked are together each event once for each handler
    subscribed to its type before it was published.  When [Close] returns nil all of them have
    returned, a handler's error having affected neither the publisher nor another handler. *)
Theorem inprocess_fan_out (ops : list bus_op) (schedule : list nat) (w0 : W) :
  let s := foldl bus_step (NewBus, w0) ops in
  let closed := (Bus_Close schedule s.1 s.2).1 in
  let b' := (Bus_Close schedule s.1 s.2).2.1 in
  b_crash b' = None →
  accounted b' ≡ₚ owed ∅ ops ∧ (closed = None ↔ b_tasks b' = [] ∧ b_blocked b' = [])
  ∧ (closed = None → b_ran b' ≡ₚ owed ∅ ops).
Proof.
  destruct (foldl bus_step (NewBus, w0) ops) as [b w] eqn:E. unfold Bus_Close. cbn [fst snd].
  destruct (foldl (λ s n, run_task n s.1 s.2) (b, w) schedule) as [b' w'] eqn:E'. cbn [fst snd]. intros Hc.
  assert (foldl bus_step (NewBus, w0) (ops ++ map OpRun schedule) = (b', w')) as Hrun
    by (by rewrite foldl_app, E, foldl_runs).
  pose proof (bus_accounted (ops ++ map OpRun schedule) NewBus w0) as Hacc.
  rewrite Hrun, owed_app_runs in Hacc. specialize (Hacc Hc). change (accounted NewBus) with (@nil task) in Hacc.
  simpl in Hacc. split; [done|]. unfold accounted in Hacc.
  destruct (b_tasks b') as [|t ts], (b_blocked b') as [|t' ts']; try (split; naive_solver).
  rewrite app_nil_r in Hacc. done.
Qed.
End EventPackage.
Arguments InMemoryBus : clear implicits.
Arguments EventDispatcher : clear implicits.
Arguments TypeRegistry : clear implicits.
Arguments Bus : clear implicits.
Arguments EventHandler : clear implicits.

(** ** Witnesses

    Payload types that carry one integer. *)
Definition counter_data : GoData nat Z := {|
  type_String t := "counter" +:+ pretty t;
  reflect_zero _ := 0%Z;
  as_bytes _ _ := None;
  json_Marshal v := match v with
                    | VStruct _ z | VPtr _ (Some z) => Ok (JObject [("n", JInt z)])
                    | VPtr _ None => Ok JNull
                    end;
  unmarshal_value _ := unmarshal_struct [("n", unmarshal_int)]
|}.

Example Serde_type_safe_witness :
  let r : TypeRegistry nat := {| types := {[ "order.created" := 1 ]} |} in
  match NewSerde 1 r "order.created" with
  | Ok s => Serde_Decode (H := counter_data) s (Some (JObject [("n", JInt 7)])) = Ok (Some 7%Z)
  | Err _ => False
  end.
Proof.
  intros r.
  exact (Serde_type_safe (H := counter_data) r r "order.created" 1 1
           {| s_T := 1; s_registry := r; s_eventType := "order.created" |}
           (Some (JObject [("n", JInt 7)])) eq_refl (extends_refl r) eq_refl).
Defined.

(** Two subscribers, the first of which fails, and two events. *)
Definition order_event (id : string) : baseEvent (value nat Z) :=
  NewEvent id 0%Z "order.created" (Some (VStruct 1 7%Z)) [].
Definition failing : EventHandler nat Z nat := λ _ n, (Returns (Some (EText "down")), S n).
Definition counting : EventHandler nat Z nat := λ _ n, (Returns None, S n).
Definition two_subscribers : list (bus_op (W := nat)) :=
  [OpSubscribe "order.created" failing; OpPublish (order_event "e1");
   OpSubscribe "order.created" counting; OpRun 0; OpPublish (order_event "e2")].

Example inprocess_fan_out_witness :
  let s := foldl bus_step (NewBus, 0) two_subscribers in
  let c := Bus_Close [1; 0] s.1 s.2 in
  c.1 = None ∧ c.2.2 = 3 ∧ b_ran c.2.1 ≡ₚ owed ∅ two_subscribers.
Proof.
  intros s c. split; [reflexivity|]. split; [reflexivity|].
  destruct (inprocess_fan_out two_subscribers [1; 0] 0 eq_refl) as (_ & _ & Hran).
  exact (Hran eq_refl).
Defined.
