(* ===== verification/EventStream.v ===== *)
(** * Message streams

    [EventStream.v] models package messaging (message.go, stream.go, options.go,
    command_stream.go, event_stream.go), the in-process stream of
    infra/events/inprocess/stream.go, and of infra/events the adapter of the outbox relay
    (stream_publisher.go), the tracing and metrics wrappers, the broker health check and the
    factories of factory.go.  Message bodies are JSON documents, and programs run over a
    world [W]. *)

From S2P Require Import Prelude Errors GoText Event Db Outbox OutboxWorker Json GoTime EventBus.
Local Open Scope go_scope.

(** ** options.go *)

Record SubscribeConfig := {
  Group : string; Durable : string; MaxDeliver : Z; MaxAckPending : Z; AckWait : Z
}.
Definition zeroSubscribeConfig : SubscribeConfig :=
  {| Group := EmptyString; Durable := EmptyString; MaxDeliver := 0; MaxAckPending := 0; AckWait := 0 |}.
Definition SubscribeOption : Type := SubscribeConfig → SubscribeConfig.
Definition WithGroup (group : string) : SubscribeOption := λ c,
  {| Group := group; Durable := Durable c; MaxDeliver := MaxDeliver c;
     MaxAckPending := MaxAckPending c; AckWait := AckWait c |}.
Definition WithDurable (name : string) : SubscribeOption := λ c,
  {| Group := Group c; Durable := name; MaxDeliver := MaxDeliver c;
     MaxAckPending := MaxAckPending c; AckWait := AckWait c |}.
Definition WithMaxDeliver (n : Z) : SubscribeOption := λ c,
  {| Group := Group c; Durable := Durable c; MaxDeliver := n;
     MaxAckPending := MaxAckPending c; AckWait := AckWait c |}.
Definition WithMaxAckPending (n : Z) : SubscribeOption := λ c,
  {| Group := Group c; Durable := Durable c; MaxDeliver := MaxDeliver c;
     MaxAckPending := n; AckWait := AckWait c |}.
Definition WithAckWait (d : Z) : SubscribeOption := λ c,
  {| Group := Group c; Durable := Durable c; MaxDeliver := MaxDeliver c;
     MaxAckPending := MaxAckPending c; AckWait := d |}.
Definition ApplyOpts (opts : list SubscribeOption) : SubscribeConfig :=
  foldl (λ c o, o c) zeroSubscribeConfig opts.

(** ** message.go and stream.go *)

(** Headers are a Go map, nil being [None]. *)
Notation headers := (option (gmap string string)).

Record RawMessage := {
  rm_ID : string; rm_Name : string; rm_Subject : string;
  rm_Data : Json.RawMessage; rm_Headers : headers
}.

Record Message (W : Type) := {
  m_ID : string; m_Subject : string; m_Data : Json.RawMessage; m_Headers : headers;
  Ack : prog W (option error);
  Nak : prog W (option error);
  NakWithDelay : Z → prog W (option error);
  Term : prog W (option error);
  DeliveryAttempt : Z
}.
Arguments m_ID {W} _.
Arguments m_Subject {W} _.
Arguments m_Data {W} _.
Arguments m_Headers {W} _.
Arguments Ack {W} _.
Arguments Nak {W} _.
Definition MessageHandler (W : Type) : Type := Message W → prog W (option error).

(** What the typed streams use of a broker. *)
Class Stream (S W : Type) := {
  stream_Publish : S → string → RawMessage → prog W (option error);
  stream_Subscribe : S → string → MessageHandler W → list SubscribeOption → option error * S
}.

(** ** infra/events/inprocess/stream.go *)

Section Inprocess.
Context {W : Type} (logger : string → nat → error → prog W unit).

Record InprocessStream := { is_handlers : gmap string (list (MessageHandler W)) }.
Definition NewInprocessStream : InprocessStream := {| is_handlers := ∅ |}.

Definition inprocessMessage (subject : string) (msg : RawMessage) : Message W :=
  {| m_ID := rm_ID msg; m_Subject := subject; m_Data := rm_Data msg; m_Headers := rm_Headers msg;
     Ack := pret None; Nak := pret None; NakWithDelay _ := pret None; Term := pret None;
     DeliveryAttempt := 1 |}.
Fixpoint deliver (subject : string) (i : nat) (hs : list (MessageHandler W)) (m : Message W)
    : prog W unit :=
  match hs with
  | [] => pret ()
  | h :: hs =>
      let! err := h m in
      let! _ := match err with Some e => logger subject i e | None => pret () end in
      deliver subject (S i) hs m
  end.
Definition subject_handlers (s : InprocessStream) (subject : string) : list (MessageHandler W) :=
  default [] (is_handlers s !! subject).
Definition Inprocess_Publish (s : InprocessStream) (subject : string) (msg : RawMessage)
    : prog W (option error) :=
  match subject_handlers s subject with
  | [] => pret None
  | hs => let! _ := deliver subject 0 hs (inprocessMessage subject msg) in pret None
  end.
Definition Inprocess_Subscribe (s : InprocessStream) (subject : string) (handler : MessageHandler W)
    (opts : list SubscribeOption) : option error * InprocessStream :=
  (None, {| is_handlers := <[subject := subject_handlers s subject ++ [handler]]> (is_handlers s) |}).
Definition Inprocess_Close (s : InprocessStream) : option error := None.

#[local] Instance InprocessStream_Stream : Stream InprocessStream W := {|
  stream_Publish := Inprocess_Publish;
  stream_Subscribe := Inprocess_Subscribe
|}.
End Inprocess.
Arguments InprocessStream : clear implicits.

(** ** command_stream.go *)

Section Commands.
Context {S W : Type} `{Stream S W} (rfc3339 : time → string).

(** A command has its type string and its JSON form, which may fail. *)
Record Command := { CommandType : string; command_json : result error json }.

Definition CommandStream_Send (stream : S) (subject : string) (cmd : Command)
    : prog W (option error) :=
  match command_json cmd with
  | Err err => pret (Some (Errorf_w ("command_stream: marshal " +:+ Quote (CommandType cmd) +:+ ": ") err))
  | Ok data =>
      let msg := {| rm_ID := EmptyString; rm_Name := CommandType cmd; rm_Subject := subject;
                    rm_Data := Some data;
                    rm_Headers := Some {[ "command_type" := CommandType cmd ]} |} in
      let! err := stream_Publish stream subject msg in
      match err with
      | Some err => pret (Some (Errorf_w ("command_stream: publish " +:+ Quote (CommandType cmd) +:+ ": ") err))
      | None => pret None
      end
  end.

Record Reply := { r_Type : string; r_Success : bool; r_Data : string; r_Error : string }.
Definition zeroReply : Reply :=
  {| r_Type := EmptyString; r_Success := false; r_Data := EmptyString; r_Error := EmptyString |}.

Definition command_handler (subject : string)
    (handler : Json.RawMessage → prog W (result error (option Reply))) : MessageHandler W := λ msg,
  let! r := handler (m_Data msg) in
  match r with
  | Err err =>
      let! _ := Nak msg in
      pret (Some (Errorf_w ("command_stream: handler error on " +:+ Quote subject +:+ ": ") err))
  | Ok _ => Ack msg
  end.
Definition CommandStream_Subscribe (stream : S) (subject : string)
    (handler : Json.RawMessage → prog W (result error (option Reply))) (opts : list SubscribeOption)
    : option error * S := stream_Subscribe stream subject (command_handler subject handler) opts.

(** [json.Marshal] of a reply: the bytes as base64, empty ones omitted. *)
Definition marshal_Reply (r : Reply) : json :=
  JObject ([("type", marshal_string (r_Type r)); ("success", JBool (r_Success r))]
           ++ (if (r_Data r =? "")%string then []
               else [("data", JString (base64_EncodeToString (r_Data r)))])
           ++ omit_empty "error" (r_Error r)).
Definition unmarshal_bool (j : json) (old : bool) : result error bool :=
  match j with JNull => Ok old | JBool b => Ok b | _ => Err ErrJSON end.
(** An element of an array read into a [[]byte]. *)
Definition unmarshal_byte (j : json) : option Ascii.ascii :=
  match j with
  | JNull => Some (value_byte 0)
  | JInt z => if decide (0 ≤ z < 256)%Z then Some (value_byte z) else None
  | _ => None
  end.
Definition unmarshal_bytes (j : json) (old : string) : result error string :=
  match j with
  | JNull => Ok EmptyString
  | JString s => match base64_DecodeString s with Some b => Ok b | None => Err ErrJSON end
  | JTime t => match base64_DecodeString (rfc3339 t) with Some b => Ok b | None => Err ErrJSON end
  | JArray l => match mapM unmarshal_byte l with
                | Some bs => Ok (String.string_of_list_ascii bs)
                | None => Err ErrJSON
                end
  | _ => Err ErrJSON
  end.
Definition on_field {A} (get : Reply → A) (set : A → Reply → Reply) (dec : json → A → result error A)
    (j : json) (r : Reply) : result error Reply :=
  match dec j (get r) with Ok a => Ok (set a r) | Err e => Err e end.
Definition Reply_fields : list (field Reply) :=
  [("type", on_field r_Type (λ a r, {| r_Type := a; r_Success := r_Success r; r_Data := r_Data r; r_Error := r_Error r |})
      (unmarshal_string rfc3339));
   ("success", on_field r_Success (λ a r, {| r_Type := r_Type r; r_Success := a; r_Data := r_Data r; r_Error := r_Error r |})
      unmarshal_bool);
   ("data", on_field r_Data (λ a r, {| r_Type := r_Type r; r_Success := r_Success r; r_Data := a; r_Error := r_Error r |})
      unmarshal_bytes);
   ("error", on_field r_Error (λ a r, {| r_Type := r_Type r; r_Success := r_Success r; r_Data := r_Data r; r_Error := a |})
      (unmarshal_string rfc3339))].
Definition unmarshal_Reply (data : Json.RawMessage) : result error Reply :=
  match data with Some j => unmarshal_struct Reply_fields j zeroReply | None => Err ErrJSON end.

Definition ReplyStream_Send (stream : S) (subject : string) (reply : Reply) : prog W (option error) :=
  let msg := {| rm_ID := EmptyString; rm_Name := r_Type reply; rm_Subject := subject;
                rm_Data := Some (marshal_Reply reply);
                rm_Headers := Some {[ "reply_type" := r_Type reply;
                                      "success" := if r_Success reply then "true" else "false" ]} |} in
  let! err := stream_Publish stream subject msg in
  match err with
  | Some err => pret (Some (Errorf_w ("reply_stream: publish reply for " +:+ Quote subject +:+ ": ") err))
  | None => pret None
  end.
Definition reply_handler (subject : string) (handler : Reply → prog W (option error))
    : MessageHandler W := λ msg,
  match unmarshal_Reply (m_Data msg) with
  | Err err =>
      let! _ := Ack msg in
      pret (Some (Errorf_w ("reply_stream: unmarshal reply on " +:+ Quote subject +:+ ": ") err))
  | Ok reply =>
      let! err := handler reply in
      match err with
      | Some err =>
          let! _ := Nak msg in
          pret (Some (Errorf_w ("reply_stream: handler error on " +:+ Quote subject +:+ ": ") err))
      | None => Ack msg
      end
  end.
Definition ReplyStream_Subscribe (stream : S) (subject : string)
    (handler : Reply → prog W (option error)) (opts : list SubscribeOption) : option error * S :=
  stream_Subscribe stream subject (reply_handler subject handler) opts.
End Commands.

(** ** event_stream.go *)

(** The headers of an event: the six fixed ones, overwritten by those of the metadata. *)
Definition event_headers {P} (evt : baseEvent P) : gmap string string :=
  default ∅ (ToMap (GetMetadata evt))
  ∪ {[ "event_id" := EventID evt; "event_type" := EventType evt;
       "aggregate_id" := AggregateID evt; "aggregate_type" := EvAggregateType evt;
       "occurred_at" := FormatUTC (OccurredAt evt); "version" := pretty (SchemaVersion evt) ]}.
(** The body of an event without payload. *)
Definition empty_object : json := JObject [].

Section Events.
Context {gotype V S W : Type} `{GoData gotype V} `{Stream S W}.
Notation value := (value gotype V).
Notation Event := (baseEvent value).
Notation EventHandler := (EventHandler gotype V W).

Record EventStream := { es_stream : S; es_registry : TypeRegistry gotype }.

Definition event_message (subject : string) (evt : Event) (data : Json.RawMessage) : RawMessage :=
  {| rm_ID := EventID evt; rm_Name := EventType evt; rm_Subject := subject; rm_Data := data;
     rm_Headers := Some (event_headers evt) |}.
Definition EventStream_Publish (es : EventStream) (subject : string) (evt : Event)
    : prog W (option error) :=
  match match Payload evt with
        | Some p => Serialize (es_registry es) (EventType evt) p
        | None => Ok empty_object
        end with
  | Err err => pret (Some (Errorf_w ("event_stream: serialize " +:+ Quote (EventType evt) +:+ ": ") err))
  | Ok data =>
      let! err := stream_Publish (es_stream es) subject (event_message subject evt (Some data)) in
      match err with
      | Some err => pret (Some (Errorf_w ("event_stream: publish " +:+ Quote (EventType evt) +:+ ": ") err))
      | None => pret None
      end
  end.

(** [uuid] and [now] are the identifier and the clock reading that [event.NewEvent] takes. *)
Context (uuid : W → string) (now : W → time).

Definition event_options (h : headers) : list (EventOption value) :=
  [WithAggregateInfo (index h "aggregate_id") (index h "aggregate_type");
   WithMetadata (MetadataFromMap h);
   WithVersion (default 1%Z (Atoi (index h "version")));
   WithID (index h "event_id")]
  ++ (let ts := index h "occurred_at" in
      if (ts =? "")%string then []
      else match ParseRFC3339 ts with Some t => [WithOccurredAt t] | None => [] end).
Definition event_handler (registry : TypeRegistry gotype) (subject : string) (handler : EventHandler)
    : MessageHandler W := λ msg,
  let eventType := index (m_Headers msg) "event_type" in
  if (eventType =? "")%string then
    let! _ := Ack msg in
    pret (Some (EText ("event_stream: missing event_type header on subject " +:+ Quote subject)))
  else
    match Deserialize registry eventType (m_Data msg) with
    | Err err =>
        let! _ := Ack msg in
        pret (Some (Errorf_w ("event_stream: deserialize " +:+ Quote eventType +:+ ": ") err))
    | Ok payload => λ w,
        let evt := NewEvent (uuid w) (now w) eventType (Some payload) (event_options (m_Headers msg)) in
        (let! err := handler evt in
         match err with Some err => pret (Some err) | None => Ack msg end) w
    end.
Definition EventStream_Subscribe (es : EventStream) (subject : string) (handler : EventHandler)
    (opts : list SubscribeOption) : option error * S :=
  stream_Subscribe (es_stream es) subject (event_handler (es_registry es) subject handler) opts.

(** ** stream_publisher.go *)

Definition marshalPayload (payload : value) : result error Json.RawMessage :=
  match payload with
  | VStruct t v =>
      match as_bytes t v with
      | Some raw => Ok raw
      | None => Some <$> json_Marshal payload
      end
  | VPtr _ _ => Some <$> json_Marshal payload
  end.
Definition streamEventPublisher_Publish (stream : S) (evt : Event) : prog W (option error) :=
  let subject := EventType evt in
  match match Payload evt with
        | Some p => marshalPayload p
        | None => Ok (Some empty_object)
        end with
  | Err err => pret (Some (Errorf_w ("stream_publisher: encode payload for " +:+ Quote subject +:+ ": ") err))
  | Ok data =>
      let! err := stream_Publish stream subject (event_message subject evt data) in
      match err with
      | Some err => pret (Some (Errorf_w ("stream_publisher: publish " +:+ Quote subject +:+ ": ") err))
      | None => pret None
      end
  end.
End Events.
Arguments EventStream : clear implicits.

(** ** tracing.go, metrics.go and health.go *)

Section Wrappers.
Context {W C : Type}.
Definition Publisher : Type := string → RawMessage → prog W (option error).

(** [inject] is the propagator's [Inject] for the caller's context. *)
Definition TracingPublisher_Publish (inject : gmap string string → gmap string string) (next : Publisher)
    : Publisher := λ subject msg,
  next subject {| rm_ID := rm_ID msg; rm_Name := rm_Name msg; rm_Subject := rm_Subject msg;
                  rm_Data := rm_Data msg; rm_Headers := Some (inject (default ∅ (rm_Headers msg))) |}.
Definition TracingSubscribeMiddleware (extract : C → gmap string string → C)
    (next : C → MessageHandler W) : C → MessageHandler W := λ ctx msg,
  next (extract ctx (default ∅ (m_Headers msg))) msg.

(** [inc] increments the counter of a subject and a status. *)
Definition status_of (err : option error) : string := if err is Some _ then "error" else "ok".
Definition MetricsPublisher_Publish (inc : string → string → prog W unit) (next : Publisher) : Publisher :=
  λ subject msg,
  let! err := next subject msg in let! _ := inc subject (status_of err) in pret err.
Definition MetricsSubscribeMiddleware (inc : string → string → prog W unit) (next : MessageHandler W)
    : MessageHandler W := λ msg,
  let! err := next msg in let! _ := inc (m_Subject msg) (status_of err) in pret err.

Record BrokerHealthChecker := { driver : string; check : option (prog W (option error)) }.
Definition HealthCheck (b : BrokerHealthChecker) : prog W (option error) :=
  match check b with
  | None => pret None
  | Some check =>
      let! err := check in
      match err with
      | Some err => pret (Some (Errorf_w ("broker(" +:+ driver b +:+ "): ") err))
      | None => pret None
      end
  end.

(** ** factory.go

    The constructor of the NATS stream is a parameter. *)
Definition DriverInProcess : string := "inprocess".
Definition DriverKafka : string := "kafka".
Definition DriverRabbitMQ : string := "rabbitmq".
Definition DriverNATS : string := "nats".

Definition NewEventBus {gotype V} (driver : string) : result error (Bus gotype V W) :=
  if decide (driver ∈ [DriverInProcess; DriverNATS; DriverKafka; DriverRabbitMQ])
  then Ok NewBus else Err (EText ("events: unknown driver " +:+ Quote driver)).

Context {Nats : Type}.
Record StreamResult := {
  sr_Stream : InprocessStream W + Nats;
  sr_HealthCheck : option (prog W (option error))
}.
Definition NewStream (nats_NewBus : result error Nats) (nats_HealthCheck : Nats → prog W (option error))
    (driver : string) : result error StreamResult :=
  if (driver =? DriverInProcess)%string
  then Ok {| sr_Stream := inl NewInprocessStream; sr_HealthCheck := None |}
  else if (driver =? DriverNATS)%string then
    match nats_NewBus with
    | Err err => Err err
    | Ok bus => Ok {| sr_Stream := inr bus; sr_HealthCheck := Some (nats_HealthCheck bus) |}
    end
  else Err (EText ("events: unsupported stream driver " +:+ Quote driver)).
End Wrappers.

(** ** Properties of the in-process delivery *)

Section Delivery.
Context {gotype V W : Type} `{GoData gotype V}.
Context (logger : string → nat → error → prog W unit).
Context (uuid : W → string) (now : W → time).
Notation value := (value gotype V).
Notation Event := (baseEvent value).
#[local] Instance the_stream : Stream (InprocessStream W) W := InprocessStream_Stream logger.

(** The specification: every handler in order on the same event, errors only logged. *)
Fixpoint notify (subject : string) (i : nat) (hs : list (EventHandler gotype V W)) (evt : Event)
    : prog W unit :=
  match hs with
  | [] => pret ()
  | h :: hs =>
      let! err := h evt in
      let! _ := match err with Some e => logger subject i e | None => pret () end in
      notify subject (S i) hs evt
  end.

Definition set_payload (p : option value) (e : Event) : Event :=
  {| EventID := EventID e; EventType := EventType e; AggregateID := AggregateID e;
     EvAggregateType := EvAggregateType e; OccurredAt := OccurredAt e;
     SchemaVersion := SchemaVersion e; Payload := p; GetMetadata := GetMetadata e |}.

(** The event's envelope survives the headers. *)
Record portable (e : Event) : Prop := {
  portable_id : EventID e ≠ EmptyString;
  portable_type : EventType e ≠ EmptyString;
  portable_time : OccurredAt e ≠ zeroTime;
  portable_year : four_digit_year (OccurredAt e);
  portable_version : int64_range (SchemaVersion e)
}.

Lemma header_lookup (e : Event) k :
  k ∉ ["trace_id"; "correlation_id"; "causation_id"; "source"] →
  event_headers e !! k
  = ({[ "event_id" := EventID e; "event_type" := EventType e;
        "aggregate_id" := AggregateID e; "aggregate_type" := EvAggregateType e;
        "occurred_at" := FormatUTC (OccurredAt e); "version" := pretty (SchemaVersion e) ]}
     : gmap string string) !! k.
Proof. intros Hk. unfold event_headers. rewrite lookup_union, ToMap_other_key by done. by rewrite left_id_L by apply _. Qed.

Lemma header_metadata (e : Event) : MetadataFromMap (Some (event_headers e)) = GetMetadata e.
Proof.
  rewrite <- (MetadataFromMap_ToMap (GetMetadata e)). unfold MetadataFromMap, index, event_headers.
  rewrite !lookup_union. destruct (ToMap (GetMetadata e)) as [m|]; simpl.
  - f_equal; (destruct (m !! _); done).
  - done.
Qed.

Lemma FormatUTC_nonempty t : FormatUTC t ≠ EmptyString.
Proof.
  unfold FormatUTC, format_list. destruct (civil _) as [[y m] d].
  intros E. apply (f_equal String.list_ascii_of_string) in E.
  rewrite String.list_ascii_of_string_of_list_ascii in E. by apply app_nil in E as [_ [=]].
Qed.

Lemma header_index (e : Event) :
  let h := Some (event_headers e) in
  index h "event_id" = EventID e ∧ index h "event_type" = EventType e
  ∧ index h "aggregate_id" = AggregateID e ∧ index h "aggregate_type" = EvAggregateType e
  ∧ index h "occurred_at" = FormatUTC (OccurredAt e) ∧ index h "version" = pretty (SchemaVersion e).
Proof.
  unfold index.
  rewrite !header_lookup by (rewrite !not_elem_of_cons, elem_of_nil; split_and!; (done || tauto)).
  repeat split; (rewrite ?lookup_insert_ne by done); rewrite ?lookup_insert_eq, ?lookup_singleton_eq; done.
Qed.

Lemma event_rebuilt (e : Event) u n p :
  portable e →
  NewEvent u n (EventType e) p (event_options (Some (event_headers e))) = set_payload p e.
Proof.
  intros [Hid Hty Ht Hy Hv]. destruct (header_index e) as (Ei & _ & Ea & Et & Eo & Ev).
  unfold event_options. rewrite header_metadata, Ei, Ea, Et, Eo, Ev.
  rewrite Atoi_Itoa by done. rewrite ParseRFC3339_FormatUTC by done.
  destruct (String.eqb_spec (FormatUTC (OccurredAt e)) "") as [E|_]; [by apply FormatUTC_nonempty in E|].
  unfold NewEvent. cbn [foldl app default]. unfold WithOccurredAt, WithID.
  destruct (String.eqb_spec (EventID e) ""); [done|]. destruct (decide (OccurredAt e = zeroTime)); [done|].
  reflexivity.
Qed.

(** The message of a portable event whose body decodes reaches a typed handler as the event. *)
Lemma event_handler_receives registry subject h (e : Event) t data v w :
  portable e → types registry !! EventType e = Some t → json_Unmarshal t data = Ok v →
  event_handler uuid now registry subject h
    (inprocessMessage subject (event_message subject e data)) w
  = h (set_payload (Some (VPtr t (Some v))) e) w.
Proof.
  intros Hp Ht Hv. unfold event_handler. cbn [m_Headers m_Data inprocessMessage event_message rm_Headers rm_Data].
  destruct (header_index e) as (_ & -> & _).
  destruct (String.eqb_spec (EventType e) "") as [E|_]; [by destruct Hp|].
  rewrite (Deserialize_registered _ _ t), Hv by done. rewrite event_rebuilt by done.
  cbn [Ack]. unfold pbind, pret. by destruct (h _ w) as [[[err|]|msg|] w'].
Qed.

Lemma deliver_notify registry subject hs i (e : Event) t data v w :
  portable e → types registry !! EventType e = Some t → json_Unmarshal t data = Ok v →
  deliver logger subject i (map (event_handler uuid now registry subject) hs)
    (inprocessMessage subject (event_message subject e data)) w
  = notify subject i hs (set_payload (Some (VPtr t (Some v))) e) w.
Proof.
  intros Hp Ht Hv. revert i w. induction hs as [|h hs IH]; intros i w; [done|].
  cbn [map deliver notify]. unfold pbind at 1 3. rewrite (event_handler_receives _ _ _ _ t _ v) by done.
  destruct (h _ w) as [[err|msg|] w1]; [|done..]. unfold pbind.
  destruct err as [err|]; [|apply IH]. destruct (logger subject i err w1) as [[[]|msg|] w2]; [apply IH|done..].
Qed.

(** A stream with the handlers [hs] subscribed to [subject] by an event stream. *)
Definition subscribed (registry : TypeRegistry gotype) (subject : string)
    (hs : list (EventHandler gotype V W)) : InprocessStream W :=
  foldl (λ s h, (EventStream_Subscribe uuid now {| es_stream := s; es_registry := registry |} subject h []).2)
    NewInprocessStream hs.

Lemma subject_handlers_Subscribe (s : InprocessStream W) subject h opts :
  subject_handlers (Inprocess_Subscribe s subject h opts).2 subject = subject_handlers s subject ++ [h].
Proof. unfold subject_handlers at 1. cbn [is_handlers Inprocess_Subscribe snd]. by rewrite lookup_insert_eq. Qed.

Lemma subscribed_handlers registry subject hs :
  subject_handlers (subscribed registry subject hs) subject
  = map (event_handler uuid now registry subject) hs.
Proof.
  unfold subscribed. induction hs as [|h hs IH] using rev_ind; [done|].
  rewrite foldl_app, map_app. cbn [foldl map].
  etrans; [apply subject_handlers_Subscribe|]. by rewrite <- IH.
Qed.

Lemma stream_notify s registry subject hs (e : Event) t data v w :
  subject_handlers s subject = map (event_handler uuid now registry subject) hs →
  portable e → types registry !! EventType e = Some t → json_Unmarshal t data = Ok v →
  Inprocess_Publish logger s subject (event_message subject e data) w
  = (let! _ := notify subject 0 hs (set_payload (Some (VPtr t (Some v))) e) in pret None) w.
Proof.
  intros Hs Hp Ht Hv. unfold Inprocess_Publish. rewrite Hs.
  destruct hs as [|h hs]; [done|]. cbn [map].
  unfold pbind. by rewrite <- (deliver_notify registry subject (h :: hs) 0 e t data v w).
Qed.

Lemma Inprocess_Publish_notify registry subject hs (e : Event) t data v w :
  portable e → types registry !! EventType e = Some t → json_Unmarshal t data = Ok v →
  Inprocess_Publish logger (subscribed registry subject hs) subject (event_message subject e data) w
  = (let! _ := notify subject 0 hs (set_payload (Some (VPtr t (Some v))) e) in pret None) w.
Proof. apply stream_notify, subscribed_handlers. Qed.

(** C13: an event published on an event stream over the in-process transport reaches every
    subscriber as the event that was published: same identifier, type, aggregate, time,
    version and metadata, with a pointer to the decoded payload.  The publisher gets nil
    whatever the handlers return. *)
Theorem event_stream_roundtrip (registry : TypeRegistry gotype) (subject : string)
    (hs : list (EventHandler gotype V W)) (e : Event) (p : value) (t : gotype) (j : json) (v : V) (w : W) :
  portable e → types registry !! EventType e = Some t → Payload e = Some p →
  json_Marshal p = Ok j → json_Unmarshal t (Some j) = Ok v →
  EventStream_Publish {| es_stream := subscribed registry subject hs; es_registry := registry |} subject e w
  = (let! _ := notify subject 0 hs (set_payload (Some (VPtr t (Some v))) e) in pret None) w.
Proof.
  intros Hp Ht Hpay Hj Hv. unfold EventStream_Publish. rewrite Hpay. unfold Serialize. cbn [es_registry es_stream].
  rewrite Ht, Hj. unfold pbind at 1. cbn [stream_Publish the_stream InprocessStream_Stream].
  rewrite (Inprocess_Publish_notify _ _ _ _ t _ v) by done.
  unfold pbind, pret. by destruct (notify _ _ _ _ w) as [[[]|msg|] w'].
Qed.

(** ** The relay *)

(** [bytes_value] is a [[]byte] as a payload, and [text] the document of a JSON text. *)
Context (bytes_type : gotype) (bytes_value : string → V) (text : string → Json.RawMessage).
Definition relayed (entry : OutboxEntry) : Event :=
  let e := envelopeEvent entry in
  {| EventID := EventID e; EventType := EventType e; AggregateID := AggregateID e;
     EvAggregateType := EvAggregateType e; OccurredAt := OccurredAt e; SchemaVersion := SchemaVersion e;
     Payload := (λ s, VStruct bytes_type (bytes_value s)) <$> Payload e; GetMetadata := GetMetadata e |}.

(** the relay's publisher hands an outbox entry to the subscribers of its event type as the
    event it records, decoded from the stored payload; the time of the event is the entry's
    creation time and its schema version is 1. *)
Theorem relay_reaches_subscribers (registry : TypeRegistry gotype) (hs : list (EventHandler gotype V W))
    (entry : OutboxEntry) (t : gotype) (v : V) (w : W) :
  (∀ s, as_bytes bytes_type (bytes_value s) = Some (text s)) →
  e_ID entry ≠ EmptyString → e_EventType entry ≠ EmptyString →
  e_CreatedAt entry ≠ zeroTime → four_digit_year (e_CreatedAt entry) →
  types registry !! e_EventType entry = Some t → json_Unmarshal t (text (e_Payload entry)) = Ok v →
  streamEventPublisher_Publish (subscribed registry (e_EventType entry) hs) (relayed entry) w
  = (let! _ := notify (e_EventType entry) 0 hs
       {| EventID := e_ID entry; EventType := e_EventType entry; AggregateID := e_AggregateID entry;
          EvAggregateType := e_AggregateType entry; OccurredAt := e_CreatedAt entry;
          SchemaVersion := 1; Payload := Some (VPtr t (Some v)); GetMetadata := e_Metadata entry |} in
     pret None) w.
Proof.
  intros Hb Hid Hty Htime Hyear Ht Hv. unfold streamEventPublisher_Publish.
  cbn [relayed envelopeEvent Payload fmap option_fmap option_map marshalPayload EventType]. rewrite Hb.
  unfold pbind at 1. cbn [stream_Publish the_stream InprocessStream_Stream].
  rewrite (Inprocess_Publish_notify _ _ _ _ t _ v); [|constructor; (done || by vm_compute)|done..].
  unfold pbind, pret, set_payload. cbn. by destruct (notify _ _ _ _ w) as [[[]|msg|] w'].
Qed.
End Delivery.

(** ** Replies *)

Lemma set_data rfc3339 x d :
  set_member (Reply_fields rfc3339) x ("data", JString (base64_EncodeToString d))
  = Ok {| r_Type := r_Type x; r_Success := r_Success x; r_Data := d; r_Error := r_Error x |}.
Proof.
  unfold set_member. cbn [fst snd].
  assert (find_field "data" (Reply_fields rfc3339) = Reply_fields rfc3339 !! 2) as -> by reflexivity.
  cbn [Reply_fields lookup list_lookup snd]. unfold on_field, unmarshal_bytes. by rewrite base64_roundtrip.
Qed.

Lemma set_type rfc3339 x s :
  set_member (Reply_fields rfc3339) x ("type", JString s)
  = Ok {| r_Type := s; r_Success := r_Success x; r_Data := r_Data x; r_Error := r_Error x |}.
Proof. reflexivity. Qed.
Lemma set_success rfc3339 x b :
  set_member (Reply_fields rfc3339) x ("success", JBool b)
  = Ok {| r_Type := r_Type x; r_Success := b; r_Data := r_Data x; r_Error := r_Error x |}.
Proof. reflexivity. Qed.
Lemma set_error rfc3339 x s :
  set_member (Reply_fields rfc3339) x ("error", JString s)
  = Ok {| r_Type := r_Type x; r_Success := r_Success x; r_Data := r_Data x; r_Error := s |}.
Proof. reflexivity. Qed.

(** a reply survives the wire: what the receiver decodes is the reply that was sent, its
    bytes through base64 and the empty fields left out, for UTF-8 type and error texts. *)
Theorem reply_roundtrip (rfc3339 : time → string) (r : Reply) :
  valid_utf8 (r_Type r) → valid_utf8 (r_Error r) →
  unmarshal_Reply rfc3339 (Some (marshal_Reply r)) = Ok r.
Proof.
  intros Ht He. destruct r as [ty ok data err]. cbn [r_Type r_Error] in Ht, He.
  unfold unmarshal_Reply, marshal_Reply, omit_empty, marshal_string. cbn [r_Type r_Success r_Data r_Error].
  rewrite Ht, He. destruct (String.eqb_spec data "") as [->|Hd], (decide (err = EmptyString)) as [->|Hr];
    cbn; repeat first [rewrite set_type | rewrite set_success | rewrite set_data | rewrite set_error]; done.
Qed.

Example reply_roundtrip_witness :
  unmarshal_Reply (λ _, EmptyString)
    (Some (marshal_Reply {| r_Type := "order.place.v1"; r_Success := true; r_Data := "ok!?";
                            r_Error := EmptyString |}))
  = Ok {| r_Type := "order.place.v1"; r_Success := true; r_Data := "ok!?"; r_Error := EmptyString |}.
Proof. apply reply_roundtrip; vm_compute; reflexivity. Defined.

(** ** Witnesses

    Payloads of the type 1 carry an integer, those of the type 0 are byte slices that hold one
    as its document; subscribers record the events they get. *)
Definition wire_data : GoData nat Z := {|
  type_String t := "counter" +:+ pretty t;
  reflect_zero _ := 0%Z;
  as_bytes t v := if decide (t = 0) then Some (Some (JObject [("n", JInt v)])) else None;
  json_Marshal := @json_Marshal _ _ counter_data;
  unmarshal_value := @unmarshal_value _ _ counter_data
|}.
Definition record_event : EventHandler nat Z (list (baseEvent (value nat Z))) :=
  λ evt w, (Returns None, w ++ [evt]).
Definition no_log : string → nat → error → prog (list (baseEvent (value nat Z))) unit :=
  λ _ _ _, pret ().
Definition orders : TypeRegistry nat := {| types := {[ "order.created" := 1 ]} |}.
Definition an_order : baseEvent (value nat Z) :=
  NewEvent "e1" (1700000000123456789)%Z "order.created" (Some (VStruct 1 7%Z))
    [WithAggregateInfo "o-1" "Order"; WithTraceID "t"; WithVersion 2].

Example event_stream_roundtrip_witness :
  EventStream_Publish (H := wire_data) (H0 := InprocessStream_Stream no_log)
    {| es_stream := subscribed (H := wire_data) no_log (λ _, "new") (λ _, 5%Z) orders "orders"
                      [record_event; record_event];
       es_registry := orders |} "orders" an_order []
  = (Returns None, [set_payload (Some (VPtr 1 (Some 7%Z))) an_order;
                    set_payload (Some (VPtr 1 (Some 7%Z))) an_order]).
Proof.
  assert (portable an_order) as Hp.
  { constructor; [discriminate | discriminate | discriminate | decide_now | split; discriminate || reflexivity]. }
  exact (event_stream_roundtrip (H := wire_data) no_log (λ _, "new") (λ _, 5%Z) orders "orders"
           [record_event; record_event] an_order (VStruct 1 7%Z) 1 (JObject [("n", JInt 7)]) 7%Z []
           Hp eq_refl eq_refl eq_refl eq_refl).
Defined.

Definition an_entry : OutboxEntry :=
  {| e_ID := "e1"; e_AggregateType := "Order"; e_AggregateID := "o-1"; e_EventType := "order.created";
     e_Payload := "7"; e_TraceID := EmptyString; e_Metadata := zeroMetadata;
     e_CreatedAt := 1700000000000000000%Z; e_ClaimedAt := None; e_LeaseToken := EmptyString;
     e_PublishedAt := None; e_RetryCount := 0; e_LastError := EmptyString |}.

Example relay_reaches_subscribers_witness :
  ∃ e, streamEventPublisher_Publish (H := wire_data) (H0 := InprocessStream_Stream no_log)
         (subscribed (H := wire_data) no_log (λ _, "new") (λ _, 5%Z) orders "order.created" [record_event])
         (relayed 0 (λ s, default 0%Z (Atoi s)) an_entry) []
       = (Returns None, [e]) ∧ Payload e = Some (VPtr 1 (Some 7%Z)) ∧ OccurredAt e = e_CreatedAt an_entry.
Proof.
  exists (set_payload (Some (VPtr 1 (Some 7%Z))) (relayed 0 (λ s, default 0%Z (Atoi s)) an_entry)).
  split; [|split; reflexivity].
  refine (relay_reaches_subscribers (H := wire_data) no_log (λ _, "new") (λ _, 5%Z) 0
           (λ s, default 0%Z (Atoi s)) (λ s, Some (JObject [("n", JInt (default 0%Z (Atoi s)))]))
           orders [record_event] an_entry 1 7%Z [] (λ _, eq_refl) _ _ _ _ eq_refl eq_refl);
    [discriminate | discriminate | discriminate | decide_now].
Defined.
