(* ===== verification/Nats.v ===== *)
(** * The NATS JetStream stream

    [Nats.v] models infra/events/nats/bus.go: connecting, publishing with a deduplication
    identifier, subscribing with a consumer configuration, the callback that settles a message,
    and closing.  The clients of nats.go are an interface: the connection in [Section Connect],
    the publisher and the messages in the class [JetStream].  The bus is an instance of the
    interface [Stream] of EventStream.v, so the typed event stream and the relay's publisher
    run over it. *)

From S2P Require Import Prelude Errors GoText Event Db Outbox OutboxWorker Json GoTime EventBus EventStream.
Local Open Scope go_scope.

(** A [nats.Msg]; a header key may have several values. *)
Record nats_Msg := {
  nm_Subject : string; nm_Data : Json.RawMessage; nm_Header : gmap string (list string)
}.
(** [jetstream.MsgIDHeader]. *)
Definition MsgIDHeader : string := "Nats-Msg-Id".

(** What the bus uses of a JetStream client: publishing with at most one message identifier,
    and the messages [M] handed to a consumer. *)
Class JetStream (M W : Type) := {
  PublishMsg : nats_Msg → list string → prog W (option error);
  msg_Subject : M → string;
  msg_Data : M → Json.RawMessage;
  msg_Headers : M → gmap string (list string);
  msg_NumDelivered : M → result error Z;
  msg_Ack : M → prog W (option error);
  msg_Nak : M → prog W (option error);
  msg_NakWithDelay : M → Z → prog W (option error);
  msg_Term : M → prog W (option error)
}.

(** ** Connecting *)

Record nats_Config := { URL : string; cfg_Stream : string; Subjects : list string; Replicas : Z }.
(** The configuration of the stream; storage and retention are constants. *)
Record StreamConfig := { sc_Name : string; sc_Subjects : list string; sc_Replicas : Z }.

Section Connect.
Context {C W : Type}.
Context (Connect : string → prog W (result error C)) (conn_Close : C → prog W unit).
Context (jetstream_New : C → prog W (option error)).
Context (CreateOrUpdateStream : C → StreamConfig → prog W (option error)).

Definition NewBus (cfg : nats_Config) : prog W (result error C) :=
  if (URL cfg =? "")%string then pret (Err (EText "nats: URL must not be empty"))
  else if (cfg_Stream cfg =? "")%string then pret (Err (EText "nats: Stream name must not be empty"))
  else match Subjects cfg with
  | [] => pret (Err (EText "nats: at least one Subject must be provided"))
  | _ =>
      let replicas := if (Replicas cfg <=? 0)%Z then 1%Z else Replicas cfg in
      let! r := Connect (URL cfg) in
      match r with
      | Err err => pret (Err (Errorf_w ("nats: connect to " +:+ URL cfg +:+ ": ") err))
      | Ok nc =>
          let! err := jetstream_New nc in
          match err with
          | Some err =>
              let! _ := conn_Close nc in pret (Err (Errorf_w "nats: create JetStream context: " err))
          | None =>
              let! err := CreateOrUpdateStream nc
                {| sc_Name := cfg_Stream cfg; sc_Subjects := Subjects cfg; sc_Replicas := replicas |} in
              match err with
              | Some err =>
                  let! _ := conn_Close nc in
                  pret (Err (Errorf_w ("nats: create or update stream " +:+ Quote (cfg_Stream cfg) +:+ ": ") err))
              | None => pret (Ok nc)
              end
          end
      end
  end.

Context (IsConnected : C → W → bool) (conn_Status : C → W → string).
Definition nats_HealthCheck (nc : C) : prog W (option error) := λ w,
  (Returns (if IsConnected nc w then None else Some (EText ("nats: connection status " +:+ conn_Status nc w))), w).
End Connect.

(** ** Messages *)

Section Messages.
Context {M W : Type} `{!JetStream M W}.

(** [nats.Header.Get]: the first value, or the empty string. *)
Definition Header_Get (h : gmap string (list string)) (k : string) : string :=
  match h !! k with Some (v :: _) => v | _ => EmptyString end.
Definition flat_Headers (h : gmap string (list string)) : option (gmap string string) :=
  if decide (h = ∅) then None else Some (omap head h).

Definition natsMessage_DeliveryAttempt (m : M) : Z :=
  match msg_NumDelivered m with
  | Err _ =>
      let raw := Header_Get (msg_Headers m) "Nats-Num-Delivered" in
      if (raw =? "")%string then 1%Z
      else match Atoi raw with
           | None => 1%Z
           | Some n => if (n <? 1)%Z then 1%Z else n
           end
  | Ok n => let n := wrap64 n in if (n <? 1)%Z then 1%Z else n
  end.
(** [natsMessage]. *)
Definition natsMessage (m : M) : Message W :=
  {| m_ID := Header_Get (msg_Headers m) MsgIDHeader; m_Subject := msg_Subject m; m_Data := msg_Data m;
     m_Headers := flat_Headers (msg_Headers m);
     Ack := msg_Ack m; Nak := msg_Nak m; NakWithDelay := msg_NakWithDelay m; Term := msg_Term m;
     DeliveryAttempt := natsMessage_DeliveryAttempt m |}.

(** ** Publishing *)

Definition wire (subject : string) (msg : RawMessage) : nats_Msg :=
  {| nm_Subject := subject; nm_Data := rm_Data msg;
     nm_Header := (λ v, [v]) <$> default ∅ (rm_Headers msg) |}.
Definition nats_Publish (subject : string) (msg : RawMessage) : prog W (option error) :=
  let! err := PublishMsg (wire subject msg) (if (rm_ID msg =? "")%string then [] else [rm_ID msg]) in
  match err with
  | Some err => pret (Some (Errorf_w ("nats: publish to subject " +:+ Quote subject +:+ ": ") err))
  | None => pret None
  end.

(** ** Subscribing *)

Record ConsumerConfig := {
  FilterSubject : string; cc_AckWait : Z; cc_MaxDeliver : Z; cc_MaxAckPending : Z;
  cc_Durable : string; cc_Name : string
}.
Definition consumer_config (subject : string) (opts : list SubscribeOption) : ConsumerConfig :=
  let cfg := ApplyOpts opts in
  {| FilterSubject := subject;
     cc_AckWait := if (AckWait cfg <=? 0)%Z then (30 * 10 ^ 9)%Z else AckWait cfg;
     cc_MaxDeliver := if (MaxDeliver cfg <=? 0)%Z then (-1)%Z else MaxDeliver cfg;
     cc_MaxAckPending := if (MaxAckPending cfg <=? 0)%Z then 1000%Z else MaxAckPending cfg;
     cc_Durable := Durable cfg; cc_Name := Durable cfg |}.

(** The callback of [Consume]; [logger] takes the message and the error of a log record. *)
Context (logger : string → error → prog W unit).
Definition log_if (text : string) (err : option error) : prog W unit :=
  match err with Some err => logger text err | None => pret () end.
Definition callback (handler : MessageHandler W) (m : M) : prog W unit :=
  let! err := handler (natsMessage m) in
  match err with
  | Some err =>
      let! _ := logger "nats: message handler error" err in
      let! nakErr := msg_Nak m in log_if "nats: nak failed" nakErr
  | None => let! ackErr := msg_Ack m in log_if "nats: ack failed" ackErr
  end.

(** [consumers] are the active consume contexts, each with its callback; the client answers a
    request for a consumer and the start of its consumption. *)
Record Bus := { consumers : list (ConsumerConfig * (M → prog W unit)) }.
Context (CreateOrUpdateConsumer Consume : ConsumerConfig → option error).
Definition nats_Subscribe (b : Bus) (subject : string) (handler : MessageHandler W) (opts : list SubscribeOption)
    : option error * Bus :=
  let cfg := consumer_config subject opts in
  match CreateOrUpdateConsumer cfg with
  | Some err => (Some (Errorf_w ("nats: create consumer for subject " +:+ Quote subject +:+ ": ") err), b)
  | None =>
      match Consume cfg with
      | Some err => (Some (Errorf_w ("nats: start consume for subject " +:+ Quote subject +:+ ": ") err), b)
      | None => (None, {| consumers := consumers b ++ [(cfg, callback handler)] |})
      end
  end.

#[local] Instance Bus_Stream : Stream Bus W := {|
  stream_Publish _ := nats_Publish;
  stream_Subscribe := nats_Subscribe
|}.

(** [Stop] of a consume context and [Drain] of the connection are calls on the client. *)
Context (cc_Stop : ConsumerConfig → prog W unit) (Drain : prog W (option error)).
Fixpoint stop_all (cs : list (ConsumerConfig * (M → prog W unit))) : prog W unit :=
  match cs with
  | [] => pret ()
  | cc :: cs => let! _ := cc_Stop cc.1 in stop_all cs
  end.
Definition nats_Close (b : Bus) : prog W (option error) * Bus :=
  ((let! _ := stop_all (consumers b) in
    let! err := Drain in
    match err with
    | Some err => pret (Some (Errorf_w "nats: drain connection: " err))
    | None => pret None
    end), {| consumers := [] |}).
End Messages.
Arguments Bus : clear implicits.

(** ** Typed events over the bus *)

Lemma ApplyOpts_snoc opts o : ApplyOpts (opts ++ [o]) = o (ApplyOpts opts).
Proof. unfold ApplyOpts. by rewrite foldl_app. Qed.

(** the consumer group is ignored: subscribing with [WithGroup] asks the server for the same
    consumer as without it, so the members of a group do not share its messages.  A consumer
    always has a positive acknowledgement time and a bound on unacknowledged messages. *)
Theorem consumer_group_ignored (subject group : string) (opts : list SubscribeOption) :
  consumer_config subject (opts ++ [WithGroup group]) = consumer_config subject opts
  ∧ (0 < cc_AckWait (consumer_config subject opts))%Z
  ∧ (0 < cc_MaxAckPending (consumer_config subject opts))%Z
  ∧ (cc_MaxDeliver (consumer_config subject opts) = -1 ∨ 0 < cc_MaxDeliver (consumer_config subject opts))%Z.
Proof.
  unfold consumer_config. rewrite ApplyOpts_snoc. split; [done|]. cbn.
  destruct (Z.leb_spec (AckWait (ApplyOpts opts)) 0), (Z.leb_spec (MaxDeliver (ApplyOpts opts)) 0),
    (Z.leb_spec (MaxAckPending (ApplyOpts opts)) 0); split_and!; lia.
Qed.

Lemma index_insert_ne (h : gmap string string) k k' v : k ≠ k' → index (Some (<[k' := v]> h)) k = index (Some h) k.
Proof. intros. unfold index. by rewrite lookup_insert_ne. Qed.
Lemma flat_Headers_wire (h : gmap string string) k v :
  flat_Headers (<[k := [v]]> ((λ v, [v]) <$> h)) = Some (<[k := v]> h).
Proof.
  unfold flat_Headers. rewrite decide_False by apply insert_non_empty. f_equal.
  apply map_eq. intros i. rewrite lookup_omap. destruct (decide (i = k)) as [->|].
  - by rewrite !lookup_insert_eq.
  - rewrite !lookup_insert_ne, lookup_fmap by done. by destruct (h !! i).
Qed.
(** An extra header of another name does not change the event that is rebuilt. *)
Lemma event_options_insert {gotype V} (h : gmap string string) id :
  event_options (gotype := gotype) (V := V) (Some (<[MsgIDHeader := id]> h)) = event_options (Some h).
Proof. unfold event_options, MetadataFromMap. by rewrite !index_insert_ne. Qed.

Section Delivery.
Context {gotype V M W : Type} `{GoData gotype V} `{!JetStream M W}.
Context (logger : string → error → prog W unit) (uuid : W → string) (now : W → time).
Context (CreateOrUpdateConsumer Consume : ConsumerConfig → option error).
Notation value := (value gotype V).
Notation Event := (baseEvent value).
#[local] Instance the_bus : Stream (Bus M W) W := Bus_Stream logger CreateOrUpdateConsumer Consume.

(** [m] is a delivery of the message that was published under [id]. *)
Definition carries (id : string) (msg : nats_Msg) (m : M) : Prop :=
  msg_Subject m = nm_Subject msg ∧ msg_Data m = nm_Data msg
  ∧ msg_Headers m = <[MsgIDHeader := [id]]> (nm_Header msg).

(** What the callback does with the error of a handler. *)
Definition settle_failed (m : M) (err : error) : prog W unit :=
  let! _ := logger "nats: message handler error" err in
  let! nakErr := msg_Nak m in log_if logger "nats: nak failed" nakErr.

Lemma nats_handler_receives registry subject h (e : Event) t data v m w :
  portable e → types registry !! EventType e = Some t → json_Unmarshal t data = Ok v →
  carries (EventID e) (wire subject (event_message subject e data)) m →
  event_handler uuid now registry subject h (natsMessage m) w
  = (let! err := h (set_payload (Some (VPtr t (Some v))) e) in
     match err with Some err => pret (Some err) | None => msg_Ack m end) w.
Proof.
  intros Hp Ht Hv (_ & Hd & Hh). unfold event_handler. cbn [m_Headers m_Data Ack natsMessage].
  rewrite Hh, Hd. cbn [wire nm_Header nm_Data event_message rm_Headers rm_Data default].
  rewrite flat_Headers_wire, index_insert_ne by done. unfold id. destruct (header_index e) as (_ & -> & _).
  destruct (String.eqb_spec (EventType e) "") as [E|_]; [by destruct Hp|].
  rewrite (Deserialize_registered _ _ t), Hv by done. by rewrite event_options_insert, event_rebuilt.
Qed.

(** C14: an event published on an event stream over NATS reaches a subscriber as the event that was
    published, with its payload decoded.  Publishing hands the client one message with the event's
    identifier for deduplication; on each delivery of that message the handler runs once, a
    failure of the handler or of the acknowledgement is followed by a negative one, and after
    success the message is acknowledged, by the event stream and once more by the bus. *)
Theorem nats_event_roundtrip (registry : TypeRegistry gotype) (b : Bus M W) (subject : string)
    (e : Event) (p : value) (t : gotype) (j : json) (v : V) :
  portable e → types registry !! EventType e = Some t → Payload e = Some p →
  json_Marshal p = Ok j → json_Unmarshal t (Some j) = Ok v →
  let msg := wire subject (event_message subject e (Some j)) in
  (∀ w, EventStream_Publish {| es_stream := b; es_registry := registry |} subject e w
        = (let! err := PublishMsg msg [EventID e] in
           match err with
           | Some err => pret (Some (Errorf_w ("event_stream: publish " +:+ Quote (EventType e) +:+ ": ")
                                      (Errorf_w ("nats: publish to subject " +:+ Quote subject +:+ ": ") err)))
           | None => pret None
           end) w)
  ∧ ∀ (h : EventHandler gotype V W) (m : M) (w : W), carries (EventID e) msg m →
      callback logger (event_handler uuid now registry subject h) m w
      = (let! err := h (set_payload (Some (VPtr t (Some v))) e) in
         match err with
         | Some err => settle_failed m err
         | None =>
             let! ackErr := msg_Ack m in
             match ackErr with
             | Some err => settle_failed m err
             | None => let! ackErr := msg_Ack m in log_if logger "nats: ack failed" ackErr
             end
         end) w.
Proof.
  intros Hp Ht Hpay Hj Hv msg. split.
  - intros w. unfold EventStream_Publish. rewrite Hpay. unfold Serialize. cbn [es_registry es_stream].
    rewrite Ht, Hj. cbn [stream_Publish the_bus Bus_Stream]. unfold nats_Publish. cbn [event_message rm_ID].
    destruct (String.eqb_spec (EventID e) "") as [E|_]; [by destruct Hp|].
    unfold pbind. fold msg. by destruct (PublishMsg msg [EventID e] w) as [[[err|]|p'|] w'].
  - intros h m w Hm. unfold callback. unfold pbind at 1.
    rewrite (nats_handler_receives registry subject h e t (Some j) v m w) by done.
    unfold settle_failed, pbind, pret. destruct (h _ w) as [[[err|]|p'|] w1]; [done| |done|done].
    by destruct (msg_Ack m w1) as [[[err|]|p'|] w2].
Qed.
End Delivery.

(** ** Deduplication

    [stored] is the content of the JetStream stream and [recent] the message identifiers inside its
    deduplication window.  As documented, publishing under an identifier of the window stores
    nothing; under a new identifier it stores the message with its identifier, or stores nothing
    and does not acknowledge. *)
Section Dedup.
Context {gotype V M W : Type} `{GoData gotype V} `{!JetStream M W}.
Context (logger : string → error → prog W unit).
Context (CreateOrUpdateConsumer Consume : ConsumerConfig → option error).
#[local] Instance dedup_bus : Stream (Bus M W) W := Bus_Stream logger CreateOrUpdateConsumer Consume.
Context (stored : W → list nats_Msg) (recent : W → gset string).
Context (bytes_type : gotype) (bytes_value : string → V) (text : string → Json.RawMessage).

Definition with_id (id : string) (msg : nats_Msg) : nats_Msg :=
  {| nm_Subject := nm_Subject msg; nm_Data := nm_Data msg;
     nm_Header := <[MsgIDHeader := [id]]> (nm_Header msg) |}.
Record deduplicates : Prop := {
  publish_dup id msg w : id ∈ recent w →
    stored (PublishMsg msg [id] w).2 = stored w ∧ recent (PublishMsg msg [id] w).2 = recent w;
  publish_new id msg w : id ∉ recent w →
    (stored (PublishMsg msg [id] w).2 = stored w ++ [with_id id msg]
     ∧ recent (PublishMsg msg [id] w).2 = {[id]} ∪ recent w)
    ∨ (stored (PublishMsg msg [id] w).2 = stored w ∧ recent (PublishMsg msg [id] w).2 = recent w
       ∧ (PublishMsg msg [id] w).1 ≠ Returns None)
}.

(** The messages of the stream stored under [id]. *)
Definition under (id : string) (msgs : list nats_Msg) : list nats_Msg :=
  filter (λ m, Header_Get (nm_Header m) MsgIDHeader = id) msgs.
Definition relay_entry (b : Bus M W) (entry : OutboxEntry) : prog W (option error) :=
  streamEventPublisher_Publish b (relayed (V := V) bytes_type bytes_value entry).
(** What the relay does over several batches: it publishes entries, some of them again because a
    publication failed, or succeeded and could not be marked. *)
Fixpoint relay_entries (b : Bus M W) (entries : list OutboxEntry) (w : W)
    : list (string * outcome (option error)) * W :=
  match entries with
  | [] => ([], w)
  | e :: entries =>
      let (r, w1) := relay_entry b e w in
      let (rs, w2) := relay_entries b entries w1 in ((e_ID e, r) :: rs, w2)
  end.

(** Each identifier of the window is stored once, and no other is stored. *)
Definition window_inv (w : W) : Prop :=
  ∀ id, length (under id (stored w)) = if decide (id ∈ recent w) then 1 else 0.

Lemma under_snoc id id' msg msgs :
  under id (msgs ++ [with_id id' msg]) = under id msgs ++ (if decide (id' = id) then [with_id id' msg] else []).
Proof.
  unfold under. rewrite filter_app. f_equal. rewrite filter_cons, filter_nil.
  unfold Header_Get. cbn [nm_Header with_id]. by rewrite lookup_insert_eq.
Qed.

Lemma PublishMsg_inv id msg w :
  deduplicates → window_inv w →
  let (r, w') := PublishMsg msg [id] w in
  window_inv w' ∧ recent w ⊆ recent w' ∧ (r = Returns None → id ∈ recent w').
Proof.
  intros [Hd Hn] Hw. specialize (Hd id msg w). specialize (Hn id msg w).
  destruct (PublishMsg msg [id] w) as [r w'] eqn:E. cbn in Hd, Hn. unfold window_inv in *.
  destruct (decide (id ∈ recent w)) as [Hi|Hi].
  - destruct (Hd Hi) as [-> ->]. by split_and!.
  - destruct (Hn Hi) as [[-> ->]|(-> & -> & Hr)]; [|by split_and!]. split_and!; [|set_solver..].
    intros id'. rewrite under_snoc, length_app, Hw.
    destruct (decide (id = id')) as [->|]; repeat case_decide; cbn; set_solver || lia.
Qed.

Lemma relay_entry_inv b entry w :
  deduplicates → (∀ s, as_bytes bytes_type (bytes_value s) = Some (text s)) → e_ID entry ≠ EmptyString →
  window_inv w →
  let (r, w') := relay_entry b entry w in
  window_inv w' ∧ recent w ⊆ recent w' ∧ (r = Returns None → e_ID entry ∈ recent w').
Proof.
  intros Hd Hb Hid Hw. unfold relay_entry, streamEventPublisher_Publish.
  cbn [relayed envelopeEvent Payload fmap option_fmap option_map marshalPayload EventType]. rewrite Hb.
  cbn [stream_Publish dedup_bus Bus_Stream]. unfold nats_Publish, pbind, pret. cbn [event_message rm_ID].
  change (EventID (relayed bytes_type bytes_value entry)) with (e_ID entry).
  destruct (String.eqb_spec (e_ID entry) ""); [done|].
  match goal with |- context [PublishMsg ?msg _ w] => pose proof (PublishMsg_inv (e_ID entry) msg w Hd Hw) as Hp end.
  destruct (PublishMsg _ _ w) as [[[err|]|p|] w']; destruct Hp as (? & ? & Hr); split_and!; auto; discriminate.
Qed.

(** C11: the relay's publications through NATS are stored once.  However often entries of the outbox
    are published again while their identifiers are inside the deduplication window, and whatever
    publications fail, the stream never holds two messages of one entry, and it holds exactly one
    of each entry for which some publication was acknowledged. *)
Theorem relay_stored_once (b : Bus M W) (entries : list OutboxEntry) (w w' : W)
    (rs : list (string * outcome (option error))) :
  deduplicates → (∀ s, as_bytes bytes_type (bytes_value s) = Some (text s)) →
  (∀ e, e ∈ entries → e_ID e ≠ EmptyString) → window_inv w →
  relay_entries b entries w = (rs, w') →
  (∀ id, length (under id (stored w')) ≤ 1)
  ∧ (∀ id, (id, Returns None) ∈ rs → length (under id (stored w')) = 1).
Proof.
  intros Hd Hb Hids Hw Hr.
  assert (window_inv w' ∧ recent w ⊆ recent w' ∧ ∀ id, (id, Returns None) ∈ rs → id ∈ recent w') as (Hw' & _ & Hin).
  { revert w rs Hw Hr. induction entries as [|e entries IH]; intros w rs Hw Hr; cbn in Hr.
    { simplify_eq. split_and!; [done..|]. set_solver. }
    pose proof (relay_entry_inv b e w Hd Hb ltac:(set_solver) Hw) as He.
    destruct (relay_entry b e w) as [r w1]. destruct He as (Hw1 & Hs1 & Hr1).
    destruct (relay_entries b entries w1) as [rs2 w2] eqn:E2. simplify_eq.
    destruct (IH ltac:(set_solver) w1 rs2 Hw1 E2) as (Hw2 & Hs2 & Hr2). split_and!; [done|set_solver|].
    intros id [[= -> <-]|]%elem_of_cons; [apply Hs2|]; auto. }
  split; intros id; [specialize (Hw' id); destruct (decide _); lia|].
  intros Hi. rewrite Hw'. by rewrite decide_True by auto.
Qed.
End Dedup.

(** ** Connecting and closing *)

(** A bus that could not be built leaves no connection open. *)
Lemma NewBus_acquires {C W R} Connect conn_Close jetstream_New CreateOrUpdateStream (held : W → list R) (r : C → R) cfg :
  (∀ u, acquires held r (Connect u)) → (∀ c, releases held (r c) (conn_Close c)) →
  (∀ c, preserves held (jetstream_New c)) → (∀ c sc, preserves held (CreateOrUpdateStream c sc)) →
  acquires held r (NewBus Connect conn_Close jetstream_New CreateOrUpdateStream cfg).
Proof.
  intros Hc Hx Hj Hs. unfold NewBus. repeat (case_match; [by apply acquires_err|]).
  apply (acquires_then held r r); [done|]. intros nc st held0 Hl. unfold pbind, pret.
  pose proof (Hj nc st) as Hj'. destruct (jetstream_New nc st) as [[[err|]|p|] s1]; cbn in Hj'; [| |done..].
  { destruct (Hx nc s1 held0) as (a & s2 & -> & Hs2); [congruence|done]. }
  match goal with |- context [CreateOrUpdateStream nc ?sc s1] => pose proof (Hs nc sc s1) as Hs';
    destruct (CreateOrUpdateStream nc sc s1) as [[[err|]|p|] s2] end; cbn in Hs'; [| |done..].
  - destruct (Hx nc s2 held0) as (a & s3 & -> & Hs3); [congruence|done].
  - congruence.
Qed.

(** Closing stops each consumer once and drains; closing again only drains again. *)
Lemma Close_again {M W} (cc_Stop : ConsumerConfig → prog W unit) Drain (b : Bus M W) w :
  (nats_Close cc_Stop Drain b).1 w
  = (let! _ := stop_all cc_Stop (consumers b) in (nats_Close cc_Stop Drain (nats_Close cc_Stop Drain b).2).1) w.
Proof. done. Qed.

(** ** Witnesses

    A broker that keeps what is published, the identifiers it has seen, and the number of
    acknowledgements; subscribers record the events they get. *)
Record broker := {
  bk_stored : list nats_Msg; bk_recent : gset string; bk_seen : list (baseEvent (value nat Z)); bk_acks : nat
}.
Definition bk_PublishMsg (msg : nats_Msg) (ids : list string) : prog broker (option error) := λ w,
  match ids with
  | [id] => if decide (id ∈ bk_recent w) then (Returns None, w)
            else (Returns None, {| bk_stored := bk_stored w ++ [with_id id msg]; bk_recent := {[id]} ∪ bk_recent w;
                                   bk_seen := bk_seen w; bk_acks := bk_acks w |})
  | _ => (Returns None, {| bk_stored := bk_stored w ++ [msg]; bk_recent := bk_recent w;
                           bk_seen := bk_seen w; bk_acks := bk_acks w |})
  end.
#[local] Instance broker_JetStream : JetStream nats_Msg broker := {|
  PublishMsg := bk_PublishMsg;
  msg_Subject := nm_Subject; msg_Data := nm_Data; msg_Headers := nm_Header; msg_NumDelivered _ := Ok 1%Z;
  msg_Ack _ w := (Returns None, {| bk_stored := bk_stored w; bk_recent := bk_recent w; bk_seen := bk_seen w;
                                   bk_acks := S (bk_acks w) |});
  msg_Nak _ := pret None; msg_NakWithDelay _ _ := pret None; msg_Term _ := pret None
|}.
Definition bk_empty : broker := {| bk_stored := []; bk_recent := ∅; bk_seen := []; bk_acks := 0 |}.
Definition bk_record : EventHandler nat Z broker := λ evt w,
  (Returns None, {| bk_stored := bk_stored w; bk_recent := bk_recent w; bk_seen := bk_seen w ++ [evt];
                    bk_acks := bk_acks w |}).
Definition bk_log : string → error → prog broker unit := λ _ _, pret ().
Definition bk_bus : Bus nats_Msg broker := {| consumers := [] |}.

Definition an_order_msg : nats_Msg := wire "orders" (event_message "orders" an_order (Some (JObject [("n", JInt 7)]))).
Definition bk_published : broker :=
  {| bk_stored := [with_id "e1" an_order_msg]; bk_recent := {["e1"]} ∪ ∅; bk_seen := []; bk_acks := 0 |}.

Example nats_event_roundtrip_witness :
  EventStream_Publish (H := wire_data) (H0 := Bus_Stream bk_log (λ _, None) (λ _, None))
    {| es_stream := bk_bus; es_registry := orders |} "orders" an_order bk_empty = (Returns None, bk_published)
  ∧ callback bk_log (event_handler (H := wire_data) (λ _, "new") (λ _, 5%Z) orders "orders" bk_record)
      (with_id "e1" an_order_msg) bk_published
    = (Returns (), {| bk_stored := [with_id "e1" an_order_msg]; bk_recent := {["e1"]} ∪ ∅;
                      bk_seen := [set_payload (Some (VPtr 1 (Some 7%Z))) an_order]; bk_acks := 2 |}).
Proof.
  assert (portable an_order) as Hp.
  { constructor; [discriminate | discriminate | discriminate | decide_now | split; discriminate || reflexivity]. }
  destruct (nats_event_roundtrip (H := wire_data) bk_log (λ _, "new") (λ _, 5%Z) (λ _, None) (λ _, None)
    orders bk_bus "orders" an_order (VStruct 1 7%Z) 1 (JObject [("n", JInt 7)]) 7%Z
    Hp eq_refl eq_refl eq_refl eq_refl) as [H1 H2].
  split; [exact (eq_trans (H1 bk_empty) eq_refl)|].
  refine (eq_trans (H2 bk_record _ _ _) eq_refl). split; [|split]; reflexivity.
Defined.

Lemma broker_deduplicates : deduplicates bk_stored bk_recent.
Proof.
  split; intros id msg w Hi; cbn; unfold bk_PublishMsg.
  - by rewrite decide_True.
  - rewrite decide_False by done. by left.
Qed.

Definition a_second : OutboxEntry :=
  {| e_ID := "e2"; e_AggregateType := "Order"; e_AggregateID := "o-1"; e_EventType := "order.created";
     e_Payload := "8"; e_TraceID := EmptyString; e_Metadata := zeroMetadata;
     e_CreatedAt := 1700000000000000000%Z; e_ClaimedAt := None; e_LeaseToken := EmptyString;
     e_PublishedAt := None; e_RetryCount := 0; e_LastError := EmptyString |}.
Example relay_stored_once_witness :
  ∃ rs w', relay_entries (H := wire_data) bk_log (λ _, None) (λ _, None) 0 (λ s, default 0%Z (Atoi s)) bk_bus
             [an_entry; a_second; an_entry] bk_empty = (rs, w')
    ∧ length (under "e1" (bk_stored w')) = 1.
Proof.
  eexists _, _. split; [reflexivity|].
  refine (proj2 (relay_stored_once (H := wire_data) bk_log (λ _, None) (λ _, None) bk_stored bk_recent 0
    (λ s, default 0%Z (Atoi s)) (λ s, Some (JObject [("n", JInt (default 0%Z (Atoi s)))])) bk_bus
    [an_entry; a_second; an_entry] bk_empty _ _ broker_deduplicates (λ _, eq_refl) _ _ eq_refl) "e1" _).
  - intros e He. apply list_elem_of_In in He. destruct He as [<-|[<-|[<-|[]]]]; discriminate.
  - intros id. reflexivity.
  - apply list_elem_of_here.
Defined.
