(* ===== verification/Amqp.v ===== *)
(** * Background tasks over RabbitMQ

    [Amqp.v] models infra/worker: the connection with its retries (connection.go), the publisher of
    tasks (publisher.go) and the consumer (consumer.go).  The client library is the class [Amqp].
    A consumer is a machine: its moves are those of the broker, of the worker goroutines and of the
    caller, over one queue; a connection that is lost gives what was not acknowledged back to the
    queue, as AMQP documents. *)

From Stdlib Require Import QArith.
From S2P Require Import Prelude Float Errors GoText Event Json EventStream.
Local Open Scope go_scope.

(** ** The client library *)

Record Publishing := {
  ContentType : string; Persistent : bool; MessageId : string; Timestamp : time; Body : Json.RawMessage
}.
Class Amqp (Cn Ch W : Type) := {
  Dial : string → prog W (result error Cn);
  IsClosed : Cn → W → bool;
  conn_Close : Cn → prog W (option error);
  conn_Channel : Cn → prog W (result error Ch);
  ch_Close : Ch → prog W unit;
  QueueDeclare : Ch → string → prog W (option error);
  QueueBind : Ch → string → string → string → prog W (option error);
  ExchangeDeclare : Ch → string → string → prog W (option error);
  PublishWithContext : Ch → string → string → Publishing → prog W (option error);
  Qos : Ch → Z → prog W (option error);
  ConsumeWithContext : Ch → string → prog W (option error);
  Sleep : Z → prog W unit
}.

Section Connection.
Context {Cn Ch W : Type} `{!Amqp Cn Ch W}.

(** ** connection.go *)

Record AMQPConnection := { conn : option Cn; uri : string; maxRetries : Z }.
(** [time.Duration(math.Pow(2, float64(i))) * time.Second] *)
Definition backoff (i : nat) : Z := wrap64 (to_int64 (Pow (of_int64 2) (Z.of_nat i)) * 10 ^ 9).
(** The loop of [connect] with [n] attempts left, the next one being number [i]. *)
Fixpoint connect_loop (ac : AMQPConnection) (n i : nat) (lastErr : option error) : prog W (option error * AMQPConnection) :=
  match n with
  | O =>
      let what := "failed after " +:+ pretty (maxRetries ac) +:+ " attempts: " in
      pret (Some (match lastErr with Some err => Errorf_w what err | None => EText (what +:+ "%!w(<nil>)") end), ac)
  | S n =>
      let! r := Dial (uri ac) in
      match r with
      | Ok c => pret (None, {| conn := Some c; uri := uri ac; maxRetries := maxRetries ac |})
      | Err err => let! _ := Sleep (backoff i) in connect_loop ac n (S i) (Some err)
      end
  end.
Definition connect (ac : AMQPConnection) : prog W (option error * AMQPConnection) :=
  connect_loop ac (Z.to_nat (maxRetries ac)) 0 None.
Definition NewAMQPConnection (u : string) (retries : Z) : prog W (result error AMQPConnection) :=
  let retries := if (retries <=? 0)%Z then 5%Z else retries in
  let! r := connect {| conn := None; uri := u; maxRetries := retries |} in
  match r with
  | (Some err, _) => pret (Err (Errorf_w "amqp connect: " err))
  | (None, ac) => pret (Ok ac)
  end.
(** A closed connection is opened again. *)
Definition Channel (ac : AMQPConnection) : prog W (result error Ch * AMQPConnection) := λ w,
  match match conn ac with Some c => if IsClosed c w then None else Some c | None => None end with
  | Some c => (let! r := conn_Channel c in pret (r, ac)) w
  | None =>
      (let! r := connect ac in
       match r with
       | (Some err, ac) => pret (Err err, ac)
       | (None, ac) => match conn ac with
                       | Some c => let! r := conn_Channel c in pret (r, ac)
                       | None => λ w, (Panics "invalid memory address or nil pointer dereference", w)
                       end
       end) w
  end.
Definition AMQP_Close (ac : AMQPConnection) : prog W (option error) := λ w,
  match conn ac with
  | Some c => if IsClosed c w then (Returns None, w) else conn_Close c w
  | None => (Returns None, w)
  end.

(** ** publisher.go *)

Record Task := { t_ID : string; t_Type : string; t_Payload : string; t_Retries : Z; t_CreatedAt : time }.
Definition NewTask (uuid : string) (now : time) (taskType payload : string) : Task :=
  {| t_ID := uuid; t_Type := taskType; t_Payload := payload; t_Retries := 0; t_CreatedAt := now |}.
Definition marshal_Task (t : Task) : result error json :=
  match marshal_time (t_CreatedAt t) with
  | Err err => Err err
  | Ok created =>
      Ok (JObject [("id", marshal_string (t_ID t)); ("type", marshal_string (t_Type t));
                   ("payload", JString (base64_EncodeToString (t_Payload t))); ("retries", JInt (t_Retries t));
                   ("created_at", created)])
  end.

(** A channel is opened for the work and closed after it, also when it fails. *)
Definition with_channel {X} (ac : AMQPConnection) (work : Ch → prog W (result error X))
    : prog W (result error X * AMQPConnection) :=
  let! r := Channel ac in
  match r with
  | (Err err, ac) => pret (Err (Errorf_w "open channel: " err), ac)
  | (Ok ch, ac) => let! r := work ch in let! _ := ch_Close ch in pret (r, ac)
  end.
(** A publisher is its exchange. *)
Definition NewTaskPublisher (ac : AMQPConnection) (exchange : string) : prog W (result error string * AMQPConnection) :=
  with_channel ac (λ ch,
    let! err := ExchangeDeclare ch exchange "topic" in
    match err with Some err => pret (Err (Errorf_w "declare exchange: " err)) | None => pret (Ok exchange) end).
Definition Task_Publish (ac : AMQPConnection) (exchange routingKey : string) (task : Task)
    : prog W (result error unit * AMQPConnection) := with_channel ac (λ ch,
  match marshal_Task task with
  | Err err => pret (Err (Errorf_w "marshal task: " err))
  | Ok body =>
      let! err := PublishWithContext ch exchange routingKey
        {| ContentType := "application/json"; Persistent := true; MessageId := t_ID task;
           Timestamp := t_CreatedAt task; Body := Some body |} in
      match err with Some err => pret (Err err) | None => pret (Ok ()) end
  end).

(** ** consumer.go: set-up *)

Record ConsumerConfig := { Queue : string; Exchange : string; RoutingKey : string; Prefetch : Z; Workers : Z }.
Record Consumer := { queue_name : string; prefetch : Z; workers : Z }.
Definition NewConsumer (ac : AMQPConnection) (cfg : ConsumerConfig) : prog W (result error Consumer * AMQPConnection) :=
  with_channel ac (λ ch,
  let! err := QueueDeclare ch (Queue cfg) in
  match err with
  | Some err => pret (Err (Errorf_w "declare queue: " err))
  | None =>
      let! err := if (Exchange cfg =? "")%string then pret None
                  else QueueBind ch (Queue cfg) (RoutingKey cfg) (Exchange cfg) in
      match err with
      | Some err => pret (Err (Errorf_w "bind queue: " err))
      | None => pret (Ok {| queue_name := Queue cfg;
                            prefetch := if (Prefetch cfg <=? 0)%Z then 10%Z else Prefetch cfg;
                            workers := if (Workers cfg <=? 0)%Z then 1%Z else Workers cfg |})
      end
  end).
(** [Start], with [goroutines] what it does from the first worker to the last one's return. *)
Definition Consumer_Start (ac : AMQPConnection) (c : Consumer) (goroutines : prog W unit)
    : prog W (result error unit * AMQPConnection) := with_channel ac (λ ch,
  let! err := Qos ch (prefetch c) in
  match err with
  | Some err => pret (Err (Errorf_w "set QoS: " err))
  | None =>
      let! err := ConsumeWithContext ch (queue_name c) in
      match err with
      | Some err => pret (Err (Errorf_w "consume: " err))
      | None => let! _ := goroutines in pret (Ok ())
      end
  end).
End Connection.
Arguments AMQPConnection : clear implicits.

(** ** consumer.go: one message *)

Definition zeroTask : Task := {| t_ID := EmptyString; t_Type := EmptyString; t_Payload := EmptyString; t_Retries := 0; t_CreatedAt := zeroTime |}.
Definition on_task {A} (get : Task → A) (set : A → Task → Task) (dec : json → A → result error A)
    (j : json) (t : Task) : result error Task :=
  match dec j (get t) with Ok a => Ok (set a t) | Err e => Err e end.
Section Consume.
Context (rfc3339 : time → string).
Definition Task_fields : list (field Task) :=
  [("id", on_task t_ID (λ a t, {| t_ID := a; t_Type := t_Type t; t_Payload := t_Payload t; t_Retries := t_Retries t; t_CreatedAt := t_CreatedAt t |})
      (unmarshal_string rfc3339));
   ("type", on_task t_Type (λ a t, {| t_ID := t_ID t; t_Type := a; t_Payload := t_Payload t; t_Retries := t_Retries t; t_CreatedAt := t_CreatedAt t |})
      (unmarshal_string rfc3339));
   ("payload", on_task t_Payload (λ a t, {| t_ID := t_ID t; t_Type := t_Type t; t_Payload := a; t_Retries := t_Retries t; t_CreatedAt := t_CreatedAt t |})
      (unmarshal_bytes rfc3339));
   ("retries", on_task t_Retries (λ a t, {| t_ID := t_ID t; t_Type := t_Type t; t_Payload := t_Payload t; t_Retries := a; t_CreatedAt := t_CreatedAt t |})
      unmarshal_int);
   ("created_at", on_task t_CreatedAt (λ a t, {| t_ID := t_ID t; t_Type := t_Type t; t_Payload := t_Payload t; t_Retries := t_Retries t; t_CreatedAt := a |})
      unmarshal_time)].
Definition unmarshal_Task (data : Json.RawMessage) : result error Task :=
  match data with Some j => unmarshal_struct Task_fields j zeroTask | None => Err ErrJSON end.

(** How [process] settles a delivery whose body is [body]; the error of the settlement is dropped. *)
Inductive settlement := Acked | Discarded | Requeued.
Definition process {W} (handler : Task → prog W (option error)) (body : Json.RawMessage) : prog W settlement :=
  match unmarshal_Task body with
  | Err _ => pret Discarded
  | Ok task =>
      let! err := handler task in
      match err with Some _ => pret Requeued | None => pret Acked end
  end.

Lemma task_payload x d :
  set_member Task_fields x ("payload", JString (base64_EncodeToString d))
  = Ok {| t_ID := t_ID x; t_Type := t_Type x; t_Payload := d; t_Retries := t_Retries x; t_CreatedAt := t_CreatedAt x |}.
Proof.
  unfold set_member. cbn [fst snd].
  assert (find_field "payload" Task_fields = Task_fields !! 2) as -> by reflexivity.
  cbn [Task_fields lookup list_lookup snd]. unfold on_task, unmarshal_bytes. by rewrite base64_roundtrip.
Qed.
Lemma task_retries x z :
  int64_range z →
  set_member Task_fields x ("retries", JInt z)
  = Ok {| t_ID := t_ID x; t_Type := t_Type x; t_Payload := t_Payload x; t_Retries := z; t_CreatedAt := t_CreatedAt x |}.
Proof.
  intros Hz. unfold set_member. cbn [fst snd].
  assert (find_field "retries" Task_fields = Task_fields !! 3) as -> by reflexivity.
  cbn [Task_fields lookup list_lookup snd]. unfold on_task, unmarshal_int. by rewrite decide_True.
Qed.
Lemma task_texts x a b t :
  set_member Task_fields x ("id", JString a)
  = Ok {| t_ID := a; t_Type := t_Type x; t_Payload := t_Payload x; t_Retries := t_Retries x; t_CreatedAt := t_CreatedAt x |}
  ∧ set_member Task_fields x ("type", JString b)
  = Ok {| t_ID := t_ID x; t_Type := b; t_Payload := t_Payload x; t_Retries := t_Retries x; t_CreatedAt := t_CreatedAt x |}
  ∧ set_member Task_fields x ("created_at", JTime t)
  = Ok {| t_ID := t_ID x; t_Type := t_Type x; t_Payload := t_Payload x; t_Retries := t_Retries x; t_CreatedAt := t |}.
Proof. by split_and!. Qed.

(** a task survives the queue: what the handler gets is the task that was published, for times
    RFC 3339 can express and UTF-8 texts, and the delivery is acknowledged exactly when the handler
    returns no error; a failed task goes back to the queue unchanged, its retry count included, and
    only a body that is not a task is discarded. *)
Theorem task_roundtrip {W} (t : Task) (j : json) (handler : Task → prog W (option error)) (w : W) :
  marshal_Task t = Ok j → valid_utf8 (t_ID t) → valid_utf8 (t_Type t) → int64_range (t_Retries t) →
  process handler (Some j) w
  = (let! err := handler t in match err with Some _ => pret Requeued | None => pret Acked end) w.
Proof.
  intros Hj Hi Ht Hr. enough (unmarshal_Task (Some j) = Ok t) as E by (unfold process; by rewrite E).
  destruct t as [id ty pay re cr]. cbn [t_ID t_Type t_Retries] in Hi, Ht, Hr.
  unfold marshal_Task in Hj. cbn [t_ID t_Type t_Payload t_Retries t_CreatedAt] in Hj.
  unfold marshal_time in Hj. destruct (_ && _); [|done]. injection Hj as <-.
  unfold unmarshal_Task, unmarshal_struct, marshal_string. rewrite Hi, Ht. cbn [set_members].
  rewrite (proj1 (task_texts _ id ty cr)), (proj1 (proj2 (task_texts _ id ty cr))), task_payload, task_retries by done.
  by rewrite (proj2 (proj2 (task_texts _ id ty cr))).
Qed.
End Consume.

(** ** consumer.go: the goroutines *)

Section Machine.
Context {D : Type}.
(** A worker waits in its select, processes a delivery, or has returned; a delivery is not [live]
    once the connection it came on is lost, and settling it then has no effect. *)
Inductive worker := Idle | Busy (d : D) (live : bool) | Gone.
(** [ready] is the queue of the broker, [buffer] what it has sent and no worker has taken; the
    channel is [open_] until the connection is lost or [Start] returns. *)
Record consumer := {
  ready : list D; buffer : list D; ws : list worker; open_ : bool; cancelled : bool;
  acked : list D; discarded : list D; returned : bool
}.
Definition start (queued : list D) (n : nat) : consumer :=
  {| ready := queued; buffer := []; ws := replicate n Idle; open_ := true; cancelled := false;
     acked := []; discarded := []; returned := false |}.
Inductive move :=
| Published (d : D) | Push | Take (i : nat) | Settle (i : nat) (r : settlement) | Quit (i : nat)
| Lose | CancelCtx | Return.

Definition live_of (w : worker) : list D := match w with Busy d true => [d] | _ => [] end.
Definition in_flight (ws : list worker) : list D := ws ≫= live_of.
Definition disconnect (w : worker) : worker := match w with Busy d _ => Busy d false | w => w end.
Definition is_gone (w : worker) : bool := match w with Gone => true | _ => false end.

Definition take_one (i : nat) (d : D) (b : list D) (s : consumer) : consumer :=
  {| ready := ready s; buffer := b; ws := <[i := Busy d true]> (ws s); open_ := open_ s; cancelled := cancelled s;
     acked := acked s; discarded := discarded s; returned := returned s |}.
Definition settle (i : nat) (d : D) (live : bool) (r : settlement) (s : consumer) : consumer :=
  {| ready := ready s ++ (if live then match r with Requeued => [d] | _ => [] end else []);
     buffer := buffer s; ws := <[i := Idle]> (ws s); open_ := open_ s; cancelled := cancelled s;
     acked := acked s ++ (if live then match r with Acked => [d] | _ => [] end else []);
     discarded := discarded s ++ (if live then match r with Discarded => [d] | _ => [] end else []);
     returned := returned s |}.
(** What the broker does when the channel is gone. *)
Definition drop_channel (ret : bool) (s : consumer) : consumer :=
  {| ready := ready s ++ buffer s ++ in_flight (ws s); buffer := []; ws := map disconnect (ws s); open_ := false;
     cancelled := cancelled s; acked := acked s; discarded := discarded s; returned := ret |}.

(** A move that is not possible changes nothing.  [prefetch] bounds what the channel has not
    acknowledged. *)
Definition step (prefetch : nat) (s : consumer) (m : move) : consumer :=
  match m with
  | Published d =>
      {| ready := ready s ++ [d]; buffer := buffer s; ws := ws s; open_ := open_ s; cancelled := cancelled s;
         acked := acked s; discarded := discarded s; returned := returned s |}
  | Push =>
      match ready s with
      | d :: rest =>
          if open_ s && negb (cancelled s) && (length (buffer s) + length (in_flight (ws s)) <? prefetch)
          then {| ready := rest; buffer := buffer s ++ [d]; ws := ws s; open_ := open_ s; cancelled := cancelled s;
                  acked := acked s; discarded := discarded s; returned := returned s |}
          else s
      | [] => s
      end
  | Take i =>
      match ws s !! i, buffer s with
      | Some Idle, d :: rest => take_one i d rest s
      | _, _ => s
      end
  | Settle i r => match ws s !! i with Some (Busy d live) => settle i d live r s | _ => s end
  | Quit i =>
      match ws s !! i with
      | Some Idle =>
          if cancelled s || negb (open_ s)
          then {| ready := ready s; buffer := buffer s; ws := <[i := Gone]> (ws s); open_ := open_ s;
                  cancelled := cancelled s; acked := acked s; discarded := discarded s; returned := returned s |}
          else s
      | _ => s
      end
  | Lose => if open_ s then drop_channel (returned s) s else s
  | CancelCtx =>
      {| ready := ready s; buffer := buffer s; ws := ws s; open_ := open_ s; cancelled := true;
         acked := acked s; discarded := discarded s; returned := returned s |}
  | Return => if cancelled s && forallb is_gone (ws s) then drop_channel true s else s
  end.
Definition consume (prefetch : nat) (s : consumer) (ms : list move) : consumer := foldl (step prefetch) s ms.

Definition published (m : move) : list D := match m with Published d => [d] | _ => [] end.
Definition everywhere (s : consumer) : list D :=
  ready s ++ buffer s ++ in_flight (ws s) ++ acked s ++ discarded s.

Lemma in_flight_insert i x (l : list worker) :
  l !! i = Some x → ∃ a b, in_flight l = a ++ live_of x ++ b ∧ ∀ y, in_flight (<[i := y]> l) = a ++ live_of y ++ b.
Proof.
  intros Hi. exists (in_flight (take i l)), (in_flight (drop (S i) l)). unfold in_flight. split.
  - rewrite <- (take_drop_middle l i x Hi) at 1. by rewrite bind_app, bind_cons.
  - intros y. rewrite insert_take_drop by by eapply lookup_lt_Some. by rewrite bind_app, bind_cons.
Qed.
Lemma in_flight_disconnect l : in_flight (map disconnect l) = [].
Proof. induction l as [|[|d b|] l IH]; [done|by cbn..]. Qed.

(** Nothing is unacknowledged once the channel is gone. *)
Definition consumer_ok (prefetch : nat) (s : consumer) : Prop :=
  length (buffer s) + length (in_flight (ws s)) ≤ prefetch
  ∧ (open_ s = false → buffer s = [] ∧ in_flight (ws s) = []).

Lemma step_conserves p s m : everywhere (step p s m) ≡ₚ everywhere s ++ published m.
Proof.
  unfold everywhere. destruct m as [d| |i|i r|i| | |]; cbn [step published]; rewrite ?app_nil_r.
  - cbn. solve_Permutation.
  - destruct (ready s) as [|d rest] eqn:Er; [by rewrite Er|]. case_match; [cbn|by rewrite Er]. solve_Permutation.
  - destruct (ws s !! i) as [[| |]|] eqn:Ei; try done. destruct (buffer s) as [|d rest] eqn:Eb; [by rewrite Eb|].
    destruct (in_flight_insert i Idle _ Ei) as (a & b & Ha & Hins). cbn. rewrite Hins, Ha. cbn. solve_Permutation.
  - destruct (ws s !! i) as [[|d live|]|] eqn:Ei; try done.
    destruct (in_flight_insert i _ _ Ei) as (a & b & Ha & Hins). cbn. rewrite Hins, Ha.
    destruct live, r; cbn; rewrite ?app_nil_r; solve_Permutation.
  - destruct (ws s !! i) as [[| |]|] eqn:Ei; try done. case_match; [|done].
    destruct (in_flight_insert i Idle _ Ei) as (a & b & Ha & Hins). cbn. by rewrite Hins, Ha.
  - case_match; [|done]. cbn. rewrite in_flight_disconnect. cbn. solve_Permutation.
  - done.
  - case_match; [|done]. cbn. rewrite in_flight_disconnect. cbn. solve_Permutation.
Qed.

Lemma step_ok p s m : consumer_ok p s → consumer_ok p (step p s m).
Proof.
  intros [Hb Hc]. destruct m as [d| |i|i r|i| | |]; cbn [step]; try by split.
  - destruct (ready s) as [|d rest]; [by split|].
    destruct (open_ s) eqn:Eo; cbn [andb]; [|by split; rewrite ?Eo]. case_match; [|by split; rewrite ?Eo].
    apply andb_true_iff in H as [_ Hlt%Nat.ltb_lt]. split; cbn [buffer ws open_]; [rewrite length_app; cbn [length]; lia|done].
  - destruct (ws s !! i) as [[| |]|] eqn:Ei; try by split. destruct (buffer s) as [|d rest] eqn:Eb; [by split; rewrite ?Eb|].
    destruct (in_flight_insert i Idle _ Ei) as (a & b & Ha & Hins). rewrite Ha in *.
    split; cbn; rewrite Hins; [cbn in Hb; rewrite !length_app in *; cbn in *; lia|].
    intros Ho. by destruct (Hc Ho).
  - destruct (ws s !! i) as [[|d live|]|] eqn:Ei; try by split.
    destruct (in_flight_insert i _ _ Ei) as (a & b & Ha & Hins). rewrite Ha in *.
    split; cbn; rewrite Hins; [rewrite !length_app in *; cbn in *; lia|].
    intros Ho. destruct (Hc Ho) as [-> Hn]. apply app_eq_nil in Hn as [-> Hn]. by apply app_eq_nil in Hn as [_ ->].
  - destruct (ws s !! i) as [[| |]|] eqn:Ei; try by split. case_match; [|by split].
    destruct (in_flight_insert i Idle _ Ei) as (a & b & Ha & Hins). split; cbn; rewrite Hins; by rewrite Ha in *.
  - destruct (open_ s) eqn:Eo; [|split; [done|by rewrite Eo]].
    split; cbn; rewrite in_flight_disconnect; [cbn; lia|done].
  - case_match; [|by split]. split; cbn; rewrite in_flight_disconnect; [cbn; lia|done].
Qed.

Lemma consume_ok p queued n ms :
  consumer_ok p (consume p (start queued n) ms)
  ∧ everywhere (consume p (start queued n) ms) ≡ₚ queued ++ (ms ≫= published).
Proof.
  unfold consume. induction ms as [|m ms IH] using rev_ind.
  - assert (∀ k, in_flight (replicate k Idle) = []) as Hn by (intros k; by induction k).
    split; [split; cbn; rewrite Hn; [cbn; lia|done]|]. unfold everywhere. cbn. by rewrite Hn, !app_nil_r.
  - destruct IH as [Hok He]. rewrite foldl_app, bind_app. cbn [foldl]. split; [by apply step_ok|].
    rewrite step_conserves, He, bind_cons. cbn. by rewrite app_nil_r, app_assoc.
Qed.


(** Nothing more is processed after the connection is lost. *)
Definition stalled (s s' : consumer) : Prop :=
  acked s' = acked s ∧ discarded s' = discarded s ∧ returned s' = returned s ∧ open_ s' = false
  ∧ cancelled s' = false ∧ ready s `prefix_of` ready s'.
Lemma step_stalled p s m :
  consumer_ok p s → open_ s = false → cancelled s = false → m ≠ CancelCtx → stalled s (step p s m).
Proof.
  intros [_ Hn] Ho Hc Hm. destruct (Hn Ho) as [Hb Hf]. unfold stalled.
  destruct m as [d| |i|i r|i| | |]; cbn [step]; rewrite ?Ho, ?Hc; cbn [andb orb negb]; try (split_and!; done).
  - cbn. split_and!; try done. by eexists.
  - destruct (ready s) eqn:Er; split_and!; try done; by rewrite Er.
  - destruct (ws s !! i) as [[| |]|]; rewrite ?Hb; by split_and!.
  - destruct (ws s !! i) as [[|d live|]|] eqn:Ei; try by split_and!.
    destruct (in_flight_insert i _ _ Ei) as (a & b & Ha & _). rewrite Ha in Hf.
    destruct live; [destruct a; done|]. cbn. rewrite !app_nil_r. by split_and!.
  - destruct (ws s !! i) as [[| |]|]; by split_and!.
Qed.

(** a consumer whose connection is lost is dead while it looks alive: from then on, until its
    context is cancelled, no task is settled and [Start] does not return, so nothing connects
    again; the tasks stay in the queue. *)
Theorem lost_connection_stalls (p n : nat) (queued : list D) (ms ms' : list move) :
  let s := consume p (start queued n) ms in
  open_ s = false → cancelled s = false → CancelCtx ∉ ms' → stalled s (consume p s ms').
Proof.
  cbv zeta. destruct (consume_ok p queued n ms) as [Hok _]. generalize dependent (consume p (start queued n) ms).
  intros s Hok Ho Hc. induction ms' as [|m ms' IH] using rev_ind; intros Hm; [by split_and!|].
  destruct IH as (H1 & H2 & H3 & H4 & H5 & H6); [set_solver|]. unfold consume in *. rewrite foldl_app. cbn [foldl].
  assert (consumer_ok p (foldl (step p) s ms')) as Hok'.
  { clear -Hok. induction ms' as [|m ms' IH] using rev_ind; [done|]. rewrite foldl_app. by apply step_ok. }
  destruct (step_stalled p _ m Hok' H4 H5 ltac:(set_solver)) as (G1 & G2 & G3 & G4 & G5 & G6).
  unfold stalled. split_and!; try congruence. by etrans.
Qed.
End Machine.

(** ** Connecting *)

Section Retries.
Context {Cn Ch W : Type} `{!Amqp Cn Ch W}.
(** [dials] counts the calls of [Dial], [slept] the time in [Sleep]. *)
Context (dials : W → nat) (slept : W → list Z).
Hypothesis Dial_counts : ∀ u w, dials (Dial u w).2 = S (dials w) ∧ slept (Dial u w).2 = slept w
  ∧ ∃ r, (Dial u w).1 = Returns r.
Hypothesis Sleep_adds : ∀ d w, ∃ w', Sleep d w = (Returns (), w') ∧ dials w' = dials w ∧ slept w' = slept w ++ [d].

(** A connection is tried at most [maxRetries] times, exactly so often when it fails, with a pause
    after each failure, the last one included. *)
Lemma connect_loop_spec ac n i lastErr w :
  ∃ e ac' w' k, connect_loop ac n i lastErr w = (Returns (e, ac'), w')
    ∧ k ≤ n ∧ slept w' = slept w ++ map backoff (seq i k)
    ∧ match e with
      | None => is_Some (conn ac') ∧ dials w' = dials w + S k ∧ k < n
      | Some _ => ac' = ac ∧ dials w' = dials w + n ∧ k = n
      end.
Proof using Dial_counts Sleep_adds.
  revert i lastErr w. induction n as [|n IH]; intros i lastErr w; cbn [connect_loop].
  { eexists _, _, _, 0. split; [done|]. split_and!; [lia|by rewrite app_nil_r|done|lia|done]. }
  destruct (Dial_counts (uri ac) w) as (Hd & Hs & r & Hr). unfold pbind. destruct (Dial (uri ac) w) as [o w1].
  cbn in Hd, Hs, Hr. subst o. destruct r as [c|err].
  - eexists _, _, _, 0. split; [done|]. split_and!; [lia|by rewrite Hs, app_nil_r|by eexists|lia|lia].
  - destruct (Sleep_adds (backoff i) w1) as (w2 & -> & Hd2 & Hs2).
    destruct (IH (S i) (Some err) w2) as (e & ac' & w' & k & -> & Hk & Hs' & He).
    exists e, ac', w', (S k). split; [done|]. split_and!; [lia| |].
    + rewrite Hs', Hs2, Hs, <- app_assoc. done.
    + destruct e; [destruct He as (-> & He & ->); split_and!; [done|lia|done]|].
      destruct He as (Hc & He & Hk'). split_and!; [done|lia|lia].
Qed.

(** The pauses double exactly from one second on; the one of the 35th attempt overflows and is
    no pause. *)
Lemma backoff_seconds i : i ≤ 33 → backoff i = (2 ^ Z.of_nat i * 10 ^ 9)%Z.
Proof.
  intros Hi. unfold backoff. destruct (Pow_two (Z.of_nat i)) as (m & e & -> & Hv); [lia|].
  assert (Hp : (0 < 2 ^ Z.of_nat i ≤ 2 ^ 33)%Z) by (split; [lia|apply Z.pow_le_mono_r; lia]).
  assert (to_int64 (Finite m e) = 2 ^ Z.of_nat i)%Z as ->; [|apply wrap64_id; unfold int64_range; lia].
  assert (2 ^ Z.of_nat i ≤ to_int64 (Finite m e) ≤ 2 ^ Z.of_nat i)%Z; [|lia].
  rewrite (dy_common 1 (Z.of_nat i) 0), Z.mul_1_l, Z.sub_0_r in Hv by lia.
  apply to_int64_between; [lia|lia|rewrite Hv; apply Qle_refl..].
Qed.

Example backoff_overflows_35th : (backoff 34 < 0)%Z.
Proof. by vm_compute. Qed.
End Retries.

(** ** Witnesses *)

Example task_roundtrip_witness :
  process (W := list Task) (λ _, EmptyString) (λ t w, (Returns None, w ++ [t]))
    (Some (JObject [("id", JString "t-1"); ("type", JString "mail"); ("payload", JString (base64_EncodeToString "hello"));
                    ("retries", JInt 0); ("created_at", JTime 1700000000000000000)])) []
  = (Returns Acked, [NewTask "t-1" 1700000000000000000 "mail" "hello"]).
Proof.
  refine (eq_trans (task_roundtrip (W := list Task) (λ _, EmptyString) (NewTask "t-1" 1700000000000000000 "mail" "hello") _
    (λ t w, (Returns None, w ++ [t])) [] _ _ _ _) eq_refl); [reflexivity|reflexivity|reflexivity|].
  split; [discriminate|reflexivity].
Defined.

(** Two workers; the connection is lost while one of them works. *)
Example lost_connection_stalls_witness :
  let s := consume 10 (start [1; 2; 3] 2) [Push; Push; Take 0; Lose] in
  stalled s (consume 10 s [Settle 0 Acked; Quit 0; Quit 1; Published 4; Push; Return])
  ∧ ready s = [3; 2; 1].
Proof.
  split; [|reflexivity].
  apply (lost_connection_stalls 10 2 [1; 2; 3] [Push; Push; Take 0; Lose]); [reflexivity|reflexivity|].
  intros Hin. apply list_elem_of_In in Hin. repeat (destruct Hin as [Hin|Hin]; [discriminate Hin|]). exact Hin.
Defined.
