(* ===== verification/Http.v ===== *)
(** * HTTP and gRPC middleware, readiness

    [Http.v] models the global middleware of infra/middleware/http (recovery, security headers,
    request id, logging, metrics, load shedding, timeout, CORS, per-client rate limit, API
    keys, error handler) with the chain that composes them (chain.go), the interceptors of
    infra/middleware/grpc with theirs, and of infra/http the response helpers, the readiness
    endpoint and the asynchronous command endpoint.

    Of gin the model has the context, the response writer and [c.Next], which is the argument
    [next].  Calls to zap and Prometheus are recorded in the world in the order they are made.
    The tracing middleware and gin-contrib/cors are arguments of the chain.  A request is one
    step for the others, except in the section on load shedding. *)

From S2P Require Import Prelude Errors GoText Event RateLimit Config Json EventStream.
Local Open Scope go_scope.

(** ** The request and the response *)

(** The bodies of infra/http: response.go, readiness.go, async.go. *)
Record ErrorResponse := {
  er_Type : string; er_Status : Z; er_Code : string; er_Message : string;
  er_Instance : string; er_RequestID : string
}.
Record checkResult := { cr_Status : string; cr_Error : string }.
Record readinessResponse := { rr_Status : string; rr_Checks : gmap string checkResult }.
Record AsyncResponse := { ar_RequestID : string; ar_Status : string; ar_StatusURL : string }.
(** The envelope of httputil. *)
Record Response := { rs_Data : option json; rs_Error : option json }.
Inductive body :=
| ErrorBody (e : ErrorResponse)
| EnvelopeBody (r : Response)
| ReadinessBody (r : readinessResponse)
| AsyncBody (a : AsyncResponse)
| OtherBody (text : string).

Record request := {
  rq_Method : string; rq_Path : string; rq_FullPath : string; rq_ClientIP : string;
  rq_headers : gmap string string
}.
(** [headers] are the ones sent: a header set after the first body is not. *)
Record writer := { Status : Z; Written : bool; headers : gmap string string; bodies : list body }.
(** [g_keys] are the string values of [c.Set], [g_ctx] those of the request's context. *)
Record gin := {
  g_request : request; g_keys : gmap string string; g_ctx : gmap string string;
  g_deadline : option time; g_cancelled : bool; g_errors : list error;
  g_writer : writer; g_aborted : bool
}.

Definition with_writer (f : writer → writer) (g : gin) : gin :=
  {| g_request := g_request g; g_keys := g_keys g; g_ctx := g_ctx g; g_deadline := g_deadline g;
     g_cancelled := g_cancelled g; g_errors := g_errors g; g_writer := f (g_writer g); g_aborted := g_aborted g |}.
Definition with_context (ctx : gmap string string) (d : option time) (c : bool) (g : gin) : gin :=
  {| g_request := g_request g; g_keys := g_keys g; g_ctx := ctx; g_deadline := d; g_cancelled := c;
     g_errors := g_errors g; g_writer := g_writer g; g_aborted := g_aborted g |}.
Definition GetHeader (k : string) (g : gin) : string := default "" (rq_headers (g_request g) !! k).
(** [c.Header]: an empty value removes the header. *)
Definition Header (k v : string) (g : gin) : gin := with_writer (λ w,
  if Written w then w
  else {| Status := Status w; Written := false; bodies := bodies w;
          headers := if (v =? "")%string then delete k (headers w) else <[k := v]> (headers w) |}) g.
Definition Set_ (k v : string) (g : gin) : gin :=
  {| g_request := g_request g; g_keys := <[k := v]> (g_keys g); g_ctx := g_ctx g; g_deadline := g_deadline g;
     g_cancelled := g_cancelled g; g_errors := g_errors g; g_writer := g_writer g; g_aborted := g_aborted g |}.
(** [c.JSON]: a status can only be set before the first body. *)
Definition write_json (status : Z) (b : body) (g : gin) : gin := with_writer (λ w,
  {| Status := if Written w then Status w else status; Written := true; headers := headers w;
     bodies := bodies w ++ [b] |}) g.
Definition AbortWithStatusJSON (status : Z) (b : body) (g : gin) : gin :=
  let g := write_json status b g in
  {| g_request := g_request g; g_keys := g_keys g; g_ctx := g_ctx g; g_deadline := g_deadline g;
     g_cancelled := g_cancelled g; g_errors := g_errors g; g_writer := g_writer g; g_aborted := true |}.

(** ** infra/http/response.go *)

Definition newErrorResponse (status : Z) (code message : string) : ErrorResponse :=
  {| er_Type := ErrorTypeURI code; er_Status := status; er_Code := code; er_Message := message;
     er_Instance := EmptyString; er_RequestID := EmptyString |}.
Definition AbortWithError (status : Z) (code message : string) (g : gin) : gin :=
  let resp := newErrorResponse status code message in
  AbortWithStatusJSON status
    (ErrorBody {| er_Type := er_Type resp; er_Status := er_Status resp; er_Code := er_Code resp;
                  er_Message := er_Message resp; er_Instance := rq_Path (g_request g);
                  er_RequestID := default "" (g_keys g !! "request_id") |}) g.
Definition AbortUnauthorized (message : string) : gin → gin := AbortWithError 401 ErrUnauthorized message.
Definition AbortForbidden (message : string) : gin → gin := AbortWithError 403 ErrForbidden message.
Definition AbortTooManyRequests (message : string) (g : gin) : gin :=
  AbortWithError 429 ErrRateLimited message (Header "Retry-After" "1" g).
Definition AbortServiceUnavailable (message : string) (g : gin) : gin :=
  AbortWithError 503 ErrUnavailable message (Header "Retry-After" "1" g).
Definition AbortInternalError (message : string) : gin → gin := AbortWithError 500 ErrInternal message.
Definition AbortBadRequest (message : string) : gin → gin := AbortWithError 400 ErrValidation message.
Definition JSON (status : Z) (data : body) : gin → gin := write_json status data.
Definition Accepted (data : body) : gin → gin := write_json 202 data.

(** The helpers by their calls. *)
Inductive platform_reply :=
| Unauthorized (message : string) | Forbidden (message : string) | TooManyRequests (message : string)
| ServiceUnavailable (message : string) | InternalError (message : string) | BadRequest (message : string)
| Json (status : Z) (data : body) | Async (data : body).
Definition reply (r : platform_reply) : gin → gin :=
  match r with
  | Unauthorized message => AbortUnauthorized message
  | Forbidden message => AbortForbidden message
  | TooManyRequests message => AbortTooManyRequests message
  | ServiceUnavailable message => AbortServiceUnavailable message
  | InternalError message => AbortInternalError message
  | BadRequest message => AbortBadRequest message
  | Json status data => JSON status data
  | Async data => Accepted data
  end.
(** The code and message of a reply that aborts. *)
Definition abort_code (r : platform_reply) : option (string * string) :=
  match r with
  | Unauthorized m => Some (ErrUnauthorized, m) | Forbidden m => Some (ErrForbidden, m)
  | TooManyRequests m => Some (ErrRateLimited, m) | ServiceUnavailable m => Some (ErrUnavailable, m)
  | InternalError m => Some (ErrInternal, m) | BadRequest m => Some (ErrValidation, m)
  | Json _ _ | Async _ => None
  end.

(** an aborting helper stops the chain and sends one problem body, with the status of its code,
    the path and the request identifier; the others leave the chain running. *)
Theorem reply_aborts (r : platform_reply) (g : gin) :
  Written (g_writer g) = false →
  let g' := reply r g in
  match abort_code r with
  | Some (code, message) =>
      g_aborted g' = true ∧ Status (g_writer g') = CodeToStatus code
      ∧ bodies (g_writer g') = bodies (g_writer g)
          ++ [ErrorBody {| er_Type := ErrorTypeURI code; er_Status := CodeToStatus code; er_Code := code;
                           er_Message := message; er_Instance := rq_Path (g_request g);
                           er_RequestID := default "" (g_keys g !! "request_id") |}]
  | None => g_aborted g' = g_aborted g ∧ ∃ b, bodies (g_writer g') = bodies (g_writer g) ++ [b]
  end.
Proof.
  intros Hw. destruct r; cbn [reply abort_code];
    unfold AbortUnauthorized, AbortForbidden, AbortTooManyRequests, AbortServiceUnavailable, AbortInternalError,
      AbortBadRequest, AbortWithError, JSON, Accepted, AbortWithStatusJSON, write_json, with_writer, Header;
    cbn; rewrite ?Hw; cbn; eauto.
Qed.

(** ** The world *)

Inductive level := DebugLevel | InfoLevel | WarnLevel | ErrorLevel.
Record log := { lg_level : level; lg_message : string; lg_fields : list (string * string) }.
(** The calls on the collectors. *)
Inductive metric :=
| InFlightInc
| InFlightDec
| HTTPRequestTotal (method path status : string)
| HTTPRequestDuration (method path status : string) (elapsed : Z)
| GRPCRequestTotal (method code : string)
| GRPCRequestDuration (method code : string) (elapsed : Z).

(** rate_limit.go *)
Record clientEntry (L : Type) := { ce_limiter : L; ce_lastSeen : time }.
Arguments ce_limiter {L} _.
Arguments ce_lastSeen {L} _.
Record PerIPRateLimiter (L : Type) := {
  clients : gmap string (clientEntry L); pl_limit : Z; pl_burst : Z; maxClients : nat
}.
Arguments clients {L} _.
Arguments pl_limit {L} _.
Arguments pl_burst {L} _.
Arguments maxClients {L} _.

(** [w_ids] counts the generated identifiers, [w_inflight] is the counter of the load shedder,
    [w_limiter] the limiter by client, [w_app] the state of the application. *)
Record world (L A : Type) := {
  w_now : time; w_ids : nat; w_inflight : Z; w_limiter : PerIPRateLimiter L;
  w_logs : list log; w_metrics : list metric; w_app : A
}.
Arguments w_now {L A} _.
Arguments w_ids {L A} _.
Arguments w_inflight {L A} _.
Arguments w_limiter {L A} _.
Arguments w_logs {L A} _.
Arguments w_metrics {L A} _.
Arguments w_app {L A} _.

Section Middleware.
Context {L A : Type} `{!Limiter L}.
Notation world := (world L A).
Notation state := (gin * world)%type.

(** A handler, and a middleware around the rest of the chain. *)
Definition HandlerFunc : Type := prog state unit.
Definition Middleware : Type := HandlerFunc → HandlerFunc.

Definition on_gin (f : gin → gin) : HandlerFunc := λ s, (Returns (), (f s.1, s.2)).
Definition on_world (f : world → world) : HandlerFunc := λ s, (Returns (), (s.1, f s.2)).
Definition add_log (l : log) (w : world) : world :=
  {| w_now := w_now w; w_ids := w_ids w; w_inflight := w_inflight w; w_limiter := w_limiter w;
     w_logs := w_logs w ++ [l]; w_metrics := w_metrics w; w_app := w_app w |}.
Definition add_metric (m : metric) (w : world) : world :=
  {| w_now := w_now w; w_ids := w_ids w; w_inflight := w_inflight w; w_limiter := w_limiter w;
     w_logs := w_logs w; w_metrics := w_metrics w ++ [m]; w_app := w_app w |}.
Definition set_limiter (rl : PerIPRateLimiter L) (w : world) : world :=
  {| w_now := w_now w; w_ids := w_ids w; w_inflight := w_inflight w; w_limiter := rl;
     w_logs := w_logs w; w_metrics := w_metrics w; w_app := w_app w |}.
Definition inflight_Add (d : Z) (w : world) : world :=
  {| w_now := w_now w; w_ids := w_ids w; w_inflight := wrap64 (w_inflight w + d); w_limiter := w_limiter w;
     w_logs := w_logs w; w_metrics := w_metrics w; w_app := w_app w |}.
Definition next_id (w : world) : world :=
  {| w_now := w_now w; w_ids := S (w_ids w); w_inflight := w_inflight w; w_limiter := w_limiter w;
     w_logs := w_logs w; w_metrics := w_metrics w; w_app := w_app w |}.
(** A deferred call: it runs when the function returns and when it panics. *)
Definition deferred (f : state → state) (h : HandlerFunc) : HandlerFunc := λ s,
  match h s with (Hangs, s) => (Hangs, s) | (r, s) => (r, f s) end.

(** ** recovery.go *)

Definition Recovery : Middleware := λ next s,
  match next s with
  | (Panics p, (g, w)) =>
      (Returns (),
       (AbortInternalError "an unexpected error occurred" g,
        add_log {| lg_level := ErrorLevel; lg_message := "http: panic recovered";
                   lg_fields := [("panic", p); ("method", rq_Method (g_request g)); ("path", rq_Path (g_request g))] |} w))
  | r => r
  end.

(** ** security_headers.go *)

Definition Header_if (b : bool) (k v : string) (g : gin) : gin := if b then Header k v g else g.
Definition security_headers (cfg : SecurityHeadersConfig) (g : gin) : gin :=
  let maxAge := if (HSTSMaxAge cfg <=? 0)%Z then 31536000%Z else HSTSMaxAge cfg in
  let referrer := if (ReferrerPolicy cfg =? "")%string then "strict-origin-when-cross-origin" else ReferrerPolicy cfg in
  let hstsValue := "max-age=" +:+ pretty maxAge +:+ "; includeSubDomains" in
  let g := Header_if (HSTS cfg) "Strict-Transport-Security" hstsValue g in
  let g := Header_if (ContentTypeNosniff cfg) "X-Content-Type-Options" "nosniff" g in
  let g := Header_if (FrameDeny cfg) "X-Frame-Options" "DENY" g in
  let g := Header_if (XSSProtection cfg) "X-XSS-Protection" "1; mode=block" g in
  let g := Header_if (negb (ContentSecurityPolicy cfg =? "")%string) "Content-Security-Policy" (ContentSecurityPolicy cfg) g in
  Header "Referrer-Policy" referrer g.
Definition SecurityHeaders (cfg : SecurityHeadersConfig) : Middleware := λ next,
  if SH_Enabled cfg then let! _ := on_gin (security_headers cfg) in next else next.

(** ** request_id.go; [uuid n] is the [n]-th generated identifier. *)

Context (uuid : nat → string).
Definition requestIDHeader : string := "X-Request-ID".
Definition requestIDKey : string := "request_id".
Definition RequestID : Middleware := λ next s,
  let rid := GetHeader requestIDHeader s.1 in
  let '(rid, w) := if (rid =? "")%string then (uuid (w_ids s.2), next_id s.2) else (rid, s.2) in
  let g := Header requestIDHeader rid (Set_ requestIDKey rid s.1) in
  next (with_context (<["request_id" := rid]> (g_ctx g)) (g_deadline g) (g_cancelled g) g, w).

(** ** logging.go *)

Definition field (k : string) (v : option string) : list (string * string) :=
  match v with Some v => [(k, v)] | None => [] end.
Definition log_level (status : Z) : level :=
  if (500 <=? status)%Z then ErrorLevel else if (400 <=? status)%Z then WarnLevel else DebugLevel.
Definition Logging : Middleware := λ next s,
  let start := w_now s.2 in
  (let! _ := next in λ s,
   let '(g, w) := s in
   let status := Status (g_writer g) in
   on_world (add_log
     {| lg_level := log_level status; lg_message := "http request";
        lg_fields := [("method", rq_Method (g_request g)); ("path", rq_Path (g_request g)); ("status", pretty status);
                      ("latency", pretty (w_now w - start)%Z); ("client_ip", rq_ClientIP (g_request g))]
          ++ field "request_id" (g_keys g !! requestIDKey)
          ++ (if (default "" (g_ctx g !! "trace_id") =? "")%string then [] else field "trace_id" (g_ctx g !! "trace_id"))
          ++ field "user_id" (g_ctx g !! "user_id") |}) s) s.

(** ** metrics.go *)

(** The decrement follows [c.Next()]; it is not deferred. *)
Definition Metrics : Middleware := λ next s,
  (let! _ := on_world (add_metric InFlightInc) in
   let start := w_now s.2 in
   let! _ := next in
   let! _ := on_world (add_metric InFlightDec) in λ s,
   let '(g, w) := s in
   let status := pretty (Status (g_writer g)) in
   let method := rq_Method (g_request g) in
   let path := if (rq_FullPath (g_request g) =? "")%string then "unmatched" else rq_FullPath (g_request g) in
   let elapsed := (w_now w - start)%Z in
   (let! _ := on_world (add_metric (HTTPRequestTotal method path status)) in
    on_world (add_metric (HTTPRequestDuration method path status elapsed))) s) s.

(** ** load_shedder.go *)

Definition LoadShedder_Middleware (limit : Z) : Middleware := λ next,
  let! _ := on_world (inflight_Add 1) in λ s,
  let current := w_inflight s.2 in
  deferred (λ s, (s.1, inflight_Add (-1) s.2))
    (if (limit <? current)%Z then on_gin (AbortServiceUnavailable "server at capacity") else next) s.
Definition InFlight (w : world) : Z := w_inflight w.
Definition LoadShed (cfg : LoadShedConfig) : Middleware := λ next,
  if (MaxConcurrent cfg <=? 0)%Z then next else LoadShedder_Middleware (MaxConcurrent cfg) next.

(** ** timeout.go *)

(** The earlier of two deadlines counts; the context is cancelled when the chain is done. *)
Definition earlier (a : option time) (b : time) : option time :=
  Some (match a with Some a => Z.min a b | None => b end).
Definition Timeout (duration : Z) : Middleware := λ next s,
  let '(g, w) := s in
  deferred (λ s, (with_context (g_ctx s.1) (g_deadline s.1) true s.1, s.2)) next
    (with_context (g_ctx g) (earlier (g_deadline g) (w_now w + duration)) (g_cancelled g) g, w).

(** ** cors.go *)

(** What is handed to gin-contrib/cors. *)
Record cors_Config := {
  AllowOrigins : list string; AllowMethods : list string; AllowHeaders : list string;
  AllowCredentials : bool; MaxAge : Z
}.
Definition cors_config (cfg : CORSConfig) : outcome cors_Config :=
  let allowed := match CORS_AllowedOrigins cfg with [] => ["*"] | l => l end in
  if CORS_AllowCredentials cfg && existsb (λ o, (o =? "*")%string) allowed
  then Panics ("cors: AllowCredentials=true is incompatible with wildcard origin " +:+ Quote "*" +:+ "; list explicit origins instead")
  else Returns
    {| AllowOrigins := allowed;
       AllowMethods := match CORS_AllowedMethods cfg with
                       | [] => ["GET"; "POST"; "PUT"; "PATCH"; "DELETE"; "OPTIONS"] | l => l end;
       AllowHeaders := match CORS_AllowedHeaders cfg with
                       | [] => ["Origin"; "Content-Type"; "Accept"; "Authorization"; "X-Request-ID"] | l => l end;
       AllowCredentials := CORS_AllowCredentials cfg;
       MaxAge := wrap64 (CORS_MaxAge cfg * 10 ^ 9) |}.
(** [cors_New] is the library's constructor, which panics on a configuration it rejects. *)
Context (cors_New : cors_Config → outcome Middleware).
Definition CORS (cfg : CORSConfig) : outcome Middleware :=
  match cors_config cfg with Returns c => cors_New c | Panics msg => Panics msg | Hangs => Hangs end.

(** ** rate_limit.go *)

Definition defaultMaxClients : nat := Z.to_nat 100000.
Definition NewPerIPRateLimiter (rps burst : Z) : PerIPRateLimiter L :=
  {| clients := ∅; pl_limit := rps; pl_burst := burst; maxClients := defaultMaxClients |}.
Definition set_clients (m : gmap string (clientEntry L)) (rl : PerIPRateLimiter L) : PerIPRateLimiter L :=
  {| clients := m; pl_limit := pl_limit rl; pl_burst := pl_burst rl; maxClients := maxClients rl |}.
(** [first] is the key that the iteration of the map gives first. *)
Context (first : gmap string (clientEntry L) → option string).
Definition evictOne (rl : PerIPRateLimiter L) : PerIPRateLimiter L :=
  match first (clients rl) with Some ip => set_clients (delete ip (clients rl)) rl | None => rl end.
Definition getLimiter (now : time) (clientIP : string) (rl : PerIPRateLimiter L) : L * PerIPRateLimiter L :=
  match clients rl !! clientIP with
  | Some entry =>
      (ce_limiter entry,
       set_clients (<[clientIP := {| ce_limiter := ce_limiter entry; ce_lastSeen := now |}]> (clients rl)) rl)
  | None =>
      let rl := if decide (maxClients rl ≤ size (clients rl)) then evictOne rl else rl in
      let limiter := NewLimiter (pl_limit rl) (pl_burst rl) in
      (limiter, set_clients (<[clientIP := {| ce_limiter := limiter; ce_lastSeen := now |}]> (clients rl)) rl)
  end.
(** [getLimiter(clientIP).Allow()]: the map holds a pointer to the limiter that is charged. *)
Definition client_Allow (now : time) (clientIP : string) (rl : PerIPRateLimiter L) : bool * PerIPRateLimiter L :=
  let '(limiter, rl) := getLimiter now clientIP rl in
  let '(ok, limiter) := limiter_Allow now limiter in
  (ok, set_clients (<[clientIP := {| ce_limiter := limiter; ce_lastSeen := now |}]> (clients rl)) rl).
Definition PerIP_Middleware : Middleware := λ next s,
  let '(g, w) := s in
  let '(ok, rl) := client_Allow (w_now w) (rq_ClientIP (g_request g)) (w_limiter w) in
  (if ok : bool then next else on_gin (AbortTooManyRequests "rate limit exceeded")) (g, set_limiter rl w).
(** One tick of the loop. *)
Definition cleanupLoop (now : time) (rl : PerIPRateLimiter L) : PerIPRateLimiter L :=
  let cutoff := (now - 3 * 60 * 10 ^ 9)%Z in
  set_clients (filter (λ e, ¬ (ce_lastSeen e.2 < cutoff)%Z) (clients rl)) rl.

(** ** apikey.go *)

(** [Sum256] is SHA-256; the services are in the order of the iteration. *)
Context {Hash : Type} `{EqDecision Hash} (Sum256 : string → Hash).
Definition apiKeyServiceContextKey : string := "api_key_service".
Definition NewAPIKeyMiddleware (keys : list (string * string)) : list (string * Hash) :=
  map (λ k, (k.1, Sum256 k.2)) keys.
Fixpoint find_service (provided : Hash) (keyHashes : list (string * Hash)) : option string :=
  match keyHashes with
  | [] => None
  | (service, stored) :: rest => if decide (provided = stored) then Some service else find_service provided rest
  end.
Definition APIKey_Handler (keyHashes : list (string * Hash)) : Middleware := λ next s,
  let rawKey := GetHeader "X-API-Key" s.1 in
  if (rawKey =? "")%string then on_gin (AbortUnauthorized "X-API-Key header is required") s
  else match find_service (Sum256 rawKey) keyHashes with
       | Some service => (let! _ := on_gin (Set_ apiKeyServiceContextKey service) in next) s
       | None => on_gin (AbortUnauthorized "invalid API key") s
       end.

(** ** error_handler.go *)

Definition HandleError (err : option error) (g : gin) : gin :=
  match err with
  | None => g
  | Some err => let '(status, code, message) := mapError err in AbortWithError status code message g
  end.
Definition ErrorHandler : Middleware := λ next,
  let! _ := next in on_gin (λ g, HandleError (last (g_errors g)) g).

(** ** chain.go *)

Record ChainDeps := {
  cd_PerIPLimiter : bool; cd_LoadShed : LoadShedConfig; cd_Timeout : Z; cd_ServiceName : string;
  cd_SecurityHeaders : SecurityHeadersConfig; cd_CORS : CORSConfig
}.
(** [Tracing] is the middleware of otelgin. *)
Context (Tracing : string → Middleware).
Definition BuildChain (deps : ChainDeps) : outcome (list Middleware) :=
  match CORS (cd_CORS deps) with
  | Returns cors =>
      Returns ([Recovery]
        ++ (if SH_Enabled (cd_SecurityHeaders deps) then [SecurityHeaders (cd_SecurityHeaders deps)] else [])
        ++ [RequestID; Tracing (cd_ServiceName deps); Logging; Metrics]
        ++ (if (0 <? MaxConcurrent (cd_LoadShed deps))%Z then [LoadShed (cd_LoadShed deps)] else [])
        ++ (if (0 <? cd_Timeout deps)%Z then [Timeout (cd_Timeout deps)] else [])
        ++ [cors]
        ++ (if cd_PerIPLimiter deps then [PerIP_Middleware] else []))
  | Panics msg => Panics msg
  | Hangs => Hangs
  end.
(** gin runs the handlers of a chain in order, each around the rest. *)
Definition serve (chain : list Middleware) (handler : HandlerFunc) : HandlerFunc := foldr (λ mw h, mw h) handler chain.

(** ** infra/http/async.go *)

(** Binding, validation and encoding of the command type are arguments. *)
Definition AsyncCommand {S C} `{!Stream S world} (bind : gin → result error C) (validate : C → option error)
    (marshal : C → result error Json.RawMessage) (publisher : S) (subject : string) : HandlerFunc := λ s,
  let '(g, w) := s in
  match bind g with
  | Err err => on_gin (AbortBadRequest (Error err)) s
  | Ok cmd =>
      match validate cmd with
      | Some err => on_gin (AbortBadRequest (Error err)) s
      | None =>
          let requestID := uuid (w_ids w) in
          let w := next_id w in
          match marshal cmd with
          | Err _ => on_gin (AbortInternalError "failed to marshal command") (g, w)
          | Ok data =>
              let msg := {| rm_ID := requestID; rm_Name := subject; rm_Subject := subject; rm_Data := data;
                            rm_Headers := Some {["request_id" := requestID; "command_type" := subject]} |} in
              match stream_Publish publisher subject msg w with
              | (Returns (Some _), w) => on_gin (AbortInternalError "failed to submit command") (g, w)
              | (Returns None, w) =>
                  on_gin (Accepted (AsyncBody
                    {| ar_RequestID := requestID; ar_Status := "accepted";
                       ar_StatusURL := "/api/v1/commands/" +:+ requestID +:+ "/status" |})) (g, w)
              | (Panics p, w) => (Panics p, (g, w))
              | (Hangs, w) => (Hangs, (g, w))
              end
          end
      end
  end.

(** ** What the chain guarantees *)

Definition securityHeaderNames : list string :=
  ["Strict-Transport-Security"; "X-Content-Type-Options"; "X-Frame-Options"; "X-XSS-Protection";
   "Content-Security-Policy"; "Referrer-Policy"].
(** A handler that does not touch the security headers of the response, and a middleware that
    does not when the rest of the chain does not. *)
Definition sent (s : state) : gmap string string := headers (g_writer s.1).
Definition keeps (h : HandlerFunc) : Prop :=
  ∀ s k, k ∈ securityHeaderNames → sent (h s).2 !! k = sent s !! k.
Definition keeps_mw (mw : Middleware) : Prop := ∀ next, keeps next → keeps (mw next).

Lemma Header_other k k' v g :
  k ≠ k' → headers (g_writer (Header k' v g)) !! k = headers (g_writer g) !! k.
Proof.
  intros Hne. unfold Header. cbn. destruct (Written _); [done|]. cbn.
  destruct (v =? "")%string; [by rewrite lookup_delete_ne|by rewrite lookup_insert_ne].
Qed.
Lemma not_security k k' :
  k ∈ securityHeaderNames → bool_decide (k' ∈ securityHeaderNames) = false → k ≠ k'.
Proof. intros Hk Hk' ->. by apply bool_decide_eq_false in Hk'. Qed.
Lemma keeps_bind h (f : unit → HandlerFunc) : keeps h → (∀ u, keeps (f u)) → keeps (pbind h f).
Proof.
  intros Hh Hf s k Hk. unfold pbind. specialize (Hh s k Hk).
  destruct (h s) as [[u|p|] s1]; cbn in *; [|done..]. rewrite (Hf u s1 k Hk). done.
Qed.
Lemma keeps_world f : keeps (on_world f).
Proof. done. Qed.
Lemma keeps_deferred f h : (∀ s, sent (f s) = sent s) → keeps h → keeps (deferred f h).
Proof.
  intros Hf Hh s k Hk. unfold deferred. specialize (Hh s k Hk).
  destruct (h s) as [[u|p|] s1]; cbn in *; rewrite ?Hf; done.
Qed.
Lemma keeps_abort_later (f : string → gin → gin) m code status :
  (∀ g, f m g = AbortWithError status code m (Header "Retry-After" "1" g)) → keeps (on_gin (f m)).
Proof.
  intros Hf s k Hk. unfold sent. cbn [on_gin snd fst]. rewrite Hf.
  exact (Header_other k "Retry-After" "1" s.1 (not_security k "Retry-After" Hk eq_refl)).
Qed.

Lemma Recovery_keeps : keeps_mw Recovery.
Proof.
  intros next Hn s k Hk. unfold Recovery. specialize (Hn s k Hk).
  destruct (next s) as [[u|p|] [g w]]; done.
Qed.
Lemma RequestID_keeps : keeps_mw RequestID.
Proof.
  intros next Hn s k Hk. unfold RequestID.
  destruct (if (_ =? _)%string then _ else _) as [rid w]. rewrite (Hn _ k Hk).
  exact (Header_other k requestIDHeader rid _ (not_security k requestIDHeader Hk eq_refl)).
Qed.
Lemma Logging_keeps : keeps_mw Logging.
Proof. intros next Hn s. apply keeps_bind; [done|]. by intros _ [g w] k _. Qed.
Lemma Metrics_keeps : keeps_mw Metrics.
Proof.
  intros next Hn s. unfold Metrics. revert s. intros s0 k Hk.
  apply (keeps_bind (on_world (add_metric InFlightInc))); [apply keeps_world| |done]. intros _.
  apply keeps_bind; [done|]. intros _. apply keeps_bind; [apply keeps_world|]. by intros _ [g w] k' _.
Qed.
Lemma LoadShed_keeps cfg : keeps_mw (LoadShed cfg).
Proof.
  intros next Hn. unfold LoadShed. destruct (_ <=? 0)%Z; [done|].
  unfold LoadShedder_Middleware. apply keeps_bind; [apply keeps_world|]. intros _ s.
  apply keeps_deferred; [done|]. destruct (_ <? _)%Z; [|done].
  by apply (keeps_abort_later AbortServiceUnavailable _ ErrUnavailable 503).
Qed.
Lemma Timeout_keeps d : keeps_mw (Timeout d).
Proof.
  intros next Hn [g w] k Hk. unfold Timeout.
  match goal with |- sent (deferred ?f _ ?s).2 !! _ = _ => exact (keeps_deferred f next (λ _, eq_refl) Hn s k Hk) end.
Qed.
Lemma PerIP_keeps : keeps_mw PerIP_Middleware.
Proof.
  intros next Hn [g w] k Hk. unfold PerIP_Middleware. destruct (client_Allow _ _ _) as [[] rl].
  - by rewrite (Hn _ k Hk).
  - by rewrite (keeps_abort_later AbortTooManyRequests _ ErrRateLimited 429 (λ _, eq_refl) _ k Hk).
Qed.
Lemma serve_keeps chain handler : Forall keeps_mw chain → keeps handler → keeps (serve chain handler).
Proof. induction 1 as [|mw chain Hmw _ IH]; intros Hh; [done|]. apply Hmw, IH, Hh. Qed.

Lemma keeps_optional (b : bool) mw : keeps_mw mw → Forall keeps_mw (if b then [mw] else []).
Proof. destruct b; auto using Forall_nil_2, Forall_cons_2. Qed.


(** *** The gauge of requests in flight *)

(** Its value after the calls: increments less decrements. *)
Fixpoint gauge (l : list metric) : Z :=
  match l with
  | [] => 0
  | InFlightInc :: l => gauge l + 1
  | InFlightDec :: l => gauge l - 1
  | _ :: l => gauge l
  end%Z.
Lemma gauge_app l k : gauge (l ++ k) = (gauge l + gauge k)%Z.
Proof. induction l as [|[] l IH]; cbn in *; lia. Qed.

(** A request with its handler, which panics or returns as [crashes] says and leaves the gauge alone. *)
Record job := { crashes : bool; job_gin : gin; job_handler : HandlerFunc }.
Definition job_ok (j : job) : Prop := ∀ s,
  gauge (w_metrics (job_handler j s).2.2) = gauge (w_metrics s.2)
  ∧ if crashes j then ∃ p, (job_handler j s).1 = Panics p else (job_handler j s).1 = Returns ().
Definition run_job (w : world) (j : job) : world := (serve [Recovery; Metrics] (job_handler j) (job_gin j, w)).2.2.

Lemma run_job_gauge w j :
  job_ok j → gauge (w_metrics (run_job w j)) = (gauge (w_metrics w) + if crashes j then 1 else 0)%Z.
Proof.
  intros Hj. unfold run_job, serve, Recovery, Metrics, pbind, on_world. cbn [foldr fst snd].
  specialize (Hj (job_gin j, add_metric InFlightInc w)) as [Hg Hr]. cbn [snd] in Hg.
  change (w_metrics (add_metric InFlightInc w)) with (w_metrics w ++ [InFlightInc]) in Hg.
  rewrite gauge_app in Hg. cbn in Hg.
  destruct (job_handler j _) as [r [g w1]]. cbn in Hg, Hr. destruct (crashes j).
  - destruct Hr as [p ->]. cbn. lia.
  - rewrite Hr. cbn. rewrite !gauge_app. cbn. lia.
Qed.

(** each request that panics leaves the gauge of requests in flight one too high.  After any
    sequence of requests that have all been answered, the gauge exceeds its old value by the
    number of those whose handler panicked, because the decrement is not deferred. *)
Theorem inflight_gauge_leaks (w : world) (js : list job) :
  Forall job_ok js →
  gauge (w_metrics (foldl run_job w js)) = (gauge (w_metrics w) + Z.of_nat (length (filter (λ j, crashes j = true) js)))%Z.
Proof.
  intros Hjs. revert w. induction Hjs as [|j js Hj _ IH]; intros w; cbn [foldl]; [cbn; lia|].
  rewrite IH, run_job_gauge by done. rewrite filter_cons.
  destruct (crashes j); case_decide; cbn [length]; (lia || done).
Qed.

(** *** The limiter by client *)

(** The iteration of a non-empty map gives one of its keys. *)
Definition first_ok : Prop := ∀ m, m ≠ ∅ → ∃ ip, first m = Some ip ∧ is_Some (m !! ip).

Inductive limiter_op := Request (now : time) (ip : string) | Tick (now : time).
Definition limiter_step (rl : PerIPRateLimiter L) (op : limiter_op) : PerIPRateLimiter L :=
  match op with Request now ip => (client_Allow now ip rl).2 | Tick now => cleanupLoop now rl end.

Lemma evictOne_size rl :
  first_ok → clients rl ≠ ∅ → S (size (clients (evictOne rl))) = size (clients rl).
Proof.
  intros Hf Hne. destruct (Hf _ Hne) as (ip & Hip & [e He]). unfold evictOne. rewrite Hip. cbn.
  rewrite map_size_delete, He. assert (size (clients rl) ≠ 0) by (by apply map_size_non_empty_iff). lia.
Qed.
Lemma size_insert_le (m : gmap string (clientEntry L)) ip e : size (<[ip := e]> m) ≤ S (size m).
Proof. rewrite map_size_insert. destruct (m !! ip); cbn; lia. Qed.
Lemma size_insert_in (m : gmap string (clientEntry L)) ip e : is_Some (m !! ip) → size (<[ip := e]> m) = size m.
Proof. intros [e' He]. by rewrite map_size_insert, He. Qed.
Lemma getLimiter_size now ip rl :
  first_ok → 0 < maxClients rl → size (clients rl) ≤ maxClients rl →
  let rl' := (getLimiter now ip rl).2 in
  size (clients rl') ≤ maxClients rl ∧ maxClients rl' = maxClients rl ∧ is_Some (clients rl' !! ip).
Proof.
  intros Hf Hpos Hle. unfold getLimiter. destruct (clients rl !! ip) as [e|] eqn:He; cbn.
  - rewrite size_insert_in by eauto. rewrite lookup_insert_eq. eauto.
  - rewrite lookup_insert_eq. case_decide as Hd.
    + assert (clients rl ≠ ∅) as Hne by (intros Hm; rewrite Hm, map_size_empty in Hd; lia).
      pose proof (evictOne_size rl Hf Hne). pose proof (size_insert_le (clients (evictOne rl)) ip
        {| ce_limiter := NewLimiter (pl_limit (evictOne rl)) (pl_burst (evictOne rl)); ce_lastSeen := now |}).
      split_and!; [lia| |eauto]. unfold evictOne. by destruct (first _).
    + split_and!; [|done|eauto]. etrans; [apply size_insert_le|]. lia.
Qed.
Lemma limiter_step_size rl op :
  first_ok → 0 < maxClients rl → size (clients rl) ≤ maxClients rl →
  size (clients (limiter_step rl op)) ≤ maxClients rl ∧ maxClients (limiter_step rl op) = maxClients rl.
Proof.
  intros Hf Hpos Hle. destruct op as [now ip|now]; cbn.
  - unfold client_Allow. pose proof (getLimiter_size now ip rl Hf Hpos Hle) as (Hs & Hm & Hi).
    destruct (getLimiter now ip rl) as [l rl']. destruct (limiter_Allow now l) as [ok l']. cbn in *.
    by rewrite size_insert_in.
  - split; [|done]. etrans; [|exact Hle]. apply map_subseteq_size, map_filter_subseteq.
Qed.

Lemma limiter_steps_size rl ops :
  first_ok → 0 < maxClients rl → size (clients rl) ≤ maxClients rl →
  size (clients (foldl limiter_step rl ops)) ≤ maxClients rl.
Proof.
  intros Hf. revert rl. induction ops as [|op ops IH]; intros rl Hpos Hle; [done|]. cbn [foldl].
  destruct (limiter_step_size rl op Hf Hpos Hle) as [Hs Hm]. rewrite <- Hm. apply IH; lia.
Qed.
Lemma getLimiter_other now ip ip' rl :
  ip ≠ ip' → size (clients rl) < maxClients rl ∨ is_Some (clients rl !! ip) →
  clients (getLimiter now ip rl).2 !! ip' = clients rl !! ip'.
Proof.
  intros Hne Hor. unfold getLimiter. destruct (clients rl !! ip) eqn:He; cbn.
  - by rewrite lookup_insert_ne.
  - rewrite lookup_insert_ne by done. case_decide; [|done]. destruct Hor as [?|[? ?]]; [lia|done].
Qed.

Lemma client_Allow_known now ip rl : is_Some (clients (client_Allow now ip rl).2 !! ip).
Proof.
  unfold client_Allow. destruct (getLimiter now ip rl) as [l rl']. destruct (limiter_Allow now l) as [ok l'].
  cbn. rewrite lookup_insert_eq. eauto.
Qed.

(** the limiter by client holds at most the configured number of clients whatever the traffic,
    and the requests of one client do not change what another may send: below capacity, or for
    a client that is known, every other entry stays as it is. *)
Theorem per_ip_bounded_isolated (rps burst : Z) (ops : list limiter_op) (now : time) (ip ip' : string) :
  first_ok → ip ≠ ip' →
  let rl := foldl limiter_step (NewPerIPRateLimiter rps burst) ops in
  size (clients rl) ≤ defaultMaxClients
  ∧ (size (clients rl) < maxClients rl ∨ is_Some (clients rl !! ip) →
     clients (client_Allow now ip rl).2 !! ip' = clients rl !! ip').
Proof.
  intros Hf Hne rl. split.
  - apply (limiter_steps_size (NewPerIPRateLimiter rps burst)); [done| |].
    + cbn [maxClients NewPerIPRateLimiter]. unfold defaultMaxClients. lia.
    + cbn [clients NewPerIPRateLimiter]. rewrite map_size_empty. apply Nat.le_0_l.
  - intros Hor. unfold client_Allow. pose proof (getLimiter_other now ip ip' rl Hne Hor) as Ho.
    destruct (getLimiter now ip rl) as [l rl']. destruct (limiter_Allow now l) as [ok l']. cbn in *.
    by rewrite lookup_insert_ne.
Qed.

(** *** API keys *)

Lemma find_service_spec keys h :
  match find_service h (NewAPIKeyMiddleware keys) with
  | Some service => ∃ raw, (service, raw) ∈ keys ∧ Sum256 raw = h
  | None => ∀ service raw, (service, raw) ∈ keys → Sum256 raw ≠ h
  end.
Proof.
  induction keys as [|[sv raw] keys IH]; cbn; [by intros ?? ?%elem_of_nil|].
  case_decide as Hd; [exists raw; split; [apply list_elem_of_here|done]|].
  destruct (find_service _ _).
  - destruct IH as (raw' & ? & ?). exists raw'. split; [by apply list_elem_of_further|done].
  - intros sv' raw' [[= -> ->]|Hin]%elem_of_cons; [congruence|eauto].
Qed.

(** a request passes the API key middleware exactly when its key is not empty and has the hash
    of a configured key; the service set for the handlers is one with that hash, and any other
    request is answered 401 without reaching them. *)
Theorem api_key_decides (keys : list (string * string)) (next : HandlerFunc) (s : state) :
  let raw := GetHeader "X-API-Key" s.1 in
  let r := APIKey_Handler (NewAPIKeyMiddleware keys) next s in
  (raw ≠ "" ∧ ∃ service key, (service, key) ∈ keys ∧ Sum256 key = Sum256 raw
     ∧ r = next (Set_ apiKeyServiceContextKey service s.1, s.2))
  ∨ ((raw = "" ∨ ∀ service key, (service, key) ∈ keys → Sum256 key ≠ Sum256 raw)
     ∧ r.1 = Returns () ∧ r.2.2 = s.2 ∧ g_aborted r.2.1 = true
     ∧ (Written (g_writer s.1) = false → Status (g_writer r.2.1) = 401%Z)).
Proof.
  intros raw r. subst r. unfold APIKey_Handler. fold raw.
  destruct (String.eqb_spec raw "") as [He|He].
  - right. split_and!; try done; [by left|]. by intros Hw; cbn; rewrite Hw.
  - pose proof (find_service_spec keys (Sum256 raw)) as Hf. destruct (find_service _ _) as [sv|].
    + left. destruct Hf as (key & Hin & Hk). split; [done|]. by exists sv, key.
    + right. split_and!; try done; [by right|]. by intros Hw; cbn; rewrite Hw.
Qed.
End Middleware.

(** ** Load shedding under concurrency *)

(** Requests enter and leave at any time.  Running ones are in the rest of the chain;
    rejecting ones are writing their 503 and have not yet decremented the counter. *)
Record shedder := { inflight : Z; running : nat; rejecting : nat }.
Inductive shed_move := Enter | FinishRunning | FinishRejecting.
Definition shed_step (limit : Z) (s : shedder) (m : shed_move) : shedder :=
  match m with
  | Enter =>
      let current := wrap64 (inflight s + 1) in
      if (limit <? current)%Z then {| inflight := current; running := running s; rejecting := S (rejecting s) |}
      else {| inflight := current; running := S (running s); rejecting := rejecting s |}
  | FinishRunning =>
      match running s with
      | S n => {| inflight := wrap64 (inflight s + -1); running := n; rejecting := rejecting s |}
      | O => s
      end
  | FinishRejecting =>
      match rejecting s with
      | S n => {| inflight := wrap64 (inflight s + -1); running := running s; rejecting := n |}
      | O => s
      end
  end.
Definition NewLoadShedder : shedder := {| inflight := 0; running := 0; rejecting := 0 |}.

(** With at most [n] requests so far. *)
Definition shed_ok (limit : Z) (n : nat) (s : shedder) : Prop :=
  inflight s = Z.of_nat (running s + rejecting s) ∧ (Z.of_nat (running s) ≤ Z.max 0 limit)%Z ∧ running s + rejecting s ≤ n.
Lemma shed_step_ok limit n s m :
  (Z.of_nat (S n) < 2 ^ 63)%Z → shed_ok limit n s → shed_ok limit (S n) (shed_step limit s m).
Proof.
  intros Hn (Hi & Hr & Hle). destruct m; cbn.
  - rewrite wrap64_id by (unfold int64_range; lia). destruct (Z.ltb_spec limit (inflight s + 1)); repeat split; cbn; lia.
  - destruct (running s) as [|k] eqn:Ek; repeat split; cbn; rewrite ?Ek; try lia. rewrite wrap64_id; unfold int64_range; lia.
  - destruct (rejecting s) as [|k] eqn:Ek; repeat split; cbn; rewrite ?Ek; try lia. rewrite wrap64_id; unfold int64_range; lia.
Qed.
Lemma shed_steps_ok limit n s ms :
  (Z.of_nat (n + length ms) < 2 ^ 63)%Z → shed_ok limit n s → shed_ok limit (n + length ms) (foldl (shed_step limit) s ms).
Proof.
  revert n s. induction ms as [|m ms IH]; intros n s Hn Hs; cbn [foldl length] in *; [by rewrite Nat.add_0_r|].
  rewrite Nat.add_succ_r, <- Nat.add_succ_l in *. apply IH; [done|]. apply shed_step_ok; [lia|done].
Qed.
Lemma shed_fill limit n :
  (Z.of_nat n ≤ limit < 2 ^ 63)%Z →
  foldl (shed_step limit) NewLoadShedder (replicate n Enter) = {| inflight := Z.of_nat n; running := n; rejecting := 0 |}.
Proof.
  induction n as [|n IH]; intros Hn; [done|]. rewrite replicate_S_end, foldl_app, IH by lia. cbn [foldl shed_step inflight].
  rewrite wrap64_id by (unfold int64_range; lia). destruct (Z.ltb_spec limit (Z.of_nat n + 1)); [lia|].
  cbn. f_equal. lia.
Qed.

(** C40: at most the configured number of requests runs at a time, under every interleaving of
    arrivals and departures, and the counter is exactly the number of requests that have not
    left, so it is back to zero when they have.  The counter includes the requests being
    rejected: there is a schedule in which a request is refused while fewer than the limit run. *)
Theorem load_shedder_bound (limit : Z) (ms : list shed_move) :
  (0 < limit < 2 ^ 62)%Z → (Z.of_nat (length ms) < 2 ^ 63)%Z →
  (let s := foldl (shed_step limit) NewLoadShedder ms in
   (Z.of_nat (running s) ≤ limit)%Z ∧ inflight s = Z.of_nat (running s + rejecting s))
  ∧ ∃ ms', let s := foldl (shed_step limit) NewLoadShedder ms' in
     (Z.of_nat (running s) < limit)%Z
     ∧ shed_step limit s Enter = {| inflight := inflight s + 1; running := running s; rejecting := S (rejecting s) |}.
Proof.
  intros Hl Hm. split.
  - destruct (shed_steps_ok limit 0 NewLoadShedder ms) as (Hi & Hr & _); [done|repeat split; cbn; lia|].
    split; [lia|done].
  - exists (replicate (Z.to_nat limit) Enter ++ [Enter; FinishRunning]). rewrite foldl_app, shed_fill by lia.
    cbn [foldl shed_step inflight running rejecting]. rewrite (wrap64_id (Z.of_nat _ + 1)) by (unfold int64_range; lia).
    destruct (Z.ltb_spec limit (Z.of_nat (Z.to_nat limit) + 1)); [|lia]. cbn [running].
    destruct (Z.to_nat limit) as [|k] eqn:Ek; [lia|]. cbn [running rejecting inflight].
    rewrite (wrap64_id (_ + -1)) by (unfold int64_range; lia). rewrite wrap64_id by (unfold int64_range; lia).
    split; [lia|]. destruct (Z.ltb_spec limit (Z.of_nat (S k) + 1 + -1 + 1)); [done|lia].
Qed.

(** ** infra/http/readiness.go *)

(** A check with the context it is given: its error, or it panics or blocks. *)
Definition checkFn : Type := outcome (option error).
Record ReadinessChecker := { checks : gmap string checkFn }.
Definition NewReadinessChecker : ReadinessChecker := {| checks := ∅ |}.
Definition Add (name : string) (check : checkFn) (r : ReadinessChecker) : ReadinessChecker :=
  {| checks := <[name := check]> (checks r) |}.
Definition check_result (e : option error) : checkResult :=
  match e with
  | None => {| cr_Status := "ok"; cr_Error := EmptyString |}
  | Some err => {| cr_Status := "error"; cr_Error := Error err |}
  end.
(** The checks run in goroutines of their own: a panic there is not recovered and ends the
    process, a check that blocks blocks the handler.  [arrivals] are the checks in the order in
    which their results are received. *)
Inductive probe := Responds (status : Z) (resp : readinessResponse) | Blocks | Crashes.
Definition receive (acc : gmap string checkResult * bool) (nr : string * checkResult) : gmap string checkResult * bool :=
  (<[nr.1 := nr.2]> acc.1, acc.2 && (cr_Status nr.2 =? "ok")%string).
Definition result_of (c : string * checkFn) : option (string * checkResult) :=
  match c.2 with Returns e => Some (c.1, check_result e) | _ => None end.
Definition panics (c : checkFn) : bool := match c with Panics _ => true | _ => false end.
Definition Handler (arrivals : list (string * checkFn)) : probe :=
  if existsb (λ c, panics c.2) arrivals then Crashes
  else match mapM result_of arrivals with
       | None => Blocks
       | Some results =>
           let '(results, overallOK) := foldl receive (∅, true) results in
           if overallOK : bool then Responds 200 {| rr_Status := "ok"; rr_Checks := results |}
           else Responds 503 {| rr_Status := "error"; rr_Checks := results |}
       end.

(** What the endpoint should answer, as a function of the map of checks. *)
Definition hangs (c : checkFn) : bool := match c with Hangs => true | _ => false end.
Definition passes (c : checkFn) : bool := match c with Returns None => true | _ => false end.
Definition all_pass (r : ReadinessChecker) : bool := forallb (λ c, passes c.2) (map_to_list (checks r)).
Definition readiness (r : ReadinessChecker) : readinessResponse :=
  {| rr_Status := if all_pass r then "ok" else "error";
     rr_Checks := omap (λ c : checkFn, match c with Returns e => Some (check_result e) | _ => None end) (checks r) |}.

Lemma forallb_perm {T} (f : T → bool) l k : l ≡ₚ k → forallb f l = forallb f k.
Proof. induction 1; cbn; try congruence. by rewrite !andb_assoc, (andb_comm (f y)). Qed.
Lemma existsb_perm {T} (f : T → bool) l k : l ≡ₚ k → existsb f l = existsb f k.
Proof. induction 1; cbn; try congruence. by rewrite !orb_assoc, (orb_comm (f y)). Qed.

(** The results received, by name. *)
Lemma receive_lookup rs m b k :
  NoDup rs.*1 →
  (foldl receive (m, b) rs).1 !! k =
    match list_to_map (M := gmap string checkResult) rs !! k with Some v => Some v | None => m !! k end.
Proof.
  revert m b. induction rs as [|[k' v] rs IH]; intros m b Hd; [done|]. cbn in Hd. apply NoDup_cons in Hd as [Hni Hd].
  cbn [foldl]. unfold receive at 2. cbn [fst snd]. rewrite IH by done. cbn [list_to_map foldr fst snd]. cbn.
  destruct (decide (k = k')) as [->|Hne].
  - rewrite !lookup_insert_eq. by rewrite (not_elem_of_list_to_map_1 rs k' Hni).
  - by rewrite !lookup_insert_ne.
Qed.
Lemma receive_ok rs m b : (foldl receive (m, b) rs).2 = b && forallb (λ nr, (cr_Status nr.2 =? "ok")%string) rs.
Proof.
  revert m b. induction rs as [|nr rs IH]; intros m b; cbn [foldl forallb]; [by rewrite andb_true_r|].
  unfold receive at 2. rewrite IH. by rewrite andb_assoc.
Qed.
Lemma results_spec cs rs :
  mapM result_of cs = Some rs →
  rs.*1 = cs.*1 ∧ forallb (λ nr, (cr_Status nr.2 =? "ok")%string) rs = forallb (λ c, passes c.2) cs
  ∧ ∀ k v, (k, v) ∈ rs ↔ ∃ e, (k, Returns e) ∈ cs ∧ v = check_result e.
Proof.
  intros Hm%mapM_Some. induction Hm as [|[k c] r cs rs Hr _ (IH1 & IH2 & IH3)].
  { split_and!; [done..|]. intros k v. rewrite elem_of_nil. split; [done|]. by intros (e & ?%elem_of_nil & _). }
  unfold result_of in Hr. destruct c as [e| |]; simplify_eq/=. rewrite IH1, IH2. split_and!; [done|by destruct e|].
  intros k' v. rewrite elem_of_cons, IH3. setoid_rewrite elem_of_cons. naive_solver.
Qed.

Lemma results_total cs :
  existsb (λ c, panics c.2) cs = false →
  match mapM result_of cs with Some _ => existsb (λ c, hangs c.2) cs = false | None => existsb (λ c, hangs c.2) cs = true end.
Proof.
  induction cs as [|[k [e|p|]] cs IH]; cbn; [done| |done|done]. intros Hp. specialize (IH Hp).
  by destruct (mapM result_of cs).
Qed.

(** the readiness endpoint is a function of the checks alone, whatever the order in which their
    results arrive: when all return, it answers 200 if every check passes and 503 otherwise, with
    the outcome of each check under its name.  A check that blocks blocks the endpoint, and one
    that panics ends the process, since no timeout and no recovery covers its goroutine. *)
Theorem readiness_spec (r : ReadinessChecker) (arrivals : list (string * checkFn)) :
  arrivals ≡ₚ map_to_list (checks r) →
  Handler arrivals =
    if existsb (λ c, panics c.2) (map_to_list (checks r)) then Crashes
    else if existsb (λ c, hangs c.2) (map_to_list (checks r)) then Blocks
    else Responds (if all_pass r then 200 else 503)%Z (readiness r).
Proof.
  intros Hp. unfold Handler, readiness, all_pass.
  rewrite <- !(existsb_perm _ _ _ Hp), <- (forallb_perm _ _ _ Hp).
  destruct (existsb (λ c, panics c.2) arrivals) eqn:Epan; [done|].
  pose proof (results_total arrivals Epan) as Ht. destruct (mapM result_of arrivals) as [rs|] eqn:Em; rewrite Ht; [|done].
  destruct (results_spec _ _ Em) as (Hk & Hok & Hin).
  destruct (foldl receive (∅, true) rs) as [results ok] eqn:Ef.
  pose proof (receive_ok rs ∅ true) as Hb. rewrite Ef, Hok in Hb. cbn in Hb. subst ok.
  assert (NoDup rs.*1) as Hnd by (rewrite Hk, Hp; apply NoDup_fst_map_to_list).
  assert (results = omap (λ c : checkFn, match c with Returns e => Some (check_result e) | _ => None end) (checks r)) as ->.
  { apply map_eq. intros k. pose proof (receive_lookup rs ∅ true k Hnd) as Hl. rewrite Ef in Hl. cbn in Hl.
    assert (results !! k = (list_to_map rs : gmap string checkResult) !! k) as -> by (rewrite Hl; by destruct (list_to_map rs !! k)).
    rewrite lookup_omap. apply option_eq. intros v. rewrite <- elem_of_list_to_map, Hin by done.
    setoid_rewrite Hp. setoid_rewrite elem_of_map_to_list.
    destruct (checks r !! k) as [[e|p|]|] eqn:Ec; cbn; (split; [intros (e' & He & ->)|intros He]);
      try (pose proof (eq_trans (eq_sym Ec) He)); simplify_eq; eauto. }
  by destruct (forallb _ arrivals).
Qed.

(** ** infra/middleware/grpc: recovery.go, tracing.go, logging.go, metrics.go, error_mapper.go, chain.go *)

(** An error that carries a gRPC status, or any other. *)
Inductive rpc_error := StatusError (code message : string) | PlainError (e : error).
Inductive span_call := SpanStart (name : string) | SpanError (message : string) | SpanEnd.

Section Interceptors.
Context {A R : Type}.
Record rpc_world := {
  r_now : time; r_logs : list log; r_metrics : list metric; r_spans : list span_call; r_app : A
}.
Definition rpc_log (l : log) (w : rpc_world) : rpc_world :=
  {| r_now := r_now w; r_logs := r_logs w ++ [l]; r_metrics := r_metrics w; r_spans := r_spans w; r_app := r_app w |}.
Definition rpc_metrics (m : list metric) (w : rpc_world) : rpc_world :=
  {| r_now := r_now w; r_logs := r_logs w; r_metrics := r_metrics w ++ m; r_spans := r_spans w; r_app := r_app w |}.
Definition rpc_spans (c : list span_call) (w : rpc_world) : rpc_world :=
  {| r_now := r_now w; r_logs := r_logs w; r_metrics := r_metrics w; r_spans := r_spans w ++ c; r_app := r_app w |}.

(** The string values of the context: [trace_id], [request_id] of the metadata, [user_id]. *)
Notation ctx := (gmap string string).
Definition UnaryHandler : Type := ctx → prog rpc_world (result rpc_error R).
Definition Interceptor : Type := string → UnaryHandler → UnaryHandler.

(** [status.FromError(err)] and the name of its code; no error is [OK]. *)
Definition status_code (r : result rpc_error R) : string :=
  match r with Ok _ => "OK" | Err (StatusError code _) => code | Err (PlainError _) => "Unknown" end.
Definition code_String (c : grpc_code) : string :=
  match c with
  | NotFound => "NotFound" | InvalidArgument => "InvalidArgument" | AlreadyExists => "AlreadyExists"
  | Unauthenticated => "Unauthenticated" | PermissionDenied => "PermissionDenied"
  | Internal => "Internal" | ResourceExhausted => "ResourceExhausted"
  end.
Definition rpc_message (e : rpc_error) : string :=
  match e with StatusError _ message => message | PlainError e => Error e end.
Definition rpc_Error (e : rpc_error) : string :=
  match e with
  | StatusError code message => "rpc error: code = " +:+ code +:+ " desc = " +:+ message
  | PlainError e => Error e
  end.

Definition RecoveryInterceptor : Interceptor := λ method handler c w,
  match handler c w with
  | (Panics p, w) =>
      (Returns (Err (StatusError "Internal" "internal server error")),
       rpc_log {| lg_level := ErrorLevel; lg_message := "grpc: panic recovered";
                  lg_fields := [("panic", p); ("method", method)] |} w)
  | r => r
  end.

(** [new_trace] is the identifier of the span that the tracer starts; the span is ended by a
    deferred call. *)
Context (new_trace : rpc_world → string).
Definition TracingUnaryInterceptor : Interceptor := λ method handler c w,
  match handler (<["trace_id" := new_trace w]> c) (rpc_spans [SpanStart method] w) with
  | (Returns (Err err), w) => (Returns (Err err), rpc_spans [SpanError (rpc_message err); SpanEnd] w)
  | (Hangs, w) => (Hangs, w)
  | (r, w) => (r, rpc_spans [SpanEnd] w)
  end.

Definition LoggingInterceptor : Interceptor := λ method handler c w,
  let start := r_now w in
  (let! r := handler c in λ w,
   let fields := [("method", method); ("duration", pretty (r_now w - start)%Z); ("code", status_code r)]
     ++ (if (default "" (c !! "trace_id") =? "")%string then [] else field "trace_id" (c !! "trace_id"))
     ++ field "request_id" (c !! "request_id") ++ field "user_id" (c !! "user_id") in
   (Returns r,
    rpc_log match r with
            | Err err => {| lg_level := ErrorLevel; lg_message := "grpc request"; lg_fields := fields ++ [("error", rpc_Error err)] |}
            | Ok _ => {| lg_level := InfoLevel; lg_message := "grpc request"; lg_fields := fields |}
            end w)) w.

Definition MetricsUnaryInterceptor : Interceptor := λ method handler c w,
  let start := r_now w in
  (let! r := handler c in λ w,
   (Returns r, rpc_metrics [GRPCRequestTotal method (status_code r);
                            GRPCRequestDuration method (status_code r) (r_now w - start)] w)) w.

Definition map_rpc_error (e : rpc_error) : rpc_error :=
  match e with
  | StatusError _ _ => e
  | PlainError e => let '(code, message) := mapGRPCError e in StatusError (code_String code) message
  end.
Definition ErrorMappingInterceptor : Interceptor := λ method handler c,
  let! r := handler c in
  pret (match r with Ok resp => Ok resp | Err err => Err (map_rpc_error err) end).

Definition BuildInterceptors : list Interceptor :=
  [RecoveryInterceptor; TracingUnaryInterceptor; LoggingInterceptor; MetricsUnaryInterceptor; ErrorMappingInterceptor].
(** [grpc.ChainUnaryInterceptor]: the first interceptor is the outermost. *)
Definition call_rpc (method : string) (chain : list Interceptor) (handler : UnaryHandler) : UnaryHandler :=
  foldr (λ i h, i method h) handler chain.

(** the gRPC chain turns every outcome of a handler into a response or a status: no panic leaves
    it, an error without a status gets the code of its application error and a panic the code
    Internal, and the span that was started is ended.  A call that panics is neither counted nor
    in the request log: Recovery is outside the interceptors that record. *)
Theorem rpc_outcomes (method : string) (handler : UnaryHandler) (c : ctx) (w : rpc_world) :
  let c1 := <["trace_id" := new_trace w]> c in
  let '(r, w1) := handler c1 (rpc_spans [SpanStart method] w) in
  let '(r', w') := call_rpc method BuildInterceptors handler c w in
  match r with
  | Returns (Ok resp) =>
      r' = Returns (Ok resp) ∧ length (r_metrics w') = length (r_metrics w1) + 2
      ∧ r_spans w' = r_spans w1 ++ [SpanEnd]
  | Returns (Err err) =>
      r' = Returns (Err (map_rpc_error err)) ∧ length (r_metrics w') = length (r_metrics w1) + 2
      ∧ r_spans w' = r_spans w1 ++ [SpanError (rpc_message (map_rpc_error err)); SpanEnd]
  | Panics p =>
      r' = Returns (Err (StatusError "Internal" "internal server error"))
      ∧ r_metrics w' = r_metrics w1 ∧ r_spans w' = r_spans w1 ++ [SpanEnd]
      ∧ map lg_message (r_logs w') = map lg_message (r_logs w1) ++ ["grpc: panic recovered"]
  | Hangs => r' = Hangs
  end.
Proof.
  cbv zeta. unfold call_rpc, BuildInterceptors. cbn [foldr].
  unfold RecoveryInterceptor, TracingUnaryInterceptor, LoggingInterceptor, MetricsUnaryInterceptor,
    ErrorMappingInterceptor, pbind, pret.
  destruct (handler _ _) as [[[resp|err]|p|] w1]; cbn; rewrite ?length_app, ?map_app; done.
Qed.
End Interceptors.

(** ** Witnesses *)

(** A limiter that allows [burst] events in all. *)
#[local] Instance budget : Limiter Z :=
  {| NewLimiter _ burst := burst; limiter_Allow _ l := ((0 <? l)%Z, Z.max 0 (l - 1)) |}.
Definition first_key (m : gmap string (clientEntry Z)) : option string := fst <$> head (map_to_list m).
Lemma first_key_ok : first_ok first_key.
Proof.
  intros m Hm. unfold first_key. destruct (map_to_list m) as [|[ip e] l] eqn:E.
  - by apply map_to_list_empty_iff in E.
  - exists ip. split; [done|]. exists e. apply elem_of_map_to_list. rewrite E. apply list_elem_of_here.
Qed.
Definition get_users : gin :=
  {| g_request := {| rq_Method := "GET"; rq_Path := "/users"; rq_FullPath := "/users"; rq_ClientIP := "10.0.0.1"; rq_headers := ∅ |};
     g_keys := ∅; g_ctx := ∅; g_deadline := None; g_cancelled := false; g_errors := [];
     g_writer := {| Status := 200; Written := false; headers := ∅; bodies := [] |}; g_aborted := false |}.
Definition fresh_world : world Z unit :=
  {| w_now := 0; w_ids := 0; w_inflight := 0; w_limiter := {| clients := ∅; pl_limit := 1; pl_burst := 1; maxClients := 2 |}; w_logs := []; w_metrics := []; w_app := () |}.
Definition panicking : HandlerFunc (L := Z) (A := unit) := λ s, (Panics "boom", s).
Definition answering : HandlerFunc (L := Z) (A := unit) := on_gin (JSON 200 (OtherBody "[]")).
Definition same_mw : Middleware (L := Z) (A := unit) := λ next, next.
Definition full_deps : ChainDeps :=
  {| cd_PerIPLimiter := false; cd_LoadShed := {| MaxConcurrent := 10 |}; cd_Timeout := 10 ^ 9; cd_ServiceName := "wolf";
     cd_SecurityHeaders := {| SH_Enabled := true; HSTS := true; HSTSMaxAge := 0; ContentTypeNosniff := true; FrameDeny := true;
                              XSSProtection := true; ContentSecurityPolicy := EmptyString; ReferrerPolicy := EmptyString |};
     cd_CORS := {| CORS_AllowedOrigins := []; CORS_AllowedMethods := []; CORS_AllowedHeaders := [];
                   CORS_AllowCredentials := false; CORS_MaxAge := 0 |} |}.
Definition full_chain : list (Middleware (L := Z) (A := unit)) :=
  match BuildChain pretty (λ _, Returns same_mw) first_key (λ _, same_mw) full_deps with Returns l => l | _ => [] end.

Lemma full_chain_built : BuildChain pretty (λ _, Returns same_mw) first_key (λ _, same_mw) full_deps = Returns full_chain.
Proof. reflexivity. Qed.
Lemma same_mw_keeps (c : cors_Config) (mw : Middleware (L := Z) (A := unit)) : Returns same_mw = Returns mw → keeps_mw mw.
Proof. intros [= <-]. by intros next Hn. Qed.
Lemma panicking_inside :
  let r := serve (tail full_chain) panicking (get_users, fresh_world) in
  r = (Panics "boom", r.2) ∧ Written (g_writer r.2.1) = false.
Proof. split; vm_compute; reflexivity. Qed.


Example inflight_gauge_leaks_witness :
  let js := [{| crashes := true; job_gin := get_users; job_handler := panicking |};
             {| crashes := false; job_gin := get_users; job_handler := answering |};
             {| crashes := true; job_gin := get_users; job_handler := panicking |}] in
  gauge (w_metrics (foldl run_job fresh_world js)) = 2%Z.
Proof.
  intros js. apply (inflight_gauge_leaks fresh_world js).
  repeat (apply Forall_cons; split); [..|apply Forall_nil_2]; intros s; (split; [reflexivity|cbn; eauto]).
Defined.

Example per_ip_bounded_isolated_witness :
  let rl := foldl (limiter_step first_key) (NewPerIPRateLimiter 1 1) [Request 0 "10.0.0.2"; Request 1 "10.0.0.1"] in
  clients (client_Allow first_key 2 "10.0.0.1" rl).2 !! "10.0.0.2" = clients rl !! "10.0.0.2".
Proof.
  intros rl.
  destruct (per_ip_bounded_isolated first_key 1 1 [Request 0 "10.0.0.2"; Request 1 "10.0.0.1"] 2 "10.0.0.1" "10.0.0.2"
    first_key_ok ltac:(discriminate)) as [_ H].
  apply H. right. apply client_Allow_known.
Defined.

Example load_shedder_bound_witness :
  let s := foldl (shed_step 2) NewLoadShedder [Enter; Enter; Enter; FinishRunning; Enter] in
  running s = 1 ∧ rejecting s = 2 ∧ inflight s = 3%Z.
Proof.
  intros s. destruct (load_shedder_bound 2 [Enter; Enter; Enter; FinishRunning; Enter]) as [[_ Hi] _]; [lia|cbn; lia|].
  split_and!; [reflexivity..|exact Hi].
Defined.

Definition two_checks : ReadinessChecker :=
  Add "redis" (Returns (Some (EText "refused"))) (Add "postgres" (Returns None) NewReadinessChecker).
Example readiness_spec_witness :
  ∃ resp, Handler (reverse (map_to_list (checks two_checks))) = Responds 503 resp
    ∧ rr_Checks resp !! "redis" = Some {| cr_Status := "error"; cr_Error := "refused" |}.
Proof.
  exists (readiness two_checks). split; [|vm_compute; reflexivity].
  rewrite (readiness_spec two_checks (reverse (map_to_list (checks two_checks))) (reverse_Permutation _)).
  vm_compute. reflexivity.
Defined.
