(* ===== verification/HttpUtil.v ===== *)
(** * Response envelopes and request validation

    [HttpUtil.v] models infra/http/httputil (response.go and bind.go) on the gin context of
    Http.v, and validator/validator.go.  gin's JSON binding and go-playground's validator are
    arguments: what they return for a value. *)

From S2P Require Import Prelude Errors GoText Event RateLimit Config Json EventStream Http.
Local Open Scope Z_scope.

(** ** validator.go *)

Record FieldError := { fe_Tag : string; fe_Field : string; fe_Param : string }.

(** The errors of [validate.Struct]: its own type, or one for a value that is not a struct. *)
Inductive struct_error := ValidationErrors (l : list FieldError) | InvalidValidation (text : string).

Definition isValidationErrors (err : struct_error) : option (list FieldError) :=
  match err with ValidationErrors l => Some l | InvalidValidation _ => None end.

Definition buildMessage (fe : FieldError) : string :=
  let field := fe_Field fe in
  let tag := fe_Tag fe in
  if (tag =? "required")%string then field +:+ " is required"
  else if (tag =? "min")%string then field +:+ " must be at least " +:+ fe_Param fe
  else if (tag =? "max")%string then field +:+ " must be at most " +:+ fe_Param fe
  else if (tag =? "email")%string then field +:+ " must be a valid email address"
  else if ((tag =? "uuid") || (tag =? "uuid4"))%string then field +:+ " must be a valid UUID"
  else if (tag =? "oneof")%string then field +:+ " must be one of: " +:+ fe_Param fe
  else field +:+ " failed validation: " +:+ tag.

Section Validator.
Context {T : Type}.
(** [validate.Struct], and the text of its errors. *)
Context (Struct : T → option struct_error) (struct_Error : struct_error → string).

Definition Validate (s : T) : option error :=
  match Struct s with
  | None => None
  | Some err =>
      match isValidationErrors err with
      | Some (first :: _) => Some (NewValidation (fe_Field first) (buildMessage first))
      | _ => Some (NewValidation "input" (struct_Error err))
      end
  end.
End Validator.

(** ** response.go *)

(** The JSON of an [ErrorBody]. *)
Definition marshal_ErrorBody (b : Errors.ErrorBody) : json :=
  JObject ([("type", marshal_string (eb_Type b)); ("status", JInt (eb_Status b));
            ("code", marshal_string (eb_Code b)); ("message", marshal_string (eb_Message b))]
           ++ omit_empty "instance" (eb_Instance b) ++ omit_empty "field" (eb_Field b)).

Definition ErrorMapper : Type := gin → error → Z * json.
Record Responder := { errorMapper : ErrorMapper }.
Definition Option : Type := Responder → Responder.
Definition WithErrorMapper (m : ErrorMapper) : Option := λ _, {| errorMapper := m |}.

Definition default_mapper : ErrorMapper := λ g err,
  let '(status, b) := DefaultErrorMapper (rq_Path (g_request g)) err in (status, marshal_ErrorBody b).
Definition NewResponder (opts : list Option) : Responder :=
  foldl (λ r opt, opt r) {| errorMapper := default_mapper |} opts.

(** [c.Status]: the status of a response without a body. *)
Definition set_status (code : Z) (g : gin) : gin := with_writer (λ w,
  {| Status := if Written w then Status w else code; Written := Written w; headers := headers w;
     bodies := bodies w |}) g.

Definition Responder_OK (r : Responder) (data : option json) (g : gin) : gin :=
  write_json 200 (EnvelopeBody {| rs_Data := data; rs_Error := None |}) g.
Definition Responder_Created (r : Responder) (data : option json) (g : gin) : gin :=
  write_json 201 (EnvelopeBody {| rs_Data := data; rs_Error := None |}) g.
Definition Responder_NoContent (r : Responder) (g : gin) : gin := set_status 204 g.
Definition Responder_Error (r : Responder) (err : error) (g : gin) : gin :=
  let '(status, b) := errorMapper r g err in
  write_json status (EnvelopeBody {| rs_Data := None; rs_Error := Some b |}) g.

(** The package-level functions on the variable [Default]. *)
Inductive helper := OK (data : option json) | Created (data : option json) | NoContent | RespondError (err : error).
Definition respond (Default : Responder) (h : helper) (g : gin) : gin :=
  match h with
  | OK data => Responder_OK Default data g
  | Created data => Responder_Created Default data g
  | NoContent => Responder_NoContent Default g
  | RespondError err => Responder_Error Default err g
  end.
(** [Configure] is the new value of [Default]. *)
Definition Configure (opts : list Option) : Responder := NewResponder opts.

(** ** bind.go *)

Section Bind.
Context {T : Type} (Struct : T → option struct_error) (struct_Error : struct_error → string).
(** [c.ShouldBindJSON(&req)]: what it leaves in [req], and its error. *)
Context (ShouldBindJSON : gin → T * option error).

Definition BindAndValidateWith (r : Responder) (g : gin) : T * bool * gin :=
  let '(req, err) := ShouldBindJSON g in
  match err with
  | Some err => (req, false, Responder_Error r (NewValidation "" (Error err)) g)
  | None =>
      match Validate Struct struct_Error req with
      | Some err => (req, false, Responder_Error r err g)
      | None => (req, true, g)
      end
  end.
Definition BindAndValidate (Default : Responder) (g : gin) : T * bool * gin := BindAndValidateWith Default g.

(** ** Properties *)

Lemma Validate_code s err : Validate Struct struct_Error s = Some err → ∃ field msg, err = NewValidation field msg.
Proof.
  unfold Validate. destruct (Struct s) as [e|]; [|done].
  destruct (isValidationErrors e) as [[|fe l]|]; intros [= <-]; eauto.
Qed.

(** The default mapping of a validation error. *)
Lemma default_validation g field msg :
  default_mapper g (NewValidation field msg)
  = (400, marshal_ErrorBody {| eb_Type := "/errors/validation"; eb_Status := 400; eb_Code := ErrValidation;
                               eb_Message := msg; eb_Instance := rq_Path (g_request g); eb_Field := field |}).
Proof. reflexivity. Qed.

(** a request is accepted exactly when it binds and validates, and nothing is written then;
    a rejected one gets exactly one response, a 400 problem of code [VALIDATION] in the envelope, and the chain is
    not aborted. *)
Theorem BindAndValidate_spec (g : gin) :
  Written (g_writer g) = false →
  match BindAndValidate (Configure []) g with
  | (req, true, g') => g' = g ∧ ShouldBindJSON g = (req, None) ∧ Validate Struct struct_Error req = None
  | (req, false, g') =>
      (ShouldBindJSON g).1 = req ∧ Status (g_writer g') = 400 ∧ g_aborted g' = g_aborted g
      ∧ ∃ field msg, bodies (g_writer g') = bodies (g_writer g) ++
          [EnvelopeBody {| rs_Data := None;
             rs_Error := Some (marshal_ErrorBody
               {| eb_Type := "/errors/validation"; eb_Status := 400; eb_Code := ErrValidation;
                  eb_Message := msg; eb_Instance := rq_Path (g_request g); eb_Field := field |}) |}]
  end.
Proof.
  intros Hw. unfold BindAndValidate, BindAndValidateWith, Configure, NewResponder. cbn [foldl].
  assert (Herr : ∀ field msg, let g' := Responder_Error {| errorMapper := default_mapper |} (NewValidation field msg) g in
     Status (g_writer g') = 400 ∧ g_aborted g' = g_aborted g
     ∧ ∃ field msg, bodies (g_writer g') = bodies (g_writer g) ++
          [EnvelopeBody {| rs_Data := None;
             rs_Error := Some (marshal_ErrorBody
               {| eb_Type := "/errors/validation"; eb_Status := 400; eb_Code := ErrValidation;
                  eb_Message := msg; eb_Instance := rq_Path (g_request g); eb_Field := field |}) |}]).
  { intros field msg. unfold Responder_Error. cbn [errorMapper]. rewrite default_validation. cbn. rewrite Hw. eauto. }
  destruct (ShouldBindJSON g) as [req [err|]] eqn:Hb; [by split; [|apply Herr]|].
  destruct (Validate Struct struct_Error req) as [err|] eqn:Hv; [|done].
  apply Validate_code in Hv as (field & msg & ->). by split; [|apply Herr].
Qed.
End Bind.

(** every helper sends at most one envelope and never both data and an error, whatever mapper is
    configured. *)
Theorem envelope_one_side (opts : list Option) (h : helper) (g : gin) :
  ∃ l, bodies (g_writer (respond (Configure opts) h g)) = bodies (g_writer g) ++ l
       ∧ match h with
         | NoContent => l = []
         | OK data | Created data => l = [EnvelopeBody {| rs_Data := data; rs_Error := None |}]
         | RespondError err => ∃ b, l = [EnvelopeBody {| rs_Data := None; rs_Error := Some b |}]
         end.
Proof.
  destruct h; cbn [respond]; try (by eexists).
  - exists []. by rewrite app_nil_r.
  - unfold Responder_Error. destruct (errorMapper _ g err) as [status b]. eexists. split; [done|by eexists].
Qed.
