(* ===== verification/Server.v ===== *)
(** * The HTTP, metrics and gRPC servers

    [Server.v] models infra/http/server.go, infra/http/metrics_server.go and
    infra/grpc/server.go: the endpoints and the router group a server is built with, and what
    starting and stopping it return.  gin's router is the class [Router], with the laws of route
    registration the code depends on: a route runs the handlers its group had when the route was
    registered, and a group starts with the handlers its parent had when the group was created.
    A server of net/http or gRPC is used through what its serve and shutdown calls return. *)

From S2P Require Import Prelude Errors GoText Event RateLimit Config Json EventStream Http.
Local Open Scope go_scope.

(** ** gin's router *)

(** [E] is an engine with its routes, [G] a router group; [route_chain] is what runs for a route,
    by method and pattern, and [no_route_chain] what runs when none matches. *)
Class Router (L A E G : Type) := {
  gin_New : E;
  root : E → G;
  Use : list (Middleware (L := L) (A := A)) → E → E;
  Group : G → string → list (Middleware (L := L) (A := A)) → G;
  Handle : G → string → string → HandlerFunc (L := L) (A := A) → E → E;
  SetTrustedProxies : list string → E → option error * E;
  absolute : G → string → string;
  group_chain : G → list (Middleware (L := L) (A := A));
  route_chain : E → string → string → option (list (Middleware (L := L) (A := A)) * HandlerFunc (L := L) (A := A));
  no_route_chain : E → list (Middleware (L := L) (A := A));
  new_root : group_chain (root gin_New) = [];
  new_routes m p : route_chain gin_New m p = None;
  use_root hs e : group_chain (root (Use hs e)) = group_chain (root e) ++ hs;
  use_no_route hs e : no_route_chain (Use hs e) = group_chain (root e) ++ hs;
  use_routes hs e m p : route_chain (Use hs e) m p = route_chain e m p;
  group_inherits g p hs : group_chain (Group g p hs) = group_chain g ++ hs;
  handle_route g m p h e :
    route_chain e m (absolute g p) = None →
    route_chain (Handle g m p h e) m (absolute g p) = Some (group_chain g, h);
  handle_other g m p h e m' p' : (m', p') ≠ (m, absolute g p) → route_chain (Handle g m p h e) m' p' = route_chain e m' p';
  handle_root g m p h e : group_chain (root (Handle g m p h e)) = group_chain (root e);
  proxies_root ps e : group_chain (root (SetTrustedProxies ps e).2) = group_chain (root e);
  proxies_routes ps e m p : route_chain (SetTrustedProxies ps e).2 m p = route_chain e m p
}.

(** ** infra/http/server.go *)

(** The fields of [http.Server] that are set. *)
Record http_Server := {
  Addr : string; ReadTimeout : Z; ReadHeaderTimeout : Z; WriteTimeout : Z; IdleTimeout : Z; MaxHeaderBytes : Z
}.
(** [gin.SetMode] is global: [ReleaseMode] says that [New] sets it. *)
Record Server (E G : Type) := {
  engine : E; httpServer : http_Server; apiV1 : G; server_readiness : ReadinessChecker;
  ReleaseMode : bool; new_logs : list log
}.
Arguments engine {E G} _.
Arguments httpServer {E G} _.
Arguments apiV1 {E G} _.
Arguments server_readiness {E G} _.
Arguments ReleaseMode {E G} _.
Arguments new_logs {E G} _.

Section NewServer.
Context {L A E G : Type} `{!Router L A E G}.
Notation HandlerFunc := (HandlerFunc (L := L) (A := A)).
Notation Middleware := (Middleware (L := L) (A := A)).
Notation state := (gin * world L A)%type.

(** [arrivals] are the checks the server's checker has at a request, in the order in which their
    results arrive; [pprof] and [fgprof] are the profiling handlers. *)
Context (arrivals : world L A → list (string * checkFn)) (pprof fgprof : HandlerFunc).
Definition health_handler : HandlerFunc :=
  on_gin (JSON 200 (OtherBody ("{" +:+ Quote "status" +:+ ":" +:+ Quote "ok" +:+ "}"))).
Definition ready_handler : HandlerFunc := λ s,
  match Handler (arrivals s.2) with
  | Responds status resp => on_gin (write_json status (ReadinessBody resp)) s
  | Blocks => (Hangs, s)
  | Crashes => (Panics "readiness check", s)
  end.

Definition GET (p : string) (h : HandlerFunc) (e : E) : E := Handle (root e) "GET" p h e.
Definition New (cfg : HTTPConfig) (appCfg : AppConfig) : Server E G :=
  let '(logs, e) :=
    match HTTP_TrustedProxies cfg with
    | [] => ([], (SetTrustedProxies [] gin_New).2)
    | proxies =>
        match SetTrustedProxies proxies gin_New with
        | (Some err, e) =>
            ([{| lg_level := ErrorLevel; lg_message := "failed to set trusted proxies"; lg_fields := [("error", Error err)] |}], e)
        | (None, e) => ([], e)
        end
    end in
  let e := GET "/ready" ready_handler (GET "/health" health_handler e) in
  let e := if App_Debug appCfg && negb (App_Env appCfg =? EnvProduction)%string
           then GET "/debug/fgprof/profile" fgprof (GET "/debug/pprof/*any" pprof e) else e in
  {| engine := e; apiV1 := Group (root e) "/api/v1" [];
     httpServer := {| Addr := ":" +:+ pretty (HTTP_Port cfg); ReadTimeout := HTTP_ReadTimeout cfg;
                      ReadHeaderTimeout := HTTP_ReadHeaderTimeout cfg; WriteTimeout := HTTP_WriteTimeout cfg;
                      IdleTimeout := HTTP_IdleTimeout cfg; MaxHeaderBytes := HTTP_MaxHeaderBytes cfg |};
     server_readiness := NewReadinessChecker; ReleaseMode := negb (App_Debug appCfg); new_logs := logs |}.

(** [s.Engine().Use(...)]. *)
Definition Engine_Use (chain : list Middleware) (s : Server E G) : Server E G :=
  {| engine := Use chain (engine s); httpServer := httpServer s; apiV1 := apiV1 s;
     server_readiness := server_readiness s; ReleaseMode := ReleaseMode s; new_logs := new_logs s |}.
Definition set_engine (e : E) (s : Server E G) : Server E G :=
  {| engine := e; httpServer := httpServer s; apiV1 := apiV1 s;
     server_readiness := server_readiness s; ReleaseMode := ReleaseMode s; new_logs := new_logs s |}.

(** A request to the route of method [m] and pattern [p]. *)
Definition dispatch (e : E) (m p : string) : option HandlerFunc :=
  match route_chain e m p with Some (chain, h) => Some (serve chain h) | None => None end.

(** ** Which handlers run *)

Lemma GET_root p h e : group_chain (root (GET p h e)) = group_chain (root e).
Proof. apply handle_root. Qed.
Lemma New_chains cfg appCfg :
  group_chain (root (engine (New cfg appCfg))) = [] ∧ group_chain (apiV1 (New cfg appCfg)) = [].
Proof.
  assert (∀ e : E, group_chain (root e) = [] →
    let e := GET "/ready" ready_handler (GET "/health" health_handler e) in
    let e := if App_Debug appCfg && negb (App_Env appCfg =? EnvProduction)%string
             then GET "/debug/fgprof/profile" fgprof (GET "/debug/pprof/*any" pprof e) else e in
    group_chain (root e) = []) as Hr by (intros e He; cbv zeta; case_match; by rewrite !GET_root).
  unfold New. destruct (HTTP_TrustedProxies cfg) as [|p ps].
  - cbn. rewrite group_inherits, app_nil_r. split; apply Hr; by rewrite proxies_root, new_root.
  - pose proof (proxies_root (p :: ps) gin_New) as Hp. rewrite new_root in Hp.
    destruct (SetTrustedProxies (p :: ps) gin_New) as [[err|] e]; cbn in *;
      rewrite group_inherits, app_nil_r; split; by apply Hr.
Qed.

(** A route of the API group, or of a group below it with handlers of its own, registered on the
    server after its construction. *)
Definition api_route (s : Server E G) (sub : list Middleware) (m p : string) (h : HandlerFunc) : Server E G :=
  set_engine (Handle (Group (apiV1 s) "" sub) m p h (engine s)) s.

(** middleware added to the engine of a server that was built does not run for its routes.
    Whatever chain is passed to [Use] after [New], a route of the API group runs only the
    handlers of its own group before its handler, so without those a panic of the handler leaves
    gin and the response has no header but the handler's.  The chain runs only where no route
    matches. *)
Theorem api_routes_bypass_chain (cfg : HTTPConfig) (appCfg : AppConfig) (chain sub : list Middleware)
    (m p : string) (h : HandlerFunc) :
  let s := Engine_Use chain (New cfg appCfg) in
  let g := Group (apiV1 s) "" sub in
  route_chain (engine s) m (absolute g p) = None →
  dispatch (engine (api_route s sub m p h)) m (absolute g p) = Some (serve sub h)
  ∧ (∀ m' p', dispatch (engine s) m' p' = dispatch (engine (New cfg appCfg)) m' p')
  ∧ no_route_chain (engine s) = chain.
Proof.
  cbv zeta. intros Hn. destruct (New_chains cfg appCfg) as [Hroot Hapi]. split_and!.
  - unfold dispatch, api_route, set_engine. cbn [engine]. rewrite handle_route by done.
    rewrite group_inherits. cbn [apiV1 Engine_Use]. by rewrite Hapi.
  - intros m' p'. unfold dispatch. cbn [engine Engine_Use]. by rewrite use_routes.
  - cbn [engine Engine_Use]. by rewrite use_no_route, Hroot.
Qed.
End NewServer.

(** ** Starting and stopping *)

(** [ListenAndServe] always returns an error, [ErrServerClosed] after a shutdown. *)
Inductive serve_error := ErrServerClosed | ServeFailed (e : error).
Definition Start (r : serve_error) : option error :=
  match r with ServeFailed err => Some (Errorf_w "http server: " err) | ErrServerClosed => None end.
Definition Stop (r : option error) : option error := Errorf_w "http server shutdown: " <$> r.

(** metrics_server.go *)
Record MetricsServer := { ms_server : http_Server; ms_routes : list string }.
Definition NewMetricsServer (port : Z) : MetricsServer :=
  {| ms_routes := ["/metrics"];
     ms_server := {| Addr := ":" +:+ pretty port; ReadTimeout := 5 * 10 ^ 9; ReadHeaderTimeout := 0;
                     WriteTimeout := 10 * 10 ^ 9; IdleTimeout := 30 * 10 ^ 9; MaxHeaderBytes := 0 |} |}.
Definition MetricsServer_Start (r : serve_error) : option error :=
  match r with ServeFailed err => Some (Errorf_w "metrics server: " err) | ErrServerClosed => None end.
Definition MetricsServer_Stop (r : option error) : option error := Errorf_w "metrics server shutdown: " <$> r.

(** infra/grpc/server.go *)
Record grpc_Server := {
  gs_port : Z; gs_noop : bool; gs_listener : bool;
  MaxRecvMsgSize : Z; MaxSendMsgSize : Z; Keepalive : Z * Z; gs_interceptors : nat; gs_reflection : bool
}.
Definition grpc_NewNoop : grpc_Server :=
  {| gs_port := 0; gs_noop := true; gs_listener := false; MaxRecvMsgSize := 0; MaxSendMsgSize := 0;
     Keepalive := (0, 0)%Z; gs_interceptors := 0; gs_reflection := false |}.
Definition grpc_New (cfg : GRPCConfig) (interceptors : nat) : grpc_Server :=
  {| gs_port := GRPC_Port cfg; gs_noop := false; gs_listener := false;
     MaxRecvMsgSize := GRPC_MaxRecvMsgSize cfg; MaxSendMsgSize := GRPC_MaxSendMsgSize cfg;
     Keepalive := (GRPC_KeepaliveTime cfg, GRPC_KeepaliveTimeout cfg);
     gs_interceptors := interceptors; gs_reflection := true |}.
Definition with_listener (s : grpc_Server) : grpc_Server :=
  {| gs_port := gs_port s; gs_noop := gs_noop s; gs_listener := true; MaxRecvMsgSize := MaxRecvMsgSize s;
     MaxSendMsgSize := MaxSendMsgSize s; Keepalive := Keepalive s; gs_interceptors := gs_interceptors s;
     gs_reflection := gs_reflection s |}.
(** [listen] and [served] are what [net.Listen] and [Serve] return. *)
Definition grpc_Start (listen served : option error) (s : grpc_Server) : option error * grpc_Server :=
  if gs_noop s then (None, s)
  else match listen with
       | Some err => (Some (Errorf_w ("grpc server: listen on :" +:+ pretty (gs_port s) +:+ ": ") err), s)
       | None => (Errorf_w "grpc server: serve: " <$> served, with_listener s)
       end.
(** What the client library and the listener are asked to do. *)
Inductive grpc_call := GracefulStop | ForceStop | CloseListener.
(** [expired] is the error of the context when it is done before [GracefulStop] returned. *)
Definition grpc_Stop (expired : option error) (s : grpc_Server) : option error * list grpc_call :=
  if gs_noop s then (None, [])
  else
    let closing := if gs_listener s then [CloseListener] else [] in
    match expired with
    | None => (None, GracefulStop :: closing)
    | Some err => (Some (Errorf_w "grpc server: graceful stop timed out: " err), GracefulStop :: ForceStop :: closing)
    end.

(** ** Witnesses

    A router whose engine keeps the handlers of its root group and the routes with their chains. *)
Section SimpleRouter.
Context {L A : Type}.
Notation HandlerFunc := (HandlerFunc (L := L) (A := A)).
Notation Middleware := (Middleware (L := L) (A := A)).
Record simple_engine := {
  se_root : list Middleware; se_routes : list ((string * string) * (list Middleware * HandlerFunc))
}.
Definition find_route (rs : list ((string * string) * (list Middleware * HandlerFunc))) (k : string * string) :=
  snd <$> list_find (λ r, r.1 = k) rs.
Definition simple_lookup (e : simple_engine) (m p : string) : option (list Middleware * HandlerFunc) :=
  snd <$> find_route (se_routes e) (m, p).
#[local] Instance simple_router : Router L A simple_engine (string * list Middleware).
Proof.
  refine {|
    gin_New := {| se_root := []; se_routes := [] |};
    root e := (EmptyString, se_root e);
    Use hs e := {| se_root := se_root e ++ hs; se_routes := se_routes e |};
    Group g p hs := (g.1 +:+ p, g.2 ++ hs);
    Handle g m p h e := {| se_root := se_root e; se_routes := ((m, g.1 +:+ p), (g.2, h)) :: se_routes e |};
    SetTrustedProxies _ e := (None, e);
    absolute g p := g.1 +:+ p;
    group_chain g := g.2;
    route_chain := simple_lookup;
    no_route_chain e := se_root e
  |}; try done.
  - intros g m p h e _. unfold simple_lookup, find_route. cbn [se_routes]. cbn [list_find].
    by rewrite decide_True.
  - intros g m p h e m' p' Hne. unfold simple_lookup, find_route. cbn [se_routes list_find].
    rewrite decide_False by (intros E; apply Hne; by rewrite <- E).
    by destruct (list_find _ (se_routes e)) as [[i [k v]]|].
Defined.
End SimpleRouter.

Definition demo_http : HTTPConfig :=
  {| HTTP_Port := 8080; HTTP_ReadTimeout := 1; HTTP_ReadHeaderTimeout := 1; HTTP_WriteTimeout := 1; HTTP_IdleTimeout := 1;
     HTTP_MaxHeaderBytes := 1; HTTP_TrustedProxies := [];
     HTTP_CORS := {| CORS_AllowedOrigins := []; CORS_AllowedMethods := []; CORS_AllowedHeaders := [];
                     CORS_AllowCredentials := false; CORS_MaxAge := 0 |} |}.
Definition demo_app : AppConfig :=
  {| App_Name := "wolf"; App_Env := "production"; App_Debug := false; App_ShutdownTimeout := 0 |}.
(** The server of [demo_http] with the full chain of Http.v on its engine. *)
Definition demo_server : Server simple_engine (string * list (Middleware (L := Z) (A := unit))) :=
  Engine_Use (Router0 := simple_router) full_chain
    (New (Router0 := simple_router) (λ _, []) answering answering demo_http demo_app).

Example api_routes_bypass_chain_witness :
  dispatch (Router0 := simple_router)
    (engine (api_route (Router0 := simple_router) demo_server [] "GET" "/orders" panicking)) "GET" "/api/v1/orders"
  = Some panicking
  ∧ panicking (get_users, fresh_world) = (Panics "boom", (get_users, fresh_world)).
Proof.
  split; [|reflexivity].
  exact (proj1 (api_routes_bypass_chain (Router0 := simple_router) (λ _, []) answering answering demo_http demo_app full_chain
    [] "GET" "/orders" panicking eq_refl)).
Defined.
