(* ===== verification/Bootstrap.v ===== *)
(** * The composition root

    [Bootstrap.v] models infra/bootstrap/app.go: [New] with the closers it runs when it fails,
    [RegisterModule] and [RegisterModules], the container handed to the modules, and [Run] as a
    machine of the goroutines of its group.  It is built from the other components: loading the
    configuration (Config.v), the registry of metrics (Observability.v), the middleware chain
    (Http.v), the servers (Server.v) and the boot order (TopoSort.v).  What opens a connection is
    an argument: the tracer, the pools, the cache, the event bus, the stream.  [Observability.v]
    and [Nats.v] prove of the pools and of the NATS bus the laws that are assumed here. *)

From S2P Require Import Prelude Errors GoText TopoSort Event Outbox OutboxWorker RateLimit Observability.
From S2P Require Import GoTime OutboxNotify Json EventBus EventStream Http Server Config.
Local Open Scope go_scope.

(** ** Modules *)

Section App.
(** The worlds and types of the platform: [W] is the process without the metrics package; [D] a
    database pool, [C] a cache client, [B] an event bus, [St] a stream, [T] a tracer provider, [J]
    the token service with [K] its session checkers, [L] and [A] as in Http.v. *)
Context {W D C B St T J K L A E G gotype : Type}.
Context `{!Limiter L} `{!Router L A E G} `{!Registry (option D) W} `{Viper}.
Notation HandlerFunc := (HandlerFunc (L := L) (A := A)).
Notation Middleware := (Middleware (L := L) (A := A)).
Notation state := (metrics_pkg * W)%type.

(** What bootstrap uses of a [runtime.Module].  The fields with [option] are the optional
    interfaces a module may implement.  An element of [HTTPMiddleware] that is not a handler has
    the name of its type; [HealthChecks] lists a map in the order it is ranged over. *)
Record Module := {
  m_Name : string;
  m_RegisterEvents : TypeRegistry gotype → TypeRegistry gotype;
  m_RegisterSubscribers : B → prog W (option error);
  m_RegisterStreams : option (St → prog W (option error));
  m_HTTPMiddleware : option (list (Middleware + string));
  m_HealthChecks : option (list (string * checkFn));
  m_RegisterHTTP : G → E → outcome E;
  m_RegisterGRPC : list string → outcome (list string);
  m_OnStart : prog W (option error);
  m_SessionRevocationChecker : option K;
  m_DependsOn : option (list string)
}.

(** ** The application *)

Inductive Blacklist := RedisBlacklist | NoopBlacklist.
Record App := {
  a_cfg : Config.Config; a_writeDB : D; a_readDB : D; a_cache : C; a_eventBus : B;
  a_outboxWorker : Worker; a_outboxNotifier : option string;
  a_metrics : option (list collector); a_tracer : option T; a_jwt : J; a_blacklist : Blacklist;
  a_perIPLimiter : bool; a_httpServer : Server E G; a_metricsServer : option MetricsServer;
  a_grpcServer : grpc_Server; a_services : list string; a_modules : list Module;
  a_typeRegistry : TypeRegistry gotype; a_stream : St
}.

(** The constructors of the platform. *)
Context (logging : string → string → string → string → option error).
Context (init_tracing : string → string → string → float64 → bool → prog W (result error T)).
Context (open_write open_read : DBConfig → prog W (result error D)).
Context (new_cache : string → RedisConfig → LocalCacheConfig → prog W (result error C)).
Context (new_jwt : JWTConfig → result error J).
Context (new_bus : string → prog W (result error B)).
Context (new_stream : string → NATSConfig → prog W (result error (St * option checkFn))).
Context (tp_Shutdown : T → prog W unit) (db_Close : D → prog W unit) (cache_Close : C → prog W unit).
Context (bus_Close : B → prog W unit).
(** The arguments of the middleware chain and of the server. *)
Context (uuid : nat → string) (cors_New : cors_Config → outcome Middleware).
Context (first : gmap string (clientEntry L) → option string) (Tracing : string → Middleware).
Context (arrivals : Http.world L A → list (string * checkFn)) (pprof fgprof : HandlerFunc).
(** The checks of the pools, the cache and the lag of the outbox. *)
Context (check_write check_read : D → checkFn) (cache_Ping : C → checkFn) (outbox_lag : D → Z → checkFn).

(** The deferred function: on an error the closers run, the last one first. *)
Definition close_all (closers : list (prog W unit)) : prog W unit :=
  foldr (λ close rest, let! _ := close in rest) (pret ()) (rev closers).
Definition failed {X} (closers : list (prog W unit)) (what : string) (err : error) : prog state (result error X) :=
  let! _ := lift (close_all closers) in pret (Err (Errorf_w what err)).

Definition chain_deps (cfg : Config.Config) : ChainDeps :=
  {| cd_PerIPLimiter := (0 <? RPS (RateLimit cfg))%Z; cd_LoadShed := LoadShed cfg;
     cd_Timeout := HTTP_WriteTimeout (HTTP cfg); cd_ServiceName := App_Name (Config.App cfg);
     cd_SecurityHeaders := SecurityHeaders cfg; cd_CORS := HTTP_CORS (HTTP cfg) |}.
Definition probes (cfg : Config.Config) (writeDB readDB : D) (cache : C) (broker : option checkFn)
    (r : ReadinessChecker) : ReadinessChecker :=
  let r := Add "postgres_write" (check_write writeDB) r in
  let r := Add "postgres_read" (check_read readDB) r in
  let r := Add "cache" (cache_Ping cache) r in
  let r := match broker with Some check => Add "broker" check r | None => r end in
  if (0 <? Outbox_HealthThreshold (Outbox cfg))%Z
  then Add "outbox_lag" (outbox_lag writeDB (Outbox_HealthThreshold (Outbox cfg))) r else r.
Definition set_readiness (r : ReadinessChecker) (s : Server E G) : Server E G :=
  {| engine := engine s; httpServer := httpServer s; apiV1 := apiV1 s; server_readiness := r;
     ReleaseMode := ReleaseMode s; new_logs := new_logs s |}.
Definition new_worker (cfg : OutboxConfig) : Worker :=
  let w := WithPollTimeout (Outbox_PollTimeout cfg)
             (WithCircuitBreaker
                (WithDLQ (NewWorker (Outbox_PollInterval cfg) (Outbox_BatchSize cfg) (Outbox_MaxRetries cfg) (Outbox_Retention cfg)))) in
  if Outbox_NotifyEnabled cfg then WithNotify w else w.
Definition interceptors : nat := length (BuildInterceptors (A := unit) (R := unit) (λ _, EmptyString)).

(** Steps 10c to 14 of [New], from the stream to the application.  None of them returns an error,
    so the closer of the stream never runs. *)
Definition assemble (cfg : Config.Config) (appMetrics : option (list collector)) (tp : option T) (writeDB readDB : D)
    (cache : C) (jwt : J) (bus : B) (stream : St) (broker : option checkFn) : prog state (result error App) :=
  let httpServer := Server.New arrivals pprof fgprof (HTTP cfg) (Config.App cfg) in
  let! chain := (λ s, (BuildChain uuid cors_New first Tracing (chain_deps cfg), s)) in
  let httpServer := Engine_Use chain httpServer in
  let grpcServer := if GRPC_IsEnabled (GRPC cfg) then grpc_New (GRPC cfg) interceptors else grpc_NewNoop in
  let! _ := lift (NewPoolMetrics (Some writeDB) (Some readDB)) in
  let readiness := probes cfg writeDB readDB cache broker (server_readiness httpServer) in
  pret (Ok
    {| a_cfg := cfg; a_writeDB := writeDB; a_readDB := readDB; a_cache := cache; a_eventBus := bus;
       a_outboxWorker := new_worker (Outbox cfg);
       a_outboxNotifier := if Outbox_NotifyEnabled (Outbox cfg) then Some (DSN (DB_Write (DB cfg))) else None;
       a_metrics := appMetrics; a_tracer := tp; a_jwt := jwt;
       a_blacklist := if (Cache_Driver (Config.Cache cfg) =? "redis")%string then RedisBlacklist else NoopBlacklist;
       a_perIPLimiter := (0 <? RPS (RateLimit cfg))%Z; a_httpServer := set_readiness readiness httpServer;
       a_metricsServer := if Metrics_Enabled (Config.Metrics cfg)
                          then Some (NewMetricsServer (Metrics_Port (Config.Metrics cfg))) else None;
       a_grpcServer := grpcServer; a_services := []; a_modules := []; a_typeRegistry := NewTypeRegistry;
       a_stream := stream |}).

(** Steps 5 to 10b. *)
Definition connect (cfg : Config.Config) (appMetrics : option (list collector)) (tp : option T)
    (closers : list (prog W unit)) : prog state (result error App) :=
  let! r := lift (open_write (DB cfg)) in
  match r with Err err => failed closers "bootstrap: write db pool: " err | Ok writeDB =>
  let closers := closers ++ [db_Close writeDB] in
  let! r := lift (open_read (DB cfg)) in
  match r with Err err => failed closers "bootstrap: read db pool: " err | Ok readDB =>
  let closers := closers ++ [db_Close readDB] in
  let! r := lift (new_cache (Cache_Driver (Config.Cache cfg)) (Config.Redis cfg) (Cache_Local (Config.Cache cfg))) in
  match r with Err err => failed closers "bootstrap: cache client: " err | Ok cache =>
  let closers := closers ++ [cache_Close cache] in
  match new_jwt (JWT cfg) with Err err => failed closers "bootstrap: jwt service: " err | Ok jwt =>
  let! r := lift (new_bus (Broker_Driver (Config.Broker cfg))) in
  match r with Err err => failed closers "bootstrap: event bus: " err | Ok bus =>
  let closers := closers ++ [bus_Close bus] in
  let! r := lift (new_stream (Broker_Driver (Config.Broker cfg)) (NATS cfg)) in
  match r with Err err => failed closers "bootstrap: messaging stream: " err | Ok (stream, broker) =>
  assemble cfg appMetrics tp writeDB readDB cache jwt bus stream broker
  end end end end end end.

Definition New (cfgPath : string) : prog state (result error App) :=
  match Load cfgPath with Err err => failed [] "bootstrap: load config: " err | Ok cfg =>
  match logging (Log_Level (Log cfg)) (Log_Format (Log cfg)) (App_Name (Config.App cfg)) (App_Env (Config.App cfg)) with
  | Some err => failed [] "bootstrap: init logger: " err
  | None =>
  let! appMetrics := metrics_New None in
  let! _ := lift (RegisterRuntimeMetrics None) in
  if Otel_Enabled (Otel cfg) then
    let! r := lift (init_tracing (App_Name (Config.App cfg)) (App_Env (Config.App cfg)) (Otel_Endpoint (Otel cfg))
                      (Otel_SampleRate (Otel cfg)) (Otel_Insecure (Otel cfg))) in
    match r with
    | Err err => failed [] "bootstrap: init tracing: " err
    | Ok tp => connect cfg appMetrics (Some tp) [tp_Shutdown tp]
    end
  else connect cfg appMetrics None []
  end end.

(** ** Registering modules *)

Notation boot_state := (App * W)%type.
Definition on_world {X} (m : prog W X) : prog boot_state X := λ s, let (r, w) := m s.2 in (r, (s.1, w)).
Definition modify (f : App → App) : prog boot_state unit := λ s, (Returns (), (f s.1, s.2)).
(** The fields that registering modules changes. *)
Definition update (a : App) (server : Server E G) (services : list string) (modules : list Module)
    (types : TypeRegistry gotype) (jwt : J) : App :=
  {| a_cfg := a_cfg a; a_writeDB := a_writeDB a; a_readDB := a_readDB a; a_cache := a_cache a;
     a_eventBus := a_eventBus a; a_outboxWorker := a_outboxWorker a; a_outboxNotifier := a_outboxNotifier a;
     a_metrics := a_metrics a; a_tracer := a_tracer a; a_jwt := jwt; a_blacklist := a_blacklist a;
     a_perIPLimiter := a_perIPLimiter a; a_httpServer := server; a_metricsServer := a_metricsServer a;
     a_grpcServer := a_grpcServer a; a_services := services; a_modules := modules;
     a_typeRegistry := types; a_stream := a_stream a |}.
Definition set_server (s : Server E G) (a : App) : App :=
  update a s (a_services a) (a_modules a) (a_typeRegistry a) (a_jwt a).
Definition set_services (l : list string) (a : App) : App :=
  update a (a_httpServer a) l (a_modules a) (a_typeRegistry a) (a_jwt a).
Definition add_module (m : Module) (a : App) : App :=
  update a (a_httpServer a) (a_services a) (a_modules a ++ [m]) (a_typeRegistry a) (a_jwt a).
Definition set_types (t : TypeRegistry gotype) (a : App) : App :=
  update a (a_httpServer a) (a_services a) (a_modules a) t (a_jwt a).
Definition set_jwt (j : J) (a : App) : App :=
  update a (a_httpServer a) (a_services a) (a_modules a) (a_typeRegistry a) j.

(** The handlers of [HTTPMiddleware], or the index and type of the first other element. *)
Fixpoint assert_handlers (i : nat) (raw : list (Middleware + string)) : (nat * string) + list Middleware :=
  match raw with
  | [] => inr []
  | inr ty :: _ => inl (i, ty)
  | inl h :: raw => match assert_handlers (S i) raw with inl e => inl e | inr hs => inr (h :: hs) end
  end.
Definition module_router (m : Module) (s : Server E G) : error + G :=
  match m_HTTPMiddleware m with
  | None | Some [] => inr (apiV1 s)
  | Some raw =>
      match assert_handlers 0 raw with
      | inl (i, ty) =>
          inl (EText ("bootstrap: module " +:+ Quote (m_Name m) +:+ ": HTTPMiddleware element " +:+ pretty i
                      +:+ " is not gin.HandlerFunc (got " +:+ ty +:+ ")"))
      | inr handlers => inr (Group (apiV1 s) EmptyString handlers)
      end
  end.
Definition module_probes (m : Module) (r : ReadinessChecker) : ReadinessChecker :=
  foldl (λ r nc, Add (m_Name m +:+ "_" +:+ nc.1) nc.2 r) r (default [] (m_HealthChecks m)).
(** Calls of the module that may panic. *)
Definition mount (m : Module) (router : G) : prog boot_state unit := λ s,
  match m_RegisterHTTP m router (engine (a_httpServer s.1)) with
  | Returns e => (Returns (), (set_server (set_engine e (a_httpServer s.1)) s.1, s.2))
  | Panics msg => (Panics msg, s)
  | Hangs => (Hangs, s)
  end.
Definition serve_grpc (m : Module) : prog boot_state unit := λ s,
  match m_RegisterGRPC m (a_services s.1) with
  | Returns l => (Returns (), (set_services l s.1, s.2))
  | Panics msg => (Panics msg, s)
  | Hangs => (Hangs, s)
  end.

Definition RegisterModule (m : Module) : prog boot_state (option error) := λ s,
  (let! err := on_world (m_RegisterSubscribers m (a_eventBus s.1)) in
   match err with
   | Some err => pret (Some (Errorf_w ("bootstrap: register subscribers for module " +:+ Quote (m_Name m) +:+ ": ") err))
   | None =>
   let! err := match m_RegisterStreams m with
               | Some register => on_world (register (a_stream s.1))
               | None => pret None
               end in
   match err with
   | Some err => pret (Some (Errorf_w ("bootstrap: register streams for module " +:+ Quote (m_Name m) +:+ ": ") err))
   | None =>
   match module_router m (a_httpServer s.1) with
   | inl err => pret (Some err)
   | inr router =>
   let! _ := modify (λ a, set_server (set_readiness (module_probes m (server_readiness (a_httpServer a)))
                                        (a_httpServer a)) a) in
   let! _ := mount m router in
   let! _ := serve_grpc m in
   let! _ := modify (add_module m) in
   pret None
   end end end) s.

(** [App.Container]: what a module factory gets. *)
Record ModularContainer := {
  ct_Config : Config; ct_WriteDB : D; ct_ReadDB : D; ct_Cache : C; ct_EventBus : B; ct_Stream : St;
  ct_JWTService : J; ct_TypeRegistry : TypeRegistry gotype; ct_Metrics : option (list collector)
}.
Definition Container (a : App) : ModularContainer :=
  {| ct_Config := a_cfg a; ct_WriteDB := a_writeDB a; ct_ReadDB := a_readDB a; ct_Cache := a_cache a;
     ct_EventBus := a_eventBus a; ct_Stream := a_stream a; ct_JWTService := a_jwt a;
     ct_TypeRegistry := a_typeRegistry a; ct_Metrics := a_metrics a |}.
Record CatalogEntry := { ce_Name : string; ce_Factory : ModularContainer → prog W Module }.

(** The registry sees a module through its name and dependencies. *)
Definition as_rmodule (m : Module) : Modular.RModule :=
  {| Modular.Name := m_Name m; Modular.DependsOn := m_DependsOn m |}.
(** The first loop of [RegisterModules]; [created] are the modules of the registry. *)
Fixpoint create_modules (ctr : ModularContainer) (manifest : list CatalogEntry) (registry : Modular.Registry)
    (created : list Module) : prog boot_state (result error (Modular.Registry * list Module)) :=
  match manifest with
  | [] => pret (Ok (registry, created))
  | entry :: manifest => λ s,
      (if negb (Modules_IsEnabled (Modules (a_cfg s.1)) (ce_Name entry)) then create_modules ctr manifest registry created
       else
         let! m := on_world (ce_Factory entry ctr) in
         let! _ := modify (λ a, set_types (m_RegisterEvents m (a_typeRegistry a)) a) in
         match Modular.Register registry (as_rmodule m) with
         | Err err => pret (Err (Errorf_w "bootstrap: " err))
         | Ok registry => create_modules ctr manifest registry (created ++ [m])
         end) s
  end.
(** [SetSessionRevocationChecker] on the token service. *)
Context (set_checker : K → J → J).
Definition first_checker (ordered : list Module) : option K := head (omap m_SessionRevocationChecker ordered).
Fixpoint register_modules (ordered : list Module) : prog boot_state (option error) :=
  match ordered with
  | [] => pret None
  | m :: ordered =>
      let! err := RegisterModule m in
      match err with Some err => pret (Some err) | None => register_modules ordered end
  end.
Definition by_name (ms : list Module) (r : Modular.RModule) : option Module :=
  snd <$> list_find (λ m, m_Name m = Modular.Name r) ms.
Context `{!MapRange}.
Definition RegisterModules (manifest : list CatalogEntry) : prog boot_state (option error) := λ s,
  (let! r := create_modules (Container s.1) manifest Modular.NewRegistry [] in
   match r with
   | Err err => pret (Some err)
   | Ok (registry, created) =>
       match Modular.Modules registry with
       | None => λ s, (Hangs, s)
       | Some (Err err) => pret (Some (Errorf_w "bootstrap: " err))
       | Some (Ok ordered) =>
           let ordered := omap (λ r, r ≫= by_name created) ordered in
           let! _ := modify (λ a, match first_checker ordered with
                                  | Some p => set_jwt (set_checker p (a_jwt a)) a
                                  | None => a
                                  end) in
           register_modules ordered
       end
   end) s.

(** The first loop of [Run]. *)
Fixpoint start_modules (ms : list Module) : prog W (option error) :=
  match ms with
  | [] => pret None
  | m :: ms =>
      let! err := m_OnStart m in
      match err with
      | Some err => pret (Some (Errorf_w ("bootstrap: module " +:+ Quote (m_Name m) +:+ " OnStart: ") err))
      | None => start_modules ms
      end
  end.

(** ** What [New] leaves open *)

Inductive resource :=
| TracerProvider (tp : T) | SqlPool (db : D) | CacheClient (c : C) | EventBus (b : B) | MessagingStream (st : St).
Context (held : W → list resource).
Record platform_laws : Prop := {
  tracing_acquires a b c d e : acquires held TracerProvider (init_tracing a b c d e);
  write_acquires c : acquires held SqlPool (open_write c);
  read_acquires c : acquires held SqlPool (open_read c);
  cache_acquires a b c : acquires held CacheClient (new_cache a b c);
  bus_acquires d : acquires held EventBus (new_bus d);
  stream_acquires d n : acquires held (λ r, MessagingStream r.1) (new_stream d n);
  tracing_releases tp : releases held (TracerProvider tp) (tp_Shutdown tp);
  pool_releases db : releases held (SqlPool db) (db_Close db);
  cache_releases c : releases held (CacheClient c) (cache_Close c);
  bus_releases b : releases held (EventBus b) (bus_Close b);
  register_preserves c r : preserves held (Register (R := option D) c r)
}.
(** What an application has open, in the order it was opened. *)
Definition opened (tp : option T) : list resource := match tp with Some tp => [TracerProvider tp] | None => [] end.
Definition app_resources (app : App) : list resource :=
  opened (a_tracer app)
  ++ [SqlPool (a_writeDB app); SqlPool (a_readDB app); CacheClient (a_cache app); EventBus (a_eventBus app);
      MessagingStream (a_stream app)].

(** The rest of [New] when [acc] was opened since its start. *)
Definition tidy (cfg : Config) (acc : list resource) (k : prog state (result error App)) : Prop := ∀ s base,
  held s.2 = base ++ acc →
  match k s with
  | (Returns (Ok app), s') => held s'.2 = base ++ app_resources app ∧ a_cfg app = cfg
  | (Returns (Err _), s') => held s'.2 = base
  | _ => True
  end.
Notation closes := (Forall2 (λ r c, releases held r c)).

Lemma close_all_releases acc closers s base :
  closes acc closers → held s = base ++ acc → ∃ s', close_all closers s = (Returns (), s') ∧ held s' = base.
Proof.
  unfold close_all. revert acc s. induction closers as [|c closers IH] using rev_ind; intros acc s Hc Hs.
  { apply Forall2_nil_inv_r in Hc as ->. exists s. by rewrite app_nil_r in Hs. }
  apply Forall2_app_inv_r in Hc as (acc' & rs & Hc & Hr & ->). apply Forall2_cons_inv_r in Hr as (r & rs' & Hr & Hn & ->).
  apply Forall2_nil_inv_r in Hn as ->. rewrite rev_unit. cbn [foldr]. rewrite app_assoc in Hs.
  destruct (Hr s _ Hs) as ([] & s1 & E1 & Hs1). destruct (IH acc' s1 Hc Hs1) as (s2 & E2 & Hs2).
  exists s2. unfold pbind at 1. by rewrite E1, E2.
Qed.
Lemma closes_snoc acc closers r (c : prog W unit) : closes acc closers → releases held r c → closes (acc ++ [r]) (closers ++ [c]).
Proof. intros Hc Hr. apply Forall2_app; [done|]. by constructor. Qed.
Lemma failed_tidy cfg acc closers what err : closes acc closers → tidy cfg acc (failed closers what err).
Proof.
  intros Hc s base Hs. destruct (close_all_releases acc closers s.2 base Hc Hs) as (s' & E1 & Hs').
  unfold failed, pbind, lift. by rewrite E1.
Qed.
Lemma acquire_tidy {X} (r : X → resource) cfg acc closers what (m : prog W (result error X)) k :
  acquires held r m → closes acc closers → (∀ a, tidy cfg (acc ++ [r a]) (k a)) →
  tidy cfg acc (let! x := lift m in match x with Err err => failed closers what err | Ok a => k a end).
Proof.
  intros Hm Hc Hk s base Hs. specialize (Hm s.2). unfold pbind, lift.
  destruct (m s.2) as [[[a|err]|msg|] w1]; [| |done..].
  - apply Hk. cbn. rewrite Hm, Hs. by rewrite <- app_assoc.
  - apply (failed_tidy cfg acc closers what err Hc (s.1, w1) base). cbn. by rewrite Hm.
Qed.
Lemma preserve_tidy {X} cfg acc (m : prog state X) k :
  preserves (λ s, held s.2) m → (∀ a, tidy cfg acc (k a)) → tidy cfg acc (pbind m k).
Proof.
  intros Hm Hk s base Hs. specialize (Hm s). unfold pbind. destruct (m s) as [[a|msg|] s1]; cbn in Hm; [|done..].
  apply Hk. by rewrite Hm.
Qed.
Lemma lift_preserves {X} (m : prog W X) : preserves held m → preserves (λ s : state, held s.2) (lift m).
Proof. intros Hm s. specialize (Hm s.2). unfold lift. by destruct (m s.2). Qed.

Section Tidy.
Hypothesis laws : platform_laws.
Lemma MustRegister_preserves cs : preserves held (MustRegister cs).
Proof using laws.
  induction cs as [|[c r] cs IH]; [apply preserves_ret|]. cbn [MustRegister].
  apply preserves_bind; [apply (register_preserves laws)|]. by intros [err|].
Qed.
Lemma register_all_preserves cs : preserves held (register_all cs).
Proof using laws.
  induction cs as [|[c r] cs IH]; [apply preserves_ret|]. cbn [register_all].
  by apply preserves_bind; [apply (register_preserves laws)|].
Qed.
Lemma metrics_New_preserves : preserves (λ s : state, held s.2) (metrics_New None).
Proof using laws.
  intros [p w]. unfold metrics_New, newMetrics, pbind, lift, pret. cbn [fst snd]. destruct (singletonOnce p); [done|].
  pose proof (MustRegister_preserves (map (λ c, (c, None)) service_collectors) w) as Hm.
  by destruct (MustRegister _ w) as [[[]|msg|] w'].
Qed.

Lemma assemble_tidy cfg ms tp wr rd ca jwt bus st br :
  tidy cfg (opened tp ++ [SqlPool wr; SqlPool rd; CacheClient ca; EventBus bus; MessagingStream st])
    (assemble cfg ms tp wr rd ca jwt bus st br).
Proof using laws.
  unfold assemble. apply preserve_tidy; [done|]. intros chain. apply preserve_tidy.
  - apply lift_preserves. unfold NewPoolMetrics. apply preserves_bind; [apply register_all_preserves|done].
  - by intros _ s base Hs.
Qed.
Lemma connect_tidy cfg ms tp closers :
  closes (opened tp) closers → tidy cfg (opened tp) (connect cfg ms tp closers).
Proof using laws.
  intros Hc. unfold connect.
  apply (acquire_tidy SqlPool); [apply (write_acquires laws)|done|]. intros wr.
  assert (Hc1 := closes_snoc _ _ _ _ Hc (pool_releases laws wr)).
  apply (acquire_tidy SqlPool); [apply (read_acquires laws)|done|]. intros rd.
  assert (Hc2 := closes_snoc _ _ _ _ Hc1 (pool_releases laws rd)).
  apply (acquire_tidy CacheClient); [apply (cache_acquires laws)|done|]. intros ca.
  assert (Hc3 := closes_snoc _ _ _ _ Hc2 (cache_releases laws ca)).
  destruct (new_jwt (JWT cfg)) as [jwt|err]; [|by apply failed_tidy].
  apply (acquire_tidy EventBus); [apply (bus_acquires laws)|done|]. intros bus.
  assert (Hc4 := closes_snoc _ _ _ _ Hc3 (bus_releases laws bus)).
  apply (acquire_tidy (λ r, MessagingStream r.1)); [apply (stream_acquires laws)|done|]. intros [st br].
  pose proof (assemble_tidy cfg ms tp wr rd ca jwt bus st br) as Ha. by rewrite <- !app_assoc.
Qed.

End Tidy.

(** ** Boot order *)

(** Steps that leave the modules and the configuration of the application alone. *)
Definition keeps_modules {X} (m : prog boot_state X) : Prop := ∀ s,
  a_modules (m s).2.1 = a_modules s.1 ∧ a_cfg (m s).2.1 = a_cfg s.1.
Lemma keeps_modules_ret {X} (x : X) : keeps_modules (pret x).
Proof. done. Qed.
Lemma keeps_modules_bind {X Y} (m : prog boot_state X) (k : X → prog boot_state Y) :
  keeps_modules m → (∀ x, keeps_modules (k x)) → keeps_modules (pbind m k).
Proof.
  intros Hm Hk s. destruct (Hm s) as [H1 H2]. unfold pbind. destruct (m s) as [[x|msg|] s1]; [|done..].
  destruct (Hk x s1) as [H3 H4]. cbn in *. by rewrite H3, H4.
Qed.
Lemma keeps_modules_world {X} (m : prog W X) : keeps_modules (on_world m).
Proof. intros s. unfold on_world. by destruct (m s.2). Qed.
Lemma mount_keeps m g : keeps_modules (mount m g).
Proof. intros s. unfold mount. by destruct (m_RegisterHTTP m g _). Qed.
Lemma serve_grpc_keeps m : keeps_modules (serve_grpc m).
Proof. intros s. unfold serve_grpc. by destruct (m_RegisterGRPC m _). Qed.

Definition enabled (cfg : Config) (manifest : list CatalogEntry) : list CatalogEntry :=
  filter (λ e, Modules_IsEnabled (Modules cfg) (ce_Name e) = true) manifest.
Lemma enabled_cons cfg e manifest :
  enabled cfg (e :: manifest)
  = if Modules_IsEnabled (Modules cfg) (ce_Name e) then e :: enabled cfg manifest else enabled cfg manifest.
Proof.
  unfold enabled. rewrite filter_cons. by destruct (Modules_IsEnabled (Modules cfg) (ce_Name e)).
Qed.

Lemma create_modules_spec ctr manifest registry created s r s' :
  Modular.registry_ok registry → Modular.modules registry = map as_rmodule created →
  create_modules ctr manifest registry created s = (Returns r, s') →
  a_modules s'.1 = a_modules s.1
  ∧ match r with
    | Ok (registry', created') =>
        Modular.registry_ok registry' ∧ Modular.modules registry' = map as_rmodule created'
        ∧ length created' = length created + length (enabled (a_cfg s.1) manifest)
    | Err _ => True
    end.
Proof.
  revert registry created s. induction manifest as [|e manifest IH]; intros registry created s Hok Hms; cbn [create_modules].
  { intros [= <- <-]. split_and!; [done..|]. cbn. lia. }
  rewrite enabled_cons. destruct (Modules_IsEnabled (Modules (a_cfg s.1)) (ce_Name e)); cbn [negb]; [|by apply IH].
  intros (m & s1 & E1 & E2)%pbind_returns. pose proof (keeps_modules_world (ce_Factory e ctr) s) as [Hm1 Hc1].
  rewrite E1 in Hm1, Hc1. cbn [snd] in Hm1, Hc1. apply pbind_returns in E2 as ([] & s2 & [= <-] & E2).
  destruct (Modular.Register registry (as_rmodule m)) as [registry'|err] eqn:Er.
  - apply IH in E2; [| |].
    + cbn [fst a_modules a_cfg set_types update] in E2. rewrite Hm1, Hc1 in E2. destruct E2 as [-> E2]. split; [done|].
      destruct r as [[reg' cr']|]; [|done]. destruct E2 as (? & ? & Hl). split_and!; [done..|].
      rewrite Hl, length_app. cbn. lia.
    + by eapply Modular.Register_ok.
    + unfold Modular.Register in Er. case_decide; [done|]. injection Er as <-. cbn. by rewrite Hms, map_app.
  - injection E2 as <- <-. by rewrite <- Hm1.
Qed.

Lemma RegisterModule_modules m s r s' :
  RegisterModule m s = (Returns r, s') →
  a_modules s'.1 = a_modules s.1 ++ match r with None => [m] | Some _ => [] end.
Proof.
  unfold RegisterModule. intros (e1 & s1 & E1 & Hrun)%pbind_returns.
  pose proof (keeps_modules_world (m_RegisterSubscribers m (a_eventBus s.1)) s) as [H1 _]. rewrite E1 in H1. cbn in H1.
  destruct e1 as [err|]; [injection Hrun as <- <-; by rewrite app_nil_r|].
  apply pbind_returns in Hrun as (e2 & s2 & E2 & Hrun).
  assert (a_modules s2.1 = a_modules s1.1) as H2.
  { destruct (m_RegisterStreams m) as [reg|]; [|by injection E2 as <- <-].
    pose proof (keeps_modules_world (reg (a_stream s.1)) s1) as [Hr _]. by rewrite E2 in Hr. }
  destruct e2 as [err|]; [injection Hrun as <- <-; by rewrite app_nil_r, H2|].
  destruct (module_router m (a_httpServer s.1)) as [err|g]; [injection Hrun as <- <-; by rewrite app_nil_r, H2|].
  apply pbind_returns in Hrun as ([] & s3 & E3 & Hrun). injection E3 as <-.
  apply pbind_returns in Hrun as ([] & s4 & E4 & Hrun). apply pbind_returns in Hrun as ([] & s5 & E5 & Hrun).
  apply pbind_returns in Hrun as ([] & s6 & E6 & Hrun). injection E6 as <-. injection Hrun as <- <-.
  match type of E4 with mount m g ?s = _ => pose proof (mount_keeps m g s) as [H4 _] end.
  pose proof (serve_grpc_keeps m s4) as [H5 _]. rewrite E4 in H4. rewrite E5 in H5. cbn in *. congruence.
Qed.

Lemma register_modules_spec ordered s r s' :
  register_modules ordered s = (Returns r, s') →
  ∃ l rest, ordered = l ++ rest ∧ a_modules s'.1 = a_modules s.1 ++ l ∧ (r = None → rest = []).
Proof.
  revert s. induction ordered as [|m ordered IH]; intros s; cbn [register_modules].
  { intros [= <- <-]. exists [], []. split_and!; [done|by rewrite app_nil_r|done]. }
  intros (e & s1 & E1 & Hrun)%pbind_returns. apply RegisterModule_modules in E1. destruct e as [err|].
  - injection Hrun as <- <-. exists [], (m :: ordered). split_and!; [done|by rewrite E1|done].
  - apply IH in Hrun as (l & rest & -> & Hl & Hr). exists (m :: l), rest. split_and!; [done| |done].
    by rewrite Hl, E1, <- app_assoc.
Qed.

Lemma by_name_find (ms : list Module) m : NoDup (map m_Name ms) → m ∈ ms → by_name ms (as_rmodule m) = Some m.
Proof.
  unfold by_name. intros Hnd Hm. induction ms as [|m0 ms IH]; [by apply elem_of_nil in Hm|].
  cbn in Hnd. apply NoDup_cons in Hnd as [Hn Hnd]. cbn [list_find as_rmodule Modular.Name].
  apply elem_of_cons in Hm as [->|Hm]; [by rewrite decide_True|].
  rewrite decide_False by (intros Heq; apply Hn; rewrite Heq; apply list_elem_of_fmap; by exists m).
  specialize (IH Hnd Hm). cbn [as_rmodule Modular.Name] in IH.
  by destruct (list_find _ ms) as [[i x]|].
Qed.
Lemma by_name_order (created ms : list Module) :
  NoDup (map m_Name created) → ms ⊆ created →
  omap (λ r, r ≫= by_name created) (map Some (map as_rmodule ms)) = ms.
Proof.
  intros Hnd. induction ms as [|m ms IH]; intros Hs; [done|]. cbn. rewrite by_name_find by (done || apply Hs; by left).
  f_equal. apply IH. intros x Hx. apply Hs. by right.
Qed.

(** Each module once, after the modules it depends on. *)
Definition booted (ms : list Module) : Prop :=
  NoDup (map m_Name ms)
  ∧ ∀ pre m post, ms = pre ++ m :: post → ∀ d, d ∈ default [] (m_DependsOn m) → d ∈ map m_Name pre.
Lemma booted_prefix l rest : booted (l ++ rest) → booted l.
Proof.
  intros [Hnd Hd]. split; [rewrite map_app in Hnd; by apply NoDup_app in Hnd as [? _]|].
  intros pre m post ->. eapply Hd. by rewrite <- app_assoc.
Qed.
Lemma boot_order_booted created order :
  Modular.boot_order (map as_rmodule created) order → NoDup (map m_Name created) →
  ∃ ms, order = map as_rmodule ms ∧ ms ≡ₚ created ∧ booted ms.
Proof.
  intros [Hp Hd] Hnd. apply Permutation_map_inv in Hp as (ms & -> & Hms). exists ms.
  split_and!; [done|by symmetry|]. split; [by rewrite <- Hms|]. intros pre m post -> d Hin.
  specialize (Hd (map as_rmodule pre) (as_rmodule m) (map as_rmodule post)).
  rewrite map_app in Hd. specialize (Hd eq_refl d Hin). by rewrite map_map in Hd.
Qed.

(** C8: [RegisterModules] boots in dependency order.  When it succeeds, every enabled entry of the
    manifest has contributed one module, names are distinct, and each module was registered after
    the modules it declares as dependencies; when it fails, what was registered so far is a prefix
    of such an order, and it never registers a module twice. *)
Theorem RegisterModules_boots (manifest : list CatalogEntry) (a : App) (w : W) (r : option error) (s' : boot_state) :
  RegisterModules manifest (a, w) = (Returns r, s') →
  ∃ ms, a_modules s'.1 = a_modules a ++ ms ∧ booted ms
        ∧ (r = None → length ms = length (enabled (a_cfg a) manifest)).
Proof.
  unfold RegisterModules. intros (c & s1 & E1 & Hrun)%pbind_returns.
  apply create_modules_spec in E1 as [H1 Hc]; [|apply Modular.registry_ok_new|done]. cbn [fst] in H1, Hc.
  assert (booted []) as Hnil by (split; [constructor|]; by intros [|??]).
  destruct c as [[registry created]|err]; [|injection Hrun as <- <-; exists []; by rewrite H1, app_nil_r].
  destruct Hc as (Hok & Hms & Hlen). pose proof (Modular.Modules_boot registry Hok) as Hb. unfold Modular.boot_answer in Hb.
  destruct (Modular.Modules registry) as [[out|err]|]; [| |done].
  2: { injection Hrun as <- <-. exists []. by rewrite H1, app_nil_r. }
  destruct Hb as (order & -> & Hord). rewrite Hms in Hord.
  assert (NoDup (map m_Name created)) as Hnd by (destruct Hok as [Hnd _]; rewrite Hms, map_map in Hnd; done).
  destruct (boot_order_booted created order Hord Hnd) as (ms & -> & Hp & Hbt).
  rewrite by_name_order in Hrun by (done || intros x Hx; by rewrite <- Hp).
  apply pbind_returns in Hrun as ([] & s2 & E2 & Hrun). injection E2 as <-. apply register_modules_spec in Hrun as (l & rest & -> & Hl & Hr).
  exists l. split_and!; [|by eapply booted_prefix|].
  - rewrite Hl. cbn [fst]. rewrite <- H1. by destruct (first_checker (l ++ rest)).
  - intros ->. specialize (Hr eq_refl) as ->. rewrite app_nil_r in Hp. by rewrite (Permutation_length Hp), Hlen.
Qed.

(** ** Which middleware runs for the routes of a module *)

Definition yields (P : App → Prop) (k : prog state (result error App)) : Prop :=
  ∀ s app s', k s = (Returns (Ok app), s') → P app.
Lemma yields_failed P closers what err : yields P (failed closers what err).
Proof. intros s app s'. unfold failed. intros (? & ? & _ & Hr)%pbind_returns. discriminate. Qed.
Lemma yields_bind {X} P (m : prog state X) k : (∀ x, yields P (k x)) → yields P (pbind m k).
Proof. intros Hk s app s'. intros (x & s1 & _ & Hr)%pbind_returns. by eapply Hk. Qed.
Lemma yields_step {X} P (m : prog state (result error X)) closers what k :
  (∀ x, yields P (k x)) →
  yields P (let! r := m in match r with Err err => failed closers what err | Ok x => k x end).
Proof. intros Hk. apply yields_bind. intros [x|err]; [apply Hk|apply yields_failed]. Qed.

(** The server of a new application: the chain was added after the group was made. *)
Definition server_built (app : App) : Prop :=
  ∃ chain r, BuildChain uuid cors_New first Tracing (chain_deps (a_cfg app)) = Returns chain
    ∧ a_httpServer app = set_readiness r (Engine_Use chain
        (Server.New arrivals pprof fgprof (HTTP (a_cfg app)) (Config.App (a_cfg app)))).
Lemma New_server cfgPath : yields server_built (New cfgPath).
Proof.
  assert (∀ cfg ms tp wr rd ca jwt bus st br, yields server_built (assemble cfg ms tp wr rd ca jwt bus st br)) as Ha.
  { intros cfg ms tp wr rd ca jwt bus st br s app s'. unfold assemble. intros (chain & s1 & E1 & E2)%pbind_returns. injection E1 as E1 <-.
    apply pbind_returns in E2 as (? & s2 & _ & [= <- <-]). exists chain. by eexists. }
  assert (∀ cfg ms tp closers, yields server_built (connect cfg ms tp closers)) as Hc.
  { intros cfg ms tp closers. unfold connect. do 3 (apply yields_step; intros ?).
    destruct (new_jwt (JWT cfg)); [|apply yields_failed]. apply yields_step; intros ?.
    apply yields_step; intros [st br]. apply Ha. }
  unfold New. destruct (Load cfgPath) as [cfg|]; [|apply yields_failed].
  destruct (logging _ _ _ _); [apply yields_failed|]. do 2 (apply yields_bind; intros ?).
  destruct (Otel_Enabled (Otel cfg)); [apply yields_step; intros ?|]; apply Hc.
Qed.

Definition module_handlers (m : Module) : list Middleware :=
  omap (λ x, match x with inl h => Some h | inr _ => None end) (default [] (m_HTTPMiddleware m)).
Lemma assert_handlers_all i raw hs :
  assert_handlers i raw = inr hs → hs = omap (λ x, match x with inl h => Some h | inr _ => None end) raw.
Proof.
  revert i hs. induction raw as [|[h|ty] raw IH]; intros i hs; cbn; [by intros [= <-]| |done].
  destruct (assert_handlers (S i) raw) as [e|hs'] eqn:Hr; [done|]. intros [= <-]. by rewrite (IH _ _ Hr).
Qed.
Lemma module_router_chain m s g :
  module_router m s = inr g → group_chain g = group_chain (apiV1 s) ++ module_handlers m.
Proof.
  unfold module_router, module_handlers. destruct (m_HTTPMiddleware m) as [[|x raw]|]; [intros [= <-]; by rewrite app_nil_r| |].
  - destruct (assert_handlers 0 (x :: raw)) as [[i ty]|hs] eqn:Hr; [done|]. intros [= <-].
    rewrite group_inherits. by rewrite (assert_handlers_all _ _ _ Hr).
  - intros [= <-]. by rewrite app_nil_r.
Qed.

Lemma on_world_app {X} (m : prog W X) s : (on_world m s).2.1 = s.1.
Proof. unfold on_world. by destruct (m s.2). Qed.
(** A registered module has been given the engine and its router. *)
Lemma RegisterModule_engine m g a w s' :
  module_router m (a_httpServer a) = inr g →
  RegisterModule m (a, w) = (Returns None, s') →
  m_RegisterHTTP m g (engine (a_httpServer a)) = Returns (engine (a_httpServer s'.1)).
Proof.
  intros Hg. unfold RegisterModule. cbn [fst]. intros (e1 & s1 & E1 & Hrun)%pbind_returns.
  pose proof (on_world_app (m_RegisterSubscribers m (a_eventBus a)) (a, w)) as H1. rewrite E1 in H1. cbn in H1.
  destruct e1 as [err|]; [done|]. apply pbind_returns in Hrun as (e2 & s2 & E2 & Hrun).
  assert (s2.1 = a) as H2.
  { destruct (m_RegisterStreams m) as [reg|]; [|by injection E2 as <- <-].
    pose proof (on_world_app (reg (a_stream a)) s1) as Hr. rewrite E2 in Hr. cbn in Hr. congruence. }
  destruct e2 as [err|]; [done|]. rewrite Hg in Hrun.
  apply pbind_returns in Hrun as ([] & s3 & E3 & Hrun). injection E3 as <-.
  apply pbind_returns in Hrun as ([] & s4 & E4 & Hrun). apply pbind_returns in Hrun as ([] & s5 & E5 & Hrun).
  apply pbind_returns in Hrun as ([] & s6 & E6 & Hrun). injection E6 as <-. injection Hrun as <-.
  unfold mount in E4. unfold serve_grpc in E5. cbn in E4. rewrite H2 in E4.
  destruct (m_RegisterHTTP m g _) as [e'| |]; [|done..]. injection E4 as <-. cbn in E5.
  destruct (m_RegisterGRPC m _) as [l| |]; [|done..]. injection E5 as <-. done.
Qed.

(** C9: no module route runs the global middleware.  In an application built by [New], whatever its
    configuration, a route that a module registers runs the module's own middleware and then its
    handler: not the recovery, the security headers, the request identifier, the logging, the
    metrics, the load shedding, the timeout, the CORS or the rate limit of the chain that [New]
    adds to the engine.  The chain runs for requests no route matches. *)
Theorem module_routes_bypass_chain (cfgPath : string) (s s1 : state) (app app' : App) (w w' : W) (m : Module) (g : G)
    (method path : string) (h : HandlerFunc) :
  New cfgPath s = (Returns (Ok app), s1) →
  module_router m (a_httpServer app) = inr g →
  m_RegisterHTTP m g (engine (a_httpServer app)) = Returns (Handle g method path h (engine (a_httpServer app))) →
  route_chain (engine (a_httpServer app)) method (absolute g path) = None →
  RegisterModule m (app, w) = (Returns None, (app', w')) →
  dispatch (engine (a_httpServer app')) method (absolute g path) = Some (serve (module_handlers m) h)
  ∧ ∃ chain, BuildChain uuid cors_New first Tracing (chain_deps (a_cfg app)) = Returns chain
             ∧ no_route_chain (engine (a_httpServer app)) = chain.
Proof.
  intros Hnew Hg Hhttp Hfree Hr. destruct (New_server cfgPath s app s1 Hnew) as (chain & r & Hchain & Hs).
  destruct (New_chains arrivals pprof fgprof (HTTP (a_cfg app)) (Config.App (a_cfg app))) as [Hroot Hapi]. split.
  - pose proof (RegisterModule_engine m g app w _ Hg Hr) as He. rewrite Hhttp in He. injection He as He. cbn in He.
    rewrite <- He. unfold dispatch. rewrite handle_route by done. rewrite (module_router_chain m _ g Hg), Hs.
    cbn [apiV1 set_readiness Engine_Use]. by rewrite Hapi.
  - exists chain. split; [done|]. rewrite Hs. cbn [engine set_readiness Engine_Use]. by rewrite use_no_route, Hroot.
Qed.
End App.

(** ** Running

    [Run] after the modules were started: the goroutines of the group, of which the context-watcher
    stops the servers one after the other.  A move is what one of them does next. *)
Module Running.

(** A server goroutine has not called its serve function, is inside it, or has returned. *)
Inductive server_state := Pending | Active | Exited.
Inductive watcher_state := WaitCtx | StoppingHTTP | StoppingMetrics | StoppingGRPC | WatcherDone.
(** Which goroutines are started: the metrics server and the notifier are optional, a disabled
    gRPC server is a no-op. *)
Record setup := { with_metrics : bool; grpc_server : grpc_Server; with_notifier : bool }.
Definition with_grpc (c : setup) : bool := negb (gs_noop (grpc_server c)).
Record group := {
  parent : bool;             (** the caller's context is cancelled *)
  gctx : bool;               (** the context of the group is done *)
  first_err : option error;  (** the error [Wait] will return *)
  http : server_state; http_down : bool;
  metrics : server_state; metrics_down : bool;
  grpc : server_state; grpc_down : bool;
  worker : bool; notifier : bool;  (** whether these are still running *)
  watcher : watcher_state
}.
Definition Run_start (c : setup) : group :=
  {| parent := false; gctx := false; first_err := None; http := Pending; http_down := false;
     metrics := if with_metrics c then Pending else Exited; metrics_down := false;
     grpc := Pending; grpc_down := false; worker := true; notifier := with_notifier c; watcher := WaitCtx |}.

Inductive move :=
| CancelParent
| HttpCalls | HttpFails (e : error) | HttpReturns
| MetricsCalls | MetricsFails (e : error) | MetricsReturns
| GrpcCalls | GrpcListenFails (e : error) | GrpcFails (e : error) | GrpcReturns
| WorkerReturns (e : error) | NotifierReturns (e : error)
| Wake | HttpStopped | MetricsStopped | GrpcStopped.

(** A goroutine of an errgroup returned: the first error is kept and cancels the context. *)
Definition exit_with (err : option error) (s : group) : group :=
  {| parent := parent s; gctx := gctx s || match err with Some _ => true | None => false end;
     first_err := match first_err s with Some e => Some e | None => err end;
     http := http s; http_down := http_down s; metrics := metrics s; metrics_down := metrics_down s;
     grpc := grpc s; grpc_down := grpc_down s; worker := worker s; notifier := notifier s; watcher := watcher s |}.
Definition servers (h : server_state) (m : server_state) (g : server_state) (s : group) : group :=
  {| parent := parent s; gctx := gctx s; first_err := first_err s; http := h; http_down := http_down s;
     metrics := m; metrics_down := metrics_down s; grpc := g; grpc_down := grpc_down s;
     worker := worker s; notifier := notifier s; watcher := watcher s |}.
Definition background (w n : bool) (s : group) : group :=
  {| parent := parent s; gctx := gctx s; first_err := first_err s; http := http s; http_down := http_down s;
     metrics := metrics s; metrics_down := metrics_down s; grpc := grpc s; grpc_down := grpc_down s;
     worker := w; notifier := n; watcher := watcher s |}.
(** The watcher calls [Stop] on a server and goes on when it returns. *)
Definition watch (p : watcher_state) (h m g : bool) (s : group) : group :=
  {| parent := parent s; gctx := gctx s; first_err := first_err s; http := http s; http_down := http_down s || h;
     metrics := metrics s; metrics_down := metrics_down s || m; grpc := grpc s; grpc_down := grpc_down s || g;
     worker := worker s; notifier := notifier s; watcher := p |}.
Definition cancel (s : group) : group :=
  {| parent := true; gctx := true; first_err := first_err s; http := http s; http_down := http_down s;
     metrics := metrics s; metrics_down := metrics_down s; grpc := grpc s; grpc_down := grpc_down s;
     worker := worker s; notifier := notifier s; watcher := watcher s |}.

Definition http_error (r : serve_error) : option error := Errorf_w "bootstrap: http server: " <$> Start r.
Definition metrics_error (r : serve_error) : option error := Errorf_w "bootstrap: metrics server: " <$> MetricsServer_Start r.
Definition grpc_error (c : setup) (listen served : option error) : option error :=
  Errorf_w "bootstrap: grpc server: " <$> (grpc_Start listen served (grpc_server c)).1.
(** [grpc.ErrServerStopped]: what [Serve] returns when the server was stopped before. *)
Definition ErrServerStopped : error := ESentinel "grpc: the server has been stopped".
(** The worker and the notifier return an error that counts only while the context is live. *)
Definition background_error (what : string) (e : error) (s : group) : option error :=
  if gctx s then None else Some (Errorf_w what e).

(** The next state, if the move is possible.  A serve call on a server that was shut down returns
    at once; one in progress returns when the server is shut down. *)
Definition Run_step (c : setup) (s : group) (m : move) : option group :=
  match m with
  | CancelParent => if parent s then None else Some (cancel s)
  | HttpCalls =>
      match http s with
      | Pending => Some (if http_down s then exit_with (http_error ErrServerClosed) (servers Exited (metrics s) (grpc s) s)
                         else servers Active (metrics s) (grpc s) s)
      | _ => None
      end
  | HttpFails e =>
      match http s with
      | Active => Some (exit_with (http_error (ServeFailed e)) (servers Exited (metrics s) (grpc s) s))
      | _ => None
      end
  | HttpReturns =>
      match http s, http_down s with
      | Active, true => Some (exit_with (http_error ErrServerClosed) (servers Exited (metrics s) (grpc s) s))
      | _, _ => None
      end
  | MetricsCalls =>
      match metrics s with
      | Pending => Some (if metrics_down s then exit_with (metrics_error ErrServerClosed) (servers (http s) Exited (grpc s) s)
                         else servers (http s) Active (grpc s) s)
      | _ => None
      end
  | MetricsFails e =>
      match metrics s with
      | Active => Some (exit_with (metrics_error (ServeFailed e)) (servers (http s) Exited (grpc s) s))
      | _ => None
      end
  | MetricsReturns =>
      match metrics s, metrics_down s with
      | Active, true => Some (exit_with (metrics_error ErrServerClosed) (servers (http s) Exited (grpc s) s))
      | _, _ => None
      end
  | GrpcCalls =>
      match grpc s with
      | Pending =>
          Some (if with_grpc c && negb (grpc_down s) then servers (http s) (metrics s) Active s
                else exit_with (grpc_error c None (Some ErrServerStopped)) (servers (http s) (metrics s) Exited s))
      | _ => None
      end
  | GrpcListenFails e =>
      match grpc s with
      | Pending => if with_grpc c
                   then Some (exit_with (grpc_error c (Some e) None) (servers (http s) (metrics s) Exited s)) else None
      | _ => None
      end
  | GrpcFails e =>
      match grpc s, grpc_down s with
      | Active, false => Some (exit_with (grpc_error c None (Some e)) (servers (http s) (metrics s) Exited s))
      | _, _ => None
      end
  | GrpcReturns =>
      match grpc s, grpc_down s with
      | Active, true => Some (exit_with (grpc_error c None None) (servers (http s) (metrics s) Exited s))
      | _, _ => None
      end
  | WorkerReturns e =>
      if worker s then Some (exit_with (background_error "bootstrap: outbox worker: " e s) (background false (notifier s) s)) else None
  | NotifierReturns e =>
      if notifier s then Some (exit_with (background_error "bootstrap: outbox notifier: " e s) (background (worker s) false s)) else None
  | Wake => match watcher s with WaitCtx => if gctx s then Some (watch StoppingHTTP true false false s) else None | _ => None end
  | HttpStopped =>
      match watcher s with
      | StoppingHTTP => Some (if with_metrics c then watch StoppingMetrics false true false s
                              else watch StoppingGRPC false false true s)
      | _ => None
      end
  | MetricsStopped => match watcher s with StoppingMetrics => Some (watch StoppingGRPC false false true s) | _ => None end
  | GrpcStopped => match watcher s with StoppingGRPC => Some (watch WatcherDone false false false s) | _ => None end
  end.
Definition run (c : setup) (ms : list move) : option group :=
  foldl (λ s m, s ≫= λ s, Run_step c s m) (Some (Run_start c)) ms.

(** [Wait] returns when every goroutine has. *)
Definition returned (s : group) : bool :=
  match http s, metrics s, grpc s, watcher s with
  | Exited, Exited, Exited, WatcherDone => negb (worker s) && negb (notifier s)
  | _, _, _, _ => false
  end.

(** ** Termination and the result *)

Definition server_weight (s : server_state) : nat := match s with Pending => 2 | Active => 1 | Exited => 0 end.
Definition weight (s : group) : nat :=
  (if parent s then 0 else 1) + server_weight (http s) + server_weight (metrics s) + server_weight (grpc s)
  + (if worker s then 1 else 0) + (if notifier s then 1 else 0)
  + match watcher s with WaitCtx => 4 | StoppingHTTP => 3 | StoppingMetrics => 2 | StoppingGRPC => 1 | WatcherDone => 0 end.

(** What is down follows from where the watcher is. *)
Record group_ok (c : setup) (s : group) : Prop := {
  ok_parent : parent s = true → gctx s = true;
  ok_err : gctx s = true → parent s = true ∨ first_err s ≠ None;
  ok_woken : watcher s ≠ WaitCtx → gctx s = true;
  ok_http : http_down s = match watcher s with WaitCtx => false | _ => true end;
  ok_metrics : metrics_down s = match watcher s with WaitCtx | StoppingHTTP => false | _ => with_metrics c end;
  ok_grpc : grpc_down s = match watcher s with StoppingGRPC | WatcherDone => true | _ => false end;
  ok_no_metrics : with_metrics c = false → metrics s = Exited ∧ watcher s ≠ StoppingMetrics
}.

Lemma weight_exit err s : weight (exit_with err s) = weight s.
Proof. done. Qed.
Lemma Run_step_weight c s m s' : Run_step c s m = Some s' → weight s' < weight s.
Proof.
  unfold Run_step. intros Hs.
  destruct m;
    repeat match type of Hs with
           | match ?x with _ => _ end = Some _ => destruct x eqn:?; try discriminate
           end; injection Hs as <-; try case_match; rewrite ?weight_exit; unfold weight; cbn;
    repeat match goal with H : _ = _ |- _ => rewrite H end; cbn; lia.
Qed.

Lemma ok_exit c err s : group_ok c s → group_ok c (exit_with err s).
Proof.
  intros []. split; cbn; try done.
  - intros Hp. rewrite ok_parent0 by done. done.
  - destruct (gctx s); cbn; intros Hg.
    + destruct (ok_err0 eq_refl); [by left|]. right. by destruct (first_err s).
    + destruct err; [|done]. right. by destruct (first_err s).
  - intros Hw. by rewrite ok_woken0.
Qed.
Lemma ok_servers c h m g s : group_ok c s → (with_metrics c = false → m = Exited) → group_ok c (servers h m g s).
Proof. intros [] Hm. split; cbn; try done. intros Hc. split; [auto|by apply ok_no_metrics0]. Qed.
Lemma ok_background c w n s : group_ok c s → group_ok c (background w n s).
Proof. intros []. by split. Qed.
Lemma Run_step_ok c s m s' : group_ok c s → Run_step c s m = Some s' → group_ok c s'.
Proof.
  intros Hok Hs. assert (with_metrics c = false → metrics s = Exited) as Hm by (intros; by apply (ok_no_metrics c s Hok)).
  unfold Run_step in Hs.
  destruct m;
    repeat match type of Hs with
           | match ?x with _ => _ end = Some _ => destruct x eqn:?; try discriminate
           end; injection Hs as <-; try case_match;
    try (eauto using ok_exit, ok_servers, ok_background; fail).
  { destruct Hok. split; cbn; auto. }
  { apply ok_servers; [done|]. intros Hc. specialize (Hm Hc). congruence. }
  all: destruct Hok; match goal with Hw : watcher ?x = _ |- _ => rewrite Hw in * end; split; cbn;
    rewrite ?ok_http0, ?ok_metrics0, ?ok_grpc0; cbn; auto; try (intros; split; [auto|discriminate]).
  - intros. congruence.
  - apply orb_false_r.
  - apply orb_false_r.
Qed.

Lemma run_snoc c ms m s' : run c (ms ++ [m]) = Some s' ↔ ∃ s, run c ms = Some s ∧ Run_step c s m = Some s'.
Proof. unfold run. rewrite foldl_app. cbn. destruct (foldl _ _ ms); naive_solver. Qed.
Lemma run_ok c ms s : run c ms = Some s → group_ok c s ∧ length ms + weight s ≤ 13.
Proof.
  revert s. induction ms as [|m ms IH] using rev_ind; intros s.
  { intros [= <-]. split; [|cbn; destruct (with_metrics c), (with_notifier c); cbn; lia]. split; cbn; try done.
    by intros ->. }
  intros (s0 & H0 & Hs)%run_snoc. destruct (IH s0 H0) as [Hok Hw]. split; [by eapply Run_step_ok|].
  apply Run_step_weight in Hs. rewrite length_app. cbn. lia.
Qed.

(** A move no failure causes. *)
Definition faultless (m : move) : bool :=
  match m with HttpFails _ | MetricsFails _ | GrpcListenFails _ | GrpcFails _ | CancelParent => false | _ => true end.
Lemma Run_progress c s :
  group_ok c s → gctx s = true → returned s = false → ∃ m s', faultless m = true ∧ Run_step c s m = Some s'.
Proof.
  intros [] Hg Hr. assert (∀ m, faultless m = true → is_Some (Run_step c s m) → ∃ m s', faultless m = true ∧ Run_step c s m = Some s')
    as Hstep by (intros m Hm [s' Hs]; eauto).
  destruct (watcher s) eqn:Hw.
  { apply (Hstep Wake); [done|]. cbn. rewrite Hw, Hg. by eexists. }
  { apply (Hstep HttpStopped); [done|]. cbn. rewrite Hw. by eexists. }
  { apply (Hstep MetricsStopped); [done|]. cbn. rewrite Hw. by eexists. }
  { apply (Hstep GrpcStopped); [done|]. cbn. rewrite Hw. by eexists. }
  destruct (http s) eqn:Hh; [apply (Hstep HttpCalls)|apply (Hstep HttpReturns)|];
    try (cbn; rewrite ?Hh, ?ok_http0; done || by eexists).
  destruct (grpc s) eqn:Hgr; [apply (Hstep GrpcCalls)|apply (Hstep GrpcReturns)|];
    try (cbn; rewrite ?Hgr, ?ok_grpc0; done || by eexists).
  destruct (metrics s) eqn:Hm; [apply (Hstep MetricsCalls); [done|cbn; rewrite Hm; by eexists]| |].
  { apply (Hstep MetricsReturns); [done|]. destruct (with_metrics c); [|by destruct (ok_no_metrics0 eq_refl)].
    cbn. rewrite Hm, ok_metrics0. by eexists. }
  unfold returned in Hr. rewrite Hh, Hm, Hgr, Hw in Hr. destruct (worker s) eqn:Hwk.
  - apply (Hstep (WorkerReturns (EText "context canceled"))); [done|]. cbn. rewrite Hwk. by eexists.
  - destruct (notifier s) eqn:Hn; [|done].
    apply (Hstep (NotifierReturns (EText "context canceled"))); [done|]. cbn. rewrite Hn. by eexists.
Qed.

(** C29: [Run] ends and does not end early.  Its goroutines make at most thirteen moves; once the
    context of the group is done, because the caller cancelled or a goroutine failed, some
    goroutine can always move without any failure until all have returned, and [Run] returns only
    then, with every server it started stopped.  While neither has happened [Run] does not return,
    even if every server has exited. *)
Theorem Run_terminates (c : setup) (ms : list move) (s : group) :
  run c ms = Some s →
  length ms ≤ 13
  ∧ (gctx s = true → returned s = true ∨ ∃ m s', faultless m = true ∧ Run_step c s m = Some s')
  ∧ (returned s = true →
       gctx s = true ∧ (parent s = true ∨ first_err s ≠ None)
       ∧ http_down s = true ∧ metrics_down s = with_metrics c ∧ grpc_down s = true).
Proof.
  intros Hr. destruct (run_ok c ms s Hr) as [Hok Hl]. split_and!; [lia| |].
  - intros Hg. destruct (returned s) eqn:E; [by left|]. right. by apply Run_progress.
  - intros Hret. assert (watcher s = WatcherDone) as Hw by (unfold returned in Hret; by repeat case_match).
    destruct Hok. rewrite Hw in *. assert (gctx s = true) by (apply ok_woken0; done). auto.
Qed.

Definition stopped_error : error :=
  Errorf_w "bootstrap: grpc server: " (Errorf_w "grpc server: serve: " ErrServerStopped).
Lemma grpc_calls_error c : grpc_error c None (Some ErrServerStopped) = if with_grpc c then Some stopped_error else None.
Proof. unfold grpc_error, with_grpc, grpc_Start. by destruct (gs_noop (grpc_server c)). Qed.
Lemma grpc_returns_error c : grpc_error c None None = None.
Proof. unfold grpc_error, grpc_Start. by destruct (gs_noop (grpc_server c)). Qed.
Lemma exit_first err s : first_err (exit_with err s) = match first_err s with Some e => Some e | None => err end.
Proof. done. Qed.
(** A step without failures, in which the worker and the notifier return only once the context is
    done, adds at most the error of a stopped gRPC server. *)
Lemma Run_step_calm c s m s' :
  Run_step c s m = Some s' → faultless m = true ∨ m = CancelParent →
  (match m with WorkerReturns _ | NotifierReturns _ => gctx s = true | _ => True end) →
  first_err s' = first_err s ∨ first_err s = None ∧ with_grpc c = true ∧ first_err s' = Some stopped_error.
Proof.
  unfold Run_step. intros Hs Hm Hg.
  destruct m; try (destruct Hm; discriminate);
    repeat match type of Hs with
           | match ?x with _ => _ end = Some _ => destruct x eqn:?; try discriminate
           end; injection Hs as <-; try case_match; rewrite ?exit_first, ?grpc_calls_error, ?grpc_returns_error;
    unfold background_error; rewrite ?Hg; cbn; (try by left); destruct (first_err s); auto.
  destruct (with_grpc c); auto.
Qed.

Lemma Run_step_parent c s m s' :
  Run_step c s m = Some s' → parent s' = parent s || match m with CancelParent => true | _ => false end.
Proof.
  unfold Run_step. intros Hs.
  destruct m;
    repeat match type of Hs with
           | match ?x with _ => _ end = Some _ => destruct x eqn:?; try discriminate
           end; injection Hs as <-; try case_match; cbn; by rewrite ?orb_false_r, ?orb_true_r.
Qed.
Lemma run_cancelled c ms s : run c ms = Some s → CancelParent ∈ ms → gctx s = true.
Proof.
  intros Hr Hin. destruct (run_ok c ms s Hr) as [Hok _]. apply (ok_parent c s Hok). clear Hok.
  revert s Hr. induction ms as [|m ms IH] using rev_ind; intros s; [by apply elem_of_nil in Hin|].
  intros (s0 & H0 & Hs)%run_snoc. rewrite (Run_step_parent c s0 m s Hs).
  apply elem_of_app in Hin as [Hin|Hin]; [by rewrite IH|]. apply list_elem_of_singleton in Hin as <-. apply orb_true_r.
Qed.
(** Everything stops before the gRPC goroutine has called [Serve]. *)
Definition early (c : setup) : list move :=
  [CancelParent; Wake; HttpStopped] ++ (if with_metrics c then [MetricsStopped; MetricsCalls] else [])
  ++ [GrpcStopped; HttpCalls; GrpcCalls; WorkerReturns (EText "context canceled")]
  ++ (if with_notifier c then [NotifierReturns (EText "context canceled")] else []).

Definition early_end (c : setup) : group :=
  {| parent := true; gctx := true; first_err := Some stopped_error; http := Exited; http_down := true;
     metrics := Exited; metrics_down := with_metrics c; grpc := Exited; grpc_down := true;
     worker := false; notifier := false; watcher := WatcherDone |}.
Lemma run_early c : with_grpc c = true → run c (early c) = Some (early_end c).
Proof.
  destruct c as [[] [port [] lis mr msz ka n refl] []]; intros Hg; try discriminate Hg; vm_compute; reflexivity.
Qed.
Lemma early_calm c : Forall (λ m, faultless m = true ∨ m = CancelParent) (early c).
Proof.
  unfold early. destruct (with_metrics c), (with_notifier c); cbn [app];
    repeat (apply Forall_cons_2; [by (right; reflexivity) || (left; reflexivity)|]); apply Forall_nil_2.
Qed.

(** what [Run] returns.  In a run without failures, in which the worker and the notifier return
    only after the cancellation, [Run] returns no error, except that of a gRPC server that was
    stopped before it began to serve; and such a run exists whenever the gRPC server is enabled:
    cancelled early, [Run] returns an error although nothing failed. *)
Theorem Run_result (c : setup) :
  (∀ ms s, run c ms = Some s →
     Forall (λ m, faultless m = true ∨ m = CancelParent) ms →
     (∀ pre m post, ms = pre ++ m :: post →
        match m with WorkerReturns _ | NotifierReturns _ => CancelParent ∈ pre | _ => True end) →
     first_err s = None ∨ with_grpc c = true ∧ first_err s = Some stopped_error)
  ∧ (with_grpc c = true → ∃ ms s, run c ms = Some s ∧ Forall (λ m, faultless m = true ∨ m = CancelParent) ms
       ∧ returned s = true ∧ first_err s = Some stopped_error).
Proof.
  split.
  - intros ms. induction ms as [|m ms IH] using rev_ind; intros s; [intros [= <-] _ _; by left|].
    intros (s0 & H0 & Hs)%run_snoc [Hall Hm]%Forall_app Hobey. apply Forall_cons in Hm as [Hm _].
    destruct (IH s0 H0 Hall) as [Hn|[Hg He]].
    { intros pre m' post ->. apply (Hobey pre m' (post ++ [m])). by rewrite <- app_assoc. }
    all: assert (match m with WorkerReturns _ | NotifierReturns _ => gctx s0 = true | _ => True end) as Hc
      by (specialize (Hobey ms m [] eq_refl); destruct m; try done; by apply (run_cancelled c ms)).
    all: destruct (Run_step_calm c s0 m s Hs Hm Hc) as [->|(? & ? & ?)]; auto.
  - intros Hg. exists (early c), (early_end c). split_and!; [by apply run_early|apply early_calm|done..].
Qed.
End Running.

(** ** Witnesses

    A platform whose world is the metric registry and the list of open resources; the stream can
    be made to fail. *)
Definition demo_resource : Type := resource (D := nat) (C := unit) (B := unit) (St := unit) (T := unit).
Definition demo_W : Type := gmap desc (collector * option nat) * list demo_resource.
#[local] Instance demo_registry : Registry (option nat) demo_W.
Proof.
  refine {|
    Observability.registered w := w.1;
    Observability.Register c r w := match w.1 !! co_desc c with
                      | Some _ => (Returns (Some (EText "duplicate metrics collector registration attempted")), w)
                      | None => (Returns None, (<[co_desc c := (c, r)]> w.1, w.2))
                      end
  |}.
  - intros c r w Hn. rewrite Hn. by eexists.
  - intros c r w [x Hx]. rewrite Hx. by eexists.
Defined.
Definition push {X} (r : X → demo_resource) (x : X) : prog demo_W (result error X) := λ w, (Returns (Ok x), (w.1, w.2 ++ [r x])).
Definition pop : prog demo_W unit := λ w, (Returns (), (w.1, removelast w.2)).
Definition demo_held : demo_W → list demo_resource := snd.
Lemma push_acquires {X} (r : X → demo_resource) x : acquires demo_held r (push r x).
Proof. done. Qed.
Lemma pop_releases r : releases demo_held r pop.
Proof. intros [m l'] l Hl. cbn in Hl. subst l'. eexists (), _. split; [done|]. cbn. apply removelast_last. Qed.

Definition demo_stream (ok : bool) : prog demo_W (result error (unit * option checkFn)) :=
  if ok then push (λ r, MessagingStream r.1) ((), None) else pret (Err (EText "nats: connect to nats://n: refused")).
Definition demo_App : Type :=
  App (W := demo_W) (D := nat) (C := unit) (B := unit) (St := unit) (T := unit) (J := option nat) (K := nat) (L := Z) (A := unit)
    (E := simple_engine (L := Z) (A := unit)) (G := string * list (Middleware (L := Z) (A := unit))) (gotype := nat).
Definition demo_New (ok : bool) : string → prog (metrics_pkg * demo_W) (result error demo_App) :=
  New (Limiter0 := budget) (Router0 := simple_router) (H := env_viper (production_env 0)) (λ _ _ _ _, None)
    (λ _ _ _ _ _, push TracerProvider ()) (λ _, push SqlPool 1) (λ _, push SqlPool 2) (λ _ _ _, push CacheClient ())
    (λ _, Ok None) (λ _, push EventBus ()) (λ _ _, demo_stream ok) (λ _, pop) (λ _, pop) (λ _, pop) (λ _, pop) pretty
    (λ _, Returns same_mw) first_key (λ _, same_mw) (λ _, []) answering answering (λ _, Returns None) (λ _, Returns None)
    (λ _, Returns None) (λ _ _, Returns None).
Definition demo_start : metrics_pkg * demo_W := (fresh_pkg, (∅, [])).

Lemma demo_laws ok :
  platform_laws (Registry0 := demo_registry) (λ _ _ _ _ _, push TracerProvider ()) (λ _, push SqlPool 1) (λ _, push SqlPool 2)
    (λ _ _ _, push CacheClient ()) (λ _, push EventBus ()) (λ _ _, demo_stream ok) (λ _, pop) (λ _, pop) (λ _, pop) (λ _, pop) demo_held.
Proof.
  split; intros; try apply push_acquires; try apply pop_releases.
  - by destruct ok.
  - intros w. cbn. by destruct (w.1 !! co_desc c).
Qed.
Lemma demo_New_fails : match demo_New false "config.yaml" demo_start with (Returns (Err _), _) => true | _ => false end = true.
Proof. vm_compute. reflexivity. Qed.


Definition demo_module (name : string) (deps : option (list string)) :
    Module (W := demo_W) (B := unit) (St := unit) (K := nat) (L := Z) (A := unit) (E := simple_engine (L := Z) (A := unit))
      (G := string * list (Middleware (L := Z) (A := unit))) (gotype := nat) :=
  {| m_Name := name; m_RegisterEvents r := r; m_RegisterSubscribers _ := pret None; m_RegisterStreams := None;
     m_HTTPMiddleware := None; m_HealthChecks := None;
     m_RegisterHTTP g e := Returns (Handle (Router := simple_router) g "GET" ("/" +:+ name) panicking e);
     m_RegisterGRPC l := Returns l; m_OnStart := pret None; m_SessionRevocationChecker := None; m_DependsOn := deps |}.
Definition demo_app : option (demo_App * demo_W) :=
  match demo_New true "config.yaml" demo_start with (Returns (Ok app), (_, w)) => Some (app, w) | _ => None end.
Lemma demo_app_free :
  match demo_app with
  | Some (app, _) =>
      match route_chain (Router := simple_router) (engine (a_httpServer app)) "GET"
              (absolute (Router := simple_router) (apiV1 (a_httpServer app)) "/orders") with
      | None => true
      | Some _ => false
      end
  | None => false
  end = true.
Proof. vm_compute. reflexivity. Qed.

Example module_routes_bypass_chain_witness :
  ∃ app : demo_App, dispatch (Router0 := simple_router) (engine (a_httpServer app)) "GET"
      (absolute (Router := simple_router) (apiV1 (a_httpServer app)) "/orders") = Some panicking.
Proof.
  pose proof demo_app_free as Hf. unfold demo_app, demo_New in Hf.
  destruct (New _ _ _ _ _ _ _ _ _ _ _ _ _ _ _ _ _ _ _ _ _ _ _ "config.yaml" demo_start)
    as [[[app|err]|msg|] [p w]] eqn:Hrun; try discriminate Hf.
  exists (add_module (demo_module "orders" None) (set_server (set_engine (Handle (Router := simple_router)
    (apiV1 (a_httpServer app)) "GET" "/orders" panicking (engine (a_httpServer app))) (a_httpServer app)) app)).
  refine (proj1 (module_routes_bypass_chain (W := demo_W) (Limiter0 := budget) (Router0 := simple_router) (H := env_viper (production_env 0))
    (λ _ _ _ _, None) (λ _ _ _ _ _, push TracerProvider ()) (λ _, push SqlPool 1) (λ _, push SqlPool 2)
    (λ _ _ _, push CacheClient ()) (λ _, Ok None) (λ _, push EventBus ()) (λ _ _, demo_stream true) (λ _, pop) (λ _, pop)
    (λ _, pop) (λ _, pop) pretty (λ _, Returns same_mw) first_key (λ _, same_mw) (λ _, []) answering answering
    (λ _, Returns None) (λ _, Returns None) (λ _, Returns None) (λ _ _, Returns None) "config.yaml" demo_start (p, w) app _ w _
    (demo_module "orders" None) (apiV1 (a_httpServer app)) "GET" "/orders" panicking Hrun eq_refl eq_refl _ eq_refl)).
  destruct (route_chain _ _ _); [discriminate Hf|reflexivity].
Defined.

(** A manifest whose first module depends on the second. *)
Definition demo_manifest : list (CatalogEntry (W := demo_W) (D := nat) (C := unit) (B := unit) (St := unit) (J := option nat)
    (K := nat) (L := Z) (A := unit) (E := simple_engine (L := Z) (A := unit))
    (G := string * list (Middleware (L := Z) (A := unit))) (gotype := nat)) :=
  [ {| ce_Name := "orders"; ce_Factory _ := pret (demo_module "orders" (Some ["users"])) |};
    {| ce_Name := "users"; ce_Factory _ := pret (demo_module "users" None) |} ].
Lemma demo_boots :
  match demo_app with
  | Some (app, w) =>
      match RegisterModules (Router0 := simple_router) (T := unit) (λ k _, Some k) demo_manifest (app, w) with
      | (Returns None, s') => Some (length (a_modules app), map m_Name (a_modules s'.1))
      | _ => None
      end
  | None => None
  end = Some (0, ["users"; "orders"]).
Proof. vm_compute. reflexivity. Qed.
Example RegisterModules_boots_witness :
  ∃ ms : list (Module (W := demo_W) (B := unit) (St := unit) (K := nat) (L := Z) (A := unit)
      (E := simple_engine (L := Z) (A := unit)) (G := string * list (Middleware (L := Z) (A := unit))) (gotype := nat)),
    map m_Name ms = ["users"; "orders"] ∧ booted ms.
Proof.
  pose proof demo_boots as Hf. destruct demo_app as [[app w]|]; [|discriminate Hf].
  destruct (RegisterModules (λ k _, Some k) demo_manifest (app, w)) as [[[err|]|msg|] s'] eqn:Hrun; try discriminate Hf.
  destruct (RegisterModules_boots _ _ _ _ _ _ Hrun) as (ms & Hms & Hb & _). exists ms. split; [|exact Hb].
  injection Hf as Hl Hn. rewrite Hms in Hn. destruct (a_modules app); [exact Hn|discriminate Hl].
Defined.

Example Run_terminates_witness :
  ∃ s, Running.run {| Running.with_metrics := true; Running.grpc_server := grpc_NewNoop; Running.with_notifier := false |}
         [Running.HttpCalls; Running.HttpFails (EText "address in use")] = Some s
    ∧ ∃ m s', Running.faultless m = true
        ∧ Running.Run_step {| Running.with_metrics := true; Running.grpc_server := grpc_NewNoop; Running.with_notifier := false |}
            s m = Some s'.
Proof.
  eexists. split; [reflexivity|].
  destruct (Running.Run_terminates {| Running.with_metrics := true; Running.grpc_server := grpc_NewNoop; Running.with_notifier := false |}
    [Running.HttpCalls; Running.HttpFails (EText "address in use")] _ eq_refl) as (_ & Hp & _).
  destruct (Hp eq_refl) as [Hr|Hm]; [discriminate Hr|exact Hm].
Defined.
