(* ===== verification/MessengerSerde.v ===== *)
(** * Serialisation of envelopes

    [MessengerSerde.v] models messenger/serde: the type registry with its upcasters
    (registry.go), the wire format (wire.go) and [JSONSerializer] (json.go), over the documents
    of [Json.v].  The JSON form of the application's messages, of query results and of custom
    stamps is a parameter. *)

From S2P Require Import Prelude Errors Event Json Messenger.

(** ** The type registry *)

Definition Upcaster : Type := RawMessage → result error RawMessage.

Record TypeRegistry := {
  types : gmap string (gmap Z rtype);
  upcasters : gmap string (gmap Z Upcaster)
}.
Definition NewTypeRegistry : TypeRegistry := {| types := ∅; upcasters := ∅ |}.

Definition RegisterMessage (rt : rtype) (r : TypeRegistry) (name : string) (version : Z)
    : TypeRegistry :=
  {| types := <[name := <[version := rt]> (default ∅ (types r !! name))]> (types r);
     upcasters := upcasters r |}.

Definition RegisterUpcaster (r : TypeRegistry) (name : string) (fromVersion : Z) (fn : Upcaster)
    : TypeRegistry :=
  {| types := types r;
     upcasters := <[name := <[fromVersion := fn]> (default ∅ (upcasters r !! name))]> (upcasters r) |}.

(** The loop over the versions; the iteration order of the map is of no account. *)
Definition latest_step (v : Z) (t : rtype) (best : option rtype * Z) : option rtype * Z :=
  if decide (best.2 < v)%Z then (Some t, v) else best.
Definition LatestType (r : TypeRegistry) (name : string) : result error (option rtype * Z) :=
  match types r !! name with
  | None => Err (EText ("serde: unknown message type " +:+ Quote name))
  | Some versions => Ok (map_fold latest_step (None, 0%Z) versions)
  end.

Definition GetUpcaster (r : TypeRegistry) (name : string) (fromVersion : Z) : option Upcaster :=
  match upcasters r !! name with None => None | Some versions => versions !! fromVersion end.

(** The loop of [Upcast], [n] versions from [v] on. *)
Fixpoint upcast_loop (r : TypeRegistry) (name : string) (n : nat) (v : Z) (current : RawMessage)
    : result error RawMessage :=
  match n with
  | O => Ok current
  | S n =>
      match GetUpcaster r name v with
      | None => Err (EText ("serde: no upcaster for " +:+ Quote name +:+ " from version " +:+ pretty v))
      | Some fn =>
          match fn current with
          | Err err =>
              Err (Errorf_w ("serde: upcaster failed for " +:+ Quote name +:+ " v" +:+ pretty v
                             +:+ "→v" +:+ pretty (v + 1)%Z +:+ ": ") err)
          | Ok current => upcast_loop r name n (v + 1) current
          end
      end
  end.
Definition Upcast (r : TypeRegistry) (name : string) (data : RawMessage) (fromVersion toVersion : Z)
    : result error RawMessage :=
  upcast_loop r name (Z.to_nat (toVersion - fromVersion)) fromVersion data.

(** ** The wire format *)

Record WireStamp := { ws_Name : string; ws_Value : RawMessage }.
Record WireEnvelope := {
  SchemaVersion : Z;
  MessageType : string;
  MessageVersion : Z;
  Payload : RawMessage;
  Stamps : list WireStamp;
  ID : string;
  Source : string;
  CreatedAt : time
}.

(** A field read with [dec] and stored with [set]. *)
Definition lens {T A} (name : string) (get : T → A) (set : A → T → T)
    (dec : json → A → result error A) : field T :=
  (name, λ j x, match dec j (get x) with Ok a => Ok (set a x) | Err e => Err e end).

(** Lenses on different places of a struct are independent. *)
Lemma lens_swap {T A B} n1 n2 (g1 : T → A) s1 d1 (g2 : T → B) s2 d2 :
  (∀ a x, g2 (s1 a x) = g2 x) → (∀ b x, g1 (s2 b x) = g1 x) →
  (∀ a b x, s2 b (s1 a x) = s1 a (s2 b x)) →
  (∀ j a e, d1 j a = Err e → e = ErrJSON) → (∀ j b e, d2 j b = Err e → e = ErrJSON) →
  ∀ j1 j2 x,
    match (lens n1 g1 s1 d1).2 j1 x with Ok x => (lens n2 g2 s2 d2).2 j2 x | Err e => Err e end
    = match (lens n2 g2 s2 d2).2 j2 x with Ok x => (lens n1 g1 s1 d1).2 j1 x | Err e => Err e end.
Proof.
  intros H21 H12 Hs E1 E2 j1 j2 x. simpl.
  destruct (d1 j1 (g1 x)) as [a|e1] eqn:H1, (d2 j2 (g2 x)) as [b|e2] eqn:H2;
    rewrite ?H21, ?H12, ?H1, ?H2; try done; [by rewrite Hs|].
  by rewrite (E1 _ _ _ H1), (E2 _ _ _ H2).
Qed.

Lemma string_err rfc j old e : unmarshal_string rfc j old = Err e → e = ErrJSON.
Proof. destruct j; simpl; congruence. Qed.
Lemma int_err j old e : unmarshal_int j old = Err e → e = ErrJSON.
Proof. destruct j; simpl; try case_decide; congruence. Qed.
Lemma time_err j old e : unmarshal_time j old = Err e → e = ErrJSON.
Proof. destruct j; simpl; congruence. Qed.
Lemma map_err rfc j old e : unmarshal_map rfc j old = Err e → e = ErrJSON.
Proof.
  destruct j; simpl; try congruence. revert old. induction members as [|m ms IH]; intros old; [done|].
  cbn [foldl]. destruct (map_member rfc (Ok old) m) as [m'|e'] eqn:Hm; [apply IH|].
  assert (e' = ErrJSON) as -> by (unfold map_member in Hm; case_match; congruence).
  rewrite map_member_err. congruence.
Qed.
Lemma slice_err {A} dec (zero : A) j old e : unmarshal_slice dec zero j old = Err e → e = ErrJSON.
Proof.
  destruct j; simpl; try congruence. revert old. induction l as [|j l IH]; intros old; simpl; [done|].
  destruct old; simpl; case_match; try congruence; case_match; congruence.
Qed.
#[local] Hint Resolve string_err int_err time_err map_err slice_err : json.

(** Evaluate the comparisons of concrete names. *)
Ltac names :=
  repeat first [rewrite decide_True by reflexivity | rewrite decide_False by discriminate].
(** Run [json.Unmarshal] on an object with concrete member names. *)
Ltac run_members :=
  unfold find_field;
  repeat (cbn [unmarshal_raw unmarshal_struct set_members set_member find_exact lens fst snd app];
          unfold set_member, find_field, lens; names).

Section Serde.
Context {V R : Type}.
Context (rfc3339 : time → string).
(** The application's types: [json.Marshal] of a message, [json.Unmarshal] into a new value of
    a type, [MessageVersion] of the messages that have one. *)
Context (marshal_msg : message V → result error json).
Context (unmarshal_msg : rtype → json → result error (message V)).
Context (message_version : message V → option Z).
(** Values of type [any], and the stamps of the application. *)
Context (marshal_any : R → result error json) (unmarshal_any : json → R).
Context (marshal_custom : string → result error json).

Notation Envelope := (Envelope V R).
Notation stamp := (stamp R).

Notation str := (unmarshal_string rfc3339).
Definition raw (j : json) (_ : RawMessage) : result error RawMessage := Ok (Some j).

Definition WireStamp_fields : list (field WireStamp) :=
  [lens "name" ws_Name (λ n w, {| ws_Name := n; ws_Value := ws_Value w |}) str;
   lens "value" ws_Value (λ v w, {| ws_Name := ws_Name w; ws_Value := v |}) raw].
Definition zeroWireStamp : WireStamp := {| ws_Name := EmptyString; ws_Value := None |}.

Definition zeroWire : WireEnvelope :=
  {| SchemaVersion := 0; MessageType := EmptyString; MessageVersion := 0; Payload := None; Stamps := [];
     ID := EmptyString; Source := EmptyString; CreatedAt := zeroTime |}.
Definition WireEnvelope_fields : list (field WireEnvelope) :=
  [lens "schema_version" SchemaVersion
     (λ a w, Build_WireEnvelope a (MessageType w) (MessageVersion w) (Payload w) (Stamps w) (ID w) (Source w) (CreatedAt w))
     unmarshal_int;
   lens "message_type" MessageType
     (λ a w, Build_WireEnvelope (SchemaVersion w) a (MessageVersion w) (Payload w) (Stamps w) (ID w) (Source w) (CreatedAt w))
     str;
   lens "message_version" MessageVersion
     (λ a w, Build_WireEnvelope (SchemaVersion w) (MessageType w) a (Payload w) (Stamps w) (ID w) (Source w) (CreatedAt w))
     unmarshal_int;
   lens "payload" Payload
     (λ a w, Build_WireEnvelope (SchemaVersion w) (MessageType w) (MessageVersion w) a (Stamps w) (ID w) (Source w) (CreatedAt w))
     raw;
   lens "stamps" Stamps
     (λ a w, Build_WireEnvelope (SchemaVersion w) (MessageType w) (MessageVersion w) (Payload w) a (ID w) (Source w) (CreatedAt w))
     (unmarshal_slice (unmarshal_struct WireStamp_fields) zeroWireStamp);
   lens "id" ID
     (λ a w, Build_WireEnvelope (SchemaVersion w) (MessageType w) (MessageVersion w) (Payload w) (Stamps w) a (Source w) (CreatedAt w))
     str;
   lens "source" Source
     (λ a w, Build_WireEnvelope (SchemaVersion w) (MessageType w) (MessageVersion w) (Payload w) (Stamps w) (ID w) a (CreatedAt w))
     str;
   lens "created_at" CreatedAt
     (λ a w, Build_WireEnvelope (SchemaVersion w) (MessageType w) (MessageVersion w) (Payload w) (Stamps w) (ID w) (Source w) a)
     unmarshal_time].

(** ** Stamps *)

Definition with_time (t : time) (k : json → json) : result error json :=
  match marshal_time t with Ok j => Ok (k j) | Err e => Err e end.

(** [json.Marshal] of a stamp: its exported fields under their tags. *)
Definition marshal_stamp (s : stamp) : result error json :=
  match s with
  | BusNameStamp n => Ok (JObject [("Name", marshal_string n)])
  | ResultStamp v =>
      match marshal_any v with Ok j => Ok (JObject [("Value", j)]) | Err e => Err e end
  | SentStamp tr at_ =>
      with_time at_ (λ j, JObject [("Transport", marshal_string tr); ("SentAt", j)])
  | ReceivedStamp tr at_ =>
      with_time at_ (λ j, JObject [("Transport", marshal_string tr); ("ReceivedAt", j)])
  | TransportNameStamp n => Ok (JObject [("Name", marshal_string n)])
  | RedeliveryStamp n e => Ok (JObject [("RetryCount", JInt n); ("LastError", marshal_string e)])
  | DelayStamp d => Ok (JObject [("Duration", JInt d)])
  | ErrorStamp e at_ =>
      with_time at_ (λ j, JObject [("Err", marshal_string e); ("OccurredAt", j)])
  | TraceStamp trace span headers =>
      Ok (JObject (omit_empty "trace_id" trace ++ omit_empty "span_id" span
                   ++ (if decide (headers = ∅) then [] else [("headers", marshal_map headers)])))
  | ForceSyncStamp => Ok (JObject [])
  | ForceTransportStamp n => Ok (JObject [("TransportName", marshal_string n)])
  | ConsumedByStamp h d => Ok (JObject [("Handler", marshal_string h); ("Duration", JInt d)])
  | AggregateStamp t i => Ok (JObject [("type", marshal_string t); ("id", marshal_string i)])
  | OutboxIDStamp i => Ok (JObject [("entry_id", marshal_string i)])
  | memoryIDStamp i => Ok (JObject [("ID", marshal_string i)])
  | CustomStamp name => marshal_custom name
  end.

(** The loop of [encodeStamps]. *)
Fixpoint encodeStamps (ss : list stamp) : result error (list WireStamp) :=
  match ss with
  | [] => Ok []
  | s :: ss =>
      match marshal_stamp s with
      | Err err => Err (Errorf_w ("serde: marshal stamp " +:+ Quote (StampName s) +:+ ": ") err)
      | Ok val =>
          match encodeStamps ss with
          | Err err => Err err
          | Ok ws => Ok ({| ws_Name := StampName s; ws_Value := Some val |} :: ws)
          end
      end
  end.

Definition one_string (name : string) : list (field string) :=
  [lens name id (λ a _, a) str].
Definition string_time (a b : string) : list (field (string * time)) :=
  [lens a fst (λ a x, (a, x.2)) str; lens b snd (λ b x, (x.1, b)) unmarshal_time].
Definition int_string (a b : string) : list (field (Z * string)) :=
  [lens a fst (λ a x, (a, x.2)) unmarshal_int; lens b snd (λ b x, (x.1, b)) str].
Definition string_int (a b : string) : list (field (string * Z)) :=
  [lens a fst (λ a x, (a, x.2)) str; lens b snd (λ b x, (x.1, b)) unmarshal_int].
Definition two_strings (a b : string) : list (field (string * string)) :=
  [lens a fst (λ a x, (a, x.2)) str; lens b snd (λ b x, (x.1, b)) str].
Definition one_int (name : string) : list (field Z) := [lens name id (λ a _, a) unmarshal_int].
Definition trace_fields : list (field (string * string * gmap string string)) :=
  [lens "trace_id" (λ x, x.1.1) (λ a x, (a, x.1.2, x.2)) str;
   lens "span_id" (λ x, x.1.2) (λ a x, (x.1.1, a, x.2)) str;
   lens "headers" snd (λ a x, (x.1, a)) (unmarshal_map rfc3339)].
Definition any_field : list (field (option R)) :=
  [("Value", λ j _, Ok (Some (unmarshal_any j)))].

Definition decodeStamp (nil_value : R) (ws : WireStamp) : option stamp :=
  let name := ws_Name ws in
  let v := ws_Value ws in
  if decide (name = NameBusName) then BusNameStamp <$> unmarshal_raw (one_string "Name") v EmptyString
  else if decide (name = NameResult) then
    (λ r, ResultStamp (default nil_value r)) <$> unmarshal_raw any_field v None
  else if decide (name = NameSent) then
    (λ x, SentStamp x.1 x.2) <$> unmarshal_raw (string_time "Transport" "SentAt") v (EmptyString, zeroTime)
  else if decide (name = NameReceived) then
    (λ x, ReceivedStamp x.1 x.2) <$> unmarshal_raw (string_time "Transport" "ReceivedAt") v (EmptyString, zeroTime)
  else if decide (name = NameTransportName) then
    TransportNameStamp <$> unmarshal_raw (one_string "Name") v EmptyString
  else if decide (name = NameRedelivery) then
    (λ x, RedeliveryStamp x.1 x.2) <$> unmarshal_raw (int_string "RetryCount" "LastError") v (0%Z, EmptyString)
  else if decide (name = NameDelay) then DelayStamp <$> unmarshal_raw (one_int "Duration") v 0%Z
  else if decide (name = NameError) then
    (λ x, ErrorStamp x.1 x.2) <$> unmarshal_raw (string_time "Err" "OccurredAt") v (EmptyString, zeroTime)
  else if decide (name = NameTrace) then
    (λ x, TraceStamp x.1.1 x.1.2 x.2) <$> unmarshal_raw trace_fields v (EmptyString, EmptyString, ∅)
  else if decide (name = NameForceSync) then Some ForceSyncStamp
  else if decide (name = NameForceTransport) then
    ForceTransportStamp <$> unmarshal_raw (one_string "TransportName") v EmptyString
  else if decide (name = NameConsumed) then
    (λ x, ConsumedByStamp x.1 x.2) <$> unmarshal_raw (string_int "Handler" "Duration") v (EmptyString, 0%Z)
  else if decide (name = NameAggregate) then
    (λ x, AggregateStamp x.1 x.2) <$> unmarshal_raw (two_strings "type" "id") v (EmptyString, EmptyString)
  else if decide (name = NameOutboxID) then
    OutboxIDStamp <$> unmarshal_raw (one_string "entry_id") v EmptyString
  else None.

Definition decodeStamps (nil_value : R) (wireStamps : list WireStamp) : list stamp :=
  omap (decodeStamp nil_value) wireStamps.

(** ** The serializer *)

Record JSONSerializer := { registry : TypeRegistry; source : string }.

Definition marshal_WireStamp (ws : WireStamp) : json :=
  JObject [("name", marshal_string (ws_Name ws)); ("value", default JNull (ws_Value ws))].
(** The nil slice is [null]. *)
Definition marshal_stamps (ss : list WireStamp) : json :=
  match ss with [] => JNull | _ => JArray (map marshal_WireStamp ss) end.
Definition marshal_wire (w : WireEnvelope) : result error json :=
  match marshal_time (CreatedAt w) with
  | Err e => Err e
  | Ok created =>
      Ok (JObject
        [("schema_version", JInt (SchemaVersion w)); ("message_type", marshal_string (MessageType w));
         ("message_version", JInt (MessageVersion w)); ("payload", default JNull (Payload w));
         ("stamps", marshal_stamps (Stamps w));
         ("id", marshal_string (ID w)); ("source", marshal_string (Source w));
         ("created_at", created)])
  end.

(** [id] is the generated identifier. *)
Definition Encode (s : JSONSerializer) (id : string) (env : Envelope) : result error json :=
  match marshal_msg (Message env) with
  | Err err => Err (Errorf_w "serde: marshal payload: " err)
  | Ok payload =>
      let msgVersion := default 1%Z (message_version (Message env)) in
      match encodeStamps (stamps env) with
      | Err err => Err err
      | Ok wireStamps =>
          marshal_wire
            {| SchemaVersion := 1; MessageType := TypeName (Message env);
               MessageVersion := msgVersion; Payload := Some payload; Stamps := wireStamps;
               ID := id; Source := source s; CreatedAt := createdAt env |}
      end
  end.

Definition unmarshal_payload (name : string) (goType : rtype) (payload : RawMessage)
    : result error (message V) :=
  match (match payload with None => Err ErrJSON | Some j => unmarshal_msg goType j end) with
  | Err err => Err (Errorf_w ("serde: unmarshal payload for " +:+ Quote name +:+ ": ") err)
  | Ok msg => Ok msg
  end.

(** [reflect.New] of the nil type panics. *)
Definition Decode (s : JSONSerializer) (nil_value : R) (data : RawMessage)
    : outcome (result error Envelope) :=
  match (match data with
         | None => Err ErrJSON
         | Some j => unmarshal_struct WireEnvelope_fields j zeroWire
         end) with
  | Err err => Returns (Err (Errorf_w "serde: unmarshal wire: " err))
  | Ok wire =>
      match LatestType (registry s) (MessageType wire) with
      | Err err => Returns (Err err)
      | Ok (goType, latestVersion) =>
          match (if decide (MessageVersion wire < latestVersion)%Z
                 then Upcast (registry s) (MessageType wire) (Payload wire) (MessageVersion wire) latestVersion
                 else Ok (Payload wire)) with
          | Err err => Returns (Err err)
          | Ok payload =>
              match goType with
              | None => Panics "reflect: New(nil)"
              | Some goType =>
                  match unmarshal_payload (MessageType wire) goType payload with
                  | Err err => Returns (Err err)
                  | Ok msg =>
                      Returns (Ok (NewEnvelopeWithTime msg (CreatedAt wire)
                                     (decodeStamps nil_value (Stamps wire))))
                  end
              end
          end
      end
  end.

(** ** Round trips of the stamps *)

Definition int64 (z : Z) : Prop := (-2 ^ 63 ≤ z < 2 ^ 63)%Z.

(** The stamps of the package, with values the document can carry. *)
Definition stamp_ok (s : stamp) : Prop :=
  match s with
  | BusNameStamp a | TransportNameStamp a | ForceTransportStamp a | OutboxIDStamp a
  | SentStamp a _ | ReceivedStamp a _ | ErrorStamp a _ => valid_utf8 a
  | ResultStamp v => ∀ j, marshal_any v = Ok j → unmarshal_any j = v
  | RedeliveryStamp n e => int64 n ∧ valid_utf8 e
  | DelayStamp d => int64 d
  | TraceStamp a b h => valid_utf8 a ∧ valid_utf8 b ∧ valid_map h
  | ForceSyncStamp => True
  | ConsumedByStamp h d => valid_utf8 h ∧ int64 d
  | AggregateStamp a b => valid_utf8 a ∧ valid_utf8 b
  | memoryIDStamp _ | CustomStamp _ => False
  end.

Lemma string_roundtrip s old : valid_utf8 s → str (marshal_string s) old = Ok s.
Proof. unfold valid_utf8. intros Hs. simpl. by rewrite Hs. Qed.
Lemma int_roundtrip z old : int64 z → unmarshal_int (JInt z) old = Ok z.
Proof. intros Hz. unfold unmarshal_int. by rewrite decide_True. Qed.
Lemma time_roundtrip t j old : marshal_time t = Ok j → unmarshal_time j old = Ok t.
Proof. unfold marshal_time. case_match; [|done]. by intros [= <-]. Qed.

Lemma trace_roundtrip a b h :
  valid_utf8 a → valid_utf8 b → valid_map h →
  unmarshal_struct trace_fields
    (JObject (omit_empty "trace_id" a ++ omit_empty "span_id" b
              ++ (if decide (h = ∅) then [] else [("headers", marshal_map h)])))
    (EmptyString, EmptyString, ∅) = Ok (a, b, h).
Proof.
  intros Ha Hb Hh. unfold omit_empty, trace_fields.
  destruct (decide (a = EmptyString)) as [->|_], (decide (b = EmptyString)) as [->|_],
    (decide (h = ∅)) as [->|_]; run_members;
    rewrite ?(string_roundtrip a), ?(string_roundtrip b) by done; run_members;
    rewrite ?(string_roundtrip b) by done; run_members; rewrite ?map_roundtrip by done; done.
Qed.

Lemma stamp_roundtrip nv s j :
  stamp_ok s → marshal_stamp s = Ok j →
  decodeStamp nv {| ws_Name := StampName s; ws_Value := Some j |} = Some s.
Proof.
  intros Hok. unfold decodeStamp, marshal_stamp, with_time. destruct s; cbn [ws_Name ws_Value StampName stamp_ok] in *;
    names; try done.
  all: try (case_match eqn:Hm; [|done]). all: intros [= <-].
  all: cbn [unmarshal_raw].
  all: try (rewrite trace_roundtrip by tauto; done).
  all: unfold one_string, string_time, int_string, string_int, two_strings, one_int, any_field.
  all: do 2 (run_members; rewrite ?string_roundtrip, ?int_roundtrip by tauto;
             try (erewrite time_roundtrip by done)).
  all: run_members; try done. by rewrite (Hok _ eq_refl).
Qed.

(** The names [decodeStamp] knows. *)
Definition known_names : list string :=
  [NameBusName; NameResult; NameSent; NameReceived; NameTransportName; NameRedelivery; NameDelay;
   NameError; NameTrace; NameForceSync; NameForceTransport; NameConsumed; NameAggregate;
   NameOutboxID].

Lemma foreign_stamp nv ws : ws_Name ws ∉ known_names → decodeStamp nv ws = None.
Proof.
  unfold known_names. rewrite !not_elem_of_cons. intros Hn. decompose [and] Hn. unfold decodeStamp.
  by rewrite !decide_False by done.
Qed.

Lemma stamps_roundtrip nv ss ws :
  Forall (λ s, StampName s ∈ known_names → stamp_ok s) ss → encodeStamps ss = Ok ws →
  decodeStamps nv ws = filter (λ s, StampName s ∈ known_names) ss.
Proof.
  revert ws. induction ss as [|s ss IH]; intros ws Hok; cbn [encodeStamps]; [by intros [= <-]|].
  apply Forall_cons in Hok as [Hs Hok].
  destruct (marshal_stamp s) as [j|] eqn:Hm; [|done].
  destruct (encodeStamps ss) as [ws'|] eqn:He; [|done]. intros [= <-].
  unfold decodeStamps. cbn [omap list_omap]. rewrite filter_cons. case_decide as Hk.
  - rewrite (stamp_roundtrip nv s j (Hs Hk) Hm). f_equal. by apply IH.
  - rewrite foreign_stamp by done. by apply IH.
Qed.

(** ** Round trip of the envelope *)

Lemma wire_stamps_roundtrip ws :
  Forall (λ w, valid_utf8 (ws_Name w) ∧ is_Some (ws_Value w)) ws →
  unmarshal_slice (unmarshal_struct WireStamp_fields) zeroWireStamp
    (marshal_stamps ws) [] = Ok ws.
Proof.
  intros Hws. assert (unmarshal_elems (unmarshal_struct WireStamp_fields) zeroWireStamp
    (map marshal_WireStamp ws) [] = Ok ws) as He; [|by destruct ws].
  apply unmarshal_elems_Ok. apply Forall2_fmap_l, Forall_Forall2_diag.
  eapply Forall_impl; [exact Hws|]. intros [n v] [Hn [j Hj]]. cbn [ws_Name ws_Value] in *. subst.
  change (unmarshal_struct WireStamp_fields
    (JObject [("name", marshal_string n); ("value", j)]) zeroWireStamp
    = Ok {| ws_Name := n; ws_Value := Some j |}). unfold WireStamp_fields.
  run_members. rewrite string_roundtrip by done. run_members. done.
Qed.

Lemma wire_roundtrip w j :
  int64 (SchemaVersion w) → valid_utf8 (MessageType w) → int64 (MessageVersion w) →
  is_Some (Payload w) → Forall (λ w, valid_utf8 (ws_Name w) ∧ is_Some (ws_Value w)) (Stamps w) →
  valid_utf8 (ID w) → valid_utf8 (Source w) →
  marshal_wire w = Ok j → unmarshal_struct WireEnvelope_fields j zeroWire = Ok w.
Proof.
  destruct w as [sv mt mv [p|] ss i src t]; cbn [SchemaVersion MessageType MessageVersion Payload Stamps ID
    Source CreatedAt]; intros Hsv Hmt Hmv [p' [= <-]] Hss Hi Hsrc.
  unfold marshal_wire. cbn [CreatedAt].
  destruct (marshal_time t) as [jt|] eqn:Ht; [|done].
  cbn [SchemaVersion MessageType MessageVersion Payload Stamps ID Source default].
  pose proof (wire_stamps_roundtrip ss Hss) as Hstamps. intros [= <-]. unfold WireEnvelope_fields, zeroWire.
  do 8 (run_members; cbn [raw SchemaVersion MessageType MessageVersion Payload Stamps ID Source CreatedAt];
        rewrite ?string_roundtrip, ?int_roundtrip by done; rewrite ?Hstamps;
        try (erewrite time_roundtrip by done)).
  done.
Qed.

(** ** The order of members *)

Lemma raw_err j old e : raw j old = Err e → e = ErrJSON.
Proof. done. Qed.

Lemma pairs_independent {T} (fields : list (field T)) :
  Forall (λ f, Forall (λ g, fold_name f.1 ≠ fold_name g.1 → ∀ j1 j2 x,
    match f.2 j1 x with Ok x => g.2 j2 x | Err e => Err e end
    = match g.2 j2 x with Ok x => f.2 j1 x | Err e => Err e end) fields) fields →
  independent fields.
Proof.
  intros Hall f g Hf Hg. rewrite Forall_forall in Hall. specialize (Hall f Hf).
  rewrite Forall_forall in Hall. by apply Hall.
Qed.

#[local] Hint Resolve raw_err : json.

Ltac lenses_independent :=
  apply pairs_independent; repeat (apply Forall_cons; split); try apply Forall_nil_2;
  repeat (apply Forall_cons; split); try apply Forall_nil_2;
  let Hne := fresh in intros Hne;
  lazymatch type of Hne with
  | ?a ≠ ?a => exfalso; exact (Hne eq_refl)
  | _ => clear Hne; apply lens_swap; [reflexivity..| |]; eauto with json nocore
  end.

Lemma WireStamp_independent : independent WireStamp_fields.
Proof. unfold WireStamp_fields. lenses_independent. Qed.
Lemma WireEnvelope_independent : independent WireEnvelope_fields.
Proof. unfold WireEnvelope_fields. lenses_independent. Qed.

(** Fields that read equivalent documents alike. *)
Definition blind {T} (fields : list (field T)) : Prop :=
  Forall (λ f, ∀ j j' x, jequiv j j' → f.2 j x = f.2 j' x) fields.

Lemma unmarshal_raw_equiv {T} (fields : list (field T)) ms j' x :
  independent fields → blind fields → NoDup (map fold_name ms.*1) → jequiv (JObject ms) j' →
  unmarshal_raw fields (Some j') x = unmarshal_raw fields (Some (JObject ms)) x.
Proof.
  intros Hind Hblind Hnd Heq.
  assert (order_blind eq fields ms) as Hob.
  { apply Forall_forall. intros m _ f j2 x1 x2 [Hf _]%find_field_Some Hj ->.
    unfold blind in Hblind. rewrite Forall_forall in Hblind. rewrite (Hblind f Hf _ _ x2 Hj).
    by destruct (f.2 j2 x2). }
  pose proof (unmarshal_struct_equiv fields eq ms j' x x Hind Hob Hnd Heq eq_refl) as Hrel.
  unfold unmarshal_raw.
  destruct (unmarshal_struct fields (JObject ms) x), (unmarshal_struct fields j' x); simpl in *;
    try done; congruence.
Qed.

Lemma lens_blind {T A} n (g : T → A) st dec :
  (∀ j j' a, jequiv j j' → dec j a = dec j' a) →
  ∀ j j' x, jequiv j j' → (lens n g st dec).2 j x = (lens n g st dec).2 j' x.
Proof. intros Hd j j' x Hj. simpl. by rewrite (Hd j j' (g x) Hj). Qed.

#[local] Hint Resolve unmarshal_string_equiv unmarshal_int_equiv unmarshal_time_equiv
  unmarshal_map_equiv : json.

Ltac lenses_blind :=
  repeat (apply Forall_cons; split); try apply Forall_nil_2; apply lens_blind; eauto with json nocore.

Lemma stamp_members s j :
  marshal_stamp s = Ok j → stamp_ok s → ∃ ms, j = JObject ms ∧ NoDup (map fold_name ms.*1).
Proof.
  unfold marshal_stamp, with_time, omit_empty. intros Hm Hok. destruct s; try done;
    repeat case_decide; split_match_in Hm; simplify_eq; (eexists; split; [reflexivity|decide_now]).
Qed.

Lemma stamp_equiv nv s j j' :
  (∀ a b, jequiv a b → unmarshal_any a = unmarshal_any b) →
  stamp_ok s → marshal_stamp s = Ok j → jequiv j j' →
  decodeStamp nv {| ws_Name := StampName s; ws_Value := Some j' |} = Some s.
Proof.
  intros Hany Hok Hm Hj. rewrite <- (stamp_roundtrip nv s j Hok Hm).
  destruct (stamp_members s j Hm Hok) as (ms & -> & Hnd).
  unfold decodeStamp. destruct s; cbn [ws_Name ws_Value StampName] in *; names; try done; f_equal;
    apply unmarshal_raw_equiv; try done.
  all: try (unfold one_string, string_time, int_string, string_int, two_strings, one_int, trace_fields;
            first [lenses_independent | lenses_blind]).
  apply Forall_singleton. intros a b x Hab. simpl. by rewrite (Hany a b Hab).
Qed.

(** Wire envelopes whose documents are equal up to the order of members. *)
Inductive raw_equiv : RawMessage → RawMessage → Prop :=
| raw_equiv_None : raw_equiv None None
| raw_equiv_Some j j' : jequiv j j' → raw_equiv (Some j) (Some j').
Definition ws_equiv (a b : WireStamp) : Prop :=
  ws_Name a = ws_Name b ∧ raw_equiv (ws_Value a) (ws_Value b).
Record wire_equiv (a b : WireEnvelope) : Prop := {
  we_schema : SchemaVersion a = SchemaVersion b;
  we_type : MessageType a = MessageType b;
  we_version : MessageVersion a = MessageVersion b;
  we_payload : raw_equiv (Payload a) (Payload b);
  we_stamps : Forall2 ws_equiv (Stamps a) (Stamps b);
  we_id : ID a = ID b;
  we_source : Source a = Source b;
  we_created : CreatedAt a = CreatedAt b
}.

Lemma leaf_equiv {T A} (RT : T → T → Prop) (dec : json → A → result error A) (get : T → A) st j j' x x' :
  (∀ j j' a, jequiv j j' → dec j a = dec j' a) →
  jequiv j j' → get x = get x' → (∀ a, RT (st a x) (st a x')) →
  rel_result RT (match dec j (get x) with Ok a => Ok (st a x) | Err e => Err e end)
                (match dec j' (get x') with Ok a => Ok (st a x') | Err e => Err e end).
Proof.
  intros Hd Hj Hg Hst. rewrite (Hd j j' _ Hj), Hg. destruct (dec j' (get x')); [apply Hst|done].
Qed.

Lemma WireStamp_equiv n v j' x x' :
  jequiv (JObject [("name", n); ("value", v)]) j' → ws_equiv x x' →
  rel_result ws_equiv (unmarshal_struct WireStamp_fields (JObject [("name", n); ("value", v)]) x)
    (unmarshal_struct WireStamp_fields j' x').
Proof.
  intros Hj Hx. apply unmarshal_struct_equiv; [apply WireStamp_independent| |decide_now|done..].
  clear. unfold WireStamp_fields. repeat (apply Forall_cons; split); [..|apply Forall_nil_2].
  - intros f j' x x'. cbn [fst snd]. unfold find_field. cbn [find_exact]. names. intros [= <-] Hj [Hn Hv].
    apply leaf_equiv; [eauto with json nocore|done..].
  - intros f j' x x'. cbn [fst snd]. unfold find_field. cbn [find_exact]. names. intros [= <-] Hj [Hn Hv].
    split; [done|by constructor].
Qed.

Lemma stamps_equiv ss j' old old' :
  jequiv (marshal_stamps ss) j' → Forall2 ws_equiv old old' →
  rel_result (Forall2 ws_equiv)
    (unmarshal_slice (unmarshal_struct WireStamp_fields) zeroWireStamp (marshal_stamps ss) old)
    (unmarshal_slice (unmarshal_struct WireStamp_fields) zeroWireStamp j' old').
Proof.
  intros Hj Hold.
  assert (∃ l l', marshal_stamps ss = JNull ∧ j' = JNull
    ∨ marshal_stamps ss = JArray l ∧ j' = JArray l' ∧ Forall2 jequiv l l' ∧ l = map marshal_WireStamp ss)
    as (l & l' & [[-> ->] | (-> & -> & Hl & Hmap)]).
  { unfold marshal_stamps in *. destruct ss as [|s ss]; [inversion Hj; subst; exists [], []; by left|].
    inversion Hj; subst; eexists _, _; right; split_and!; try done.
    apply Forall_Forall2_diag, Forall_true. constructor. }
  { apply Forall2_nil_2. }
  cbn [unmarshal_slice]. clear Hj. revert ss l' old old' Hl Hmap Hold.
  induction l as [|j l IH]; intros [|s ss] l' old old' Hl Hmap Hold; try done.
  - inversion Hl; subst. simpl. by apply Forall2_nil_2.
  - injection Hmap as -> Hmap. apply Forall2_cons_inv_l in Hl as (j' & l'' & Hj & Hl & ->).
    cbn [unmarshal_elems].
    assert (∃ x x' o o', ws_equiv x x' ∧ Forall2 ws_equiv o o'
      ∧ (match old with [] => (zeroWireStamp, []) | x :: old => (x, old) end) = (x, o)
      ∧ (match old' with [] => (zeroWireStamp, []) | x :: old => (x, old) end) = (x', o'))
      as (x & x' & o & o' & Hx & Ho & -> & ->).
    { destruct Hold as [|x x' o o']; eexists _, _, _, _; split_and!; try reflexivity; try done.
      split; [done|constructor]. }
    pose proof (WireStamp_equiv (marshal_string (ws_Name s)) (default JNull (ws_Value s)) j' x x' Hj Hx) as Hh.
    pose proof (IH ss l'' o o' Hl Hmap Ho) as Ht.
    fold (marshal_WireStamp s) in Hh.
    destruct (unmarshal_struct WireStamp_fields (marshal_WireStamp s) x),
      (unmarshal_struct WireStamp_fields j' x'); simpl in Hh; try done;
    destruct (unmarshal_elems _ _ l o), (unmarshal_elems _ _ l'' o'); simpl in Ht |- *; try done.
    by apply Forall2_cons.
Qed.

Lemma wire_struct_equiv w j j' :
  marshal_wire w = Ok j → jequiv j j' →
  rel_result wire_equiv (unmarshal_struct WireEnvelope_fields j zeroWire)
    (unmarshal_struct WireEnvelope_fields j' zeroWire).
Proof.
  unfold marshal_wire. destruct (marshal_time (CreatedAt w)) as [jt|]; [|done]. intros [= <-] Hj.
  apply unmarshal_struct_equiv; [apply WireEnvelope_independent| |decide_now|done|].
  2: { split; try done; constructor. }
  clear Hj. repeat (apply Forall_cons; split); [..|apply Forall_nil_2];
    intros f j1 x x'; cbn [fst snd]; unfold find_field, WireEnvelope_fields; cbn [find_exact]; names;
    intros [= <-] Hj [? ? ? ? ? ? ? ?];
    try (match type of Hj with jequiv ?j0 _ => generalize dependent j0 end; intros j0 Hj;
         apply leaf_equiv; [eauto with json nocore|done..|]; intros a; by split).
  - cbn [raw lens snd rel_result]. split; try done. by constructor.
  - pose proof (stamps_equiv (Stamps w) j1 (Stamps x) (Stamps x') Hj ltac:(done)) as Hs.
    destruct (unmarshal_slice _ _ (marshal_stamps (Stamps w)) (Stamps x)) eqn:H1,
      (unmarshal_slice _ _ j1 (Stamps x')) eqn:H2; simpl in Hs |- *; try done; rewrite ?H1, ?H2;
      try done; by split.
Qed.

Lemma encodeStamps_names ss ws :
  encodeStamps ss = Ok ws →
  Forall2 (λ s w, ws_Name w = StampName s ∧ ∃ j, marshal_stamp s = Ok j ∧ ws_Value w = Some j) ss ws.
Proof.
  revert ws. induction ss as [|s ss IH]; intros ws; cbn [encodeStamps].
  - intros [= <-]. apply Forall2_nil_2.
  - destruct (marshal_stamp s) as [j|] eqn:Hm; [|done].
    destruct (encodeStamps ss) as [ws'|] eqn:He; [|done]. intros [= <-].
    constructor; [eauto|by apply IH].
Qed.

Lemma decodeStamps_equiv nv ss ws ws' :
  (∀ a b, jequiv a b → unmarshal_any a = unmarshal_any b) →
  Forall (λ s, StampName s ∈ known_names → stamp_ok s) ss →
  encodeStamps ss = Ok ws → Forall2 ws_equiv ws ws' →
  decodeStamps nv ws' = filter (λ s, StampName s ∈ known_names) ss.
Proof.
  intros Hany Hok Henc Heq. apply encodeStamps_names in Henc. revert ws' Hok Heq.
  induction Henc as [|s w ss ws [Hn (j & Hm & Hv)] _ IH]; intros ws0 Hok Heq.
  - by inversion Heq.
  - apply Forall2_cons_inv_l in Heq as ([n' v'] & ws' & [Hn' Hv'] & Heq & ->).
    apply Forall_cons in Hok as [Hs Hok]. unfold decodeStamps. cbn [omap list_omap].
    cbn [ws_Name ws_Value] in *. rewrite Hv in Hv'. inversion Hv' as [|? j' Hj]; subst.
    rewrite filter_cons, Hn in *. case_decide as Hk.
    + rewrite (stamp_equiv nv s j j' Hany (Hs Hk) Hm Hj). f_equal. by apply IH.
    + rewrite foreign_stamp by done. by apply IH.
Qed.

Lemma serde_roundtrip s nv id env j j' rt v :
  Encode s id env = Ok j → jequiv j j' →
  LatestType (registry s) (TypeName (Message env)) = Ok (Some rt, v) →
  (v ≤ default 1 (message_version (Message env)))%Z →
  (∀ p p', marshal_msg (Message env) = Ok p → jequiv p p' → unmarshal_msg rt p' = Ok (Message env)) →
  (∀ a b, jequiv a b → unmarshal_any a = unmarshal_any b) →
  int64 (default 1%Z (message_version (Message env))) →
  valid_utf8 (TypeName (Message env)) → valid_utf8 id → valid_utf8 (source s) →
  Forall (λ st, valid_utf8 (StampName st) ∧ (StampName st ∈ known_names → stamp_ok st)) (stamps env) →
  Decode s nv (Some j')
  = Returns (Ok (NewEnvelopeWithTime (Message env) (createdAt env)
                   (filter (λ st, StampName st ∈ known_names) (stamps env)))).
Proof.
  intros Henc Hj Hlatest Hv Hmsg Hany Hver Hname Hid Hsrc Hst. unfold Encode in Henc.
  destruct (marshal_msg (Message env)) as [p|] eqn:Hp; [|done].
  destruct (encodeStamps (stamps env)) as [ws|] eqn:Hws; [|done].
  pose proof (wire_struct_equiv _ _ _ Henc Hj) as Hrel.
  pose proof (encodeStamps_names _ _ Hws) as Hnames.
  apply wire_roundtrip in Henc; cbn [SchemaVersion MessageType MessageVersion Payload Stamps ID Source]; try done.
  - rewrite Henc in Hrel. unfold Decode.
    destruct (unmarshal_struct WireEnvelope_fields j' zeroWire) as [w'|]; [|done].
    destruct Hrel as [_ Hty Hvr Hpl Hss _ _ Hcr]. cbn in Hty, Hvr, Hpl, Hss, Hcr.
    rewrite <- Hty, <- Hvr, <- Hcr, Hlatest, decide_False by lia.
    inversion Hpl as [|? p' Hpp Hpe Hpe']. unfold unmarshal_payload. rewrite (Hmsg p p' eq_refl Hpp).
    rewrite (decodeStamps_equiv nv (stamps env) ws (Stamps w')); try done.
    eapply Forall_impl; [exact Hst|]. by intros ? [].
  - apply Forall_forall. intros w Hw.
    destruct (Forall2_elem_r _ _ _ w Hnames Hw) as (st & Hin & Hn & jj & _ & Hvv).
    rewrite Forall_forall in Hst. rewrite Hn, Hvv. split; [by apply Hst|by eexists].
Qed.

(** C24: a decoded envelope is the encoded one, without the stamps of names the package does not
    know, when the type of the message is registered with a latest version that is not newer
    than the message; the order of the members of the document is of no account, so it may go
    through a JSONB column. *)
Theorem Decode_Encode s nv id env j j' rt v :
  Encode s id env = Ok j → jequiv j j' →
  LatestType (registry s) (TypeName (Message env)) = Ok (Some rt, v) →
  (v ≤ default 1 (message_version (Message env)))%Z →
  (∀ p p', marshal_msg (Message env) = Ok p → jequiv p p' → unmarshal_msg rt p' = Ok (Message env)) →
  (∀ a b, jequiv a b → unmarshal_any a = unmarshal_any b) →
  int64 (default 1%Z (message_version (Message env))) →
  valid_utf8 (TypeName (Message env)) → valid_utf8 id → valid_utf8 (source s) →
  Forall (λ st, valid_utf8 (StampName st) ∧ (StampName st ∈ known_names → stamp_ok st)) (stamps env) →
  Decode s nv (Some j')
  = Returns (Ok (NewEnvelopeWithTime (Message env) (createdAt env)
                   (filter (λ st, StampName st ∈ known_names) (stamps env)))).
Proof. apply serde_roundtrip. Qed.
End Serde.

(** ** Versions *)

(** The highest positive version of a map of types. *)
Definition highest (versions : gmap Z rtype) (best : option rtype * Z) : Prop :=
  (0 < best.2)%Z ∧ is_Some best.1 ∧ versions !! best.2 = best.1
    ∧ (∀ v, is_Some (versions !! v) → v ≤ best.2)%Z
  ∨ best = (None, 0%Z) ∧ ∀ v, is_Some (versions !! v) → (v ≤ 0)%Z.

Lemma highest_fold versions : highest versions (map_fold latest_step (None, 0%Z) versions).
Proof.
  apply (map_fold_weak_ind (λ best m, highest m best)).
  { right. split; [done|]. intros v [t Ht]. by rewrite lookup_empty in Ht. }
  intros k t m best Hk Hbest. unfold latest_step.
  assert (∀ v, is_Some (<[k:=t]> m !! v) → v = k ∨ is_Some (m !! v)) as Hin.
  { intros v. destruct (decide (k = v)) as [->|]; [by left|]. rewrite lookup_insert_ne by done. by right. }
  case_decide as Hlt.
  - left. destruct Hbest as [(? & ? & ? & Hmax) | [-> Hmax]]; split_and!; simpl in *; try lia;
      try done; try apply lookup_insert_eq; intros v [-> | Hv]%Hin; try lia; specialize (Hmax v Hv); lia.
  - destruct Hbest as [(? & Ht & Hl & Hmax) | [-> Hmax]]; simpl in *.
    + left. split_and!; try done.
      * rewrite lookup_insert_ne; [done|]. intros ->. rewrite Hl in Hk. destruct Ht. congruence.
      * intros v [-> | Hv]%Hin; [lia|by apply Hmax].
    + right. split; [done|]. intros v [-> | Hv]%Hin; [lia|by apply Hmax].
Qed.

Lemma highest_unique versions b b' : highest versions b → highest versions b' → b = b'.
Proof.
  destruct b as [t v], b' as [t' v']. unfold highest. simpl.
  intros [(Hv & Ht & Hl & Hmax) | [[= -> ->] Hmax]] [(Hv' & Ht' & Hl' & Hmax') | [[= -> ->] Hmax']].
  - assert (v = v') as ->; [|congruence]. rewrite <- Hl in Ht. rewrite <- Hl' in Ht'.
    specialize (Hmax _ Ht'). specialize (Hmax' _ Ht). lia.
  - rewrite <- Hl in Ht. specialize (Hmax' _ Ht). lia.
  - rewrite <- Hl' in Ht'. specialize (Hmax _ Ht'). lia.
  - done.
Qed.

(** [LatestType] returns the highest positive version registered under the name with its
    type, whatever the iteration order of the map; without a positive version it returns the
    nil type, which [Decode] cannot instantiate. *)
Theorem LatestType_spec r name t v :
  LatestType r name = Ok (t, v)
  ↔ ∃ versions, types r !! name = Some versions ∧ highest versions (t, v).
Proof.
  unfold LatestType. destruct (types r !! name) as [versions|]; [|naive_solver].
  pose proof (highest_fold versions) as Hf. split.
  - intros [= Heq]. exists versions. by rewrite <- Heq.
  - intros (versions' & [= <-] & Hh). f_equal. by eapply highest_unique.
Qed.

(** The upcasters from one version to the next. *)
Lemma upcast_loop_app r name n m v d :
  upcast_loop r name (n + m) v d
  = match upcast_loop r name n v d with
    | Ok d => upcast_loop r name m (v + Z.of_nat n) d
    | Err e => Err e
    end.
Proof.
  revert v d. induction n as [|n IH]; intros v d; cbn [upcast_loop Nat.add].
  - by rewrite Z.add_0_r.
  - destruct (GetUpcaster r name v) as [fn|]; [|done]. destruct (fn d) as [d'|]; [|done].
    rewrite IH. destruct (upcast_loop r name n (v + 1) d'); [|done]. f_equal. lia.
Qed.

(** [Upcast] is the composition of the registered steps: it leaves the document alone when
    there is nothing to upgrade, it goes through every version in between, and it fails at the
    first version without an upcaster. *)
Theorem Upcast_composes r name d a b c :
  ((b ≤ a)%Z → Upcast r name d a b = Ok d)
  ∧ ((a ≤ b ≤ c)%Z →
     Upcast r name d a c
     = match Upcast r name d a b with Ok d => Upcast r name d b c | Err e => Err e end)
  ∧ (GetUpcaster r name a = None → (a < b)%Z →
     Upcast r name d a b
     = Err (EText ("serde: no upcaster for " +:+ Quote name +:+ " from version " +:+ pretty a))).
Proof.
  unfold Upcast. split_and!.
  - intros. by replace (Z.to_nat (b - a)) with 0%nat by lia.
  - intros. replace (Z.to_nat (c - a)) with (Z.to_nat (b - a) + Z.to_nat (c - b))%nat by lia.
    rewrite upcast_loop_app. by replace (a + Z.of_nat (Z.to_nat (b - a)))%Z with b by lia.
  - intros Hnone Hlt. replace (Z.to_nat (b - a)) with (S (Z.to_nat (b - a - 1))) by lia.
    cbn [upcast_loop]. by rewrite Hnone.
Qed.

(** ** Example *)

Definition order_type : rtype := {| rt_ptr := 1; rt_String := "order.Created" |}.
Definition order (n : Z) : message Z :=
  {| dyn := order_type; MessageName := Some "order.Created"; value := n |}.
Definition order_json (m : message Z) : result error json := Ok (JInt (value m)).
Definition json_order (_ : rtype) (j : json) : result error (message Z) :=
  match j with JInt n => Ok (order n) | _ => Err ErrJSON end.
Definition order_serializer : JSONSerializer :=
  {| registry := RegisterMessage order_type NewTypeRegistry "order.Created" 1; source := "shop" |}.
Definition order_envelope : Envelope Z unit :=
  NewEnvelopeWithTime (order 7) 5
    [TraceStamp "t1" "" ∅; memoryIDStamp "9"; RedeliveryStamp 2 "timeout"].

Lemma Decode_Encode_witness :
  ∃ j, Encode order_json (λ _, None) (λ _ : unit, Ok JNull) (λ _, Ok JNull) order_serializer "id-1"
         order_envelope = Ok j
  ∧ Decode (λ _, EmptyString) json_order (λ _, tt) order_serializer tt (Some j)
    = Returns (Ok (NewEnvelopeWithTime (order 7) 5
                     [TraceStamp "t1" "" ∅; RedeliveryStamp 2 "timeout"])).
Proof.
  eexists. split; [vm_compute; reflexivity|].
  eapply (Decode_Encode (λ _, EmptyString) order_json json_order (λ _, None) (λ _, Ok JNull) (λ _, tt)
    (λ _, Ok JNull) order_serializer tt "id-1" order_envelope _ _ order_type 1);
    [vm_compute; reflexivity|apply jequiv_refl|vm_compute; reflexivity|simpl; lia| |done|split; simpl; lia
    |vm_compute; reflexivity..|].
  - intros p p' [= <-] Hj. by inversion Hj.
  - repeat (apply Forall_cons; split); [..|apply Forall_nil_2]; (split; [vm_compute; reflexivity|]);
      intros Hin.
    + split_and!; [vm_compute; reflexivity..|]. apply map_Forall_empty.
    + exfalso. revert Hin. apply (bool_decide_eq_false_1 _). vm_compute. reflexivity.
    + split; [split; simpl; lia|vm_compute; reflexivity].
Defined.
