(* ===== verification/MessengerOutbox.v ===== *)
(** * The outbox and sync transports of the message bus

    [MessengerOutbox.v] models messenger/transport/outbox (the store on [outbox_events] and the
    transport over it), messenger/transport/sync and messenger/transport/factory.go.  The table
    is the one of [Outbox.v].  What the payload column accepts is a parameter: the driver sends
    a byte slice and a string as different types. *)

From S2P Require Import Prelude Errors Event GoText Db Outbox Json Messenger MessengerSerde MessengerWorker.

(** ** Entries *)

Record Entry := {
  en_ID : string; en_AggregateType : string; en_AggregateID : string; en_EventType : string;
  en_Payload : string; en_TraceID : string; en_CreatedAt : time; en_RetryCount : Z
}.

(** The value of a statement argument: a [string] is sent as text, a [[]byte] as bytea. *)
Inductive argument := ArgText (s : string) | ArgBytes (s : string).

Definition DefaultMaxRetries : Z := 10.
Record PostgresStore := { claimTimeout : Z; maxRetries : Z }.
Inductive StoreOption := WithClaimTimeout (d : Z) | WithMaxRetries (n : Z).
Definition apply_store (s : PostgresStore) (o : StoreOption) : PostgresStore :=
  match o with
  | WithClaimTimeout d => {| claimTimeout := d; maxRetries := maxRetries s |}
  | WithMaxRetries n => {| claimTimeout := claimTimeout s; maxRetries := n |}
  end.
Definition NewPostgresStore (opts : list StoreOption) : PostgresStore :=
  foldl apply_store {| claimTimeout := 5 * 60 * 10 ^ 9; maxRetries := DefaultMaxRetries |} opts.

Section Store.
Context {Dom H : Type} `{Planner}.
(** The value the payload column stores for an argument, or PostgreSQL's error. *)
Context (payload_column : argument → result error string).
(** The defaults of the columns the statement does not name, and the key violation. *)
Context (lease_default : option string) (metadata_default : json_object).
Context (unique_violation : string → error).

Notation db := (database Dom).
Notation world := (world db H).

Definition stmt_insert (entry : Entry) : statement db unit := λ _ d,
  match payload_column (ArgBytes (en_Payload entry)) with
  | Err e => Err e
  | Ok body =>
      if decide (en_ID entry ∈ ids (outbox_events d)) then Err (unique_violation (en_ID entry))
      else Ok (tt, set_outbox (outbox_events d
             ++ [row_values lease_default (en_ID entry) (en_AggregateType entry)
                   (en_AggregateID entry) (en_EventType entry) body (en_TraceID entry)
                   metadata_default (en_CreatedAt entry)]) d)
  end.

Definition store_Insert (ctx : context) (entry : Entry) (w : world) : option error * world :=
  match Exec (executor ctx) (stmt_insert entry) w with
  | (Err err, w) => (Some (Errorf_w ("outbox postgres: insert " +:+ Quote (en_ID entry) +:+ ": ") err), w)
  | (Ok _, w) => (None, w)
  end.

Definition pending (s : PostgresStore) (row : outbox_row) : bool :=
  match r_published_at row with Some _ => false | None => (r_retry_count row <? maxRetries s)%Z end.

(** [getUnpublishedSimple] *)
Definition stmt_select (s : PostgresStore) (batchSize : Z) : statement db (list outbox_row) := λ _ d,
  if decide (batchSize < 0)%Z then Err negative_limit
  else Ok (take (Z.to_nat batchSize)
             (by_created_at (filter (λ row, pending s row = true) (outbox_events d))), d).

(** [int(claimTimeout.Seconds())], truncated; exact below 2^24 seconds. *)
Definition claimTimeoutSecs (s : PostgresStore) : Z := Z.quot (claimTimeout s) (10 ^ 9).

Definition claim_free (s : PostgresStore) (now : time) (row : outbox_row) : bool :=
  match r_claimed_at row with
  | None => true
  | Some t => bool_decide (t < now - claimTimeoutSecs s * 10 ^ 9)%Z
  end.

Definition set_claimed (claimed : option time) (row : outbox_row) : outbox_row :=
  {| r_id := r_id row; r_aggregate_type := r_aggregate_type row;
     r_aggregate_id := r_aggregate_id row; r_event_type := r_event_type row;
     r_payload := r_payload row; r_trace_id := r_trace_id row; r_metadata := r_metadata row;
     r_created_at := r_created_at row; r_claimed_at := claimed;
     r_lease_token := r_lease_token row; r_published_at := r_published_at row;
     r_retry_count := r_retry_count row; r_last_error := r_last_error row |}.

(** The rows of the inner [SELECT ... FOR UPDATE SKIP LOCKED]. *)
Definition select_claim (s : PostgresStore) (batchSize : Z) (k : call) (l : list outbox_row)
    : list outbox_row :=
  take (Z.to_nat batchSize)
    (by_created_at (filter (λ row, pending s row = true ∧ claim_free s (c_now k) row = true
                                   ∧ c_locked k (r_id row) = false) l)).

(** [UPDATE ... RETURNING]: the updated rows come in the order of the update. *)
Definition stmt_claim_rows (s : PostgresStore) (batchSize : Z) : statement db (list outbox_row) := λ k d,
  if decide (batchSize < 0)%Z then Err negative_limit
  else
    let chosen := select_claim s batchSize k (outbox_events d) in
    let d' := update_where (λ row, bool_decide (r_id row ∈ ids chosen))
                (set_claimed (Some (c_now k))) d in
    Ok (scan_order (filter (λ row, r_id row ∈ ids chosen) (outbox_events d')), d').

Definition scan_entry (row : outbox_row) : Entry :=
  {| en_ID := r_id row; en_AggregateType := r_aggregate_type row;
     en_AggregateID := r_aggregate_id row; en_EventType := r_event_type row;
     en_Payload := r_payload row; en_TraceID := r_trace_id row; en_CreatedAt := r_created_at row;
     en_RetryCount := r_retry_count row |}.

Definition scanEntries (query : statement db (list outbox_row)) (w : world)
    : result error (list Entry) * world :=
  match Exec Pool query w with
  | (Err err, w) => (Err (Errorf_w "outbox postgres: query unpublished: " err), w)
  | (Ok rows, w) =>
      match Ping w with
      | (Some err, w) => (Err (Errorf_w "outbox postgres: rows: " err), w)
      | (None, w) => (Ok (map scan_entry rows), w)
      end
  end.

Definition GetUnpublished (s : PostgresStore) (batchSize : Z) (w : world)
    : result error (list Entry) * world :=
  if (claimTimeout s <=? 0)%Z then scanEntries (stmt_select s batchSize) w
  else scanEntries (stmt_claim_rows s batchSize) w.

Definition published_row (now : time) (row : outbox_row) : outbox_row :=
  set_claimed None (publish_row now row).
Definition stmt_mark (id : string) : statement db unit := λ k d,
  Ok (tt, update_where (λ row, bool_decide (r_id row = id)) (published_row (c_now k)) d).
Definition store_MarkPublished (id : string) (w : world) : option error * world :=
  match Exec Pool (stmt_mark id) w with
  | (Err err, w) => (Some (Errorf_w ("outbox postgres: mark published " +:+ Quote id +:+ ": ") err), w)
  | (Ok _, w) => (None, w)
  end.

Definition retried_row (lastError : string) (row : outbox_row) : outbox_row :=
  {| r_id := r_id row; r_aggregate_type := r_aggregate_type row;
     r_aggregate_id := r_aggregate_id row; r_event_type := r_event_type row;
     r_payload := r_payload row; r_trace_id := r_trace_id row; r_metadata := r_metadata row;
     r_created_at := r_created_at row; r_claimed_at := None; r_lease_token := r_lease_token row;
     r_published_at := r_published_at row; r_retry_count := r_retry_count row + 1;
     r_last_error := lastError |}.
Definition stmt_retry (id lastError : string) : statement db unit := λ _ d,
  Ok (tt, update_where (λ row, bool_decide (r_id row = id)) (retried_row lastError) d).
Definition store_IncrementRetry (id lastError : string) (w : world) : option error * world :=
  match Exec Pool (stmt_retry id lastError) w with
  | (Err err, w) => (Some (Errorf_w ("outbox postgres: increment retry " +:+ Quote id +:+ ": ") err), w)
  | (Ok _, w) => (None, w)
  end.

(** ** The transport *)
Section Transport.
Context {V R : Type}.
Notation Envelope := (Envelope V R).
(** The serializer: [Encode] is given a generated identifier, [Decode] may panic. *)
Context (Encode : string → Envelope → result error string).
Context (Decode : string → outcome (result error Envelope)).
(** [uuid.NewString] *)
Context (NewString : H → string * H).

Record Transport := { tr_store : PostgresStore; batchSize : Z }.
Inductive Option := WithBatchSize (n : Z).
Definition New (store : PostgresStore) (opts : list Option) : Transport :=
  foldl (λ t o, match o with WithBatchSize n => {| tr_store := tr_store t; batchSize := n |} end)
    {| tr_store := store; batchSize := 100 |} opts.

Definition uuid (w : world) : string * world :=
  let '(id, h) := NewString (mem w) in (id, set_mem h w).

(** The assertions on the stamps of the envelope panic on a stamp of another type. *)
Definition aggregate_of (env : Envelope) : outcome (string * string) :=
  match Last env NameAggregate with
  | None => Returns (EmptyString, EmptyString)
  | Some (AggregateStamp t i) => Returns (t, i)
  | Some _ => Panics "interface conversion: stamp.Stamp"
  end.
Definition trace_of (env : Envelope) : outcome string :=
  match Last env NameTrace with
  | None => Returns EmptyString
  | Some (TraceStamp t _ _) => Returns t
  | Some _ => Panics "interface conversion: stamp.Stamp"
  end.

Definition Send (ctx : context) (env : Envelope) (w : world) : outcome (option error) * world :=
  let '(wire_id, w) := uuid w in
  match Encode wire_id env with
  | Err err => (Returns (Some (Errorf_w "outbox transport: encode: " err)), w)
  | Ok data =>
      match aggregate_of env, trace_of env with
      | Returns (aggType, aggID), Returns traceID =>
          let '(id, w) := uuid w in
          match store_Insert ctx
                  {| en_ID := id; en_AggregateType := aggType; en_AggregateID := aggID;
                     en_EventType := TypeName (Message env); en_Payload := data;
                     en_TraceID := traceID; en_CreatedAt := createdAt env; en_RetryCount := 0 |} w with
          | (Some err, w) => (Returns (Some (Errorf_w "outbox transport: insert: " err)), w)
          | (None, w) => (Returns None, w)
          end
      | Panics p, _ | _, Panics p => (Panics p, w)
      | _, _ => (Hangs, w)
      end
  end.

(** The loop of [Get]; failures to count a retry are only logged. *)
Fixpoint get_loop (entries : list Entry) (envelopes : list Envelope) (w : world)
    : outcome (result error (list Envelope)) * world :=
  match entries with
  | [] => (Returns (Ok envelopes), w)
  | e :: rest =>
      match Decode (en_Payload e) with
      | Returns (Err err) =>
          let '(_, w) := store_IncrementRetry (en_ID e) ("decode: " +:+ Error err) w in
          get_loop rest envelopes w
      | Returns (Ok env) =>
          get_loop rest (envelopes ++ [WithStamp env (OutboxIDStamp (en_ID e))]) w
      | Panics p => (Panics p, w)
      | Hangs => (Hangs, w)
      end
  end.

Definition outbox_Get (t : Transport) (w : world) : outcome (result error (list Envelope)) * world :=
  match GetUnpublished (tr_store t) (batchSize t) w with
  | (Err err, w) => (Returns (Err (Errorf_w "outbox transport: get: " err)), w)
  | (Ok entries, w) => get_loop entries [] w
  end.

Definition outboxEntryID (env : Envelope) : outcome (result error string) :=
  match Last env NameOutboxID with
  | None => Returns (Err (EText "outbox transport: missing OutboxIDStamp on envelope"))
  | Some (OutboxIDStamp id) => Returns (Ok id)
  | Some _ => Panics "interface conversion: stamp.Stamp"
  end.

Definition with_entry (op : string) (env : Envelope) (f : string → world → option error * world)
    (w : world) : outcome (option error) * world :=
  match outboxEntryID env with
  | Returns (Err err) => (Returns (Some (Errorf_w ("outbox transport: " +:+ op +:+ ": ") err)), w)
  | Returns (Ok id) =>
      match f id w with
      | (Some err, w) => (Returns (Some (Errorf_w ("outbox transport: " +:+ op +:+ ": ") err)), w)
      | (None, w) => (Returns None, w)
      end
  | Panics p => (Panics p, w)
  | Hangs => (Hangs, w)
  end.

Definition outbox_Ack (env : Envelope) (w : world) : outcome (option error) * world :=
  with_entry "ack" env store_MarkPublished w.

(** The worker never rejects without a reason. *)
Definition outbox_Reject (env : Envelope) (reason : error) (w : world) : outcome (option error) * world :=
  with_entry "reject" env (λ id, store_IncrementRetry id (Error reason)) w.

Definition outbox_Close : option error := None.

Definition outbox_receiver {Ctx} (t : Transport) : Receiver (V := V) (R := R) (S := world) (Ctx := Ctx) :=
  {| Get _ := outbox_Get t; Ack _ := outbox_Ack; Reject _ := outbox_Reject |}.
End Transport.
End Store.

(** ** The sync transport and the factories *)

Definition ErrNotSupported : error := ESentinel "transport: operation not supported".

Section Factories.
Context {V R : Type}.
Notation Envelope := (Envelope V R).

(** The operations of a transport, on a state it may not have. *)
Record AnyTransport := {
  any_Name : string;
  any_Send : Envelope → option error;
  any_Get : result error (list Envelope);
  any_Ack : Envelope → option error;
  any_Reject : Envelope → option error → option error;
  any_Close : option error
}.
Definition SyncTransport : AnyTransport :=
  {| any_Name := "sync"; any_Send _ := Some ErrNotSupported; any_Get := Err ErrNotSupported;
     any_Ack _ := Some ErrNotSupported; any_Reject _ _ := Some ErrNotSupported; any_Close := None |}.

Definition HasPrefix (s p : string) : bool := match CutPrefix s p with Some _ => true | None => false end.

(** A factory builds transports of some type [T] from options [O]. *)
Context {T O : Type}.
Record Factory := { Supports : string → bool; Create : string → O → result error T }.
Definition SyncFactory (sync : T) : Factory :=
  {| Supports dsn := HasPrefix dsn "sync://"; Create _ _ := Ok sync |}.

Definition FactoryRegistry : Type := list Factory.
Definition NewFactoryRegistry : FactoryRegistry := [].
Definition RegisterFactory (r : FactoryRegistry) (f : Factory) : FactoryRegistry := r ++ [f].
Fixpoint CreateTransport (r : FactoryRegistry) (dsn : string) (opts : O) : result error T :=
  match r with
  | [] => Err (EText ("transport: no factory supports DSN " +:+ Quote dsn))
  | f :: r => if Supports f dsn then Create f dsn opts else CreateTransport r dsn opts
  end.
End Factories.

(** ** Claims *)
Section Claims.
Context {Dom H : Type} `{Planner}.
Notation db := (database Dom).
Notation world := (world db H).
Implicit Types (s : PostgresStore) (w : world) (l : list outbox_row).

(** A row the statement may claim. *)
Definition takeable s (k : call) (row : outbox_row) : Prop :=
  pending s row = true ∧ claim_free s (c_now k) row = true ∧ c_locked k (r_id row) = false.

Lemma select_claim_elem s n k l row : row ∈ select_claim s n k l → row ∈ l ∧ takeable s k row.
Proof.
  unfold select_claim. intros (i & Hi & _)%elem_of_take. apply list_elem_of_lookup_2 in Hi.
  rewrite by_created_at_perm, list_elem_of_filter in Hi. unfold takeable. tauto.
Qed.

Lemma select_claim_complete s n k l row :
  (0 ≤ n)%Z → row ∈ l → takeable s k row →
  row ∈ select_claim s n k l
  ∨ (Z.of_nat (length (select_claim s n k l)) = n
     ∧ ∀ row', row' ∈ select_claim s n k l → (r_created_at row' ≤ r_created_at row)%Z).
Proof.
  intros Hn Hrow Htake. unfold select_claim.
  set (l' := by_created_at _).
  assert (row ∈ l') as Hin.
  { unfold l'. rewrite by_created_at_perm, list_elem_of_filter. by split. }
  rewrite <- (take_drop (Z.to_nat n) l') in Hin. apply elem_of_app in Hin as [Hin|Hin]; [by left|right].
  split.
  - rewrite length_take. destruct (decide (Z.to_nat n ≤ length l')) as [|Hlt]; [lia|].
    rewrite drop_ge in Hin by lia. by apply elem_of_nil in Hin.
  - intros row' Hrow'.
    eapply (StronglySorted_app_le (λ a b, (r_created_at a ≤ r_created_at b)%Z) (take (Z.to_nat n) l') (drop (Z.to_nat n) l')); [|done..].
    rewrite take_drop. apply by_created_at_sorted.
Qed.

(** The table after the rows of [idl] have been claimed at [now]. *)
Definition claim_ids (idl : list string) (now : time) (l : list outbox_row) : list outbox_row :=
  map (λ row, if decide (r_id row ∈ idl) then set_claimed (Some now) row else row) l.

Lemma update_claim idl now (d : db) :
  outbox_events (update_where (λ row, bool_decide (r_id row ∈ idl)) (set_claimed (Some now)) d)
  = claim_ids idl now (outbox_events d).
Proof. simpl. apply map_ext. intros row. by case_decide; case_bool_decide. Qed.

Lemma ids_claim idl now l : ids (claim_ids idl now l) = ids l.
Proof. unfold ids, claim_ids. rewrite map_map. apply map_ext. intros row. by case_decide. Qed.

Lemma ids_inj l a b : NoDup (ids l) → a ∈ l → b ∈ l → r_id a = r_id b → a = b.
Proof.
  induction l as [|x l IH]; simpl; [by intros _ []%not_elem_of_nil|].
  intros [Hx Hnd]%NoDup_cons. rewrite !elem_of_cons. intros [-> | Ha] [-> | Hb] Heq; auto.
  - destruct Hx. rewrite Heq. by apply list_elem_of_fmap_2.
  - destruct Hx. rewrite <- Heq. by apply list_elem_of_fmap_2.
Qed.

Lemma NoDup_ids_filter (P : outbox_row → Prop) `{∀ x, Decision (P x)} l :
  NoDup (ids l) → NoDup (ids (filter P l)).
Proof.
  induction l as [|x l IH]; [done|]. intros [Hx Hnd]%NoDup_cons. rewrite filter_cons.
  case_decide; [|by apply IH]. apply NoDup_cons. split; [|by apply IH].
  intros (y & Hy & [_ Hin]%list_elem_of_filter)%list_elem_of_fmap. apply Hx. rewrite Hy.
  by apply list_elem_of_fmap_2.
Qed.

Lemma NoDup_select s n k l : NoDup (ids l) → NoDup (ids (select_claim s n k l)).
Proof.
  intros Hnd. unfold select_claim. set (l' := by_created_at _).
  assert (NoDup (ids l')) as Hl'.
  { unfold ids, l'. rewrite by_created_at_perm. by apply NoDup_ids_filter. }
  rewrite <- (take_drop (Z.to_nat n) l') in Hl'. unfold ids in Hl'. rewrite map_app in Hl'.
  by apply NoDup_app in Hl' as [? _].
Qed.

Lemma select_claim_length s n k l : (0 ≤ n)%Z → (Z.of_nat (length (select_claim s n k l)) ≤ n)%Z.
Proof. intros Hn. unfold select_claim. rewrite length_take. lia. Qed.
Lemma select_claim_le s n k l : length (select_claim s n k l) ≤ length l.
Proof.
  unfold select_claim. rewrite length_take, by_created_at_perm.
  pose proof (length_filter (λ row, pending s row = true ∧ claim_free s (c_now k) row = true
    ∧ c_locked k (r_id row) = false) l). lia.
Qed.

(** The rows [RETURNING] gives. *)
Lemma returned_rows s n k l rows :
  NoDup (ids l) → let chosen := select_claim s n k l in
  rows = scan_order (filter (λ row, r_id row ∈ ids chosen) (claim_ids (ids chosen) (c_now k) l)) →
  ids rows ≡ₚ ids chosen
  ∧ ∀ row, row ∈ rows → ∃ row0, row0 ∈ chosen ∧ row = set_claimed (Some (c_now k)) row0.
Proof.
  intros Hnd chosen ->. split.
  - unfold ids at 1. rewrite scan_order_perm. apply NoDup_Permutation.
    + apply NoDup_ids_filter. by rewrite ids_claim.
    + by apply NoDup_select.
    + intros i. rewrite list_elem_of_fmap. split.
      * by intros (row & -> & [? _]%list_elem_of_filter).
      * intros Hi. assert (i ∈ ids (claim_ids (ids chosen) (c_now k) l)) as Hil.
        { rewrite ids_claim. apply list_elem_of_fmap in Hi as (row & -> & Hr).
          apply select_claim_elem in Hr as [Hr _]. by apply list_elem_of_fmap_2. }
        apply list_elem_of_fmap in Hil as (row & -> & Hr). exists row. split; [done|].
        by apply list_elem_of_filter.
  - intros row. rewrite scan_order_perm, list_elem_of_filter. intros [Hid Hin].
    apply list_elem_of_fmap in Hin as (row0 & -> & Hin0).
    assert (r_id row0 ∈ ids chosen) as Hid0 by (by destruct (decide (r_id row0 ∈ ids chosen))).
    rewrite decide_True by done. exists row0. split; [|done].
    apply list_elem_of_fmap in Hid0 as (row1 & Heq & Hin1).
    destruct (select_claim_elem _ _ _ _ _ Hin1) as [Hl1 _].
    by rewrite (ids_inj l row0 row1 Hnd Hin0 Hl1 Heq).
Qed.

Lemma scanEntries_ok (query : statement db (list outbox_row)) w entries w' :
  scanEntries query w = (Ok entries, w') →
  ∃ rows d', query (here w) (pool w) = Ok (rows, d') ∧ entries = map scan_entry rows ∧ pool w' = d'.
Proof.
  unfold scanEntries. destruct (Exec Pool query w) as [[rows|err] w1] eqn:He; [|done].
  pose proof (Ping_spec w1) as (Hp & _). destruct (Ping w1) as [[err|] w2]; [done|]. simpl in Hp.
  intros [= <- <-]. apply Exec_Pool_ok in He as [Hpool [d' Hq]]. exists rows, d'.
  split_and!; [done..|]. rewrite Hp, Hpool. unfold effect. by rewrite Hq.
Qed.

Lemma scanEntries_err (query : statement db (list outbox_row)) w err w' :
  scanEntries query w = (Err err, w') → pool w' = pool w ∨ pool w' = effect query (here w) (pool w).
Proof.
  unfold scanEntries. pose proof (Exec_Pool_cases query w) as Hc.
  destruct (Exec Pool query w) as [[rows|e] w1]; [|by intros [= _ <-]].
  pose proof (Ping_spec w1) as (Hp & _). destruct (Ping w1) as [[e|] w2]; [|done]. simpl in *.
  intros [= _ <-]. by rewrite Hp.
Qed.

Lemma GetUnpublished_cases s n w :
  (0 < claimTimeout s)%Z → NoDup (ids (outbox_events (pool w))) →
  match GetUnpublished s n w with
  | (Ok entries, w') =>
      ids (select_claim s n (here w) (outbox_events (pool w))) ≡ₚ map en_ID entries
      ∧ (Z.of_nat (length entries) ≤ n)%Z
      ∧ (∀ e, e ∈ entries → ∃ row, row ∈ outbox_events (pool w) ∧ takeable s (here w) row
                                  ∧ e = scan_entry row)
      ∧ (∀ row, row ∈ outbox_events (pool w) → takeable s (here w) row →
           r_id row ∈ map en_ID entries
           ∨ Z.of_nat (length entries) = n
             ∧ ∀ e, e ∈ entries → (en_CreatedAt e ≤ r_created_at row)%Z)
      ∧ outbox_events (pool w') = claim_ids (map en_ID entries) (c_now (here w)) (outbox_events (pool w))
  | (Err _, w') =>
      map (set_claimed None) (outbox_events (pool w')) = map (set_claimed None) (outbox_events (pool w))
  end.
Proof.
  intros Hct Hnd. unfold GetUnpublished. rewrite (proj2 (Z.leb_gt _ _) Hct).
  destruct (scanEntries (stmt_claim_rows s n) w) as [[entries|err] w'] eqn:Hscan; last first.
  { apply scanEntries_err in Hscan as [-> | ->]; [done|]. unfold effect, stmt_claim_rows.
    case_decide; [done|]. rewrite update_claim. unfold claim_ids. rewrite map_map.
    apply map_ext. intros row. by case_decide. }
  apply scanEntries_ok in Hscan as (rows & d' & Hq & -> & Hpool). unfold stmt_claim_rows in Hq.
  case_decide as Hn; [done|]. apply (f_equal (λ r, match r with Ok x => x | Err _ => (rows, d') end)) in Hq.
  apply pair_equal_spec in Hq as [Hrows Hd]. rewrite update_claim in Hrows.
  rewrite Hpool, <- Hd, update_claim.
  destruct (returned_rows s n (here w) _ rows Hnd (eq_sym Hrows)) as [Hids Hret].
  assert (map en_ID (map scan_entry rows) = ids rows) as -> by (by rewrite map_map).
  assert (length rows = length (select_claim s n (here w) (outbox_events (pool w)))) as Hlen.
  { apply Permutation_length in Hids. unfold ids in Hids. by rewrite !length_map in Hids. }
  rewrite length_map, Hlen. split_and!.
  - done.
  - apply select_claim_length. lia.
  - intros e (row & -> & Hrow)%list_elem_of_fmap.
    destruct (Hret row Hrow) as (row0 & [Hl Ht]%select_claim_elem & ->). by exists row0.
  - intros row Hrow Ht. rewrite Hids.
    destruct (select_claim_complete s n (here w) _ row ltac:(lia) Hrow Ht) as [Hin | [Hfull Hold]];
      [left; by apply list_elem_of_fmap_2|right]. split; [done|].
    intros e (row1 & -> & Hrow1)%list_elem_of_fmap.
    destruct (Hret row1 Hrow1) as (row0 & Hr0 & ->). exact (Hold row0 Hr0).
  - unfold claim_ids. apply map_ext. intros row.
    destruct (decide (r_id row ∈ ids rows)) as [Hin|Hin]; rewrite Hids in Hin;
      [by rewrite decide_True|by rewrite decide_False].
Qed.

(** in claiming mode [GetUnpublished] returns the oldest takeable rows, at most [n] of them
    and each once, in no particular order; a takeable row is left out only by a full batch of
    rows at least as old; exactly the returned rows are marked claimed.  When it fails, at most
    the claim times have changed. *)
Theorem GetUnpublished_spec s n w :
  (0 < claimTimeout s)%Z → NoDup (ids (outbox_events (pool w))) →
  match GetUnpublished s n w with
  | (Ok entries, w') =>
      ids (select_claim s n (here w) (outbox_events (pool w))) ≡ₚ map en_ID entries
      ∧ (Z.of_nat (length entries) ≤ n)%Z
      ∧ (∀ e, e ∈ entries → ∃ row, row ∈ outbox_events (pool w) ∧ takeable s (here w) row
                                  ∧ e = scan_entry row)
      ∧ (∀ row, row ∈ outbox_events (pool w) → takeable s (here w) row →
           r_id row ∈ map en_ID entries
           ∨ Z.of_nat (length entries) = n
             ∧ ∀ e, e ∈ entries → (en_CreatedAt e ≤ r_created_at row)%Z)
      ∧ outbox_events (pool w') = claim_ids (map en_ID entries) (c_now (here w)) (outbox_events (pool w))
  | (Err _, w') =>
      map (set_claimed None) (outbox_events (pool w')) = map (set_claimed None) (outbox_events (pool w))
  end.
Proof. apply GetUnpublished_cases. Qed.

Lemma claim_ids_elem idl now l row :
  row ∈ claim_ids idl now l →
  ∃ row0, row0 ∈ l ∧ row = if decide (r_id row0 ∈ idl) then set_claimed (Some now) row0 else row0.
Proof. intros (row0 & -> & Hin)%list_elem_of_fmap. eauto. Qed.

(** two workers do not get the same entry while the claim of the first one holds, the whole
    seconds of the second one's timeout. *)
Theorem claims_disjoint s1 s2 n1 n2 w w1 w2 es es' :
  (0 < claimTimeout s1)%Z → (0 < claimTimeout s2)%Z → NoDup (ids (outbox_events (pool w))) →
  GetUnpublished s1 n1 w = (Ok es, w1) → GetUnpublished s2 n2 w1 = (Ok es', w2) →
  (c_now (here w1) ≤ c_now (here w) + claimTimeoutSecs s2 * 10 ^ 9)%Z →
  ∀ e e', e ∈ es → e' ∈ es' → en_ID e ≠ en_ID e'.
Proof.
  intros H1 H2 Hnd Hg1 Hg2 Htime e e' He He' Heq.
  pose proof (GetUnpublished_cases s1 n1 w H1 Hnd) as Hs1. rewrite Hg1 in Hs1.
  destruct Hs1 as (_ & _ & _ & _ & Htab).
  pose proof (GetUnpublished_cases s2 n2 w1 H2) as Hs2. rewrite Hg2 in Hs2.
  destruct Hs2 as (_ & _ & Hsel & _); [by rewrite Htab, ids_claim|].
  destruct (Hsel e' He') as (row & Hrow & (_ & Hfree & _) & ->).
  rewrite Htab in Hrow. apply claim_ids_elem in Hrow as (row0 & _ & ->). simpl in Heq.
  assert (r_id row0 = en_ID e) as Hid by (rewrite Heq; by case_decide).
  rewrite decide_True in Hfree by (rewrite Hid; by apply list_elem_of_fmap_2).
  unfold claim_free in Hfree. simpl in Hfree. apply bool_decide_eq_true in Hfree. lia.
Qed.

(** a claim timeout below one second is truncated to zero seconds: the entries a worker has
    just claimed are free for every other worker at any later instant. *)
Theorem subsecond_claim_void s n w w1 es row :
  (0 < claimTimeout s < 10 ^ 9)%Z → NoDup (ids (outbox_events (pool w))) →
  GetUnpublished s n w = (Ok es, w1) → (c_now (here w) < c_now (here w1))%Z →
  row ∈ outbox_events (pool w1) → r_id row ∈ map en_ID es → c_locked (here w1) (r_id row) = false →
  takeable s (here w1) row.
Proof.
  intros Hct Hnd Hg Hlt Hrow Hid Hlock.
  pose proof (GetUnpublished_cases s n w ltac:(lia) Hnd) as Hs. rewrite Hg in Hs.
  destruct Hs as (_ & _ & Hsel & _ & Htab). rewrite Htab in Hrow.
  apply claim_ids_elem in Hrow as (row0 & Hin0 & Heq). split_and!; [| |done].
  - apply list_elem_of_fmap in Hid as (e & Hid & He).
    destruct (Hsel e He) as (row1 & Hin1 & (Hp & _) & ->). simpl in Hid.
    assert (row0 = row1) as -> by (eapply ids_inj; [done..|]; rewrite Heq in Hid; by case_decide).
    rewrite Heq. unfold pending in *. by case_decide.
  - assert (r_id row0 ∈ map en_ID es) as Hid0 by (rewrite Heq in Hid; by case_decide).
    rewrite decide_True in Heq by done. rewrite Heq. unfold claim_free. simpl.
    apply bool_decide_eq_true. unfold claimTimeoutSecs. rewrite Z.quot_small by lia. lia.
Qed.
End Claims.

(** ** Sending, receiving and settling *)
Section Delivery.
Context {Dom H V R : Type} `{Planner}.
Context (payload_column : argument → result error string).
Context (lease_default : option string) (metadata_default : json_object).
Context (unique_violation : string → error).
Context (NewString : H → string * H).
Notation db := (database Dom).
Notation world := (world db H).
Notation Envelope := (Envelope V R).
Implicit Types (w : world) (env : Envelope).

Notation store_Insert := (store_Insert payload_column lease_default metadata_default unique_violation).

Lemma uuid_db w : pool (uuid NewString w).2 = pool w ∧ tx_writes (uuid NewString w).2 = tx_writes w.
Proof. unfold uuid. by destruct (NewString (mem w)). Qed.

Section Serializer.
Context (Encode : string → Envelope → result error string).
Context (Decode : string → outcome (result error Envelope)).
Notation Send := (Send payload_column lease_default metadata_default unique_violation Encode NewString).

Lemma Send_inv ctx env w w' :
  Send ctx env w = (Returns None, w') →
  ∃ data body id w1 w2,
    Encode (uuid NewString w).1 env = Ok data ∧ payload_column (ArgBytes data) = Ok body
    ∧ w1 = (uuid NewString w).2 ∧ (id, w2) = uuid NewString w1 ∧ id ∉ ids (outbox_events (view (executor ctx) w))
    ∧ ∃ aggType aggID trace,
        outbox_events (view (executor ctx) w')
        = outbox_events (view (executor ctx) w)
          ++ [row_values lease_default id aggType aggID (TypeName (Message env)) body trace
                metadata_default (createdAt env)].
Proof.
  unfold MessengerOutbox.Send. pose proof (uuid_db w) as [Hp0 Ht0].
  destruct (uuid NewString w) as [wid w1] eqn:Hu1. simpl in Hp0, Ht0.
  destruct (Encode wid env) as [data|] eqn:Henc; [|done].
  destruct (aggregate_of env) as [[aggType aggID]| |], (trace_of env) as [trace| |]; try done.
  pose proof (uuid_db w1) as [Hp1 Ht1]. destruct (uuid NewString w1) as [id w2] eqn:Hu2. simpl in Hp1, Ht1.
  unfold MessengerOutbox.store_Insert.
  destruct (Exec (executor ctx) _ w2) as [[[]|err] w3] eqn:Hex; [|done]. intros [= <-].
  apply Exec_view_ok in Hex as [Hview [d' Hst]].
  assert (view (executor ctx) w2 = view (executor ctx) w) as Hv.
  { destruct (executor ctx); simpl; unfold tx_view; congruence. }
  rewrite Hv in Hview, Hst. unfold effect in Hview. rewrite Hst in Hview. unfold stmt_insert in Hst.
  cbn [en_Payload en_ID] in Hst.
  destruct (payload_column (ArgBytes data)) as [body|] eqn:Hb; [|done].
  destruct (decide _) as [|Hid] in Hst; [done|]. injection Hst as <-.
  exists data, body, id, w1, w2. split_and!; try done. exists aggType, aggID, trace. by rewrite Hview.
Qed.

(** the payload is passed to the driver as a byte slice.  A column that rejects byte slices,
    as a JSONB column does according to the comment of the event outbox, lets no envelope in:
    [Send] never succeeds and the tables stay as they are. *)
Theorem byte_payload_rejected ctx env w :
  (∀ s, ∃ e, payload_column (ArgBytes s) = Err e) →
  (Send ctx env w).1 ≠ Returns None
  ∧ pool (Send ctx env w).2 = pool w ∧ tx_view (Send ctx env w).2 = tx_view w.
Proof.
  intros Hrej. split.
  { destruct (Send ctx env w) as [r w'] eqn:Hs. simpl. intros ->.
    apply Send_inv in Hs as (data & body & _ & _ & _ & _ & Hb & _).
    destruct (Hrej data) as [e He]. congruence. }
  unfold MessengerOutbox.Send. pose proof (uuid_db w) as [Hp0 Ht0].
  destruct (uuid NewString w) as [wid w1]. simpl in Hp0, Ht0.
  assert (tx_view w1 = tx_view w) as Hv0 by (unfold tx_view; congruence).
  destruct (Encode wid env) as [data|]; [|done].
  destruct (aggregate_of env) as [[aggType aggID]| |], (trace_of env) as [trace| |]; try done.
  pose proof (uuid_db w1) as [Hp1 Ht1]. destruct (uuid NewString w1) as [id w2]. simpl in Hp1, Ht1.
  assert (tx_view w2 = tx_view w) as Hv1 by (unfold tx_view in *; congruence).
  unfold MessengerOutbox.store_Insert, Exec. set (stmt := stmt_insert _ _ _ _ _).
  assert (∀ k d, effect stmt k d = d ∧ ∃ e, stmt k d = Err e) as Hstmt.
  { intros k d. destruct (Hrej data) as [e He]. unfold effect, stmt, stmt_insert. cbn [en_Payload].
    rewrite He. eauto. }
  destruct (c_fault (here w2)); cbn [fst snd]; [|by rewrite <- Hp0, <- Hp1, <- Hv1|].
  - destruct (Hstmt (here w2) (view (executor ctx) w2)) as [_ [e ->]]. cbn [fst snd].
    by rewrite <- Hp0, <- Hp1, <- Hv1.
  - destruct (executor ctx); cbn [write snd pool set_pool set_tx tick].
    + destruct (Hstmt (here w2) (pool (tick w2))) as [Heff _]. split; [simpl in *; congruence|].
      rewrite <- Hv1. unfold tx_view. simpl in *. congruence.
    + split; [simpl; congruence|]. rewrite <- Hv1. unfold tx_view. simpl. rewrite foldl_app. simpl.
      apply Hstmt.
Qed.

(** The envelopes of the entries that decode. *)
Definition decode_entry (e : Entry) : option Envelope :=
  match Decode (en_Payload e) with
  | Returns (Ok env) => Some (WithStamp env (OutboxIDStamp (en_ID e)))
  | _ => None
  end.

Lemma get_loop_spec entries acc w envs w' :
  get_loop Decode entries acc w = (Returns (Ok envs), w') → envs = acc ++ omap decode_entry entries.
Proof.
  revert acc w. induction entries as [|e entries IH]; intros acc w; cbn [get_loop omap list_omap].
  - intros [= <- _]. by rewrite app_nil_r.
  - unfold decode_entry at 1. destruct (Decode (en_Payload e)) as [[env|err]| |]; try done.
    + intros ->%IH. by rewrite <- app_assoc.
    + destruct (store_IncrementRetry _ _ w) as [? w1]. apply IH.
Qed.
End Serializer.

(** *** The JSON serializer over a text column *)
Section Json.
Context (rfc3339 : time → string).
Context (marshal_msg : message V → result error json).
Context (unmarshal_msg : rtype → json → result error (message V)).
Context (message_version : message V → option Z).
Context (marshal_any : R → result error json) (unmarshal_any : json → R).
Context (marshal_custom : string → result error json).
Context (ser : JSONSerializer) (nil_value : R).
(** The text of a document and the document of a text. *)
Context (text : json → string) (parse : string → RawMessage).

Definition json_Encode (id : string) (env : Envelope) : result error string :=
  match Encode marshal_msg message_version marshal_any marshal_custom ser id env with
  | Ok j => Ok (text j)
  | Err e => Err e
  end.
Definition json_Decode (data : string) : outcome (result error Envelope) :=
  Decode rfc3339 unmarshal_msg unmarshal_any ser nil_value (parse data).

(** What an envelope needs to survive serialisation. *)
Record portable (env : Envelope) (rt : rtype) (v : Z) : Prop := {
  po_latest : LatestType (registry ser) (TypeName (Message env)) = Ok (Some rt, v);
  po_version : (v ≤ default 1 (message_version (Message env)))%Z
               ∧ int64 (default 1%Z (message_version (Message env)));
  po_message : ∀ p p', marshal_msg (Message env) = Ok p → jequiv p p' →
                 unmarshal_msg rt p' = Ok (Message env);
  po_name : valid_utf8 (TypeName (Message env));
  po_stamps : Forall (λ st, valid_utf8 (StampName st)
                            ∧ (StampName st ∈ known_names → stamp_ok marshal_any unmarshal_any st))
                (stamps env)
}.

Notation Send := (Send payload_column lease_default metadata_default unique_violation json_Encode NewString).
Notation outbox_Get := (outbox_Get json_Decode).

End Json.

(** *** Settling *)
Section Settle.
Context {Ctx : Type}.
Context (bus : MessageBus (V := V) (R := R) (S := world) (Ctx := Ctx)).
Context (Decode : string → outcome (result error Envelope)).

Lemma Last_WithStamp env st n : StampName st ≠ n → Last (WithStamp env st) n = Last env n.
Proof.
  intros Hne. unfold Last, WithStamp. simpl. rewrite reverse_app. simpl.
  by rewrite (proj2 (String.eqb_neq _ _) Hne).
Qed.

(** the worker settles an entry of the outbox as its dispatch ended: after a successful
    dispatch the only write is the publication of that entry, after a failed one the only write
    counts a retry with the error and frees the claim; either write may be lost when the
    database fails, and then the entry is delivered again. *)
Theorem outbox_settles now ctx name t env id w :
  match processMessage bus now ctx name (outbox_receiver Decode t)
          (WithStamp env (OutboxIDStamp id)) w,
        Dispatch bus now ctx (Message env)
          (Messenger.Stamps (WithStamp (WithStamp env (OutboxIDStamp id)) (ReceivedStamp name now))) w with
  | (Returns _, w'), (Returns (Ok _), w1) =>
      pool w' = pool w1 ∨ pool w' = effect (stmt_mark id) (here w1) (pool w1)
  | (Returns _, w'), (Returns (Err err), w1) =>
      pool w' = pool w1 ∨ pool w' = effect (stmt_retry id (Error err)) (here w1) (pool w1)
  | (Panics p, w'), (Panics p', w1) => p = p' ∧ w' = w1
  | (Hangs, w'), (Hangs, w1) => w' = w1
  | _, _ => False
  end.
Proof.
  unfold processMessage. cbn [Message WithStamp].
  set (env1 := WithStamp (WithStamp env (OutboxIDStamp id)) (ReceivedStamp name now)).
  change (Message env1) with (Message env).
  destruct (Dispatch bus now ctx (Message env) (Messenger.Stamps env1) w) as [[[r|err]|p|] w1]; [| |done|done].
  - cbn [Ack outbox_receiver]. unfold outbox_Ack, with_entry, outboxEntryID, env1.
    rewrite Last_WithStamp by done. unfold Last. cbn [stamps WithStamp]. rewrite reverse_app. simpl.
    unfold store_MarkPublished. pose proof (Exec_Pool_cases (stmt_mark id) w1) as Hc.
    by destruct (Exec Pool (stmt_mark id) w1) as [[?|?] w2].
  - cbn [Reject outbox_receiver]. unfold outbox_Reject, with_entry, outboxEntryID, env1.
    rewrite Last_WithStamp by done. unfold Last. cbn [stamps WithStamp]. rewrite reverse_app. simpl.
    unfold store_IncrementRetry. pose proof (Exec_Pool_cases (stmt_retry id (Error err)) w1) as Hc.
    by destruct (Exec Pool (stmt_retry id (Error err)) w1) as [[?|?] w2].
Qed.
End Settle.
End Delivery.

(** ** Examples *)

(** Calls one second apart, none failing. *)
Definition ticking : nat → call :=
  λ n, {| c_now := (1000 + Z.of_nat n) * 10 ^ 9; c_locked := λ _, false; c_fault := NoFault |}.
Definition message_row (id : string) (created : time) : outbox_row :=
  row_values None id "Order" "o-1" "order.Created" "{}" "" [] created.
Definition message_world (rows : list outbox_row) : world (database unit) nat :=
  {| pool := {| outbox_events := rows; dead_letter_queue := []; domain := tt |};
     tx_writes := []; mem := 0%nat; calls := ticking; pos := 0 |}.
Definition two_messages := message_world [message_row "m-2" 20; message_row "m-1" 10].
Definition minute_store : PostgresStore := NewPostgresStore [WithClaimTimeout (60 * 10 ^ 9)].
Definition short_store : PostgresStore := NewPostgresStore [WithClaimTimeout (500 * 10 ^ 6)].

Lemma two_messages_ids : NoDup (ids (outbox_events (pool two_messages))).
Proof. decide_now. Qed.

Lemma GetUnpublished_spec_witness :
  ∃ w', GetUnpublished minute_store 1 two_messages = (Ok [scan_entry (message_row "m-1" 10)], w')
  ∧ outbox_events (pool w')
    = claim_ids ["m-1"] (1000 * 10 ^ 9)%Z (outbox_events (pool two_messages)).
Proof.
  eexists. split; [reflexivity|].
  pose proof (GetUnpublished_spec minute_store 1 two_messages ltac:(done) two_messages_ids) as Hspec.
  destruct (GetUnpublished minute_store 1 two_messages) as [[entries|] w'] eqn:Hg; [|discriminate Hg].
  vm_compute in Hg. injection Hg as <- <-. apply Hspec.
Defined.

Lemma claims_disjoint_witness :
  ∃ es w1 es' w2, GetUnpublished minute_store 1 two_messages = (Ok es, w1)
  ∧ GetUnpublished minute_store 5 w1 = (Ok es', w2)
  ∧ map en_ID es = ["m-1"] ∧ ∀ e e', e ∈ es → e' ∈ es' → en_ID e ≠ en_ID e'.
Proof.
  eexists _, _, _, _. split; [reflexivity|]. split; [reflexivity|]. split; [reflexivity|].
  eapply (claims_disjoint minute_store minute_store 1 5 two_messages);
    [done|done|exact two_messages_ids|reflexivity|reflexivity|vm_compute; discriminate].
Defined.

Lemma subsecond_claim_void_witness :
  ∃ es w1, GetUnpublished short_store 5 two_messages = (Ok es, w1)
  ∧ ∃ row, row ∈ outbox_events (pool w1) ∧ r_id row = "m-1" ∧ is_Some (r_claimed_at row)
           ∧ takeable short_store (here w1) row.
Proof.
  eexists _, _. split; [reflexivity|]. eexists. split; [simpl; apply elem_of_cons; right; apply list_elem_of_singleton; reflexivity|].
  split; [reflexivity|]. split; [eexists; reflexivity|].
  eapply (subsecond_claim_void short_store 5 two_messages);
    [done|exact two_messages_ids|reflexivity|reflexivity|simpl; list_in|vm_compute; right; left|reflexivity].
Defined.

(** A JSONB column takes text only; a BYTEA column keeps the bytes. *)
Definition jsonb_column (a : argument) : result error string :=
  match a with
  | ArgText s => Ok s
  | ArgBytes _ => Err (EText "invalid input syntax for type json")
  end.
Definition bytea_column (a : argument) : result error string :=
  match a with ArgText s | ArgBytes s => Ok s end.
Definition numbered (n : nat) : string * nat := ("u" +:+ pretty n, S n).
Definition background : context := {| ctx_tx := RawNil; ctx_trace_id := ""; ctx_request_id := "" |}.
Definition order_document : RawMessage :=
  match Encode order_json (λ _, None) (λ _ : unit, Ok JNull) (λ _, Ok JNull) order_serializer "u0"
          order_envelope with Ok j => Some j | Err _ => None end.

Lemma byte_payload_rejected_witness :
  (Send (H := nat) (V := Z) (R := unit) jsonb_column None [] (λ id, EText id) (λ _ _, Ok "{}") numbered
     background order_envelope two_messages).1 ≠ Returns None.
Proof.
  apply (byte_payload_rejected jsonb_column None [] (λ id, EText id) numbered (λ _ _, Ok "{}")
    background order_envelope two_messages). intros s. by eexists.
Defined.

