(* ===== verification/MessengerRun.v ===== *)
(** * The life of a messenger worker

    [MessengerRun.v] models [Run] and [consumeLoop] of messenger/worker/worker.go and signals.go as a
    machine: the goroutines of the transports, the cancellation of the context and the shutdown
    timeout interleave in any order.  What a loop does with one message is [processMessage] of
    [MessengerWorker.v]. *)

From S2P Require Import Prelude Errors Event Messenger MessengerMiddleware OutboxWorker MessengerWorker.

Section WorkerRun.
Context {V R S Ctx : Type}.
Notation Envelope := (Envelope V R).
Notation MessageBus := (MessageBus (V := V) (R := R) (S := S) (Ctx := Ctx)).
Notation Receiver := (Receiver (V := V) (R := R) (S := S) (Ctx := Ctx)).

(** The worker, and its context before and after the cancellation. *)
Context (bus : MessageBus) (receivers : gmap string Receiver) (opts : Options) (ctx_at : bool → Ctx).

(** Where a [consumeLoop] is: at the [select] of the loop, before [Get], in [sleepCtx], with the
    envelopes of a batch that are left, blocked in a handler, or returned. *)
Inductive loop_state := AtTop | AtGet | AtSleep | AtBatch (envs : list Envelope) | AtHandler | Exited.

(** [lp_received] and [lp_processed] record the envelopes the loop got and those it is done with. *)
Record loop := {
  lp_transport : string;
  lp_receiver : Receiver;
  lp_id : nat;
  lp_state : loop_state;
  lp_received : list Envelope;
  lp_processed : list Envelope
}.
Definition go_to (st : loop_state) (l : loop) : loop :=
  {| lp_transport := lp_transport l; lp_receiver := lp_receiver l; lp_id := lp_id l; lp_state := st;
     lp_received := lp_received l; lp_processed := lp_processed l |}.
Definition got (envs : list Envelope) (l : loop) : loop :=
  {| lp_transport := lp_transport l; lp_receiver := lp_receiver l; lp_id := lp_id l; lp_state := AtBatch envs;
     lp_received := lp_received l ++ envs; lp_processed := lp_processed l |}.
Definition done_with (env : Envelope) (rest : list Envelope) (l : loop) : loop :=
  {| lp_transport := lp_transport l; lp_receiver := lp_receiver l; lp_id := lp_id l; lp_state := AtBatch rest;
     lp_received := lp_received l; lp_processed := lp_processed l ++ [env] |}.

(** The next action of a loop.  A [Get] that waits is tried again; [elapsed] says that the poll
    timer has fired. *)
Definition loop_turn (cancelled elapsed : bool) (now : time) (l : loop) (s : S) : outcome loop * S :=
  match lp_state l with
  | AtTop => (Returns (go_to (if cancelled then Exited else AtGet) l), s)
  | AtGet =>
      match Get (lp_receiver l) (ctx_at cancelled) s with
      | (Returns (Err _), s) => (Returns (go_to (if cancelled then Exited else AtSleep) l), s)
      | (Returns (Ok []), s) => (Returns (go_to AtSleep l), s)
      | (Returns (Ok envs), s) => (Returns (got envs l), s)
      | (Panics p, s) => (Panics p, s)
      | (Hangs, _) => (Returns l, s)
      end
  | AtSleep => (Returns (if cancelled || elapsed then go_to AtTop l else l), s)
  | AtBatch [] => (Returns (go_to AtTop l), s)
  | AtBatch (env :: rest) =>
      match processMessage bus now (ctx_at cancelled) (lp_transport l) (lp_receiver l) env s with
      | (Returns _, s) => (Returns (done_with env rest l), s)
      | (Panics p, s) => (Panics p, s)
      | (Hangs, s) => (Returns (go_to AtHandler l), s)
      end
  | AtHandler | Exited => (Returns l, s)
  end.

(** [Run] waits for the cancellation, then for the loops; [Returned true] logs a complete shutdown,
    [Returned false] the timeout.  A panic of a goroutine ends the process. *)
Inductive run_phase := AwaitCancel | AwaitLoops | Returned (complete : bool) | Crashed (p : string).
Record rstate := { world : S; cancelled : bool; loops : list loop; phase : run_phase }.

Definition not_registered (name : string) : error :=
  EText ("worker: transport " +:+ Quote name +:+ " not registered").

Fixpoint check_names (names : list string) : option error :=
  match names with
  | [] => None
  | name :: rest =>
      match receivers !! name with None => Some (not_registered name) | Some _ => check_names rest end
  end.

Definition new_loops (name : string) : list loop :=
  match receivers !! name with
  | Some receiver =>
      (λ i, {| lp_transport := name; lp_receiver := receiver; lp_id := i; lp_state := AtTop;
               lp_received := []; lp_processed := [] |}) <$> seq 0 (Z.to_nat (Concurrency opts))
  | None => []
  end.

(** [Run] up to its [<-ctx.Done()]. *)
Definition Run_start (names : list string) (s : S) : result error rstate :=
  match check_names names with
  | Some err => Err err
  | None => Ok {| world := s; cancelled := false; loops := names ≫= new_loops; phase := AwaitCancel |}
  end.

(** A loop takes a turn; the context is cancelled; [Run] sees its loops returned, or the end of
    [ShutdownTimeout]. *)
Inductive move := Turn (i : nat) (elapsed : bool) (now : time) | Cancel | Collect | Deadline.
#[export] Instance move_eq_dec : EqDecision move.
Proof. solve_decision. Defined.

Definition turn (s : rstate) (i : nat) (elapsed : bool) (now : time) : rstate :=
  match loops s !! i with
  | None => s
  | Some l =>
      match loop_turn (cancelled s) elapsed now l (world s) with
      | (Returns l, w) =>
          {| world := w; cancelled := cancelled s; loops := <[i := l]> (loops s); phase := phase s |}
      | (Panics p, w) =>
          {| world := w; cancelled := cancelled s; loops := loops s; phase := Crashed p |}
      | (Hangs, _) => s
      end
  end.

Definition run_step (s : rstate) (m : move) : rstate :=
  match phase s, m with
  | Crashed _, _ => s
  | _, Turn i elapsed now => turn s i elapsed now
  | AwaitCancel, Cancel =>
      {| world := world s; cancelled := true; loops := loops s; phase := AwaitLoops |}
  | AwaitLoops, Collect =>
      if forallb (λ l, match lp_state l with Exited => true | _ => false end) (loops s)
      then {| world := world s; cancelled := cancelled s; loops := loops s; phase := Returned true |}
      else s
  | AwaitLoops, Deadline =>
      {| world := world s; cancelled := cancelled s; loops := loops s; phase := Returned false |}
  | _, _ => s
  end.
Definition run (s : rstate) (ms : list move) : rstate := foldl run_step s ms.

(** [signal.NotifyContext]: the context is cancelled by an interrupt or SIGTERM, or by its parent. *)
Inductive stop_cause := Parent | SIGINT | SIGTERM | OtherSignal.
Definition stop_move (c : stop_cause) : option move :=
  match c with Parent | SIGINT | SIGTERM => Some Cancel | OtherSignal => None end.
Definition RunWithSignals (s : rstate) (events : list (move + stop_cause)) : rstate :=
  run s (omap (λ e, match e with inl m => Some m | inr c => stop_move c end) events).

(** ** Properties *)

Lemma check_names_spec names :
  match check_names names with
  | Some err => ∃ pre name post, names = pre ++ name :: post ∧ receivers !! name = None
                 ∧ Forall (λ n, is_Some (receivers !! n)) pre ∧ err = not_registered name
  | None => Forall (λ n, is_Some (receivers !! n)) names
  end.
Proof.
  induction names as [|n names IH]; cbn [check_names]; [constructor|].
  destruct (receivers !! n) as [r|] eqn:E; [|by exists [], n, names].
  assert (is_Some (receivers !! n)) by by eexists.
  destruct (check_names names) as [err|]; [|by constructor].
  destruct IH as (pre & name & post & -> & ? & ? & ?). exists (n :: pre), name, post.
  split_and!; try done. by constructor.
Qed.

(** Every envelope a loop received is done with or in the batch it is working on. *)
Definition left_over (st : loop_state) : list Envelope :=
  match st with AtBatch envs => envs | _ => [] end.
Definition loop_ok (l : loop) : Prop :=
  match lp_state l with
  | AtHandler => lp_processed l `prefix_of` lp_received l
  | st => lp_received l = lp_processed l ++ left_over st
  end.

Lemma loop_turn_ok c e now l s l' s' :
  loop_ok l → loop_turn c e now l s = (Returns l', s') → loop_ok l'.
Proof.
  unfold loop_turn, loop_ok. destruct (lp_state l) as [| | |[|env rest]| |] eqn:Est; cbn [left_over]; intros Hok.
  - intros [= <- <-]. by destruct c.
  - destruct (Get _ _ _) as [[[[|env envs]|err]|p|] w].
    + by intros [= <- <-].
    + intros [= <- <-]. cbn. rewrite Hok, app_nil_r. done.
    + intros [= <- <-]. by destruct c.
    + done.
    + intros [= <- <-]. by rewrite Est.
  - intros [= <- <-]. destruct (c || e); [done|]. by rewrite Est.
  - by intros [= <- <-].
  - destruct (processMessage _ _ _ _ _ _ _) as [[[]|p|] w]; [|done|]; intros [= <- <-]; cbn.
    + by rewrite Hok, <-app_assoc.
    + rewrite Hok. by apply prefix_app_r.
  - intros [= <- <-]. by rewrite Est.
  - intros [= <- <-]. by rewrite Est.
Qed.

(** The invariant of [Run]: it waits until the context is cancelled, and answers a complete
    shutdown only when all loops have returned. *)
Definition run_inv (s : rstate) : Prop :=
  Forall loop_ok (loops s)
  ∧ match phase s with
    | AwaitCancel => cancelled s = false
    | AwaitLoops | Returned false => cancelled s = true
    | Returned true => cancelled s = true ∧ Forall (λ l, lp_state l = Exited) (loops s)
    | Crashed _ => True
    end.

Lemma all_exited ls :
  forallb (λ l, match lp_state l with Exited => true | _ => false end) ls = true ↔
  Forall (λ l, lp_state l = Exited) ls.
Proof.
  rewrite forallb_forall, Forall_forall. split; intros Hall l Hin.
  - specialize (Hall l). rewrite <-list_elem_of_In in Hall. specialize (Hall Hin). by destruct (lp_state l).
  - rewrite Hall; [done|]. by apply list_elem_of_In.
Qed.

Lemma loop_turn_exited c e now l s : lp_state l = Exited → loop_turn c e now l s = (Returns l, s).
Proof. intros Hx. unfold loop_turn. by rewrite Hx. Qed.

Lemma turn_inv s i e now : run_inv s → run_inv (turn s i e now).
Proof.
  intros Hinv. pose proof Hinv as [Hok Hph]. unfold turn.
  destruct (loops s !! i) as [l|] eqn:Hi; [|exact Hinv].
  destruct (loop_turn _ _ _ _ _) as [[l'|p|] w] eqn:Ht; [|by split|exact Hinv].
  split.
  - apply Forall_insert; [done|]. by eapply loop_turn_ok; [apply (Forall_lookup_1 _ _ _ _ Hok Hi)|].
  - cbn [phase cancelled loops]. destruct (phase s) as [| |[|]|p]; try done. destruct Hph as [Hc Hex].
    split; [done|]. pose proof (Forall_lookup_1 _ _ _ _ Hex Hi) as Hx. rewrite loop_turn_exited in Ht by done.
    injection Ht as <- <-. by apply Forall_insert.
Qed.

Lemma run_step_inv s m : run_inv s → run_inv (run_step s m).
Proof.
  destruct m as [i e now| | |]; intros Hinv; unfold run_step;
    destruct (phase s) eqn:Ephase; try exact Hinv; try by apply turn_inv.
  all: destruct Hinv as [Hok Hph]; rewrite Ephase in Hph.
  - by split.
  - case_match eqn:Hall; [|split; [done|by rewrite Ephase]]. split; [done|]. split; [done|].
    by apply all_exited.
  - by split.
Qed.

Lemma run_inv_run s ms : run_inv s → run_inv (run s ms).
Proof. revert s. induction ms as [|m ms IH]; intros s Hs; [done|]. by apply IH, run_step_inv. Qed.

Lemma new_loops_ok name : Forall loop_ok (new_loops name).
Proof.
  unfold new_loops. destruct (receivers !! name) as [r|]; [|by apply Forall_nil].
  by apply Forall_fmap, Forall_true.
Qed.

Lemma start_inv names s s0 : Run_start names s = Ok s0 → run_inv s0.
Proof.
  unfold Run_start. destruct (check_names names); [done|]. intros [= <-]. split; [|done].
  apply Forall_bind, Forall_true, new_loops_ok.
Qed.

(** a worker refuses to run before any goroutine is started when a transport is not registered,
    and names the first such; otherwise it runs [Concurrency] loops for each transport, does
    not return before its context is cancelled, reports a complete shutdown only when every loop
    has returned, and then each loop is done with all the envelopes it got, in order. *)
Theorem worker_run (names : list string) (s : S) :
  match Run_start names s with
  | Err err => ∃ pre name post, names = pre ++ name :: post ∧ receivers !! name = None
                ∧ Forall (λ n, is_Some (receivers !! n)) pre ∧ err = not_registered name
  | Ok s0 =>
      length (loops s0) = length names * Z.to_nat (Concurrency opts)
      ∧ ∀ ms, let s1 := run s0 ms in
          (∀ b, phase s1 = Returned b → cancelled s1 = true)
          ∧ (phase s1 = Returned true →
             Forall (λ l, lp_state l = Exited ∧ lp_processed l = lp_received l) (loops s1))
          ∧ Forall (λ l, lp_processed l `prefix_of` lp_received l) (loops s1)
  end.
Proof.
  destruct (Run_start names s) as [s0|err] eqn:Hst; unfold Run_start in Hst;
    pose proof (check_names_spec names) as Hnames; destruct (check_names names) as [err'|]; try done.
  2: { by injection Hst as ->. }
  assert (Hlen : length (names ≫= new_loops) = length names * Z.to_nat (Concurrency opts)).
  { clear Hst. induction Hnames as [|n names [r Hr] _ IH]; [done|]. rewrite bind_cons, length_app, IH.
    unfold new_loops. rewrite Hr, length_fmap, length_seq. done. }
  injection Hst as <-. split; [done|]. intros ms s1.
  assert (run_inv s1) as [Hok Hph].
  { apply run_inv_run, (start_inv names s). unfold Run_start.
    pose proof (check_names_spec names) as Hn. destruct (check_names names) as [e|]; [|done].
    destruct Hn as (pre & n & post & -> & Hnone & _). apply Forall_app in Hnames as [_ Hn].
    inversion Hn as [|? ? [r Hr]]. congruence. }
  split_and!.
  - intros b Hb. rewrite Hb in Hph. by destruct b, Hph.
  - intros Hb. rewrite Hb in Hph. destruct Hph as [_ Hex].
    apply Forall_forall. intros l Hl. rewrite Forall_forall in Hok, Hex. specialize (Hok l Hl).
    specialize (Hex l Hl). split; [done|]. unfold loop_ok in Hok. rewrite Hex in Hok.
    cbn in Hok. by rewrite app_nil_r in Hok.
  - eapply Forall_impl; [exact Hok|]. intros l Hl. unfold loop_ok in Hl.
    destruct (lp_state l); try done; rewrite Hl; by apply prefix_app_r.
Qed.

(** ** The shutdown ends *)

(** Receivers that give at most [B] envelopes at a time and do not panic, and do not wait once
    the context is cancelled; messages whose processing ends. *)
Definition well_behaved (B : nat) : Prop :=
  (∀ c name r s, receivers !! name = Some r →
     match (Get r (ctx_at c) s).1 with
     | Returns (Ok envs) => length envs ≤ B
     | Returns (Err _) => True
     | Panics _ => False
     | Hangs => c = false
     end)
  ∧ ∀ c now name r env s, receivers !! name = Some r →
     (processMessage bus now (ctx_at c) name r env s).1 = Returns ().

(** The turns a loop takes at most to return once the context is cancelled. *)
Definition cost (B : nat) (st : loop_state) : nat :=
  match st with
  | AtTop => 1 | AtSleep => 2 | AtBatch envs => length envs + 2 | AtGet => B + 3
  | AtHandler => 0 | Exited => 0
  end.

Definition fair_loop (B : nat) (l : loop) : Prop :=
  receivers !! lp_transport l = Some (lp_receiver l) ∧ cost B (lp_state l) ≤ B + 3
  ∧ lp_state l ≠ AtHandler.

Lemma loop_turn_cost B c e now l s :
  well_behaved B → fair_loop B l →
  ∃ l' s', loop_turn c e now l s = (Returns l', s') ∧ fair_loop B l'
           ∧ (c = true → cost B (lp_state l') ≤ cost B (lp_state l) - 1).
Proof.
  intros [Hget Hproc] (Hr & Hb & Hh). unfold loop_turn, fair_loop.
  destruct (lp_state l) as [| | |[|env rest]| |] eqn:Est; cbn [cost] in *.
  - do 2 eexists. split; [done|]. destruct c; (split; [split_and!; cbn; [done|lia|done]|]); intros; cbn; lia.
  - specialize (Hget c _ _ s Hr). destruct (Get _ _ _) as [[[[|env envs]|err]|p|] w]; cbn in Hget; [..|done|].
    1,2,3: do 2 eexists; split; [done|]; destruct c; (split; [split_and!; cbn; [done|lia|done]|]); intros; cbn; lia.
    do 2 eexists. split; [done|]. subst c. rewrite Est. by split_and!.
  - do 2 eexists. split; [done|]. destruct c, e; cbn [orb]; rewrite ?Est; cbn; (split; [split_and!; [done|lia|done]|]); intros; lia.
  - do 2 eexists. split; [done|]. split; [split_and!; cbn; [done|lia|done]|]. intros; cbn; lia.
  - specialize (Hproc c now _ _ env s Hr). destruct (processMessage _ _ _ _ _ _ _) as [o w]. cbn in Hproc. subst o.
    do 2 eexists. split; [done|]. cbn in *. split; [split_and!; [done|lia|done]|]. intros; lia.
  - done.
  - do 2 eexists. split; [done|]. rewrite Est. split_and!; [done|done|done|cbn; lia].
Qed.

(** A run in which no loop has crashed or is blocked. *)
Definition fair_run (B : nat) (s : rstate) : Prop :=
  Forall (fair_loop B) (loops s) ∧ (∀ p, phase s ≠ Crashed p)
  ∧ (phase s = AwaitCancel ↔ cancelled s = false).

Definition loop_cost (B : nat) (s : rstate) (i : nat) : nat :=
  match loops s !! i with Some l => cost B (lp_state l) | None => 0 end.
Definition is_turn (i : nat) (m : move) : bool :=
  match m with Turn j _ _ => bool_decide (j = i) | _ => false end.
Definition turns (i : nat) (ms : list move) : nat := length (List.filter (is_turn i) ms).

(** What a step keeps: no loop is blocked, and the loops that take a turn come closer to their end
    once the context is cancelled. *)
Definition advances (B : nat) (hit : nat → bool) (s s' : rstate) : Prop :=
  fair_run B s' ∧ length (loops s') = length (loops s)
  ∧ (cancelled s = true →
     cancelled s' = true ∧ ∀ j, loop_cost B s' j ≤ loop_cost B s j - (if hit j then 1 else 0)).

Lemma advances_phase B s ph c :
  fair_run B s → (∀ p, ph ≠ Crashed p) → (ph = AwaitCancel ↔ c = false) → (cancelled s = true → c = true) →
  advances B (λ _, false) s {| world := world s; cancelled := c; loops := loops s; phase := ph |}.
Proof.
  intros (Hf & _ & _) Hnc Hcc Hc. split; [by split_and!|]. split; [done|]. intros Ht. split; [by apply Hc|].
  intros j. unfold loop_cost. cbn [loops]. lia.
Qed.

Lemma advances_refl B s : fair_run B s → advances B (λ _, false) s s.
Proof. intros Hs. split; [done|]. split; [done|]. intros Hc. split; [done|]. intros j. lia. Qed.

Lemma turn_advances B s i e now :
  well_behaved B → fair_run B s →
  advances B (λ j, bool_decide (i = j)) s (turn s i e now) ∧ phase (turn s i e now) = phase s.
Proof.
  intros Hwb Hs. pose proof Hs as (Hf & Hnc & Hcc). unfold turn.
  destruct (loops s !! i) as [l|] eqn:Hi.
  - destruct (loop_turn_cost B (cancelled s) e now l (world s) Hwb (Forall_lookup_1 _ _ _ _ Hf Hi))
      as (l' & w & -> & Hl' & Hcost).
    split; [|done]. split; [split; [by apply Forall_insert|done]|]. split; [apply length_insert|].
    intros Hc. split; [done|]. intros j. unfold loop_cost. cbn [loops]. case_bool_decide as Hij.
    + subst j. rewrite list_lookup_insert_eq by by eapply lookup_lt_Some. rewrite Hi. by apply Hcost.
    + rewrite list_lookup_insert_ne by done. lia.
  - split; [|done]. split; [done|]. split; [done|]. intros Hc. split; [done|]. intros j.
    case_bool_decide; [|lia]. subst j. unfold loop_cost. rewrite Hi. lia.
Qed.

Lemma step_advances B s m :
  well_behaved B → fair_run B s →
  advances B (λ j, is_turn j m) s (run_step s m)
  ∧ (∀ b, phase s = Returned b → phase (run_step s m) = Returned b)
  ∧ (m ≠ Deadline → phase (run_step s m) = Returned false → phase s = Returned false).
Proof.
  intros Hwb Hs. pose proof Hs as (Hf & Hnc & Hcc).
  destruct (phase s) as [| |b|p] eqn:Ep; [| | |by destruct (Hnc p)].
  all: destruct m as [i e now| | |]; unfold run_step; rewrite Ep.
  1,5,9: destruct (turn_advances B s i e now Hwb Hs) as [Hadv Hp]; rewrite Hp, Ep; by split_and!.
  all: try (rewrite Ep; split_and!; [by apply advances_refl|done|done]).
  - split_and!; [|done|done]. by apply advances_phase.
  - case_match; [|rewrite Ep; split_and!; [by apply advances_refl|done|done]].
    split_and!; [|done|done]. apply advances_phase; [done|done| |done].
    split; [done|]. intros Hc. by apply Hcc in Hc.
  - split_and!; [|done|done]. apply advances_phase; [done|done| |done].
    split; [done|]. intros Hc. by apply Hcc in Hc.
Qed.

Lemma turns_cons j m ms : turns j (m :: ms) = (if is_turn j m then 1 else 0) + turns j ms.
Proof. unfold turns. cbn [List.filter]. by destruct (is_turn j m). Qed.

Lemma run_advances B s ms :
  well_behaved B → fair_run B s →
  let s' := run s ms in
  fair_run B s' ∧ length (loops s') = length (loops s)
  ∧ (cancelled s = true → cancelled s' = true ∧ ∀ j, loop_cost B s' j ≤ loop_cost B s j - turns j ms)
  ∧ (Deadline ∉ ms → phase s' = Returned false → phase s = Returned false).
Proof.
  intros Hwb. revert s. induction ms as [|m ms IH]; intros s Hs.
  { split_and!; try done. intros Hc. split; [done|]. intros j. cbn. lia. }
  destruct (step_advances B s m Hwb Hs) as ((Hf & Hlen & Hcost) & Hret & Hno).
  destruct (IH _ Hf) as (Hf' & Hlen' & Hcost' & Hno'). cbn zeta. change (run s (m :: ms)) with (run (run_step s m) ms).
  split_and!; [done|congruence| |].
  - intros Hc. destruct (Hcost Hc) as [Hc1 Hj1]. destruct (Hcost' Hc1) as [Hc2 Hj2]. split; [done|].
    intros j. specialize (Hj1 j). specialize (Hj2 j). rewrite turns_cons. lia.
  - rewrite not_elem_of_cons. intros [Hm Hms] Hp. apply Hno; [by apply not_eq_sym|]. by apply Hno'.
Qed.

Lemma start_fair B names s s0 : Run_start names s = Ok s0 → fair_run B s0.
Proof.
  unfold Run_start. destruct (check_names names); [done|]. intros [= <-]. split; [|done].
  apply Forall_bind, Forall_true. intros n. apply Forall_forall. intros l. unfold new_loops.
  destruct (receivers !! n) as [r|] eqn:Hr; [|by rewrite elem_of_nil].
  rewrite list_elem_of_fmap. intros (i & -> & _). split_and!; cbn; [done|lia|done].
Qed.

Lemma collect_exited B s :
  fair_run B s → cancelled s = true → (∀ j, loop_cost B s j = 0) →
  ∃ b, phase (run_step s Collect) = Returned b ∧ (b = false → phase s = Returned false).
Proof.
  intros (Hf & Hnc & Hcc) Hc Hzero. unfold run_step. destruct (phase s) as [| |b|p] eqn:Ep; [| | |by destruct (Hnc p)].
  - assert (cancelled s = false) by by apply Hcc. congruence.
  - assert (Hall : Forall (λ l, lp_state l = Exited) (loops s)).
    { apply Forall_lookup. intros j l Hj. destruct (Forall_lookup_1 _ _ _ _ Hf Hj) as (_ & _ & Hh).
      specialize (Hzero j). unfold loop_cost in Hzero. rewrite Hj in Hzero.
      destruct (lp_state l); cbn in Hzero; try lia; done. }
    apply all_exited in Hall. rewrite Hall. by exists true.
  - rewrite Ep. exists b. by split; [|intros ->].
Qed.

(** C30: the shutdown of a worker ends: once its context is cancelled, a schedule that lets each loop
    take the turns for one more batch makes [Run] return; it reports a complete shutdown unless
    the timeout came first. *)
Theorem worker_shutdown_ends (B : nat) (names : list string) (s : S) (s0 : rstate) (ms1 ms2 : list move) :
  well_behaved B → Run_start names s = Ok s0 →
  (∀ i, i < length (loops s0) → B + 3 ≤ turns i ms2) →
  ∃ b, phase (run s0 (ms1 ++ Cancel :: ms2 ++ [Collect])) = Returned b
       ∧ (Deadline ∉ ms1 ++ ms2 → b = true).
Proof.
  intros Hwb Hst Hturns. pose proof (start_fair B names s s0 Hst) as Hs0.
  destruct (run_advances B s0 ms1 Hwb Hs0) as (Hf1 & Hlen1 & _ & Hno1). set (s1 := run s0 ms1) in *.
  destruct (step_advances B s1 Cancel Hwb Hf1) as ((Hf2 & Hlen2 & Hk2) & _ & Hno2). set (s2 := run_step s1 Cancel) in *.
  assert (Hc2 : cancelled s2 = true).
  { destruct (cancelled s1) eqn:Hc1; [by apply Hk2|]. destruct Hf1 as (_ & _ & Hcc).
    unfold s2, run_step. by rewrite (proj2 Hcc Hc1). }
  destruct (run_advances B s2 ms2 Hwb Hf2) as (Hf3 & Hlen3 & Hk3 & Hno3). set (s3 := run s2 ms2) in *.
  destruct (Hk3 Hc2) as [Hc3 Hcost].
  destruct (collect_exited B s3 Hf3 Hc3) as (b & Hb & Hbf).
  { intros j. destruct (decide (j < length (loops s0))) as [Hj|Hj].
    - specialize (Hturns j Hj). specialize (Hcost j). destruct Hf2 as (Hfair & _).
      assert (loop_cost B s2 j ≤ B + 3); [|lia]. unfold loop_cost.
      destruct (loops s2 !! j) as [l|] eqn:Hl; [|lia]. by apply (Forall_lookup_1 _ _ _ _ Hfair Hl).
    - unfold loop_cost. rewrite lookup_ge_None_2 by lia. done. }
  exists b. split.
  - unfold run, s3, s2, s1 in *. rewrite foldl_app. cbn [foldl]. rewrite foldl_app. exact Hb.
  - rewrite not_elem_of_app. intros [Hd1 Hd2]. destruct b; [done|].
    specialize (Hno3 Hd2 (Hbf eq_refl)). apply Hno2 in Hno3; [|done]. specialize (Hno1 Hd1 Hno3).
    unfold Run_start in Hst. destruct (check_names names); [done|]. by injection Hst as <-.
Qed.
End WorkerRun.

(** ** Witness

    A queue of envelopes that gives one at a time, and a bus that recovers from panics. *)
Notation queue_state := (list (Envelope string nat) * list string)%type.

Definition queue_receiver : Receiver (V := string) (R := nat) (S := queue_state) (Ctx := bool) :=
  {| Get (ctx : bool) (s : queue_state) :=
       match s.1 with
       | [] => if ctx then (Returns (Err (EText "context canceled")), s) else (Hangs, s)
       | env :: rest => (Returns (Ok [env]), (rest, s.2))
       end;
     Ack ctx env s := (Returns None, s);
     Reject ctx env reason s := (Returns (Some reason), s) |}.

Definition queue_bus : MessageBus (V := string) (R := nat) (S := queue_state) (Ctx := bool) :=
  {| bus_name := "demo";
     handlers := {[ "orders.Create" := commandWrapper (λ _, true) "orders.Create"
                      (λ _ msg (s : queue_state), (Returns (Ok tt), (s.1, s.2 ++ [value msg]))) ]};
     router := ∅; transports := ∅; mws := [Recovery]; closed := false |}.

Lemma queue_well_behaved :
  well_behaved queue_bus {[ "queue" := queue_receiver ]} (λ c, c) 1.
Proof.
  split.
  - intros c name r s Hr. apply lookup_singleton_Some in Hr as [_ <-]. cbn.
    destruct (s.1) as [|env rest]; [by destruct c|]. cbn. lia.
  - intros c now name r env s Hr. apply lookup_singleton_Some in Hr as [_ <-].
    unfold processMessage, Dispatch. cbn [closed queue_bus mws]. rewrite buildChain_cons.
    set (env1 := NewEnvelope _ _ _). unfold execute at 1. unfold Recovery.
    change (execute (buildChain [] (dispatchTerminal queue_bus))) with (dispatchTerminal queue_bus).
    unfold dispatchTerminal, syncTerminal, sendToTransport, Resolve.
    cbn [queue_bus transports router handlers]. rewrite !lookup_empty.
    replace (Route ∅ (Message env1)) with "" by done.
    destruct (HasStamp env1 NameForceSync); [|destruct (Last env1 NameForceTransport) as [[]|]]; try done.
    all: destruct (_ !! TypeName (Message env1)) as [h|] eqn:Hh; [|done].
    all: by apply (lookup_singleton_Some (M := gmap string)) in Hh as [_ <-].
Qed.

Lemma worker_shutdown_ends_witness :
  ∃ s0, Run_start {[ "queue" := queue_receiver ]} DefaultOptions ["queue"] ([demo_env], []) = Ok s0
  ∧ let final := run queue_bus (λ c, c) s0
                   ([Turn 0 false 1%Z; Turn 0 false 2%Z] ++ Cancel :: replicate 4 (Turn 0 false 3%Z) ++ [Collect]) in
    phase final = Returned true ∧ (world final).2 = ["o-1"].
Proof.
  eexists. split; [reflexivity|]. cbn zeta. split; [|vm_compute; reflexivity].
  destruct (worker_shutdown_ends queue_bus {[ "queue" := queue_receiver ]} DefaultOptions (λ c, c) 1 ["queue"]
    ([demo_env], []) _ [Turn 0 false 1%Z; Turn 0 false 2%Z] (replicate 4 (Turn 0 false 3%Z))
    queue_well_behaved eq_refl) as (b & Hb & Htrue).
  - intros [|i] Hi; [vm_compute; lia|vm_compute in Hi; lia].
  - rewrite Hb, Htrue; [done|]. apply (bool_decide_unpack _). vm_compute. exact I.
Defined.
