(* ===== verification/MessengerObserve.v ===== *)
(** * Observing a message bus

    [MessengerObserve.v] models messenger/middleware/logging.go, metrics.go and tracing.go: what the
    three middlewares record of a dispatch, and what the tracing middleware puts on the envelope
    of a message that goes to a transport.  The tracer, its propagator and the Prometheus vectors
    are third-party code: the classes [Otel] and [Vectors]. *)

From S2P Require Import Prelude Errors Event Messenger OutboxWorker MessengerWorker Config Observability.
Local Open Scope go_scope.

(** ** What is recorded *)

Inductive attr_value := AString (s : string) | ADuration (d : Z) | ABool (b : bool) | AInt (n : Z).
Definition attr : Type := string * attr_value.

Inductive slog_level := LevelInfo | LevelError.
Record log_record := { lr_level : slog_level; lr_msg : string; lr_attrs : list attr }.

(** The identifiers a span is known by. *)
Record SpanContext := { TraceID : string; SpanID : string }.
Inductive span_op :=
| Started (name : string) (attrs : list attr)
| RecordError (err : error)
| SetStatusError (description : string)
| SetAttributes (attrs : list attr)
| Ended.

Record Obs := {
  logs : list log_record;
  counts : gmap (desc * list string) Z;
  samples : list (desc * list string * Z);
  spans : list (SpanContext * span_op)
}.

(** A state with a clock and an observation. *)
Class World (S : Type) := {
  clock : S → time;
  obs : S → Obs;
  set_obs : Obs → S → S;
  obs_set o s : obs (set_obs o s) = o;
  set_obs_set o1 o2 s : set_obs o1 (set_obs o2 s) = set_obs o1 s
}.

(** A transport whose handlers' state is observed is observed. *)
#[export, refine] Instance transport_world {V R H} `{!World H} : World (mstate (V := V) (R := R) (H := H)) := {|
  clock s := clock (hst s);
  obs s := obs (hst s);
  set_obs o s := set_hst (set_obs o (hst s)) s
|}.
Proof.
  - intros. apply obs_set.
  - intros. cbn. unfold set_hst; cbn. by rewrite set_obs_set.
Defined.

(** The tracer and the propagator.  [Start] may look at the spans that exist, to choose new
    identifiers. *)
Class Otel (Ctx : Type) := {
  Start : Ctx → string → list attr → list (SpanContext * span_op) → Ctx * SpanContext;
  Inject : Ctx → gmap string string → gmap string string;
  Extract : Ctx → gmap string string → Ctx;
  SpanContextFromContext : Ctx → option SpanContext
}.

(** A started span is the one of the returned context; it continues the trace of the context, and
    without one it has a trace of its own. *)
Record tracer_laws {Ctx} `{!Otel Ctx} : Prop := {
  start_current ctx name attrs l :
    SpanContextFromContext (Start ctx name attrs l).1 = Some (Start ctx name attrs l).2;
  start_child ctx name attrs l parent :
    SpanContextFromContext ctx = Some parent → TraceID (Start ctx name attrs l).2 = TraceID parent;
  start_root ctx name attrs l :
    SpanContextFromContext ctx = None →
    Forall (λ sp, TraceID sp.1 ≠ TraceID (Start ctx name attrs l).2) l
}.

(** The W3C propagator carries the span context, in at least one header. *)
Record propagator_laws {Ctx} `{!Otel Ctx} : Prop := {
  inject_some ctx sp : SpanContextFromContext ctx = Some sp → Inject ctx ∅ ≠ ∅;
  extract_inject ctx ctx' sp :
    SpanContextFromContext ctx = Some sp →
    SpanContextFromContext (Extract ctx' (Inject ctx ∅)) = Some sp
}.
Arguments tracer_laws Ctx {_}. Arguments propagator_laws Ctx {_}.

(** [WithLabelValues] panics when the values do not fit the labels of the vector. *)
Class Vectors := {
  label_error : collector → list string → option string;
  label_error_arity c vals : length vals ≠ length (co_labels c) → is_Some (label_error c vals)
}.

Section Observe.
Context {V R S Ctx : Type} `{!World S} `{!Otel Ctx} `{!Vectors}.
Notation message := (message V).
Notation Envelope := (Envelope V R).
Notation DispatchResult := (DispatchResult V R).
Notation Middleware := (Middleware (V := V) (R := R) (S := S) (Ctx := Ctx)).
Notation MiddlewareNext := (MiddlewareNext (V := V) (R := R) (S := S) (Ctx := Ctx)).

Definition add_log (r : log_record) (s : S) : S :=
  let o := obs s in
  set_obs {| logs := logs o ++ [r]; counts := counts o; samples := samples o; spans := spans o |} s.
Definition add_count (k : desc * list string) (s : S) : S :=
  let o := obs s in
  set_obs {| logs := logs o; counts := <[k := (default 0 (counts o !! k) + 1)%Z]> (counts o);
             samples := samples o; spans := spans o |} s.
Definition add_sample (x : desc * list string * Z) (s : S) : S :=
  let o := obs s in
  set_obs {| logs := logs o; counts := counts o; samples := samples o ++ [x]; spans := spans o |} s.
Definition add_spans (l : list (SpanContext * span_op)) (s : S) : S :=
  let o := obs s in
  set_obs {| logs := logs o; counts := counts o; samples := samples o; spans := spans o ++ l |} s.

(** [time.Since]: a difference of instants, clipped to the range of [time.Duration]. *)
Definition Since (start now : time) : Z :=
  Z.max (- 2 ^ 63) (Z.min (2 ^ 63 - 1) (now - start)).

(** ** Logging *)

Definition dispatch_log (msgType : string) (duration : Z) (r : result error DispatchResult) : log_record :=
  match r with
  | Err err =>
      {| lr_level := LevelError; lr_msg := "messenger: dispatch failed";
         lr_attrs := [("message_type", AString msgType); ("duration", ADuration duration);
                      ("error", AString (Error err))] |}
  | Ok res =>
      {| lr_level := LevelInfo; lr_msg := "messenger: dispatch complete";
         lr_attrs := [("message_type", AString msgType); ("duration", ADuration duration);
                      ("async", ABool (Async res))] |}
  end.

Definition Logging_Handle : Middleware := λ ctx env next s,
  let msgType := TypeName (Message env) in
  let start := clock s in
  match next ctx env s with
  | (Returns r, s) => (Returns r, add_log (dispatch_log msgType (Since start (clock s)) r) s)
  | r => r
  end.

(** ** Metrics *)

Record Metrics := { dispatches : collector; duration : collector; busName : string }.

Definition NewMetrics {W X} `{!Registry X W} (busName : string) (x : X) : prog W Metrics :=
  let dispatches := mk CounterVecK "messenger_dispatches_total" ["type"; "bus"; "status"] in
  let duration := mk HistogramVecK "messenger_dispatch_duration_seconds" ["type"; "bus"] in
  let! _ := MustRegister [(dispatches, x); (duration, x)] in
  pret {| dispatches := dispatches; duration := duration; busName := busName |}.

Definition NewMetricsFrom (busName : string) (dispatches duration : collector) : Metrics :=
  {| dispatches := dispatches; duration := duration; busName := busName |}.

Definition status_of (r : result error DispatchResult) : string :=
  match r with
  | Err _ => "error"
  | Ok res => if Async res then "async_sent" else "success"
  end.

(** The sample is kept in nanoseconds; the histogram takes it as a float of seconds. *)
Definition Metrics_Handle (m : Metrics) : Middleware := λ ctx env next s,
  let msgType := TypeName (Message env) in
  let start := clock s in
  match next ctx env s with
  | (Returns r, s) =>
      let elapsed := Since start (clock s) in
      match label_error (duration m) [msgType; busName m] with
      | Some p => (Panics p, s)
      | None =>
          let s := add_sample (co_desc (duration m), [msgType; busName m], elapsed) s in
          match label_error (dispatches m) [msgType; busName m; status_of r] with
          | Some p => (Panics p, s)
          | None => (Returns r, add_count (co_desc (dispatches m), [msgType; busName m; status_of r]) s)
          end
      end
  | r => r
  end.

(** ** Tracing *)

(** A stamp of another type under the name of the trace stamp is ignored. *)
Definition extractParentContext (ctx : Ctx) (env : Envelope) : Ctx :=
  match Last env NameTrace with
  | Some (TraceStamp _ _ Headers) => if bool_decide (Headers = ∅) then ctx else Extract ctx Headers
  | _ => ctx
  end.

Definition injectTraceContext (ctx : Ctx) (env : Envelope) (span : SpanContext) : Envelope :=
  WithStamp env (TraceStamp (TraceID span) (SpanID span) (Inject ctx ∅)).

Definition span_attrs (env : Envelope) : list attr :=
  [("message.type", AString (TypeName (Message env)));
   ("message.stamps", AInt (Z.of_nat (StampCount env)));
   ("message.consumed", ABool (HasStamp env NameReceived))].
Definition span_name (env : Envelope) : string :=
  (if HasStamp env NameReceived then "messenger.consume " else "messenger.dispatch ")
  +:+ TypeName (Message env).

(** The context and the span of a dispatch. *)
Definition start_span (ctx : Ctx) (env : Envelope) (s : S) : Ctx * SpanContext :=
  let ctx := if HasStamp env NameReceived then extractParentContext ctx env else ctx in
  Start ctx (span_name env) (span_attrs env) (spans (obs s)).

(** What is done with the span after [next], and the result; an absent envelope of a result
    stays absent. *)
Definition span_result (ctx : Ctx) (span : SpanContext) (r : result error DispatchResult)
    : result error DispatchResult * list span_op :=
  match r with
  | Err err => (r, [RecordError err; SetStatusError (Error err)])
  | Ok res =>
      if Async res
      then (Ok {| ResEnvelope := (λ env, injectTraceContext ctx env span) <$> ResEnvelope res; Async := true |},
            [SetAttributes [("message.async", ABool true)]])
      else (r, [])
  end.

(** The deferred [span.End] runs on a panic as well. *)
Definition Tracing_Handle : Middleware := λ ctx env next s,
  let '(ctx, span) := start_span ctx env s in
  let s := add_spans [(span, Started (span_name env) (span_attrs env))] s in
  match next ctx env s with
  | (Returns r, s) =>
      let '(r, ops) := span_result ctx span r in
      (Returns r, add_spans ((λ op, (span, op)) <$> ops ++ [Ended]) s)
  | (Panics p, s) => (Panics p, add_spans [(span, Ended)] s)
  | (Hangs, s) => (Hangs, s)
  end.

(** ** The three together *)

(** The labels of the two vectors are the ones [NewMetrics] gives them, and take all values. *)
Definition labels_fit (m : Metrics) : Prop :=
  ∀ a b c, label_error (duration m) [a; b] = None ∧ label_error (dispatches m) [a; b; c] = None.

Definition observed_chain (m : Metrics) (terminal : terminalFunc) : MiddlewareNext :=
  execute (buildChain [Logging_Handle; Metrics_Handle m; Tracing_Handle] terminal).

(** logging, metrics and tracing around a dispatch do not change what it answers, except for
    the trace stamp on the result of a message that went to a transport; a dispatch that returns
    leaves one log record, one duration sample, one count under its outcome and an ended span,
    and a dispatch that panics leaves an ended span and nothing else. *)
Theorem observers_transparent (m : Metrics) (terminal : terminalFunc) (ctx : Ctx) (env : Envelope) (s : S) :
  labels_fit m →
  let '(ctx1, span) := start_span ctx env s in
  let started := add_spans [(span, Started (span_name env) (span_attrs env))] s in
  let msgType := TypeName (Message env) in
  match terminal ctx1 env started with
  | (Returns r, s1) =>
      ∃ d1 d2 k s2, observed_chain m terminal ctx env s = (Returns (span_result ctx1 span r).1, s2)
        ∧ k = (co_desc (dispatches m), [msgType; busName m; status_of r])
        ∧ logs (obs s2) = logs (obs s1) ++ [dispatch_log msgType d1 r]
        ∧ samples (obs s2) = samples (obs s1) ++ [(co_desc (duration m), [msgType; busName m], d2)]
        ∧ counts (obs s2) = <[k := (default 0 (counts (obs s1) !! k) + 1)%Z]> (counts (obs s1))
        ∧ spans (obs s2) = spans (obs s1) ++ ((λ op, (span, op)) <$> (span_result ctx1 span r).2 ++ [Ended])
  | (Panics p, s1) =>
      observed_chain m terminal ctx env s = (Panics p, add_spans [(span, Ended)] s1)
  | (Hangs, s1) => observed_chain m terminal ctx env s = (Hangs, s1)
  end.
Proof.
  intros Hfit. destruct (start_span ctx env s) as [ctx1 span] eqn:Est. cbn zeta.
  unfold observed_chain. rewrite !buildChain_cons. change (buildChain [] terminal) with (Tail terminal).
  cbv beta iota zeta delta [execute Logging_Handle Metrics_Handle Tracing_Handle]. rewrite Est.
  destruct (terminal ctx1 env _) as [[r|p|] s1]; [|done..].
  assert (Hst : status_of (span_result ctx1 span r).1 = status_of r).
  { destruct r as [[? [|]]|]; reflexivity. }
  assert (Hlog : ∀ ty d, dispatch_log ty d (span_result ctx1 span r).1 = dispatch_log ty d r).
  { intros ty d. destruct r as [[? [|]]|]; reflexivity. }
  destruct (span_result ctx1 span r) as [r' ops]. cbn [fst snd] in *.
  destruct (Hfit (TypeName (Message env)) (busName m) (status_of r')) as [-> ->]. rewrite Hst.
  do 4 eexists. split; [done|]. rewrite <-Hlog.
  unfold add_log, add_count, add_sample, add_spans. rewrite !obs_set. cbn [logs counts samples spans].
  done.
Qed.

(** A second [NewMetrics] on the same registerer panics, whatever the name of the bus. *)
Lemma NewMetrics_again {W X} `{!Registry X W} (b1 b2 : string) (x1 x2 : X) (w w1 : W) (m : Metrics) :
  NewMetrics b1 x1 w = (Returns m, w1) → ∃ msg, NewMetrics b2 x2 w1 = (Panics msg, w1).
Proof.
  unfold NewMetrics. set (c := mk CounterVecK _ _). set (h := mk HistogramVecK _ _). intros Hrun.
  assert (Hin : is_Some (Observability.registered w1 !! co_desc c)).
  { unfold pbind, MustRegister in Hrun. unfold pbind in Hrun.
    destruct (Register_union c x1 w) as (e & wa & Ha & Hra & _). rewrite Ha in Hrun.
    destruct e; [done|].
    destruct (Register_union h x1 wa) as (e & wb & Hb & Hrb & _). rewrite Hb in Hrun.
    destruct e; [done|]. cbn in Hrun. injection Hrun as _ <-. rewrite Hrb, Hra.
    apply lookup_union_is_Some. left. apply lookup_union_is_Some. right.
    rewrite lookup_singleton_eq. by eexists. }
  unfold pbind. destruct (MustRegister_dup c x2 [(h, x2)] w1 Hin) as [msg ->]. by exists msg.
Qed.
End Observe.

(** ** A traced message on its way through a transport *)
Section TracedTransport.
Context {V R H Ctx : Type} `{!World H} `{!Otel Ctx}.
Notation message := (message V).
Notation Envelope := (Envelope V R).
Notation mstate := (mstate (V := V) (R := R) (H := H)).
Notation MessageBus := (MessageBus (V := V) (R := R) (S := mstate) (Ctx := Ctx)).

(** A bus that traces and routes [msg] to a channel transport with room for it. *)
Definition traced_route (bus : MessageBus) (tname : string) (msg : message) (s : mstate) : Prop :=
  mws bus = [Tracing_Handle] ∧ closed bus = false ∧ tname ≠ ""
  ∧ transports bus !! tname = Some mem_Send ∧ router bus !! TypeName msg = Some tname
  ∧ t_closed s = false ∧ length (ch s) < cap s.

(** A stamp list without the stamps that steer the dispatch or carry a trace. *)
Definition plain (ss : list (stamp R)) : Prop :=
  Forall (λ st, StampName st ∉ [NameForceSync; NameForceTransport; NameTrace; NameReceived]) ss.

Lemma find_first_absent name (ss : list (stamp R)) :
  Forall (λ st, StampName st ≠ name) ss → find_first name ss = None.
Proof.
  induction 1 as [|st ss Hst Hss IH]; [done|]. cbn [find_first].
  by destruct (String.eqb_spec (StampName st) name).
Qed.

Lemma Last_absent (env : Envelope) name :
  Forall (λ st, StampName st ≠ name) (stamps env) → Last env name = None.
Proof. intros Ha. apply find_first_absent, Forall_reverse, Ha. Qed.

Lemma plain_absent ss name :
  plain ss → name ∈ [NameForceSync; NameForceTransport; NameTrace; NameReceived] →
  Forall (λ st : stamp R, StampName st ≠ name) ss.
Proof. intros Hp Hn. eapply Forall_impl; [exact Hp|]. cbn beta. intros st Hst Heq. apply Hst. by rewrite Heq. Qed.

Lemma HasStamp_absent (env : Envelope) name :
  Forall (λ st, StampName st ≠ name) (stamps env) → HasStamp env name = false.
Proof.
  unfold HasStamp. induction 1 as [|st ss Hst Hss IH]; [done|]. cbn [existsb]. rewrite IH, orb_false_r.
  by destruct (String.eqb_spec (StampName st) name).
Qed.

(** The dispatch puts the envelope without a trace stamp into the channel, and returns another
    one with it. *)
Lemma traced_dispatch (bus : MessageBus) tname msg now ctx ss (s : mstate) :
  traced_route bus tname msg s → plain ss →
  let env := NewEnvelope now msg ss in
  let '(ctx1, span) := start_span ctx env s in
  ∃ s1 id, Dispatch bus now ctx msg ss s
           = (Returns (Ok {| ResEnvelope := Some (injectTraceContext ctx1 env span); Async := true |}), s1)
    ∧ ch s1 = ch s ++ [WithStamp env (memoryIDStamp id)]
    ∧ (span, Ended) ∈ spans (obs s1).
Proof.
  intros (Hm & Hc & Hne & Ht & Hr & Hopen & Hroom) Hp env.
  destruct (start_span ctx env s) as [ctx1 span] eqn:Est.
  assert (Hfs : HasStamp env NameForceSync = false) by (apply HasStamp_absent, plain_absent; [done|list_in]).
  assert (Hft : Last env NameForceTransport = None) by (apply Last_absent, plain_absent; [done|list_in]).
  unfold Dispatch. rewrite Hc, Hm, buildChain_cons. change (buildChain [] ?t) with (Tail t).
  cbv beta iota zeta delta [execute Tracing_Handle]. fold env. rewrite Est.
  unfold dispatchTerminal. rewrite Hfs, Hft. unfold Route. cbn [env NewEnvelope NewEnvelopeWithTime Message].
  rewrite Hr. cbn [default]. unfold id. destruct (String.eqb_spec tname "") as [|_]; [done|].
  unfold sendToTransport. rewrite Ht. unfold mem_Send. set (s0 := add_spans _ s).
  change (t_closed s0) with (t_closed s). rewrite Hopen. cbn [ch cap set_seq].
  change (ch s0) with (ch s). change (cap s0) with (cap s). rewrite decide_True by done.
  cbn [span_result Async ResEnvelope fmap option_fmap option_map].
  do 2 eexists. split; [done|]. split; [done|].
  unfold add_spans at 1. rewrite obs_set. cbn [spans]. apply elem_of_app. right.
  apply list_elem_of_fmap. exists Ended. split; [done|list_in].
Qed.

(** What the consuming side makes of an envelope taken from the transport. *)
Definition consumer_span (cctx : Ctx) (tname : string) (at_ : time) (env : Envelope) (s : mstate) : SpanContext :=
  (start_span cctx (WithStamp env (ReceivedStamp tname at_)) s).2.

Lemma extract_received (cctx : Ctx) (env : Envelope) tname at_ :
  extractParentContext cctx (WithStamp env (ReceivedStamp tname at_)) = extractParentContext cctx env.
Proof. unfold extractParentContext, Last, WithStamp. cbn [stamps]. by rewrite find_first_snoc. Qed.

Lemma consumer_span_start cctx tname at_ env (s : mstate) :
  ∃ name attrs, consumer_span cctx tname at_ env s
    = (Start (extractParentContext cctx env) name attrs (spans (obs s))).2.
Proof.
  unfold consumer_span, start_span. rewrite HasStamp_snoc. cbn [StampName].
  rewrite String.eqb_refl, orb_true_r, extract_received. by do 2 eexists.
Qed.

(** C33: the trace of a message is broken at the transport.  The tracing middleware adds the trace
    stamp to the envelope it returns, after the terminal has sent the envelope without it: a
    consumer of the message in the channel starts a span of another trace than the producer's,
    where the envelope that was returned to the producer would have continued it. *)
Theorem trace_broken_at_transport (bus : MessageBus) (tname : string) (msg : message) (now : time)
    (ctx : Ctx) (ss : list (stamp R)) (s : mstate) :
  tracer_laws Ctx → propagator_laws Ctx → traced_route bus tname msg s → plain ss →
  ∃ span res sent returned s1,
    Dispatch bus now ctx msg ss s = (Returns (Ok res), s1)
    ∧ Async res = true ∧ ResEnvelope res = Some returned ∧ ch s1 = ch s ++ [sent]
    ∧ (span, Ended) ∈ spans (obs s1)
    ∧ Last sent NameTrace = None
    ∧ (∃ headers, Last returned NameTrace = Some (TraceStamp (TraceID span) (SpanID span) headers))
    ∧ ∀ cctx at_ s2, SpanContextFromContext cctx = None → spans (obs s1) ⊆ spans (obs s2) →
        TraceID (consumer_span cctx tname at_ sent s2) ≠ TraceID span
        ∧ TraceID (consumer_span cctx tname at_ returned s2) = TraceID span.
Proof.
  intros Hlaws Hprop Hroute Hp. pose proof (traced_dispatch bus tname msg now ctx ss s Hroute Hp) as Hd.
  cbn zeta in Hd. set (env := NewEnvelope now msg ss) in *.
  destruct (start_span ctx env s) as [ctx1 span] eqn:Est.
  destruct Hd as (s1 & mid & Hd & Hch & Hend).
  assert (Hcur : SpanContextFromContext ctx1 = Some span).
  { unfold start_span in Est. pose proof (start_current Hlaws) as Hsc.
    match type of Est with Start ?c ?n ?a ?l = _ => specialize (Hsc c n a l) end. by rewrite Est in Hsc. }
  assert (Hsent : Last (WithStamp env (memoryIDStamp mid)) NameTrace = None).
  { unfold Last, WithStamp. cbn [stamps]. rewrite find_first_snoc. cbn [StampName].
    apply Last_absent, plain_absent; [done|list_in]. }
  assert (Hret : Last (injectTraceContext ctx1 env span) NameTrace
                 = Some (TraceStamp (TraceID span) (SpanID span) (Inject ctx1 ∅))).
  { unfold Last, injectTraceContext, WithStamp. cbn [stamps]. by rewrite find_first_snoc. }
  exists span, {| ResEnvelope := Some (injectTraceContext ctx1 env span); Async := true |},
    (WithStamp env (memoryIDStamp mid)), (injectTraceContext ctx1 env span), s1.
  split_and!; try done; [by eexists|]. intros cctx at_ s2 Hroot Hmore. split.
  - destruct (consumer_span_start cctx tname at_ (WithStamp env (memoryIDStamp mid)) s2) as (n & a & ->).
    unfold extractParentContext. rewrite Hsent.
    pose proof (start_root Hlaws cctx n a (spans (obs s2)) Hroot) as Hf.
    rewrite Forall_forall in Hf. specialize (Hf (span, Ended) (Hmore _ Hend)). by apply not_eq_sym.
  - destruct (consumer_span_start cctx tname at_ (injectTraceContext ctx1 env span) s2) as (n & a & ->).
    unfold extractParentContext. rewrite Hret.
    rewrite bool_decide_eq_false_2 by by apply (inject_some Hprop ctx1 span).
    by apply (start_child Hlaws), (extract_inject Hprop).
Qed.
End TracedTransport.

(** ** Witnesses

    A tracer over contexts that hold a span context, with identifiers longer than all before. *)
Definition fresh_id (l : list (SpanContext * span_op)) : string :=
  foldr (λ sp acc, TraceID sp.1 +:+ acc) "t" l.

Lemma text_length_app (s t : string) : String.length (s +:+ t) = String.length s + String.length t.
Proof. induction s as [|c s IH]; [done|]. exact (f_equal Datatypes.S IH). Qed.

Lemma fresh_id_length l sp : sp ∈ l → String.length (TraceID sp.1) < String.length (fresh_id l).
Proof.
  induction l as [|x l IH]; [by rewrite elem_of_nil|]. rewrite elem_of_cons.
  cbn [fresh_id foldr]. rewrite text_length_app.
  assert (0 < String.length (foldr (λ sp acc, TraceID sp.1 +:+ acc) "t" l)).
  { clear. induction l; cbn; [lia|]. rewrite text_length_app. lia. }
  intros [->|Hin]; [lia|]. specialize (IH Hin). unfold fresh_id in IH. lia.
Qed.

#[local] Instance demo_otel : Otel (option SpanContext) := {|
  Start ctx name attrs l :=
    let sp := {| TraceID := match ctx with Some p => TraceID p | None => fresh_id l end;
                 SpanID := pretty (length l) |} in
    (Some sp, sp);
  Inject ctx m :=
    match ctx with
    | Some sp => <["trace-id" := TraceID sp]> (<["span-id" := SpanID sp]> m)
    | None => m
    end;
  Extract ctx m :=
    match m !! "trace-id", m !! "span-id" with
    | Some t, Some i => Some {| TraceID := t; SpanID := i |}
    | _, _ => ctx
    end;
  SpanContextFromContext ctx := ctx
|}.

Lemma demo_tracer : tracer_laws (option SpanContext).
Proof.
  split; [done|by intros ? ? ? ? ? [= ->]|]. intros ctx name attrs l [= ->]. apply Forall_forall.
  intros sp Hsp Heq. pose proof (fresh_id_length l sp Hsp) as Hlt.
  rewrite Heq in Hlt. cbn in Hlt. lia.
Qed.

Lemma demo_propagator : propagator_laws (option SpanContext).
Proof.
  split; [intros ctx sp [= ->]; apply insert_non_empty|]. intros ctx ctx' sp [= ->]. cbn.
  by destruct sp.
Qed.

#[local, refine] Instance demo_world : World (time * Obs) := {|
  clock := fst; obs := snd; set_obs o s := (s.1, o) |}.
Proof. all: done. Defined.

Definition demo_obs : Obs := {| logs := []; counts := ∅; samples := []; spans := [] |}.
Notation traced_state := (mstate (V := string) (R := nat) (H := (time * Obs)%type)).
Definition traced_transport : traced_state :=
  {| t_name := "memory"; ch := []; cap := 10; pending := ∅; t_closed := false; pendingSeq := 0;
     hst := (0%Z, demo_obs) |}.
Definition traced_bus : MessageBus (V := string) (R := nat) (S := traced_state) (Ctx := option SpanContext) :=
  {| bus_name := "demo"; handlers := ∅; router := {[ "orders.Create" := "memory" ]};
     transports := {[ "memory" := mem_Send ]}; mws := [Tracing_Handle]; closed := false |}.

Lemma trace_broken_at_transport_witness :
  ∃ span res sent returned s1,
    Dispatch traced_bus 5%Z None demo_msg [] traced_transport = (Returns (Ok res), s1)
    ∧ Async res = true ∧ ResEnvelope res = Some returned ∧ ch s1 = [sent]
    ∧ (span, Ended) ∈ spans (obs s1)
    ∧ Last sent NameTrace = None
    ∧ (∃ headers, Last returned NameTrace = Some (TraceStamp (TraceID span) (SpanID span) headers))
    ∧ ∀ cctx at_ s2, SpanContextFromContext cctx = None → spans (obs s1) ⊆ spans (obs s2) →
        TraceID (consumer_span cctx "memory" at_ sent s2) ≠ TraceID span
        ∧ TraceID (consumer_span cctx "memory" at_ returned s2) = TraceID span.
Proof.
  apply (trace_broken_at_transport traced_bus "memory" demo_msg 5%Z None [] traced_transport);
    [exact demo_tracer|exact demo_propagator|split_and!; try done; vm_compute; lia|constructor].
Defined.

#[local, refine] Instance demo_vectors : Vectors := {|
  label_error c vals := if decide (length vals = length (co_labels c)) then None
                        else Some "inconsistent label cardinality" |}.
Proof. intros c vals Hne. rewrite decide_False by done. by eexists. Defined.

Definition demo_metrics : Metrics :=
  NewMetricsFrom "demo" (mk CounterVecK "messenger_dispatches_total" ["type"; "bus"; "status"])
    (mk HistogramVecK "messenger_dispatch_duration_seconds" ["type"; "bus"]).

Lemma observers_transparent_witness :
  ∃ s2, observed_chain demo_metrics
          (λ ctx env s, fail (S := time * Obs) (EText "no") s) None (NewEnvelope (R := nat) 0%Z demo_msg []) (0%Z, demo_obs)
        = (Returns (Err (EText "no")), s2)
        ∧ counts (obs s2) = {[ (("messenger_dispatches_total", []), ["orders.Create"; "demo"; "error"]) := 1%Z ]}.
Proof.
  destruct (observers_transparent demo_metrics (λ ctx env s, fail (S := time * Obs) (EText "no") s) None
    (NewEnvelope (R := nat) 0%Z demo_msg []) (0%Z, demo_obs)) as (d1 & d2 & k & s2 & Hrun & -> & _ & _ & Hc & _).
  { by intros a b c. }
  exists s2. split; [exact Hrun|]. rewrite Hc. reflexivity.
Defined.
