(* ===== verification/EndToEnd.v ===== *)
(** * From the unit of work to the subscribers

    [EndToEnd.v] composes the components that carry an event: the unit of work (UnitOfWork.v)
    commits it to the outbox (Outbox.v), the relay worker (OutboxWorker.v) publishes it, and the
    in-process stream (EventStream.v) hands it to the subscribers.  The first section shows that
    a relay whose calls succeed drains the outbox; the second one that every event committed by
    a unit of work then reaches the subscribers of its type once, in order of time. *)

From S2P Require Import Prelude Errors GoText Event Db Outbox UnitOfWork Json EventBus EventStream OutboxWorker.
Local Open Scope go_scope.

(** ** Calls that succeed *)

Section Calm.
Context {D H : Type}.
Notation world := (world D H).

(** No call from now on fails, and no other transaction holds a lock. *)
Definition undisturbed (w : world) : Prop :=
  ∀ k, pos w ≤ k → c_fault (calls w k) = NoFault ∧ ∀ id, c_locked (calls w k) id = false.

(** [w'] is a later state of the same run. *)
Definition later (w w' : world) : Prop := calls w' = calls w ∧ pos w ≤ pos w'.

#[export] Instance later_preorder : PreOrder later.
Proof.
  split; [by split|]. intros w1 w2 w3 [E1 L1] [E2 L2]. split; [congruence|lia].
Qed.

Lemma undisturbed_later w w' : undisturbed w → later w w' → undisturbed w'.
Proof. intros Hu [E L] k Hk. rewrite E. apply Hu. lia. Qed.

Lemma undisturbed_here w : undisturbed w → c_fault (here w) = NoFault.
Proof. intros Hu. by apply Hu. Qed.

Lemma Exec_undisturbed {A} c (stmt : statement D A) w a d :
  undisturbed w → stmt (here w) (view c w) = Ok (a, d) →
  Exec c stmt w = (Ok a, write c (effect stmt (here w)) (tick w)).
Proof. intros Hu%undisturbed_here Hs. unfold Exec. by rewrite Hu, Hs. Qed.

Lemma later_write c f w : later w (write c f (tick w)).
Proof. destruct c; (split; [done|]); simpl; lia. Qed.

Lemma later_tick w : later w (tick w).
Proof. split; [done|]. simpl. lia. Qed.

Lemma later_set_tx l w : later w (set_tx l w).
Proof. by split. Qed.
End Calm.

Create HintDb calm.
#[export] Hint Resolve undisturbed_later later_write later_tick later_set_tx : calm.
#[export] Hint Extern 0 (later ?w ?w) => reflexivity : calm.

(** ** The relay drains the outbox *)

(** The rows that wait for publication, and the event a row records. *)
Definition pending {Dom} (d : database Dom) : list outbox_row :=
  filter (λ row, r_published_at row = None) (outbox_events d).

Definition row_event (row : outbox_row) : baseEvent string :=
  {| EventID := r_id row; EventType := r_event_type row; AggregateID := r_aggregate_id row;
     EvAggregateType := r_aggregate_type row; OccurredAt := r_created_at row;
     SchemaVersion := 1; Payload := Some (r_payload row); GetMetadata := entry_metadata row |}.

(** A pending row no worker has touched since it was inserted. *)
Definition fresh (cfg : Worker) (row : outbox_row) : Prop :=
  r_claimed_at row = None ∧ is_Some (r_lease_token row) ∧ (r_retry_count row < maxRetries cfg)%Z.

Section Draining.
Context {Dom B C : Type} `{Planner} `{CircuitBreaker C}.
Context (bus_Publish : baseEvent string → B → option error * B).
Context (cfg : Worker).
Notation db := (database Dom).
Notation world := (world db (memory (B := B) (C := C))).
Implicit Types (w : world) (d : db) (rows : list outbox_row).

Lemma scan_fresh rows :
  Forall (λ row, is_Some (r_lease_token row)) rows →
  ∃ es, scan_rows rows = Ok es ∧ map envelopeEvent es = map row_event rows
        ∧ map e_RetryCount es = map r_retry_count rows.
Proof.
  induction 1 as [|row rows [token Ht] _ (es & Hs & He & Hr)]; [by exists []|].
  simpl. unfold Scan. rewrite Ht, Hs. eexists. split; [done|]. simpl. by rewrite He, Hr.
Qed.

(** With no fault, [ClaimBatch] leases the rows it selects. *)
Lemma ClaimBatch_undisturbed token n w es :
  undisturbed w → (0 ≤ n)%Z →
  scan_rows (select_claimable (calls w (1 + pos w)) n (outbox_events (pool w))) = Ok es →
  ∃ w', ClaimBatch token n w = (Ok (map (with_token token) es), w') ∧ later w w'.
Proof.
  intros Hu Hn Hs. unfold ClaimBatch, BeginTx. rewrite undisturbed_here by done.
  set (w1 := set_tx [] (tick w)). assert (L1 : later w w1) by (split; simpl; [done|lia]).
  rewrite (Exec_undisturbed Tx (query_claimable n) w1
    (select_claimable (calls w (1 + pos w)) n (outbox_events (pool w))) (pool w));
    [|by eauto with calm|unfold query_claimable; by rewrite decide_False by lia].
  set (w2 := write Tx _ _). rewrite Hs.
  assert (L2 : later w w2) by (etrans; [exact L1|apply later_write]).
  unfold Ping. rewrite undisturbed_here by eauto with calm.
  assert (L3 : later w (tick w2)) by (etrans; [exact L2|apply later_tick]).
  assert (∃ w4, match es with [] => (None, tick w2) | _ => claimEntriesTx (map e_ID es) token (tick w2) end
           = (None, w4) ∧ later w w4) as (w4 & -> & L4).
  { destruct es as [|e es]; [by eauto|]. unfold claimEntriesTx, buildINClause.
    erewrite Exec_undisturbed by (done || eauto with calm).
    eexists. split; [done|]. etrans; [exact L3|apply later_write]. }
  unfold Commit. rewrite undisturbed_here by eauto with calm.
  eexists. split; [done|]. destruct L4 as [E4 L4]. split; [done|]. simpl. lia.
Qed.

Lemma select_pending k n d :
  Forall (fresh cfg) (pending d) → (∀ id, c_locked k id = false) →
  select_claimable k n (outbox_events d) = take (Z.to_nat n) (by_created_at (pending d)).
Proof.
  intros Hf Hl. unfold select_claimable, pending in *. do 2 f_equal.
  induction (outbox_events d) as [|row l IH]; [done|]. rewrite !filter_cons in *.
  destruct (decide (r_published_at row = None)) as [Hp|Hp].
  - apply Forall_cons in Hf as [(Hc & _) Hf].
    rewrite decide_True by (unfold claimable; by rewrite Hp, Hc). f_equal. by apply IH.
  - rewrite decide_False by (unfold claimable; by destruct (r_published_at row); intros []). by apply IH.
Qed.

(** The events the publisher accepts, and the breaker while nothing has failed: a closed
    breaker runs each request and stays closed when it succeeds. *)
Context (deliverable : baseEvent string → Prop).
Context (bus_accepts : ∀ evt b, deliverable evt → (bus_Publish evt b).1 = None).
Context (closed : C → Prop).
Context (closed_Execute : ∀ (S : Type) (f : S → option error * S) c s, closed c → (f s).1 = None →
  ∃ c', closed c' ∧ Execute f (c, s) = ((f s).1, (c', (f s).2))).

Notation publish_all := (foldl (λ b evt, (bus_Publish evt b).2)).

Lemma publishEntry_accepted entry w :
  deliverable (envelopeEvent entry) → closed (breaker (mem w)) →
  ∃ m, publishEntry bus_Publish cfg entry w = (None, set_mem m w) ∧ closed (breaker m)
       ∧ bus m = (bus_Publish (envelopeEvent entry) (bus (mem w))).2
       ∧ attempts m = attempts (mem w) ++ [(entry, None)].
Proof.
  intros Hd Hc. unfold publishEntry. pose proof (bus_accepts _ (bus (mem w)) Hd) as Hr.
  assert (publish bus_Publish entry (bus (mem w), attempts (mem w))
    = (None, ((bus_Publish (envelopeEvent entry) (bus (mem w))).2, attempts (mem w) ++ [(entry, None)]))) as Hp.
  { unfold publish. simpl. destruct (bus_Publish _ _); simpl in *. by subst. }
  destruct (w_cb cfg).
  - destruct (closed_Execute _ (publish bus_Publish entry) _ (bus (mem w), attempts (mem w)) Hc)
      as (c' & Hc' & ->); [by rewrite Hp|]. rewrite Hp. by eexists.
  - rewrite Hp. by eexists.
Qed.

(** A batch within the retry limit whose events are accepted is published in order. *)
Lemma process_accepted entries p f w :
  Forall (λ e, deliverable (envelopeEvent e) ∧ (e_RetryCount e < maxRetries cfg)%Z) entries →
  closed (breaker (mem w)) →
  ∃ m, process bus_Publish cfg entries p f w = (p ++ map e_ID entries, f, set_mem m w)
       ∧ closed (breaker m) ∧ bus m = publish_all (bus (mem w)) (map envelopeEvent entries)
       ∧ attempts m = attempts (mem w) ++ map (λ e, (e, None)) entries.
Proof.
  intros Hall. revert p w. induction Hall as [|e es [Hd Hr] _ IH]; intros p w Hc; simpl.
  { exists (mem w). rewrite !app_nil_r. split; [by destruct w|done]. }
  unfold process_entry. rewrite bool_decide_false by lia.
  destruct (publishEntry_accepted e w Hd Hc) as (m & -> & Hc' & Hb & Ha).
  destruct (IH (p ++ [e_ID e]) (set_mem m w) Hc') as (m' & -> & Hc'' & Hb' & Ha').
  exists m'. rewrite Hb', Ha'. simpl. rewrite Hb, Ha, <- !app_assoc. done.
Qed.

(** The table after the rows with these identifiers have been claimed and published. *)
Definition published_rows (idl : list string) (claim now : time) (token : string) (row : outbox_row)
    : outbox_row :=
  if decide (r_id row ∈ idl) then publish_row now (set_claim (Some claim) (Some token) row) else row.

Lemma MarkPublished_undisturbed rows claim token w d :
  undisturbed w → rows ≠ [] → pool w = claimed_rows rows claim token d →
  ∃ w', MarkPublished (ids rows) token w = (None, w') ∧ later w w' ∧ mem w' = mem w
        ∧ outbox_events (pool w')
          = map (published_rows (ids rows) claim (c_now (here w)) token) (outbox_events d).
Proof.
  intros Hu Hne Hd. unfold MarkPublished, buildINClause.
  destruct (ids rows) as [|id idl] eqn:Hids; [by destruct rows|]. rewrite <- Hids in *. clear id idl Hids.
  erewrite Exec_undisturbed by done. eexists. split_and!; [done|apply later_write|done|].
  cbn [write pool set_pool tick effect stmt_publish update_where set_outbox outbox_events].
  rewrite Hd, claimed_rows_outbox, map_map. apply map_ext. intros row. unfold published_rows.
  destruct (decide (r_id row ∈ ids rows)) as [Hin|Hin]; simpl.
  - by rewrite !bool_decide_true.
  - by rewrite (bool_decide_false (r_id row ∈ ids rows)), andb_false_r.
Qed.

(** What the relay is given: pending rows no worker has touched, of acceptable events. *)
Record drainable (w : world) : Prop := {
  dr_calls : undisturbed w;
  dr_fresh : Forall (fresh cfg) (pending (pool w));
  dr_events : Forall (λ row, deliverable (row_event row)) (pending (pool w));
  dr_ids : NoDup (ids (outbox_events (pool w)));
  dr_closed : closed (breaker (mem w))
}.

Definition batch (d : db) : list outbox_row :=
  take (Z.to_nat (batchSize cfg)) (by_created_at (pending d)).

Lemma batch_pending d row : row ∈ batch d → row ∈ pending d.
Proof.
  unfold batch. intros (i & Hi & _)%elem_of_take. apply list_elem_of_lookup_2 in Hi.
  by rewrite by_created_at_perm in Hi.
Qed.

(** The claim of a poll cycle: the oldest pending rows, read as the events they record. *)
Lemma claim_drains token w :
  (0 ≤ batchSize cfg)%Z → drainable w →
  ∃ w' es claim, ClaimBatch token (batchSize cfg) w = (Ok (map (with_token token) es), w')
    ∧ later w w' ∧ mem w' = mem w ∧ pool w' = claimed_rows (batch (pool w)) claim token (pool w)
    ∧ map envelopeEvent es = map row_event (batch (pool w))
    ∧ Forall (λ e, deliverable (envelopeEvent e) ∧ (e_RetryCount e < maxRetries cfg)%Z) es.
Proof.
  intros Hn [Hu Hf Hd _ Hc].
  assert (Hsel : select_claimable (calls w (1 + pos w)) (batchSize cfg) (outbox_events (pool w)) = batch (pool w)).
  { apply select_pending; [done|]. intros id. apply Hu. lia. }
  assert (Hb : Forall (λ row, fresh cfg row ∧ deliverable (row_event row)) (batch (pool w))).
  { rewrite Forall_forall in Hf, Hd. apply Forall_forall. intros row Hrow%batch_pending. auto. }
  destruct (scan_fresh (batch (pool w))) as (es & Hs & Henv & Hret).
  { eapply Forall_impl; [exact Hb|]. by intros row [(_ & ? & _) _]. }
  destruct (ClaimBatch_undisturbed token (batchSize cfg) w es Hu Hn) as (w1 & Hcl & L1); [by rewrite Hsel|].
  pose proof (ClaimBatch_cases token (batchSize cfg) w) as [Hm Hres]. rewrite Hcl in Hm, Hres.
  destruct Hres as (_ & Hpool & _). rewrite Hsel in Hpool.
  exists w1, es, (c_now (calls w (3 + pos w))). split_and!; try done.
  clear - Hb Henv Hret. revert es Henv Hret.
  induction Hb as [|row rows [(_ & _ & Hr) Hd] _ IH]; intros [|e es] Henv Hret; try done.
  apply cons_eq_inj in Henv as [He Henv]. apply cons_eq_inj in Hret as [Hr' Hret].
  constructor; [|by apply IH]. rewrite He, Hr'. done.
Qed.

(** One poll cycle publishes the oldest pending rows and marks exactly those. *)
Lemma poll_drains token w :
  (0 ≤ batchSize cfg)%Z → drainable w →
  ∃ w' es claim now, poll bus_Publish cfg token w = (None, w') ∧ later w w' ∧ closed (breaker (mem w'))
    ∧ outbox_events (pool w')
      = map (published_rows (ids (batch (pool w))) claim now token) (outbox_events (pool w))
    ∧ map envelopeEvent es = map row_event (batch (pool w))
    ∧ attempts (mem w') = attempts (mem w) ++ map (λ e, (e, None)) es
    ∧ bus (mem w') = publish_all (bus (mem w)) (map row_event (batch (pool w))).
Proof.
  intros Hn Hw. destruct (claim_drains token w Hn Hw) as (w1 & es & claim & Hcl & L1 & Hm & Hpool & Henv & Hall).
  unfold poll. rewrite Hcl. destruct es as [|e es].
  { destruct (batch (pool w)) as [|row rows]; [|done]. exists w1, [], 0%Z, 0%Z. rewrite Hpool, Hm. simpl.
    rewrite app_nil_r. split_and!; try done; [apply Hw|]. rewrite <- (map_id (outbox_events (pool w))) at 1.
    apply map_ext. intros row. unfold published_rows. by rewrite decide_False by apply not_elem_of_nil. }
  set (es' := map (with_token token) (e :: es)).
  assert (Henv' : map envelopeEvent es' = map row_event (batch (pool w))) by (unfold es'; by rewrite map_map, <- Henv).
  assert (Hids : map e_ID es' = ids (batch (pool w))).
  { transitivity (map EventID (map envelopeEvent es')); [by rewrite map_map|]. by rewrite Henv', map_map. }
  assert (Hne : batch (pool w) ≠ []) by (by intros E; rewrite E in Henv).
  destruct (process_accepted es' [] [] w1) as (m & Hp & Hc & Hb & Ha); [by apply Forall_fmap|rewrite Hm; apply Hw|].
  rewrite Hids in Hp. cbn [app] in Hp. rewrite Hp. unfold es' at 1. cbn [map with_token e_LeaseToken].
  destruct (MarkPublished_undisturbed (batch (pool w)) claim token (set_mem m w1) (pool w))
    as (w2 & Hmark & L2 & Hm2 & Hout); [by apply (undisturbed_later w1); [eapply undisturbed_later; [apply Hw|]|]|done..|].
  exists w2, es', claim, (c_now (here (set_mem m w1))). rewrite Hm2, Hout, <- Henv', <- Hm.
  split_and!; try done; [|by etrans].
  destruct (ids (batch (pool w))) eqn:E; [by destruct (batch (pool w))|]. by rewrite Hmark.
Qed.

Lemma published_rows_id idl claim now token row : r_id (published_rows idl claim now token row) = r_id row.
Proof. unfold published_rows. by case_decide. Qed.

Lemma published_pending idl claim now token l :
  filter (λ row, r_published_at row = None) (map (published_rows idl claim now token) l)
  = filter (λ row, r_id row ∉ idl) (filter (λ row, r_published_at row = None) l).
Proof.
  induction l as [|row l IH]; [done|]. cbn [map]. rewrite !(filter_cons (λ row, r_published_at row = None)), IH.
  destruct (decide (r_id row ∈ idl)) as [Hin|Hin].
  - rewrite decide_False by (unfold published_rows; by rewrite decide_True).
    case_decide; [|done]. rewrite filter_cons. by rewrite decide_False by tauto.
  - assert (published_rows idl claim now token row = row) as -> by (unfold published_rows; by rewrite decide_False).
    case_decide; [|done]. rewrite filter_cons. by rewrite decide_True.
Qed.

(** With distinct identifiers, the rows left after a prefix has been taken are the others. *)
Lemma filter_rest a b :
  NoDup (ids (a ++ b)) → filter (λ row, r_id row ∉ ids a) (a ++ b) = b.
Proof.
  intros Hnd. unfold ids in *. rewrite map_app in Hnd. apply NoDup_app in Hnd as (_ & Hab & _).
  rewrite filter_app.
  assert (filter (λ row, r_id row ∉ map r_id a) a = []) as ->.
  { apply elem_of_nil_inv. intros row [Hn Hrow]%list_elem_of_filter. apply Hn. by apply list_elem_of_fmap_2. }
  cbn [app]. induction b as [|row b IH]; [done|]. rewrite filter_cons, decide_True.
  - f_equal. apply IH. intros id Hid Hb. apply (Hab id Hid). by right.
  - intros Hin. apply (Hab _ Hin). by left.
Qed.

Lemma pending_ids d : NoDup (ids (outbox_events d)) → NoDup (ids (pending d)).
Proof.
  unfold ids, pending. intros Hnd. eapply sublist_NoDup; [exact Hnd|]. apply fmap_sublist, sublist_filter.
Qed.

(** What is left after a poll cycle: the younger rows, as they were. *)
Lemma batch_rest d :
  NoDup (ids (outbox_events d)) →
  filter (λ row, r_id row ∉ ids (batch d)) (pending d) ≡ₚ drop (Z.to_nat (batchSize cfg)) (by_created_at (pending d)).
Proof.
  intros Hnd%pending_ids. rewrite <- (by_created_at_perm (pending d)) at 1.
  pose proof (filter_rest (batch d) (drop (Z.to_nat (batchSize cfg)) (by_created_at (pending d)))) as Hrest.
  unfold batch in *. rewrite take_drop in Hrest. rewrite Hrest; [done|].
  unfold ids. by rewrite by_created_at_perm.
Qed.

Lemma poll_drainable token w w' :
  drainable w → later w w' → closed (breaker (mem w')) →
  (∃ claim now, outbox_events (pool w')
     = map (published_rows (ids (batch (pool w))) claim now token) (outbox_events (pool w))) →
  drainable w' ∧ pending (pool w') = filter (λ row, r_id row ∉ ids (batch (pool w))) (pending (pool w))
  ∧ ids (outbox_events (pool w')) = ids (outbox_events (pool w)).
Proof.
  intros [Hu Hf Hd Hi _] L Hc (claim & now & Hout).
  assert (Hp : pending (pool w') = filter (λ row, r_id row ∉ ids (batch (pool w))) (pending (pool w)))
    by (unfold pending; by rewrite Hout, published_pending).
  assert (Hids : ids (outbox_events (pool w')) = ids (outbox_events (pool w))).
  { rewrite Hout. unfold ids. rewrite map_map. apply map_ext. intros row. apply published_rows_id. }
  split; [|done]. constructor; rewrite ?Hp, ?Hids; try done; [by eapply undisturbed_later| |];
    (apply Forall_forall; intros row [_ Hrow]%list_elem_of_filter; rewrite Forall_forall in Hf, Hd; auto).
Qed.

(** Poll cycles one after the other, with the tokens they generate. *)
Definition polls (tokens : list string) (w : world) : world :=
  foldl (λ w token, (poll bus_Publish cfg token w).2) w tokens.

(** What a run of poll cycles did: the rows [rows], oldest first, were published once each. *)
Definition relayed_rows (w w' : world) (rows : list outbox_row) : Prop :=
  StronglySorted created_le rows
  ∧ (∃ es, map envelopeEvent es = map row_event rows
           ∧ attempts (mem w') = attempts (mem w) ++ map (λ e, (e, None)) es)
  ∧ bus (mem w') = publish_all (bus (mem w)) (map row_event rows).

Lemma polls_drain tokens w :
  (0 < batchSize cfg)%Z → drainable w →
  (Z.of_nat (length (pending (pool w))) ≤ Z.of_nat (length tokens) * batchSize cfg)%Z →
  pending (pool (polls tokens w)) = []
  ∧ ids (outbox_events (pool (polls tokens w))) = ids (outbox_events (pool w))
  ∧ ∃ rows, rows ≡ₚ pending (pool w) ∧ relayed_rows w (polls tokens w) rows.
Proof.
  intros Hn. revert w. induction tokens as [|token tokens IH]; intros w Hw Hlen.
  { assert (pending (pool w) = []) as Hp by (apply nil_length_inv; simpl in Hlen; lia).
    split_and!; [done..|]. exists []. rewrite Hp. split; [done|]. split_and!; [constructor| |done].
    exists []. by rewrite app_nil_r. }
  destruct (poll_drains token w ltac:(lia) Hw) as (w1 & es & claim & now & Hpoll & L & Hc & Hout & He & Ha & Hb).
  destruct (poll_drainable token w w1 Hw L Hc) as (Hw1 & Hp1 & Hi1); [by eauto|].
  pose proof (batch_rest (pool w) (dr_ids w Hw)) as Hrest. rewrite <- Hp1 in Hrest.
  change (polls (token :: tokens) w) with (polls tokens (poll bus_Publish cfg token w).2). rewrite Hpoll. cbn [snd].
  destruct (IH w1 Hw1) as (Hnil & Hi & rows & Hperm & Hsort & (es' & He' & Ha') & Hb').
  { rewrite Hrest, length_drop, by_created_at_perm. cbn [length] in Hlen. lia. }
  split_and!; [done|congruence|]. exists (batch (pool w) ++ rows).
  split; [rewrite Hperm, Hrest; unfold batch; rewrite take_drop; apply by_created_at_perm|]. split_and!.
  - apply (StronglySorted_app_2 created_le); [|apply StronglySorted_take, by_created_at_sorted|done].
    intros a b Hin Hb0. rewrite Hperm, Hrest in Hb0. pose proof (by_created_at_sorted (pending (pool w))) as Hs.
    rewrite <- (take_drop (Z.to_nat (batchSize cfg)) (by_created_at _)) in Hs.
    exact (StronglySorted_app_le _ _ _ _ _ Hs Hin Hb0).
  - exists (es ++ es'). rewrite !map_app, He, He', Ha', Ha, <- app_assoc. done.
  - rewrite Hb', Hb, map_app, foldl_app. done.
Qed.

End Draining.

(** ** From the unit of work to the handlers *)

Section Composition.
Context {P Dom gotype V W C : Type} `{GoData gotype V} `{Planner} `{CircuitBreaker C}.
Notation value := (value gotype V).
Notation Event := (baseEvent value).

(** The outbox store: [json.Marshal] of a payload, the JSONB input, a [lease_token] column
    whose default is not NULL, and the error of a violated primary key. *)
Context (marshal : option P → result error string) (jsonb : string → result error string).
Context (lease_default : string) (unique_violation : string → error).
#[local] Instance the_outbox
    : OutboxInserter (database Dom) (gmap loc (Base P)) P outbox_row (list dlq_row * Dom) :=
  store_inserter marshal jsonb (Some lease_default) unique_violation.

(** The in-process stream with the handlers [subs ty] subscribed to each event type. *)
Context (logger : string → nat → error → prog W unit) (uuid : W → string) (now : W → time).
#[local] Instance the_bus : Stream (InprocessStream W) W := InprocessStream_Stream logger.
Context (registry : TypeRegistry gotype) (stream : InprocessStream W).
Context (subs : string → list (EventHandler gotype V W)).
Context (stream_subs : ∀ ty, subject_handlers stream ty = map (event_handler uuid now registry ty) (subs ty)).
Context (handlers_return : ∀ ty h evt s, h ∈ subs ty → ∃ r s', h evt s = (Returns r, s')).
Context (logger_returns : ∀ ty i err s, ∃ s', logger ty i err s = (Returns (), s')).

(** The payload of a relayed event is the stored text, and [text] its document. *)
Context (bytes_type : gotype) (bytes_value : string → V) (text : string → Json.RawMessage).
Context (bytes_text : ∀ s, as_bytes bytes_type (bytes_value s) = Some (text s)).

Definition as_event (e : baseEvent string) : Event :=
  {| EventID := EventID e; EventType := EventType e; AggregateID := AggregateID e;
     EvAggregateType := EvAggregateType e; OccurredAt := OccurredAt e; SchemaVersion := SchemaVersion e;
     Payload := (λ s, VStruct bytes_type (bytes_value s)) <$> Payload e; GetMetadata := GetMetadata e |}.

(** The worker's bus is the stream publisher; [bus_Publish] is any function that agrees with
    it where it returns. *)
Context (bus_Publish : baseEvent string → W → option error * W).
Context (bus_is_stream : ∀ e s r s',
  streamEventPublisher_Publish stream (as_event e) s = (Returns r, s') → bus_Publish e s = (r, s')).

(** The event a subscriber sees for an event of the relay, when its payload decodes. *)
Definition decoded (e : baseEvent string) : option Event :=
  body ← Payload e; t ← types registry !! EventType e;
  match json_Unmarshal t (text body) with
  | Ok v => Some (set_payload (Some (VPtr t (Some v))) (as_event e))
  | Err _ => None
  end.

Definition hand_over (s : W) (evt : Event) : W :=
  (notify logger (EventType evt) 0 (subs (EventType evt)) evt s).2.

Lemma notify_returns ty i hs evt s :
  hs ⊆ subs ty → ∃ s', notify logger ty i hs evt s = (Returns (), s').
Proof.
  revert i s. induction hs as [|h hs IH]; intros i s Hsub; [by exists s|]. cbn [notify]. unfold pbind.
  destruct (handlers_return ty h evt s) as (r & s1 & ->); [apply Hsub; by left|].
  assert (Hsub' : hs ⊆ subs ty) by (intros x Hx; apply Hsub; by right).
  destruct r as [err|]; [|by apply IH]. destruct (logger_returns ty i err s1) as [s2 ->]. by apply IH.
Qed.

(** The publisher hands an event that decodes to the subscribers of its type. *)
Lemma bus_delivers e evt s :
  portable (as_event e) → decoded e = Some evt → bus_Publish e s = (None, hand_over s evt).
Proof.
  intros Hp Hd. unfold decoded in Hd. destruct (Payload e) as [body|] eqn:Hpay; [|done]. simpl in Hd.
  destruct (types registry !! EventType e) as [t|] eqn:Ht; [|done]. simpl in Hd.
  destruct (json_Unmarshal t (text body)) as [v|] eqn:Hv; [|done]. injection Hd as <-.
  apply bus_is_stream. unfold streamEventPublisher_Publish, as_event at 1. cbn [Payload EventType].
  rewrite Hpay. cbn [fmap option_fmap option_map marshalPayload]. rewrite bytes_text.
  unfold pbind at 1. cbn [stream_Publish the_bus InprocessStream_Stream].
  rewrite (stream_notify logger uuid now stream registry (EventType e) (subs (EventType e)) (as_event e) t _ v)
    by done.
  unfold hand_over, pbind, pret. cbn [EventType as_event set_payload].
  destruct (notify_returns (EventType e) 0 (subs (EventType e))
    (set_payload (Some (VPtr t (Some v))) (as_event e)) s) as [s' Hn]; [done|].
  by rewrite Hn.
Qed.

(** The event the relay reads back for an event of the unit of work. *)
Definition stored (ctx : context) (u : UnitOfWork) (evt : baseEvent P) : option (baseEvent string) :=
  match marshal (Payload evt) with
  | Ok payload =>
      match jsonb payload with
      | Ok body =>
          Some {| EventID := EventID evt; EventType := EventType evt; AggregateID := AggregateID evt;
                  EvAggregateType := EvAggregateType evt; OccurredAt := OccurredAt evt; SchemaVersion := 1;
                  Payload := Some body; GetMetadata := enrichMetadataFromContext ctx (source_meta u) |}
      | Err _ => None
      end
  | Err _ => None
  end.

(** The event a subscriber sees for an event of the unit of work. *)
Definition received (ctx : context) (u : UnitOfWork) (evt : baseEvent P) : option Event :=
  stored ctx u evt ≫= decoded.

Lemma inserted_stored ctx u evt row :
  inserted_row marshal jsonb (Some lease_default) ctx evt (source_meta u) row →
  stored ctx u evt = Some (row_event row).
Proof.
  intros (Hid & Hat & Ha & Ht & Hc & _ & _ & _ & _ & (payload & Hm & Hj) & Hmeta). unfold stored, row_event.
  by rewrite Hm, Hj, Hid, Hat, Ha, Ht, Hc, Hmeta.
Qed.

Lemma bus_delivers_all evts es s :
  Forall2 (λ e evt, portable (as_event e) ∧ decoded e = Some evt) es evts →
  foldl (λ b e, (bus_Publish e b).2) s es = foldl hand_over s evts.
Proof.
  intros Hall. revert s. induction Hall as [|e evt es evts [Hp Hd] _ IH]; intros s; [done|].
  cbn [foldl]. rewrite (bus_delivers e evt) by done. apply IH.
Qed.

(** The subscribers' view of the rows a relay publishes. *)
Lemma rows_decoded rows :
  Forall (λ row, is_Some (decoded (row_event row))) rows →
  ∃ evts, map Some evts = map (λ row, decoded (row_event row)) rows
          ∧ (StronglySorted created_le rows → StronglySorted (λ a b, (OccurredAt a ≤ OccurredAt b)%Z) evts).
Proof.
  assert (Htime : ∀ e evt, decoded e = Some evt → OccurredAt evt = OccurredAt e).
  { intros e evt. unfold decoded. destruct (Payload e); [|done]. simpl.
    destruct (types registry !! EventType e) as [t|]; [|done]. simpl.
    destruct (json_Unmarshal t _); [|done]. by intros [= <-]. }
  induction 1 as [|row rows [evt He] _ (evts & Hm & Hs)]; [exists []; split; [done|constructor]|].
  exists (evt :: evts). split; [cbn [map]; by rewrite Hm, He|]. intros [Hs' Hle]%StronglySorted_inv.
  constructor; [by apply Hs|]. apply Forall_forall. intros evt' Hin.
  assert (Some evt' ∈ map (λ row, decoded (row_event row)) rows) as (row' & Heq & Hrow')%list_elem_of_fmap
    by (rewrite <- Hm; by apply list_elem_of_fmap_2).
  symmetry in Heq. rewrite (Htime _ _ He), (Htime _ _ Heq). rewrite Forall_forall in Hle. by apply Hle.
Qed.

Lemma rows_delivered rows evts s :
  map Some evts = map (λ row, decoded (row_event row)) rows →
  Forall (λ row, portable (as_event (row_event row)) ∧ is_Some (decoded (row_event row))) rows →
  foldl (λ b e, (bus_Publish e b).2) s (map row_event rows) = foldl hand_over s evts.
Proof.
  intros Hm Hall. apply bus_delivers_all. revert evts Hm.
  induction Hall as [|row rows [Hp _] _ IH]; intros [|evt evts] Hm; try done.
  cbn [map] in Hm. apply cons_eq_inj in Hm as [He Hm]. constructor; [done|by apply IH].
Qed.

(** The table a committed unit of work leaves: its rows are the pending ones, one for each
    event, in order. *)
Lemma committed_pending u ctx aggs (fn : body) w w1 h' cfg :
  (∀ c, only_through_tx (fn c)) →
  (∀ c w0, outbox_events (tx_view (fn c w0).2) = outbox_events (tx_view w0)) →
  (∀ c w0, mem w0 = mem w → mem (fn c w0).2 = h') →
  ExecuteMulti u ctx aggs fn w = (Returns None, w1) → pending (pool w) = [] → (0 < maxRetries cfg)%Z →
  Forall2 (λ evt row, stored ctx u evt = Some (row_event row)) (drained aggs h') (pending (pool w1))
  ∧ Forall (fresh cfg) (pending (pool w1)).
Proof.
  intros Htx Hout Hmem Hrun Hnone Hmax.
  pose proof (ExecuteMulti_cases u ctx aggs fn w Htx) as Hcom. rewrite Hrun in Hcom.
  destruct Hcom as [(w0 & wf & Ht0 & Hp0 & Hm0 & Hfn & _ & rows & Hrows & Hall) _].
  pose proof (Hout (Inject ctx SqlTx) w0) as Ho. pose proof (Hmem (Inject ctx SqlTx) w0 Hm0) as Hh.
  rewrite Hfn in Ho, Hh. cbn [snd] in Ho, Hh. rewrite Hh in Hall.
  assert (Hv : tx_view w0 = pool w) by (unfold tx_view; by rewrite Ht0, Hp0).
  cbn [ob_rows the_outbox store_inserter] in Hrows. rewrite Ho, Hv in Hrows.
  cbn [ob_carries the_outbox store_inserter] in Hall.
  assert (pending (pool w1) = rows) as ->.
  { unfold pending in *. rewrite Hrows, filter_app, Hnone. cbn [app]. clear - Hall.
    induction Hall as [|evt row evts rows Hrow _ IH]; [done|]. rewrite filter_cons, IH, decide_True; [done|].
    by destruct Hrow as (_ & _ & _ & _ & _ & Hp & _). }
  split.
  - eapply Forall2_impl; [exact Hall|]. intros evt row Hrow. by apply (inserted_stored ctx) in Hrow.
  - clear - Hall Hmax. induction Hall as [|evt row evts rows Hrow _ IH]; constructor; [|done].
    destruct Hrow as (_ & _ & _ & _ & _ & _ & Hc & Hl & Hr & _). split_and!; [done|by rewrite Hl|lia].
Qed.

(** A closed breaker runs each request and stays closed when it succeeds. *)
Context (closed : C → Prop).
Context (closed_Execute : ∀ (S : Type) (f : S → option error * S) c s, closed c → (f s).1 = None →
  ∃ c', closed c' ∧ OutboxWorker.Execute f (c, s) = ((f s).1, (c', (f s).2))).

(** An event that can make the whole journey: it is stored, its envelope survives the headers,
    and its payload decodes to the registered type. *)
Definition travels (ctx : context) (u : UnitOfWork) (evt : baseEvent P) : Prop :=
  ∃ e, stored ctx u evt = Some e ∧ portable (as_event e) ∧ is_Some (decoded e).

End Composition.

(** ** A concrete relay *)

Lemma five_closed (S : Type) (f : S → option error * S) c s :
  c < 5 → (f s).1 = None → ∃ c', c' < 5 ∧ OutboxWorker.Execute f (c, s) = ((f s).1, (c', (f s).2)).
Proof.
  intros Hc Hf. exists 0. split; [lia|]. cbn. unfold execute_five. cbn. rewrite decide_False by lia.
  destruct (f s) as [[err|] s']; [done|]. done.
Qed.

(** Batches of one row, and two rows inserted in the wrong order. *)
Definition one_by_one : Worker :=
  {| w_dlq := true; w_cb := true; w_notify := false; pollInterval := 10 ^ 9; pollTimeout := defaultPollTimeout; batchSize := 1; maxRetries := 3;
     retention := 10 ^ 12 |}.
Definition two_pending : world (database unit) (memory (B := list string) (C := nat)) :=
  {| pool := {| outbox_events := [set_claim None (Some "") (sample_row "e-2" 20%Z);
                                  set_claim None (Some "") (sample_row "e-1" 10%Z)];
                dead_letter_queue := []; domain := tt |};
     tx_writes := []; mem := sample_memory; calls := calm 30%Z; pos := 0 |}.


(** The subscriber of the order events records what it is given. *)
Definition order_stream : InprocessStream (list (baseEvent (value nat Z))) :=
  subscribed (H := wire_data) no_log (λ _, "new") (λ _, 5%Z) orders "order.created" [record_event].
Definition order_subs (ty : string) : list (EventHandler nat Z (list (baseEvent (value nat Z)))) :=
  if decide (ty = "order.created") then [record_event] else [].
Definition number_of (s : string) : Z := default 0%Z (Atoi s).
Definition number_text (s : string) : Json.RawMessage := Some (JObject [("n", JInt (number_of s))]).

Definition order_publish (e : baseEvent string) (s : list (baseEvent (value nat Z)))
    : option error * list (baseEvent (value nat Z)) :=
  match streamEventPublisher_Publish (H := wire_data) (H0 := InprocessStream_Stream no_log) order_stream
          (as_event 0 number_of e) s with
  | (Returns r, s') => (r, s')
  | (_, s') => (Some (EText "no result"), s')
  end.

Lemma order_stream_subs ty :
  subject_handlers order_stream ty
  = map (event_handler (H := wire_data) (λ _, "new") (λ _, 5%Z) orders ty) (order_subs ty).
Proof.
  unfold order_subs. case_decide as Hty; [subst; by apply subscribed_handlers|].
  unfold order_stream, subscribed, subject_handlers. cbn. by rewrite lookup_insert_ne.
Qed.

Definition relay_start : world (database (list string)) (memory (B := list (baseEvent (value nat Z))) (C := nat)) :=
  {| pool := pool (ExecuteMulti (H := sample_store) sample_uow sample_ctx [1%nat; 1%nat] sample_fn (sample_start false)).2;
     tx_writes := []; mem := {| bus := []; breaker := 0; attempts := []; warned := [] |};
     calls := calm 40%Z; pos := 0 |}.

Lemma sample_fn_outbox c w : outbox_events (tx_view (sample_fn c w).2) = outbox_events (tx_view w).
Proof.
  unfold sample_fn, Exec. destruct (c_fault (here w)); cbn; unfold tx_view; cbn; by rewrite ?foldl_app.
Qed.

Lemma sample_fn_mem c w : mem (sample_fn c w).2 = mem w.
Proof.
  unfold sample_fn. set (stmt := λ _ _, Ok _). pose proof (Exec_mem Tx stmt w) as Hm.
  by destruct (Exec Tx stmt w) as [[]?].
Qed.

Lemma sample_run_commits :
  ExecuteMulti (H := sample_store) sample_uow sample_ctx [1%nat; 1%nat] sample_fn (sample_start false)
  = (Returns None,
     (ExecuteMulti (H := sample_store) sample_uow sample_ctx [1%nat; 1%nat] sample_fn (sample_start false)).2).
Proof. vm_compute. reflexivity. Qed.

Lemma order_subs_return ty h evt s : h ∈ order_subs ty → ∃ r s', h evt s = (Returns r, s').
Proof. unfold order_subs. case_decide; [|by intros ?%elem_of_nil]. intros ->%list_elem_of_singleton. by do 2 eexists. Qed.

Lemma order_publish_agrees e s r s' :
  streamEventPublisher_Publish (H := wire_data) (H0 := InprocessStream_Stream no_log) order_stream
    (as_event 0 number_of e) s = (Returns r, s') →
  order_publish e s = (r, s').
Proof. intros Hp. unfold order_publish. by rewrite Hp. Qed.

